(* ===== verification/_CoqProject ===== *)
-Q . S2P
Prelude.v
Bytes.v
MetaAdv.v
SyslinuxAdv.v
Meta.v
ServiceEvents.v
ServiceRunner.v
Services.v
Restart.v
Sequence.v
Sequencer.v
Controller.v
PriorityLock.v
EventStream.v
Errors.v
MetaUse.v
Block.v
Devices.v
Keys.v
Encryption.v
Volumes.v
VolumeProcess.v
VolumeSafety.v
VolumeManager.v
VolumeOrder.v
VolumeForms.v
VolumeSizes.v
VolumeTeardown.v
VolumeExamples.v
MountResources.v
VolumeMounter.v
MountRequests.v
FileSystems.v
MountPoint.v
Mounts.v
MountSafety.v
MountAttributes.v
MountSim.v
MountExamples.v
Netip.v
NfTables.v
NfMachine.v
NfCorrect.v
NfTests.v
NfCompile.v
Firewall.v
FirewallBatch.v
FirewallChains.v
FirewallValid.v
FirewallSafety.v
FirewallExamples.v
MounterClient.v
Acquire.v
AcquireSafety.v
AcquireRun.v
Persistence.v
AcquireExamples.v
Text.v
TextFacts.v
GrubConfig.v
Versions.v
GrubCodec.v
BootMount.v
Grub.v
BootFrame.v
GrubSafety.v
GrubUpgrade.v
GrubImage.v
GrubExamples.v
Efi.v
EfiCodec.v
UkiName.v
EfiVars.v
SdBoot.v
SdSafety.v
SdExamples.v
Bootloader.v
Update.v
UpdateSafety.v
UpdateExamples.v
