(* ===== verification/Prelude.v ===== *)
(** * Verification of the Chubo OS node agent

    [machined] (src/internal/app/machined) is the init process and node agent of Chubo OS.
    This library models the parts of it that decide what happens to a machine and to the
    data on it, and proves what makes them correct:

    - META, the key-value partition that survives reinstallation;
    - the set of system services, started and stopped along their dependencies;
    - the sequences (boot, upgrade, reset, ...) that take a machine through its life, the
      lock they run under, and the events they publish;
    - the volumes of a machine: how partitions are found or made, encrypted, formatted,
      and closed again, and the keys of the encrypted ones;
    - the mounts of the volumes: who asks for one, how it is made, changed and taken down;
    - the firewall: from the documents of the configuration to the rules in the kernel;
    - the configuration of the machine: where it is taken from, and when it is saved;
    - the bootloaders GRUB and sd-boot: their configuration, upgrades and rollbacks;
    - updates of the machine: which are allowed, and how one that fails is taken back.

    They meet as follows.  A sequence (Controller.v) runs under the lock (PriorityLock.v)
    the phases its plan lists (Sequencer.v) and publishes to the event stream
    (EventStream.v); tasks of the plans start and stop services (Services.v over
    ServiceRunner.v), write META (Meta.v) and tear the volumes down, which the volume
    manager (VolumeManager.v) does, as it brings them up.  A volume that is ready may be
    mounted: a client's automaton (VolumeMounter.v) asks with a volume mount request, which
    the request controller joins with the others for the volume into a mount request
    (MountRequests.v); the mount controller (Mounts.v) serves it through a manager of mount
    points (MountPoint.v), and the status controller (MountRequests.v) hands the resulting
    mount status to each requester.  Two such clients deal with the configuration: the one
    that acquires it (Acquire.v) reads it from the STATE volume, and the one that persists
    it (Persistence.v) writes it there and holds the volumes until it has; both keep the
    automaton of VolumeMounter.v over their passes (MounterClient.v).  The firewall
    (Firewall.v over NfTables.v) is made of documents of the configuration.  The bootloaders
    (Grub.v over GrubConfig.v and BootMount.v; SdBoot.v over EfiVars.v, Efi.v and UkiName.v)
    are chosen between in Bootloader.v.  The installer (Update.v) upgrades the one of the disk
    and puts the label before into META (Meta.v, seen as in MetaUse.v); when the new system
    does not boot, [machined] goes back to that label, and when it does, forgets it.

    ** How code is modelled

    A Go function is a Gallina function of the same name.  State a function changes is
    passed explicitly: where little state is involved as a value in the result, elsewhere
    in the monad [prog S E A] of this file (state, Go error, panic), whose combinators
    read like the code ([with_defer] is [defer], [wrapf] is [fmt.Errorf] around an error,
    [retryf] its retryable variant).  A panic is an outcome of its own ([outcome]):
    theorems say where the code panics, or that it does not.  Machine integers are [Z]
    with the wrap-around written out ([u8], [u32], [u64], [VolumeManager.int]); a byte is
    a [Z] between 0 and 255; a map is a [gmap]; where Go ranges over a map, the order is a
    parameter.  Goroutines are explicit: a schedule, a sequence of activities or a step
    relation interleaves them, and the theorems hold for every interleaving.

    Code that is not in the repository, or that talks to hardware, is an interface (a
    [Class]) with, where needed, a class of the laws the code relies on; every theorem
    that assumes laws has an example at a concrete instance that satisfies them:
    [MetaAdv.ADV] (one promise of META's formats to META, discharged by both formats),
    [Meta.MetaStore] (COSI state), [Meta.FileSystem], SHA-256 as a parameter of the META
    format, [PriorityLock.Priority], [EventStream.EventID] (xid), [Block.CelGo] (the
    parser and evaluator of cel-go), [Block.Humanize], [Devices.Devices] (block devices,
    blkid, GPT, mkfs, LUKS), [Keys.KeyServices] (KMS, TPM, EFI, random source, JSON of
    tokens), [Encryption.Luks] (option checks), [VolumeManager.Runtime] (COSI calls of the
    volume manager), [MountResources.Cosi] (COSI calls on one kind of resource),
    [FileSystems.Kernel] (system calls, files, repair commands, the clock of go-retry),
    [Netip.Netipx] (sets of addresses), [NfMachine.NfMachine] (nftables in the kernel),
    [MounterClient.RootFiles] (files of a volume), [Acquire.AcquireWorld] and
    [Persistence.PersistWorld] (loader and validation of documents, platform, command line,
    decoders, COSI calls of the two controllers), [BootMount.BootWorld] (blkid, mounts, files,
    commands and kernel images of the bootloaders, with the laws [BootFrame.BootFiles] of
    files), [Efi.Utf16], [EfiVars.EfiWorld] (removal, directories and attributes of files, with
    the laws [EfiVars.EfiFiles]), [SdBoot.SdWorld] (globs, the probe of a disk, files in
    memory, with the laws [SdSafety.SdFiles]), [Versions.Semver] (semantic versions, with laws),
    [Bootloader.GptWorld] (partition tables, with laws) and [Update.InstallWorld] (kernel
    arguments, the version API of the machine, probes and wipes of the installer).
    Calls on an interface over a world [W] return the next world, so answers may change
    with every call; calls that matter are logged in order ([Devices.trace]).

    ** The files

    Foundations.  Prelude.v (this file): outcomes, the monad and its rules, lists, option
    and integer lemmas, tactics, hints.  Bytes.v: big- and little-endian words.

    META.  MetaAdv.v: the ADV interface and, in Module [Chubo], the extended format
    (internal/pkg/meta/internal/adv/{adv,chubo/chubo}.go).  SyslinuxAdv.v: the legacy
    format (adv/syslinux/syslinux.go).  Meta.v: the store (internal/pkg/meta/meta.go) with
    loading, reloading, flushing, the mirrored resources, and an in-memory instance.
    Theorems: marshalled images load back and a torn write leaves the old or the new
    contents; a flush followed by [New] gives the same values; the resources mirror the
    tags; each operation on a legacy block, errors included; parsing terminates on every
    image; what oversized entries, deletions and failing writes do.

    Services.  ServiceEvents.v (system/events, system/health), ServiceRunner.v
    (system/service_runner.go), Services.v (system/system.go), Restart.v
    (system/runner/restart).  Theorems: how a run of a service ends and in which state, no
    wake-up of a waiter is lost, the history keeps the latest events, health changes are
    notified, stopping expands to the closure of reverse dependencies and stops in order,
    and loading, starting, unloading, with their errors.  Updates of a state and of the
    health have a part under the lock, and the notifications and sends after it; the
    theorem on wake-ups interleaves these parts, the others run them in one.  A wait that
    nothing ends is the panic [Blocks]: a service with a health check that ends by itself
    comes there.

    Sequences.  Sequence.v (runtime/sequencer.go, mode.go), Sequencer.v
    (runtime/v1alpha1/v1alpha1_sequencer.go), Controller.v (v1alpha1_controller.go),
    PriorityLock.v (v1alpha1_priority_lock.go), EventStream.v (v1alpha1_events.go,
    runtime/events.go).  Theorems: a run executes its phases in order and stops at the
    first failure, whatever its concurrent tasks do; in every plan, and in every run, the
    machine halts only after services stopped, and is halted, upgraded or reset only after
    the task that tears volumes down, with the exceptions the theorems name; the lock is exclusive and is taken over by the rules of the table; a watcher
    is sent exactly the events it asked for, until it is a full ring behind; the texts of
    sequences and modes round trip.

    Volumes.  Errors.v: Go error values and the rules [ensures] and [yields] of partial
    correctness.  Block.v: the resources (pkg/machinery/resources/block) and CEL
    expressions (pkg/machinery/cel).  Devices.v: the interface to the devices, and the wipe
    of partitions (internal/pkg/partition/helpers.go).  Keys.v: the key handlers
    (internal/pkg/encryption/keys).  Encryption.v: the handler of an encrypted volume
    (internal/pkg/encryption/encryption.go).  Volumes.v: the operations of the automaton
    (controllers/block/internal/volumes).  VolumeProcess.v: the automaton itself
    ([processVolumeConfig]).  VolumeManager.v: the controller
    (controllers/block/volume_manager.go).  VolumeExamples.v: simulated devices and the
    theorems at concrete inputs.
    Theorems: [key_slots_follow_configuration] (Encryption.v): formatting and opening
    leave the configured key slots, and opening spares the one in use.  [volume_automaton]
    (VolumeProcess.v): the loop refines a step relation on phases and ends.
    [volumes_destroy_no_data] (VolumeSafety.v): a monitor of the log accepts every run, so
    nothing is formatted or encrypted that a probe under the lock did not find blank.
    [volumes_in_order] (VolumeOrder.v): the sort and the integer gate of the loop are the
    reference order.  [volume_status_well_formed] (VolumeForms.v): a status has the form
    of its phase.  [partition_sizes] (VolumeSizes.v): sizes respect their bounds in 64-bit
    arithmetic.  [volumes_torn_down] (VolumeTeardown.v): volumes go down inside out.

    Mounts.  MountResources.v: resources with their metadata and the calls on them.
    VolumeMounter.v: automata (pkg/automaton/machine.go) and the one of a volume mount
    (automaton/blockautomaton/volume_mount.go).  MountRequests.v: the controllers of
    mount requests and of mount statuses (controllers/block/{mount_request,
    mount_status}.go).  FileSystems.v: filesystems and the root that keeps one open
    (pkg/xfs, pkg/makefs, pkg/filetree, internal/pkg/selinux).  MountPoint.v: mount
    points, their managers, overlays (internal/pkg/mount/v3).  Mounts.v: the mount
    controller (controllers/block/mount.go).  MountSim.v and MountExamples.v: a simulated
    store and kernel, the theorems at concrete inputs, and what goes wrong where the code
    does not do what it means to.
    Theorems: [mounts_released] (MountSafety.v): the finalizers that keep a mount are
    dropped only after the mount is gone, and those missing are added before it is made.
    [disk_attributes_follow] (MountAttributes.v): the attributes the kernel was told are
    those on record, on every path.  [mount_requests_pass] and [mount_statuses_held]
    (MountRequests.v): what a pass writes, and that a status is let go only after all
    that was made of it is destroyed.  [volume_mounter_protocol] (VolumeMounter.v): a
    mounter refines its protocol automaton.  [mount_tried_once] (MountPoint.v): a mount
    is tried once, and what each outcome leaves in the kernel.

    Firewall.  Netip.v: addresses, prefixes, sets of addresses (net/netip,
    adapters/network/ipset.go).  NfTables.v: rules and their compilation
    (resources/network/nftables_chain.go, adapters/network/nftables_rule.go).  NfMachine.v:
    what instructions do in the kernel, as laws.  NfCorrect.v, NfTests.v, NfCompile.v: set
    elements, each condition, whole rules.  Firewall.v: documents, chains and batches
    (config/types/network, controllers/network/nftables_chain{_config,}.go).
    FirewallBatch.v, FirewallChains.v, FirewallValid.v: what a batch leaves in the kernel,
    what a chain decides, what validation accepts.  FirewallExamples.v:
    executable instances of the interfaces that satisfy their laws, the
    theorems at concrete inputs, and what the code gets wrong.
    Theorems: [firewall_decides] (FirewallSafety.v): the batch is made and, in the kernel,
    decides on every packet as the documents do, where no entry allows what another one
    excludes.  [compiled_rules_decide]
    (FirewallBatch.v): so does one compiled rule.  [port_validation] (FirewallValid.v): the
    validation of ports is exact.  They are limited
    to rules whose address ranges end before the last address of their family, whose source
    and destination matches are for the same families, whose ranges of ports do not meet,
    and that do not clamp the MSS, and to batches of fewer than 2^32 sets; examples show
    what happens elsewhere.

    Configuration.  MounterClient.v: a controller with a volume mounter and a memory, and
    the files of a volume (adapters/block/volume_mount_status.go, pkg/xfs/root.go).
    Acquire.v: the state machine that acquires the configuration
    (controllers/config/acquire.go; [State.SetConfig] of runtime/v1alpha2); one pass of
    [Run] is [Reconcile], its start is [Start].  Persistence.v: the controller that saves
    it (controllers/config/persistence.go); one pass is [Persist].  AcquireExamples.v: a
    machine made of tables, and runs on it.
    Theorems: [acquisition_follows] and [acquired_configuration] (AcquireRun.v, over the
    abstract acquisition of AcquireSafety.v): the controller takes the sources in order,
    and what it has set in the end is complete, validated and persisted.
    [lifecycle_released] (Persistence.v): the volumes are held until the configuration is
    saved.  [persisted_whole] there: the file is replaced as a whole.

    Boot.  Text.v: strings, paths and the regular expressions of Go's [regexp] that are used;
    TextFacts.v: how they match.  GrubConfig.v: labels, the configuration, how it is written
    and read (bootloader/grub/{boot_label,grub,encode,decode,quote}.go).  GrubCodec.v: that
    the two agree.  BootMount.v: operations on mounted partitions and copies of files
    (bootloader/mount/mount.go, internal/pkg/mount/v3/managers.go, pkg/imager/utils/copy.go).
    Grub.v: installing, upgrading, reverting, probing, kexec, the images of the imager
    (bootloader/grub/{install,upgrade,revert,probe,grub}.go).  GrubImage.v: block lists of
    images (grub/blocklist.go).  GrubExamples.v: a disk that is a table of files, the theorems
    at concrete inputs, and what is not read back.
    BootFrame.v: the laws of files, and which files each operation leaves alone.
    Efi.v: device paths, load options, boot orders, GUIDs (internal/pkg/efivarfs/{boot,
    devicepath}.go, internal/pkg/msguid), with EfiCodec.v.  EfiVars.v: the variables as files,
    and boot entries (efivarfs/{efivarfs,variables}.go).  UkiName.v and SdBoot.v: sd-boot (bootloader/sdboot/{sdboot,efivars}.go);
    SdExamples.v: the names of the tests, and upgrades on a table of files.
    Theorems: [decode_encode] (GrubCodec.v): what is written for a valid configuration with
    legible texts is read back.  [upgrade_keeps_current] and [rollback_restores]
    (GrubUpgrade.v, over the calculus of files of GrubSafety.v): the label the machine boots
    from is left alone by an upgrade, and is booted again after a rollback.
    [blocklists_patched] (GrubImage.v): which bytes of the images change.
    [sd_upgrade_keeps_image] (SdSafety.v): an upgrade of sd-boot after a probe leaves the booted image alone,
    and names a new default only after its image is in place.  [load_option_roundtrip]
    (EfiCodec.v): load options are read back as written.
    Those on upgrades are about an empty mount prefix, no image mode and ASCII texts; in
    GrubSafety.v [grub-install] is taken to leave grub.cfg and the kernels alone.  A write that fails may
    leave any contents of grub.cfg, which the log of writes tells.  Closing a file has no
    effect.

    Updates.  Versions.v: quirks of versions, sizes of partitions, the bootloader of an image,
    and which version may follow which (pkg/machinery/imager/quirks,
    pkg/machinery/compatibility, pkg/imager/profile/output.go).  Bootloader.v: the bootloader of
    a disk, dual boot, the removal of the unused one (bootloader/bootloader.go,
    bootloader/dual).  MetaUse.v: what the operations of META do to the values in memory and on
    the device, whatever the resources answer.  Update.v: the installer up to a whole upgrade
    ([upgrade_machine] is [Install] in the mode [ModeUpgrade];
    cmd/installer/pkg/install/{install,errata,preflight}.go), going back (app/machined/revert.go)
    and forgetting ([drop_fallback] is a turn of [Run] of
    controllers/runtime/drop_upgrade_fallback.go).  UpdateExamples.v: an upgrade and its
    reversal, run on tables.
    Theorems: [failed_update_reverted] (UpdateSafety.v): the label is on the device after an
    upgrade, a failed boot reverts the bootloader, and drops the label only when it has.
    [fallback_dropped] and [second_turn_writes_nothing] there: what a good boot does to the
    label, and what it does not after a failed flush.  [upgradeable_hosts] (Versions.v): the
    hosts of each version.  [unused_bootloader_removed] (Bootloader.v): the partitions the
    cleanup deletes.  They are about calls that keep the META partition at one path.

    ** Fuel

    Loops without a structural argument carry fuel, and run out of it as the panic
    [LoopFuel], which theorems exclude.  [MetaAdv.parse_entries]: the length of the data
    is enough ([parse_entries_outcome]), an entry takes at least one byte.
    [ServiceEvents.unsubscribe_loop]: the length of the list, each turn advances or
    shortens it.  [EventStream.search_loop]: the length of the range, which each turn
    shrinks.  The expansion of a stop request (Services.v): one more turn than there are
    services, each turn adds one.  [VolumeProcess.process_fuel]: eight turns, more than
    the rank of any status, which decreases when the phase changes ([vstep_rank]).
    [VolumeMounter.RunMounter]: seven turns, one more than the longest path through the
    automaton.  [MountPoint.retry]: the attempts of go-retry, 50 ms apart in 5 s, are 100.
    [Acquire.run_states]: ten turns, one for each state, which only go forward.
    [Text.FindAllSubmatch]: the length of the text, each match of the expressions used takes
    at least one character; that it is enough for what [Encode] writes is part of
    [decode_encode].  [Efi.unmarshal_loop] and [Efi.unmarshal_extra]: one more than the length
    of the data, an element takes at least four bytes.  [EfiVars.free_from]: the 65535 turns of
    the loop.

    ** Not modelled, and why

    The bodies of the sequencer's tasks (system calls, mounts, the installer); a task is
    its name and the failures it may report.  [NewController], signal and ACPI listeners,
    logging.  The gRPC server, which translates messages.  Reads of resources that fail in
    the volume manager: they end the pass before anything is done.  Of the mounts: lists
    of managers and [UnmountAll], pseudo filesystems and squashfs images, the operations
    on the files below a root, the SELinux policy.  The documents of the machine
    configuration other than those of the firewall, their loader and validation: large
    records, an interface here.  The discovery of disks and volumes, the other network
    controllers, time and hardware controllers, the imager, the clients: separate programs or
    layers around this core.  Of the installer: its command line, partitioning and formatting,
    and its image mode, which call external tools.  Of GRUB: default paths of boot assets,
    types and sizes of partitions.
    TPM access, EFI firmware, cryptsetup, blkid, GPT, system calls: behind interfaces.
    Generated code (enumer, protobuf, deep copies, documentation). *)

From stdpp Require Export base gmap sets list strings.
From Stdlib Require Export ZArith Lia.
From Stdlib Require Export Sorting.Sorted.

#[global] Open Scope Z_scope.
#[global] Generalizable All Variables.

(** ** Outcomes of Go calls

    A call either returns, returns an [error] value, or panics.  Where a
    function reports an error and keeps the state it already changed, the state
    is part of the returned value and the error an [option] next to it; where
    an error leaves nothing behind it is [Err]. *)

(** Why a call does not return: the kinds of panic the sources can run into, a loop that
    exceeds the fuel of its model, and [Blocks], a wait that nothing ends. *)
Inductive panic_reason :=
  | SliceBounds
  | IndexRange
  | NilDereference
  | Explicit (msg : string)
  | LoopFuel
  | Blocks.

#[global] Instance panic_reason_eq_dec : EqDecision panic_reason.
Proof. solve_decision. Defined.

Inductive outcome (E A : Type) :=
  | Ok (a : A)
  | Err (e : E)
  | Panic (r : panic_reason).
Arguments Ok {E A} a.
Arguments Err {E A} e.
Arguments Panic {E A} r.

#[global] Instance outcome_ret E : MRet (outcome E) := λ A a, Ok a.
#[global] Instance outcome_bind E : MBind (outcome E) := λ A B f c,
  match c with
  | Ok a => f a
  | Err e => Err e
  | Panic r => Panic r
  end.
#[global] Instance outcome_fmap E : FMap (outcome E) := λ A B f c,
  match c with
  | Ok a => Ok (f a)
  | Err e => Err e
  | Panic r => Panic r
  end.

Definition is_panic {E A} (c : outcome E A) : bool :=
  match c with Panic _ => true | _ => false end.
Definition is_ok {E A} (c : outcome E A) : bool :=
  match c with Ok _ => true | _ => false end.

Section outcome_lemmas.
Context {E A B : Type}.
Implicit Types (c : outcome E A) (f : A → outcome E B).

Lemma bind_Ok_inv f c b : c ≫= f = Ok b → ∃ a, c = Ok a ∧ f a = Ok b.
Proof. destruct c; simpl; try discriminate. eauto. Qed.

Lemma bind_Err_inv f c e :
  c ≫= f = Err e → c = Err e ∨ ∃ a, c = Ok a ∧ f a = Err e.
Proof. destruct c; simpl; try discriminate; [eauto|]. injection 1 as ->. auto. Qed.

Lemma bind_Panic_inv f c r :
  c ≫= f = Panic r → c = Panic r ∨ ∃ a, c = Ok a ∧ f a = Panic r.
Proof. destruct c; simpl; try discriminate; [eauto|]. injection 1 as ->. auto. Qed.
End outcome_lemmas.

(** ** Stateful calls

    [prog S E A]: a call that works on a state [S] and returns an [E] error or a
    value; a panic ends it.  An error keeps the state changed so far, as a Go method
    that returns early does. *)

Definition prog (S E A : Type) : Type := S → outcome Empty_set (S * (E + A)).

#[global] Instance prog_ret S E : MRet (prog S E) := λ A a s, Ok (s, inr a).
#[global] Instance prog_bind S E : MBind (prog S E) := λ A B f c s,
  match c s with
  | Ok (s, inr a) => f a s
  | Ok (s, inl e) => Ok (s, inl e)
  | Err e => match e with end
  | Panic r => Panic r
  end.

Definition get {S E} : prog S E S := λ s, Ok (s, inr s).
Definition modify {S E} (f : S → S) : prog S E () := λ s, Ok (f s, inr ()).
Definition throw {S E A} (e : E) : prog S E A := λ s, Ok (s, inl e).
Definition lift {S E A} (c : outcome Empty_set A) : prog S E A := λ s,
  match c with
  | Ok a => Ok (s, inr a)
  | Err e => match e with end
  | Panic r => Panic r
  end.
(** [if err != nil { return err }] *)
Definition check {S E} (err : option E) : prog S E () :=
  match err with Some e => throw e | None => mret () end.

(** [defer d] around the rest [c] of a function: [d] runs when [c] returns, with or
    without an error, and its own error is dropped. *)
Definition with_defer {S E A} (d : prog S E ()) (c : prog S E A) : prog S E A := λ s,
  match c s with
  | Ok (s, r) =>
      match d s with
      | Ok (s, _) => Ok (s, r)
      | Err e => match e with end
      | Panic p => Panic p
      end
  | Err e => match e with end
  | Panic p => Panic p
  end.

(** [for _, x := range l { f x }], stopping at the first error. *)
Fixpoint for_each {S E A} (f : A → prog S E ()) (l : list A) : prog S E () :=
  match l with
  | [] => mret ()
  | x :: l => _ ← f x; for_each f l
  end.

Lemma prog_bind_inv {S E A B} (c : prog S E A) (f : A → prog S E B) s s2 b :
  (c ≫= f) s = Ok (s2, inr b) ↔ ∃ s1 a, c s = Ok (s1, inr a) ∧ f a s1 = Ok (s2, inr b).
Proof.
  unfold mbind, prog_bind. split.
  - destruct (c s) as [[s1 [e|a]]|[]|r]; try done. eauto.
  - by intros (s1 & a & -> & ?).
Qed.

Lemma prog_bind_Ok {S E A B} (c : prog S E A) (f : A → prog S E B) s s1 a :
  c s = Ok (s1, inr a) → (c ≫= f) s = f a s1.
Proof. unfold mbind, prog_bind. by intros ->. Qed.

Lemma lift_inv {S E A} (c : outcome Empty_set A) (s s' : S) a :
  lift c s = Ok (s', inr a : E + A) → c = Ok a ∧ s' = s.
Proof. unfold lift. destruct c as [|[]|]; [|done]. by intros [= <- <-]. Qed.

(** An invariant of the loop body is an invariant of the loop. *)
Lemma for_each_invariant {S E A} (f : A → prog S E ()) (P : list A → S → Prop) l s s2 :
  (∀ done x s s', x ∈ l → P done s → f x s = Ok (s', inr ()) → P (done ++ [x]) s') →
  P [] s → for_each f l s = Ok (s2, inr ()) → P l s2.
Proof.
  enough (∀ pre s, (∀ done x s s', x ∈ l → P done s → f x s = Ok (s', inr ()) → P (done ++ [x]) s') →
      P pre s → for_each f l s = Ok (s2, inr ()) → P (pre ++ l) s2)
    as Hgen by (intros; by apply (Hgen [] s)).
  induction l as [|x l IH]; intros pre s0 Hstep HP; cbn [for_each].
  - intros [= <-]. by rewrite app_nil_r.
  - intros (s1 & [] & Hx & Hl)%prog_bind_inv.
    rewrite cons_middle, app_assoc. eapply IH; [|eapply Hstep; [left|done..]|done].
    intros. eapply Hstep; [by right|done..].
Qed.

(** A loop whose body returns (with or without an error) returns. *)
Lemma for_each_total {S E A} (f : A → prog S E ()) (P : S → Prop) l s :
  (∀ x s, P s → ∃ s' r, f x s = Ok (s', r) ∧ P s') → P s →
  ∃ s' r, for_each f l s = Ok (s', r) ∧ P s'.
Proof.
  intros Hstep. revert s. induction l as [|x l IH]; intros s HP; cbn [for_each]; [by eexists _, _|].
  destruct (Hstep x s HP) as (s1 & [e|[]] & Hx & HP1); unfold mbind, prog_bind; rewrite Hx;
    [by eexists _, _|auto].
Qed.

(** *** Total correctness of a call

    [returns c s Q]: from [s] the call [c] returns (it does not panic), in a state and
    with a result that satisfy [Q]. *)

Definition returns {S E A} (c : prog S E A) (s : S) (Q : S → E + A → Prop) : Prop :=
  ∃ s' r, c s = Ok (s', r) ∧ Q s' r.

Section returns_rules.
Context {S E : Type}.

Lemma returns_ret {A} (a : A) (s : S) (Q : S → E + A → Prop) : Q s (inr a) → returns (mret a) s Q.
Proof. intros HQ. by exists s, (inr a). Qed.
Lemma returns_throw {A} (e : E) (s : S) (Q : S → E + A → Prop) : Q s (inl e) → returns (throw e) s Q.
Proof. intros HQ. by exists s, (inl e). Qed.
Lemma returns_get (s : S) (Q : S → E + S → Prop) : Q s (inr s) → returns get s Q.
Proof. intros HQ. by exists s, (inr s). Qed.
Lemma returns_modify f (s : S) (Q : S → E + () → Prop) : Q (f s) (inr ()) → returns (modify f) s Q.
Proof. intros HQ. by exists (f s), (inr ()). Qed.
Lemma returns_lift {A} c (a : A) (s : S) (Q : S → E + A → Prop) :
  c = Ok a → Q s (inr a) → returns (lift c) s Q.
Proof. intros -> HQ. by exists s, (inr a). Qed.

Lemma returns_bind {A B} (c : prog S E A) (f : A → prog S E B) s Q :
  returns c s (λ s' r, match r with inr a => returns (f a) s' Q | inl e => Q s' (inl e) end) →
  returns (c ≫= f) s Q.
Proof.
  intros (s' & [e|a] & Hc & HQ); unfold returns, mbind, prog_bind; rewrite Hc; [by eexists _, _|done].
Qed.

Lemma returns_defer {A} (d : prog S E ()) (c : prog S E A) s Q :
  returns c s (λ s' r, returns d s' (λ s'' _, Q s'' r)) → returns (with_defer d c) s Q.
Proof.
  intros (s' & r & Hc & s'' & r' & Hd & HQ). unfold returns, with_defer. rewrite Hc, Hd. by eexists _, _.
Qed.

Lemma returns_mono {A} (c : prog S E A) s (Q Q' : S → E + A → Prop) :
  (∀ s' r, Q s' r → Q' s' r) → returns c s Q → returns c s Q'.
Proof. intros HQ (s' & r & Hc & H). exists s', r. auto. Qed.

Lemma returns_det {A} (c : prog S E A) s s' r (Q : S → E + A → Prop) :
  returns c s Q → c s = Ok (s', r) → Q s' r.
Proof. by intros (s1 & r1 & -> & HQ) [= <- <-]. Qed.

Lemma returns_Ok {A} (c : prog S E A) s s' r (Q : S → E + A → Prop) :
  c s = Ok (s', r) → Q s' r → returns c s Q.
Proof. intros. by exists s', r. Qed.
End returns_rules.

(** One step of symbolic execution. *)
Ltac prog_step :=
  cbv beta iota zeta;
  lazymatch goal with
  | |- returns (mbind _ _) _ _ => apply returns_bind
  | |- returns (mret _) _ _ => apply returns_ret
  | |- returns (throw _) _ _ => apply returns_throw
  | |- returns get _ _ => apply returns_get
  | |- returns (modify _) _ _ => apply returns_modify
  | |- returns (with_defer _ _) _ _ => apply returns_defer
  end; cbv beta iota zeta.
Ltac prog_steps := repeat (progress prog_step).

(** ** Machine integers

    Go's [uint8], [uint32] and [uint64] are [Z] with the wrap-around written out. *)

Definition u8 (n : Z) : Z := n mod 2 ^ 8.
Definition u32 (n : Z) : Z := n mod 2 ^ 32.
Definition u64 (n : Z) : Z := n mod 2 ^ 64.

Lemma u8_range n : 0 ≤ u8 n < 256.
Proof. unfold u8. by apply Z.mod_pos_bound. Qed.
Lemma u32_range n : 0 ≤ u32 n < 2 ^ 32.
Proof. unfold u32. by apply Z.mod_pos_bound. Qed.
Lemma u64_range n : 0 ≤ u64 n < 2 ^ 64.
Proof. unfold u64. by apply Z.mod_pos_bound. Qed.
Lemma u8_small n : 0 ≤ n < 256 → u8 n = n.
Proof. intros. unfold u8. by apply Z.mod_small. Qed.
Lemma u32_small n : 0 ≤ n < 2 ^ 32 → u32 n = n.
Proof. intros. unfold u32. by apply Z.mod_small. Qed.
Lemma u64_small n : 0 ≤ n < 2 ^ 64 → u64 n = n.
Proof. intros. unfold u64. by apply Z.mod_small. Qed.

Create HintDb chubo.
Create Rewrite HintDb zlen.
#[export] Hint Resolve u8_range u32_range u64_range : chubo.


(** ** Slices

    A Go slice is a list; [len] is an [int].  [go_slice l i j] is [l[i:j]], which
    panics unless [0 <= i <= j <= len(l)]; [go_index] is [l[i]]; [go_set] is
    [l[i] = v]; [go_copy dst off src] is [copy(dst[off:], src)]. *)

Definition zlen {A} (l : list A) : Z := Z.of_nat (length l).
Definition ztake {A} (n : Z) (l : list A) : list A := take (Z.to_nat n) l.
Definition zdrop {A} (n : Z) (l : list A) : list A := drop (Z.to_nat n) l.

Definition go_slice {E A} (l : list A) (i j : Z) : outcome E (list A) :=
  if bool_decide (0 ≤ i ∧ i ≤ j ∧ j ≤ zlen l)
  then Ok (ztake (j - i) (zdrop i l))
  else Panic SliceBounds.

Definition go_index {E A} (l : list A) (i : Z) : outcome E A :=
  match (if bool_decide (0 ≤ i) then l !! Z.to_nat i else None) with
  | Some x => Ok x
  | None => Panic IndexRange
  end.

Definition go_set {E A} (l : list A) (i : Z) (v : A) : outcome E (list A) :=
  if bool_decide (0 ≤ i ∧ i < zlen l)
  then Ok (<[Z.to_nat i := v]> l)
  else Panic IndexRange.

(** The result of [copy] into [dst[off:]] when [off <= len(dst)]: as many
    elements as both sides have. *)
Definition overwrite {A} (dst : list A) (off : Z) (src : list A) : list A :=
  let n := Z.min (zlen src) (zlen dst - off) in
  ztake off dst ++ ztake n src ++ zdrop (off + n) dst.

Definition go_copy {E A} (dst : list A) (off : Z) (src : list A) : outcome E (list A) :=
  if bool_decide (0 ≤ off ∧ off ≤ zlen dst)
  then Ok (overwrite dst off src)
  else Panic SliceBounds.

Section slice_lemmas.
Context {A : Type}.
Implicit Types l : list A.

Lemma zlen_nonneg l : 0 ≤ zlen l.
Proof. unfold zlen. lia. Qed.
Lemma zlen_nil : zlen (A:=A) [] = 0.
Proof. reflexivity. Qed.
Lemma zlen_cons x l : zlen (x :: l) = 1 + zlen l.
Proof. unfold zlen. simpl. lia. Qed.
Lemma zlen_app l k : zlen (l ++ k) = zlen l + zlen k.
Proof. unfold zlen. rewrite length_app. lia. Qed.
Lemma zlen_replicate n (x : A) : 0 ≤ n → zlen (replicate (Z.to_nat n) x) = n.
Proof. unfold zlen. rewrite length_replicate. lia. Qed.
Lemma zlen_ztake n l : 0 ≤ n → zlen (ztake n l) = Z.min n (zlen l).
Proof. unfold zlen, ztake. rewrite length_take. lia. Qed.
Lemma zlen_zdrop n l : 0 ≤ n → zlen (zdrop n l) = Z.max 0 (zlen l - n).
Proof. unfold zlen, zdrop. rewrite length_drop. lia. Qed.
Lemma zlen_0_inv l : zlen l = 0 → l = [].
Proof. destruct l; [done|]. rewrite zlen_cons. pose proof (zlen_nonneg l). lia. Qed.
Lemma zlen_insert i (x : A) l : zlen (<[i:=x]> l) = zlen l.
Proof. unfold zlen. by rewrite length_insert. Qed.
Lemma zlen_fmap {B} (f : A → B) l : zlen (f <$> l) = zlen l.
Proof. unfold zlen. by rewrite length_fmap. Qed.

Lemma ztake_app l k : ztake (zlen l) (l ++ k) = l.
Proof. unfold ztake, zlen. rewrite Nat2Z.id. by apply take_app_length. Qed.
Lemma zdrop_app l k : zdrop (zlen l) (l ++ k) = k.
Proof. unfold zdrop, zlen. rewrite Nat2Z.id. by apply drop_app_length. Qed.
Lemma ztake_app_eq n l k : n = zlen l → ztake n (l ++ k) = l.
Proof. intros ->. apply ztake_app. Qed.
Lemma zdrop_app_eq n l k : n = zlen l → zdrop n (l ++ k) = k.
Proof. intros ->. apply zdrop_app. Qed.
Lemma ztake_ge n l : zlen l ≤ n → ztake n l = l.
Proof. intros. unfold ztake, zlen in *. apply take_ge. lia. Qed.
Lemma ztake_0 l : ztake 0 l = [].
Proof. done. Qed.
Lemma zdrop_0 l : zdrop 0 l = l.
Proof. done. Qed.
Lemma ztake_zdrop n l : ztake n l ++ zdrop n l = l.
Proof. apply take_drop. Qed.
Lemma zdrop_zdrop i j l : 0 ≤ i → 0 ≤ j → zdrop i (zdrop j l) = zdrop (j + i) l.
Proof.
  intros. unfold zdrop. rewrite drop_drop. f_equal. lia.
Qed.

Lemma go_slice_Ok {E} l i j :
  0 ≤ i → i ≤ j → j ≤ zlen l →
  go_slice (E:=E) l i j = Ok (ztake (j - i) (zdrop i l)).
Proof. intros. unfold go_slice. rewrite bool_decide_true; done. Qed.

(** Slicing a list that is known as three consecutive parts. *)
Lemma go_slice_mid {E} l1 l2 l3 i j :
  i = zlen l1 → j = zlen l1 + zlen l2 →
  go_slice (E:=E) (l1 ++ l2 ++ l3) i j = Ok l2.
Proof.
  intros -> ->. pose proof (zlen_nonneg l1). pose proof (zlen_nonneg l2).
  pose proof (zlen_nonneg l3).
  rewrite go_slice_Ok by (rewrite ?zlen_app; lia).
  rewrite zdrop_app. f_equal. apply ztake_app_eq. lia.
Qed.

Lemma go_slice_parts {E} l l1 l2 l3 i j :
  l = l1 ++ l2 ++ l3 → i = zlen l1 → j = zlen l1 + zlen l2 →
  go_slice (E:=E) l i j = Ok l2.
Proof. intros ->. apply go_slice_mid. Qed.

Lemma go_slice_panic {E} l i j :
  i < 0 ∨ j < i ∨ zlen l < j → go_slice (E:=E) l i j = Panic SliceBounds.
Proof. intros. unfold go_slice. rewrite bool_decide_false; [done|lia]. Qed.

Lemma go_slice_inv {E} l i j r :
  go_slice (E:=E) l i j = Ok r →
  0 ≤ i ∧ i ≤ j ∧ j ≤ zlen l ∧ r = ztake (j - i) (zdrop i l).
Proof. unfold go_slice. case_bool_decide; naive_solver. Qed.

Lemma go_index_Ok {E} l i x :
  0 ≤ i → l !! Z.to_nat i = Some x → go_index (E:=E) l i = Ok x.
Proof. intros. unfold go_index. rewrite bool_decide_true by done. by simplify_option_eq. Qed.

Lemma go_index_app_r {E} l k i :
  zlen l ≤ i → go_index (E:=E) (l ++ k) i = go_index k (i - zlen l).
Proof.
  intros. pose proof (zlen_nonneg l). unfold go_index. rewrite !bool_decide_true by lia.
  rewrite lookup_app_r by (unfold zlen in *; lia).
  replace (Z.to_nat i - length l)%nat with (Z.to_nat (i - zlen l))
    by (unfold zlen in *; lia). done.
Qed.

Lemma go_index_app_l {E} l k i :
  i < zlen l → go_index (E:=E) (l ++ k) i = go_index l i.
Proof.
  intros. unfold go_index. case_bool_decide; [|done].
  rewrite lookup_app_l; [done|]. unfold zlen in *. lia.
Qed.

Lemma overwrite_app l1 l2 l3 src :
  zlen src = zlen l2 → overwrite (l1 ++ l2 ++ l3) (zlen l1) src = l1 ++ src ++ l3.
Proof.
  intros Hs. unfold overwrite.
  pose proof (zlen_nonneg l3). pose proof (zlen_nonneg l2).
  rewrite !zlen_app. replace (Z.min _ _) with (zlen src) by lia.
  rewrite ztake_app, (ztake_ge (zlen src)) by lia.
  do 2 f_equal. rewrite Hs, app_assoc. apply zdrop_app_eq. by rewrite zlen_app.
Qed.

(** Writing into a list that is known as parts. *)
Lemma go_set_mid {E} l x k i v :
  i = zlen l → go_set (E:=E) (l ++ x :: k) i v = Ok (l ++ v :: k).
Proof.
  intros ->. pose proof (zlen_nonneg l). pose proof (zlen_nonneg k). unfold go_set.
  rewrite bool_decide_true by (rewrite zlen_app, zlen_cons; lia).
  unfold zlen. rewrite Nat2Z.id. by rewrite insert_app_r_alt, Nat.sub_diag by lia.
Qed.

Lemma go_copy_parts {E} l l1 l2 l3 i src :
  l = l1 ++ l2 ++ l3 → i = zlen l1 → zlen src = zlen l2 →
  go_copy (E:=E) l i src = Ok (l1 ++ src ++ l3).
Proof.
  intros -> -> Hs. unfold go_copy. pose proof (zlen_nonneg l1).
  pose proof (zlen_nonneg (l2 ++ l3)).
  rewrite bool_decide_true by (rewrite zlen_app; lia). by rewrite overwrite_app.
Qed.

Lemma zlen_overwrite l off src :
  0 ≤ off ≤ zlen l → zlen (overwrite l off src) = zlen l.
Proof.
  intros. pose proof (zlen_nonneg src). unfold overwrite.
  rewrite !zlen_app, !zlen_ztake, zlen_zdrop by lia. lia.
Qed.
End slice_lemmas.

#[export] Hint Rewrite @zlen_nil @zlen_cons @zlen_app @zlen_insert @zlen_fmap : zlen.
#[export] Hint Resolve zlen_nonneg : chubo.

(** Normalise slice lengths and finish with linear arithmetic. *)
Ltac zlen_solve :=
  autorewrite with zlen in *;
  repeat match goal with
  | |- context [zlen ?l] => lazymatch goal with
      | _ : 0 ≤ zlen l |- _ => fail
      | _ => pose proof (zlen_nonneg l)
      end
  | _ : context [zlen ?l] |- _ => lazymatch goal with
      | _ : 0 ≤ zlen l |- _ => fail
      | _ => pose proof (zlen_nonneg l)
      end
  end; lia.

(** Destruct the scrutinees of the [match]es of a hypothesis, closing the
    branches a constructor clash refutes. *)
Ltac outcome_case H :=
  repeat (case_match; simpl in H; try discriminate H; simplify_eq H).

(** ** Sorting

    [cmp.Compare] on integers, and [slices.SortFunc], which need not keep the order of
    elements that compare equal: a parameter, with what its documentation promises. *)

Definition cmp_Compare (a b : Z) : Z := if a <? b then -1 else if a =? b then 0 else 1.

Lemma cmp_Compare_spec x y :
  x < y ∧ cmp_Compare x y = -1 ∨ x = y ∧ cmp_Compare x y = 0 ∨ y < x ∧ cmp_Compare x y = 1.
Proof. unfold cmp_Compare. destruct (Z.ltb_spec x y), (Z.eqb_spec x y); lia. Qed.

Class SlicesSort := { SortFunc : ∀ {A : Type}, (A → A → Z) → list A → list A }.
Class SlicesSortLaws (S : SlicesSort) := {
  SortFunc_perm {A} (cmp : A → A → Z) l : SortFunc cmp l ≡ₚ l;
  (** [cmp] is a strict weak ordering: here it compares keys *)
  SortFunc_sorted {A} (key : A → Z) l :
    StronglySorted (λ a b, key a ≤ key b) (SortFunc (λ a b, cmp_Compare (key a) (key b)) l)
}.
