(* ===== verification/Bytes.v ===== *)
(** * Byte encodings

    [encoding/binary]'s [BigEndian] and [LittleEndian] 32-bit accessors on byte
    slices (a byte is a [Z] between 0 and 255), with their round trips.  Shared by
    the META formats. *)

From S2P Require Import Prelude.

Definition byte_ok (b : Z) : Prop := 0 ≤ b < 256.

(** [binary.BigEndian.PutUint32] and [Uint32]. *)
Definition be32 (n : Z) : list Z :=
  [u8 (n / 2 ^ 24); u8 (n / 2 ^ 16); u8 (n / 2 ^ 8); u8 n].

Definition get_be32 {E} (l : list Z) : outcome E Z :=
  match l with
  | a :: b :: c :: d :: _ => Ok (((a * 256 + b) * 256 + c) * 256 + d)
  | _ => Panic IndexRange
  end.

(** [binary.LittleEndian.PutUint32] and [Uint32]. *)
Definition le32 (n : Z) : list Z :=
  [u8 n; u8 (n / 2 ^ 8); u8 (n / 2 ^ 16); u8 (n / 2 ^ 24)].

Definition get_le32 {E} (l : list Z) : outcome E Z :=
  match l with
  | a :: b :: c :: d :: _ => Ok (((d * 256 + c) * 256 + b) * 256 + a)
  | _ => Panic IndexRange
  end.

#[global] Arguments be32 : simpl never.
#[global] Arguments le32 : simpl never.
#[global] Arguments get_be32 : simpl never.
#[global] Arguments get_le32 : simpl never.

Lemma zlen_be32 n : zlen (be32 n) = 4.
Proof. reflexivity. Qed.
Lemma zlen_le32 n : zlen (le32 n) = 4.
Proof. reflexivity. Qed.
#[export] Hint Rewrite zlen_be32 zlen_le32 : zlen.

Lemma split_u32 n :
  0 ≤ n < 2 ^ 32 →
  ((u8 (n / 2 ^ 24) * 256 + u8 (n / 2 ^ 16)) * 256 + u8 (n / 2 ^ 8)) * 256 + u8 n = n.
Proof.
  intros. unfold u8.
  change (2 ^ 8) with 256. change (2 ^ 16) with (256 * 256).
  change (2 ^ 24) with (256 * (256 * 256)). change (2 ^ 32) with (256 * (256 * (256 * 256))) in *.
  rewrite <- !Z.div_div by lia. Z.div_mod_to_equations. lia.
Qed.

Lemma get_be32_put {E} n k :
  0 ≤ n < 2 ^ 32 → get_be32 (E:=E) (be32 n ++ k) = Ok n.
Proof. intros. unfold get_be32, be32. cbn [app]. by rewrite split_u32. Qed.

Lemma get_le32_put {E} n k :
  0 ≤ n < 2 ^ 32 → get_le32 (E:=E) (le32 n ++ k) = Ok n.
Proof. intros. unfold get_le32, le32. cbn [app]. by rewrite split_u32. Qed.

Lemma get_be32_range {E} l n :
  Forall byte_ok l → get_be32 (E:=E) l = Ok n → 0 ≤ n < 2 ^ 32.
Proof.
  intros Hl. destruct l as [|a [|b [|c [|d l]]]]; try discriminate.
  unfold byte_ok in Hl. intros [= <-]. decompose_Forall_hyps. lia.
Qed.

Lemma get_le32_range {E} l n :
  Forall byte_ok l → get_le32 (E:=E) l = Ok n → 0 ≤ n < 2 ^ 32.
Proof.
  intros Hl. destruct l as [|a [|b [|c [|d l]]]]; try discriminate.
  unfold byte_ok in Hl. intros [= <-]. decompose_Forall_hyps. lia.
Qed.

Lemma be32_ok n : Forall byte_ok (be32 n).
Proof. repeat constructor; apply u8_range. Qed.
Lemma le32_ok n : Forall byte_ok (le32 n).
Proof. repeat constructor; apply u8_range. Qed.
#[export] Hint Resolve be32_ok le32_ok : chubo.

#[global] Opaque be32 le32.
