(* ===== verification/MetaAdv.v ===== *)
(** * META: the ADV interface and the extended ADV format

    [internal/pkg/meta/internal/adv/adv.go] (the interface every ADV
    implementation offers) and [internal/pkg/meta/internal/adv/chubo/chubo.go]
    (the 256 KiB format with a SHA-256 checksum). *)

From S2P Require Import Prelude Bytes.

(** ** The interface [adv.ADV]

    A tag is a [uint8], a value a byte slice.  The mutating methods return the new
    state with their boolean result. *)

Class ADV (S : Type) := {
  ReadTagBytes : S → Z → outcome Empty_set (option (list Z));
  SetTagBytes : S → Z → list Z → outcome Empty_set (bool * S);
  DeleteTag : S → Z → outcome Empty_set (bool * S);
  ListTags : S → outcome Empty_set (list Z)
}.

(** What a client of the interface relies on: a state denotes a finite map from tags
    to values, and the methods are the map's operations.  Nothing panics. *)
Class ADVLaws (S : Type) `{ADV S} := {
  tag_map : S → gmap Z (list Z);
  read_spec s t : ReadTagBytes s t = Ok (tag_map s !! t);
  set_spec s t v : ∃ ok s', SetTagBytes s t v = Ok (ok, s') ∧
    (ok = true → tag_map s' = <[t := v]> (tag_map s)) ∧ (ok = false → s' = s);
  delete_spec s t : ∃ s',
    DeleteTag s t = Ok (bool_decide (is_Some (tag_map s !! t)), s') ∧
    tag_map s' = delete t (tag_map s);
  list_spec s : ∃ l, ListTags s = Ok l ∧ l ≡ₚ (map_to_list (tag_map s)).*1
}.

(** [adv.End], the tag that ends the list. *)
Definition End : Z := 0.

Module Chubo.

Definition Length : Z := 256 * 1024.
Definition DataLength : Z := Length - 40.
Definition Size : Z := 2 * Length.
Definition Magic1 : Z := 0x5a4b3c2d.
Definition Magic2 : Z := 0xa5b4c3d2.

(** [Tags map[Tag]Value]. *)
Abbreviation Tags := (gmap Z (list Z)).

Inductive adv_error :=
  | UnexpectedMagic (got want : Z)
  | ChecksumMismatch
  | ValueBeyondEnd (tag size : Z)
  | Overflow (bytes : Z)
  | FirstBlockRead
  | SecondBlockRead
  | SecondBlock (e : adv_error).

Section format.
(** [crypto/sha256]: a function from byte strings to 32 bytes. *)
Context (sha256 : list Z → list Z).

(** *** Marshal

    The loop of [Marshal] writes each entry at the start of [data] and re-slices
    [data] behind it.  Go ranges over a map in an unspecified order: [entries] is
    the order of this run.  The result is the final content of [data]. *)
Fixpoint marshal_entries (entries : list (Z * list Z)) (data : list Z)
    : outcome adv_error (list Z) :=
  match entries with
  | [] => Ok data
  | (tag, value) :: entries =>
      if zlen value + 8 >? zlen data then Err (Overflow (zlen value + 8 - zlen data))
      else
        rest ← marshal_entries entries (zdrop (8 + zlen value) data);
        Ok (be32 (u32 tag) ++ be32 (u32 (zlen value)) ++ value ++ rest)
  end.

Definition Marshal (entries : list (Z * list Z)) : outcome adv_error (list Z) :=
  let data := replicate (Z.to_nat (Length - 40)) 0 in
  data ← marshal_entries entries data;
  let buf := be32 Magic1 ++ data ++ replicate 32 0 ++ be32 Magic2 in
  Ok (be32 Magic1 ++ data ++ sha256 buf ++ be32 Magic2).

Definition Bytes (entries : list (Z * list Z)) : outcome adv_error (list Z) :=
  marshaled ← Marshal entries;
  Ok (marshaled ++ marshaled).

(** *** Unmarshal

    The loop reads entries while at least 8 bytes of [data] are left.  A value
    stored in the map is a slice of the buffer, so the map the loop builds holds
    views: offset and length in [buf].  [off] is the offset of [data] in [buf].
    Each turn consumes at least 8 bytes, so the length of [data] is enough
    fuel ([parse_no_fuel]). *)
Abbreviation Views := (gmap Z (Z * Z)).

Fixpoint parse_entries (fuel : nat) (data : list Z) (off : Z) (tags : Views)
    : outcome Empty_set (Views * option adv_error) :=
  match fuel with
  | O => Panic LoopFuel
  | S fuel =>
      if zlen data <? 8 then Ok (tags, None)
      else
        tag ← get_be32 data;
        if tag =? End then Ok (tags, None)
        else
          size ← get_be32 (zdrop 4 data);
          if u32 (zlen data) <? u32 (size + 8)
          then Ok (tags, Some (ValueBeyondEnd tag size))
          else
            value ← go_slice data 8 (u32 (8 + size));
            data' ← go_slice data (u32 (8 + size)) (zlen data);
            parse_entries fuel data' (off + u32 (8 + size))
              (<[u8 tag := (off + 8, zlen (A:=Z) value)]> tags)
  end.

(** [Unmarshal] on [buf]: the tag map it leaves behind (as views of [buf]) and its
    error.  The checksum bytes of the buffer are cleared on the way. *)
Definition clear_checksum (buf : list Z) : list Z :=
  ztake (zlen buf - 36) buf ++ replicate 32 0 ++ zdrop (zlen buf - 4) buf.

Definition Unmarshal (tags : Views) (buf : list Z)
    : outcome Empty_set (Views * option adv_error) :=
  h ← go_slice buf 0 4;
  magic1 ← get_be32 h;
  if negb (magic1 =? Magic1) then Ok (tags, Some (UnexpectedMagic magic1 Magic1))
  else
    t ← go_slice buf (zlen buf - 4) (zlen buf);
    magic2 ← get_be32 t;
    if negb (magic2 =? Magic2) then Ok (tags, Some (UnexpectedMagic magic2 Magic2))
    else
      checksum ← go_slice buf (zlen buf - 36) (zlen buf - 4);
      if negb (bool_decide (checksum = sha256 (clear_checksum buf)))
      then Ok (tags, Some ChecksumMismatch)
      else
        data ← go_slice buf 4 (zlen buf - 36);
        parse_entries (S (length data)) data 4 tags.

(** The values a map of views denotes once the buffer has its final content. *)
Definition resolve (buf : list Z) (tags : Views) : Tags :=
  (λ v : Z * Z, ztake v.2 (zdrop v.1 buf)) <$> tags.

(** *** NewADV

    [r] is the content of the device, [None] for a nil reader.  The second copy is
    read into the buffer the first one was in: views kept from a failed first
    [Unmarshal] see the second copy. *)
Definition NewADV (r : option (list Z)) : outcome Empty_set (option Tags * option adv_error) :=
  match r with
  | None => Ok (Some ∅, None)
  | Some r =>
      if zlen r <? Length then Ok (None, Some FirstBlockRead)
      else
        let buf := ztake Length r in
        '(tags, err) ← Unmarshal ∅ buf;
        match err with
        | None => Ok (Some (resolve buf tags), None)
        | Some _ =>
            let r := zdrop Length r in
            if zlen r <? Length then Ok (None, Some SecondBlockRead)
            else
              let buf := ztake Length r in
              '(tags, err) ← Unmarshal tags buf;
              Ok (Some (resolve buf tags), option_map SecondBlock err)
        end
  end.
End format.

(** *** Tag operations *)

Fixpoint entries_size (entries : list (Z * list Z)) : Z :=
  match entries with
  | [] => 0
  | (_, v) :: entries => zlen v + 8 + entries_size entries
  end.

Definition tags_size (tags : Tags) : Z := entries_size (map_to_list tags).

Definition ReadTagBytes (tags : Tags) (t : Z) : option (list Z) := tags !! t.

(** [ReadTag] and [SetTag] are the same on strings; a missing tag reads as the empty
    string. *)
Definition ReadTag (tags : Tags) (t : Z) : list Z * bool :=
  (default [] (ReadTagBytes tags t), bool_decide (is_Some (ReadTagBytes tags t))).

Definition ListTags (tags : Tags) : list Z := (map_to_list tags).*1.

Definition SetTagBytes (tags : Tags) (t : Z) (val : list Z) : bool * Tags :=
  let size := 20 + tags_size tags in
  let oldVal := default [] (tags !! t) in
  let size := size + (zlen val - zlen oldVal) in
  if size >? DataLength then (false, tags)
  else (true, <[t := val]> tags).

Definition SetTag (tags : Tags) (t : Z) (val : list Z) : bool * Tags := SetTagBytes tags t val.

Definition DeleteTag (tags : Tags) (t : Z) : bool * Tags :=
  (bool_decide (is_Some (tags !! t)), delete t tags).

#[global] Instance chubo_adv : ADV Tags := {|
  MetaAdv.ReadTagBytes := λ s t, Ok (ReadTagBytes s t);
  MetaAdv.SetTagBytes := λ s t v, Ok (SetTagBytes s t v);
  MetaAdv.DeleteTag := λ s t, Ok (DeleteTag s t);
  MetaAdv.ListTags := λ s, Ok (ListTags s)
|}.

(** ** Sizes *)

Lemma entries_size_nonneg es : 0 ≤ entries_size es.
Proof. induction es as [|[t v] es IH]; simpl; [lia|]. pose proof (zlen_nonneg v). lia. Qed.

#[export] Instance entries_size_proper : Proper ((≡ₚ) ==> (=)) entries_size.
Proof. induction 1 as [|[]|[] []|]; simpl; lia. Qed.

Lemma tags_size_order tags entries :
  entries ≡ₚ map_to_list tags → entries_size entries = tags_size tags.
Proof. unfold tags_size. by intros ->. Qed.

Lemma tags_size_delete tags t v :
  tags !! t = Some v → tags_size tags = zlen v + 8 + tags_size (delete t tags).
Proof.
  intros Hv. unfold tags_size. by rewrite <- (map_to_list_delete tags t v) by done.
Qed.

Lemma tags_size_insert_fresh tags t v :
  tags !! t = None → tags_size (<[t:=v]> tags) = zlen v + 8 + tags_size tags.
Proof. intros Hv. unfold tags_size. by rewrite map_to_list_insert. Qed.

Lemma tags_size_insert tags t v :
  tags_size (<[t:=v]> tags) =
  tags_size tags + zlen v - zlen (default [] (tags !! t))
  + (if bool_decide (is_Some (tags !! t)) then 0 else 8).
Proof.
  destruct (tags !! t) as [o|] eqn:Ho; simpl.
  - rewrite <- insert_delete_eq, tags_size_insert_fresh by apply lookup_delete_eq.
    rewrite (tags_size_delete tags t o) by done. lia.
  - rewrite tags_size_insert_fresh, zlen_nil by done. lia.
Qed.

(** The invariant of a loaded or edited ADV: its entries fit in the data area. *)
Definition fits (tags : Tags) : Prop := tags_size tags ≤ DataLength.

Lemma fits_empty : fits ∅.
Proof. unfold fits, tags_size. rewrite map_to_list_empty. by vm_compute. Qed.

Lemma SetTagBytes_fits_aux tags t v ok tags' :
  SetTagBytes tags t v = (ok, tags') → fits tags → fits tags'.
Proof.
  unfold SetTagBytes, fits. intros Hset Hfit. revert Hset.
  destruct (_ >? _) eqn:Hgt; intros [= <- <-]; [done|].
  rewrite Z.gtb_ltb, Z.ltb_ge in Hgt. rewrite tags_size_insert.
  case_bool_decide; lia.
Qed.

Lemma DeleteTag_fits_aux tags t : fits tags → fits (DeleteTag tags t).2.
Proof.
  unfold DeleteTag, fits. simpl. destruct (tags !! t) as [v|] eqn:Hv.
  - rewrite (tags_size_delete tags t v) by done. pose proof (zlen_nonneg v). lia.
  - by rewrite delete_id.
Qed.
#[export] Hint Resolve fits_empty SetTagBytes_fits_aux DeleteTag_fits_aux : chubo.

(** ** The serialized entries *)

Fixpoint encode (es : list (Z * list Z)) : list Z :=
  match es with
  | [] => []
  | (t, v) :: es => be32 (u32 t) ++ be32 (u32 (zlen v)) ++ v ++ encode es
  end.

Lemma zlen_encode es : zlen (encode es) = entries_size es.
Proof. induction es as [|[t v] es IH]; simpl; autorewrite with zlen; [done|lia]. Qed.

Lemma encode_length es : (length es ≤ length (encode es))%nat.
Proof.
  induction es as [|[t v] es IH]; simpl; [lia|].
  pose proof (zlen_be32 (u32 t)) as Ht. unfold zlen in Ht. rewrite !length_app. lia.
Qed.

Lemma encode_app es1 es2 : encode (es1 ++ es2) = encode es1 ++ encode es2.
Proof. induction es1 as [|[t v] es IH]; simpl; [done|]. by rewrite IH, <- !app_assoc. Qed.

Lemma marshal_entries_fits es data :
  entries_size es ≤ zlen data →
  marshal_entries es data = Ok (encode es ++ zdrop (entries_size es) data).
Proof.
  revert data. induction es as [|[t v] es IH]; intros data Hsz; simpl in *; [done|].
  pose proof (entries_size_nonneg es). pose proof (zlen_nonneg v).
  destruct (_ >? _) eqn:Hgt; [rewrite Z.gtb_ltb, Z.ltb_lt in Hgt; lia|].
  rewrite IH by (rewrite zlen_zdrop; lia). simpl.
  rewrite zdrop_zdrop by lia. rewrite <- !app_assoc.
  by replace (8 + zlen v + entries_size es) with (zlen v + 8 + entries_size es) by lia.
Qed.

Lemma marshal_entries_overflow es data :
  zlen data < entries_size es → ∃ n, 0 < n ∧ marshal_entries es data = Err (Overflow n).
Proof.
  revert data. induction es as [|[t v] es IH]; intros data Hsz; simpl in *.
  { pose proof (zlen_nonneg data). lia. }
  pose proof (zlen_nonneg v).
  destruct (_ >? _) eqn:Hgt; rewrite Z.gtb_ltb in Hgt.
  - apply Z.ltb_lt in Hgt. eexists. split; [|done]. lia.
  - apply Z.ltb_ge in Hgt.
    destruct (IH (zdrop (8 + zlen v) data)) as (n & Hn & ->); [rewrite zlen_zdrop; lia|].
    eauto.
Qed.

(** Contents that parse as the end of the list. *)
Definition ends (tail : list Z) : Prop :=
  ∀ fuel off tags, parse_entries (S fuel) tail off tags = Ok (tags, None).

Lemma ends_zeros n : ends (replicate n 0).
Proof.
  intros fuel off tags. simpl. case_match eqn:Hlen; [done|].
  destruct n as [|[|[|[|n]]]]; try discriminate Hlen. done.
Qed.

Lemma ends_End k : ends (be32 (u32 End) ++ k).
Proof.
  intros fuel off tags. simpl. case_match eqn:Hlen; [done|].
  by rewrite get_be32_put by (vm_compute; split; congruence).
Qed.
#[local] Hint Resolve ends_zeros ends_End : chubo.

Definition entry_ok (e : Z * list Z) : Prop := 1 ≤ e.1 < 256.

Lemma parse_entry fuel t v rest off tags :
  entry_ok (t, v) → zlen (encode [(t, v)] ++ rest) ≤ DataLength →
  parse_entries (S fuel) (encode [(t, v)] ++ rest) off tags =
  parse_entries fuel rest (off + (8 + zlen v)) (<[t := (off + 8, zlen v)]> tags).
Proof.
  unfold entry_ok, DataLength, Length. simpl. intros Ht Hlen.
  rewrite app_nil_r in *. autorewrite with zlen in Hlen.
  pose proof (zlen_nonneg v). pose proof (zlen_nonneg rest).
  set (data := (be32 (u32 t) ++ be32 (u32 (zlen v)) ++ v) ++ rest).
  assert (zlen data = 8 + zlen v + zlen rest) as Hdata
    by (unfold data; autorewrite with zlen; lia).
  assert (data = be32 t ++ be32 (zlen v) ++ v ++ rest) as Hd.
  { unfold data. by rewrite !u32_small, <- !app_assoc by lia. }
  destruct (Z.ltb_spec (zlen data) 8); [lia|].
  assert (get_be32 (E:=Empty_set) data = Ok t) as -> by (rewrite Hd; apply get_be32_put; lia).
  simpl mbind. cbv beta. rewrite (proj2 (Z.eqb_neq _ _)) by (unfold End; lia).
  assert (get_be32 (E:=Empty_set) (zdrop 4 data) = Ok (zlen v)) as ->.
  { rewrite Hd, (zdrop_app_eq 4) by done. apply get_be32_put; lia. }
  cbn [mbind outcome_bind]. rewrite !u32_small by lia.
  destruct (Z.ltb_spec (zlen data) (zlen v + 8)); [lia|].
  assert (data = (be32 t ++ be32 (zlen v)) ++ v ++ rest) as Hd' by by rewrite Hd, <- app_assoc.
  rewrite Hd' at 1. rewrite go_slice_mid by (autorewrite with zlen; lia).
  cbn [mbind outcome_bind].
  assert (data = (be32 t ++ be32 (zlen v) ++ v) ++ rest ++ []) as Hd''
    by by rewrite Hd, app_nil_r, <- !app_assoc.
  rewrite Hd'' at 1. rewrite go_slice_mid by (autorewrite with zlen; lia).
  cbn [mbind outcome_bind]. by rewrite u8_small by lia.
Qed.

Definition insert_entries (es : list (Z * list Z)) (tags : Tags) : Tags :=
  foldl (λ m e, <[e.1 := e.2]> m) tags es.

Lemma insert_entries_union es tags :
  NoDup es.*1 → insert_entries es tags = list_to_map es ∪ tags.
Proof.
  revert tags. induction es as [|[t v] es IH]; intros tags; cbn [fmap list_fmap fst].
  { intros _. by rewrite list_to_map_nil, (left_id_L ∅ (∪)). }
  rewrite NoDup_cons. intros [Hin Hnd]. unfold insert_entries. simpl.
  fold (insert_entries es (<[t:=v]> tags)). rewrite IH by done.
  by rewrite <- insert_union_r, insert_union_l by by apply not_elem_of_list_to_map_1.
Qed.

Lemma insert_entries_order tags es :
  es ≡ₚ map_to_list tags → insert_entries es ∅ = tags.
Proof.
  intros Hes. rewrite insert_entries_union, (right_id_L ∅ (∪)).
  - rewrite <- (list_to_map_to_list tags). apply list_to_map_proper; [|done].
    rewrite Hes. apply NoDup_fst_map_to_list.
  - rewrite Hes. apply NoDup_fst_map_to_list.
Qed.

Lemma resolve_insert buf t o n tags :
  resolve buf (<[t := (o, n)]> tags) = <[t := ztake n (zdrop o buf)]> (resolve buf tags).
Proof. unfold resolve. by rewrite fmap_insert. Qed.

(** Parsing what [encode] produced: the views left in the map denote the entries. *)
Lemma parse_encode fuel es tail off tags :
  Forall entry_ok es → ends tail → entries_size es + zlen tail ≤ DataLength →
  (length es < fuel)%nat →
  ∃ views, parse_entries fuel (encode es ++ tail) off tags = Ok (views, None) ∧
    ∀ pre post, zlen pre = off →
      let buf := pre ++ encode es ++ post in
      resolve buf views = insert_entries es (resolve buf tags).
Proof.
  intros Hok Hend. revert fuel off tags Hok.
  induction es as [|[t v] es IH]; intros fuel off tags Hok Hsz Hfuel.
  { destruct fuel; [simpl in Hfuel; lia|]. eexists. split; [apply Hend|]. done. }
  destruct fuel as [|fuel]; simpl in Hfuel; [lia|].
  apply Forall_cons in Hok as [Hok Hoks]. simpl in Hsz.
  replace (encode ((t, v) :: es)) with (encode [(t, v)] ++ encode es)
    by (simpl; by rewrite app_nil_r, <- !app_assoc).
  rewrite <- app_assoc, parse_entry; [|done|].
  2:{ rewrite !zlen_app, !zlen_encode. simpl. lia. }
  destruct (IH fuel (off + (8 + zlen v)) (<[t := (off + 8, zlen v)]> tags)) as (views & -> & Hv);
    [done|pose proof (zlen_nonneg v); lia|lia|].
  eexists. split; [done|]. intros pre post Hpre buf.
  specialize (Hv (pre ++ encode [(t, v)]) post).
  replace buf with ((pre ++ encode [(t, v)]) ++ encode es ++ post)
    by (unfold buf; by rewrite <- !app_assoc).
  cbn zeta in Hv. rewrite Hv by (rewrite zlen_app, zlen_encode, Hpre; simpl; lia).
  rewrite resolve_insert. unfold insert_entries. simpl. do 2 f_equal.
  transitivity (ztake (zlen v) (zdrop (off + 8)
    ((pre ++ be32 (u32 t) ++ be32 (u32 (zlen v))) ++ v ++ encode es ++ post))).
  - by rewrite app_nil_r, <- !app_assoc.
  - rewrite (zdrop_app_eq (off + 8)) by (autorewrite with zlen; lia).
    by apply ztake_app_eq.
Qed.

(** ** Round trips of the whole block *)

Section roundtrip.
Context (sha256 : list Z → list Z) (sha256_size : ∀ b, zlen (sha256 b) = 32).

(** A block around a data area, with the right magics and checksum. *)
Definition seal (data : list Z) : list Z :=
  be32 Magic1 ++ data
    ++ sha256 (be32 Magic1 ++ data ++ replicate 32 0 ++ be32 Magic2) ++ be32 Magic2.

Definition padded (entries : list (Z * list Z)) : list Z :=
  encode entries ++ replicate (Z.to_nat (DataLength - entries_size entries)) 0.

Definition block (entries : list (Z * list Z)) : list Z := seal (padded entries).

Lemma zdrop_replicate {A} (x : A) n m :
  0 ≤ m ≤ n → zdrop m (replicate (Z.to_nat n) x) = replicate (Z.to_nat (n - m)) x.
Proof. intros. unfold zdrop. rewrite drop_replicate. f_equal. lia. Qed.

Lemma Marshal_block entries :
  entries_size entries ≤ DataLength → Marshal sha256 entries = Ok (block entries).
Proof.
  intros Hsz. pose proof (entries_size_nonneg entries). unfold Marshal.
  change (Length - 40) with DataLength.
  rewrite marshal_entries_fits by (rewrite zlen_replicate; lia).
  by rewrite zdrop_replicate by lia.
Qed.

Lemma zlen_padded entries :
  entries_size entries ≤ DataLength → zlen (padded entries) = DataLength.
Proof.
  intros. unfold padded. rewrite zlen_app, zlen_encode, zlen_replicate by lia. lia.
Qed.

Lemma zlen_seal data : zlen data = DataLength → zlen (seal data) = Length.
Proof.
  intros Hd. unfold seal. autorewrite with zlen. by rewrite Hd, sha256_size.
Qed.

Lemma zlen_block entries :
  entries_size entries ≤ DataLength → zlen (block entries) = Length.
Proof. intros. by apply zlen_seal, zlen_padded. Qed.

(** [Unmarshal] on a block given by its four parts. *)
Lemma Unmarshal_parts tags m1 data sum m2 :
  0 ≤ m1 < 2 ^ 32 → 0 ≤ m2 < 2 ^ 32 → zlen sum = 32 →
  Unmarshal sha256 tags (be32 m1 ++ data ++ sum ++ be32 m2) =
  if negb (m1 =? Magic1) then Ok (tags, Some (UnexpectedMagic m1 Magic1))
  else if negb (m2 =? Magic2) then Ok (tags, Some (UnexpectedMagic m2 Magic2))
  else if negb (bool_decide
         (sum = sha256 (be32 m1 ++ data ++ replicate 32 0 ++ be32 m2)))
  then Ok (tags, Some ChecksumMismatch)
  else parse_entries (S (length data)) data 4 tags.
Proof.
  intros Hm1 Hm2 Hs. unfold Unmarshal. set (buf := be32 m1 ++ _).
  assert (zlen buf = 40 + zlen data) as Hb
    by (unfold buf; autorewrite with zlen; lia).
  rewrite (go_slice_parts buf [] (be32 m1) (data ++ sum ++ be32 m2) 0 4)
    by (done || (autorewrite with zlen; lia)).
  cbn [mbind outcome_bind]. rewrite <- (app_nil_r (be32 m1)), get_be32_put by done.
  rewrite app_nil_r. cbn [mbind outcome_bind]. case_match; [done|].
  rewrite (go_slice_parts buf (be32 m1 ++ data ++ sum) (be32 m2) [] (zlen buf - 4) (zlen buf))
    by (rewrite ?app_nil_r; unfold buf; rewrite <- ?app_assoc; autorewrite with zlen; lia || done).
  cbn [mbind outcome_bind]. rewrite <- (app_nil_r (be32 m2)), get_be32_put by done.
  rewrite app_nil_r. cbn [mbind outcome_bind]. case_match; [done|].
  rewrite (go_slice_parts buf (be32 m1 ++ data) sum (be32 m2) (zlen buf - 36) (zlen buf - 4))
    by (unfold buf; rewrite <- ?app_assoc; autorewrite with zlen; lia || done).
  cbn [mbind outcome_bind].
  replace (clear_checksum buf) with (be32 m1 ++ data ++ replicate 32 0 ++ be32 m2).
  2:{ unfold clear_checksum. rewrite Hb. unfold buf.
      rewrite (app_assoc (be32 m1) data (sum ++ be32 m2)).
      rewrite (ztake_app_eq (40 + zlen data - 36)) by (autorewrite with zlen; lia).
      rewrite (app_assoc _ sum).
      rewrite (zdrop_app_eq (40 + zlen data - 4)) by (autorewrite with zlen; lia).
      by rewrite <- !app_assoc. }
  case_match; [done|].
  rewrite (go_slice_parts buf (be32 m1) data (sum ++ be32 m2) 4 (zlen buf - 36))
    by (done || (autorewrite with zlen; lia)).
  done.
Qed.

Lemma Unmarshal_seal tags data :
  Unmarshal sha256 tags (seal data) = parse_entries (S (length data)) data 4 tags.
Proof.
  unfold seal. rewrite Unmarshal_parts by (unfold Magic1, Magic2; apply sha256_size || lia).
  rewrite !Z.eqb_refl. cbn [negb]. by rewrite bool_decide_true.
Qed.

(** A sealed data area of entries and a terminated tail: the values read from any
    device the block is on. *)
Lemma Unmarshal_entries es tail :
  Forall entry_ok es → ends tail → entries_size es + zlen tail ≤ DataLength →
  ∃ views, Unmarshal sha256 ∅ (seal (encode es ++ tail)) = Ok (views, None) ∧
    resolve (seal (encode es ++ tail)) views = insert_entries es ∅.
Proof.
  intros Hok Hend Hsz. rewrite Unmarshal_seal.
  destruct (parse_encode (S (length (encode es ++ tail))) es tail 4 ∅)
    as (views & -> & Hv); [done..| |].
  { pose proof (encode_length es). rewrite length_app. lia. }
  exists views. split; [done|]. unfold seal at 1. rewrite <- !app_assoc.
  rewrite (Hv (be32 Magic1)) by done. unfold resolve. by rewrite fmap_empty.
Qed.
End roundtrip.

(** The interface contract. *)
#[global] Instance chubo_adv_laws : ADVLaws Tags.
Proof.
  refine {| tag_map := λ s : Tags, s |}; simpl; unfold SetTagBytes, DeleteTag.
  - done.
  - intros s t v. destruct (_ >? _); do 2 eexists; by split.
  - by eexists.
  - by eexists.
Defined.

(** Everything an empty ADV can become through its operations. *)
Inductive adv_reachable : Tags → Prop :=
  | reach_new : adv_reachable ∅
  | reach_set tags t v ok tags' :
      adv_reachable tags → SetTagBytes tags t v = (ok, tags') → adv_reachable tags'
  | reach_delete tags t : adv_reachable tags → adv_reachable (DeleteTag tags t).2.

Lemma adv_reachable_fits tags : adv_reachable tags → fits tags.
Proof. induction 1; eauto with chubo. Qed.

Section loading.
Context (sha256 : list Z → list Z) (sha256_size : ∀ b, zlen (sha256 b) = 32).
Implicit Types (tags : Tags) (entries : list (Z * list Z)).

Lemma map_entries_ok tags entries :
  entries ≡ₚ map_to_list tags → (∀ t, is_Some (tags !! t) → 1 ≤ t < 256) →
  Forall entry_ok entries.
Proof.
  intros Hes Ht. apply Forall_forall. intros [t v]. rewrite Hes, elem_of_map_to_list.
  unfold entry_ok. simpl. eauto.
Qed.

(** A block that parses, at the start of the device. *)
Lemma NewADV_entries es tail rest :
  Forall entry_ok es → ends tail → entries_size es + zlen tail = DataLength →
  NewADV sha256 (Some (seal sha256 (encode es ++ tail) ++ rest)) =
  Ok (Some (insert_entries es ∅), None).
Proof.
  intros Hok Hend Hsz. set (b := seal _ _).
  assert (zlen b = Length) as Hb
    by (apply zlen_seal; [done|]; by rewrite zlen_app, zlen_encode).
  unfold NewADV. rewrite zlen_app, Hb.
  destruct (Z.ltb_spec (Length + zlen rest) Length); [pose proof (zlen_nonneg rest); lia|].
  rewrite (ztake_app_eq Length) by done.
  destruct (Unmarshal_entries sha256 sha256_size es tail) as (views & Hu & Hv);
    [done|done|lia|].
  fold b in Hu, Hv. rewrite Hu. cbn [mbind outcome_bind]. by rewrite Hv.
Qed.

Lemma NewADV_first tags entries rest :
  entries ≡ₚ map_to_list tags → (∀ t, is_Some (tags !! t) → 1 ≤ t < 256) → fits tags →
  NewADV sha256 (Some (block sha256 entries ++ rest)) = Ok (Some tags, None).
Proof.
  intros Hes Ht Hfit. unfold fits in Hfit.
  rewrite <- (tags_size_order tags entries Hes) in Hfit. unfold block, padded.
  rewrite NewADV_entries; eauto using map_entries_ok with chubo.
  - by rewrite (insert_entries_order tags).
  - rewrite zlen_replicate by lia. lia.
Qed.

(** A rejected first block leaves the second one to be used. *)
Lemma NewADV_second tags entries first rest e :
  entries ≡ₚ map_to_list tags → (∀ t, is_Some (tags !! t) → 1 ≤ t < 256) → fits tags →
  zlen first = Length → Unmarshal sha256 ∅ first = Ok (∅, Some e) →
  NewADV sha256 (Some (first ++ block sha256 entries ++ rest)) = Ok (Some tags, None).
Proof.
  intros Hes Ht Hfit Hf Hfirst. unfold fits in Hfit.
  rewrite <- (tags_size_order tags entries Hes) in Hfit.
  pose proof (zlen_block sha256 sha256_size entries Hfit) as Hb.
  unfold NewADV. pose proof (zlen_nonneg rest).
  rewrite !zlen_app, Hb, Hf.
  destruct (Z.ltb_spec (Length + (Length + zlen rest)) Length); [unfold Length in *; lia|].
  rewrite (ztake_app_eq Length), (zdrop_app_eq Length) by done.
  rewrite Hfirst. cbn [mbind outcome_bind]. rewrite zlen_app, Hb.
  destruct (Z.ltb_spec (Length + zlen rest) Length); [lia|].
  rewrite (ztake_app_eq Length) by done.
  destruct (Unmarshal_entries sha256 sha256_size entries
    (replicate (Z.to_nat (DataLength - entries_size entries)) 0)) as (views & Hu & Hv);
    [by eapply map_entries_ok|auto with chubo|rewrite zlen_replicate by lia; lia|].
  unfold block, padded in *. rewrite Hu. cbn [mbind outcome_bind].
  by rewrite Hv, (insert_entries_order tags).
Qed.

(** The checksum a block carries. *)
Definition stored_checksum (buf : list Z) : list Z :=
  ztake 32 (zdrop (Length - 36) buf).

Lemma get_be32_total {E} l : 4 ≤ zlen l → ∃ n, get_be32 (E:=E) l = Ok n.
Proof.
  destruct l as [|a [|b [|c [|d l]]]]; autorewrite with zlen; try lia.
  eexists. reflexivity.
Qed.

Lemma Unmarshal_bad_checksum views buf :
  zlen buf = Length → stored_checksum buf ≠ sha256 (clear_checksum buf) →
  ∃ e, Unmarshal sha256 views buf = Ok (views, Some e).
Proof.
  intros Hb Hsum. unfold Unmarshal. rewrite Hb.
  assert (Length = 262144) as HL by done. unfold stored_checksum in Hsum. rewrite HL in *.
  rewrite !go_slice_Ok by lia. cbn [mbind outcome_bind].
  destruct (get_be32_total (E:=Empty_set) (ztake (4 - 0) (zdrop 0 buf))) as [m1 ->];
    [rewrite zlen_ztake, zlen_zdrop by lia; lia|].
  destruct (get_be32_total (E:=Empty_set)
    (ztake (262144 - (262144 - 4)) (zdrop (262144 - 4) buf))) as [m2 ->];
    [rewrite zlen_ztake, zlen_zdrop by lia; lia|].
  cbn [mbind outcome_bind]. case_match; [eauto|]. case_match; [eauto|].
  rewrite bool_decide_false by done. eauto.
Qed.
End loading.

(** C4: what is written to the META partition is what a reboot loads: for every
    set of tags other than [End] that fits, and whatever order Go ranges over the
    map, [Bytes] succeeds with an image of the fixed size and [NewADV] on the device
    holding it returns exactly the tags. *)
Theorem image_roundtrip sha256 (tags : Tags) entries rest :
  (∀ b, zlen (sha256 b) = 32) →
  entries ≡ₚ map_to_list tags → (∀ t, is_Some (tags !! t) → 1 ≤ t < 256) →
  tags_size tags ≤ DataLength →
  ∃ image, Bytes sha256 entries = Ok image ∧ zlen image = Size ∧
    NewADV sha256 (Some (image ++ rest)) = Ok (Some tags, None).
Proof.
  intros Hsha Hes Ht Hfit. assert (entries_size entries ≤ DataLength) as Hsz
    by by rewrite (tags_size_order tags).
  exists (block sha256 entries ++ block sha256 entries). split; [|split].
  - unfold Bytes. by rewrite Marshal_block.
  - by rewrite zlen_app, zlen_block.
  - rewrite <- app_assoc. by apply NewADV_first.
Qed.

Lemma image_roundtrip_witness :
  ∃ image, Bytes (λ _, replicate 32 7) [(10, [1; 2; 3]); (6, [])] = Ok image ∧
    zlen image = Size ∧
    NewADV (λ _, replicate 32 7) (Some (image ++ [])) =
      Ok (Some {[6 := []; 10 := [1; 2; 3]]}, None).
Proof.
  apply (image_roundtrip (λ _, replicate 32 7) {[6 := []; 10 := [1; 2; 3]]}).
  - done.
  - vm_compute. first [reflexivity|apply Permutation_swap].
  - intros t [v Hv]. destruct (decide (t = 6)); [lia|]. destruct (decide (t = 10)); [lia|].
    by simplify_map_eq.
  - by vm_compute.
Defined.

(** C3: an update of the META partition survives a crash at any point.  With [k]
    bytes of the new image written over the old one, loading gives the old tags or
    the new ones, never a mixture, as long as the hash tells the torn first block
    from a complete one. *)
Theorem torn_write_old_or_new sha256 (told tnew : Tags) eold enew k :
  (∀ b, zlen (sha256 b) = 32) →
  eold ≡ₚ map_to_list told → enew ≡ₚ map_to_list tnew →
  (∀ t, is_Some (told !! t) → 1 ≤ t < 256) → (∀ t, is_Some (tnew !! t) → 1 ≤ t < 256) →
  tags_size told ≤ DataLength → tags_size tnew ≤ DataLength →
  0 ≤ k →
  (let torn := ztake k (block sha256 enew) ++ zdrop k (block sha256 eold) in
   torn = block sha256 eold ∨ torn = block sha256 enew ∨
   stored_checksum torn ≠ sha256 (clear_checksum torn)) →
  ∃ iold inew, Bytes sha256 eold = Ok iold ∧ Bytes sha256 enew = Ok inew ∧
    let disk := ztake k inew ++ zdrop k iold in
    NewADV sha256 (Some disk) = Ok (Some told, None) ∨
    NewADV sha256 (Some disk) = Ok (Some tnew, None).
Proof.
  intros Hsha Heo Hen Hto Htn Hfo Hfn Hk Htorn.
  assert (entries_size eold ≤ DataLength) as Hso by by rewrite (tags_size_order told).
  assert (entries_size enew ≤ DataLength) as Hsn by by rewrite (tags_size_order tnew).
  pose proof (zlen_block sha256 Hsha eold Hso) as Hbo.
  pose proof (zlen_block sha256 Hsha enew Hsn) as Hbn.
  do 2 eexists. split; [unfold Bytes; by rewrite Marshal_block|].
  split; [unfold Bytes; by rewrite Marshal_block|]. cbv zeta.
  set (bo := block sha256 eold) in *. set (bn := block sha256 enew) in *.
  destruct (Z.le_gt_cases k Length) as [HkL|HkL].
  - assert (ztake k (bn ++ bn) = ztake k bn) as ->
      by (unfold ztake, zlen in *; by rewrite take_app_le by lia).
    assert (zdrop k (bo ++ bo) = zdrop k bo ++ bo) as ->
      by (unfold zdrop, zlen in *; by rewrite drop_app_le by lia).
    rewrite app_assoc. cbv zeta in Htorn.
    destruct Htorn as [->|[->|Hne]]; [left; by apply NewADV_first|right; by apply NewADV_first|].
    assert (zlen (ztake k bn ++ zdrop k bo) = Length) as Hlen
      by (rewrite zlen_app, zlen_ztake, zlen_zdrop by lia; lia).
    destruct (Unmarshal_bad_checksum sha256 ∅ _ Hlen Hne) as [e He].
    left. rewrite <- (app_nil_r bo) at 2. by eapply NewADV_second.
  - right. assert (ztake k (bn ++ bn) = bn ++ ztake (k - Length) bn) as ->.
    { unfold ztake, zlen in *. rewrite take_app_ge by lia. do 2 f_equal. lia. }
    rewrite <- app_assoc. by apply NewADV_first.
Qed.

Lemma torn_write_old_or_new_witness :
  ∃ iold inew, Bytes (λ _, replicate 32 7) [(10, [1])] = Ok iold ∧
    Bytes (λ _, replicate 32 7) [(6, [2; 3])] = Ok inew ∧
    let disk := ztake 4 inew ++ zdrop 4 iold in
    NewADV (λ _, replicate 32 7) (Some disk) = Ok (Some {[10 := [1]]}, None) ∨
    NewADV (λ _, replicate 32 7) (Some disk) = Ok (Some {[6 := [2; 3]]}, None).
Proof.
  apply (torn_write_old_or_new (λ _, replicate 32 7) {[10 := [1]]} {[6 := [2; 3]]}); try done.
  - intros t [v Hv]. apply lookup_singleton_Some in Hv as [<- _]. lia.
  - intros t [v Hv]. apply lookup_singleton_Some in Hv as [<- _]. lia.
  - left. unfold block, seal.
    rewrite (ztake_app_eq 4), (zdrop_app_eq 4) by by rewrite zlen_be32. done.
Defined.

(** The size check of [SetTagBytes] keeps every state an ADV can reach
    writable: [Marshal] never reports an overflow for it, in any map order. *)
Theorem reachable_always_marshals sha256 (tags : Tags) entries :
  (∀ b, zlen (sha256 b) = 32) → adv_reachable tags → entries ≡ₚ map_to_list tags →
  ∃ buf, Marshal sha256 entries = Ok buf ∧ zlen buf = Length.
Proof.
  intros Hsha Hr Hes. apply adv_reachable_fits in Hr. unfold fits in Hr.
  rewrite <- (tags_size_order tags entries Hes) in Hr.
  exists (block sha256 entries). split; [by apply Marshal_block|by apply zlen_block].
Qed.

Lemma reachable_always_marshals_witness :
  ∃ buf, Marshal (λ _, replicate 32 7) [(6, [2; 3])] = Ok buf ∧ zlen buf = Length.
Proof.
  apply (reachable_always_marshals (λ _, replicate 32 7) {[6 := [2; 3]]}); [done| |done].
  by apply (reach_set ∅ 6 [2; 3] true); [apply reach_new|vm_compute].
Defined.

(** [SetTagBytes] refuses a value exactly when the new total exceeds the data
    area by its own accounting, and the accounting is conservative: an accepted
    value leaves at least 12 spare bytes for a new tag and 20 for a replaced one. *)
Theorem set_tag_capacity (tags : Tags) t v :
  ((SetTagBytes tags t v).1 = false ↔
    DataLength - 20 < tags_size tags + zlen v - zlen (default [] (tags !! t))) ∧
  ((SetTagBytes tags t v).1 = true →
    tags_size (SetTagBytes tags t v).2 ≤
      DataLength - if bool_decide (is_Some (tags !! t)) then 20 else 12).
Proof.
  unfold SetTagBytes. destruct (_ >? _) eqn:Hgt; rewrite Z.gtb_ltb in Hgt; simpl.
  - apply Z.ltb_lt in Hgt. split; [|done]. split; [lia|done].
  - apply Z.ltb_ge in Hgt. split; [split; [done|lia]|]. intros _.
    rewrite tags_size_insert. case_bool_decide; lia.
Qed.

(** The tag 0 is accepted by [SetTagBytes] but is the end marker of the
    serialized list: every entry Go happens to order after it is lost on reload. *)
Theorem end_tag_truncates sha256 es1 v es2 rest :
  (∀ b, zlen (sha256 b) = 32) → NoDup es1.*1 → Forall entry_ok es1 →
  entries_size (es1 ++ (End, v) :: es2) ≤ DataLength →
  ∃ image, Bytes sha256 (es1 ++ (End, v) :: es2) = Ok image ∧
    NewADV sha256 (Some (image ++ rest)) = Ok (Some (list_to_map es1), None).
Proof.
  intros Hsha Hnd Hok Hsz. set (es := es1 ++ (End, v) :: es2) in *.
  pose proof (zlen_padded es Hsz) as Hp.
  exists (block sha256 es ++ block sha256 es).
  split; [unfold Bytes; by rewrite Marshal_block|].
  rewrite <- app_assoc. unfold block at 1.
  assert (∃ k, padded es = encode es1 ++ be32 (u32 End) ++ k) as [k Hk].
  { unfold padded, es. rewrite encode_app. simpl encode. rewrite <- !app_assoc. eauto. }
  rewrite Hk in *. rewrite zlen_app, zlen_encode in Hp.
  rewrite NewADV_entries by auto with chubo.
  by rewrite insert_entries_union, (right_id_L ∅ (∪)).
Qed.

Lemma end_tag_truncates_witness :
  (SetTagBytes {[6 := [1]]} End [2]).1 = true ∧
  ∃ image, Bytes (λ _, replicate 32 7) ([] ++ [(End, [2]); (6, [1])]) = Ok image ∧
    NewADV (λ _, replicate 32 7) (Some (image ++ [])) = Ok (Some (list_to_map []), None).
Proof.
  split; [done|].
  apply (end_tag_truncates (λ _, replicate 32 7) [] [2] [(6, [1])] []);
    [done|constructor|constructor|by vm_compute].
Defined.

(** the loader trusts the size field of an entry up to a 32-bit sum: a block
    whose checksum is right and whose entry has a size within 8 of 2^32 makes
    [Unmarshal] slice out of bounds. *)
Theorem oversized_entry_panics sha256 views tag size rest :
  (∀ b, zlen (sha256 b) = 32) → 1 ≤ tag < 2 ^ 32 → 2 ^ 32 - 8 ≤ size < 2 ^ 32 →
  8 + zlen rest ≤ DataLength →
  Unmarshal sha256 views (seal sha256 (be32 tag ++ be32 size ++ rest)) = Panic SliceBounds.
Proof.
  intros Hsha Ht Hs Hr. rewrite Unmarshal_seal by done. simpl.
  assert (zlen (be32 tag ++ be32 size ++ rest) = 8 + zlen rest) as ->
    by (autorewrite with zlen; lia).
  pose proof (zlen_nonneg rest). unfold DataLength, Length in *.
  destruct (Z.ltb_spec (8 + zlen rest) 8); [lia|].
  rewrite get_be32_put by lia. cbn [mbind outcome_bind].
  rewrite (proj2 (Z.eqb_neq _ _)) by (unfold End; lia).
  rewrite (zdrop_app_eq 4), get_be32_put by (done || lia). cbn [mbind outcome_bind].
  assert (u32 (size + 8) = size + 8 - 2 ^ 32) as Hw.
  { unfold u32. rewrite <- (Z.mod_small (size + 8 - 2 ^ 32) (2 ^ 32)) by lia.
    by rewrite <- (Z_mod_plus_full (size + 8 - 2 ^ 32) 1), Z.mul_1_l, Z.sub_add. }
  rewrite (Z.add_comm 8 size), Hw, u32_small by lia.
  destruct (Z.ltb_spec (8 + zlen rest) (size + 8 - 2 ^ 32)); [lia|].
  rewrite (go_slice_panic _ 8 (size + 8 - 2 ^ 32)) by lia. done.
Qed.

Lemma oversized_entry_panics_witness :
  Unmarshal (λ _, replicate 32 7) ∅
    (seal (λ _, replicate 32 7) (be32 6 ++ be32 (2 ^ 32 - 1) ++ [0; 0])) = Panic SliceBounds.
Proof. apply oversized_entry_panics; [done|lia|lia|by vm_compute]. Defined.

Lemma get_be32_prefix {E} i n (l : list Z) m :
  get_be32 (E:=E) (zdrop i (ztake n l)) = Ok m → get_be32 (E:=E) (zdrop i l) = Ok m.
Proof.
  intros Hg. rewrite <- (ztake_zdrop n l). set (a := ztake n l) in *.
  unfold zdrop in *. destruct (drop (Z.to_nat i) a) as [|x1 [|x2 [|x3 [|x4 d]]]] eqn:Hd;
    try discriminate Hg.
  rewrite drop_app_le, Hd; [done|].
  assert (length (drop (Z.to_nat i) a) ≠ 0%nat) by by rewrite Hd.
  rewrite length_drop in *. lia.
Qed.

(** The parser alone: the length of the data is enough fuel, and a panic can only
    come from a size field within 8 of 2^32. *)
Lemma parse_entries_outcome fuel data off views :
  Forall byte_ok data → zlen data < 2 ^ 32 → (length data < fuel)%nat →
  match parse_entries fuel data off views with
  | Ok _ => True
  | Err _ => False
  | Panic r => r = SliceBounds ∧ ∃ i size, 0 ≤ i ∧
      get_be32 (E:=Empty_set) (zdrop i data) = Ok size ∧ 2 ^ 32 - 8 ≤ size
  end.
Proof.
  revert data off views. induction fuel as [|fuel IH]; intros data off views Hb Hlen Hf; [lia|].
  simpl. destruct (Z.ltb_spec (zlen data) 8) as [|H8]; [done|].
  destruct (get_be32_total (E:=Empty_set) data) as [tag Ht]; [lia|]. rewrite Ht.
  cbn [mbind outcome_bind]. destruct (tag =? End); [done|].
  destruct (get_be32_total (E:=Empty_set) (zdrop 4 data)) as [size Hs];
    [rewrite zlen_zdrop by lia; lia|]. rewrite Hs. cbn [mbind outcome_bind].
  pose proof (get_be32_range (zdrop 4 data) size (Forall_drop _ _ _ Hb) Hs) as Hrange.
  destruct (Z.le_gt_cases (2 ^ 32 - 8) size) as [Hbig|Hsmall].
  - destruct (_ <? _); [done|].
    rewrite (go_slice_panic (E:=Empty_set) data 8 (u32 (8 + size)));
      [split; [done|]; exists 4, size; split_and!; done || lia|].
    assert (u32 (8 + size) = 8 + size - 2 ^ 32) as ->; [|lia].
    unfold u32. rewrite <- (Z.mod_small (8 + size - 2 ^ 32) (2 ^ 32)) by lia.
    by rewrite <- (Z_mod_plus_full (8 + size - 2 ^ 32) 1), Z.mul_1_l, Z.sub_add.
  - rewrite !u32_small by lia. destruct (Z.ltb_spec (zlen data) (size + 8)); [done|].
    rewrite !go_slice_Ok by lia. cbn [mbind outcome_bind].
    rewrite ztake_ge by (rewrite zlen_zdrop; lia).
    assert (Hl : (length (zdrop (8 + size) data) < fuel)%nat)
      by (unfold zdrop; rewrite length_drop; unfold zlen in *; lia).
    specialize (IH (zdrop (8 + size) data) (off + (8 + size))
      (<[u8 tag := (off + 8, zlen (ztake (8 + size - 8) (zdrop 8 data)))]> views)).
    case_match; try (apply IH; [by apply Forall_drop|rewrite zlen_zdrop; lia|done]).
    destruct IH as (-> & i & sz & Hi & Hget & Hsz);
      [by apply Forall_drop|rewrite zlen_zdrop; lia|done|].
    split; [done|]. exists (8 + size + i), sz. rewrite <- (zdrop_zdrop i) by lia. auto with lia.
Qed.

(** C27: loading a block terminates: on every buffer of the block size
    [Unmarshal] returns (with or without an error) unless some four bytes of the
    buffer encode a size within 8 of 2^32, and then the panic is the slice
    expression, never an index or the loop. *)
Theorem unmarshal_returns sha256 views buf :
  Forall byte_ok buf → zlen buf = Length →
  match Unmarshal sha256 views buf with
  | Ok _ => True
  | Err _ => False
  | Panic r => r = SliceBounds ∧ ∃ i size, 0 ≤ i ∧
      get_be32 (E:=Empty_set) (zdrop i buf) = Ok size ∧ 2 ^ 32 - 8 ≤ size
  end.
Proof.
  intros Hb Hlen. unfold Unmarshal. rewrite Hlen.
  assert (Length = 262144) as HL by done. rewrite HL in *.
  rewrite !go_slice_Ok by lia. cbn [mbind outcome_bind].
  destruct (get_be32_total (E:=Empty_set) (ztake (4 - 0) (zdrop 0 buf))) as [m1 ->];
    [rewrite zlen_ztake, zlen_zdrop by lia; lia|].
  destruct (get_be32_total (E:=Empty_set)
    (ztake (262144 - (262144 - 4)) (zdrop (262144 - 4) buf))) as [m2 ->];
    [rewrite zlen_ztake, zlen_zdrop by lia; lia|].
  cbn [mbind outcome_bind].
  destruct (negb (m1 =? _)); [done|]. destruct (negb (m2 =? _)); [done|].
  destruct (negb (bool_decide _)); [done|].
  set (data := ztake _ _).
  assert (zlen data = 262104) as Hd by (unfold data; rewrite zlen_ztake, zlen_zdrop by lia; lia).
  pose proof (parse_entries_outcome (S (length data)) data 4 views) as Hp.
  destruct (parse_entries _ data 4 views) as [| |r] eqn:Heq; try (apply Hp; [|lia|lia]).
  all: try by apply Forall_take, Forall_drop.
  destruct Hp as (-> & i & sz & Hi & Hget & Hsz); [by apply Forall_take, Forall_drop|lia|lia|].
  split; [done|]. exists (4 + i), sz. split; [lia|]. split; [|done].
  rewrite <- zdrop_zdrop by lia. by eapply get_be32_prefix.
Qed.

Lemma unmarshal_returns_witness :
  match Unmarshal (λ _, replicate 32 7) ∅ (replicate (Z.to_nat Length) 0) with
  | Ok _ => True
  | Err _ => False
  | Panic r => r = SliceBounds ∧ ∃ i size, 0 ≤ i ∧
      get_be32 (E:=Empty_set) (zdrop i (replicate (Z.to_nat Length) 0)) = Ok size
      ∧ 2 ^ 32 - 8 ≤ size
  end.
Proof.
  apply unmarshal_returns; [|by apply zlen_replicate].
  apply Forall_replicate. split; lia.
Defined.

End Chubo.
