(* ===== verification/SyslinuxAdv.v ===== *)
(** * META: the legacy syslinux ADV

    [internal/pkg/meta/internal/adv/syslinux/syslinux.go]: a 512-byte block, stored
    twice, edited in place.  The state is the byte slice itself. *)

From S2P Require Import Prelude Bytes MetaAdv.

Module Syslinux.

Definition AdvSize : Z := 512.
Definition AdvLen : Z := AdvSize - 3 * 4.
Definition AdvMagic1 : Z := 0x5a2d2fa5.
Definition AdvMagic2 : Z := 0xa3041767.
Definition AdvMagic3 : Z := 0xdd28bf64.

Inductive new_error := SeekFailed | ReadFailed.

(** [NewADV]: [r] is the content of the device, [None] for a nil reader.  The block
    is the last [2*AdvSize] bytes. *)
Definition NewADV (r : option (list Z)) : outcome new_error (list Z) :=
  match r with
  | None => Ok (replicate (Z.to_nat (2 * AdvSize)) 0)
  | Some r =>
      if zlen r <? 2 * AdvSize then Err SeekFailed
      else Ok (zdrop (zlen r - 2 * AdvSize) r)
  end.

(** The loops start behind the 8-byte header and advance by at least two bytes as
    long as [i < AdvSize-4-2], so 250 turns are enough ([scan_fuel]). *)
Definition scan_fuel : nat := 250.

Fixpoint read_loop (fuel : nat) (a : list Z) (t i : Z) : outcome Empty_set (option (list Z)) :=
  match fuel with
  | O => Panic LoopFuel
  | S fuel =>
      if i <? AdvSize - 4 - 2 then
        tag ← go_index a i;
        size ← go_index a (i + 1);
        if tag =? End then Ok None
        else if negb (tag =? t) then read_loop fuel a t (i + (2 + size))
        else
          n ← go_index a (i + 1);
          let length := n + i in
          val ← go_slice a (i + 2) (length + 2);
          Ok (Some val)
      else Ok None
  end.

Definition ReadTagBytes (a : list Z) (t : Z) : outcome Empty_set (option (list Z)) :=
  read_loop scan_fuel a t 8.

Definition ReadTag (a : list Z) (t : Z) : outcome Empty_set (list Z * bool) :=
  b ← ReadTagBytes a t;
  Ok (default [] b, bool_decide (is_Some b)).

Fixpoint list_loop (fuel : nat) (a : list Z) (i : Z) (tags : list Z) : outcome Empty_set (list Z) :=
  match fuel with
  | O => Panic LoopFuel
  | S fuel =>
      if i <? AdvSize - 4 - 2 then
        tag ← go_index a i;
        size ← go_index a (i + 1);
        if tag =? End then Ok tags
        else list_loop fuel a (i + (2 + size)) (tags ++ [tag])
      else Ok tags
  end.

Definition ListTags (a : list Z) : outcome Empty_set (list Z) := list_loop scan_fuel a 8 [].

(** *** Sealing the block *)

Definition head (a : list Z) : outcome Empty_set (list Z) := go_copy a 0 (le32 AdvMagic1).

Definition total_words : list Z := (λ k, 8 + 4 * Z.of_nat k) <$> seq 0 125.

Fixpoint total_loop (a : list Z) (offs : list Z) (csum : Z) : outcome Empty_set Z :=
  match offs with
  | [] => Ok csum
  | i :: offs =>
      w ← go_slice a i (i + 4);
      n ← get_le32 w;
      total_loop a offs (u32 (csum - n))
  end.

Definition total (a : list Z) : outcome Empty_set (list Z) :=
  csum ← total_loop a total_words AdvMagic2;
  go_copy a 4 (le32 csum).

Definition tail (a : list Z) : outcome Empty_set (list Z) :=
  go_copy a (AdvSize - 4) (le32 AdvMagic3).

Definition cleanup (a : list Z) : outcome Empty_set (list Z) :=
  a ← head a;
  a ← total a;
  a ← tail a;
  first ← go_slice a 0 AdvSize;
  go_copy a AdvSize first.

(** *** DeleteTag

    The end of the data to shift is read as the byte [a[AdvSize-4]]. *)

(** [for j := i; j < length; j++ { a[j] = 0 }] *)
Fixpoint zero_loop (n : nat) (a : list Z) (j : Z) : outcome Empty_set (list Z) :=
  match n with
  | O => Ok a
  | S n => a ← go_set a j 0; zero_loop n a (j + 1)
  end.

Fixpoint delete_loop (fuel : nat) (a : list Z) (t i : Z) : outcome Empty_set (bool * list Z) :=
  match fuel with
  | O => Panic LoopFuel
  | S fuel =>
      if i <? AdvSize - 4 - 2 then
        tag ← go_index a i;
        size ← go_index a (i + 1);
        if tag =? End then Ok (false, a)
        else if negb (tag =? t) then delete_loop fuel a t (i + (2 + size))
        else
          let start := i + 2 + size in
          e ← go_index a (AdvSize - 4);
          data ← go_slice a start e;
          let length := 2 + zlen data in
          a ← zero_loop (Z.to_nat (length - i)) a i;
          a ← go_copy a i data;
          Ok (true, a)
      else Ok (false, a)
  end.

Definition DeleteTag (a : list Z) (t : Z) : outcome Empty_set (bool * list Z) :=
  '(ok, a) ← delete_loop scan_fuel a t 8;
  if (ok : bool) then a ← cleanup a; Ok (ok, a) else Ok (ok, a).

(** *** SetTagBytes *)

Fixpoint set_loop (fuel : nat) (a : list Z) (t : Z) (val : list Z) (i : Z)
    : outcome Empty_set (bool * list Z) :=
  match fuel with
  | O => Panic LoopFuel
  | S fuel =>
      if i <? AdvSize - 4 - 2 then
        tag ← go_index a i;
        size ← go_index a (i + 1);
        if negb (tag =? End) then set_loop fuel a t val (i + (2 + size))
        else if i + 2 + zlen val >? AdvSize - 4 - 2 then Ok (false, a)
        else
          let length := u8 (zlen val) in
          a ← go_set a i t;
          a ← go_set a (i + 1) length;
          a ← go_copy a (i + 2) (ztake length val);
          Ok (true, a)
      else Ok (false, a)
  end.

Definition SetTagBytes (a : list Z) (t : Z) (val : list Z) : outcome Empty_set (bool * list Z) :=
  if zlen val >? 255 then Ok (false, a)
  else
    '(_, a) ← DeleteTag a t;
    '(ok, a) ← set_loop scan_fuel a t val 8;
    if (ok : bool) then a ← cleanup a; Ok (ok, a) else Ok (ok, a).

Definition SetTag (a : list Z) (t : Z) (val : list Z) : outcome Empty_set (bool * list Z) :=
  SetTagBytes a t val.

Definition Bytes (a : list Z) : outcome Empty_set (list Z) := Ok a.

#[global] Instance syslinux_adv : ADV (list Z) := {|
  MetaAdv.ReadTagBytes := ReadTagBytes;
  MetaAdv.SetTagBytes := SetTagBytes;
  MetaAdv.DeleteTag := DeleteTag;
  MetaAdv.ListTags := ListTags
|}.

(** The block of the repository's own test: tag 1 set to ["test me"]. *)
Example set_test_me :
  match SetTagBytes (replicate 1024 0) 1 [116; 101; 115; 116; 32; 109; 101] with
  | Ok (true, a) => take 20 a =
      [165; 47; 45; 90; 142; 155; 111; 208; 1; 7; 116; 101; 115; 116; 32; 109; 101; 0; 0; 0]
  | _ => False
  end.
Proof. by vm_compute. Qed.

(** ** The entry area

    A block the code itself has built: an 8-byte header, the entries, zeros up to the
    4-byte tail, and whatever the second half holds. *)

Fixpoint enc (es : list (Z * list Z)) : list Z :=
  match es with
  | [] => []
  | (t, v) :: es => t :: zlen v :: v ++ enc es
  end.

Definition entry_ok (e : Z * list Z) : Prop := 1 ≤ e.1 < 256 ∧ zlen e.2 < 256.

Fixpoint find_entry (t : Z) (es : list (Z * list Z)) : option (list Z) :=
  match es with
  | [] => None
  | (t', v) :: es => if t' =? t then Some v else find_entry t es
  end.

(** Little-endian words, the sealed block around an entry area, and the area itself. *)
Fixpoint words (l : list Z) : list Z :=
  match l with
  | a :: b :: c :: d :: l => (((d * 256 + c) * 256 + b) * 256 + a) :: words l
  | _ => []
  end.

Definition sum_words (l : list Z) : Z := foldr Z.add 0 (words l).

Definition half (csum : Z) (area : list Z) : list Z :=
  (le32 AdvMagic1 ++ le32 csum) ++ area ++ le32 AdvMagic3.

Definition seal (area : list Z) : list Z :=
  let csum := u32 (AdvMagic2 - sum_words area) in half csum area ++ half csum area.

Definition area (es : list (Z * list Z)) : list Z :=
  enc es ++ replicate (Z.to_nat (500 - zlen (enc es))) 0.

(** What stops the loops behind the last entry: the bound, or an [End] byte (the byte
    after it is read as well). *)
Definition stops (i : Z) (post : list Z) : Prop :=
  i < 506 → ∃ n post', post = End :: n :: post'.

Record layout (a : list Z) (es : list (Z * list Z)) (hdr tl copy : list Z) : Prop := {
  layout_parts : a = hdr ++ area es ++ tl ++ copy;
  layout_hdr : zlen hdr = 8;
  layout_tail : zlen tl = 4;
  layout_copy : zlen copy = 512;
  layout_room : zlen (enc es) ≤ 498;
  layout_entries : Forall entry_ok es
}.

Lemma entry_head {E} pre t v post :
  go_index (E:=E) (pre ++ (t :: zlen v :: v) ++ post) (zlen pre) = Ok t ∧
  go_index (E:=E) (pre ++ (t :: zlen v :: v) ++ post) (zlen pre + 1) = Ok (zlen v).
Proof.
  split; rewrite go_index_app_r by lia; [by rewrite Z.sub_diag|].
  by replace (zlen pre + 1 - zlen pre) with 1 by lia.
Qed.

Lemma enc_app es1 es2 : enc (es1 ++ es2) = enc es1 ++ enc es2.
Proof. induction es1 as [|[t v] es1 IH]; simpl; [done|]. by rewrite IH, <- app_assoc. Qed.

Lemma enc_length es : 2 * zlen es ≤ zlen (enc es).
Proof. induction es as [|[t v] es IH]; simpl; zlen_solve. Qed.

Lemma end_head {E} pre n post :
  go_index (E:=E) (pre ++ End :: n :: post) (zlen pre) = Ok End ∧
  go_index (E:=E) (pre ++ End :: n :: post) (zlen pre + 1) = Ok n.
Proof.
  split; rewrite go_index_app_r by lia; [by rewrite Z.sub_diag|].
  by replace (zlen pre + 1 - zlen pre) with 1 by lia.
Qed.

Lemma enc_cons_parts pre t v es post :
  pre ++ enc ((t, v) :: es) ++ post = pre ++ (t :: zlen v :: v) ++ (enc es ++ post) ∧
  pre ++ enc ((t, v) :: es) ++ post = (pre ++ (t :: zlen v :: v)) ++ enc es ++ post.
Proof. simpl. by rewrite <- !app_assoc. Qed.

(** A loop at the end of the entries, or at the entry [(t, v)] in front of the rest:
    evaluates the bound check and the two reads. *)
Ltac loop_at_end Hstop :=
  match goal with
  | |- context [?i <? AdvSize - 4 - 2] =>
      destruct (Z.ltb_spec i (AdvSize - 4 - 2)); [|done]; unfold AdvSize in *;
      let n := fresh "n" in let post' := fresh "post" in
      let H1 := fresh "Ha" in let H2 := fresh "Hb" in
      cbn [enc] in Hstop; rewrite zlen_nil in Hstop;
      destruct Hstop as (n & post' & ->); [lia|]; cbn [enc app];
      match goal with |- context [?pre ++ End :: n :: post'] =>
        destruct (end_head (E:=Empty_set) pre n post') as [H1 H2] end;
      rewrite H1, H2; cbn [mbind outcome_bind]; clear H1 H2
  end.

Ltac loop_at_entry pre t v es post :=
  let H1 := fresh "Ha" in let H2 := fresh "Hb" in
  assert (zlen pre < 506) by (cbn [enc] in *; zlen_solve);
  rewrite (proj2 (Z.ltb_lt (zlen pre) (AdvSize - 4 - 2))) by done;
  rewrite (proj1 (enc_cons_parts pre t v es post));
  destruct (entry_head (E:=Empty_set) pre t v (enc es ++ post)) as [H1 H2];
  rewrite !H1, !H2; cbn [mbind outcome_bind]; clear H1 H2.

Lemma skip_entry pre t v es post :
  zlen pre + (2 + zlen v) = zlen (pre ++ (t :: zlen v :: v)) ∧
  zlen (pre ++ (t :: zlen v :: v)) + zlen (enc es) = zlen pre + zlen (enc ((t, v) :: es)) ∧
  pre ++ (t :: zlen v :: v) ++ (enc es ++ post) = (pre ++ (t :: zlen v :: v)) ++ enc es ++ post.
Proof. simpl. split_and!; [zlen_solve|zlen_solve|by rewrite <- !app_assoc]. Qed.

Lemma read_loop_spec es fuel pre post t :
  Forall entry_ok es → zlen pre + zlen (enc es) ≤ 506 → (length es < fuel)%nat →
  stops (zlen pre + zlen (enc es)) post →
  read_loop fuel (pre ++ enc es ++ post) t (zlen pre) = Ok (find_entry t es).
Proof.
  revert fuel pre. induction es as [|[t' v] es IH]; intros fuel pre Hok Hsz Hf Hstop;
    (destruct fuel as [|fuel]; simpl in Hf; [lia|]); cbn [read_loop].
  - loop_at_end Hstop. done.
  - apply Forall_cons in Hok as [[Ht Hv] Hok]. simpl in Ht, Hv.
    loop_at_entry pre t' v es post.
    rewrite (proj2 (Z.eqb_neq t' End)) by (unfold End; lia). cbn [find_entry].
    destruct (skip_entry pre t' v es post) as (-> & Hz & Happ).
    destruct (t' =? t); cbn [negb].
    + rewrite (go_slice_parts _ (pre ++ [t'; zlen v]) v (enc es ++ post));
        [done|by rewrite <- app_assoc|zlen_solve|zlen_solve].
    + rewrite Happ. apply IH; [done|by rewrite Hz|lia|by rewrite Hz].
Qed.

Lemma list_loop_spec es fuel pre post tags :
  Forall entry_ok es → zlen pre + zlen (enc es) ≤ 506 → (length es < fuel)%nat →
  stops (zlen pre + zlen (enc es)) post →
  list_loop fuel (pre ++ enc es ++ post) (zlen pre) tags = Ok (tags ++ es.*1).
Proof.
  revert fuel pre tags. induction es as [|[t' v] es IH]; intros fuel pre tags Hok Hsz Hf Hstop;
    (destruct fuel as [|fuel]; simpl in Hf; [lia|]); cbn [list_loop].
  - rewrite app_nil_r. loop_at_end Hstop. done.
  - apply Forall_cons in Hok as [[Ht Hv] Hok]. simpl in Ht, Hv.
    loop_at_entry pre t' v es post.
    rewrite (proj2 (Z.eqb_neq t' End)) by (unfold End; lia).
    destruct (skip_entry pre t' v es post) as (-> & Hz & Happ). rewrite Happ.
    rewrite IH by (done || lia || by rewrite Hz). by rewrite <- app_assoc.
Qed.

(** [DeleteTag] at the entry it removes. *)
Definition delete_at (a : list Z) (i size : Z) : outcome Empty_set (bool * list Z) :=
  e ← go_index a (AdvSize - 4);
  data ← go_slice a (i + 2 + size) e;
  a ← zero_loop (Z.to_nat (2 + zlen data - i)) a i;
  a ← go_copy a i data;
  Ok (true, a).

Lemma delete_loop_skip es1 fuel pre rest t :
  Forall entry_ok es1 → find_entry t es1 = None → zlen pre + zlen (enc es1) ≤ 506 →
  (length es1 ≤ fuel)%nat →
  delete_loop fuel (pre ++ enc es1 ++ rest) t (zlen pre) =
  delete_loop (fuel - length es1) (pre ++ enc es1 ++ rest) t (zlen pre + zlen (enc es1)).
Proof.
  revert fuel pre. induction es1 as [|[t' v] es IH]; intros fuel pre Hok Hne Hsz Hf.
  { cbn [enc length]. rewrite zlen_nil. by rewrite Z.add_0_r, Nat.sub_0_r. }
  destruct fuel as [|fuel]; cbn [length] in Hf; [lia|]. cbn [delete_loop].
  apply Forall_cons in Hok as [[Ht Hv] Hok]. simpl in Ht, Hv.
  loop_at_entry pre t' v es rest.
  rewrite (proj2 (Z.eqb_neq t' End)) by (unfold End; lia). cbn [find_entry] in Hne.
  destruct (t' =? t); [done|]. cbn [negb].
  destruct (skip_entry pre t' v es rest) as (-> & Hz & Happ). rewrite Happ.
  rewrite IH by (done || lia || by rewrite Hz). by rewrite Hz.
Qed.

Lemma delete_loop_found es1 fuel pre v rest t :
  Forall entry_ok es1 → find_entry t es1 = None → entry_ok (t, v) →
  zlen pre + zlen (enc es1) + 2 + zlen v ≤ 506 → (length es1 < fuel)%nat →
  let a := pre ++ enc es1 ++ (t :: zlen v :: v) ++ rest in
  delete_loop fuel a t (zlen pre) = delete_at a (zlen pre + zlen (enc es1)) (zlen v).
Proof.
  intros Hok Hne [Ht Hv] Hsz Hf a. simpl in Ht, Hv. unfold a.
  pose proof (zlen_nonneg v).
  rewrite delete_loop_skip by (done || lia).
  destruct (fuel - length es1)%nat as [|n] eqn:Hn; [lia|]. cbn [delete_loop].
  rewrite (proj2 (Z.ltb_lt _ _)) by (unfold AdvSize; lia).
  rewrite app_assoc, <- zlen_app.
  destruct (entry_head (E:=Empty_set) (pre ++ enc es1) t v rest) as [-> ->].
  cbn [mbind outcome_bind]. rewrite (proj2 (Z.eqb_neq t End)) by (unfold End; lia).
  by rewrite Z.eqb_refl.
Qed.

Lemma delete_loop_missing es fuel pre post t :
  Forall entry_ok es → find_entry t es = None → zlen pre + zlen (enc es) ≤ 506 →
  (length es < fuel)%nat → stops (zlen pre + zlen (enc es)) post →
  delete_loop fuel (pre ++ enc es ++ post) t (zlen pre) = Ok (false, pre ++ enc es ++ post).
Proof.
  intros Hok Hne Hsz Hf Hstop. rewrite delete_loop_skip by (done || lia).
  destruct (fuel - length es)%nat as [|n] eqn:Hn; [lia|]. cbn [delete_loop].
  rewrite app_assoc. rewrite <- zlen_app in *.
  destruct (Z.ltb_spec (zlen (pre ++ enc es)) (AdvSize - 4 - 2)); [|done].
  destruct Hstop as (k & post' & ->); [done|].
  destruct (end_head (E:=Empty_set) (pre ++ enc es) k post') as [-> ->]. done.
Qed.

(** [SetTagBytes] at the first [End] byte. *)
Lemma set_loop_spec es fuel pre z0 rest t v :
  Forall entry_ok es → (length es < fuel)%nat → 0 ≤ zlen v < 256 →
  zlen z0 = 2 + zlen v → (∃ n z, z0 ++ rest = End :: n :: z) →
  zlen pre + zlen (enc es) + 2 + zlen v ≤ 506 →
  set_loop fuel (pre ++ enc es ++ z0 ++ rest) t v (zlen pre) =
  Ok (true, pre ++ enc es ++ (t :: zlen v :: v) ++ rest).
Proof.
  revert fuel pre. induction es as [|[t' w] es IH]; intros fuel pre Hok Hf Hv Hz0 (n & z & Hend) Hsz;
    (destruct fuel as [|fuel]; simpl in Hf; [lia|]); cbn [set_loop].
  - cbn [enc] in *. rewrite zlen_nil in *. cbn [app].
    rewrite (proj2 (Z.ltb_lt _ _)) by (unfold AdvSize; lia). 
    destruct (end_head (E:=Empty_set) pre n z) as [H1 H2].
    rewrite <- Hend in H1, H2. rewrite H1, H2. cbn [mbind outcome_bind]. cbn [negb].
    rewrite Z.eqb_refl. cbn [negb].
    rewrite Z.gtb_ltb, (proj2 (Z.ltb_ge _ _)) by (unfold AdvSize; lia).
    rewrite u8_small by lia.
    destruct z0 as [|x [|y z0]]; autorewrite with zlen in Hz0; try lia. cbn [app].
    rewrite go_set_mid by done. cbn [mbind outcome_bind].
    rewrite cons_middle, app_assoc, go_set_mid by zlen_solve. cbn [mbind outcome_bind].
    rewrite (go_copy_parts _ (pre ++ [t; zlen v]) z0 rest);
      [|by rewrite <- !app_assoc|zlen_solve|rewrite ztake_ge; lia].
    rewrite ztake_ge by lia. cbn [mbind outcome_bind]. by rewrite <- app_assoc.
  - apply Forall_cons in Hok as [[Ht Hw] Hok]. simpl in Ht, Hw.
    loop_at_entry pre t' w es (z0 ++ rest).
    rewrite (proj2 (Z.eqb_neq t' End)) by (unfold End; lia). cbn [negb].
    destruct (skip_entry pre t' w es (z0 ++ rest)) as (-> & Hz & Happ). rewrite Happ.
    rewrite IH by (done || lia || eauto || by rewrite Hz).
    simpl. by rewrite <- !app_assoc.
Qed.

(** *** [cleanup] *)

Lemma zlen_area es : zlen (enc es) ≤ 500 → zlen (area es) = 500.
Proof.
  intros. unfold area. pose proof (zlen_nonneg (enc es)).
  rewrite zlen_app, zlen_replicate by lia. lia.
Qed.

Lemma zlen_half csum ar : zlen ar = 500 → zlen (half csum ar) = 512.
Proof. intros. unfold half. zlen_solve. Qed.

Lemma total_loop_spec n i pre ws post csum :
  i = zlen pre → zlen ws = 4 * Z.of_nat n → 0 ≤ csum < 2 ^ 32 →
  total_loop (pre ++ ws ++ post) ((λ k, i + 4 * Z.of_nat k) <$> seq 0 n) csum =
  Ok (u32 (csum - sum_words ws)).
Proof.
  revert i pre ws csum. induction n as [|n IH]; intros i pre ws csum Hi Hws Hc.
  { simpl in Hws. rewrite (zlen_0_inv ws) by lia. cbn. by rewrite Z.sub_0_r, u32_small. }
  destruct ws as [|x1 [|x2 [|x3 [|x4 ws]]]]; try (autorewrite with zlen in Hws; lia).
  cbn [seq fmap list_fmap total_loop]. rewrite Z.add_0_r.
  rewrite (go_slice_parts _ pre [x1; x2; x3; x4] (ws ++ post)) by (done || zlen_solve).
  cbn [mbind outcome_bind get_le32].
  rewrite <- fmap_S_seq, <- list_fmap_compose.
  rewrite (list_fmap_ext _ (λ k, (i + 4) + 4 * Z.of_nat k)) by (intros; simpl; lia).
  change (pre ++ _) with (pre ++ [x1; x2; x3; x4] ++ ws ++ post). rewrite app_assoc.
  unfold get_le32. cbn [mbind outcome_bind].
  rewrite IH by (first [apply u32_range | zlen_solve]).
  f_equal. unfold sum_words. cbn [words foldr]. unfold u32. rewrite Zminus_mod_idemp_l.
  f_equal. lia.
Qed.

Lemma cleanup_seal hdr ar tl copy :
  zlen hdr = 8 → zlen ar = 500 → zlen tl = 4 → zlen copy = 512 →
  cleanup (hdr ++ ar ++ tl ++ copy) = Ok (seal ar).
Proof.
  intros Hh Ha Ht Hc. unfold cleanup, head.
  destruct hdr as [|h1 [|h2 [|h3 [|h4 hdr]]]]; try (autorewrite with zlen in Hh; lia).
  rewrite (go_copy_parts _ [] [h1; h2; h3; h4] (hdr ++ ar ++ tl ++ copy)) by done.
  cbn [mbind outcome_bind app]. unfold total, total_words.
  rewrite app_assoc.
  rewrite (total_loop_spec 125 8) by (done || zlen_solve).
  cbn [mbind outcome_bind]. rewrite <- app_assoc.
  set (csum := u32 _).
  rewrite (go_copy_parts _ (le32 AdvMagic1) hdr (ar ++ tl ++ copy)) by (done || zlen_solve).
  cbn [mbind outcome_bind]. unfold tail.
  rewrite (go_copy_parts _ (le32 AdvMagic1 ++ le32 csum ++ ar) tl copy)
    by (rewrite <- ?app_assoc; (done || unfold AdvSize; zlen_solve)).
  cbn [mbind outcome_bind].
  assert (Hhalf : (le32 AdvMagic1 ++ le32 csum ++ ar) ++ le32 AdvMagic3 ++ copy = half csum ar ++ copy)
    by (unfold half; by rewrite <- !app_assoc).
  rewrite Hhalf. pose proof (zlen_half csum ar Ha) as Hl.
  rewrite (go_slice_parts _ [] (half csum ar) copy) by (done || unfold AdvSize; zlen_solve).
  cbn [mbind outcome_bind].
  rewrite (go_copy_parts _ (half csum ar) copy []); [by rewrite app_nil_r|..];
    [by rewrite app_nil_r|unfold AdvSize; lia|lia].
Qed.

Lemma layout_seal es :
  zlen (enc es) ≤ 498 → Forall entry_ok es →
  layout (seal (area es)) es (le32 AdvMagic1 ++ le32 (u32 (AdvMagic2 - sum_words (area es))))
    (le32 AdvMagic3) (half (u32 (AdvMagic2 - sum_words (area es))) (area es)).
Proof.
  intros Hsz Hok. split; try done.
  - unfold seal. unfold half at 1. by rewrite <- !app_assoc.
  - apply zlen_half, zlen_area. lia.
Qed.

(** *** The operations on a laid out block *)

Lemma layout_stops a es hdr tl copy :
  layout a es hdr tl copy →
  stops (zlen hdr + zlen (enc es)) (replicate (Z.to_nat (500 - zlen (enc es))) 0 ++ tl ++ copy).
Proof.
  intros [_ Hh _ _ Hr _] Hlt.
  destruct (Z.to_nat (500 - zlen (enc es))) as [|[|n]] eqn:Hn; [lia..|].
  simpl. eauto.
Qed.

Lemma layout_fuel a es hdr tl copy :
  layout a es hdr tl copy → (length es < scan_fuel)%nat.
Proof.
  intros [_ _ _ _ Hr _]. pose proof (enc_length es). unfold scan_fuel, zlen in *. lia.
Qed.

Lemma layout_unfold a es hdr tl copy :
  layout a es hdr tl copy →
  a = hdr ++ enc es ++ replicate (Z.to_nat (500 - zlen (enc es))) 0 ++ tl ++ copy.
Proof. intros [-> _ _ _ _ _]. unfold area. by rewrite <- !app_assoc. Qed.

Lemma ReadTagBytes_layout a es hdr tl copy t :
  layout a es hdr tl copy → ReadTagBytes a t = Ok (find_entry t es).
Proof.
  intros Hl. unfold ReadTagBytes. rewrite (layout_unfold _ _ _ _ _ Hl).
  pose proof Hl as [_ <- _ _ Hr Hok].
  apply read_loop_spec; eauto using layout_fuel, layout_stops. destruct Hl; lia.
Qed.

Lemma ListTags_layout a es hdr tl copy :
  layout a es hdr tl copy → ListTags a = Ok es.*1.
Proof.
  intros Hl. unfold ListTags. rewrite (layout_unfold _ _ _ _ _ Hl).
  pose proof Hl as [_ <- _ _ Hr Hok].
  rewrite list_loop_spec; eauto using layout_fuel, layout_stops. destruct Hl; lia.
Qed.

Lemma DeleteTag_missing a es hdr tl copy t :
  layout a es hdr tl copy → find_entry t es = None → DeleteTag a t = Ok (false, a).
Proof.
  intros Hl Hne. unfold DeleteTag. pose proof (layout_unfold _ _ _ _ _ Hl) as Ha.
  pose proof Hl as [_ Hh _ _ Hr Hok]. rewrite Ha at 1. rewrite <- Hh.
  rewrite delete_loop_missing; eauto using layout_fuel, layout_stops; [|lia].
  by rewrite <- Ha.
Qed.

Lemma area_extend es t v :
  zlen (enc es) + 2 + zlen v ≤ 498 →
  (enc es ++ (t :: zlen v :: v) ++ replicate (Z.to_nat (500 - zlen (enc es) - (2 + zlen v))) 0)
  = area (es ++ [(t, v)]).
Proof.
  intros. unfold area. rewrite enc_app. cbn [enc]. rewrite app_nil_r.
  rewrite <- app_assoc. do 4 f_equal. zlen_solve.
Qed.

(** The loop refuses a value that does not fit, wherever it stops. *)
Lemma set_loop_refuses es fuel pre z t v :
  Forall entry_ok es → (length es < fuel)%nat → zlen pre + zlen (enc es) ≤ 506 →
  stops (zlen pre + zlen (enc es)) z →
  506 < zlen pre + zlen (enc es) + 2 + zlen v →
  set_loop fuel (pre ++ enc es ++ z) t v (zlen pre) = Ok (false, pre ++ enc es ++ z).
Proof.
  revert fuel pre. induction es as [|[t' w] es IH]; intros fuel pre Hok Hf Hsz Hstop Hbig;
    (destruct fuel as [|fuel]; simpl in Hf; [lia|]); cbn [set_loop].
  - loop_at_end Hstop. rewrite Z.eqb_refl. cbn [negb].
    cbn [enc] in Hbig. rewrite zlen_nil in Hbig.
    by rewrite Z.gtb_ltb, (proj2 (Z.ltb_lt _ _)) by lia.
  - apply Forall_cons in Hok as [[Ht Hw] Hok]. simpl in Ht, Hw.
    loop_at_entry pre t' w es z.
    rewrite (proj2 (Z.eqb_neq t' End)) by (unfold End; lia). cbn [negb].
    destruct (skip_entry pre t' w es z) as (-> & Hz & Happ). rewrite Happ.
    by rewrite IH by (done || lia || by rewrite Hz).
Qed.

Lemma find_entry_snoc es t v :
  find_entry t es = None → find_entry t (es ++ [(t, v)]) = Some v.
Proof.
  intros Hne. induction es as [|[t' w] es IH]; simpl in *; [by rewrite Z.eqb_refl|].
  destruct (t' =? t); [done|auto].
Qed.

Lemma find_entry_append es t v t' :
  find_entry t es = None → find_entry t' (es ++ [(t, v)]) = if t' =? t then Some v else find_entry t' es.
Proof.
  intros Hne. destruct (Z.eqb_spec t' t) as [-> |Hn]; [by apply find_entry_snoc|]. clear Hne.
  induction es as [|[k w] es IH]; simpl; [by rewrite (proj2 (Z.eqb_neq t t')) by congruence|].
  by destruct (k =? t').
Qed.

(** A block the code has sealed. *)
Definition sealed (a : list Z) (es : list (Z * list Z)) : Prop :=
  a = seal (area es) ∧ zlen (enc es) ≤ 498 ∧ Forall entry_ok es.

Lemma sealed_layout a es : sealed a es → ∃ hdr copy, layout a es hdr (le32 AdvMagic3) copy.
Proof. intros (-> & Hsz & Hok). eauto using layout_seal. Qed.

Lemma sealed_reads a es t :
  sealed a es → ReadTagBytes a t = Ok (find_entry t es) ∧ ListTags a = Ok es.*1.
Proof.
  intros (hdr & copy & Hl)%sealed_layout. eauto using ReadTagBytes_layout, ListTags_layout.
Qed.

Lemma SetTagBytes_appends a es hdr tl copy t v :
  layout a es hdr tl copy → 1 ≤ t < 256 → find_entry t es = None →
  zlen v ≤ 255 → zlen (enc es) + 2 + zlen v ≤ 498 →
  ∃ a', SetTagBytes a t v = Ok (true, a') ∧ sealed a' (es ++ [(t, v)]).
Proof.
  intros Hl Ht Hne Hv Hfit.
  pose proof (layout_unfold _ _ _ _ _ Hl) as Ha. pose proof (layout_fuel _ _ _ _ _ Hl) as Hf.
  pose proof (DeleteTag_missing _ _ _ _ _ _ Hl Hne) as Hd.
  pose proof (zlen_nonneg v). pose proof (zlen_nonneg (enc es)).
  destruct Hl as [_ Hh Htl Hc Hr Hok]. unfold SetTagBytes.
  rewrite Z.gtb_ltb, (proj2 (Z.ltb_ge _ _)), Hd by lia. cbn [mbind outcome_bind].
  set (n := 500 - zlen (enc es)) in *. set (m := 2 + zlen v).
  assert (replicate (Z.to_nat n) 0 = replicate (Z.to_nat m) 0 ++ replicate (Z.to_nat (n - m)) 0) as Hrep
    by (rewrite <- replicate_add; f_equal; lia).
  rewrite Ha, Hrep, <- app_assoc. rewrite <- Hh.
  rewrite set_loop_spec; [|done|done|lia|by rewrite zlen_replicate by lia| |lia].
  2:{ destruct (Z.to_nat m) as [|[|k]] eqn:Hk; [lia..|]. simpl. eauto. }
  cbn [mbind outcome_bind].
  assert (Hsz : zlen (enc (es ++ [(t, v)])) ≤ 498)
    by (rewrite enc_app, zlen_app; simpl; zlen_solve).
  assert (Hcl : enc es ++ (t :: zlen v :: v) ++ replicate (Z.to_nat (n - m)) 0 ++ tl ++ copy =
    area (es ++ [(t, v)]) ++ tl ++ copy)
    by (rewrite <- area_extend by lia; by rewrite <- !app_assoc).
  rewrite Hcl, cleanup_seal by (done || apply zlen_area; lia). cbn [mbind outcome_bind].
  eexists. split; [done|]. split; [done|]. split; [done|].
  apply Forall_app; split; [done|]. constructor; [split; simpl; lia|done].
Qed.

Lemma SetTagBytes_refused a es hdr tl copy t v :
  layout a es hdr tl copy → find_entry t es = None →
  ¬ (zlen v ≤ 255 ∧ zlen (enc es) + 2 + zlen v ≤ 498) → SetTagBytes a t v = Ok (false, a).
Proof.
  intros Hl Hne Hbig. unfold SetTagBytes. rewrite Z.gtb_ltb.
  destruct (Z.ltb_spec 255 (zlen v)) as [|Hv]; [done|].
  pose proof (layout_unfold _ _ _ _ _ Hl) as Ha. pose proof (layout_fuel _ _ _ _ _ Hl) as Hf.
  pose proof (layout_stops _ _ _ _ _ Hl) as Hs.
  rewrite (DeleteTag_missing _ _ _ _ _ _ Hl Hne). cbn [mbind outcome_bind].
  destruct Hl as [_ Hh _ _ Hr Hok]. rewrite Ha, <- Hh at 1.
  rewrite set_loop_refuses; [|done|done|lia|done|lia]. cbn [mbind outcome_bind]. by rewrite <- Ha.
Qed.

(** C26: the operations of the legacy block on any block the code lays out:
    [ReadTagBytes] returns (the scan ends) with the first entry of the tag, if there is
    one, and [ListTags] with the tags in order; setting a tag that is not present appends
    the entry and re-seals the block exactly when it fits, after which all tags read as
    before and the new one as its value, and otherwise leaves the block as it was. *)
Theorem legacy_block_operations a es hdr tl copy :
  layout a es hdr tl copy →
  (∀ t, ReadTagBytes a t = Ok (find_entry t es)) ∧ ListTags a = Ok es.*1 ∧
  ∀ t v, 1 ≤ t < 256 → find_entry t es = None →
  if bool_decide (zlen v ≤ 255 ∧ zlen (enc es) + 2 + zlen v ≤ 498) then
    ∃ a', SetTagBytes a t v = Ok (true, a') ∧ sealed a' (es ++ [(t, v)]) ∧
      (∀ t', ReadTagBytes a' t' = Ok (if t' =? t then Some v else find_entry t' es)) ∧
      ListTags a' = Ok (es.*1 ++ [t])
  else SetTagBytes a t v = Ok (false, a).
Proof.
  intros Hl. split; [intros t; by eapply ReadTagBytes_layout|].
  split; [by eapply ListTags_layout|]. intros t v Ht Hne.
  case_bool_decide as Hfit; [|eauto using SetTagBytes_refused].
  destruct Hfit. destruct (SetTagBytes_appends a es hdr tl copy t v) as (a' & Hset & Hs); [done..|].
  exists a'. split_and!; [done|done| |].
  - intros t'. destruct (sealed_reads _ _ t' Hs) as [-> _]. by rewrite find_entry_append.
  - destruct (sealed_reads _ _ t Hs) as [_ ->]. by rewrite fmap_app.
Qed.

(** The zeroed block [NewADV] makes for a nil reader. *)
Lemma layout_blank :
  layout (replicate 1024 0) [] (replicate 8 0) (replicate 4 0) (replicate 512 0).
Proof. by split. Qed.

Lemma legacy_block_operations_witness :
  ReadTagBytes (seal (area [(5, [9])])) 5 = Ok (Some [9]) ∧ ListTags (seal (area [(5, [9])])) = Ok [5] ∧
  ∃ a', SetTagBytes (seal (area [(5, [9])])) 6 [1; 2] = Ok (true, a') ∧ sealed a' [(5, [9]); (6, [1; 2])] ∧
    (∀ t', ReadTagBytes a' t' = Ok (if t' =? 6 then Some [1; 2] else find_entry t' [(5, [9])])) ∧
    ListTags a' = Ok [5; 6].
Proof.
  assert (Hs : sealed (seal (area [(5, [9])])) [(5, [9])]).
  { split; [done|]. split; [by vm_compute|]. repeat constructor; simpl; lia. }
  destruct (sealed_layout _ _ Hs) as (hdr & copy & Hl).
  destruct (legacy_block_operations _ _ _ _ _ Hl) as (Hread & Hlist & Hset).
  split; [exact (Hread 5)|]. split; [exact Hlist|].
  apply (Hset 6 [1; 2] ltac:(lia) eq_refl).
Defined.

(** *** Deletion

    The loop that clears the old bytes only touches bytes the shifted data
    overwrites. *)

Lemma zero_loop_parts n l1 l2 l3 i :
  i = zlen l1 → length l2 = n →
  zero_loop n (l1 ++ l2 ++ l3) i = Ok (l1 ++ replicate n 0 ++ l3).
Proof.
  revert l1 l2 i. induction n as [|n IH]; intros l1 l2 i -> Hl2.
  { by apply length_zero_iff_nil in Hl2 as ->. }
  destruct l2 as [|x l2]; [done|]. cbn [zero_loop app].
  rewrite go_set_mid by done. cbn [mbind outcome_bind].
  rewrite cons_middle, app_assoc.
  rewrite (IH (l1 ++ [0]) l2) by (first [zlen_solve | simpl in Hl2; lia]).
  by rewrite <- app_assoc.
Qed.

Lemma delete_at_shift pre gone data rest i size :
  i = zlen pre → 2 ≤ i → zlen gone = 2 + size → 0 ≤ size →
  go_index (E:=Empty_set) (pre ++ gone ++ data ++ rest) (AdvSize - 4) = Ok (i + 2 + size + zlen data) →
  delete_at (pre ++ gone ++ data ++ rest) i size =
  Ok (true, pre ++ data ++ zdrop (zlen data) (gone ++ data) ++ rest).
Proof.
  intros -> Hi Hgone Hsize Hend. unfold delete_at. rewrite Hend. cbn [mbind outcome_bind].
  pose proof (zlen_nonneg data).
  rewrite (go_slice_parts _ (pre ++ gone) data rest) by (first [by rewrite <- !app_assoc | zlen_solve]).
  cbn [mbind outcome_bind].
  set (n := Z.to_nat (2 + zlen data - zlen pre)).
  pose proof (ztake_zdrop (zlen data) (gone ++ data)) as Hsplit.
  set (w := ztake (zlen data) (gone ++ data)) in *. set (k := zdrop _ (gone ++ data)) in *.
  assert (zlen w = zlen data) as Hw by (unfold w; rewrite zlen_ztake; zlen_solve).
  assert (Hpre : pre ++ gone ++ data ++ rest = pre ++ w ++ k ++ rest).
  { rewrite (app_assoc gone), <- Hsplit. by rewrite <- !app_assoc. }
  rewrite Hpre, <- (take_drop n w), <- app_assoc.
  rewrite zero_loop_parts; [|done|rewrite length_take; unfold n, zlen in *; lia].
  cbn [mbind outcome_bind].
  rewrite (go_copy_parts _ pre (replicate n 0 ++ drop n w) (k ++ rest)); [done| |done|].
  - by rewrite <- !app_assoc.
  - unfold zlen in *. rewrite length_app, length_replicate, length_drop. unfold n, zlen. lia.
Qed.

Lemma sealed_parts a es1 t v es2 :
  sealed a (es1 ++ (t, v) :: es2) → ∃ hdr copy,
    let es := es1 ++ (t, v) :: es2 in
    layout a es hdr (le32 AdvMagic3) copy ∧
    a = hdr ++ enc es1 ++ (t :: zlen v :: v) ++
      (enc es2 ++ replicate (Z.to_nat (500 - zlen (enc es))) 0 ++ le32 AdvMagic3 ++ copy) ∧
    zlen (enc es) = zlen (enc es1) + (2 + zlen v) + zlen (enc es2) ∧
    entry_ok (t, v) ∧ Forall entry_ok es1 ∧ Forall entry_ok es2.
Proof.
  intros (hdr & copy & Hl)%sealed_layout. exists hdr, copy. cbv zeta.
  split; [done|]. split.
  - rewrite (layout_unfold _ _ _ _ _ Hl) at 1. set (z := replicate _ 0).
    rewrite enc_app, <- app_assoc. simpl. by rewrite <- app_assoc.
  - split; [rewrite enc_app; cbn [enc]; zlen_solve|].
    destruct Hl as [_ _ _ _ _ Hok]. apply Forall_app in Hok as [? [??]%Forall_cons]. done.
Qed.

Lemma tail_byte hdr ar copy :
  zlen hdr = 8 → zlen ar = 500 →
  go_index (E:=Empty_set) (hdr ++ ar ++ le32 AdvMagic3 ++ copy) (AdvSize - 4) = Ok 100.
Proof.
  intros. unfold AdvSize. rewrite !go_index_app_r by lia.
  replace (512 - 4 - zlen hdr - zlen ar) with 0 by lia. by vm_compute.
Qed.

Lemma delete_at_true a i size b a' : delete_at a i size = Ok (b, a') → b = true.
Proof.
  unfold delete_at. intros (e & _ & (data & _ & (a1 & _ & (a2 & _ & [= <- _])%bind_Ok_inv)
    %bind_Ok_inv)%bind_Ok_inv)%bind_Ok_inv. done.
Qed.

Lemma DeleteTag_found a es1 t v es2 :
  sealed a (es1 ++ (t, v) :: es2) → find_entry t es1 = None →
  DeleteTag a t =
    '(_, a) ← delete_at a (8 + zlen (enc es1)) (zlen v); a ← cleanup a; Ok (true, a).
Proof.
  intros Hs Hne. destruct (sealed_parts _ _ _ _ _ Hs) as (hdr & copy & Hl & Ha & Hsz & Ht & Ho1 & Ho2).
  pose proof (layout_fuel _ _ _ _ _ Hl) as Hf. rewrite length_app in Hf. simpl in Hf.
  destruct Hl as [_ Hh _ _ Hr _]. pose proof (zlen_nonneg (enc es2)).
  unfold DeleteTag. rewrite Ha. rewrite <- Hh.
  rewrite delete_loop_found; [|done|done|done|lia|lia].
  destruct (delete_at _ _ _) as [[b a']| |] eqn:Hd; [|done..].
  by rewrite (delete_at_true _ _ _ _ _ Hd).
Qed.

Lemma zdrop_zeros l k m :
  zlen l ≤ k ≤ zlen l + m → zdrop k (l ++ replicate (Z.to_nat m) 0) = replicate (Z.to_nat (zlen l + m - k)) 0.
Proof.
  intros. unfold zdrop, zlen in *. rewrite drop_app_ge by lia. rewrite drop_replicate.
  f_equal. lia.
Qed.

(** What is left of the entry area after the shift, when the bytes it exposes are
    zeros. *)
Lemma shifted_area es1 es2 (gone : list Z) m r :
  0 ≤ r → zlen gone ≤ m → m + r = 500 - zlen gone - zlen (enc es1) - zlen (enc es2) →
  let data := enc es2 ++ replicate (Z.to_nat m) 0 in
  enc es1 ++ data ++ zdrop (zlen data) (gone ++ data) ++ replicate (Z.to_nat r) 0 = area (es1 ++ es2).
Proof.
  intros Hr Hm Hsum. cbv zeta. pose proof (zlen_nonneg gone).
  rewrite (app_assoc gone), zdrop_zeros.
  2: rewrite !zlen_app, zlen_replicate by lia; lia.
  unfold area. rewrite enc_app, <- !app_assoc. do 2 f_equal.
  rewrite <- !replicate_add. f_equal. rewrite !zlen_app, zlen_replicate by lia. lia.
Qed.

(** [DeleteTag] on a block the code sealed.  The end of the data it shifts is the
    tail's first byte, 100, not the end of the entry area: an entry is removed (and
    the block re-sealed around the others) when all entries end 2 + len(value) bytes
    before offset 100, and an entry that ends behind offset 100 makes the call, and a
    [SetTagBytes] of the same tag, panic. *)
Theorem legacy_delete a es1 t v es2 w :
  sealed a (es1 ++ (t, v) :: es2) → find_entry t es1 = None → zlen w ≤ 255 →
  (8 + zlen (enc (es1 ++ (t, v) :: es2)) + 2 + zlen v ≤ 100 →
    ∃ a', DeleteTag a t = Ok (true, a') ∧ sealed a' (es1 ++ es2)) ∧
  (100 < 8 + zlen (enc (es1 ++ [(t, v)])) →
    DeleteTag a t = Panic SliceBounds ∧ SetTagBytes a t w = Panic SliceBounds).
Proof.
  intros Hs Hne Hw. pose proof (DeleteTag_found _ _ _ _ _ Hs Hne) as Hdel.
  destruct (sealed_parts _ _ _ _ _ Hs) as (hdr & copy & Hl & Ha & Hsz & Ht & Ho1 & Ho2).
  assert (Htail : go_index (E:=Empty_set) a (AdvSize - 4) = Ok 100).
  { destruct Hl as [-> ? _ _ ? _]. apply tail_byte; [done|]. apply zlen_area. lia. }
  pose proof (zlen_nonneg v). pose proof (zlen_nonneg (enc es1)). pose proof (zlen_nonneg (enc es2)).
  destruct Hl as [_ Hh _ Hc Hr _]. split; intros Hbound.
  - set (n := 500 - zlen (enc (es1 ++ (t, v) :: es2))) in *.
    set (m := 100 - 8 - zlen (enc (es1 ++ (t, v) :: es2))).
    assert (Hrep : replicate (Z.to_nat n) 0 = replicate (Z.to_nat m) 0 ++ replicate (Z.to_nat (n - m)) 0)
      by (rewrite <- replicate_add; f_equal; lia).
    assert (Ha' : a = (hdr ++ enc es1) ++ (t :: zlen v :: v) ++ (enc es2 ++ replicate (Z.to_nat m) 0)
        ++ replicate (Z.to_nat (n - m)) 0 ++ le32 AdvMagic3 ++ copy)
      by (rewrite Ha at 1; rewrite Hrep; by rewrite <- !app_assoc).
    assert (Hzm : zlen (replicate (Z.to_nat m) 0) = m) by (apply zlen_replicate; lia).
    rewrite Hdel. rewrite Ha' in Htail |- *.
    rewrite delete_at_shift; [|zlen_solve|zlen_solve|zlen_solve|lia|].
    2:{ rewrite Htail. f_equal. zlen_solve. }
    cbn [mbind outcome_bind].
    assert (Hs' : sealed (seal (area (es1 ++ es2))) (es1 ++ es2)).
    { split; [done|]. split; [rewrite enc_app; zlen_solve|by apply Forall_app]. }
    eexists. split; [|exact Hs'].
    rewrite <- app_assoc, (app_assoc (zdrop _ _)), (app_assoc (enc es2 ++ _)), (app_assoc (enc es1)).
    rewrite shifted_area by zlen_solve.
    rewrite cleanup_seal; [done|done| |done|done]. apply zlen_area. rewrite enc_app. zlen_solve.
  - assert (Hp : DeleteTag a t = Panic SliceBounds).
    { rewrite Hdel. unfold delete_at. rewrite Htail. cbn [mbind outcome_bind].
      rewrite enc_app in Hbound. cbn [enc] in Hbound.
      rewrite (go_slice_panic (E:=Empty_set) a (8 + zlen (enc es1) + 2 + zlen v) 100); [done|].
      zlen_solve. }
    split; [done|]. unfold SetTagBytes.
    by rewrite Z.gtb_ltb, (proj2 (Z.ltb_ge _ _)), Hp by lia.
Qed.

Lemma legacy_delete_witness :
  (∃ a', DeleteTag (seal (area [(6, [1]); (10, [2; 3])])) 6 = Ok (true, a') ∧ sealed a' [(10, [2; 3])]) ∧
  DeleteTag (seal (area [(7, replicate 120 1)])) 7 = Panic SliceBounds.
Proof.
  assert (H1 : sealed (seal (area [(6, [1]); (10, [2; 3])])) ([] ++ (6, [1]) :: [(10, [2; 3])])).
  { split; [done|]. split; [by vm_compute|]. repeat constructor; simpl; lia. }
  assert (H2 : sealed (seal (area [(7, replicate 120 1)])) ([] ++ (7, replicate 120 1) :: [])).
  { split; [done|]. split; [by vm_compute|]. repeat constructor; simpl; lia. }
  split.
  - apply (proj1 (legacy_delete _ [] 6 [1] [(10, [2; 3])] [] H1 eq_refl ltac:(by vm_compute))).
    by vm_compute.
  - apply (proj2 (legacy_delete _ [] 7 (replicate 120 1) [] [] H2 eq_refl ltac:(by vm_compute))).
    by vm_compute.
Defined.

(** Between those bounds the shift exposes stale bytes: deleting the first of two
    entries and setting a new one brings parts of deleted values back as entries. *)
Theorem legacy_delete_resurrects :
  ('(_, a1) ← DeleteTag (seal (area [(1, replicate 40 7); (2, replicate 45 9)])) 1;
   '(ok, a2) ← SetTagBytes a1 3 [5];
   tags ← ListTags a2;
   v ← ReadTagBytes a2 9;
   Ok (ok, tags, v)) = Ok (true, [2; 3; 9; 9; 9; 9], Some (replicate 9 9)).
Proof. by vm_compute. Qed.

End Syslinux.
