(* ===== verification/Meta.v ===== *)
(** * META: the key-value partition

    [internal/pkg/meta/meta.go]: the in-memory META over its two ADV layers, the
    [MetaKey] resources that mirror it, and loading and saving it.  The methods that
    only use the [adv.ADV] interface are stated for any implementation of it.  The
    COSI resource state and the file system are interfaces here; the mutex of [Meta]
    makes each method one atomic step. *)

From S2P Require Import Prelude Bytes MetaAdv SyslinuxAdv.

(** ** The resource state

    [state.State] for the [MetaKey] resources (id to value) and the META volume's
    status. *)

Inductive VolumePhase :=
  | VolumePhaseWaiting | VolumePhaseFailed | VolumePhaseMissing | VolumePhaseLocated
  | VolumePhaseProvisioned | VolumePhasePrepared | VolumePhaseReady | VolumePhaseClosed.

#[export] Instance VolumePhase_eq_dec : EqDecision VolumePhase.
Proof. solve_decision. Defined.

Record VolumeStatus := {
  Phase : VolumePhase;
  MountLocation : string;
  ParentLocation : string
}.

Inductive store_error := NotFound | StoreError (code : Z).

Class MetaStore (S : Type) := {
  (** [safe.StateUpdateWithConflicts] setting the value *)
  st_update : S → string → list Z → S * option store_error;
  st_create : S → string → list Z → S * option store_error;
  st_destroy : S → string → S * option store_error;
  st_list : S → store_error + list string;
  st_add_finalizer : S → string → S * option store_error;
  (** a watch on a volume status: the snapshots it delivers, and the error it ends with *)
  st_watch_volume : S → string → list VolumeStatus * store_error
}.

(** The documented behaviour of a COSI state: a map from resource ids, updated on
    success and unchanged on an error. *)
Class MetaStoreLaws (S : Type) `{MetaStore S} := {
  store_map : S → gmap string (list Z);
  update_spec s id v :
    match st_update s id v with
    | (s', None) => is_Some (store_map s !! id) ∧ store_map s' = <[id := v]> (store_map s)
    | (s', Some NotFound) => store_map s !! id = None ∧ store_map s' = store_map s
    | (s', Some (StoreError _)) => store_map s' = store_map s
    end;
  create_spec s id v :
    match st_create s id v with
    | (s', None) => store_map s !! id = None ∧ store_map s' = <[id := v]> (store_map s)
    | (s', Some _) => store_map s' = store_map s
    end;
  destroy_spec s id :
    match st_destroy s id with
    | (s', None) => is_Some (store_map s !! id) ∧ store_map s' = delete id (store_map s)
    | (s', Some NotFound) => store_map s !! id = None ∧ store_map s' = store_map s
    | (s', Some (StoreError _)) => store_map s' = store_map s
    end;
  store_list_spec s ids : st_list s = inr ids → ∀ id, id ∈ ids ↔ is_Some (store_map s !! id);
  finalizer_spec s id s' err : st_add_finalizer s id = (s', err) → store_map s' = store_map s
}.

(** ** The file system *)

Class FileSystem (W : Type) (IOErr : Type) := {
  fs_open : W → string → option IOErr;
  fs_lock : W → string → option IOErr;
  fs_content : W → string → list Z;
  fs_write_at : W → string → Z → list Z → W * (Z * option IOErr);
  fs_sync : W → string → W * option IOErr
}.

(** [pwrite] on a file: what was there with the bytes in place, extended when the
    write reaches behind its end. *)
Definition pwrite (content : list Z) (off : Z) (data : list Z) : list Z :=
  ztake off content ++ replicate (Z.to_nat (off - zlen content)) 0 ++ data
  ++ zdrop (off + zlen data) content.

Class FileSystemLaws (W IOErr : Type) `{FileSystem W IOErr} := {
  write_at_spec w p off data w' n : fs_write_at w p off data = (w', (n, None)) →
    n = zlen data ∧ fs_content w' p = pwrite (fs_content w p) off data;
  sync_spec w p w' err : fs_sync w p = (w', err) → fs_content w' p = fs_content w p
}.

(** ** Meta *)

Definition hex_digits : list Ascii.ascii := String.list_ascii_of_string "0123456789abcdef".

Definition hex (d : Z) : Ascii.ascii := default Ascii.zero (hex_digits !! Z.to_nat d).

(** [fmt.Sprintf("0x%02x", t)] for a [uint8]. *)
Definition MetaKeyTagToID (t : Z) : string :=
  ("0x" +:+ String (hex (t / 16)) (String (hex (t mod 16)) ""))%string.

Lemma hex_inj d d' : 0 ≤ d < 16 → 0 ≤ d' < 16 → hex d = hex d' → d = d'.
Proof.
  intros Hd Hd' Heq. assert (NoDup hex_digits) as Hnd by by apply (bool_decide_unpack _).
  assert (length hex_digits = 16%nat) as Hlen by done. unfold hex in Heq.
  destruct (lookup_lt_is_Some_2 hex_digits (Z.to_nat d)) as [x Hx]; [lia|].
  destruct (lookup_lt_is_Some_2 hex_digits (Z.to_nat d')) as [x' Hx']; [lia|].
  rewrite Hx, Hx' in Heq. simpl in Heq. subst x'.
  pose proof (NoDup_lookup _ _ _ _ Hnd Hx Hx'). lia.
Qed.

Lemma MetaKeyTagToID_inj t t' :
  0 ≤ t < 256 → 0 ≤ t' < 256 → MetaKeyTagToID t = MetaKeyTagToID t' → t = t'.
Proof.
  intros Ht Ht' [= Hhi Hlo].
  apply hex_inj in Hhi; [|split; [apply Z.div_pos|apply Z.div_lt_upper_bound]; lia..].
  apply hex_inj in Hlo; [|apply Z.mod_pos_bound; lia..].
  rewrite (Z.div_mod t 16), (Z.div_mod t' 16) by lia. lia.
Qed.

Definition MetaPartitionLabel : string := "META".

Section meta.
Context {A L S W IOErr : Type}.
Context `{ADV A, ADV L, MetaStore S, FileSystem W IOErr}.

(** The receiver, with the resource state it points to and the disk. *)
Record Meta := {
  legacy : L;
  advState : A;
  resourceState : option S;
  fixedPath : string;
  disk : W
}.

Definition with_adv (a : A) (m : Meta) : Meta :=
  {| legacy := m.(legacy); advState := a; resourceState := m.(resourceState);
     fixedPath := m.(fixedPath); disk := m.(disk) |}.
Definition with_legacy (l : L) (m : Meta) : Meta :=
  {| legacy := l; advState := m.(advState); resourceState := m.(resourceState);
     fixedPath := m.(fixedPath); disk := m.(disk) |}.
Definition with_store (s : S) (m : Meta) : Meta :=
  {| legacy := m.(legacy); advState := m.(advState); resourceState := Some s;
     fixedPath := m.(fixedPath); disk := m.(disk) |}.
Definition with_disk (w : W) (m : Meta) : Meta :=
  {| legacy := m.(legacy); advState := m.(advState); resourceState := m.(resourceState);
     fixedPath := m.(fixedPath); disk := w |}.

Inductive meta_error :=
  | ErrNotExist
  | ErrStore (e : store_error)
  | ErrIO (e : IOErr)
  | ErrLoadChubo (e : Chubo.adv_error)
  | ErrLoadSyslinux (e : Syslinux.new_error)
  | ErrSerialize (e : Chubo.adv_error)
  | ErrSeek
  | ErrShortWrite (want got : Z).

Abbreviation M := (prog Meta meta_error).

(** Run an operation of the resource state; a nil state is dereferenced. *)
Definition store_op (f : S → S * option store_error) : M (option store_error) := λ m,
  match m.(resourceState) with
  | None => Panic NilDereference
  | Some s => let '(s', err) := f s in Ok (with_store s' m, inr err)
  end.

(** *** Reading *)

Definition ReadTagBytes (t : Z) : M (option (list Z)) :=
  m ← get;
  val ← lift (MetaAdv.ReadTagBytes m.(advState) t);
  match val with
  | Some _ => mret val
  | None => lift (MetaAdv.ReadTagBytes m.(legacy) t)
  end.

(** A Go string and its bytes: [ReadTag] is [ReadTagBytes] with the missing value
    read as the empty string. *)
Definition ReadTag (t : Z) : M (list Z * bool) :=
  val ← ReadTagBytes t;
  mret (default [] val, bool_decide (is_Some val)).

(** *** The mirror in the resource state *)

Definition updateTagResource (t : Z) (val : list Z) : M () :=
  m ← get;
  match m.(resourceState) with
  | None => mret ()
  | Some _ =>
      err ← store_op (λ s, st_update s (MetaKeyTagToID t) val);
      match err with
      | None => mret ()
      | Some NotFound =>
          err ← store_op (λ s, st_create s (MetaKeyTagToID t) val);
          check (ErrStore <$> err)
      | Some e => throw (ErrStore e)
      end
  end.

Definition syncState : M () :=
  m ← get;
  match m.(resourceState) with
  | None => mret ()
  | Some _ =>
      tags ← lift (ListTags m.(advState));
      let existingTags := MetaKeyTagToID <$> tags in
      _ ← for_each (λ t,
            val ← lift (MetaAdv.ReadTagBytes m.(advState) t);
            updateTagResource t (default [] val)) tags;
      m ← get;
      match st_list <$> m.(resourceState) with
      | None => mret ()
      | Some (inl e) => throw (ErrStore e)
      | Some (inr items) =>
          for_each (λ id,
            if bool_decide (id ∈ existingTags) then mret ()
            else err ← store_op (λ s, st_destroy s id); check (ErrStore <$> err)) items
      end
  end.

(** *** Writing *)

Definition SetTagBytes (t : Z) (val : list Z) : M bool :=
  m ← get;
  '(ok, a) ← lift (MetaAdv.SetTagBytes m.(advState) t val);
  _ ← modify (with_adv a);
  if (ok : bool) then _ ← updateTagResource t val; mret ok else mret ok.

Definition SetTag (t : Z) (val : list Z) : M bool := SetTagBytes t val.

Definition DeleteTag (t : Z) : M bool :=
  m ← get;
  '(ok, a) ← lift (MetaAdv.DeleteTag m.(advState) t);
  _ ← modify (with_adv a);
  ok ← (if (ok : bool) then mret ok
        else '(ok, l) ← lift (MetaAdv.DeleteTag m.(legacy) t);
             _ ← modify (with_legacy l); mret ok);
  match m.(resourceState) with
  | None => mret ok
  | Some _ =>
      err ← store_op (λ s, st_destroy s (MetaKeyTagToID t));
      match err with
      | None | Some NotFound => mret ok
      | Some e => throw (ErrStore e)
      end
  end.

(** *** Locating the partition *)

(** [block.WaitForVolumePhase]: the first snapshot in one of the phases. *)
Definition WaitForVolumePhase (s : S) (volumeID : string) (expectedPhases : list VolumePhase)
    : store_error + VolumeStatus :=
  let '(snapshots, err) := st_watch_volume s volumeID in
  match list_find (λ vs, vs.(Phase) ∈ expectedPhases) snapshots with
  | Some (_, vs) => inr vs
  | None => inl err
  end.

Definition getPath : M (string * string) :=
  m ← get;
  if negb (bool_decide (m.(fixedPath) = ""%string)) then mret (m.(fixedPath), ""%string)
  else
    match m.(resourceState) with
    | None => throw ErrNotExist
    | Some s =>
        match WaitForVolumePhase s MetaPartitionLabel
                [VolumePhaseReady; VolumePhaseMissing; VolumePhaseClosed] with
        | inl e => throw (ErrStore e)
        | inr metaStatus =>
            err ← store_op (λ s, st_add_finalizer s MetaPartitionLabel);
            _ ← check (ErrStore <$> err);
            if bool_decide (metaStatus.(Phase) = VolumePhaseMissing) then throw ErrNotExist
            else if bool_decide (metaStatus.(Phase) = VolumePhaseClosed
                                 ∧ metaStatus.(MountLocation) = ""%string)
            then throw ErrNotExist
            else mret (metaStatus.(MountLocation), metaStatus.(ParentLocation))
        end
    end.

(** Opening the parent device, locking it, opening the partition and [flock]ing it:
    the first error of the four. *)
Definition open_locked (path parentPath : string) : M () :=
  m ← get;
  _ ← (if bool_decide (parentPath = ""%string) then mret ()
       else _ ← check (ErrIO <$> fs_open m.(disk) parentPath);
            check (ErrIO <$> fs_lock m.(disk) parentPath));
  _ ← check (ErrIO <$> fs_open m.(disk) path);
  check (ErrIO <$> fs_lock m.(disk) path).

Definition write_at (path : string) (off : Z) (data : list Z) : M () :=
  m ← get;
  let '(w, (n, err)) := fs_write_at m.(disk) path off data in
  _ ← modify (with_disk w);
  _ ← check (ErrIO <$> err);
  if n =? zlen data then mret () else throw (ErrShortWrite (zlen data) n).

(** The loop of [Reload] that copies the in-memory values over the loaded ones; the
    result of [SetTagBytes] is dropped. *)
Fixpoint copy_tags (from : A) (tags : list Z) (to : A) : outcome Empty_set A :=
  match tags with
  | [] => Ok to
  | t :: tags =>
      val ← MetaAdv.ReadTagBytes from t;
      '(_, to) ← MetaAdv.SetTagBytes to t (default [] val);
      copy_tags from tags to
  end.
End meta.

Arguments Meta : clear implicits.
Arguments meta_error : clear implicits.

(** ** The partition's two formats

    [New], [Reload] and [Flush] work on the concrete formats: the extended ADV at the
    start of the device and the syslinux block at its end.  [order] is the order Go
    ranges over the tag map in. *)
Section partition.
Context {S W IOErr : Type} `{MetaStore S, FileSystem W IOErr}.
Context (sha256 : list Z → list Z) (order : Chubo.Tags → list (Z * list Z)).

Abbreviation M := (prog (Meta Chubo.Tags (list Z) S W) (meta_error IOErr)).

Definition load_chubo (content : list Z) : M Chubo.Tags := λ m,
  match Chubo.NewADV sha256 (Some content) with
  | Ok (Some adv, _) => Ok (m, inr adv)
  | Ok (None, Some e) => Ok (m, inl (ErrLoadChubo e))
  | Ok (None, None) => Panic NilDereference
  | Err e => match e with end
  | Panic r => Panic r
  end.

Definition load_syslinux (content : list Z) : M (list Z) := λ m,
  match Syslinux.NewADV (Some content) with
  | Ok a => Ok (m, inr a)
  | Err e => Ok (m, inl (ErrLoadSyslinux e))
  | Panic r => Panic r
  end.

Definition Reload : M () :=
  '(path, parentPath) ← getPath;
  _ ← open_locked path parentPath;
  m ← get;
  let f := fs_content m.(disk) path in
  adv ← load_chubo f;
  legacyAdv ← load_syslinux f;
  tags ← lift (ListTags m.(advState));
  adv ← lift (copy_tags m.(advState) tags adv);
  _ ← modify (with_adv adv);
  _ ← modify (with_legacy legacyAdv);
  syncState.

Definition New (st : option S) (path : string) (w : W)
    : outcome Empty_set (Meta Chubo.Tags (list Z) S W * (meta_error IOErr + ())) :=
  match Syslinux.NewADV None, Chubo.NewADV sha256 None with
  | Ok l, Ok (Some a, _) =>
      Reload {| legacy := l; advState := a; resourceState := st; fixedPath := path; disk := w |}
  | _, _ => Panic NilDereference
  end.

Definition serialize (tags : Chubo.Tags) : M (list Z) := λ m,
  match Chubo.Bytes sha256 (order tags) with
  | Ok b => Ok (m, inr b)
  | Err e => Ok (m, inl (ErrSerialize e))
  | Panic r => Panic r
  end.

Definition Flush : M () :=
  '(path, parentPath) ← getPath;
  _ ← open_locked path parentPath;
  m ← get;
  serialized ← serialize m.(advState);
  _ ← write_at path 0 serialized;
  serialized ← lift (Syslinux.Bytes m.(legacy));
  m ← get;
  let offset := zlen (fs_content m.(disk) path) - zlen serialized in
  if offset <? 0 then throw ErrSeek
  else
    _ ← write_at path offset serialized;
    m ← get;
    let '(w, err) := fs_sync m.(disk) path in
    _ ← modify (with_disk w);
    check (ErrIO <$> err).
End partition.

(** ** The mirror invariant *)

Section mirror.
Context {A L S W IOErr : Type} `{ADVLaws A, ADV L, MetaStoreLaws S, FileSystem W IOErr}.
Implicit Types m : Meta A L S W.

(** The resources are exactly the tags of the in-memory ADV. *)
Definition mirrored (tags : gmap Z (list Z)) (store : gmap string (list Z)) : Prop :=
  ∀ id v, store !! id = Some v ↔ ∃ t, 0 ≤ t < 256 ∧ id = MetaKeyTagToID t ∧ tags !! t = Some v.

Definition tags_u8 (tags : gmap Z (list Z)) : Prop := ∀ t, is_Some (tags !! t) → 0 ≤ t < 256.

Lemma store_op_Ok m s (f : S → S * option store_error) :
  m.(resourceState) = Some s →
  store_op f m = Ok (with_store (f s).1 m, inr (f s).2 : meta_error IOErr + _).
Proof. unfold store_op. intros ->. by destruct (f s). Qed.

(** [updateTagResource] on a non-nil state: on success exactly the tag's resource
    is set. *)
Lemma updateTagResource_spec m s t v :
  m.(resourceState) = Some s →
  ∃ s' (r : meta_error IOErr + ()), updateTagResource t v m = Ok (with_store s' m, r) ∧
    match r with
    | inr () => store_map s' = <[MetaKeyTagToID t := v]> (store_map s)
    | inl _ => store_map s' = store_map s
    end.
Proof.
  intros Hs. unfold updateTagResource. erewrite prog_bind_Ok by done. rewrite Hs.
  erewrite prog_bind_Ok by by apply store_op_Ok. cbv beta.
  pose proof (update_spec s (MetaKeyTagToID t) v) as Hu.
  destruct (st_update _ _ _) as [s1 [[|c]|]]; cbn [fst snd]; [|eauto..|].
  - destruct Hu as [_ Hu]. erewrite prog_bind_Ok by by apply store_op_Ok. cbv beta.
    pose proof (create_spec s1 (MetaKeyTagToID t) v) as Hc.
    destruct (st_create _ _ _) as [s2 [e|]]; cbn [fst snd]; exists s2; rewrite <- Hu; [by eexists|].
    exists (inr ()). split; [done|apply Hc].
  - exists s1, (inr ()). split; [done|apply Hu].
Qed.
Definition tag_value (a : A) (t : Z) : list Z := default [] (tag_map a !! t).

(** The first loop of [syncState] sets the listed tags and nothing else. *)
Lemma sync_set_loop m s tags m' (e : ()) :
  m.(resourceState) = Some s → (∀ t, t ∈ tags → 0 ≤ t < 256) →
  for_each (λ t, val ← lift (MetaAdv.ReadTagBytes m.(advState) t);
                 updateTagResource t (default [] val)) tags m
    = Ok (m', inr e : meta_error IOErr + ()) →
  ∃ s', m' = with_store s' m ∧
    (∀ t, t ∈ tags → store_map s' !! MetaKeyTagToID t = Some (tag_value m.(advState) t)) ∧
    (∀ id, id ∉ MetaKeyTagToID <$> tags → store_map s' !! id = store_map s !! id).
Proof.
  intros Hs Hu8 Hl. destruct e.
  eapply (for_each_invariant _ (λ done mi, ∃ s', mi = with_store s' m ∧
    (∀ t, t ∈ done → t ∈ tags) ∧
    (∀ t, t ∈ done → store_map s' !! MetaKeyTagToID t = Some (tag_value m.(advState) t)) ∧
    (∀ id, id ∉ MetaKeyTagToID <$> done → store_map s' !! id = store_map s !! id))) in Hl.
  - destruct Hl as (s' & -> & _ & ? & ?). eauto.
  - clear Hl. intros done t mi mi' Ht (s' & -> & Hin & Hset & Hother) Hstep.
    rewrite (prog_bind_Ok _ _ _ (with_store s' m) (tag_map m.(advState) !! t)) in Hstep
      by (unfold lift; by rewrite read_spec).
    destruct (updateTagResource_spec (with_store s' m) s' t (default [] (tag_map m.(advState) !! t)))
      as (s'' & r & Hu & Hr); [done|].
    rewrite Hu in Hstep. simplify_eq. exists s''. split; [done|].
    rewrite Hr. split_and!.
    + intros t' [?| ->%list_elem_of_singleton]%elem_of_app; auto.
    + intros t' [Ht'| ->%list_elem_of_singleton]%elem_of_app; [|by rewrite lookup_insert_eq].
      destruct (decide (t' = t)) as [->|Hne]; [by rewrite lookup_insert_eq|].
      rewrite lookup_insert_ne; [auto|].
      intros ?%MetaKeyTagToID_inj; auto.
    + intros id. rewrite fmap_app. intros Hid.
      rewrite lookup_insert_ne by set_solver. apply Hother. set_solver.
  - exists s. split_and!; [by destruct m; simplify_eq/=|set_solver|set_solver|done].
Qed.

(** The second loop removes the listed resources that are not kept. *)
Lemma sync_destroy_loop m s (keep items : list string) m' (e : ()) :
  m.(resourceState) = Some s →
  for_each (λ id, if bool_decide (id ∈ keep) then mret ()
                  else err ← store_op (λ s, st_destroy s id); check (ErrStore <$> err)) items m
    = Ok (m', inr e : meta_error IOErr + ()) →
  ∃ s', m' = with_store s' m ∧
    ∀ id, store_map s' !! id =
      if bool_decide (id ∈ items ∧ id ∉ keep) then None else store_map s !! id.
Proof.
  intros Hs Hl. destruct e.
  eapply (for_each_invariant _ (λ done mi, ∃ s', mi = with_store s' m ∧
    ∀ id, store_map s' !! id =
      if bool_decide (id ∈ done ∧ id ∉ keep) then None else store_map s !! id)) in Hl.
  - done.
  - clear Hl. intros done x mi mi' _ (s' & -> & Hd) Hstep. case_bool_decide as Hk.
    + injection Hstep as <-. exists s'. split; [done|]. intros id. rewrite Hd.
      apply option_eq. intros v. repeat case_bool_decide; set_solver.
    + erewrite prog_bind_Ok in Hstep by by apply store_op_Ok. cbv beta in Hstep.
      pose proof (destroy_spec s' x) as Hx.
      destruct (st_destroy s' x) as [s'' [err|]]; [done|]. injection Hstep as <-.
      exists s''. split; [done|]. destruct Hx as [_ ->]. intros id.
      destruct (decide (id = x)) as [->|Hne].
      * rewrite lookup_delete_eq, bool_decide_true by set_solver. done.
      * rewrite lookup_delete_ne, Hd by done.
        apply option_eq. intros v. repeat case_bool_decide; set_solver.
  - exists s. split; [by destruct m; simplify_eq/=|]. intros id.
    by rewrite bool_decide_false by set_solver.
Qed.

Lemma syncState_mirror m s m' :
  m.(resourceState) = Some s → tags_u8 (tag_map m.(advState)) →
  syncState m = Ok (m', inr () : meta_error IOErr + ()) →
  ∃ s', m' = with_store s' m ∧ mirrored (tag_map m.(advState)) (store_map s').
Proof.
  intros Hs Hu8 Hsync. unfold syncState in Hsync.
  erewrite prog_bind_Ok in Hsync by done. rewrite Hs in Hsync.
  destruct (list_spec m.(advState)) as (tags & Htags & Hperm).
  rewrite (prog_bind_Ok _ _ _ m tags) in Hsync by (unfold lift; by rewrite Htags).
  assert (Hin : ∀ t, t ∈ tags ↔ is_Some (tag_map m.(advState) !! t)).
  { intros t. rewrite Hperm, list_elem_of_fmap. split.
    - intros ([t' v] & -> & Hv%elem_of_map_to_list). by eexists.
    - intros [v Hv]. exists (t, v). by rewrite elem_of_map_to_list. }
  apply prog_bind_inv in Hsync as (m1 & [] & Hset & Hsync).
  destruct (sync_set_loop m s tags m1 () Hs) as (s1 & -> & Hval & Hother);
    [intros t ?%Hin; auto|done|]. clear Hset.
  erewrite prog_bind_Ok in Hsync by done. simpl in Hsync.
  destruct (st_list s1) as [|items] eqn:Hitems; simpl in Hsync; [done|].
  apply (sync_destroy_loop _ s1) in Hsync as (s2 & -> & Hd); [|done].
  pose proof (store_list_spec s1 items Hitems) as Hlist.
  exists s2. split; [done|]. intros id v. rewrite Hd. split.
  - case_bool_decide as Hc; [done|]. intros Hv.
    destruct (decide (id ∈ MetaKeyTagToID <$> tags)) as [Hid|Hid].
    + apply list_elem_of_fmap in Hid as (t & -> & Ht). rewrite Hval in Hv by done.
      apply Hin in Ht as Hsome. destruct Hsome as [w Hw]. exists t. split; [by apply Hu8|].
      unfold tag_value in Hv. rewrite Hw in *. by simplify_eq/=.
    + destruct Hc. split; [|done]. apply Hlist. by eexists.
  - intros (t & Ht & -> & Hv).
    assert (t ∈ tags) by (apply Hin; by eexists).
    rewrite bool_decide_false by (intros [_ []]; by apply list_elem_of_fmap_2).
    rewrite Hval by done. unfold tag_value. by rewrite Hv.
Qed.
(** [syncState] returns, and changes nothing but the resources. *)
Lemma syncState_total m :
  ∃ m' (r : meta_error IOErr + ()), syncState m = Ok (m', r) ∧
    m'.(advState) = m.(advState) ∧ m'.(legacy) = m.(legacy) ∧
    (m.(resourceState) = None → r = inr ()) ∧ m'.(disk) = m.(disk) ∧ m'.(fixedPath) = m.(fixedPath).
Proof.
  unfold syncState. erewrite prog_bind_Ok by done.
  destruct (m.(resourceState)) as [s|] eqn:Hs; [|by eexists _, _].
  destruct (list_spec m.(advState)) as (tags & Htags & _).
  rewrite (prog_bind_Ok _ _ _ m tags) by (unfold lift; by rewrite Htags).
  set (P mi := ∃ s', mi = with_store s' m).
  assert (HP : P m) by (exists s; destruct m; by simplify_eq/=).
  match goal with |- context [for_each ?f tags] =>
    destruct (for_each_total f P tags m) as (m1 & r & Hl & [s1 ->]);
      [|done|unfold mbind at 1, prog_bind at 1; rewrite Hl] end.
  { intros t mi [s' ->].
    erewrite prog_bind_Ok by (unfold lift; by rewrite read_spec).
    destruct (updateTagResource_spec (with_store s' m) s' t (default [] (tag_map m.(advState) !! t)))
      as (s'' & r & Hu & _); [done|]. do 2 eexists. split; [done|]. by exists s''. }
  destruct r as [e|[]]; [by do 2 eexists|]. erewrite prog_bind_Ok by done. simpl.
  destruct (st_list s1) as [e|items]; simpl; [by do 2 eexists|].
  match goal with |- context [for_each ?f items] =>
    destruct (for_each_total f P items (with_store s1 m)) as (m2 & r & Hd & [s2 ->]);
      [|by exists s1|rewrite Hd; by do 2 eexists] end.
  intros i mi [s' ->]. case_bool_decide; [do 2 eexists; split; [done|by exists s']|].
  erewrite prog_bind_Ok by by apply store_op_Ok. cbv beta.
  destruct (st_destroy s' i) as [s'' [err|]]; do 2 eexists; (split; [done|by exists s'']).
Qed.

Lemma mirrored_insert tags store t v :
  tags_u8 tags → 0 ≤ t < 256 → mirrored tags store →
  mirrored (<[t := v]> tags) (<[MetaKeyTagToID t := v]> store).
Proof.
  intros Hu8 Ht Hm id w. destruct (decide (id = MetaKeyTagToID t)) as [->|Hne].
  - rewrite lookup_insert_eq. split.
    + intros [= <-]. exists t. by rewrite lookup_insert_eq.
    + intros (t' & Ht' & Heq & Hw). apply MetaKeyTagToID_inj in Heq; [|done..].
      subst t'. by rewrite lookup_insert_eq in Hw.
  - rewrite lookup_insert_ne, (Hm id w) by done. split.
    + intros (t' & Ht' & -> & Hw). exists t'. by rewrite lookup_insert_ne by (by intros ->).
    + intros (t' & Ht' & -> & Hw). exists t'. by rewrite lookup_insert_ne in Hw by (by intros ->).
Qed.

Lemma mirrored_delete tags store t :
  0 ≤ t < 256 → mirrored tags store →
  mirrored (delete t tags) (delete (MetaKeyTagToID t) store).
Proof.
  intros Ht Hm id w. rewrite lookup_delete_Some, (Hm id w). split.
  - intros (Hne & t' & Ht' & -> & Hw). exists t'. by rewrite lookup_delete_ne by (by intros ->).
  - intros (t' & Ht' & -> & [Hne Hw]%lookup_delete_Some).
    split; [|eauto]. intros ?%MetaKeyTagToID_inj; auto.
Qed.

Lemma mirrored_absent tags store t :
  0 ≤ t < 256 → mirrored tags store → store !! MetaKeyTagToID t = None → tags !! t = None.
Proof.
  intros Ht Hm Hnone. apply eq_None_not_Some. intros [v Hv].
  assert (store !! MetaKeyTagToID t = Some v) by (apply Hm; eauto). congruence.
Qed.

Definition store_of m : gmap string (list Z) := from_option store_map ∅ m.(resourceState).

(** One client call of the mutating API, and what the caller sees. *)
Inductive call := CallSet (t : Z) (v : list Z) | CallDelete (t : Z).

Definition call_tag (c : call) : Z := match c with CallSet t _ | CallDelete t => t end.

Definition run_call (c : call) : prog (Meta A L S W) (meta_error IOErr) bool :=
  match c with CallSet t v => SetTagBytes t v | CallDelete t => DeleteTag t end.

Lemma SetTagBytes_run m s t v :
  m.(resourceState) = Some s →
  ∃ ok a, MetaAdv.SetTagBytes m.(advState) t v = Ok (ok, a) ∧
    if (ok : bool) then
      tag_map a = <[t := v]> (tag_map m.(advState)) ∧
      ∃ s' (r : meta_error IOErr + bool),
        SetTagBytes t v m = Ok (with_store s' (with_adv a m), r) ∧
        match r with
        | inr b => b = true ∧ store_map s' = <[MetaKeyTagToID t := v]> (store_map s)
        | inl _ => store_map s' = store_map s
        end
    else SetTagBytes t v m = Ok (m, inr false : meta_error IOErr + bool).
Proof.
  intros Hs. destruct (set_spec m.(advState) t v) as (ok & a & Hset & Htrue & Hfalse).
  exists ok, a. split; [done|]. unfold SetTagBytes. erewrite prog_bind_Ok by done.
  rewrite (prog_bind_Ok _ _ _ m (ok, a)) by (unfold lift; by rewrite Hset).
  erewrite prog_bind_Ok by done. destruct ok.
  - split; [by apply Htrue|].
    destruct (updateTagResource_spec (with_adv a m) s t v) as (s' & r & Hu & Hr); [done|].
    unfold mbind, prog_bind. rewrite Hu. exists s'.
    destruct r as [e|[]]; [exists (inl e)|exists (inr true)]; done.
  - rewrite Hfalse by done. by destruct m.
Qed.
Lemma run_call_mirror m s c m' r :
  m.(resourceState) = Some s → tags_u8 (tag_map m.(advState)) → 0 ≤ call_tag c < 256 →
  mirrored (tag_map m.(advState)) (store_map s) →
  run_call c m = Ok (m', inr r) →
  ∃ s', m'.(resourceState) = Some s' ∧ tags_u8 (tag_map m'.(advState)) ∧
    mirrored (tag_map m'.(advState)) (store_map s').
Proof.
  intros Hs Hu8 Ht Hm. destruct c as [t v|t]; simpl in *.
  - destruct (SetTagBytes_run m s t v Hs) as (ok & a & _ & Hrun). destruct ok.
    + destruct Hrun as (Ha & s' & [e|b] & -> & Hb); [done|]. intros [= <- <-].
      destruct Hb as [_ Hb]. exists s'. split; [done|]. simpl. rewrite Ha, Hb.
      split; [|by apply mirrored_insert].
      intros t' Ht'. destruct (decide (t' = t)) as [->|]; [done|].
      rewrite lookup_insert_ne in Ht' by done. auto.
    + rewrite Hrun. intros [= <- <-]. eauto.
  - unfold DeleteTag. erewrite prog_bind_Ok by done.
    destruct (delete_spec m.(advState) t) as (a & Hdel & Ha).
    erewrite prog_bind_Ok by (unfold lift; by rewrite Hdel). cbv beta iota.
    erewrite prog_bind_Ok by done.
    intros (m1 & ok & Hleg & Hrun)%prog_bind_inv.
    assert (m1.(resourceState) = Some s ∧ m1.(advState) = a) as [Hs1 Ha1].
    { destruct (bool_decide _); [by injection Hleg as <- _; destruct m; simplify_eq/=|].
      apply prog_bind_inv in Hleg as (m2 & [ok2 l] & Hl & (m3 & [] & Hm3 & Hret)%prog_bind_inv).
      apply lift_inv in Hl as [_ ->]. injection Hm3 as <-. injection Hret as <- _.
      by split; [exact Hs|]. }
    rewrite Hs in Hrun. erewrite prog_bind_Ok in Hrun by by apply store_op_Ok.
    cbv beta in Hrun. pose proof (destroy_spec s (MetaKeyTagToID t)) as Hd.
    assert (Hu8' : tags_u8 (delete t (tag_map m.(advState)))).
    { intros t' [w [_ Hw]%lookup_delete_Some]. eauto. }
    destruct (st_destroy _ _) as [s' [[|e]|]]; cbn [fst snd] in Hrun;
      [injection Hrun as <- _|done|injection Hrun as <- _].
    + exists s'. split; [done|]. simpl. rewrite Ha1, Ha. split; [done|].
      destruct Hd as [Hnone Heq]. rewrite Heq.
      pose proof (mirrored_delete _ _ t Ht Hm) as Hmd. by rewrite (delete_id (store_map s)) in Hmd.
    + exists s'. split; [done|]. simpl. rewrite Ha1, Ha. split; [done|].
      destruct Hd as [_ ->]. by apply mirrored_delete.
Qed.

Fixpoint run_calls (cs : list call) : prog (Meta A L S W) (meta_error IOErr) () :=
  match cs with [] => mret () | c :: cs => _ ← run_call c; run_calls cs end.

(** C25: [syncState] makes the [MetaKey] resources exactly the tags of the in-memory
    ADV (stale resources are destroyed), and every sequence of [SetTagBytes] and
    [DeleteTag] calls that report no error keeps them so: the id [0x%02x] of a tag
    exists with the tag's value exactly when the tag is set. *)
Theorem resources_mirror_tags m m1 m2 s cs :
  m.(resourceState) = Some s → tags_u8 (tag_map m.(advState)) →
  Forall (λ c, 0 ≤ call_tag c < 256) cs →
  syncState m = Ok (m1, inr () : meta_error IOErr + ()) →
  run_calls cs m1 = Ok (m2, inr ()) →
  mirrored (tag_map m1.(advState)) (store_of m1) ∧
  m1.(advState) = m.(advState) ∧ mirrored (tag_map m2.(advState)) (store_of m2).
Proof.
  intros Hs Hu8 Hcs Hsync Hrun.
  destruct (syncState_mirror m s m1 Hs Hu8 Hsync) as (s1 & -> & Hm1).
  split; [done|]. split; [done|].
  assert (Hs1 : (with_store s1 m).(resourceState) = Some s1) by done.
  change (tag_map m.(advState)) with (tag_map (with_store s1 m).(advState)) in Hu8, Hm1.
  clear Hs Hsync. generalize dependent (with_store s1 m). intros mi Hu8 Hrun Hm1 Hs1.
  revert mi s1 Hu8 Hrun Hm1 Hs1.
  induction Hcs as [|c cs Hc Hcs IH]; intros mi s1 Hu8 Hrun Hm1 Hs1; simpl in Hrun.
  - injection Hrun as <-. unfold store_of. by rewrite Hs1.
  - apply prog_bind_inv in Hrun as (m' & r & Hcall & Hrun).
    destruct (run_call_mirror _ _ _ _ _ Hs1 Hu8 Hc Hm1 Hcall) as (s' & ? & ? & ?). eauto.
Qed.
(** a [SetTagBytes] that reports an error of the resource state has already
    changed the in-memory ADV: the value reads back while the resource keeps its old
    value, until the next [syncState]. *)
Theorem set_error_keeps_value m s t v m' (e : meta_error IOErr) :
  m.(resourceState) = Some s → SetTagBytes t v m = Ok (m', inl e) →
  ReadTagBytes t m' = Ok (m', inr (Some v) : meta_error IOErr + _) ∧
  store_of m' = store_map s.
Proof.
  intros Hs Hset. destruct (SetTagBytes_run m s t v Hs) as (ok & a & _ & Hrun).
  destruct ok; [|by rewrite Hrun in Hset].
  destruct Hrun as (Ha & s' & r & Hrun & Hr). rewrite Hrun in Hset.
  injection Hset as <- ->. split; [|done].
  unfold ReadTagBytes. erewrite prog_bind_Ok by done. simpl.
  erewrite prog_bind_Ok by (unfold lift; by rewrite read_spec).
  by rewrite Ha, lookup_insert_eq.
Qed.

(** [DeleteTag] removes a tag from the first layer that has it only: a tag that
    is in both layers is reported deleted, and the next read returns the legacy
    value. *)
Theorem deleted_tag_resurfaces m t v w :
  m.(resourceState) = None →
  tag_map m.(advState) !! t = Some v → MetaAdv.ReadTagBytes m.(legacy) t = Ok (Some w) →
  ∃ m', DeleteTag t m = Ok (m', inr true : meta_error IOErr + _) ∧
    tag_map m'.(advState) = delete t (tag_map m.(advState)) ∧
    ReadTagBytes t m' = Ok (m', inr (Some w) : meta_error IOErr + _).
Proof.
  intros Hs Hv Hw. destruct (delete_spec m.(advState) t) as (a & Hdel & Ha).
  rewrite bool_decide_true in Hdel by by eexists.
  exists (with_adv a m). unfold DeleteTag, ReadTagBytes.
  erewrite prog_bind_Ok by done.
  rewrite (prog_bind_Ok _ _ _ m (true, a)) by (unfold lift; by rewrite Hdel).
  erewrite !prog_bind_Ok by done. rewrite Hs. split; [done|]. split; [done|].
  rewrite (prog_bind_Ok _ _ _ (with_adv a m) None)
    by (unfold lift; simpl; by rewrite read_spec, Ha, lookup_delete_eq).
  unfold lift. simpl. by rewrite Hw.
Qed.
End mirror.

(** ** Loading and saving *)

Section load_save.
Context {S W IOErr : Type} `{MetaStoreLaws S, FileSystemLaws W IOErr}.
Context (sha256 : list Z → list Z) (order : Chubo.Tags → list (Z * list Z)).
Context (sha256_size : ∀ b, zlen (sha256 b) = 32).
Context (order_perm : ∀ tags, order tags ≡ₚ map_to_list tags).
Implicit Types m : Meta Chubo.Tags (list Z) S W.

Lemma getPath_fixed m p :
  m.(fixedPath) = p → p ≠ ""%string →
  getPath m = Ok (m, inr (p, ""%string) : meta_error IOErr + _).
Proof.
  intros Hp Hne. unfold getPath. erewrite prog_bind_Ok by done. rewrite Hp.
  by rewrite bool_decide_false.
Qed.

(** A file that opens and locks. *)
Definition usable (w : W) (p : string) : Prop := fs_open w p = None ∧ fs_lock w p = None.

Lemma open_locked_Ok m p : usable m.(disk) p → open_locked p "" m = Ok (m, inr () : meta_error IOErr + _).
Proof.
  intros [Ho Hl]. unfold open_locked. erewrite prog_bind_Ok by done.
  rewrite bool_decide_true by done. erewrite prog_bind_Ok by done.
  rewrite Ho, Hl. by erewrite prog_bind_Ok by done.
Qed.

Lemma copy_tags_union (mem : Chubo.Tags) tags adv :
  Chubo.tags_size adv + Chubo.entries_size ((λ t, (t, default [] (mem !! t))) <$> tags) + 20
    ≤ Chubo.DataLength →
  copy_tags mem tags adv = Ok (list_to_map ((λ t, (t, default [] (mem !! t))) <$> reverse tags) ∪ adv).
Proof.
  revert adv. induction tags as [|t tags IH]; intros adv Hsz; cbn [copy_tags].
  { cbn. by rewrite (left_id_L ∅ (∪)). }
  cbn [fmap list_fmap Chubo.entries_size] in Hsz.
  set (v := default [] (mem !! t)) in *.
  pose proof (Chubo.entries_size_nonneg ((λ t, (t, default [] (mem !! t))) <$> tags)).
  simpl MetaAdv.ReadTagBytes. cbn [mbind outcome_bind]. unfold Chubo.ReadTagBytes. fold v.
  simpl MetaAdv.SetTagBytes. unfold Chubo.SetTagBytes.
  pose proof (Chubo.tags_size_insert adv t v) as Hins.
  pose proof (zlen_nonneg (default [] (adv !! t))).
  rewrite Z.gtb_ltb, (proj2 (Z.ltb_ge _ _)) by lia. cbn [mbind outcome_bind].
  rewrite IH by (case_bool_decide; lia).
  rewrite reverse_cons, fmap_app, list_to_map_app. f_equal. simpl.
  rewrite <- (assoc_L (∪)). by rewrite <- insert_union_l, (left_id_L ∅ (∪)).
Qed.
Lemma entries_of_tags (mem : Chubo.Tags) :
  (λ t, (t, default [] (mem !! t))) <$> Chubo.ListTags mem = map_to_list mem.
Proof.
  unfold Chubo.ListTags. rewrite <- list_fmap_compose.
  rewrite <- (list_fmap_id (map_to_list mem)) at 2. apply list_fmap_ext.
  intros i [t v] Hi. apply list_elem_of_lookup_2, elem_of_map_to_list in Hi. simpl. by rewrite Hi.
Qed.

Lemma copy_all_tags (mem adv : Chubo.Tags) :
  Chubo.tags_size adv + Chubo.tags_size mem + 20 ≤ Chubo.DataLength →
  copy_tags mem (Chubo.ListTags mem) adv = Ok (mem ∪ adv).
Proof.
  intros Hsz. rewrite copy_tags_union by by rewrite entries_of_tags.
  f_equal. f_equal. rewrite fmap_reverse, entries_of_tags.
  rewrite <- (list_to_map_to_list mem) at 2. apply list_to_map_proper.
  - rewrite fmap_reverse. rewrite reverse_Permutation. apply NoDup_fst_map_to_list.
  - apply reverse_Permutation.
Qed.

(** [Reload] puts the in-memory values over the loaded ones: on a file that
    opens and locks, with an ADV that loads (possibly with its second copy broken)
    and both tag sets fitting together, it returns with the union in memory, the
    in-memory value winning, and the last 1024 bytes as the legacy block; without a
    resource state it reports no error, and with one its success means the resources
    mirror the new tags. *)
Theorem reload_overlays_memory m p adv0 err :
  m.(fixedPath) = p → p ≠ ""%string → usable m.(disk) p →
  Chubo.NewADV sha256 (Some (fs_content m.(disk) p)) = Ok (Some adv0, err) →
  2 * Syslinux.AdvSize ≤ zlen (fs_content m.(disk) p) →
  Chubo.tags_size adv0 + Chubo.tags_size m.(advState) + 20 ≤ Chubo.DataLength →
  tags_u8 (m.(advState) ∪ adv0) →
  ∃ m' (r : meta_error IOErr + ()), Reload sha256 m = Ok (m', r) ∧
    m'.(advState) = m.(advState) ∪ adv0 ∧
    m'.(legacy) = zdrop (zlen (fs_content m.(disk) p) - 2 * Syslinux.AdvSize) (fs_content m.(disk) p) ∧
    (m.(resourceState) = None → r = inr ()) ∧
    (is_Some m.(resourceState) → r = inr () → mirrored m'.(advState) (store_of m')).
Proof.
  intros Hp Hne Hus Hadv Hlen Hfit Hu8. unfold Reload.
  rewrite (prog_bind_Ok _ _ _ m (p, ""%string)) by by apply getPath_fixed.
  rewrite (prog_bind_Ok _ _ _ m ()) by by apply open_locked_Ok.
  erewrite prog_bind_Ok by done. cbv zeta.
  rewrite (prog_bind_Ok _ _ _ m adv0) by (unfold load_chubo; by rewrite Hadv).
  set (c := fs_content _ p) in *. set (leg := zdrop _ c).
  rewrite (prog_bind_Ok _ _ _ m leg).
  2:{ unfold load_syslinux, Syslinux.NewADV. by rewrite (proj2 (Z.ltb_ge _ _)). }
  rewrite (prog_bind_Ok _ _ _ m (Chubo.ListTags m.(advState))) by done.
  rewrite (prog_bind_Ok _ _ _ m (m.(advState) ∪ adv0)) by (unfold lift; by rewrite copy_all_tags).
  erewrite !prog_bind_Ok by done. set (m1 := with_legacy _ _).
  destruct (syncState_total (IOErr:=IOErr) m1) as (m' & r & Hsync & Hadv' & Hleg & Hnone & _).
  exists m', r. rewrite Hsync, Hadv', Hleg. split_and!; [done..|].
  intros [s Hs] ->.
  pose proof (syncState_mirror (IOErr:=IOErr) m1 s m' Hs) as Hmir.
  by destruct (Hmir Hu8 Hsync) as (s' & -> & Hm).
Qed.

Lemma pwrite_start c d : zlen d ≤ zlen c → pwrite c 0 d = d ++ zdrop (zlen d) c.
Proof.
  intros. pose proof (zlen_nonneg c). unfold pwrite. rewrite ztake_0.
  replace (Z.to_nat (0 - zlen c)) with O by lia. done.
Qed.

Lemma pwrite_end c d : zlen d ≤ zlen c → pwrite c (zlen c - zlen d) d = ztake (zlen c - zlen d) c ++ d.
Proof.
  intros. pose proof (zlen_nonneg d). unfold pwrite.
  replace (Z.to_nat (zlen c - zlen d - zlen c)) with O by lia. simpl.
  rewrite (zlen_0_inv (zdrop (zlen c - zlen d + zlen d) c)) by (rewrite zlen_zdrop; lia).
  by rewrite app_nil_r.
Qed.

Lemma write_at_inv m m' p off d :
  write_at p off d m = Ok (m', inr () : meta_error IOErr + _) →
  ∃ w, m' = with_disk w m ∧ fs_content w p = pwrite (fs_content m.(disk) p) off d.
Proof.
  unfold write_at. erewrite prog_bind_Ok by done.
  destruct (fs_write_at _ p off d) as [w [n err]] eqn:Hw.
  erewrite prog_bind_Ok by done.
  destruct err as [e|]; [done|]. erewrite prog_bind_Ok by done.
  apply write_at_spec in Hw as [-> Hc]. rewrite Z.eqb_refl. intros [= <-]. eauto.
Qed.

Lemma check_inv m m' (e : option (meta_error IOErr)) : check e m = Ok (m', inr () : meta_error IOErr + _) → m' = m.
Proof. destruct e; [done|]. by intros [= ->]. Qed.
Lemma open_locked_inv m m' p parent :
  open_locked p parent m = Ok (m', inr () : meta_error IOErr + _) → m' = m.
Proof.
  unfold open_locked. erewrite prog_bind_Ok by done. intros (m1 & [] & Hd & (m2 & [] & Ha & Hb)%prog_bind_inv)%prog_bind_inv.
  apply check_inv in Ha, Hb. subst m2 m'. case_bool_decide; [by injection Hd|].
  apply prog_bind_inv in Hd as (m2 & [] & Ha & Hb). apply check_inv in Ha, Hb. congruence.
Qed.

(** What a successful [Flush] leaves on the device. *)
Lemma Flush_content m m0 m' p parent image :
  getPath m = Ok (m0, inr (p, parent) : meta_error IOErr + _) →
  m0.(advState) = m.(advState) → m0.(legacy) = m.(legacy) → m0.(disk) = m.(disk) →
  Chubo.Bytes sha256 (order m.(advState)) = Ok image →
  zlen image = Chubo.Size → zlen m.(legacy) = 2 * Syslinux.AdvSize →
  Chubo.Size + 2 * Syslinux.AdvSize ≤ zlen (fs_content m.(disk) p) →
  Flush sha256 order m = Ok (m', inr () : meta_error IOErr + _) →
  ∃ rest, fs_content m'.(disk) p = image ++ rest ++ m.(legacy) ∧
    zlen (fs_content m'.(disk) p) = zlen (fs_content m.(disk) p).
Proof.
  intros Hp Hadv0 Hleg0 Hdisk0 Himg Hlen Hleg Hroom. unfold Flush, Chubo.Size, Chubo.Length, Syslinux.AdvSize in *.
  rewrite (prog_bind_Ok _ _ _ m0 (p, parent)) by done. cbv beta zeta.
  intros (m1 & [] & ->%open_locked_inv & Hflush)%prog_bind_inv. revert Hflush.
  erewrite prog_bind_Ok by done.
  rewrite (prog_bind_Ok _ _ _ m0 image) by (unfold serialize; by rewrite Hadv0, Himg).
  intros (m1 & [] & (w1 & -> & Hc1)%write_at_inv & Hrest)%prog_bind_inv.
  rewrite (prog_bind_Ok _ _ _ (with_disk w1 m0) m.(legacy)) in Hrest by (unfold lift; cbn; by rewrite Hleg0).
  erewrite prog_bind_Ok in Hrest by done. cbv zeta in Hrest.
  change (disk (with_disk w1 m0)) with w1 in Hrest. rewrite Hdisk0 in Hc1.
  rewrite pwrite_start in Hc1 by lia.
  set (c := fs_content m.(disk) p) in *.
  assert (zlen (fs_content w1 p) = zlen c) as Hlen1
    by (rewrite Hc1, zlen_app, zlen_zdrop by lia; lia).
  destruct (Z.ltb_spec (zlen (fs_content w1 p) - zlen m.(legacy)) 0); [lia|].
  apply prog_bind_inv in Hrest as (m2 & [] & (w2 & -> & Hc2)%write_at_inv & Hrest).
  erewrite prog_bind_Ok in Hrest by done. cbn [disk with_disk] in *.
  destruct (fs_sync w2 p) as [w3 err] eqn:Hsync. erewrite prog_bind_Ok in Hrest by done.
  destruct err; [done|]. injection Hrest as <-. simpl.
  rewrite (sync_spec _ _ _ _ Hsync), Hc2, pwrite_end by lia. rewrite Hlen1, Hc1.
  exists (ztake (zlen c - zlen m.(legacy) - zlen image) (zdrop (zlen image) c)).
  split; [|rewrite zlen_app, zlen_ztake; rewrite ?zlen_app, ?zlen_zdrop by lia; lia].
  rewrite app_assoc. f_equal. unfold ztake.
  rewrite take_app_ge by (unfold zlen in *; lia). do 2 f_equal.
  unfold zlen in *. lia.
Qed.
Lemma zdrop_tail (a b : list Z) n : zlen b = n → zdrop (zlen (a ++ b) - n) (a ++ b) = b.
Proof. intros <-. apply zdrop_app_eq. rewrite zlen_app. lia. Qed.

(** The tags and the legacy block a file loads as. *)
Definition loaded (p : string) (w : W) (tags : Chubo.Tags) (leg : list Z) : Prop :=
  (∃ err, Chubo.NewADV sha256 (Some (fs_content w p)) = Ok (Some tags, err)) ∧
  2 * Syslinux.AdvSize ≤ zlen (fs_content w p) ∧
  leg = zdrop (zlen (fs_content w p) - 2 * Syslinux.AdvSize) (fs_content w p).

(** A successful [Flush] leaves a file that loads as what was in memory. *)
Lemma Flush_loaded m m0 m' p parent :
  getPath m = Ok (m0, inr (p, parent) : meta_error IOErr + _) →
  m0.(advState) = m.(advState) → m0.(legacy) = m.(legacy) → m0.(disk) = m.(disk) →
  (∀ t, is_Some (m.(advState) !! t) → 1 ≤ t < 256) →
  Chubo.fits m.(advState) →
  zlen m.(legacy) = 2 * Syslinux.AdvSize →
  Chubo.Size + 2 * Syslinux.AdvSize ≤ zlen (fs_content m.(disk) p) →
  Flush sha256 order m = Ok (m', inr () : meta_error IOErr + _) →
  loaded p m'.(disk) m.(advState) m.(legacy) ∧ zlen (fs_content m'.(disk) p) = zlen (fs_content m.(disk) p).
Proof.
  intros Hp ??? Htags Hfit Hleg Hroom Hflush. unfold Chubo.fits in Hfit.
  assert (Chubo.entries_size (order m.(advState)) ≤ Chubo.DataLength) as Hsz
    by (rewrite (Chubo.tags_size_order m.(advState)); [lia|apply order_perm]).
  set (b := Chubo.block sha256 (order m.(advState))).
  assert (zlen b = Chubo.Length) as Hb by by apply Chubo.zlen_block.
  assert (Himg : Chubo.Bytes sha256 (order m.(advState)) = Ok (b ++ b))
    by (unfold Chubo.Bytes; by rewrite Chubo.Marshal_block).
  assert (Hlen : zlen (b ++ b) = Chubo.Size) by (rewrite zlen_app; unfold Chubo.Size; lia).
  destruct (Flush_content m m0 m' p parent (b ++ b)) as (rest & Hc & Hsize); [done..|]. split; [|done].
  unfold loaded. rewrite Hc. split; [|split].
  - rewrite <- app_assoc. unfold b at 1. eexists.
    apply (Chubo.NewADV_first sha256 sha256_size m.(advState)); first [done | apply order_perm | unfold Chubo.fits; lia].
  - rewrite !zlen_app. pose proof (zlen_nonneg rest). unfold Chubo.Size, Chubo.Length in *. lia.
  - by rewrite app_assoc, zdrop_tail.
Qed.
(** Loading it gives that. *)
Lemma New_loaded p w tags leg : p ≠ ""%string → usable w p → loaded p w tags leg →
  ∃ m, New (S:=S) sha256 None p w = Ok (m, inr () : meta_error IOErr + _) ∧ m.(advState) = tags ∧ m.(legacy) = leg.
Proof.
  intros Hne Hus ([err Hadv] & Hlen & Hleg). unfold New, Syslinux.NewADV at 1, Chubo.NewADV at 1.
  set (m0 := {| legacy := _ |}). unfold Reload.
  rewrite (prog_bind_Ok _ _ _ m0 (p, ""%string)) by by apply getPath_fixed.
  rewrite (prog_bind_Ok _ _ _ m0 ()) by by apply open_locked_Ok.
  erewrite prog_bind_Ok by done. cbv zeta. cbn [disk m0].
  rewrite (prog_bind_Ok _ _ _ m0 tags) by (unfold load_chubo; by rewrite Hadv).
  rewrite (prog_bind_Ok _ _ _ m0 leg).
  2:{ unfold load_syslinux, Syslinux.NewADV. by rewrite (proj2 (Z.ltb_ge _ _)), Hleg by lia. }
  by eexists.
Qed.

(** C8: what [Flush] saves, the next boot loads: after a [Flush] that reports no error,
    [New] on the same file (without a resource state) returns with no error, the same tags
    and the same legacy block. The tags are from 1 to 255 and fit into the ADV (a tag 0
    would end it, [end_tag_truncates]), the legacy block has its size, and the file is at a
    fixed path, can be opened and locked, and has room for both. *)
Theorem flush_then_new m m' p :
  m.(fixedPath) = p → p ≠ ""%string → (∀ w, usable w p) →
  (∀ t, is_Some (m.(advState) !! t) → 1 ≤ t < 256) →
  Chubo.fits m.(advState) →
  zlen m.(legacy) = 2 * Syslinux.AdvSize →
  Chubo.Size + 2 * Syslinux.AdvSize ≤ zlen (fs_content m.(disk) p) →
  Flush sha256 order m = Ok (m', inr () : meta_error IOErr + _) →
  ∃ m'', New (S:=S) sha256 None p m'.(disk) = Ok (m'', inr () : meta_error IOErr + _) ∧
    m''.(advState) = m.(advState) ∧ m''.(legacy) = m.(legacy).
Proof.
  intros Hp Hne Hus Htags Hfit Hleg Hroom Hflush. apply New_loaded; [done|apply Hus|].
  by apply (Flush_loaded m m m' p "" (getPath_fixed m p Hp Hne)).
Qed.
End load_save.

(** ** Witnesses

    The interfaces at a concrete store and disk: maps in memory, where nothing fails. *)
Module InMemory.
Record store := { keys : gmap string (list Z); watch : list VolumeStatus; broken : bool }.
Definition upd (s : store) (k : gmap string (list Z)) : store :=
  {| keys := k; watch := s.(watch); broken := s.(broken) |}.

#[export] Instance mem_store : MetaStore store := {|
  st_update s id v :=
    if s.(broken) then (s, Some (StoreError 1))
    else match s.(keys) !! id with
         | Some _ => (upd s (<[id := v]> s.(keys)), None)
         | None => (s, Some NotFound)
         end;
  st_create s id v :=
    match s.(keys) !! id with
    | Some _ => (s, Some (StoreError 0))
    | None => (upd s (<[id := v]> s.(keys)), None)
    end;
  st_destroy s id :=
    match s.(keys) !! id with
    | Some _ => (upd s (delete id s.(keys)), None)
    | None => (s, Some NotFound)
    end;
  st_list s := inr (map_to_list s.(keys)).*1;
  st_add_finalizer s _ := (s, None);
  st_watch_volume s _ := (s.(watch), StoreError 2)
|}.

#[export] Instance mem_store_laws : MetaStoreLaws store.
Proof.
  refine {| store_map := keys |}; simpl.
  - intros s id v. destruct (broken s); [done|]. destruct (keys s !! id) eqn:Hk; [|done].
    split; [by eexists|done].
  - intros s id v. by destruct (keys s !! id) eqn:Hk.
  - intros s id. destruct (keys s !! id) eqn:Hk; [|done]. split; [by eexists|done].
  - intros s ids [= <-] id. rewrite list_elem_of_fmap. split.
    + intros ([i v] & -> & Hv%elem_of_map_to_list). by eexists.
    + intros [v Hv]. exists (id, v). by rewrite elem_of_map_to_list.
  - by intros s id s' err [= <- _].
Defined.

#[export] Instance mem_disk : FileSystem (gmap string (list Z)) () := {|
  fs_open _ _ := None;
  fs_lock _ _ := None;
  fs_content w p := default [] (w !! p);
  fs_write_at w p off d := (<[p := pwrite (default [] (w !! p)) off d]> w, (zlen d, None));
  fs_sync w _ := (w, None)
|}.

#[export] Instance mem_disk_laws : FileSystemLaws (gmap string (list Z)) ().
Proof.
  split; simpl.
  - intros w p off d w' n [= <- <-]. by rewrite lookup_insert_eq.
  - by intros w p w' err [= <- _].
Defined.

Definition start (n : Z) (tags : Chubo.Tags) (st : option store) : Meta Chubo.Tags (list Z) store (gmap string (list Z)) :=
  {| legacy := replicate 1024 0; advState := tags; resourceState := st; fixedPath := "/dev/meta";
     disk := {["/dev/meta" := replicate (Z.to_nat n) 0]} |}.

(** A META partition of the two formats' sizes. *)
Definition part_size : Z := 525312.

Definition succeeds {E A B} (c : outcome Empty_set (A * (E + B))) : bool :=
  match c with Ok (_, inr _) => true | _ => false end.
End InMemory.
Import InMemory.

Lemma single_tag_u8 (n : Z) (v : list Z) : 0 ≤ n < 256 → tags_u8 {[n := v]}.
Proof. intros Hn t [w [<- _]%lookup_singleton_Some]. done. Qed.

Lemma resources_mirror_tags_witness :
  let s := {| keys := {["0x0b" := [3]]}; watch := []; broken := false |} in
  let m := start 0 {[6 := [7]]} (Some s) in
  let m1 := with_store (upd s {["0x06" := [7]]}) m in
  let m2 := with_store (upd s {["0x0a" := [1]]}) (start 0 {[10 := [1]]} None) in
  mirrored (tag_map m1.(advState)) (store_of m1) ∧ m1.(advState) = m.(advState) ∧
  mirrored (tag_map m2.(advState)) (store_of m2).
Proof.
  intros s m m1 m2.
  apply (resources_mirror_tags (IOErr:=()) m m1 m2 s [CallSet 10 [1]; CallDelete 6]).
  - done.
  - apply (single_tag_u8 6). lia.
  - repeat constructor; simpl; lia.
  - vm_compute. reflexivity.
  - vm_compute. reflexivity.
Defined.

Lemma set_error_keeps_value_witness :
  let s := {| keys := ∅; watch := []; broken := true |} in
  let m' := with_store s (start 0 {[6 := [7]]} None) in
  ReadTagBytes 6 m' = Ok (m', inr (Some [7]) : meta_error () + _) ∧ store_of m' = store_map s.
Proof.
  intros s m'.
  apply (set_error_keeps_value (start 0 ∅ (Some s)) s 6 [7] m' (ErrStore (StoreError 1)));
    vm_compute; reflexivity.
Defined.

Lemma deleted_tag_resurfaces_witness :
  let m := {| legacy := Syslinux.seal (Syslinux.area [(6, [9])]); advState := {[6 := [7]]};
              resourceState := None; fixedPath := ""; disk := ∅ |}
           : Meta Chubo.Tags (list Z) store (gmap string (list Z)) in
  ∃ m', DeleteTag 6 m = Ok (m', inr true : meta_error () + _) ∧
    tag_map m'.(advState) = delete 6 (tag_map m.(advState)) ∧
    ReadTagBytes 6 m' = Ok (m', inr (Some [9]) : meta_error () + _).
Proof.
  intros m. apply (deleted_tag_resurfaces m 6 [7] [9]); by vm_compute.
Defined.

Lemma reload_overlays_memory_witness :
  let m := start part_size {[6 := [7]]} (Some {| keys := ∅; watch := []; broken := false |}) in
  let content := fs_content m.(disk) "/dev/meta" in
  ∃ m' (r : meta_error () + ()), Reload (λ _, replicate 32 0) m = Ok (m', r) ∧
    m'.(advState) = m.(advState) ∪ ∅ ∧
    m'.(legacy) = zdrop (zlen content - 2 * Syslinux.AdvSize) content ∧
    (m.(resourceState) = None → r = inr ()) ∧
    (is_Some m.(resourceState) → r = inr () → mirrored m'.(advState) (store_of m')).
Proof.
  intros m content.
  apply (reload_overlays_memory (λ _, replicate 32 0) m "/dev/meta" ∅
    (Some (Chubo.SecondBlock (Chubo.UnexpectedMagic 0 Chubo.Magic1)))).
  - reflexivity.
  - discriminate.
  - split; reflexivity.
  - vm_compute. reflexivity.
  - vm_compute. discriminate.
  - vm_compute. discriminate.
  - change (tags_u8 ({[6 := [7]]} ∪ ∅)). rewrite (right_id_L ∅ (∪)). apply single_tag_u8. lia.
Defined.

Lemma flush_then_new_witness :
  let m := start part_size {[6 := [7]]} None in
  ∃ m' m'', Flush (λ _, replicate 32 0) map_to_list m = Ok (m', inr () : meta_error () + _) ∧
    New (S:=store) (λ _, replicate 32 0) None "/dev/meta" m'.(disk) = Ok (m'', inr () : meta_error () + _) ∧
    m''.(advState) = m.(advState) ∧ m''.(legacy) = m.(legacy).
Proof.
  intros m.
  assert (Hok : succeeds (Flush (IOErr:=()) (λ _, replicate 32 0) map_to_list m) = true) by by vm_compute.
  destruct (Flush (IOErr:=()) (λ _, replicate 32 0) map_to_list m) as [[m' [e|[]]]|[]|r] eqn:Hf; [discriminate Hok| |discriminate Hok].
  exists m'.
  assert (∃ m'', New (S:=store) (λ _, replicate 32 0) None "/dev/meta" m'.(disk) =
      Ok (m'', inr () : meta_error () + _) ∧
    m''.(advState) = m.(advState) ∧ m''.(legacy) = m.(legacy)) as [m'' Hm''].
  { apply (flush_then_new (λ _, replicate 32 0) map_to_list) with (m := m).
    - intros b. reflexivity.
    - intros tags. reflexivity.
    - reflexivity.
    - discriminate.
    - intros w. split; reflexivity.
    - intros t Ht. change (is_Some (({[6 := [7]]} : Chubo.Tags) !! t)) in Ht.
      destruct Ht as [v [<- _]%lookup_singleton_Some]. lia.
    - vm_compute. discriminate.
    - vm_compute. reflexivity.
    - vm_compute. discriminate.
    - exact Hf. }
  exists m''. split; [reflexivity|exact Hm''].
Defined.
