(* ===== verification/ServiceEvents.v ===== *)
(** * System services: event history and health state

    [internal/app/machined/pkg/system/events/events.go],
    [system/health/status.go] and [system/health/check.go]: the states of a service,
    the bounded history of its events, and the health status with its subscribers.
    Timestamps are values the clock gives; channels are numbers. *)

From S2P Require Import Prelude.

(** ** Removing a channel from a list of subscribers

    The loop both [health.State.Unsubscribe] and [ServiceRunner.Unsubscribe] use: the
    element is replaced by the last one and the list shortened.  A turn advances [i] or
    shortens the list, so the length is enough fuel. *)

Definition swap_remove (i : nat) (channels : list Z) : list Z :=
  let last := default 0 (channels !! pred (length channels)) in
  take (pred (length channels)) (<[i := last]> channels).

Fixpoint unsubscribe_loop (fuel : nat) (channels : list Z) (ch : Z) (i : nat) : list Z :=
  match fuel with
  | O => channels
  | S fuel =>
      match channels !! i with
      | None => channels
      | Some c =>
          if bool_decide (c = ch) then unsubscribe_loop fuel (swap_remove i channels) ch i
          else unsubscribe_loop fuel channels ch (S i)
      end
  end.

Definition unsubscribe (channels : list Z) (ch : Z) : list Z :=
  unsubscribe_loop (S (length channels)) channels ch 0.

Lemma swap_remove_spec pre c post :
  ∃ post', swap_remove (length pre) (pre ++ c :: post) = pre ++ post' ∧ post' ≡ₚ post.
Proof.
  unfold swap_remove. rewrite length_app. cbn [length].
  destruct post as [|y post _] using rev_ind.
  - cbn [length]. replace (pred (length pre + 1)) with (length pre) by lia.
    rewrite insert_app_r_alt, Nat.sub_diag, take_app_length by lia.
    exists []. by rewrite app_nil_r.
  - rewrite length_app. cbn [length].
    replace (pred (length pre + S (length post + 1))) with (length (pre ++ c :: post))
      by (rewrite length_app; simpl; lia).
    change (c :: post ++ [y]) with ((c :: post) ++ [y]). rewrite app_assoc.
    rewrite list_lookup_middle by done. cbn [default from_option].
    rewrite insert_app_l by (rewrite length_app; simpl; lia).
    rewrite take_app_length' by by rewrite length_insert.
    rewrite insert_app_r_alt, Nat.sub_diag by lia. simpl.
    exists (y :: post). split; [done|]. by rewrite Permutation_cons_append.
Qed.

Lemma unsubscribe_loop_spec fuel pre post ch :
  (length post < fuel)%nat → ch ∉ pre →
  ∃ kept, unsubscribe_loop fuel (pre ++ post) ch (length pre) = pre ++ kept ∧
    kept ≡ₚ filter (λ c, c ≠ ch) post.
Proof.
  revert pre post. induction fuel as [|fuel IH]; intros pre post Hf Hpre; [lia|].
  cbn [unsubscribe_loop]. destruct post as [|c post].
  { rewrite app_nil_r, lookup_ge_None_2 by done. exists []. by rewrite app_nil_r. }
  rewrite list_lookup_middle by done. rewrite filter_cons. simpl in Hf.
  case_bool_decide as Hc.
  - subst c. rewrite decide_False by (intros []; done).
    destruct (swap_remove_spec pre ch post) as (post' & -> & Hp).
    destruct (IH pre post') as (kept & -> & Hk); [rewrite Hp; lia|done|].
    exists kept. split; [done|]. by rewrite Hk, Hp.
  - rewrite decide_True by done.
    destruct (IH (pre ++ [c]) post) as (kept & Hk & Hperm); [lia|set_solver|].
    rewrite length_app, Nat.add_1_r, <- !app_assoc in Hk. simpl in Hk.
    exists (c :: kept). split; [done|]. by rewrite Hperm.
Qed.

Lemma unsubscribe_spec channels ch :
  unsubscribe channels ch ≡ₚ filter (λ c, c ≠ ch) channels.
Proof.
  destruct (unsubscribe_loop_spec (S (length channels)) [] channels ch) as (kept & Hk & Hp);
    [lia|set_solver|]. unfold unsubscribe.
  rewrite !app_nil_l in Hk. change (length []) with 0%nat in Hk. by rewrite Hk.
Qed.

(** ** Service states *)

Inductive ServiceState :=
  | StateInitialized
  | StatePreparing
  | StateWaiting
  | StateRunning
  | StateStopping
  | StateFinished
  | StateFailed
  | StateSkipped
  | StateStarting.

#[export] Instance ServiceState_eq_dec : EqDecision ServiceState.
Proof. solve_decision. Defined.

(** [ServiceState.String]; the [default] case is for numbers that are no constant. *)
Definition ServiceState_String (state : ServiceState) : string :=
  match state with
  | StateInitialized => "Initialized"
  | StateStarting => "Starting"
  | StatePreparing => "Preparing"
  | StateWaiting => "Waiting"
  | StateRunning => "Running"
  | StateStopping => "Stopping"
  | StateFinished => "Finished"
  | StateFailed => "Failed"
  | StateSkipped => "Skipped"
  end.

(** ** Health *)
Module Health.

Record Status := { Healthy : option bool; LastChange : Z; LastMessage : string }.
Record StateChange := { Old : Status; New : Status }.

Record State := { status : Status; subscribers : list Z }.

(** [State.Init]. *)
Definition Init (now : Z) (state : State) : State :=
  {| status := {| Healthy := None; LastChange := now; LastMessage := "Unknown" |};
     subscribers := state.(subscribers) |}.

(** [State.Update]: the new state, and the change sent to each channel. *)
Definition Update (now : Z) (healthy : bool) (message : string) (state : State)
    : State * list (Z * StateChange) :=
  let oldStatus := state.(status) in
  let notify := negb (bool_decide (oldStatus.(Healthy) = Some healthy)) in
  let newStatus :=
    {| Healthy := if notify then Some healthy else oldStatus.(Healthy);
       LastChange := if notify then now else oldStatus.(LastChange);
       LastMessage := message |} in
  ({| status := newStatus; subscribers := state.(subscribers) |},
   if notify then (λ ch, (ch, {| Old := oldStatus; New := newStatus |})) <$> state.(subscribers)
   else []).

Definition Subscribe (ch : Z) (state : State) : State :=
  {| status := state.(status); subscribers := state.(subscribers) ++ [ch] |}.

Definition Unsubscribe (ch : Z) (state : State) : State :=
  {| status := state.(status); subscribers := unsubscribe state.(subscribers) ch |}.

Definition Get (state : State) : Status := state.(status).

(** [health.Run]: [Init], the initial delay, then one check per tick until the context
    is done.  [delay_ok] says whether the delay passed before the context was done;
    [results] are the checks that ran, with the clock at each. *)
Fixpoint check_loop (results : list (Z * option string)) (state : State)
    : State * list (Z * StateChange) :=
  match results with
  | [] => (state, [])
  | (now, err) :: results =>
      let healthy := bool_decide (err = None) in
      let message := default "" err in
      let '(state, sent) := Update now healthy message state in
      let '(state, sent') := check_loop results state in
      (state, sent ++ sent')
  end.

Definition Run (now : Z) (delay_ok : bool) (results : list (Z * option string)) (state : State)
    : State * list (Z * StateChange) :=
  let state := Init now state in
  if delay_ok then check_loop results state else (state, []).

(** What one subscriber is sent. *)
Definition sent_to (ch : Z) (sent : list (Z * StateChange)) : list StateChange :=
  (filter (λ m, m.1 = ch) sent).*2.

(** The health values of the changes, in order. *)
Definition verdicts (changes : list StateChange) : list (option bool) :=
  (λ c, c.(New).(Healthy)) <$> changes.

(** The result of dropping the checks that repeat the verdict before them. *)
Fixpoint changes_from (last : option bool) (l : list bool) : list (option bool) :=
  match l with
  | [] => []
  | b :: l => if bool_decide (last = Some b) then changes_from last l
              else Some b :: changes_from (Some b) l
  end.

Lemma sent_to_app ch l k : sent_to ch (l ++ k) = sent_to ch l ++ sent_to ch k.
Proof. unfold sent_to. by rewrite filter_app, fmap_app. Qed.

Lemma sent_to_all ch (chs : list Z) (c : StateChange) :
  NoDup chs → ch ∈ chs → sent_to ch ((λ x, (x, c)) <$> chs) = [c].
Proof.
  intros Hnd Hin. unfold sent_to. induction Hnd as [|x chs Hx Hnd IH]; [by apply not_elem_of_nil in Hin|].
  cbn [fmap list_fmap]. rewrite filter_cons. simpl. case_decide as Hc.
  - subst x. cbn [fmap list_fmap snd]. f_equal.
    clear -Hx. induction chs as [|y chs IH]; [done|]. cbn [fmap list_fmap]. rewrite filter_cons. simpl.
    apply not_elem_of_cons in Hx as [Hne Hx]. rewrite decide_False by congruence. auto.
  - apply IH. by apply elem_of_cons in Hin as [->|].
Qed.

(** A health check run reports to each subscriber exactly the checks whose verdict
    differs from the one before (the first one always), in order: whatever the checks
    return, no two consecutive notifications carry the same verdict, and the status
    ends with the last check's verdict and message. *)
Theorem run_notifies_changes now results state ch :
  NoDup state.(subscribers) → ch ∈ state.(subscribers) →
  let verdict := λ r : Z * option string, bool_decide (r.2 = None) in
  let '(state', sent) := Run now true results state in
  verdicts (sent_to ch sent) = changes_from None (verdict <$> results) ∧
  state'.(status).(Healthy) = verdict <$> last results ∧
  state'.(subscribers) = state.(subscribers).
Proof.
  intros Hnd Hch verdict. unfold Run. set (s0 := Init now state).
  assert (Hgen : ∀ s, s.(subscribers) = state.(subscribers) →
    let '(state', sent) := check_loop results s in
    verdicts (sent_to ch sent) = changes_from s.(status).(Healthy) (verdict <$> results) ∧
    state'.(status).(Healthy) = match last results with Some r => Some (verdict r) | None => s.(status).(Healthy) end ∧
    state'.(subscribers) = state.(subscribers)).
  { induction results as [|[t err] rs IH]; intros s Hs; [done|]. cbn [check_loop fmap list_fmap].
    destruct (Update t (bool_decide (err = None)) (default "" err) s) as [s1 sent1] eqn:Hu.
    assert (s1.(subscribers) = state.(subscribers)) as Hs1 by (by unfold Update in Hu; injection Hu as <- _).
    specialize (IH s1 Hs1). destruct (check_loop rs s1) as [s2 sent2].
    destruct IH as (Hv & Hh & Hsub). split; [|split; [|done]].
    - rewrite sent_to_app. unfold verdicts in *. rewrite fmap_app, Hv. cbn [changes_from].
      unfold Update in Hu. unfold verdict at 2. cbn [snd].
      destruct (bool_decide (Healthy _ = _)) eqn:Hsame; simpl in Hu; injection Hu as <- <-; simpl.
      + apply bool_decide_eq_true in Hsame. unfold verdict. simpl. rewrite Hsame.
        by destruct (bool_decide (err = None)).
      + apply bool_decide_eq_false in Hsame. rewrite Hs, sent_to_all by done. simpl.
        unfold verdict. simpl.
        destruct (Healthy (status s)) as [[]|], (bool_decide (err = None)); done.
    - rewrite Hh. destruct rs as [|r rs].
      2:{ change (last ((t, err) :: r :: rs)) with (last (r :: rs)).
          by destruct (last (r :: rs)) eqn:Hl; [|apply last_None in Hl]. }
      cbn [last].
      unfold Update in Hu. injection Hu as <- _. unfold verdict. simpl.
      destruct (Healthy (status s)) as [[]|], (bool_decide (err = None)); done. }
  specialize (Hgen s0 eq_refl). destruct (check_loop results s0) as [s' sent].
  destruct Hgen as (? & Hh & ?). split; [done|]. split; [|done]. rewrite Hh. by destruct (last results).
Qed.

Lemma run_notifies_changes_witness :
  let s := Subscribe 7 {| status := {| Healthy := None; LastChange := 0; LastMessage := "" |};
                          subscribers := [] |} in
  let results := [(1, None); (2, None); (3, Some "refused"%string); (4, None)] in
  let verdict := λ r : Z * option string, bool_decide (r.2 = None) in
  let '(state', sent) := Run 0 true results s in
  verdicts (sent_to 7 sent) = changes_from None (verdict <$> results) ∧
  state'.(status).(Healthy) = verdict <$> last results ∧
  state'.(subscribers) = s.(subscribers).
Proof.
  intros s results. apply (run_notifies_changes 0 results s 7).
  - apply NoDup_singleton.
  - by apply list_elem_of_singleton.
Defined.

End Health.

(** ** The event history

    [events.ServiceEvents]: a ring of [MaxEventsToKeep] entries, allocated by the first
    [Push].  An entry with an empty message counts as unused. *)

Record ServiceEvent := {
  Message : string;
  State : ServiceState;
  EventHealth : Health.Status;
  Timestamp : Z
}.

Definition zero_event : ServiceEvent :=
  {| Message := ""; State := StateInitialized;
     EventHealth := {| Health.Healthy := None; Health.LastChange := 0; Health.LastMessage := "" |};
     Timestamp := 0 |}.

Definition MaxEventsToKeep : Z := 64.

Record ServiceEvents := {
  events : option (list ServiceEvent);
  pos : Z;
  discarded : Z
}.

Definition no_events : ServiceEvents := {| events := None; pos := 0; discarded := 0 |}.

Definition Push (ev : ServiceEvents) (event : ServiceEvent) : outcome Empty_set ServiceEvents :=
  let buf := default (replicate (Z.to_nat MaxEventsToKeep) zero_event) ev.(events) in
  old ← go_index buf ev.(pos);
  buf ← go_set buf ev.(pos) event;
  Ok {| events := Some buf;
        pos := Z.rem (ev.(pos) + 1) (zlen buf);
        discarded := if bool_decide (old.(Message) = ""%string) then ev.(discarded)
                     else u64 (ev.(discarded) + 1) |}.

(** The loop of [Get]: [n] turns starting at [i]. *)
Fixpoint get_loop (n : nat) (buf : list ServiceEvent) (i : Z) (result : list ServiceEvent)
    : outcome Empty_set (list ServiceEvent) :=
  match n with
  | O => Ok result
  | S n =>
      e ← go_index buf i;
      get_loop n buf (Z.rem (i + 1) (zlen buf))
        (if bool_decide (e.(Message) = ""%string) then result else result ++ [e])
  end.

Definition Get (ev : ServiceEvents) (count : Z) : outcome Empty_set (list ServiceEvent) :=
  match ev.(events) with
  | None => Ok []
  | Some buf =>
      let count := if count >? MaxEventsToKeep then MaxEventsToKeep else count in
      let n := zlen buf in
      get_loop (Z.to_nat count) buf (Z.rem (ev.(pos) - count + n) n) []
  end.

(** The message list of [AsProto]. *)
Definition event_proto (e : ServiceEvent) : string * string * Z :=
  (e.(Message), ServiceState_String e.(State), e.(Timestamp)).

Definition AsProto (ev : ServiceEvents) (count : Z)
    : outcome Empty_set (list (string * string * Z)) :=
  eventList ← Get ev count;
  Ok (map event_proto eventList).

(** *** The ring as a window

    [window] is the ring read from the oldest slot to the newest. *)

Definition window (buf : list ServiceEvent) (pos : Z) : list ServiceEvent :=
  zdrop pos buf ++ ztake pos buf.

Record ring_ok (ev : ServiceEvents) (buf : list ServiceEvent) : Prop := {
  ring_buf : default (replicate (Z.to_nat MaxEventsToKeep) zero_event) ev.(events) = buf;
  ring_len : zlen buf = MaxEventsToKeep;
  ring_pos : 0 ≤ ev.(pos) < MaxEventsToKeep
}.

Definition last_n {A} (n : Z) (l : list A) : list A := zdrop (zlen l - n) l.

Lemma window_split buf pos x :
  0 ≤ pos < zlen buf → buf !! Z.to_nat pos = Some x →
  ∃ a b, buf = a ++ x :: b ∧ zlen a = pos ∧ window buf pos = x :: b ++ a.
Proof.
  intros Hpos Hx. exists (ztake pos buf), (zdrop (pos + 1) buf).
  assert (zdrop pos buf = x :: zdrop (pos + 1) buf) as Hd.
  { unfold zdrop. rewrite (drop_S _ x) by done. do 2 f_equal. lia. }
  split_and!.
  - by rewrite <- Hd, ztake_zdrop.
  - rewrite zlen_ztake; lia.
  - unfold window. by rewrite Hd.
Qed.

(** Pushing drops the oldest slot and appends the event. *)
Lemma Push_window ev buf e :
  ring_ok ev buf → ∃ ev' buf' old, Push ev e = Ok ev' ∧ ring_ok ev' buf' ∧ ev'.(events) = Some buf' ∧
    head (window buf ev.(pos)) = Some old ∧
    window buf' ev'.(pos) = tail (window buf ev.(pos)) ++ [e] ∧
    ev'.(discarded) = if bool_decide (old.(Message) = ""%string) then ev.(discarded)
                      else u64 (ev.(discarded) + 1).
Proof.
  intros [Hbuf Hlen Hpos].
  destruct (lookup_lt_is_Some_2 buf (Z.to_nat ev.(pos))) as [old Hold].
  { unfold zlen in Hlen. lia. }
  destruct (window_split buf ev.(pos) old) as (a & b & Hab & Ha & Hw); [lia|done|].
  unfold Push. rewrite Hbuf, (go_index_Ok _ _ old) by (lia || done). cbn [mbind outcome_bind].
  rewrite Hab, go_set_mid by done. cbn [mbind outcome_bind].
  assert (zlen (a ++ e :: b) = MaxEventsToKeep) as Hlen'
    by (rewrite <- Hlen, Hab; autorewrite with zlen; lia).
  assert (0 ≤ Z.rem (ev.(pos) + 1) MaxEventsToKeep < MaxEventsToKeep) as Hp'.
  { rewrite Z.rem_mod_nonneg by (unfold MaxEventsToKeep; lia). apply Z.mod_pos_bound. done. }
  eexists _, (a ++ e :: b), old. split; [done|]. rewrite Hlen'. split; [by split|].
  split; [done|]. rewrite <- Hab, Hw. split; [done|]. split; [|done]. cbn [pos tail].
  unfold window. rewrite Z.rem_mod_nonneg by (unfold MaxEventsToKeep; lia).
  destruct (decide (ev.(pos) + 1 = MaxEventsToKeep)) as [Heq|Hne].
  - rewrite Heq, Z.mod_same by (unfold MaxEventsToKeep; lia).
    assert (b = []) as -> by (apply zlen_0_inv; autorewrite with zlen in Hlen'; lia).
    rewrite zdrop_0, ztake_0, app_nil_r. done.
  - rewrite Z.mod_small by lia.
    assert (a ++ e :: b = (a ++ [e]) ++ b) as -> by by rewrite <- app_assoc.
    rewrite zdrop_app_eq, ztake_app_eq by (autorewrite with zlen; lia).
    by rewrite app_assoc.
Qed.

Lemma get_loop_window n buf i result :
  zlen buf = MaxEventsToKeep → 0 ≤ i < MaxEventsToKeep → (n ≤ length buf)%nat →
  get_loop n buf i result =
  Ok (result ++ filter (λ e, e.(Message) ≠ ""%string) (take n (window buf i))).
Proof.
  revert i result. induction n as [|n IH]; intros i result Hlen Hi Hn; cbn [get_loop].
  { by rewrite take_0, app_nil_r. }
  destruct (lookup_lt_is_Some_2 buf (Z.to_nat i)) as [e He]; [unfold zlen in *; lia|].
  destruct (window_split buf i e) as (a & b & Hab & Ha & Hw); [lia|done|].
  rewrite (go_index_Ok _ _ e) by (lia || done). cbn [mbind outcome_bind].
  rewrite IH; [|done| |lia].
  2:{ rewrite Hlen, Z.rem_mod_nonneg by (unfold MaxEventsToKeep; lia). by apply Z.mod_pos_bound. }
  assert (take n (window buf (Z.rem (i + 1) (zlen buf))) = take n (b ++ a)) as ->.
  { rewrite Hlen, Z.rem_mod_nonneg by (unfold MaxEventsToKeep; lia).
    assert (n ≤ length (b ++ a))%nat as Hn'
      by (rewrite Hab, length_app in Hn; simpl in Hn; rewrite length_app; lia).
    assert (zlen (a ++ e :: b) = MaxEventsToKeep) as Hl by by rewrite <- Hab.
    destruct (decide (i + 1 = MaxEventsToKeep)) as [Heq|Hne].
    - rewrite Heq, Z.mod_same by (unfold MaxEventsToKeep; lia).
      assert (b = []) as -> by (apply zlen_0_inv; autorewrite with zlen in Hl; lia).
      unfold window. rewrite zdrop_0, ztake_0, app_nil_r, Hab. by rewrite take_app_le.
    - rewrite Z.mod_small by lia. unfold window. rewrite Hab.
      assert (a ++ e :: b = (a ++ [e]) ++ b) as -> by by rewrite <- app_assoc.
      rewrite zdrop_app_eq, ztake_app_eq by (autorewrite with zlen; lia).
      rewrite app_assoc. by rewrite take_app_le. }
  rewrite Hw. cbn [take firstn]. rewrite filter_cons.
  case_bool_decide as Hm.
  - by rewrite decide_False by (intros []; done).
  - rewrite decide_True by done. by rewrite <- app_assoc.
Qed.

Lemma split3 {A} (l : list A) i j :
  0 ≤ i → i ≤ j → j ≤ zlen l →
  ∃ a b c, l = a ++ b ++ c ∧ zlen a = i ∧ zlen b = j - i ∧ zlen c = zlen l - j.
Proof.
  intros. exists (ztake i l), (ztake (j - i) (zdrop i l)), (zdrop (j - i) (zdrop i l)).
  rewrite !ztake_zdrop. split; [done|].
  rewrite !zlen_zdrop, !zlen_ztake, !zlen_zdrop by lia. lia.
Qed.

(** The last [c] entries of a window are the first [c] of the window [c] slots back. *)
Lemma window_back buf pos c :
  0 ≤ pos < zlen buf → 0 < c ≤ zlen buf →
  ztake c (window buf ((pos - c + zlen buf) mod zlen buf)) = last_n c (window buf pos).
Proof.
  intros Hpos Hc. set (n := zlen buf) in *. unfold last_n, window at 2.
  rewrite zlen_app, zlen_zdrop, zlen_ztake by lia. fold n.
  replace (Z.max 0 (n - pos) + Z.min pos n - c) with (n - c) by lia.
  destruct (Z.le_gt_cases c pos) as [Hle|Hgt].
  - replace ((pos - c + n) mod n) with (pos - c)
      by (rewrite <- (Z.mod_small (pos - c) n) at 1 by lia; by rewrite <- (Z_mod_plus_full (pos - c) 1), Z.mul_1_l).
    destruct (split3 buf (pos - c) pos) as (x & y & z & Hb & Hx & Hy & Hz); [lia..|].
    unfold window. rewrite Hb, (zdrop_app_eq (pos - c)), (ztake_app_eq (pos - c)) by lia.
    rewrite <- !app_assoc, (ztake_app_eq c) by lia.
    rewrite (app_assoc x y z), (zdrop_app_eq pos), (ztake_app_eq pos) by (rewrite zlen_app; lia).
    rewrite (app_assoc z x y), (zdrop_app_eq (n - c)) by (rewrite zlen_app; unfold n; lia). done.
  - replace ((pos - c + n) mod n) with (pos - c + n) by (by rewrite Z.mod_small by lia).
    destruct (split3 buf pos (pos - c + n)) as (x & y & z & Hb & Hx & Hy & Hz); [unfold n; lia..|].
    unfold window. rewrite Hb, (app_assoc x y z), (zdrop_app_eq (pos - c + n)), (ztake_app_eq (pos - c + n))
      by (rewrite zlen_app; lia).
    rewrite (app_assoc z x y), (ztake_app_eq c) by (rewrite zlen_app; unfold n in *; lia).
    rewrite <- (app_assoc x y z), (zdrop_app_eq pos), (ztake_app_eq pos) by lia.
    rewrite <- app_assoc, (zdrop_app_eq (n - c)) by lia. done.
Qed.

Lemma Get_window ev buf count :
  ring_ok ev buf → ev.(events) = Some buf →
  Get ev count =
  Ok (filter (λ e, e.(Message) ≠ ""%string)
        (last_n (Z.max 0 (Z.min count MaxEventsToKeep)) (window buf ev.(pos)))).
Proof.
  intros [_ Hlen Hpos] Hev. unfold Get. rewrite Hev, Hlen.
  set (c := if count >? MaxEventsToKeep then MaxEventsToKeep else count).
  assert (c = Z.min count MaxEventsToKeep) as Hc
    by (unfold c; rewrite Z.gtb_ltb; destruct (Z.ltb_spec MaxEventsToKeep count); lia).
  rewrite <- Hc. destruct (decide (c ≤ 0)) as [Hneg|Hposc].
  { replace (Z.to_nat c) with O by lia. cbn [get_loop].
    unfold last_n, zdrop. rewrite drop_ge; [done|]. unfold zlen. lia. }
  replace (Z.max 0 c) with c by lia.
  assert (0 ≤ ev.(pos) - c + MaxEventsToKeep) by lia.
  rewrite get_loop_window; [|done| |unfold zlen in Hlen; lia].
  2:{ rewrite Z.rem_mod_nonneg by (unfold MaxEventsToKeep in *; lia). by apply Z.mod_pos_bound. }
  rewrite app_nil_l, Z.rem_mod_nonneg by (unfold MaxEventsToKeep in *; lia).
  rewrite <- window_back by lia. unfold ztake. by rewrite Hlen.
Qed.

(** *** The history of a service *)

Fixpoint push_all (ev : ServiceEvents) (l : list ServiceEvent) : outcome Empty_set ServiceEvents :=
  match l with
  | [] => Ok ev
  | e :: l => ev ← Push ev e; push_all ev l
  end.

Definition visible (e : ServiceEvent) : Prop := e.(Message) ≠ ""%string.
#[export] Instance visible_dec e : Decision (visible e).
Proof. unfold visible. apply _. Defined.

(** What has been pushed, behind the slots nothing was written to yet. *)
Definition slots (l : list ServiceEvent) : list ServiceEvent :=
  replicate (Z.to_nat MaxEventsToKeep) zero_event ++ l.

Definition evicted (l : list ServiceEvent) : list ServiceEvent := ztake (zlen l - MaxEventsToKeep) l.

Lemma push_all_app ev l e :
  push_all ev (l ++ [e]) = (ev ← push_all ev l; Push ev e).
Proof.
  revert ev. induction l as [|x l IH]; intros ev; cbn [push_all app].
  - cbn [mbind outcome_bind]. by destruct (Push ev e) as [| |].
  - destruct (Push ev x) as [ev'|[]|r]; cbn [mbind outcome_bind]; [apply IH|done].
Qed.

Lemma evicted_snoc l e :
  filter visible (evicted (l ++ [e])) =
  filter visible (evicted l) ++
  from_option (λ old, if bool_decide (old.(Message) = ""%string) then [] else [old]) [] (slots l !! length l).
Proof.
  unfold evicted, slots, ztake. autorewrite with zlen.
  assert (length (replicate (Z.to_nat MaxEventsToKeep) zero_event) = 64%nat) as Hr by by rewrite length_replicate.
  change MaxEventsToKeep with 64 in *. destruct (decide (length l < 64)%nat) as [Hlt|Hge].
  - replace (Z.to_nat (zlen l + (1 + 0) - 64)) with O by (unfold zlen; lia).
    replace (Z.to_nat (zlen l - 64)) with O by (unfold zlen; lia).
    rewrite lookup_app_l by lia. by rewrite lookup_replicate_2 by lia.
  - rewrite lookup_app_r, Hr by lia.
    replace (Z.to_nat (zlen l + (1 + 0) - 64)) with (S (length l - 64)) by (unfold zlen; lia).
    replace (Z.to_nat (zlen l - 64)) with (length l - 64)%nat by (unfold zlen; lia).
    destruct (lookup_lt_is_Some_2 l (length l - 64)) as [old Hold]; [lia|]. rewrite Hold. simpl.
    rewrite take_app_le by lia. rewrite (take_S_r _ _ old) by done. rewrite filter_app. f_equal.
    rewrite filter_cons, filter_nil. unfold visible. case_bool_decide as Hm.
    + by rewrite decide_False by (intros []; done).
    + by rewrite decide_True.
Qed.

Lemma push_all_window l :
  ∃ ev buf, push_all no_events l = Ok ev ∧ ring_ok ev buf ∧ (l ≠ [] → ev.(events) = Some buf) ∧
    window buf ev.(pos) = drop (length l) (slots l) ∧
    ev.(discarded) = u64 (zlen (filter visible (evicted l))).
Proof.
  induction l as [|e l IH] using rev_ind.
  { exists no_events, (replicate (Z.to_nat MaxEventsToKeep) zero_event). split; [done|].
    split; [by split|]. split; [done|]. by split. }
  destruct IH as (ev & buf & Hpush & Hok & _ & Hw & Hd).
  destruct (Push_window ev buf e Hok) as (ev' & buf' & old & Hp & Hok' & Hev' & Hhead & Hw' & Hd').
  exists ev', buf'. rewrite push_all_app, Hpush. cbn [mbind outcome_bind]. split; [done|].
  split; [done|]. split; [done|].
  assert (slots l !! length l = Some old) as Hold
    by (rewrite <- (Nat.add_0_r (length l)), <- lookup_drop, <- Hw; by rewrite <- head_lookup).
  split.
  - rewrite Hw', Hw. rewrite length_app, Nat.add_1_r. unfold slots in *. rewrite app_assoc.
    rewrite (drop_app_le _ [e]) by (rewrite length_app, length_replicate; unfold MaxEventsToKeep; lia).
    f_equal. by rewrite (drop_S _ old).
  - rewrite Hd', Hd, evicted_snoc, Hold. simpl. case_bool_decide; [by rewrite app_nil_r|].
    rewrite zlen_app, zlen_cons, zlen_nil. unfold u64. rewrite Zplus_mod_idemp_l. f_equal.
Qed.

Lemma last_n_slots n l :
  0 ≤ n ≤ MaxEventsToKeep →
  filter visible (last_n n (drop (length l) (slots l))) = filter visible (last_n n l).
Proof.
  intros Hn. unfold last_n, slots.
  assert (length (replicate (Z.to_nat MaxEventsToKeep) zero_event) = 64%nat) as Hr by by rewrite length_replicate.
  change MaxEventsToKeep with 64 in *. unfold zdrop at 1. rewrite drop_drop.
  assert (zlen (drop (length l) (replicate (Z.to_nat 64) zero_event ++ l)) = 64) as ->
    by (unfold zlen; rewrite length_drop, length_app, Hr; lia).
  destruct (Z.le_gt_cases n (zlen l)) as [Hle|Hgt].
  - rewrite drop_app_ge by (rewrite Hr; unfold zlen in *; lia). rewrite Hr. unfold zdrop.
    do 2 f_equal. unfold zlen in *. lia.
  - rewrite drop_app_le by (rewrite Hr; unfold zlen in *; lia).
    rewrite filter_app. unfold zdrop. replace (Z.to_nat (zlen l - n)) with O by lia. rewrite drop_0.
    rewrite drop_replicate. generalize (Z.to_nat 64 - (length l + Z.to_nat (64 - n)))%nat as k.
    intros k. by induction k.
Qed.

(** The event history of a service: whatever is pushed, [Push] and [Get] never
    panic; [Get] returns the most recent [min(count, 64)] pushed events in order, less
    those with an empty message, and [discarded] counts (modulo 2^64) the events with a
    message that were pushed out. *)
Theorem history_keeps_latest l count :
  ∃ ev, push_all no_events l = Ok ev ∧
    Get ev count = Ok (filter visible (last_n (Z.max 0 (Z.min count MaxEventsToKeep)) l)) ∧
    ev.(discarded) = u64 (zlen (filter visible (evicted l))).
Proof.
  destruct (push_all_window l) as (ev & buf & Hp & Hok & Hev & Hw & Hd).
  exists ev. split; [done|]. split; [|done].
  destruct (decide (l = [])) as [->|Hl].
  - injection Hp as <-. unfold Get, no_events, last_n, zdrop. cbn [events].
    by rewrite drop_nil.
  - rewrite (Get_window ev buf) by auto. f_equal.
    rewrite Hw. apply (last_n_slots _ l). unfold MaxEventsToKeep. lia.
Qed.
