(* ===== verification/ServiceRunner.v ===== *)
(** * System services: the runner of one service

    [internal/app/machined/pkg/system/service_runner.go] and [service_events.go]: the
    state of a service, its subscribers, the health goroutines, and [Run], the life of
    a service from [Starting] to a terminal state.

    Goroutines are explicit: what the runner's process reports, the health checks and
    the deliveries of health changes are a sequence of [activity] that [run] is given,
    in any interleaving.  Channels of capacity one without data are tokens in a set;
    sending to a full one is dropped, as [select] with [default] does. *)

From S2P Require Import Prelude ServiceEvents.

Inductive StateEvent := StateEventUp | StateEventDown | StateEventFinished.
#[export] Instance StateEvent_eq_dec : EqDecision StateEvent.
Proof. solve_decision. Defined.

(** The [Service] interface as far as the runner asks it: identity, dependencies,
    volumes, and which optional interfaces it implements ([HealthcheckedService]; for
    the API ones, their answer). *)
Record Service := {
  ID : string;
  DependsOn : list string;
  Volumes : list string;
  Healthchecked : bool;
  APIStartAllowed : option bool;
  APIStopAllowed : option bool;
  APIRestartAllowed : option bool
}.

(** The calls [Run] makes on the service and its runner, for the order theorems. *)
Inductive hook :=
  | HookPre | HookRunner | HookOpen | HookStop | HookClose
  | HookPost (state : ServiceState) | HookVolumes.

Record ServiceRunner := {
  service : Service;
  state : ServiceState;
  history : ServiceEvents;
  healthState : Health.State;
  stateSubscribers : StateEvent → list Z;
  stopCh : bool;
  (** channels of waiters that hold a notification *)
  notified : gset Z;
  (** the health changes buffered for the running service *)
  pending : list Health.StateChange;
  hooks : list hook;
  now : Z
}.

Definition health_init : Health.State :=
  {| Health.status := {| Health.Healthy := None; Health.LastChange := 0; Health.LastMessage := "" |};
     Health.subscribers := [] |}.

Definition NewServiceRunner (service : Service) : ServiceRunner :=
  {| service := service; state := StateInitialized; history := no_events;
     healthState := health_init; stateSubscribers := λ _, []; stopCh := false;
     notified := ∅; pending := []; hooks := []; now := 0 |}.

Definition GetState (r : ServiceRunner) : ServiceState := r.(state).

(** [inStateLocked]; the panic of its default case needs an event that is none of the
    three constants. *)
Definition inStateLocked (r : ServiceRunner) (event : StateEvent) : bool :=
  match event with
  | StateEventUp =>
      match r.(state) with
      | StateSkipped | StateFinished => true
      | StateRunning =>
          negb r.(service).(Healthchecked)
          || bool_decide ((Health.Get r.(healthState)).(Health.Healthy) = Some true)
      | _ => false
      end
  | StateEventDown =>
      match r.(state) with
      | StateFailed | StateFinished | StateSkipped => true
      | _ => false
      end
  | StateEventFinished => bool_decide (r.(state) = StateFinished)
  end.

Definition notifyEvent (event : StateEvent) (r : ServiceRunner) : ServiceRunner :=
  {| service := r.(service); state := r.(state); history := r.(history);
     healthState := r.(healthState); stateSubscribers := r.(stateSubscribers);
     stopCh := r.(stopCh);
     notified := list_to_set (r.(stateSubscribers) event) ∪ r.(notified);
     pending := r.(pending); hooks := r.(hooks); now := r.(now) |}.

Definition push_event (newstate : ServiceState) (ev : ServiceEvents) (r : ServiceRunner) : ServiceRunner :=
  {| service := r.(service); state := newstate; history := ev;
     healthState := r.(healthState); stateSubscribers := r.(stateSubscribers);
     stopCh := r.(stopCh); notified := r.(notified); pending := r.(pending);
     hooks := r.(hooks); now := r.(now) |}.

Definition with_health (h : Health.State) (p : list Health.StateChange) (r : ServiceRunner) : ServiceRunner :=
  {| service := r.(service); state := r.(state); history := r.(history);
     healthState := h; stateSubscribers := r.(stateSubscribers);
     stopCh := r.(stopCh); notified := r.(notified); pending := p;
     hooks := r.(hooks); now := r.(now) |}.

Definition with_subscribers (event : StateEvent) (l : list Z) (r : ServiceRunner) : ServiceRunner :=
  {| service := r.(service); state := r.(state); history := r.(history);
     healthState := r.(healthState);
     stateSubscribers := λ e, if bool_decide (e = event) then l else r.(stateSubscribers) e;
     stopCh := r.(stopCh); notified := r.(notified); pending := r.(pending);
     hooks := r.(hooks); now := r.(now) |}.

Definition with_notified (n : gset Z) (r : ServiceRunner) : ServiceRunner :=
  {| service := r.(service); state := r.(state); history := r.(history);
     healthState := r.(healthState); stateSubscribers := r.(stateSubscribers);
     stopCh := r.(stopCh); notified := n; pending := r.(pending);
     hooks := r.(hooks); now := r.(now) |}.

Definition with_stop (b : bool) (r : ServiceRunner) : ServiceRunner :=
  {| service := r.(service); state := r.(state); history := r.(history);
     healthState := r.(healthState); stateSubscribers := r.(stateSubscribers);
     stopCh := b; notified := r.(notified); pending := r.(pending);
     hooks := r.(hooks); now := r.(now) |}.

Definition with_hook (h : hook) (r : ServiceRunner) : ServiceRunner :=
  {| service := r.(service); state := r.(state); history := r.(history);
     healthState := r.(healthState); stateSubscribers := r.(stateSubscribers);
     stopCh := r.(stopCh); notified := r.(notified); pending := r.(pending);
     hooks := r.(hooks) ++ [h]; now := r.(now) |}.

(** The error a run ends with: [ErrSkip], or a text. *)
Inductive run_error := ErrSkip | ErrText (msg : string).

Abbreviation R := (prog ServiceRunner run_error).

(** The events that hold, as [inStateLocked] has them. *)
Definition held_events (r : ServiceRunner) : list StateEvent :=
  filter (λ e, inStateLocked r e = true) [StateEventUp; StateEventDown; StateEventFinished].
Definition notify_all (events : list StateEvent) : R () := for_each (λ e, modify (notifyEvent e)) events.

(** [UpdateState]: the message is the formatted one.  The part under the lock, with the
    events that hold then; the notifications are sent after it. *)
Definition set_state (newstate : ServiceState) (message : string) : R (list StateEvent) :=
  r ← get;
  let event := {| Message := message; State := newstate;
                  EventHealth := {| Health.Healthy := None; Health.LastChange := 0;
                                    Health.LastMessage := "" |};
                  Timestamp := r.(now) |} in
  ev ← lift (Push r.(history) event);
  _ ← modify (push_event newstate ev);
  r ← get;
  mret (held_events r).
Definition UpdateState (newstate : ServiceState) (message : string) : R () :=
  held ← set_state newstate message;
  notify_all held.

(** [healthUpdate], in the same two parts. *)
Definition record_health (change : Health.StateChange) : R (list StateEvent) :=
  r ← get;
  if negb (bool_decide (r.(state) = StateRunning)) then mret []
  else
    match change.(Health.New).(Health.Healthy) with
    | None => lift (Panic NilDereference)
    | Some healthy =>
        let message :=
          if healthy then "Health check successful"%string
          else ("Health check failed: " +:+ change.(Health.New).(Health.LastMessage))%string in
        let event := {| Message := message; State := r.(state); EventHealth := change.(Health.New);
                        Timestamp := r.(now) |} in
        ev ← lift (Push r.(history) event);
        _ ← modify (push_event r.(state) ev);
        r ← get;
        mret (if inStateLocked r StateEventUp then [StateEventUp] else [])
    end.
Definition healthUpdate (change : Health.StateChange) : R () :=
  held ← record_health change;
  notify_all held.

Definition GetEventHistory (count : Z) (r : ServiceRunner) : outcome Empty_set (list ServiceEvent) :=
  Get r.(history) count.

(** *** Waiting for a condition

    [descriptions] are the texts [condition.String] gives at the call and at each tick
    until [condition.Wait] returns [err]. *)
Fixpoint wait_ticks (description : string) (descriptions : list string) : R () :=
  match descriptions with
  | [] => mret ()
  | newDescription :: descriptions =>
      if negb (bool_decide (newDescription = description)) && negb (bool_decide (newDescription = ""%string))
      then
        _ ← UpdateState StateWaiting ("Waiting for " +:+ newDescription)%string;
        wait_ticks newDescription descriptions
      else wait_ticks description descriptions
  end.

Definition waitFor (description : string) (descriptions : list string) (err : option string)
    : R (option string) :=
  _ ← UpdateState StateWaiting ("Waiting for " +:+ description)%string;
  _ ← wait_ticks description descriptions;
  mret err.

(** *** Running the process *)

(** What happens concurrently while the process runs: the process reports a state, a
    health check finishes, the buffered health change is consumed. *)
Inductive activity :=
  | Report (s : ServiceState) (msg : string)
  | Check (healthy : bool) (msg : string)
  | Deliver.

(** The health changes are sent to the channel of this runner when it is subscribed; it
    has room for two. *)
Definition notifyCh : Z := 0.

(** [State.Update]: the part under its lock, with the changes to send to that channel, and
    the sends. *)
Definition health_mark (healthy : bool) (msg : string) (r : ServiceRunner) : ServiceRunner * list Health.StateChange :=
  let '(h, sent) := Health.Update r.(now) healthy msg r.(healthState) in
  (with_health h r.(pending) r, Health.sent_to notifyCh sent).
Definition health_send (changes : list Health.StateChange) (r : ServiceRunner) : ServiceRunner :=
  with_health r.(healthState) (firstn 2 (r.(pending) ++ changes)) r.
Definition health_set (healthy : bool) (msg : string) (r : ServiceRunner) : ServiceRunner :=
  let '(r, changes) := health_mark healthy msg r in health_send changes r.

Definition act (a : activity) : R () :=
  r ← get;
  match a with
  | Report s msg =>
      _ ← UpdateState s msg;
      if r.(service).(Healthchecked) && negb (bool_decide (s = StateRunning))
      then modify (health_set false "service not running") else mret ()
  | Check healthy msg =>
      if r.(service).(Healthchecked) then modify (health_set healthy msg) else mret ()
  | Deliver =>
      match r.(pending) with
      | [] => mret ()
      | change :: rest =>
          _ ← modify (with_health r.(healthState) rest);
          healthUpdate change
      end
  end.

(** What happens while [run] waits for the health goroutines: somebody asks the service to
    stop, a goroutine goes on with its work, or sees that the context is done. *)
Inductive late := StopRequest | LateAct (a : activity) | CheckerDone | ConsumerDone.

(** What the environment answers during one run. *)
Record RunEnv := {
  EnvCondition : bool;                    (** [service.Condition] is not nil *)
  EnvDescription : string;
  EnvDescriptions : list string;
  EnvWait : option string;
  EnvPre : option string;
  EnvRunner : string + bool;              (** an error, or whether a runner was made *)
  EnvOpen : option string;
  EnvActivity : list activity;
  EnvCancelled : bool;                    (** the stop request wins over the process' end *)
  EnvStop : option string;
  EnvRun : option string;
  EnvLater : list late;                   (** after the process' end *)
  EnvPost : ServiceState → option string;
  EnvCleanup : option string
}.

Definition fail_with (prefix : string) (err : option string) : R () :=
  match err with
  | Some e => throw (ErrText (prefix +:+ e)%string)
  | None => mret ()
  end.

(** The health goroutines start ([Init] by the checker, [Subscribe] by [run] with a new
    channel), and end. *)
Definition health_start (r : ServiceRunner) : ServiceRunner :=
  if r.(service).(Healthchecked)
  then with_health (Health.Subscribe notifyCh (Health.Init r.(now) r.(healthState))) [] r
  else r.

Definition health_end (r : ServiceRunner) : ServiceRunner :=
  if r.(service).(Healthchecked)
  then with_health (Health.Unsubscribe notifyCh r.(healthState)) r.(pending) r
  else r.

(** The context, and the two goroutines of the wait group: the checker ([health.Run]) and the
    consumer of health changes.  Each ends when it finds the context done in its [select];
    a stop request cancels the context. *)
Record health_group := { ctxDone : bool; checker : bool; consumer : bool }.
Definition health_group_of (env : RunEnv) (svc : Service) : health_group :=
  {| ctxDone := env.(EnvCancelled); checker := svc.(Healthchecked); consumer := svc.(Healthchecked) |}.
Definition group_step (a : late) (g : health_group) : health_group :=
  match a with
  | StopRequest => {| ctxDone := true; checker := g.(checker); consumer := g.(consumer) |}
  | LateAct _ => g
  | CheckerDone => {| ctxDone := g.(ctxDone); checker := g.(checker) && negb g.(ctxDone); consumer := g.(consumer) |}
  | ConsumerDone => {| ctxDone := g.(ctxDone); checker := g.(checker); consumer := g.(consumer) && negb g.(ctxDone) |}
  end.
Definition group_ended (g : health_group) : bool := negb g.(checker) && negb g.(consumer).
Definition late_act (g : health_group) (a : late) : R () :=
  match a with
  | LateAct (Check healthy msg) => if g.(checker) then act (Check healthy msg) else mret ()
  | LateAct Deliver => if g.(consumer) then act Deliver else mret ()
  | _ => mret ()
  end.
(** [healthWg.Wait()]: it returns when both have ended, and blocks when nothing more happens
    before that. *)
Fixpoint health_wait (g : health_group) (later : list late) : R () :=
  if group_ended g then mret ()
  else
    match later with
    | [] => lift (Panic Blocks)
    | a :: later => _ ← late_act g a; health_wait (group_step a g) later
    end.

(** [ServiceRunner.run] on a runner that is not nil. *)
Definition run (env : RunEnv) : R () :=
  _ ← modify (with_hook HookOpen);
  _ ← fail_with "error opening runner: " env.(EnvOpen);
  with_defer (modify (with_hook HookClose))
    (_ ← modify health_start;
     with_defer (_ ← modify health_end; r ← get; health_wait (health_group_of env r.(service)) env.(EnvLater))
       (_ ← for_each act env.(EnvActivity);
        if env.(EnvCancelled) then
          _ ← modify (with_hook HookStop);
          fail_with "error stopping service: " env.(EnvStop)
        else fail_with "error running service: " env.(EnvRun))).

(** Prefix the text of an error, as [fmt.Errorf("...: %w", err)] does. *)
Definition wrap_error {A} (prefix : string) (c : R A) : R A := λ r,
  match c r with
  | Ok (r, inl (ErrText m)) => Ok (r, inl (ErrText (prefix +:+ m)%string))
  | res => res
  end.

Definition report_failure (prefix : string) (err : option string) : R () :=
  match err with
  | Some e => UpdateState StateFailed (prefix +:+ e)%string
  | None => mret ()
  end.

(** The two deferred functions of [Run]. *)
Definition run_post (env : RunEnv) : R () :=
  r ← get;
  let state := GetState r in
  _ ← modify (with_hook (HookPost state));
  report_failure "Failed to run post stage: " (env.(EnvPost) state).

Definition run_cleanup (env : RunEnv) (svc : Service) : R () :=
  if bool_decide (svc.(Volumes) = []) then mret ()
  else
    _ ← modify (with_hook HookVolumes);
    report_failure "Failed to clean up volumes: " env.(EnvCleanup).

Definition has_condition (env : RunEnv) (svc : Service) : bool :=
  env.(EnvCondition) || negb (bool_decide (svc.(DependsOn) = []))
  || negb (bool_decide (svc.(Volumes) = [])).

(** The part of [Run] behind the first state update: waiting, then the pre stage, the
    creation of the runner, and the process inside the deferred post stage. *)
Definition run_stages (env : RunEnv) (svc : Service) : R () :=
  _ ← (if has_condition env svc then
         err ← waitFor env.(EnvDescription) env.(EnvDescriptions) env.(EnvWait);
         fail_with "condition failed: " err
       else mret ());
  _ ← UpdateState StatePreparing "Running pre state";
  _ ← modify (with_hook HookPre);
  _ ← fail_with "failed to run pre stage: " env.(EnvPre);
  _ ← UpdateState StatePreparing "Creating service runner";
  _ ← modify (with_hook HookRunner);
  match env.(EnvRunner) with
  | inl e => throw (ErrText ("failed to create runner: " +:+ e)%string)
  | inr some_runner =>
      with_defer (run_post env)
        (if (some_runner : bool) then wrap_error "failed running service: " (run env)
         else throw ErrSkip)
  end.

Definition Run_rest (env : RunEnv) : R () :=
  r ← get;
  with_defer (run_cleanup env r.(service)) (run_stages env r.(service)).

Definition Run (env : RunEnv) : R () :=
  _ ← UpdateState StateStarting "Starting service";
  Run_rest env.

(** [strings.ToUpper(msg[:1]) + msg[1:]] on an ASCII first byte. *)
Definition capitalize (msg : string) : string :=
  match msg with
  | EmptyString => EmptyString
  | String c rest =>
      let n := Ascii.nat_of_ascii c in
      String (if bool_decide (97 ≤ n ∧ n ≤ 122)%nat then Ascii.ascii_of_nat (n - 32) else c) rest
  end.

(** What [Start] does with the result of [Run]. *)
Definition finish (res : run_error + ()) : R () :=
  match res with
  | inr _ => UpdateState StateFinished "Service finished successfully"
  | inl ErrSkip => UpdateState StateSkipped "Service skipped"
  | inl (ErrText msg) => UpdateState StateFailed (capitalize msg)
  end.

(** The goroutine of [Start] for one service, behind the first state update. *)
Definition goroutine_rest (env : RunEnv) : R () := λ r,
  match Run_rest env r with
  | Ok (r, res) => finish res r
  | Err e => match e with end
  | Panic p => Panic p
  end.

Definition Shutdown (r : ServiceRunner) : ServiceRunner := with_stop true r.

(** [Subscribe] and [Unsubscribe]. *)
Definition Subscribe (event : StateEvent) (ch : Z) (r : ServiceRunner) : ServiceRunner :=
  if inStateLocked r event then with_notified ({[ch]} ∪ r.(notified)) r
  else with_subscribers event (r.(stateSubscribers) event ++ [ch]) r.

Definition Unsubscribe (event : StateEvent) (ch : Z) (r : ServiceRunner) : ServiceRunner :=
  with_subscribers event (unsubscribe (r.(stateSubscribers) event) ch) r.

(** [AsProto]: id, state, events and health. *)
Definition AsProto (r : ServiceRunner)
    : outcome Empty_set (string * string * list (string * string * Z) * (option bool * string)) :=
  evs ← ServiceEvents.AsProto r.(history) MaxEventsToKeep;
  let h := Health.Get r.(healthState) in
  Ok (r.(service).(ID), ServiceState_String r.(state), evs, (h.(Health.Healthy), h.(Health.LastMessage))).

(** ** Invariant and the effect of an update *)

(** The history is a ring, and the buffered health changes carry a verdict. *)
Record runner_ok (r : ServiceRunner) : Prop := {
  ok_ring : ∃ buf, ring_ok r.(history) buf;
  ok_pending : Forall (λ c, is_Some c.(Health.New).(Health.Healthy)) r.(pending)
}.

Lemma ring_ok_new : ring_ok no_events (replicate (Z.to_nat MaxEventsToKeep) zero_event).
Proof. by split. Qed.

Lemma runner_ok_new svc : runner_ok (NewServiceRunner svc).
Proof. split; [eexists; apply ring_ok_new|constructor]. Qed.

(** [r'] is [r] in state [st] with the waiters of the events that hold notified; nothing
    but the history differs otherwise. *)
Record updated (st : ServiceState) (r r' : ServiceRunner) : Prop := {
  upd_ok : runner_ok r';
  upd_state : r'.(state) = st;
  upd_service : r'.(service) = r.(service);
  upd_health : r'.(healthState) = r.(healthState);
  upd_subs : r'.(stateSubscribers) = r.(stateSubscribers);
  upd_stop : r'.(stopCh) = r.(stopCh);
  upd_pending : r'.(pending) = r.(pending);
  upd_hooks : r'.(hooks) = r.(hooks);
  upd_mono : r.(notified) ⊆ r'.(notified);
  upd_notified e ch : inStateLocked r' e = true → ch ∈ r.(stateSubscribers) e → ch ∈ r'.(notified)
}.

Lemma notify_all_run events r : ∃ r', notify_all events r = Ok (r', inr ()) ∧
  r'.(state) = r.(state) ∧ r'.(service) = r.(service) ∧ r'.(history) = r.(history) ∧ r'.(healthState) = r.(healthState) ∧
  r'.(stateSubscribers) = r.(stateSubscribers) ∧ r'.(stopCh) = r.(stopCh) ∧ r'.(pending) = r.(pending) ∧ r'.(hooks) = r.(hooks) ∧
  ∀ ch, ch ∈ r'.(notified) ↔ ch ∈ r.(notified) ∨ ∃ e, e ∈ events ∧ ch ∈ r.(stateSubscribers) e.
Proof.
  revert r. induction events as [|e events IH]; intros r.
  { exists r. split_and!; try done. intros ch. split; [by left|]. by intros [|(e & He%not_elem_of_nil & _)]. }
  destruct (IH (notifyEvent e r)) as (r' & Hrun & H1 & H2 & H3 & H4 & H5 & H6 & H7 & H8 & Hn). exists r'.
  split_and!; try done. intros ch. rewrite Hn. cbn [notifyEvent notified stateSubscribers].
  setoid_rewrite elem_of_cons. rewrite elem_of_union, elem_of_list_to_set. naive_solver.
Qed.

Lemma held_events_spec r e : e ∈ held_events r ↔ inStateLocked r e = true.
Proof. unfold held_events. rewrite list_elem_of_filter. split; [by intros []|]. intros H. split; [done|]. destruct e; set_solver. Qed.

(** The state is changed, nothing else but the history. *)
Definition restated (st : ServiceState) (r r' : ServiceRunner) : Prop :=
  ∃ ev buf, ring_ok ev buf ∧ r' = push_event st ev r.
Lemma restated_ok st r r' : runner_ok r → restated st r r' → runner_ok r'.
Proof. intros [_ Hp] (ev & buf & Hr & ->). split; [by exists buf|done]. Qed.

Lemma set_state_spec st msg r : runner_ok r →
  returns (set_state st msg) r (λ r' res, restated st r r' ∧ res = inr (held_events r')).
Proof.
  intros [[buf Hring] _]. unfold set_state. prog_steps.
  match goal with |- context [Push _ ?e] =>
    destruct (Push_window r.(history) buf e Hring) as (ev & buf' & old & Hp & Hring' & _) end.
  apply (returns_lift _ ev); [done|]. prog_steps. split; [by exists ev, buf'|done].
Qed.
Lemma record_health_spec change r : runner_ok r → is_Some change.(Health.New).(Health.Healthy) →
  returns (record_health change) r (λ r' res, (restated r.(state) r r' ∨ r' = r) ∧ ∃ held, res = inr held ∧
    (r.(state) = StateRunning → inStateLocked r' StateEventUp = true → StateEventUp ∈ held) ∧ (length held ≤ 1)%nat).
Proof.
  intros [[buf Hring] _] [healthy Hh]. unfold record_health. prog_steps. case_bool_decide as Hrun; cbn [negb].
  2: { prog_steps. split; [by right|]. exists []. split; [done|]. split; [done|cbn; lia]. }
  rewrite Hh. prog_steps.
  match goal with |- context [Push _ ?e] =>
    destruct (Push_window r.(history) buf e Hring) as (ev & buf' & old & Hp & Hring' & _) end.
  apply (returns_lift _ ev); [done|]. prog_steps. split; [left; by exists ev, buf'|]. eexists. split; [done|].
  split; [intros _ ->; by left|]. destruct (inStateLocked _ _); cbn; lia.
Qed.

Lemma UpdateState_updated st msg r :
  runner_ok r → returns (UpdateState st msg) r (λ r' res, res = inr () ∧ updated st r r').
Proof.
  intros Hok. unfold UpdateState. apply returns_bind. eapply returns_mono; [|by apply set_state_spec].
  intros r1 ? [Hr ->]. pose proof (restated_ok _ _ _ Hok Hr) as [Hring Hp]. destruct Hr as (ev & buf & _ & ->).
  set (r1 := push_event st ev r) in *.
  destruct (notify_all_run (held_events r1) r1) as (r' & Hrun & Hst & Hsvc & Hhist & Hh & Hsubs & Hstop & Hpend & Hhooks & Hn).
  exists r', (inr ()). split; [done|]. split; [done|]. split; try done.
  - split; [by rewrite Hhist|by rewrite Hpend].
  - intros ch Hch. apply Hn. by left.
  - intros e ch He Hch. apply Hn. right. exists e. split; [|done]. apply held_events_spec.
    rewrite <- He. unfold inStateLocked. by rewrite Hst, Hsvc, Hh.
Qed.

(** Execute an [UpdateState] in a [returns] goal. *)
Ltac do_update r' Hu :=
  eapply returns_mono; [|apply UpdateState_updated; first [assumption | eauto with chubo]];
  cbv beta; intros r' ? [-> Hu]; cbv beta iota.

(** What an activity leaves alone. *)
Record acted (st : ServiceState) (r r' : ServiceRunner) : Prop := {
  act_ok : runner_ok r';
  act_state : r'.(state) = st;
  act_service : r'.(service) = r.(service);
  act_subs : r'.(stateSubscribers) = r.(stateSubscribers);
  act_hooks : r'.(hooks) = r.(hooks);
  act_mono : r.(notified) ⊆ r'.(notified)
}.

Lemma updated_acted st r r' : updated st r r' → acted st r r'.
Proof. intros []; by split. Qed.

Lemma healthUpdate_acted change r :
  runner_ok r → is_Some change.(Health.New).(Health.Healthy) →
  returns (healthUpdate change) r (λ r' res, res = inr () ∧ acted r.(state) r r' ∧
    r'.(pending) = r.(pending) ∧ r'.(healthState) = r.(healthState) ∧
    (inStateLocked r' StateEventUp = true → r.(state) = StateRunning →
     ∀ ch, ch ∈ r.(stateSubscribers) StateEventUp → ch ∈ r'.(notified))).
Proof.
  intros Hok Hc. unfold healthUpdate. apply returns_bind. eapply returns_mono; [|by apply record_health_spec].
  intros r1 ? (Hr & held & -> & Hup & _).
  assert (Hr1 : runner_ok r1 ∧ ∃ ev, r1 = push_event r.(state) ev r).
  { destruct Hr as [Hr| ->]; [split; [by eapply restated_ok|]; destruct Hr as (ev & buf & _ & ->); by eexists|].
    split; [done|]. exists r.(history). by destruct r. }
  clear Hr. destruct Hr1 as [[Hring Hp] [ev Hev]].
  destruct (notify_all_run held r1) as (r' & Hrun & Hst & Hsvc & Hhist & Hh & Hsubs & Hstop & Hpend & Hhooks & Hn).
  exists r', (inr ()). split; [done|]. split; [done|]. split.
  { split; try (by rewrite ?Hst, ?Hsvc, ?Hsubs, ?Hhooks, Hev).
    - split; [by rewrite Hhist|by rewrite Hpend].
    - intros ch Hch. apply Hn. left. by rewrite Hev. }
  split; [by rewrite Hpend, Hev|]. split; [by rewrite Hh, Hev|]. intros He Hrunning ch Hch. apply Hn. right.
  exists StateEventUp. split; [|by rewrite Hev]. apply Hup; [done|]. rewrite <- He. unfold inStateLocked. by rewrite Hst, Hsvc, Hh.
Qed.

Lemma health_set_pending healthy msg r :
  Forall (λ c, is_Some c.(Health.New).(Health.Healthy)) r.(pending) →
  Forall (λ c, is_Some c.(Health.New).(Health.Healthy)) (health_set healthy msg r).(pending).
Proof.
  intros Hp. unfold health_set, health_mark, Health.Update. simpl. apply Forall_take, Forall_app. split; [done|].
  destruct (negb _); [|constructor]. apply Forall_forall. intros c.
  unfold Health.sent_to. rewrite list_elem_of_fmap. intros (m & -> & Hm).
  apply list_elem_of_filter in Hm as [_ Hm]. apply list_elem_of_fmap in Hm as (ch & -> & _). by eexists.
Qed.

Lemma health_set_acted healthy msg r :
  runner_ok r → acted r.(state) r (health_set healthy msg r).
Proof.
  intros [Hring Hp]. pose proof (health_set_pending healthy msg r Hp) as Hpend. unfold health_set, health_mark in *.
  destruct (Health.Update r.(now) healthy msg r.(healthState)) as [h sent]. by split.
Qed.

(** The state an activity leaves behind. *)
Definition state_after (st : ServiceState) (a : activity) : ServiceState :=
  match a with Report s _ => s | _ => st end.

Lemma act_acted a r :
  runner_ok r → returns (act a) r (λ r' res, res = inr () ∧ acted (state_after r.(state) a) r r').
Proof.
  intros Hok. unfold act. prog_steps. destruct a as [s msg|healthy msg|]; cbn [state_after]; prog_steps.
  - do_update r1 Hu. apply updated_acted in Hu.
    destruct (_ && _); prog_steps; split; try done.
    pose proof (health_set_acted false "service not running" r1 (act_ok _ _ _ Hu)) as Ha.
    destruct Hu, Ha. split; try congruence. set_solver.
  - destruct (Healthchecked _); prog_steps; (split; [done|]); [by apply health_set_acted|by split].
  - destruct (pending r) as [|c rest] eqn:Hpend; prog_steps; [split; [done|by split]|].
    destruct Hok as [Hring Hp]. rewrite Hpend in Hp. apply Forall_cons in Hp as [Hc Hp].
    eapply returns_mono; [|apply healthUpdate_acted; [by split|done]].
    intros r' res (-> & Ha & _). split; [done|]. by destruct Ha; split.
Qed.

Lemma for_each_act acts r :
  runner_ok r →
  returns (for_each act acts) r (λ r' res, res = inr () ∧ acted (foldl state_after r.(state) acts) r r').
Proof.
  revert r. induction acts as [|a acts IH]; intros r Hok; cbn [for_each foldl].
  { prog_steps. split; [done|by split]. }
  prog_steps. eapply returns_mono; [|by apply act_acted]. intros r1 ? [-> Ha]. cbv beta iota.
  eapply returns_mono; [|apply IH; by destruct Ha]. intros r2 ? [-> Hb]. split; [done|].
  destruct Ha, Hb. split; try congruence. set_solver.
Qed.

(** ** The outcome of a run *)

(** From [r] to [r'] the calls [hs] were made, the state became [st], and no waiter lost
    its notification. *)
Record ran (st : ServiceState) (hs : list hook) (r r' : ServiceRunner) : Prop := {
  ran_ok : runner_ok r';
  ran_state : r'.(state) = st;
  ran_service : r'.(service) = r.(service);
  ran_subs : r'.(stateSubscribers) = r.(stateSubscribers);
  ran_hooks : r'.(hooks) = r.(hooks) ++ hs;
  ran_mono : r.(notified) ⊆ r'.(notified)
}.

#[export] Hint Resolve ran_ok act_ok upd_ok : chubo.

Lemma acted_ran st r r' : acted st r r' → ran st [] r r'.
Proof. intros []. split; try done. by rewrite app_nil_r. Qed.

Lemma updated_ran st r r' : updated st r r' → ran st [] r r'.
Proof. intros Hu. by apply acted_ran, updated_acted. Qed.

Lemma ran_refl r : runner_ok r → ran r.(state) [] r r.
Proof. intros. split; try done. by rewrite app_nil_r. Qed.

Lemma ran_trans st1 st2 h1 h2 r r1 r2 :
  ran st1 h1 r r1 → ran st2 h2 r1 r2 → ran st2 (h1 ++ h2) r r2.
Proof.
  intros [] []. split; try congruence; [|set_solver].
  rewrite ran_hooks1, ran_hooks0. by rewrite app_assoc.
Qed.

Lemma hook_ran h r : runner_ok r → ran r.(state) [h] r (with_hook h r).
Proof. intros []. by split. Qed.

Lemma with_health_ran h p r :
  runner_ok r → Forall (λ c, is_Some c.(Health.New).(Health.Healthy)) p →
  ran r.(state) [] r (with_health h p r).
Proof. intros [] ?. split; try done. simpl. by rewrite app_nil_r. Qed.

(** What the environment's answers mean. *)
Definition result_of (prefix : string) (err : option string) : run_error + () :=
  match err with Some e => inl (ErrText (prefix +:+ e)%string) | None => inr () end.

Definition process_result (env : RunEnv) : run_error + () :=
  match env.(EnvOpen) with
  | Some e => inl (ErrText ("error opening runner: " +:+ e)%string)
  | None =>
      if env.(EnvCancelled) then result_of "error stopping service: " env.(EnvStop)
      else result_of "error running service: " env.(EnvRun)
  end.

Definition process_hooks (env : RunEnv) : list hook :=
  HookOpen :: match env.(EnvOpen) with
              | Some _ => []
              | None => (if env.(EnvCancelled) then [HookStop] else []) ++ [HookClose]
              end.

Definition process_state (env : RunEnv) : ServiceState :=
  match env.(EnvOpen) with
  | Some _ => StatePreparing
  | None => foldl state_after StatePreparing env.(EnvActivity)
  end.

Definition condition_error (env : RunEnv) (svc : Service) : option string :=
  if has_condition env svc then env.(EnvWait) else None.

Definition prefixed (prefix : string) (res : run_error + ()) : run_error + () :=
  match res with inl (ErrText m) => inl (ErrText (prefix +:+ m)%string) | _ => res end.

(** The error [Run] returns, and the calls it makes, in order. *)
Definition run_result (env : RunEnv) (svc : Service) : run_error + () :=
  match condition_error env svc, env.(EnvPre), env.(EnvRunner) with
  | Some e, _, _ => inl (ErrText ("condition failed: " +:+ e)%string)
  | None, Some e, _ => inl (ErrText ("failed to run pre stage: " +:+ e)%string)
  | None, None, inl e => inl (ErrText ("failed to create runner: " +:+ e)%string)
  | None, None, inr false => inl ErrSkip
  | None, None, inr true => prefixed "failed running service: " (process_result env)
  end.

Definition run_hooks (env : RunEnv) (svc : Service) : list hook :=
  match condition_error env svc, env.(EnvPre), env.(EnvRunner) with
  | Some _, _, _ => []
  | None, Some _, _ => [HookPre]
  | None, None, inl _ => [HookPre; HookRunner]
  | None, None, inr false => [HookPre; HookRunner; HookPost StatePreparing]
  | None, None, inr true =>
      [HookPre; HookRunner] ++ process_hooks env ++ [HookPost (process_state env)]
  end ++ (if bool_decide (svc.(Volumes) = []) then [] else [HookVolumes]).

Definition terminal_state (res : run_error + ()) : ServiceState :=
  match res with
  | inr _ => StateFinished
  | inl ErrSkip => StateSkipped
  | inl (ErrText _) => StateFailed
  end.

Lemma fail_with_returns prefix err r (Q : ServiceRunner → run_error + () → Prop) :
  Q r (result_of prefix err) → returns (fail_with prefix err) r Q.
Proof. destruct err; simpl; intros; by prog_steps. Qed.

Lemma health_start_ran r : runner_ok r → ran r.(state) [] r (health_start r).
Proof.
  intros Hok. unfold health_start. destruct (Healthchecked _); [|by apply ran_refl].
  by apply with_health_ran.
Qed.

Lemma health_end_ran r : runner_ok r → ran r.(state) [] r (health_end r).
Proof.
  intros Hok. unfold health_end. destruct (Healthchecked _); [|by apply ran_refl].
  apply with_health_ran; [done|apply Hok].
Qed.

(** The health goroutines end: both of them find the context done, sooner or later. *)
Fixpoint group_ends (g : health_group) (later : list late) : bool :=
  group_ended g || match later with [] => false | a :: later => group_ends (group_step a g) later end.
Definition unblocked (env : RunEnv) (svc : Service) : bool := group_ends (health_group_of env svc) env.(EnvLater).

Lemma late_act_acted g a r :
  runner_ok r → returns (late_act g a) r (λ r' res, res = inr () ∧ acted r.(state) r r').
Proof.
  intros Hok. assert (Hid : acted r.(state) r r) by by split.
  unfold late_act. destruct a as [|[s msg|healthy msg|]| |]; try by apply returns_ret.
  - destruct (checker g); [by apply (act_acted (Check healthy msg))|by apply returns_ret].
  - destruct (consumer g); [by apply (act_acted Deliver)|by apply returns_ret].
Qed.
Lemma health_wait_returns later : ∀ g r, runner_ok r → group_ends g later = true →
  returns (health_wait g later) r (λ r' res, res = inr () ∧ acted r.(state) r r').
Proof.
  induction later as [|a later IH]; intros g r Hok He; cbn [health_wait group_ends] in *.
  - rewrite orb_false_r in He. rewrite He. apply returns_ret. split; [done|by split].
  - destruct (group_ended g) eqn:Hg; [apply returns_ret; split; [done|by split]|].
    apply returns_bind. eapply returns_mono; [|by apply late_act_acted]. intros r1 ? [-> H1].
    eapply returns_mono; [|apply IH; [apply H1|done]]. intros r2 ? [-> H2]. split; [done|].
    destruct H1, H2. split; try congruence. set_solver.
Qed.
(** Without a stop request they never end. *)
Lemma health_wait_blocks later : ∀ g r, runner_ok r → g.(ctxDone) = false → group_ended g = false → StopRequest ∉ later →
  health_wait g later r = Panic Blocks.
Proof.
  induction later as [|a later IH]; intros g r Hok Hc Hg Hstop; cbn [health_wait]; rewrite Hg; [done|].
  apply not_elem_of_cons in Hstop as [Ha Hstop]. destruct (late_act_acted g a r Hok) as (r1 & ? & Hrun & -> & H1).
  erewrite prog_bind_Ok by done. assert (group_step a g = g) as ->.
  { destruct g as [c k n]. cbn in Hc. subst c. destruct a; [done|done|cbn; by rewrite andb_true_r|cbn; by rewrite andb_true_r]. }
  apply IH; [apply H1|done..].
Qed.

Lemma run_ran env r :
  runner_ok r → r.(state) = StatePreparing → unblocked env r.(service) = true →
  returns (run env) r (λ r' res, ran (process_state env) (process_hooks env) r r' ∧ res = process_result env).
Proof.
  intros Hok Hst Hun. unfold run, process_state, process_hooks, process_result. prog_steps.
  pose proof (hook_ran HookOpen r Hok) as H1. set (r1 := with_hook HookOpen r) in *.
  apply fail_with_returns. destruct (EnvOpen env) as [e|]; simpl; [by rewrite <- Hst|].
  prog_steps.
  pose proof (health_start_ran r1 (ran_ok _ _ _ _ H1)) as H2.
  eapply returns_mono; [|apply for_each_act; by destruct H2].
  intros r3 ? [-> H3%acted_ran]. cbv beta iota.
  rewrite (ran_state _ _ _ _ H2) in H3. change (state r1) with (state r) in H3. rewrite Hst in H3.
  pose proof (ran_trans _ _ _ _ _ _ _ H1 (ran_trans _ _ _ _ _ _ _ H2 H3)) as H13. cbn [app] in H13.
  assert (Hwait : ∀ st hs r', ran st hs r r' →
    returns (_ ← modify health_end; r ← get; health_wait (health_group_of env r.(service)) env.(EnvLater)) r'
      (λ r'' res, ran st (hs ++ [HookClose]) r (with_hook HookClose r'') ∧ res = inr ())).
  { intros st hs r' Hr. pose proof (health_end_ran r' (ran_ok _ _ _ _ Hr)) as H5. prog_steps.
    eapply returns_mono; [|apply health_wait_returns; [apply H5|]].
    2: { by rewrite (ran_service _ _ _ _ H5), (ran_service _ _ _ _ Hr). }
    intros r'' ? [-> H6%acted_ran]. split; [|done].
    pose proof (hook_ran HookClose _ (ran_ok _ _ _ _ H6)) as H7.
    pose proof (ran_trans _ _ _ _ _ _ _ (ran_trans _ _ _ _ _ _ _ Hr (ran_trans _ _ _ _ _ _ _ H5 H6)) H7) as H8.
    cbn [app] in H8. rewrite app_nil_r in H8. by rewrite (ran_state _ _ _ _ H6), (ran_state _ _ _ _ H5), (ran_state _ _ _ _ Hr) in H8. }
  destruct (EnvCancelled env) eqn:Hcan; prog_steps; apply fail_with_returns.
  - pose proof (hook_ran HookStop r3 (ran_ok _ _ _ _ H3)) as H4. rewrite (ran_state _ _ _ _ H3) in H4.
    eapply returns_mono; [|apply Hwait, (ran_trans _ _ _ _ _ _ _ H13 H4)]. intros r5 ? [H5 ->]. prog_steps. by split.
  - eapply returns_mono; [|by apply Hwait]. intros r5 ? [H5 ->]. prog_steps. by split.
Qed.

Lemma wait_ticks_ran d ds r :
  runner_ok r → r.(state) = StateWaiting →
  returns (wait_ticks d ds) r (λ r' res, ran StateWaiting [] r r' ∧ res = inr ()).
Proof.
  revert d r. induction ds as [|d' ds IH]; intros d r Hok Hst; cbn [wait_ticks].
  { prog_steps. split; [|done]. rewrite <- Hst. by apply ran_refl. }
  destruct (_ && _); [|auto]. prog_steps. do_update r1 Hu. apply updated_ran in Hu.
  eapply returns_mono; [|apply IH; by destruct Hu]. intros r2 ? [H2 ->]. split; [|done].
  exact (ran_trans _ _ _ _ _ _ _ Hu H2).
Qed.

Lemma waitFor_ran d ds err r :
  runner_ok r →
  returns (waitFor d ds err) r (λ r' res, ran StateWaiting [] r r' ∧ res = inr err).
Proof.
  intros Hok. unfold waitFor. prog_steps. do_update r1 Hu. apply updated_ran in Hu. prog_steps.
  eapply returns_mono; [|apply wait_ticks_ran; by destruct Hu]. intros r2 ? [H2 ->]. prog_steps.
  split; [|done]. exact (ran_trans _ _ _ _ _ _ _ Hu H2).
Qed.

Lemma wrap_error_returns (prefix : string) (c : R ()) r Q :
  returns c r (λ r' res, Q r' (prefixed prefix res)) → returns (wrap_error prefix c) r Q.
Proof.
  intros (r' & res & Hc & HQ). unfold returns, wrap_error. rewrite Hc.
  destruct res as [[|m]|[]]; simpl in HQ; eauto.
Qed.

(** A state update of a deferred call. *)
Lemma report_failure_ran prefix msg r :
  runner_ok r → returns (report_failure prefix msg) r (λ r' _, ∃ st, ran st [] r r').
Proof.
  intros Hok. unfold report_failure. destruct msg; [|prog_steps; eexists; by apply ran_refl].
  do_update r1 Hu. eexists. by apply updated_ran.
Qed.

Lemma run_post_ran env st hs r r1 :
  ran st hs r r1 →
  returns (run_post env) r1 (λ r' _, ∃ st', ran st' (hs ++ [HookPost st]) r r').
Proof.
  intros H1. unfold run_post. prog_steps. unfold GetState.
  pose proof (hook_ran (HookPost r1.(state)) r1 (ran_ok _ _ _ _ H1)) as H2.
  eapply returns_mono; [|apply report_failure_ran; by destruct H2].
  intros r2 ? [st' H3]. exists st'. rewrite (ran_state _ _ _ _ H1) in H2, H3.
  pose proof (ran_trans _ _ _ _ _ _ _ H1 (ran_trans _ _ _ _ _ _ _ H2 H3)) as H4.
  by rewrite app_nil_r in H4.
Qed.

Lemma run_cleanup_ran env st hs r r1 :
  ran st hs r r1 →
  returns (run_cleanup env r.(service)) r1 (λ r' _, ∃ st',
    ran st' (hs ++ if bool_decide (r.(service).(Volumes) = []) then [] else [HookVolumes]) r r').
Proof.
  intros H1. unfold run_cleanup. case_bool_decide; prog_steps; [by exists st; rewrite app_nil_r|].
  pose proof (hook_ran HookVolumes r1 (ran_ok _ _ _ _ H1)) as H2.
  eapply returns_mono; [|apply report_failure_ran; by destruct H2].
  intros r2 ? [st' H3]. exists st'.
  pose proof (ran_trans _ _ _ _ _ _ _ H1 (ran_trans _ _ _ _ _ _ _ H2 H3)) as H4.
  by rewrite app_nil_r in H4.
Qed.

(** The wait for the conditions. *)
Lemma run_wait_ran env svc r :
  runner_ok r →
  returns (if has_condition env svc then
             err ← waitFor env.(EnvDescription) env.(EnvDescriptions) env.(EnvWait);
             fail_with "condition failed: " err
           else mret ()) r
    (λ r' res, ∃ st, ran st [] r r' ∧ res = result_of "condition failed: " (condition_error env svc)).
Proof.
  intros Hok. unfold condition_error. destruct (has_condition env svc).
  - prog_steps. eapply returns_mono; [|by apply waitFor_ran]. intros r1 ? [H1 ->]. cbv beta iota.
    apply fail_with_returns. by exists StateWaiting.
  - prog_steps. eexists. split; [by apply ran_refl|done].
Qed.

Definition stage_hooks (env : RunEnv) (svc : Service) : list hook :=
  match condition_error env svc, env.(EnvPre), env.(EnvRunner) with
  | Some _, _, _ => []
  | None, Some _, _ => [HookPre]
  | None, None, inl _ => [HookPre; HookRunner]
  | None, None, inr false => [HookPre; HookRunner; HookPost StatePreparing]
  | None, None, inr true =>
      [HookPre; HookRunner] ++ process_hooks env ++ [HookPost (process_state env)]
  end.

Lemma run_stages_ran env r :
  runner_ok r → unblocked env r.(service) = true →
  returns (run_stages env r.(service)) r (λ r' res,
    (∃ st, ran st (stage_hooks env r.(service)) r r') ∧ res = run_result env r.(service)).
Proof.
  intros Hok Hun. unfold run_stages, run_result, stage_hooks. prog_steps.
  eapply returns_mono; [|by apply run_wait_ran]. intros r1 ? (st1 & H1 & ->).
  destruct (condition_error env _) as [e|]; simpl; [by eauto|]. prog_steps.
  do_update r2 H2. apply updated_ran in H2. prog_steps.
  pose proof (ran_trans _ _ _ _ _ _ _ H1 H2) as H12. cbn [app] in H12.
  pose proof (hook_ran HookPre r2 (ran_ok _ _ _ _ H2)) as H3. set (r3 := with_hook _ r2) in *.
  pose proof (ran_trans _ _ _ _ _ _ _ H12 H3) as H13. cbn [app] in H13.
  apply fail_with_returns. destruct (EnvPre env) as [e|]; simpl; [by eauto|]. prog_steps.
  do_update r4 H4. apply updated_ran in H4. prog_steps.
  pose proof (hook_ran HookRunner r4 (ran_ok _ _ _ _ H4)) as H5. set (r5 := with_hook _ r4) in *.
  rewrite (ran_state _ _ _ _ H4) in H5.
  pose proof (ran_trans _ _ _ _ _ _ _ H13 (ran_trans _ _ _ _ _ _ _ H4 H5)) as H15. cbn [app] in H15.
  destruct (EnvRunner env) as [e|[]]; prog_steps; [by eauto| |].
  - apply wrap_error_returns. eapply returns_mono; [|apply run_ran; destruct H15; congruence].
    intros r6 res [H6 ->].
    pose proof (ran_trans _ _ _ _ _ _ _ H15 H6) as H16.
    eapply returns_mono; [|by eapply run_post_ran]. intros r7 ? [st' H7]. split; [|done].
    rewrite <- app_assoc in H7. eauto.
  - eapply returns_mono; [|by eapply run_post_ran]. intros r7 ? [st' H7]. eauto.
Qed.

Lemma run_hooks_stages env svc :
  run_hooks env svc = stage_hooks env svc ++ if bool_decide (svc.(Volumes) = []) then [] else [HookVolumes].
Proof. done. Qed.

(** C24: a started service ends, once its health goroutines do (which they do when there is no
    health check, or when the service was stopped and both see it; below
    is the other case).  Then, whatever else the environment answers and however reports,
    health checks and deliveries interleave, the goroutine of [Start] returns without a
    panic; the calls it makes on the service are exactly [run_hooks] (the pre stage only
    after the condition, the post stage exactly when a runner was created, after the
    process was closed and with the state it left, the volumes released last); and the
    service ends [Finished], [Skipped] or [Failed] as the error says, with everyone
    waiting for the events that hold then notified. *)
Theorem service_ends env r :
  runner_ok r → unblocked env r.(service) = true →
  ∃ r', goroutine_rest env r = Ok (r', inr ()) ∧ runner_ok r' ∧
    r'.(hooks) = r.(hooks) ++ run_hooks env r.(service) ∧
    r'.(state) = terminal_state (run_result env r.(service)) ∧
    inStateLocked r' StateEventDown = true ∧
    (∀ e ch, inStateLocked r' e = true → ch ∈ r.(stateSubscribers) e → ch ∈ r'.(notified)).
Proof.
  intros Hok Hun.
  assert (Hrun : returns (Run_rest env) r (λ r' res, (∃ st, ran st (run_hooks env r.(service)) r r')
    ∧ res = run_result env r.(service))).
  { unfold Run_rest. prog_steps. eapply returns_mono; [|by apply run_stages_ran].
    intros r1 res [[st H1] ->]. eapply returns_mono; [|by eapply run_cleanup_ran].
    intros r2 ? [st' H2]. rewrite <- run_hooks_stages in H2. eauto. }
  destruct Hrun as (r1 & res & Hrun & [st H1] & ->). unfold goroutine_rest. rewrite Hrun.
  assert (Hfin : returns (finish (run_result env r.(service))) r1 (λ r' res,
    res = inr () ∧ updated (terminal_state (run_result env r.(service))) r1 r')).
  { unfold finish. destruct (run_result _ _) as [[|m]|[]]; apply UpdateState_updated; by destruct H1. }
  destruct Hfin as (r2 & res & Hfin & -> & Hu). exists r2. split; [done|].
  destruct Hu, H1. split; [done|]. split; [congruence|]. split; [done|]. split.
  - simpl. rewrite upd_state0. by destruct (run_result _ _) as [[|m]|[]].
  - intros e ch He Hch. apply (upd_notified0 e ch He). by rewrite ran_subs0.
Qed.

Definition quiet_env : RunEnv := {|
  EnvCondition := false; EnvDescription := ""; EnvDescriptions := []; EnvWait := None;
  EnvPre := None; EnvRunner := inr true; EnvOpen := None;
  EnvActivity := [Report StateRunning "Process started"]; EnvCancelled := false; EnvStop := None;
  EnvRun := None; EnvLater := []; EnvPost := λ _, None; EnvCleanup := None |}.

Definition plain_service (id : string) (deps : list string) : Service := {|
  ID := id; DependsOn := deps; Volumes := []; Healthchecked := false;
  APIStartAllowed := None; APIStopAllowed := None; APIRestartAllowed := None |}.

Lemma service_ends_witness :
  let r := with_subscribers StateEventDown [5] (NewServiceRunner (plain_service "apid" [])) in
  ∃ r', goroutine_rest quiet_env r = Ok (r', inr ()) ∧ runner_ok r' ∧
    r'.(hooks) = r.(hooks) ++ run_hooks quiet_env r.(service) ∧
    r'.(state) = terminal_state (run_result quiet_env r.(service)) ∧
    inStateLocked r' StateEventDown = true ∧
    (∀ e ch, inStateLocked r' e = true → ch ∈ r.(stateSubscribers) e → ch ∈ r'.(notified)).
Proof.
  intros r. apply (service_ends quiet_env r); [|reflexivity].
  split; [eexists; apply ring_ok_new|constructor].
Defined.

(** A post stage that fails is recorded, and then overwritten when [Run] returned no
    error: the history ends [Failed], [Finished]. *)
Example post_failure_overwritten :
  let env := {| EnvCondition := false; EnvDescription := ""; EnvDescriptions := []; EnvWait := None;
    EnvPre := None; EnvRunner := inr true; EnvOpen := None; EnvActivity := []; EnvCancelled := false;
    EnvStop := None; EnvRun := None; EnvLater := []; EnvPost := λ _, Some "boom"%string;
    EnvCleanup := None |} in
  match goroutine_rest env (NewServiceRunner (plain_service "apid" [])) with
  | Ok (r, _) => match GetEventHistory 2 r with
                 | Ok evs => State <$> evs = [StateFailed; StateFinished]
                 | _ => False
                 end
  | _ => False
  end.
Proof. by vm_compute. Qed.

(** ** A run that blocks *)

Section blocking.
Context {A B : Type}.
Implicit Types (c : R A) (f : A → R B) (d : R ()).

Lemma blocks_bind_l c f r : c r = Panic Blocks → (c ≫= f) r = Panic Blocks.
Proof. unfold mbind, prog_bind. by intros ->. Qed.

Lemma blocks_bind c f r :
  returns c r (λ r' res, match res with inr a => f a r' = Panic Blocks | inl _ => False end) →
  (c ≫= f) r = Panic Blocks.
Proof. unfold mbind, prog_bind. by intros (r' & [e|a] & -> & H). Qed.

Lemma blocks_defer_l c d r : c r = Panic Blocks → with_defer d c r = Panic Blocks.
Proof. unfold with_defer. by intros ->. Qed.

Lemma blocks_defer c d r :
  returns c r (λ r' _, d r' = Panic Blocks) → with_defer d c r = Panic Blocks.
Proof. unfold with_defer. by intros (r' & res & -> & ->). Qed.
End blocking.

Lemma run_blocks env r :
  runner_ok r → r.(service).(Healthchecked) = true → env.(EnvOpen) = None →
  env.(EnvCancelled) = false → StopRequest ∉ env.(EnvLater) →
  run env r = Panic Blocks.
Proof.
  intros Hok Hhc Hopen Hcan Hlater. unfold run.
  apply blocks_bind, returns_modify. rewrite Hopen. apply blocks_bind, returns_ret.
  apply blocks_defer_l, blocks_bind, returns_modify. set (r1 := with_hook HookOpen r).
  pose proof (hook_ran HookOpen r Hok) as H1. fold r1 in H1.
  pose proof (health_start_ran r1 (ran_ok _ _ _ _ H1)) as H2.
  apply blocks_defer, returns_bind.
  eapply returns_mono; [|apply for_each_act; by destruct H2]. intros r3 ? [-> H3]. cbv beta iota.
  rewrite Hcan. apply fail_with_returns, blocks_bind, returns_modify, blocks_bind, returns_get.
  pose proof (acted_ran _ _ _ H3) as H4. pose proof (health_end_ran r3 (ran_ok _ _ _ _ H4)) as H5.
  assert ((health_end r3).(service) = r.(service)) as ->
    by (by rewrite (ran_service _ _ _ _ H5), (ran_service _ _ _ _ H4), (ran_service _ _ _ _ H2)).
  apply health_wait_blocks; [apply H5|done|by unfold group_ended, health_group_of; rewrite Hhc|done].
Qed.

(** C30: [run] waits for the two health goroutines before it returns, and they end only when
    they find the context done, which only a stop request makes so: whatever the process, the
    checks and the deliveries do, and for however long, a service with a health check whose
    process was opened and ends by itself (even with an error) never leaves [run] unless
    someone asks it to stop, so it reaches no terminal state. *)
Theorem healthchecked_exit_blocks env r :
  runner_ok r → r.(service).(Healthchecked) = true →
  condition_error env r.(service) = None → env.(EnvPre) = None → env.(EnvRunner) = inr true →
  env.(EnvOpen) = None → env.(EnvCancelled) = false → StopRequest ∉ env.(EnvLater) →
  goroutine_rest env r = Panic Blocks.
Proof.
  intros Hok Hhc Hcond Hpre Hrunner Hopen Hcan Hlater. unfold goroutine_rest.
  assert (Run_rest env r = Panic Blocks) as ->; [|done].
  unfold Run_rest. apply blocks_bind, returns_get, blocks_defer_l. unfold run_stages.
  apply blocks_bind. eapply returns_mono; [|by apply run_wait_ran]. intros r1 ? (st1 & H1 & ->).
  rewrite Hcond. cbn [result_of]. apply blocks_bind. do_update r2 H2. apply updated_ran in H2.
  apply blocks_bind, returns_modify.
  pose proof (hook_ran HookPre r2 (ran_ok _ _ _ _ H2)) as H3. set (r3 := with_hook _ r2) in *.
  rewrite Hpre. apply blocks_bind, returns_ret, blocks_bind. do_update r4 H4. apply updated_ran in H4.
  apply blocks_bind, returns_modify.
  pose proof (hook_ran HookRunner r4 (ran_ok _ _ _ _ H4)) as H5. set (r5 := with_hook _ r4) in *.
  rewrite Hrunner. apply blocks_defer_l. unfold wrap_error.
  rewrite run_blocks; [done|apply H5| |done..]. destruct H5, H4, H3, H2, H1. congruence.
Qed.

Definition checked_service (id : string) : Service := {|
  ID := id; DependsOn := []; Volumes := []; Healthchecked := true;
  APIStartAllowed := None; APIStopAllowed := None; APIRestartAllowed := None |}.

#[export] Instance activity_eq_dec : EqDecision activity.
Proof. solve_decision. Defined.
#[export] Instance late_eq_dec : EqDecision late.
Proof. solve_decision. Defined.
(** The checks go on after the process has ended. *)
Definition checked_env : RunEnv := {|
  EnvCondition := false; EnvDescription := ""; EnvDescriptions := []; EnvWait := None;
  EnvPre := None; EnvRunner := inr true; EnvOpen := None;
  EnvActivity := [Report StateRunning "Process started"; Check true ""]; EnvCancelled := false; EnvStop := None;
  EnvRun := None; EnvLater := [CheckerDone; LateAct Deliver; LateAct (Check false "gone"); ConsumerDone];
  EnvPost := λ _, None; EnvCleanup := None |}.
Lemma healthchecked_exit_blocks_witness :
  goroutine_rest checked_env (NewServiceRunner (checked_service "udevd")) = Panic Blocks.
Proof.
  apply healthchecked_exit_blocks; try reflexivity; [apply runner_ok_new|].
  apply (bool_decide_unpack _). vm_compute. exact I.
Defined.

(** ** No lost wake-ups

    The steps of the goroutines around one runner, at the grain of the locks: the locked
    part of a state update, the notifications it owes; the locked part of a health verdict,
    the change it has to send, its delivery; waiters that subscribe, give up, or receive
    their notification (and unsubscribe, as [waitEvent] does).  Any number of such calls may
    be between their parts. *)

Record system := {
  runner : ServiceRunner;
  owed : list StateEvent;                  (** notifications of updates after the unlock *)
  changes : list Health.StateChange        (** verdicts before the send *)
}.
#[local] Notation Sys r o c := {| runner := r; owed := o; changes := c |}.

(** The parts that finish a call. *)
Inductive finishes : system → system → Prop :=
  | finish_notify r o1 e o2 c : finishes (Sys r (o1 ++ e :: o2) c) (Sys (notifyEvent e r) (o1 ++ o2) c)
  | finish_send r o c1 x c2 : finishes (Sys r o (c1 ++ x :: c2)) (Sys (health_send [x] r) o (c1 ++ c2))
  | finish_deliver r o c x rest r' held :
      r.(pending) = x :: rest → record_health x (with_health r.(healthState) rest r) = Ok (r', inr held) →
      finishes (Sys r o c) (Sys r' (o ++ held) c).

Inductive step : system → system → Prop :=
  | step_finish s s' : finishes s s' → step s s'
  | step_update r o c st msg r' held : set_state st msg r = Ok (r', inr held) → step (Sys r o c) (Sys r' (o ++ held) c)
  | step_verdict r o c healthy msg : r.(service).(Healthchecked) = true →
      step (Sys r o c) (Sys (health_mark healthy msg r).1 o (c ++ (health_mark healthy msg r).2))
  | step_subscribe r o c e ch : step (Sys r o c) (Sys (Subscribe e ch r) o c)
  | step_unsubscribe r o c e ch : step (Sys r o c) (Sys (Unsubscribe e ch r) o c)
  | step_receive r o c e ch :
      ch ∈ r.(notified) → (∀ e', e' ≠ e → ch ∉ r.(stateSubscribers) e') →
      step (Sys r o c) (Sys (Unsubscribe e ch (with_notified (r.(notified) ∖ {[ch]}) r)) o c).

(** Nobody is inside a call, and no health change is buffered. *)
Definition idle (s : system) : Prop := s.(owed) = [] ∧ s.(changes) = [] ∧ s.(runner).(pending) = [].

(** Everyone subscribed to an event that holds has a notification, or is owed one, or there is
    a health change to consume that will give it. *)
Definition on_the_way (s : system) (e : StateEvent) : Prop :=
  e ∈ s.(owed) ∨ (e = StateEventUp ∧ s.(runner).(state) = StateRunning ∧ (s.(runner).(pending) ≠ [] ∨ s.(changes) ≠ [])).
Definition no_lost (s : system) : Prop :=
  ∀ e ch, ch ∈ s.(runner).(stateSubscribers) e → inStateLocked s.(runner) e = true →
    ch ∈ s.(runner).(notified) ∨ on_the_way s e.

Definition with_verdict (c : Health.StateChange) : Prop := is_Some c.(Health.New).(Health.Healthy).
Record wakeup_ok (s : system) : Prop := {
  wk_ok : runner_ok s.(runner);
  wk_changes : Forall with_verdict s.(changes);
  wk_listening : s.(runner).(service).(Healthchecked) = true →
    notifyCh ∈ s.(runner).(healthState).(Health.subscribers) ∧ NoDup s.(runner).(healthState).(Health.subscribers);
  wk_no_lost : no_lost s
}.

Lemma inState_not_running r r' e :
  r.(state) = r'.(state) → r.(service) = r'.(service) → r.(state) ≠ StateRunning →
  inStateLocked r e = inStateLocked r' e.
Proof. intros Hst Hsvc Hne. unfold inStateLocked. rewrite <- Hst. by destruct e, (state r). Qed.

Lemma inState_health r r' e :
  r.(state) = r'.(state) → r.(service) = r'.(service) →
  r.(healthState).(Health.status).(Health.Healthy) = r'.(healthState).(Health.status).(Health.Healthy) →
  inStateLocked r e = inStateLocked r' e.
Proof.
  intros Hst Hsvc Hh. unfold inStateLocked, Health.Get. by rewrite Hst, Hsvc, Hh.
Qed.

Lemma inState_no_health r r' e :
  r.(state) = r'.(state) → r.(service) = r'.(service) → e ≠ StateEventUp →
  inStateLocked r e = inStateLocked r' e.
Proof. intros Hst Hsvc Hne. unfold inStateLocked. rewrite Hst. by destruct e. Qed.

Lemma inState_frame r r' e :
  r.(state) = r'.(state) → r.(service) = r'.(service) → r.(healthState) = r'.(healthState) →
  inStateLocked r e = inStateLocked r' e.
Proof. intros Hst Hsvc Hh. unfold inStateLocked. by rewrite Hst, Hsvc, Hh. Qed.

Lemma Unsubscribe_subs e ch r e' c :
  c ∈ (Unsubscribe e ch r).(stateSubscribers) e' ↔
  c ∈ r.(stateSubscribers) e' ∧ (e' = e → c ≠ ch).
Proof.
  simpl. case_bool_decide as He; [|naive_solver]. subst e'.
  rewrite unsubscribe_spec, list_elem_of_filter. naive_solver.
Qed.

Lemma restated_frame st r r' : restated st r r' → r'.(state) = st ∧ r'.(service) = r.(service) ∧ r'.(healthState) = r.(healthState) ∧
  r'.(stateSubscribers) = r.(stateSubscribers) ∧ r'.(notified) = r.(notified) ∧ r'.(pending) = r.(pending).
Proof. by intros (ev & buf & _ & ->). Qed.

(** The locked part of an update owes what holds afterwards. *)
Lemma update_wakeup r o c st msg r' held :
  wakeup_ok (Sys r o c) → set_state st msg r = Ok (r', inr held) → wakeup_ok (Sys r' (o ++ held) c).
Proof.
  intros [Hok Hc Hlis Hno] Hu. cbn in *. destruct (returns_det _ _ _ _ _ (set_state_spec st msg r Hok) Hu) as [Hr [= ->]].
  pose proof (restated_frame _ _ _ Hr) as (_ & Hsvc & Hh & _).
  split; cbn; [by eapply restated_ok|done|by rewrite Hsvc, Hh|].
  intros e ch _ He. right. left. cbn. apply elem_of_app. right. by apply held_events_spec.
Qed.

(** A verdict changes nothing an event depends on, or has a change to send. *)
Lemma verdict_wakeup r o c healthy msg :
  wakeup_ok (Sys r o c) → r.(service).(Healthchecked) = true →
  wakeup_ok (Sys (health_mark healthy msg r).1 o (c ++ (health_mark healthy msg r).2)).
Proof.
  intros [Hok Hc Hlis Hno] Hhc. cbn in *. destruct (Hlis Hhc) as [Hsub Hnd].
  unfold health_mark, Health.Update. case_bool_decide as Hsame; cbn -[Health.sent_to].
  - split; cbn -[Health.sent_to]; [by destruct Hok|by apply Forall_app_2; [|constructor]|done|].
    intros e ch Hch He. cbn in Hch, He. rewrite <- (inState_health r) in He by done.
    destruct (Hno e ch Hch He) as [|[|(-> & Hr & Hp)]]; [by left|by right; left|right; right]. cbn.
    split_and!; [done..|]. destruct Hp; [by left|right]. by destruct c.
  - rewrite Health.sent_to_all by done. split; cbn; [by destruct Hok|apply Forall_app_2; [done|constructor; [by eexists|constructor]]|done|].
    intros e ch Hch He. cbn in Hch, He. destruct (decide (e = StateEventUp)) as [->|Hne].
    + destruct (decide (r.(state) = StateRunning)) as [Hr|Hr].
      { right. right. cbn. split_and!; [done..|]. right. by destruct c. }
      rewrite <- (inState_not_running r) in He by done.
      destruct (Hno _ ch Hch He) as [|[|(_ & ? & _)]]; [by left|by right; left|done].
    + rewrite <- (inState_no_health r) in He by done.
      destruct (Hno e ch Hch He) as [|[|(? & _)]]; [by left|by right; left|done].
Qed.

Lemma finishes_wakeup s s' : wakeup_ok s → finishes s s' → wakeup_ok s'.
Proof.
  intros Hw Hf. pose proof Hw as [Hok Hc Hlis Hno]. destruct Hf as [r o1 e o2 c|r o c1 x c2|r o c x rest r' held Hpend Hrec]; cbn in *.
  - split; cbn; [by destruct Hok|done..|]. intros e' ch Hch He. cbn in *.
    change (inStateLocked r e' = true) in He. destruct (decide (e' = e)) as [->|Hne]; [left; set_solver|].
    destruct (Hno e' ch Hch He) as [|[Ho|Hp]]; [left; set_solver| |by right; right].
    right. left. cbn in *. revert Ho. rewrite !elem_of_app, elem_of_cons. naive_solver.
  - apply Forall_app in Hc as [Hc1 [Hx Hc2]%Forall_cons]. destruct Hok as [Hring Hp].
    split; cbn -[take]; [split; cbn -[take]; [done|apply Forall_take, Forall_app_2; [done|by constructor]]|by apply Forall_app_2|done|].
    intros e ch Hch He. cbn -[take] in *. rewrite <- (inState_health r) in He by done.
    destruct (Hno e ch Hch He) as [|[|(-> & Hr & _)]]; [by left|by right; left|right; right]. cbn -[take].
    split_and!; [done..|]. left. by destruct (pending r) as [|? []].
  - destruct Hok as [Hring Hp]. rewrite Hpend in Hp. apply Forall_cons in Hp as [Hx Hp].
    set (r0 := with_health r.(healthState) rest r) in *. assert (runner_ok r0) as Hok0 by by split.
    destruct (returns_det _ _ _ _ _ (record_health_spec x r0 Hok0 Hx) Hrec) as (Hr & held' & [= <-] & Hup & _).
    assert (runner_ok r' ∧ r'.(state) = r.(state) ∧ r'.(service) = r.(service) ∧ r'.(healthState) = r.(healthState) ∧
      r'.(stateSubscribers) = r.(stateSubscribers) ∧ r'.(notified) = r.(notified)) as (Hok' & Hst & Hsvc & Hh & Hsubs & Hn).
    { destruct Hr as [Hr| ->]; [|done]. split; [by eapply restated_ok|]. pose proof (restated_frame _ _ _ Hr). naive_solver. }
    split; cbn; [done|done|by rewrite Hsvc, Hh|]. intros e ch Hch He. cbn in *. rewrite Hsubs in Hch. rewrite Hn.
    assert (inStateLocked r e = true) as He0 by (rewrite <- He; by apply inState_frame).
    destruct (Hno e ch Hch He0) as [|[Ho|(-> & Hr0 & _)]]; [by left|right; left; set_solver|].
    right. left. cbn. apply elem_of_app. right. by apply Hup.
Qed.

Lemma step_wakeup s s' : wakeup_ok s → step s s' → wakeup_ok s'.
Proof.
  intros Hw Hstep. destruct Hstep as [s s' Hf|r o c st msg r' held Hu|r o c healthy msg Hhc|r o c e ch|r o c e ch|r o c e ch Hin Hother].
  - by eapply finishes_wakeup.
  - by eapply update_wakeup.
  - by apply verdict_wakeup.
  - destruct Hw as [Hok Hc Hlis Hno]. cbn in *. unfold Subscribe. destruct (inStateLocked r e) eqn:He.
    + split; cbn; [by destruct Hok|done..|]. intros e' c' Hch He'. cbn in *.
      destruct (Hno e' c' Hch) as [|]; [done|left; set_solver|by right].
    + split; cbn; [by destruct Hok|done..|]. intros e' c' Hch He'. cbn in *.
      change (inStateLocked r e' = true) in He'. case_bool_decide as Hee; [congruence|by apply Hno].
  - destruct Hw as [Hok Hc Hlis Hno]. split; cbn; [by destruct Hok|done..|].
    intros e' c' [Hch _]%Unsubscribe_subs He'. by apply Hno.
  - destruct Hw as [Hok Hc Hlis Hno]. split; cbn; [by destruct Hok|done..|].
    intros e' c' [Hch Hne]%Unsubscribe_subs He'. cbn in Hch. change (inStateLocked r e' = true) in He'.
    destruct (Hno e' c' Hch He') as [Hn|]; [left|by right]. cbn in *.
    apply elem_of_difference. split; [done|]. rewrite elem_of_singleton. intros ->.
    destruct (decide (e' = e)) as [->|Hee]; [by apply Hne|]. by apply (Hother e').
Qed.

(** The calls that are going on can be finished, one part after the other. *)
Lemma finish_all n : ∀ s, wakeup_ok s →
  (3 * length s.(changes) + 2 * length s.(runner).(pending) + length s.(owed) < n)%nat → ∃ s', rtc finishes s s' ∧ idle s' ∧ wakeup_ok s'.
Proof.
  induction n as [|n IH]; intros s Hw Hn; [lia|].
  assert (Hgo : ∀ s1, finishes s s1 →
    (3 * length s1.(changes) + 2 * length s1.(runner).(pending) + length s1.(owed) < n)%nat → ∃ s', rtc finishes s s' ∧ idle s' ∧ wakeup_ok s').
  { intros s1 Hf H1. destruct (IH s1) as (s' & Hs' & Hi); [by eapply finishes_wakeup|done|]. exists s'. split; [by eapply rtc_l|done]. }
  destruct s as [r [|e o] c]; cbn in *.
  2: { eapply Hgo; [apply (finish_notify r [] e o c)|]. cbn in *. lia. }
  destruct c as [|x c].
  2: { eapply Hgo; [apply (finish_send r [] [] x c)|]. cbn -[take] in *. rewrite length_take, length_app. cbn [length]. lia. }
  destruct (pending r) as [|x rest] eqn:Hpend; [by exists (Sys r [] []); split; [apply rtc_refl|]|].
  destruct Hw as [[Hring Hp] _ _ _]. cbn in *. rewrite Hpend in Hp. apply Forall_cons in Hp as [Hx Hp].
  destruct (record_health_spec x (with_health r.(healthState) rest r)) as (r' & ? & Hrun & Hr & held & -> & _ & Hlen); [by split|done|].
  eapply Hgo; [by eapply finish_deliver|]. cbn in *.
  assert (r'.(pending) = rest) as -> by (destruct Hr as [(ev & buf & _ & ->)| ->]; done). lia.
Qed.

Lemma health_start_wakeup r :
  runner_ok r → r.(state) ≠ StateRunning →
  (∀ e ch, ch ∈ r.(stateSubscribers) e → inStateLocked r e = true → ch ∈ r.(notified)) →
  notifyCh ∉ r.(healthState).(Health.subscribers) → NoDup r.(healthState).(Health.subscribers) →
  wakeup_ok (Sys (health_start r) [] []).
Proof.
  intros Hok Hst Hno Hnotin Hnd. pose proof (health_start_ran r Hok) as H1.
  split; cbn; [apply H1|constructor| |].
  - rewrite (ran_service _ _ _ _ H1). unfold health_start. intros ->. simpl.
    split; [set_solver|]. apply NoDup_app. split; [done|]. split; [set_solver|apply NoDup_singleton].
  - intros e ch Hch He. left. cbn in *. destruct H1.
    rewrite (inState_not_running _ r) in He by congruence. rewrite ran_subs0 in Hch. by apply ran_mono0, (Hno e).
Qed.

(** C28: no wake-up is lost, once the consumer of health changes has subscribed (a verdict before
    that reaches no one, as below).  From a service that is not running yet and whose waiters
    have what they wait for, in any interleaving of the locked parts, the notifications, the
    sends and the deliveries of any number of state updates and health verdicts, and of
    waiters coming and going: every waiter whose event holds has its notification, or is owed
    one by an update that is not finished, or a health change is on its way; the calls that
    are going on can be finished; and when they are, and the health changes consumed, every
    waiter whose event holds has its notification. *)
Theorem no_lost_wakeups r s :
  runner_ok r → r.(state) ≠ StateRunning →
  (∀ e ch, ch ∈ r.(stateSubscribers) e → inStateLocked r e = true → ch ∈ r.(notified)) →
  notifyCh ∉ r.(healthState).(Health.subscribers) → NoDup r.(healthState).(Health.subscribers) →
  rtc step (Sys (health_start r) [] []) s →
  no_lost s ∧
  (∃ s', rtc finishes s s' ∧ idle s') ∧
  (idle s → ∀ e ch, ch ∈ s.(runner).(stateSubscribers) e → inStateLocked s.(runner) e = true → ch ∈ s.(runner).(notified)).
Proof.
  intros Hok Hst Hno Hnotin Hnd Hsteps.
  assert (Hw : wakeup_ok s).
  { pose proof (health_start_wakeup r Hok Hst Hno Hnotin Hnd) as Hw. induction Hsteps; eauto using step_wakeup. }
  split; [apply Hw|]. split.
  - destruct (finish_all _ s Hw (Nat.lt_succ_diag_r _)) as (s' & ? & ? & _). by exists s'.
  - intros (Ho & Hc & Hp) e ch Hch He. destruct (wk_no_lost _ Hw e ch Hch He) as [|[Hin|(_ & _ & [])]]; [done| |done..].
    rewrite Ho in Hin. by apply not_elem_of_nil in Hin.
Qed.

Lemma no_lost_wakeups_witness :
  let r0 := with_subscribers StateEventUp [7] (NewServiceRunner (checked_service "udevd")) in
  let locked := λ (c : R (list StateEvent)) r, match c r with Ok (r, _) => r | _ => r end in
  let r1 := locked (set_state StateRunning "started") (health_start r0) in
  let r2 := (health_mark true "" r1).1 in
  let s := Sys r2 [] (health_mark true "" r1).2 in
  no_lost s ∧ (∃ s', rtc finishes s s' ∧ idle s') ∧
  (idle s → ∀ e ch, ch ∈ s.(runner).(stateSubscribers) e → inStateLocked s.(runner) e = true → ch ∈ s.(runner).(notified)).
Proof.
  intros r0 locked r1 r2 s.
  apply (no_lost_wakeups r0 s).
  - split; [eexists; apply ring_ok_new|constructor].
  - discriminate.
  - intros e ch Hch He. destruct e; discriminate.
  - apply not_elem_of_nil.
  - constructor.
  - apply (rtc_l _ _ (Sys r1 [] [])); [by apply (step_update _ [] [] StateRunning "started" r1 [])|].
    apply (rtc_l _ _ s); [by apply (step_verdict r1 [] [] true "")|]. apply rtc_refl.
Defined.

(** The health checks are started before their channel is subscribed: a first verdict in
    between reaches no one, and the waiter of a running, healthy service stays without
    a notification. *)
Example early_verdict_is_lost :
  let r0 := with_subscribers StateEventUp [7] (NewServiceRunner (checked_service "udevd")) in
  match UpdateState StateRunning "started" r0 with
  | Ok (r1, _) =>
      let r2 := health_set true "" r1 in
      let r3 := with_health (Health.Subscribe notifyCh r2.(healthState)) [] r2 in
      inStateLocked r3 StateEventUp = true ∧ 7 ∈ r3.(stateSubscribers) StateEventUp
      ∧ bool_decide (7 ∈ r3.(notified)) = false ∧ r3.(pending) = []
  | _ => False
  end.
Proof. vm_compute. repeat split; try left. Qed.
