(* ===== verification/Services.v ===== *)
(** * System services: the set of services

    [internal/app/machined/pkg/system/system.go] and [service_events.go]: loading,
    starting and stopping services, the API operations, the expansion of a stop request
    along reverse dependencies, and the protocol that stops the services in order.

    Go ranges over its maps in an unspecified order: the orders are parameters, and the
    theorems hold for all of them. *)

From stdpp Require Import sorting.
From S2P Require Import Prelude ServiceEvents ServiceRunner.

Record singleton := {
  sys_state : gmap string ServiceRunner;
  running : gset string;
  terminating : bool
}.

Definition newServices : singleton := {| sys_state := ∅; running := ∅; terminating := false |}.

Inductive sys_error :=
  | NotDefined (id : string)
  | NotSupported (op id : string)
  | StopError (msg : string).

Definition with_runner (id : string) (r : ServiceRunner) (s : singleton) : singleton :=
  {| sys_state := <[id := r]> s.(sys_state); running := s.(running); terminating := s.(terminating) |}.
Definition with_running (g : gset string) (s : singleton) : singleton :=
  {| sys_state := s.(sys_state); running := g; terminating := s.(terminating) |}.

(** ** Load, Start *)

Fixpoint load_loop (services : list Service) (s : singleton) : list string * singleton :=
  match services with
  | [] => ([], s)
  | service :: services =>
      let id := service.(ID) in
      let s := match s.(sys_state) !! id with
               | Some _ => s
               | None => with_runner id (NewServiceRunner service) s
               end in
      let '(ids, s) := load_loop services s in
      (id :: ids, s)
  end.

Definition Load (services : list Service) (s : singleton) : list string * singleton :=
  if s.(terminating) then ([], s) else load_loop services s.

(** One turn of [Start]: a service that is not defined is reported and then started all
    the same, on a nil runner; a running one is skipped; otherwise [Start] returns once
    [Run] has made its first state update. *)
Definition start_one (id : string) (s : singleton) : outcome Empty_set (singleton * list sys_error) :=
  let svcrunner := s.(sys_state) !! id in
  let errs := match svcrunner with None => [NotDefined id] | Some _ => [] end in
  if bool_decide (id ∈ s.(running)) then Ok (s, errs)
  else
    let s := with_running ({[id]} ∪ s.(running)) s in
    match svcrunner with
    | None => Panic NilDereference
    | Some r =>
        '(r, _) ← UpdateState StateStarting "Starting service" r;
        Ok (with_runner id r s, errs)
    end.

Fixpoint start_loop (ids : list string) (s : singleton) : outcome Empty_set (singleton * list sys_error) :=
  match ids with
  | [] => Ok (s, [])
  | id :: ids =>
      '(s, errs) ← start_one id s;
      '(s, errs') ← start_loop ids s;
      Ok (s, errs ++ errs')
  end.

Definition Start (ids : list string) (s : singleton) : outcome Empty_set (singleton * list sys_error) :=
  if s.(terminating) then Ok (s, []) else start_loop ids s.

(** The rest of the goroutine [Start] made: [Run], the removal from [running], and the
    final state update. *)
Definition complete (id : string) (env : RunEnv) (s : singleton) : outcome Empty_set singleton :=
  match s.(sys_state) !! id with
  | None => Ok s
  | Some r =>
      '(r, _) ← goroutine_rest env r;
      Ok (with_runner id r (with_running (s.(running) ∖ {[id]}) s))
  end.

(** [order]: the order of the keys this time. *)
Definition StartAll (order : list string) (s : singleton) : outcome Empty_set singleton :=
  '(s, _) ← Start order s;
  Ok s.

Definition LoadAndStart (services : list Service) (s : singleton) : outcome Empty_set singleton :=
  let '(ids, s) := Load services s in
  '(s, errs) ← Start ids s;
  match errs with
  | [] => Ok s
  | _ => Panic (Explicit "should never happen")
  end.

(** ** Stopping *)

Record stop_plan := {
  plan_services : gset string;
  (** who has to be down before a service is shut down *)
  plan_waits : gmap string (list string)
}.

Definition should_stop (dependencies : list string) (servicesToStop : gset string) : bool :=
  existsb (λ d, bool_decide (d ∈ servicesToStop)) dependencies.

(** One pass over [s.state], in the given order. *)
Fixpoint expand_pass (order : list string) (st : gmap string ServiceRunner) (servicesToStop : gset string)
    : gset string * bool :=
  match order with
  | [] => (servicesToStop, false)
  | name :: order =>
      match st !! name with
      | None => expand_pass order st servicesToStop
      | Some svcrunner =>
          if bool_decide (name ∈ servicesToStop) then expand_pass order st servicesToStop
          else if should_stop svcrunner.(service).(DependsOn) servicesToStop
          then (fst (expand_pass order st ({[name]} ∪ servicesToStop)), true)
          else expand_pass order st servicesToStop
      end
  end.

(** [for { ...; if !expanded { break } }].  A pass that expands adds a service, so one
    turn more than there are services is enough. *)
Fixpoint expand_loop (fuel : nat) (orders : nat → list string) (st : gmap string ServiceRunner)
    (servicesToStop : gset string) : outcome Empty_set (gset string) :=
  match fuel with
  | O => Panic LoopFuel
  | S fuel =>
      let '(servicesToStop, expanded) := expand_pass (orders fuel) st servicesToStop in
      if (expanded : bool) then expand_loop fuel orders st servicesToStop else Ok servicesToStop
  end.

Definition add_dependency (name : string) (rev : gmap string (list string)) (dependency : string)
    : gmap string (list string) :=
  <[dependency := default [] (rev !! dependency) ++ [name]]> rev.

Fixpoint reverse_dependencies (order : list string) (st : gmap string ServiceRunner)
    (rev : gmap string (list string)) : gmap string (list string) :=
  match order with
  | [] => rev
  | name :: order =>
      let deps := match st !! name with Some r => r.(service).(DependsOn) | None => [] end in
      reverse_dependencies order st (foldl (add_dependency name) rev deps)
  end.

(** The services a request names: all of them for nil, the known ones otherwise. *)
Definition requested (services : option (list string)) (st : gmap string ServiceRunner) : gset string :=
  match services with
  | None => dom st
  | Some l => list_to_set (filter (λ n, is_Some (st !! n)) l)
  end.

(** The part of [stopServices] under the lock. *)
Definition stopServices (orders : nat → list string) (services : option (list string))
    (waitForRevDependencies : bool) (s : singleton) : outcome Empty_set stop_plan :=
  let st := s.(sys_state) in
  let servicesToStop := requested services st in
  if waitForRevDependencies then
    servicesToStop ← expand_loop (S (size st)) orders st servicesToStop;
    Ok {| plan_services := servicesToStop;
          plan_waits := reverse_dependencies (elements servicesToStop) st ∅ |}
  else Ok {| plan_services := servicesToStop; plan_waits := ∅ |}.

(** [cmp.Compare] on the service ids. *)
Definition id_le (a b : ServiceRunner) : Prop := String.leb a.(service).(ID) b.(service).(ID) = true.
#[export] Instance id_le_dec : RelDecision id_le.
Proof. intros a b. unfold id_le. apply _. Defined.

(** What follows, outside the lock, is concurrent with everything else: [await] is its
    effect on the services until the wait at the end of [stopServices] returns, and the
    error of that wait. *)
Section operations.
Context (orders : nat → list string).
Context (await : stop_plan → singleton → outcome Empty_set (singleton * option sys_error)).

Definition Stop (ids : list string) (s : singleton) : outcome Empty_set (singleton * option sys_error) :=
  if bool_decide (ids = []) then Ok (s, None)
  else if s.(terminating) then Ok (s, None)
  else plan ← stopServices orders (Some ids) false s; await plan s.

Definition StopWithRevDepenencies (ids : list string) (s : singleton)
    : outcome Empty_set (singleton * option sys_error) :=
  if bool_decide (ids = []) then Ok (s, None)
  else if s.(terminating) then Ok (s, None)
  else plan ← stopServices orders (Some ids) true s; await plan s.

Definition Shutdown (s : singleton) : outcome Empty_set singleton :=
  if s.(terminating) then Ok s
  else
    let s := {| sys_state := s.(sys_state); running := s.(running); terminating := true |} in
    plan ← stopServices orders None true s;
    '(s, _) ← await plan s;
    Ok s.

Definition Unload (ids : list string) (s : singleton) : outcome Empty_set (singleton * option sys_error) :=
  if s.(terminating) then Ok (s, None)
  else
    let servicesToRemove := filter (λ id, is_Some (s.(sys_state) !! id)) ids in
    '(s, err) ← Stop servicesToRemove s;
    match err with
    | Some e => Ok (s, Some e)
    | None =>
        Ok ({| sys_state := foldr delete s.(sys_state) servicesToRemove;
               running := s.(running) ∖ list_to_set servicesToRemove;
               terminating := s.(terminating) |}, None)
    end.

(** ** Queries and the API *)

Definition IsRunning (id : string) (s : singleton) : sys_error + (Service * bool) :=
  match s.(sys_state) !! id with
  | None => inl (NotDefined id)
  | Some runner => inr (runner.(service), bool_decide (id ∈ s.(running)))
  end.

Definition List (s : singleton) : list ServiceRunner :=
  merge_sort id_le (map_to_list s.(sys_state)).*2.

(** [multiErr.ErrorOrNil] of the one id. *)
Definition start_api (id : string) (s : singleton) : outcome Empty_set (singleton * option sys_error) :=
  '(s, errs) ← Start [id] s;
  Ok (s, head errs).

Definition APIStart (id : string) (s : singleton) : outcome Empty_set (singleton * option sys_error) :=
  match IsRunning id s with
  | inl e => Ok (s, Some e)
  | inr (_, true) => Ok (s, None)
  | inr (service, false) =>
      if bool_decide (service.(APIStartAllowed) = Some true) then start_api id s
      else Ok (s, Some (NotSupported "start" id))
  end.

Definition APIStop (id : string) (s : singleton) : outcome Empty_set (singleton * option sys_error) :=
  match IsRunning id s with
  | inl e => Ok (s, Some e)
  | inr (_, false) => Ok (s, None)
  | inr (service, true) =>
      if bool_decide (service.(APIStopAllowed) = Some true) then Stop [id] s
      else Ok (s, Some (NotSupported "stop" id))
  end.

Definition APIRestart (id : string) (s : singleton) : outcome Empty_set (singleton * option sys_error) :=
  match IsRunning id s with
  | inl e => Ok (s, Some e)
  | inr (_, false) => APIStart id s
  | inr (service, true) =>
      if bool_decide (service.(APIRestartAllowed) = Some true) then
        '(s, err) ← Stop [id] s;
        match err with
        | Some e => Ok (s, Some e)
        | None => start_api id s
        end
      else Ok (s, Some (NotSupported "restart" id))
  end.
End operations.

(** ** Conditions on services

    [serviceCondition]: what it prints, and [Wait], which polls until the service is
    registered ([snapshots]: the services at the call and at each tick until the context
    is done) and then subscribes. *)

Record serviceCondition := {
  waitingRegister : bool;
  event : StateEvent;
  service_id : string
}.

Definition event_name (e : StateEvent) : string :=
  match e with
  | StateEventUp => "up"
  | StateEventDown => "down"
  | StateEventFinished => "finished"
  end.

Definition quoted (s : string) : string :=
  String (Ascii.ascii_of_nat 34) (s +:+ String (Ascii.ascii_of_nat 34) EmptyString)%string.

(** [String], with [%q] on names that need no escapes. *)
Definition condition_String (sc : serviceCondition) : string :=
  (if sc.(waitingRegister) then "service " +:+ quoted sc.(service_id) +:+ " to be registered"
   else "service " +:+ quoted sc.(service_id) +:+ " to be " +:+ quoted (event_name sc.(event)))%string.

Fixpoint waitRegister (sc : serviceCondition) (snapshots : list singleton) : option ServiceRunner :=
  match snapshots with
  | [] => None
  | s :: snapshots =>
      match s.(sys_state) !! sc.(service_id) with
      | Some r => Some r
      | None => waitRegister sc snapshots
      end
  end.

(** The runner the waiter ends up subscribed to, with the waiter's channel [ch]. *)
Definition Wait (sc : serviceCondition) (ch : Z) (s : singleton) (snapshots : list singleton)
    : option ServiceRunner :=
  match s.(sys_state) !! sc.(service_id) with
  | Some r => Some (Subscribe sc.(event) ch r)
  | None => Subscribe sc.(event) ch <$> waitRegister sc snapshots
  end.

(** ** The expansion of a stop request *)

Section expansion.
Context (st : gmap string ServiceRunner).
Implicit Types (t : gset string) (n d : string).

(** What has to stop: the requested services, and every service that depends on one that
    has to stop. *)
Inductive must_stop (init : gset string) : string → Prop :=
  | must_requested n : n ∈ init → must_stop init n
  | must_dependent n d r :
      st !! n = Some r → d ∈ r.(service).(DependsOn) → must_stop init d → must_stop init n.

Lemma should_stop_spec deps t : should_stop deps t = true ↔ ∃ d, d ∈ deps ∧ d ∈ t.
Proof.
  unfold should_stop. rewrite existsb_exists. setoid_rewrite list_elem_of_In.
  by setoid_rewrite bool_decide_eq_true.
Qed.

Lemma expand_pass_mono order t : t ⊆ (expand_pass order st t).1.
Proof.
  revert t. induction order as [|n order IH]; intros t; cbn [expand_pass]; [done|].
  destruct (st !! n) as [r|]; [|done]. case_bool_decide; [done|].
  destruct (should_stop _ _); [|done]. simpl. specialize (IH ({[n]} ∪ t)). set_solver.
Qed.

Lemma expand_pass_sound init order t :
  (∀ n, n ∈ t → must_stop init n) → ∀ n, n ∈ (expand_pass order st t).1 → must_stop init n.
Proof.
  revert t. induction order as [|n order IH]; intros t Ht; cbn [expand_pass]; [done|].
  destruct (st !! n) as [r|] eqn:Hr; [|by apply IH]. case_bool_decide; [by apply IH|].
  destruct (should_stop _ _) eqn:Hs; [|by apply IH]. simpl. apply IH.
  intros m [->%elem_of_singleton|Hm]%elem_of_union; [|auto].
  apply should_stop_spec in Hs as (d & Hd & Hdt). eapply must_dependent; eauto.
Qed.

Lemma expand_pass_dom order t : t ⊆ dom st → (expand_pass order st t).1 ⊆ dom st.
Proof.
  revert t. induction order as [|n order IH]; intros t Ht; cbn [expand_pass]; [done|].
  destruct (st !! n) as [r|] eqn:Hr; [|auto]. case_bool_decide; [auto|].
  destruct (should_stop _ _); [|auto]. simpl. apply IH. apply elem_of_dom_2 in Hr. set_solver.
Qed.

(** A pass that reports no expansion has found nothing to add. *)
Lemma expand_pass_closed order t :
  (expand_pass order st t).2 = false →
  (expand_pass order st t).1 = t ∧
  ∀ n r, n ∈ order → st !! n = Some r → n ∉ t → should_stop r.(service).(DependsOn) t = false.
Proof.
  revert t. induction order as [|m order IH]; intros t; cbn [expand_pass].
  { intros _. split; [done|]. intros n r Hn. by apply not_elem_of_nil in Hn. }
  destruct (st !! m) as [r|] eqn:Hr.
  2:{ intros H. destruct (IH t H) as [-> Hc]. split; [done|]. intros n r [->|Hn]%elem_of_cons ? ?; [congruence|eauto]. }
  case_bool_decide as Hm.
  { intros H. destruct (IH t H) as [-> Hc]. split; [done|]. intros n r' [->|Hn]%elem_of_cons ? ?; [done|eauto]. }
  destruct (should_stop _ _) eqn:Hs; [done|].
  intros H. destruct (IH t H) as [-> Hc]. split; [done|].
  intros n r' [->|Hn]%elem_of_cons ? ?; [congruence|eauto].
Qed.

Lemma expand_pass_grows order t :
  (expand_pass order st t).2 = true → t ⊂ (expand_pass order st t).1.
Proof.
  revert t. induction order as [|m order IH]; intros t; cbn [expand_pass]; [done|].
  destruct (st !! m) as [r|]; [|auto]. case_bool_decide as Hm; [auto|].
  destruct (should_stop _ _); [|auto]. simpl. intros _.
  pose proof (expand_pass_mono order ({[m]} ∪ t)) as Hsub. set_solver.
Qed.

Lemma expand_loop_spec orders init fuel t :
  (∀ k n, n ∈ dom st → n ∈ orders k) → t ⊆ dom st → init ⊆ t → (∀ n, n ∈ t → must_stop init n) →
  (size (dom st) - size t < fuel)%nat →
  ∃ t', expand_loop fuel orders st t = Ok t' ∧ ∀ n, n ∈ t' ↔ must_stop init n.
Proof.
  intros Horders. revert t. induction fuel as [|fuel IH]; intros t Hdom Hinit Hsound Hf; [lia|].
  cbn [expand_loop].
  pose proof (expand_pass_mono (orders fuel) t) as Hmono.
  pose proof (expand_pass_sound init (orders fuel) t Hsound) as Hs.
  pose proof (expand_pass_dom (orders fuel) t Hdom) as Hd.
  pose proof (expand_pass_grows (orders fuel) t) as Hg.
  pose proof (expand_pass_closed (orders fuel) t) as Hc.
  destruct (expand_pass (orders fuel) st t) as [t1 [|]]; simpl in *.
  - apply IH; [done|set_solver|done|].
    pose proof (subset_size _ _ (Hg eq_refl)). pose proof (subseteq_size _ _ Hd). lia.
  - exists t1. split; [done|]. destruct (Hc eq_refl) as [-> Hclosed]. intros n. split; [auto|].
    induction 1 as [n Hn|n d r Hr Hd' _ IHd]; [set_solver|].
    destruct (decide (n ∈ t)) as [|Hn]; [done|].
    assert (should_stop (DependsOn (service r)) t = false) as Hfalse.
    { apply (Hclosed n); [|done|done]. apply Horders. by eapply elem_of_dom_2. }
    assert (should_stop (DependsOn (service r)) t = true) as Htrue by (apply should_stop_spec; eauto).
    congruence.
Qed.

(** *** Who waits for whom *)

Lemma add_dependencies_spec name deps rev m d :
  m ∈ default [] (foldl (add_dependency name) rev deps !! d) ↔
  m ∈ default [] (rev !! d) ∨ (m = name ∧ d ∈ deps).
Proof.
  revert rev. induction deps as [|d' deps IH]; intros rev; cbn [foldl].
  { split; [auto|]. intros [|[_ Hd]]; [done|by apply not_elem_of_nil in Hd]. }
  rewrite IH. unfold add_dependency. destruct (decide (d = d')) as [->|Hne].
  - rewrite lookup_insert_eq. simpl. rewrite elem_of_app, list_elem_of_singleton, elem_of_cons. naive_solver.
  - rewrite lookup_insert_ne by done. rewrite elem_of_cons. naive_solver.
Qed.

Lemma reverse_dependencies_spec order rev m d :
  m ∈ default [] (reverse_dependencies order st rev !! d) ↔
  m ∈ default [] (rev !! d) ∨ (m ∈ order ∧ ∃ r, st !! m = Some r ∧ d ∈ r.(service).(DependsOn)).
Proof.
  revert rev. induction order as [|n order IH]; intros rev; cbn [reverse_dependencies].
  { split; [auto|]. intros [|[Hm _]]; [done|by apply not_elem_of_nil in Hm]. }
  rewrite IH, add_dependencies_spec, elem_of_cons.
  destruct (st !! n) as [r|] eqn:Hr; [naive_solver|].
  split; [|naive_solver]. intros [[|[-> Hd]]|]; [auto|by apply not_elem_of_nil in Hd|naive_solver].
Qed.
End expansion.

(** C22: [stopServices] with reverse dependencies computes, in every map order and always
    in finitely many passes, exactly the services that must stop: the requested ones and
    all that depend on them, directly or not; each waits for exactly the services of the
    plan that depend on it. *)
Theorem stop_plan_closure orders ids s :
  (∀ k n, n ∈ dom s.(sys_state) → n ∈ orders k) →
  ∃ plan, stopServices orders ids true s = Ok plan ∧
    (∀ n, n ∈ plan.(plan_services) ↔ must_stop s.(sys_state) (requested ids s.(sys_state)) n) ∧
    (∀ n m, m ∈ default [] (plan.(plan_waits) !! n) ↔
       m ∈ plan.(plan_services) ∧ ∃ r, s.(sys_state) !! m = Some r ∧ n ∈ r.(service).(DependsOn)).
Proof.
  intros Horders. unfold stopServices. set (st := s.(sys_state)) in *.
  assert (requested ids st ⊆ dom st) as Hreq.
  { unfold requested. destruct ids as [l|]; [|done]. intros n Hn%elem_of_list_to_set.
    apply list_elem_of_filter in Hn as [? _]. by apply elem_of_dom. }
  destruct (expand_loop_spec st orders (requested ids st) (S (size st)) (requested ids st))
    as (t & -> & Ht); [done|done|done|by intros; apply must_requested|rewrite size_dom; lia|].
  cbn [mbind outcome_bind]. eexists. split; [done|]. split; [done|]. simpl. intros n m.
  rewrite reverse_dependencies_spec, lookup_empty, elem_of_elements. simpl.
  rewrite elem_of_nil. naive_solver.
Qed.

Lemma stop_plan_closure_witness :
  let s := (Load [plain_service "containerd" []; plain_service "cri" ["containerd"]] newServices).2 in
  ∃ plan, stopServices (λ _, ["cri"; "containerd"]) (Some ["containerd"]) true s = Ok plan ∧
    (∀ n, n ∈ plan.(plan_services) ↔ must_stop s.(sys_state) (requested (Some ["containerd"]) s.(sys_state)) n) ∧
    (∀ n m, m ∈ default [] (plan.(plan_waits) !! n) ↔
       m ∈ plan.(plan_services) ∧ ∃ r, s.(sys_state) !! m = Some r ∧ n ∈ r.(service).(DependsOn)).
Proof.
  intros s. apply stop_plan_closure. intros k n Hn.
  assert (dom s.(sys_state) = {["cri"; "containerd"]}) as Hdom by by vm_compute.
  rewrite Hdom in Hn. set_solver.
Defined.

(** ** The shutdown protocol

    One goroutine per service of the plan waits until the services it waits for are
    down, at most for the time [stopServices] gives them ([expired]), and then signals
    the service; services go down on their own. *)

Record shutdown := { signalled : gset string; down : gset string; expired : bool }.

Definition waits (plan : stop_plan) (n : string) : list string := default [] (plan.(plan_waits) !! n).

Inductive shut_step (plan : stop_plan) (sd : shutdown) : shutdown → Prop :=
  | shut_signal n :
      n ∈ plan.(plan_services) → n ∉ sd.(signalled) →
      (sd.(expired) = true ∨ ∀ m, m ∈ waits plan n → m ∈ sd.(down)) →
      shut_step plan sd {| signalled := {[n]} ∪ sd.(signalled); down := sd.(down); expired := sd.(expired) |}
  | shut_down n :
      shut_step plan sd {| signalled := sd.(signalled); down := {[n]} ∪ sd.(down); expired := sd.(expired) |}
  | shut_expire :
      shut_step plan sd {| signalled := sd.(signalled); down := sd.(down); expired := true |}.

Definition shut_start : shutdown := {| signalled := ∅; down := ∅; expired := false |}.

(** Until the time is up, a signalled service has all its waits down. *)
Lemma shut_order plan sd :
  rtc (shut_step plan) shut_start sd → sd.(expired) = false →
  ∀ n m, n ∈ sd.(signalled) → m ∈ waits plan n → m ∈ sd.(down).
Proof.
  assert (Hstep : ∀ a b, shut_step plan a b →
    (a.(expired) = false → ∀ n m, n ∈ a.(signalled) → m ∈ waits plan n → m ∈ a.(down)) →
    b.(expired) = false → ∀ n m, n ∈ b.(signalled) → m ∈ waits plan n → m ∈ b.(down)).
  { intros a b [n Hn Hs Hw|n|] Ha Hexp k m Hk Hm; simpl in *; try done.
    - apply elem_of_union in Hk as [->%elem_of_singleton|Hk]; [|eauto].
      destruct Hw as [|Hw]; [congruence|auto].
    - apply elem_of_union. right. eauto. }
  intros Hsteps. assert (Hinit : shut_start.(expired) = false →
    ∀ n m, n ∈ shut_start.(signalled) → m ∈ waits plan n → m ∈ shut_start.(down)) by set_solver.
  revert Hinit. induction Hsteps as [|a b c Hab _ IH]; eauto.
Qed.

Lemma max_rank (rank : string → nat) (t : gset string) :
  t ≠ ∅ → ∃ n, n ∈ t ∧ ∀ m, m ∈ t → (rank m ≤ rank n)%nat.
Proof.
  induction t as [|x t Hx IH] using set_ind_L; [done|]. intros _.
  destruct (decide (t = ∅)) as [->|Hne]; [exists x; set_solver|].
  destruct (IH Hne) as (n & Hn & Hmax).
  destruct (decide (rank n ≤ rank x)%nat) as [Hle|Hgt].
  - exists x. split; [set_solver|]. intros m [->%elem_of_singleton|Hm]%elem_of_union; [done|].
    specialize (Hmax m Hm). lia.
  - exists n. split; [set_solver|]. intros m [->%elem_of_singleton|Hm]%elem_of_union; [lia|auto].
Qed.

(** The state a request reaches without progress: nothing more to signal. *)
Definition shut_done (plan : stop_plan) (sd : shutdown) : Prop := plan.(plan_services) ⊆ sd.(signalled).

(** C29: services are stopped in dependency order and the protocol does not deadlock: in
    every run that is within the time, a service is signalled only when every service of
    the plan that depends on it is down; and if the dependencies are acyclic, whenever
    the signalled services have gone down and some service is not signalled yet, one can
    be. *)
Theorem shutdown_in_order orders ids s plan sd :
  (∀ k n, n ∈ dom s.(sys_state) → n ∈ orders k) →
  stopServices orders ids true s = Ok plan →
  rtc (shut_step plan) shut_start sd → sd.(expired) = false →
  (∀ n m r, n ∈ sd.(signalled) → m ∈ plan.(plan_services) → s.(sys_state) !! m = Some r →
     n ∈ r.(service).(DependsOn) → m ∈ sd.(down)) ∧
  (∀ rank : string → nat,
     (∀ m r n, s.(sys_state) !! m = Some r → n ∈ r.(service).(DependsOn) → rank n < rank m)%nat →
     sd.(signalled) ⊆ sd.(down) →
     shut_done plan sd ∨
     ∃ n, n ∈ plan.(plan_services) ∖ sd.(signalled) ∧
       shut_step plan sd {| signalled := {[n]} ∪ sd.(signalled); down := sd.(down); expired := false |}).
Proof.
  intros Horders Hplan Hrun Hexp.
  assert (Hwaits : ∀ n m, m ∈ waits plan n ↔
    m ∈ plan.(plan_services) ∧ ∃ r, s.(sys_state) !! m = Some r ∧ n ∈ r.(service).(DependsOn)).
  { unfold stopServices in Hplan. apply bind_Ok_inv in Hplan as (t & _ & [= <-]). simpl. intros n m.
    unfold waits. simpl. rewrite reverse_dependencies_spec, lookup_empty, elem_of_elements. simpl.
    rewrite elem_of_nil. naive_solver. }
  split.
  - intros n m r Hn Hm Hr Hd. apply (shut_order plan sd Hrun Hexp n m Hn). apply Hwaits. eauto.
  - intros rank Hrank Hdown. set (rest := plan.(plan_services) ∖ sd.(signalled)).
    destruct (decide (rest = ∅)) as [Hempty|Hne]; [left; unfold shut_done; set_solver|right].
    assert (∃ n, n ∈ rest ∧ ∀ m, m ∈ rest → (rank m ≤ rank n)%nat) as (n & Hn & Hmax).
    { destruct (max_rank rank rest Hne) as (n & ? & ?). eauto. }
    exists n. split; [done|]. rewrite <- Hexp. apply shut_signal; [set_solver|set_solver|].
    right. intros m (Hm & r & Hr & Hd)%Hwaits. apply Hdown.
    destruct (decide (m ∈ sd.(signalled))) as [|Hnot]; [done|].
    specialize (Hmax m). specialize (Hrank m r n Hr Hd).
    assert (m ∈ rest) as Hrest by set_solver. specialize (Hmax Hrest). lia.
Qed.

Lemma shutdown_in_order_witness :
  let s := (Load [plain_service "containerd" []; plain_service "cri" ["containerd"]] newServices).2 in
  ∃ plan, stopServices (λ _, ["cri"; "containerd"]) None true s = Ok plan ∧
  (∀ n m r, n ∈ shut_start.(signalled) → m ∈ plan.(plan_services) → s.(sys_state) !! m = Some r →
     n ∈ r.(service).(DependsOn) → m ∈ shut_start.(down)) ∧
  (∀ rank : string → nat,
     (∀ m r n, s.(sys_state) !! m = Some r → n ∈ r.(service).(DependsOn) → rank n < rank m)%nat →
     shut_start.(signalled) ⊆ shut_start.(down) →
     shut_done plan shut_start ∨
     ∃ n, n ∈ plan.(plan_services) ∖ shut_start.(signalled) ∧
       shut_step plan shut_start {| signalled := {[n]} ∪ shut_start.(signalled); down := shut_start.(down); expired := false |}).
Proof.
  intros s.
  destruct (stopServices (λ _, ["cri"; "containerd"]) None true s) as [plan|e|p] eqn:Hplan;
    [|destruct e|exfalso; vm_compute in Hplan; discriminate].
  exists plan. split; [reflexivity|].
  apply (shutdown_in_order (λ _, ["cri"; "containerd"]) None s plan shut_start); [|exact Hplan|apply rtc_refl|reflexivity].
  intros k n Hn. assert (dom s.(sys_state) = {["cri"; "containerd"]}) as Hdom by by vm_compute.
  rewrite Hdom in Hn. set_solver.
Defined.

(** ** Loading and starting *)

Definition runners_ok (s : singleton) : Prop := map_Forall (λ _ r, runner_ok r) s.(sys_state).

Lemma load_loop_spec services s :
  runners_ok s →
  let '(ids, s') := load_loop services s in
  ids = ID <$> services ∧ runners_ok s' ∧ s'.(running) = s.(running) ∧
  s'.(terminating) = s.(terminating) ∧ s.(sys_state) ⊆ s'.(sys_state) ∧
  ∀ id, id ∈ ids → is_Some (s'.(sys_state) !! id).
Proof.
  revert s. induction services as [|svc services IH]; intros s Hok; cbn [load_loop].
  { split_and!; try done. intros id Hid. by apply not_elem_of_nil in Hid. }
  set (s1 := match s.(sys_state) !! svc.(ID) with Some _ => s | None => _ end).
  assert (runners_ok s1 ∧ s1.(running) = s.(running) ∧ s1.(terminating) = s.(terminating) ∧
    s.(sys_state) ⊆ s1.(sys_state) ∧ is_Some (s1.(sys_state) !! svc.(ID))) as (Hok1 & Hr1 & Ht1 & Hsub1 & Hs1).
  { unfold s1. destruct (sys_state s !! ID svc) as [r|] eqn:Hr; [eauto|]. split_and!; try done.
    - apply map_Forall_insert_2; [apply runner_ok_new|done].
    - by apply insert_subseteq.
    - simpl. rewrite lookup_insert_eq. by eexists. }
  specialize (IH s1 Hok1). destruct (load_loop services s1) as [ids s2].
  destruct IH as (-> & Hok2 & Hr2 & Ht2 & Hsub2 & Hall). split_and!; [done|done|congruence|congruence|by etrans|].
  intros id [->|Hid]%elem_of_cons; [|auto].
  destruct Hs1 as [r Hr]. exists r. by eapply lookup_weaken.
Qed.

Lemma start_one_spec id s r :
  runners_ok s → s.(sys_state) !! id = Some r →
  ∃ s', start_one id s = Ok (s', []) ∧ runners_ok s' ∧ s'.(terminating) = s.(terminating) ∧
    s'.(running) = {[id]} ∪ s.(running) ∧
    (∀ n, n ≠ id ∨ id ∈ s.(running) → s'.(sys_state) !! n = s.(sys_state) !! n) ∧
    (id ∉ s.(running) → state <$> s'.(sys_state) !! id = Some StateStarting) ∧
    dom s'.(sys_state) = dom s.(sys_state).
Proof.
  intros Hok Hr. unfold start_one. rewrite Hr. case_bool_decide as Hrun.
  { exists s. split_and!; try done. set_solver. }
  destruct (UpdateState_updated StateStarting "Starting service" r) as (r' & res & -> & -> & Hu);
    [by apply (Hok id)|]. cbn [mbind outcome_bind].
  eexists. split; [done|]. split_and!; try done; simpl.
  - apply map_Forall_insert_2; [by destruct Hu|done].
  - intros n [Hne|]; [|done]. by rewrite lookup_insert_ne.
  - intros _. rewrite lookup_insert_eq. simpl. f_equal. by destruct Hu.
  - apply elem_of_dom_2 in Hr. rewrite dom_insert_L. set_solver.
Qed.

Lemma start_loop_spec ids s :
  runners_ok s → (∀ id, id ∈ ids → is_Some (s.(sys_state) !! id)) →
  ∃ s', start_loop ids s = Ok (s', []) ∧ runners_ok s' ∧ s'.(terminating) = s.(terminating) ∧
    s'.(running) = list_to_set ids ∪ s.(running) ∧
    (∀ n, n ∉ ids ∨ n ∈ s.(running) → s'.(sys_state) !! n = s.(sys_state) !! n) ∧
    (∀ n, n ∈ ids → n ∉ s.(running) → state <$> s'.(sys_state) !! n = Some StateStarting) ∧
    dom s'.(sys_state) = dom s.(sys_state).
Proof.
  revert s. induction ids as [|id ids IH]; intros s Hok Hdef; cbn [start_loop].
  { exists s. split_and!; try done; [set_solver|]. intros n Hn. by apply not_elem_of_nil in Hn. }
  destruct (Hdef id) as [r Hr]; [left|].
  destruct (start_one_spec id s r Hok Hr) as (s1 & -> & Hok1 & Ht1 & Hrun1 & Hsame1 & Hst1 & Hdom1).
  cbn [mbind outcome_bind].
  assert (id ∈ s1.(running)) as Hin1 by (rewrite Hrun1; apply elem_of_union_l; by apply elem_of_singleton).
  destruct (IH s1 Hok1) as (s2 & -> & Hok2 & Ht2 & Hrun2 & Hsame2 & Hst2 & Hdom2).
  { intros n Hn. apply elem_of_dom. rewrite Hdom1. apply elem_of_dom, Hdef. by right. }
  cbn [mbind outcome_bind]. exists s2. split_and!; try done; try congruence.
  - rewrite Hrun2, Hrun1. cbn [list_to_set]. clear. set_solver.
  - intros n [[Hne Hn]%not_elem_of_cons|Hn].
    + rewrite Hsame2, Hsame1 by auto. done.
    + rewrite Hsame2, Hsame1; [done| |right; rewrite Hrun1; by apply elem_of_union_r].
      destruct (decide (n = id)) as [->|]; auto.
  - intros n [->|Hn]%elem_of_cons Hnr; [by rewrite Hsame2; [apply Hst1|right]|].
    destruct (decide (n = id)) as [->|Hne]; [by rewrite Hsame2; [apply Hst1|right]|].
    apply Hst2; [done|]. rewrite Hrun1, not_elem_of_union, elem_of_singleton. done.
Qed.

(** [Load] and [Start] of any services, in any combination with those already there:
    [LoadAndStart] never reaches its panic, every one of the services is registered and
    running afterwards, those that were not running are in state [Starting], and all
    others are as they were; once shutdown has begun it does nothing. *)
Theorem load_and_start services s :
  runners_ok s →
  if s.(terminating) then LoadAndStart services s = Ok s
  else ∃ s', LoadAndStart services s = Ok s' ∧ runners_ok s' ∧
    s'.(running) = list_to_set (ID <$> services) ∪ s.(running) ∧
    (∀ n, n ∈ ID <$> services → n ∉ s.(running) → state <$> s'.(sys_state) !! n = Some StateStarting) ∧
    (∀ n, n ∉ ID <$> services → s'.(sys_state) !! n = s.(sys_state) !! n).
Proof.
  intros Hok. unfold LoadAndStart, Load, Start.
  destruct (terminating s) eqn:Hterm; [by rewrite Hterm|].
  assert (Hother : ∀ n, n ∉ ID <$> services → (load_loop services s).2.(sys_state) !! n = s.(sys_state) !! n).
  { clear. revert s. induction services as [|svc services IH]; intros s n Hn; [done|]. cbn [load_loop].
    cbn in Hn. apply not_elem_of_cons in Hn as [Hne Hn].
    set (s1 := match sys_state s !! ID svc with Some _ => s | None => _ end).
    specialize (IH s1 n Hn). destruct (load_loop services s1). simpl in *. rewrite IH. unfold s1.
    destruct (sys_state s !! ID svc); [done|]. simpl. by rewrite lookup_insert_ne. }
  pose proof (load_loop_spec services s Hok) as Hload. destruct (load_loop services s) as [ids s1].
  destruct Hload as (-> & Hok1 & Hr1 & Ht1 & _ & Hdef). rewrite Ht1, Hterm.
  destruct (start_loop_spec _ s1 Hok1 Hdef) as (s2 & -> & Hok2 & _ & Hr2 & Hsame & Hst & _).
  cbn [mbind outcome_bind]. exists s2. rewrite Hr1 in *. split_and!; try done.
  intros n Hn. rewrite Hsame by auto. by apply Hother.
Qed.

Lemma load_and_start_witness :
  let s := newServices in
  let services := [plain_service "containerd" []; plain_service "cri" ["containerd"]] in
  ∃ s', LoadAndStart services s = Ok s' ∧ runners_ok s' ∧
    s'.(running) = list_to_set (ID <$> services) ∪ s.(running) ∧
    (∀ n, n ∈ ID <$> services → n ∉ s.(running) → state <$> s'.(sys_state) !! n = Some StateStarting) ∧
    (∀ n, n ∉ ID <$> services → s'.(sys_state) !! n = s.(sys_state) !! n).
Proof.
  intros s services. apply (load_and_start services s). apply map_Forall_empty.
Defined.

(** [Start] of a service that is not defined records the error and goes on with a
    nil runner: it panics, whatever was started before it in the same call. *)
Theorem start_undefined_panics ids id rest s :
  runners_ok s → s.(terminating) = false → (∀ n, n ∈ ids → is_Some (s.(sys_state) !! n)) →
  s.(sys_state) !! id = None → id ∉ s.(running) →
  Start (ids ++ id :: rest) s = Panic NilDereference.
Proof.
  intros Hok Hterm. unfold Start. rewrite Hterm. clear Hterm.
  revert s Hok. induction ids as [|n ids IH]; intros s Hok Hdef Hnone Hrun; cbn [app start_loop].
  { unfold start_one. rewrite Hnone. by rewrite bool_decide_false by done. }
  destruct (Hdef n) as [r Hr]; [left|].
  destruct (start_one_spec n s r Hok Hr) as (s1 & -> & Hok1 & _ & Hrun1 & Hsame1 & _ & Hdom1).
  cbn [mbind outcome_bind]. assert (id ≠ n) as Hne by congruence. rewrite IH; [done|done| | |].
  - intros k Hk. apply elem_of_dom. rewrite Hdom1. apply elem_of_dom, Hdef. by right.
  - by rewrite Hsame1 by auto.
  - rewrite Hrun1. set_solver.
Qed.

Lemma start_undefined_panics_witness : Start [ "kubelet" ] newServices = Panic NilDereference.
Proof.
  apply (start_undefined_panics [] "kubelet" [] newServices); [apply map_Forall_empty|reflexivity| |reflexivity|].
  - intros n Hn. by apply not_elem_of_nil in Hn.
  - apply not_elem_of_empty.
Defined.

(** ** Unloading *)

Lemma foldr_delete_lookup (l : list string) (m : gmap string ServiceRunner) n :
  foldr delete m l !! n = if bool_decide (n ∈ l) then None else m !! n.
Proof.
  induction l as [|x l IH]; cbn [foldr]; [done|].
  destruct (decide (n = x)) as [->|Hne].
  - rewrite lookup_delete_eq. by rewrite bool_decide_true by left.
  - rewrite lookup_delete_ne, IH by done. apply option_eq. intros v.
    repeat case_bool_decide; set_solver.
Qed.

(** Whatever happens on the other goroutines while the services stop, an [Unload]
    that reports no error before shutdown leaves none of the services it found loaded
    registered or marked as running, and removes nothing else. *)
Theorem unload_removes orders await ids s s' :
  s.(terminating) = false →
  Unload orders await ids s = Ok (s', None) →
  (∀ id, id ∈ ids → is_Some (s.(sys_state) !! id) → s'.(sys_state) !! id = None ∧ id ∉ s'.(running)) ∧
  (∃ s1, Stop orders await (filter (λ id, is_Some (s.(sys_state) !! id)) ids) s = Ok (s1, None) ∧
    ∀ id, id ∉ ids ∨ s.(sys_state) !! id = None →
      s'.(sys_state) !! id = s1.(sys_state) !! id ∧ (id ∈ s'.(running) ↔ id ∈ s1.(running))).
Proof.
  intros Hterm. unfold Unload. rewrite Hterm. set (l := filter _ ids).
  assert (Hl : ∀ id, id ∈ l ↔ is_Some (s.(sys_state) !! id) ∧ id ∈ ids)
    by (intros id; unfold l; by rewrite list_elem_of_filter).
  intros ([s1 [e|]] & Hstop & Hrest)%bind_Ok_inv; [done|]. injection Hrest as <-. simpl. split.
  - intros id Hid Hs. assert (id ∈ l) as Hin by (apply Hl; auto).
    rewrite foldr_delete_lookup, bool_decide_true by done. set_solver.
  - exists s1. split; [done|]. intros id Hid. assert (id ∉ l) as Hnot.
    { rewrite Hl. intros [[r Hr] ?]. destruct Hid; [done|congruence]. }
    rewrite foldr_delete_lookup, bool_decide_false by done. set_solver.
Qed.

Lemma unload_removes_witness :
  let s := (Load [plain_service "cri" []] newServices).2 in
  let await := λ (_ : stop_plan) s, Ok (s, None) in
  (∀ id, id ∈ ["cri"] → is_Some (s.(sys_state) !! id) →
     newServices.(sys_state) !! id = None ∧ id ∉ newServices.(running)) ∧
  (∃ s1, Stop (λ _, []) await (filter (λ id, is_Some (s.(sys_state) !! id)) ["cri"]) s = Ok (s1, None) ∧
    ∀ id, id ∉ ["cri"] ∨ s.(sys_state) !! id = None →
      newServices.(sys_state) !! id = s1.(sys_state) !! id ∧ (id ∈ newServices.(running) ↔ id ∈ s1.(running))).
Proof.
  intros s await.
  apply (unload_removes (λ _, []) await ["cri"] s newServices); [reflexivity|].
  vm_compute. reflexivity.
Defined.
