(* ===== verification/Restart.v ===== *)
(** * System services: the restart policy

    [internal/app/machined/pkg/system/runner/restart/restart.go]: a runner that runs the
    wrapped runner again according to its policy.  One turn of the loop of [Run] is a
    record of what happened in it; [Run] gives the number of runs, the reported states
    and the result ([None] while more turns are to come). *)

From S2P Require Import Prelude ServiceEvents.

Inductive Type_ := Forever | Once | UntilSuccess.
#[export] Instance Type_eq_dec : EqDecision Type_.
Proof. solve_decision. Defined.

Definition Type_String (t : Type_) : string :=
  match t with Forever => "Forever" | Once => "Once" | UntilSuccess => "UntilSuccess" end.

Record Options := { policy : Type_; RestartInterval : Z }.

(** [5 * time.Second], in nanoseconds. *)
Definition DefaultOptions : Options := {| policy := Forever; RestartInterval := 5 * 10 ^ 9 |}.
Definition WithType (t : Type_) (o : Options) : Options :=
  {| policy := t; RestartInterval := o.(RestartInterval) |}.
Definition WithRestartInterval (d : Z) (o : Options) : Options :=
  {| policy := o.(policy); RestartInterval := d |}.
Definition New (opts : list (Options → Options)) : Options := foldl (λ o f, f o) DefaultOptions opts.

Record turn := {
  run_err : option string;      (** what the wrapped [Run] returned *)
  stop_during : bool;           (** the stop request came before it returned *)
  err_stop : option string;     (** what the wrapped [Stop] returned *)
  stop_after : bool             (** the stop request came before the interval was over *)
}.

Section run.
Context (name : string) (t : Type_).

(** What is reported before the next run, [None] when the policy ends the loop here with
    the run's error. *)
Definition restart_event (err : option string) : option (ServiceState * string) :=
  match t, err with
  | Once, _ => None
  | UntilSuccess, None => None
  | UntilSuccess, Some e =>
      Some (StateWaiting, "Error running " +:+ name +:+ ", going to restart until it succeeds: " +:+ e)%string
  | Forever, None =>
      Some (StateWaiting, "Runner " +:+ name +:+ " exited without error, going to restart it")%string
  | Forever, Some e =>
      Some (StateWaiting, "Error running " +:+ name +:+ ", going to restart forever: " +:+ e)%string
  end.

Fixpoint Run (turns : list turn) : nat * list (ServiceState * string) * option (option string) :=
  match turns with
  | [] => (O, [], None)
  | tn :: turns =>
      if tn.(stop_during) then (1%nat, [], Some tn.(run_err))
      else
        match tn.(err_stop) with
        | Some e => (1%nat, [], Some (Some e))
        | None =>
            match restart_event tn.(run_err) with
            | None => (1%nat, [], Some tn.(run_err))
            | Some ev =>
                if tn.(stop_after)
                then (1%nat, [ev; (StateStopping, "Aborting restart sequence"%string)], Some None)
                else
                  let '(n, evs, res) := Run turns in
                  (S n, ev :: evs, res)
            end
        end
  end.
End run.

(** [Stop] closes the stop channel: a second call panics. *)
Definition Stop (closed : bool) : outcome Empty_set bool :=
  if closed then Panic (Explicit "close of closed channel") else Ok true.

(** A turn after which the policy runs again. *)
Definition goes_on (t : Type_) (tn : turn) : Prop :=
  tn.(stop_during) = false ∧ tn.(err_stop) = None ∧ tn.(stop_after) = false ∧
  match t with Forever => True | Once => False | UntilSuccess => is_Some tn.(run_err) end.

(** How the last turn ends the loop. *)
Inductive ends_with (t : Type_) (tn : turn) : option string → Prop :=
  | ends_stopped : tn.(stop_during) = true → ends_with t tn tn.(run_err)
  | ends_stop_error e : tn.(stop_during) = false → tn.(err_stop) = Some e → ends_with t tn (Some e)
  | ends_once : t = Once → tn.(err_stop) = None → ends_with t tn tn.(run_err)
  | ends_success : t = UntilSuccess → tn.(err_stop) = None → tn.(run_err) = None → ends_with t tn None
  | ends_aborted : t ≠ Once → tn.(err_stop) = None → tn.(stop_after) = true → ends_with t tn None.

(** The restart policy: a run of the loop that returns has run the wrapped runner
    once per turn; every turn but the last was one the policy restarts ([Once] never,
    [UntilSuccess] only after an error), each reported as [Waiting]; and the last turn
    ends it for one of the five reasons, with that reason's result.  In particular
    [Once] runs exactly once, and [Forever] ends only on a stop request or a failing
    [Stop]. *)
Theorem restart_policy name t turns n evs res :
  Run name t turns = (n, evs, Some res) →
  ∃ before tn, take n turns = before ++ [tn] ∧ length before = pred n ∧
    Forall (goes_on t) before ∧ ends_with t tn res ∧
    Forall (λ ev, ev.1 = StateWaiting) (take (length before) evs) ∧ (length before ≤ length evs)%nat.
Proof.
  revert n evs. induction turns as [|tn turns IH]; intros n evs; cbn [Run]; [done|].
  destruct (stop_during tn) eqn:Hsd.
  { intros [= <- <- <-]. exists [], tn. split_and!; try done. by apply ends_stopped. }
  destruct (err_stop tn) as [e|] eqn:Hes.
  { intros [= <- <- <-]. exists [], tn. split_and!; try done. by apply ends_stop_error. }
  destruct (restart_event name t (run_err tn)) as [ev|] eqn:Hev.
  - assert (t ≠ Once ∧ ev.1 = StateWaiting ∧ (t = UntilSuccess → is_Some (run_err tn))) as (Ht & Hw & Hu)
      by (unfold restart_event in Hev; destruct t, (run_err tn); naive_solver).
    destruct (stop_after tn) eqn:Hsa.
    { intros [= <- <- <-]. exists [], tn. split_and!; try done; [|simpl; lia]. by apply ends_aborted. }
    destruct (Run name t turns) as [[n' evs'] res'] eqn:Hrun. intros [= <- <- ->].
    destruct (IH n' evs' eq_refl) as (before & last & Htake & Hlen & Hall & Hends & Hwait & Hle).
    exists (tn :: before), last. cbn [take firstn length]. rewrite Htake.
    split_and!; try done; [|constructor; [|done]|by constructor|simpl; lia].
    + destruct n'; [by destruct before|]. simpl. lia.
    + split_and!; try done. destruct t; [done|done|auto].
  - intros [= <- <- <-]. exists [], tn. split_and!; try done.
    unfold restart_event in Hev. destruct t, (run_err tn) eqn:Hre; try done.
    + rewrite <- Hre. by apply ends_once.
    + rewrite <- Hre. by apply ends_once.
    + by apply ends_success.
Qed.

Lemma restart_policy_witness :
  let failing := {| run_err := Some "exit 1"%string; stop_during := false; err_stop := None; stop_after := false |} in
  let clean := {| run_err := None; stop_during := false; err_stop := None; stop_after := false |} in
  ∃ before tn, take 2 [failing; clean; failing] = before ++ [tn] ∧ length before = 1%nat ∧
    Forall (goes_on UntilSuccess) before ∧ ends_with UntilSuccess tn None ∧
    Forall (λ ev, ev.1 = StateWaiting)
      (take (length before) (Run "cri" UntilSuccess [failing; clean; failing]).1.2) ∧
    (length before ≤ length (Run "cri" UntilSuccess [failing; clean; failing]).1.2)%nat.
Proof.
  intros failing clean.
  apply (restart_policy "cri" UntilSuccess [failing; clean; failing] 2). reflexivity.
Defined.
