(* ===== verification/Sequence.v ===== *)
(** * Runtime: sequences and modes

    [internal/app/machined/pkg/runtime/sequencer.go] and [mode.go]: the sequences with
    their takeover relation, the runtime modes with their capabilities, and the textual
    forms of both. *)

From S2P Require Import Prelude.

(** ** Sequences *)

Inductive Sequence :=
  | SequenceNoop
  | SequenceBoot
  | SequenceInitialize
  | SequenceInstall
  | SequenceShutdown
  | SequenceUpgrade
  | SequenceStageUpgrade
  | SequenceMaintenanceUpgrade
  | SequenceReset
  | SequenceReboot.

#[export] Instance Sequence_eq_dec : EqDecision Sequence.
Proof. solve_decision. Defined.

Definition Sequence_String (s : Sequence) : string :=
  match s with
  | SequenceNoop => "noop"
  | SequenceBoot => "boot"
  | SequenceInitialize => "initialize"
  | SequenceInstall => "install"
  | SequenceShutdown => "shutdown"
  | SequenceUpgrade => "upgrade"
  | SequenceStageUpgrade => "stageUpgrade"
  | SequenceMaintenanceUpgrade => "maintenanceUpgrade"
  | SequenceReset => "reset"
  | SequenceReboot => "reboot"
  end.

(** [sequenceTakeOver]: by running sequence, the sequences that may take it over. *)
Definition sequenceTakeOver (running : Sequence) : option (list Sequence) :=
  match running with
  | SequenceInitialize => Some [SequenceMaintenanceUpgrade]
  | SequenceBoot => Some [SequenceReboot; SequenceReset; SequenceUpgrade]
  | SequenceReboot => Some [SequenceReboot]
  | SequenceReset => Some [SequenceReboot]
  | _ => None
  end.

Definition Sequence_CanTakeOver (s running : Sequence) : bool :=
  if bool_decide (running = SequenceNoop) then true
  else
    match sequenceTakeOver running with
    | Some sequences => bool_decide (s ∈ sequences)
    | None => false
    end.

(** [ParseSequence]: the error is the text it does not know; the value next to it is the
    zero sequence. *)
Definition ParseSequence (s : string) : string + Sequence :=
  if String.eqb s "boot" then inr SequenceBoot
  else if String.eqb s "initialize" then inr SequenceInitialize
  else if String.eqb s "install" then inr SequenceInstall
  else if String.eqb s "shutdown" then inr SequenceShutdown
  else if String.eqb s "upgrade" then inr SequenceUpgrade
  else if String.eqb s "stageUpgrade" then inr SequenceStageUpgrade
  else if String.eqb s "maintenanceUpgrade" then inr SequenceMaintenanceUpgrade
  else if String.eqb s "reset" then inr SequenceReset
  else if String.eqb s "reboot" then inr SequenceReboot
  else if String.eqb s "noop" then inr SequenceNoop
  else inl s.

(** ** Modes *)

Inductive Mode := ModeCloud | ModeContainer | ModeMetal | ModeMetalAgent.

#[export] Instance Mode_eq_dec : EqDecision Mode.
Proof. solve_decision. Defined.

(** The value of the constant, for the array lookups. *)
Definition mode_index (m : Mode) : Z :=
  match m with ModeCloud => 0 | ModeContainer => 1 | ModeMetal => 2 | ModeMetalAgent => 3 end.

Definition Mode_String (m : Mode) : outcome Empty_set string :=
  go_index ["cloud"; "container"; "metal"; "metal-agent"]%string (mode_index m).

Definition RequiresInstall (m : Mode) : bool := bool_decide (m = ModeMetal).
Definition InContainer (m : Mode) : bool := bool_decide (m = ModeContainer).
Definition IsAgent (m : Mode) : bool := bool_decide (m = ModeMetalAgent).

(** [ModeCapability] flags. *)
Definition Reboot : Z := Z.shiftl 1 0.
Definition Rollback : Z := Z.shiftl 1 1.
Definition Shutdown : Z := Z.shiftl 1 2.
Definition Upgrade : Z := Z.shiftl 1 3.
Definition MetaKV : Z := Z.shiftl 1 4.

(** [^uint64(0)]. *)
Definition all : Z := 2 ^ 64 - 1.

Definition capabilities (m : Mode) : outcome Empty_set Z :=
  go_index
    [all;
     Z.lxor all (Z.lor (Z.lor (Z.lor (Z.lor Reboot Shutdown) Upgrade) Rollback) MetaKV);
     all]
    (mode_index m).

Definition Supports (m : Mode) (feature : Z) : outcome Empty_set bool :=
  caps ← capabilities m;
  Ok (negb (Z.land caps feature =? 0)).

Definition ParseMode (s : string) : string + Mode :=
  if String.eqb s "cloud" then inr ModeCloud
  else if String.eqb s "container" then inr ModeContainer
  else if String.eqb s "metal" then inr ModeMetal
  else if String.eqb s "metal-agent" then inr ModeMetalAgent
  else inl s.

(** ** Names *)

Ltac parse_cases :=
  repeat match goal with
    | |- context [String.eqb ?a ?b] => destruct (String.eqb_spec a b)
    end.

(** the names of sequences and modes: parsing what [String] prints gives the value
    back, every text that parses is the one [String] prints, and every other text is
    refused with an error that carries it. *)
Theorem names_roundtrip :
  (∀ s : Sequence, ParseSequence (Sequence_String s) = inr s) ∧
  (∀ x, match ParseSequence x with
        | inr s => Sequence_String s = x
        | inl e => e = x ∧ ∀ s, Sequence_String s ≠ x
        end) ∧
  (∀ m : Mode, ∃ x, Mode_String m = Ok x ∧ ParseMode x = inr m) ∧
  (∀ x, match ParseMode x with
        | inr m => Mode_String m = Ok x
        | inl e => e = x ∧ ∀ m, Mode_String m ≠ Ok x
        end).
Proof.
  split_and!.
  - by intros [].
  - intros x. unfold ParseSequence. parse_cases; try by subst.
    split; [done|]. by intros [] <-.
  - intros []; by eexists.
  - intros x. unfold ParseMode. parse_cases; try by subst.
    split; [done|]. intros [] [= <-]; done.
Qed.

(** ** Capabilities *)

Lemma container_capabilities : capabilities ModeContainer = Ok (2 ^ 64 - 32).
Proof. reflexivity. Qed.

(** Masking a 64-bit flag with all but the five low bits leaves nothing exactly when no
    other bit is set. *)
Lemma land_high f : 0 ≤ f < 2 ^ 64 → (Z.land (2 ^ 64 - 32) f =? 0) = (f <? 32).
Proof.
  intros Hf. replace (2 ^ 64 - 32) with (Z.shiftl (Z.ones 59) 5) by reflexivity.
  destruct (Z.ltb_spec f 32) as [Hlt|Hge]; [apply Z.eqb_eq|apply Z.eqb_neq].
  - replace f with (Z.land (Z.ones 5) f)
      by (rewrite Z.land_comm, Z.land_ones by lia; apply Z.mod_small; lia).
    rewrite Z.land_assoc. replace (Z.land _ (Z.ones 5)) with 0 by reflexivity. apply Z.land_0_l.
  - intros H0. assert (Z.shiftr (Z.land (Z.shiftl (Z.ones 59) 5) f) 5 = f / 2 ^ 5) as Hs.
    { rewrite Z.shiftr_land, Z.shiftr_shiftl_l, Z.shiftl_0_r by lia.
      rewrite Z.land_comm, Z.land_ones, Z.shiftr_div_pow2 by lia.
      apply Z.mod_small. split; [apply Z.div_pos; lia|]. apply Z.div_lt_upper_bound; lia. }
    rewrite H0, Z.shiftr_0_l in Hs. assert (1 ≤ f / 2 ^ 5) by (apply Z.div_le_lower_bound; lia). lia.
Qed.

(** The capabilities of a mode: cloud and metal have every feature, a container
    exactly those that are none of the five named ones, and asking an agent panics,
    because the array of capabilities ends before its index. *)
Theorem supports_by_mode m feature :
  0 ≤ feature < 2 ^ 64 →
  Supports m feature =
  match m with
  | ModeCloud | ModeMetal => Ok (0 <? feature)
  | ModeContainer => Ok (32 <=? feature)
  | ModeMetalAgent => Panic IndexRange
  end.
Proof.
  intros Hf. unfold Supports.
  assert (Hall : (Z.land all feature =? 0) = (feature =? 0)).
  { replace all with (Z.ones 64) by reflexivity.
    rewrite Z.land_comm, Z.land_ones, Z.mod_small by lia. done. }
  destruct m.
  1, 3: change (capabilities _) with (Ok all : outcome Empty_set Z); cbn [mbind outcome_bind];
    rewrite Hall; f_equal; destruct (Z.eqb_spec feature 0), (Z.ltb_spec 0 feature); simpl; lia.
  - rewrite container_capabilities. cbn [mbind outcome_bind]. rewrite land_high by done.
    f_equal. destruct (Z.ltb_spec feature 32), (Z.leb_spec 32 feature); simpl; lia.
  - done.
Qed.

Lemma supports_by_mode_witness :
  Supports ModeContainer Upgrade = Ok false ∧ Supports ModeMetalAgent Reboot = Panic IndexRange.
Proof.
  split.
  - by apply (supports_by_mode ModeContainer Upgrade).
  - by apply (supports_by_mode ModeMetalAgent Reboot).
Defined.
