(* ===== verification/Sequencer.v ===== *)
(** * Runtime: the phases of each sequence

    [internal/app/machined/pkg/runtime/v1alpha1/v1alpha1_sequencer.go] with the task
    wrappers of [v1alpha1_sequencer_tasks.go] and the two build variants of
    [sequence_surface_*.go] and [v1alpha1_sequencer_leave_phase_*.go]: the list of phases
    each sequence runs, as a function of the machine and of the request.  A task is its
    name; what it does is left to the environment of a run (Controller.v). *)

From S2P Require Import Prelude Sequence.

(** ** Tasks *)
Module Task.
Inductive t :=
  | StartMachined | StartContainerd | LoadConfig | EnforceKSPPRequirements
  | StartUdevd | StartAuditd | StartSyslogd | WaitForUSB | ReloadMeta
  | CleanupBootloader | StartDashboard | ResetSystemDiskPartitions | haltIfInstalled
  | SetUserEnvVars | Install | FlushMeta | TeardownVolumeLifecycle | StopAllServices
  | KexecPrepare | Reboot | MemorySizeCheck | DiskSizeCheck | WaitForCARoots
  | StartDBus | SetupSharedFilesystems | MountEphemeralPartition | WriteUdevRules
  | MountUserDisks | WriteUserFiles | StartAllServices | StopAllPods | StopDBus
  | Shutdown | CordonAndDrainNode | RemoveAllPods | LeaveClusterMembership
  | SendResetSignal | ForceCleanup | ResetSystemDisk | ResetSystemDiskSpec
  | ResetUserDisks | StoreShutdownEmergency | Upgrade | UnmountPodMounts
  | UnmountSystemDiskBindMounts | UnmountEphemeralPartition | StopServicesEphemeral.

#[global] Instance t_eq_dec : EqDecision t.
Proof. solve_decision. Defined.
End Task.

(** A task with the wrappers around it; the only handler the sequencer passes is
    [logError]. *)
Inductive TaskSetupFunc :=
  | Plain (name : Task.t)
  | pauseOnFailure (callback : TaskSetupFunc)
  | taskErrorHandler (task : TaskSetupFunc).
Coercion Plain : Task.t >-> TaskSetupFunc.

(** The wrappers keep the name of the task. *)
Fixpoint task_of (f : TaskSetupFunc) : Task.t :=
  match f with
  | Plain name => name
  | pauseOnFailure f | taskErrorHandler f => task_of f
  end.

(** What the wrapped function returns when the task itself returns [err]: [logError]
    drops the error, the pause keeps it. *)
Fixpoint task_result {E} (f : TaskSetupFunc) (err : option E) : option E :=
  match f with
  | Plain _ => err
  | pauseOnFailure f => task_result f err
  | taskErrorHandler f => match task_result f err with Some _ => None | None => None end
  end.

(** ** The machine *)

(** What the sequencer reads: the platform's mode, the state of the installation, the
    META tag of the boot loader, the kernel parameters, and for the default build the
    machine type. *)
Record Runtime := {
  mode : Mode;
  Installed : bool;
  IsInstallStaged : bool;
  DiskImageBootloader : option string;
  KernelParamWipe : option string;
  KernelParamHaltIfInstalled : option string;
  KernelParamDashboardDisabled : option string;
  TypeWorker : bool
}.

Record Phase := {
  Name : string;
  Tasks : list TaskSetupFunc;
  CheckFunc : option (Runtime → bool)
}.

Notation PhaseList := (list Phase).

Definition Append (name : string) (tasks : list TaskSetupFunc) (p : PhaseList) : PhaseList :=
  p ++ [{| Name := name; Tasks := tasks; CheckFunc := None |}].

Definition AppendWhen (when : bool) (name : string) (tasks : list TaskSetupFunc) (p : PhaseList) : PhaseList :=
  if when then Append name tasks p else p.

Definition AppendWithDeferredCheck (check : Runtime → bool) (name : string)
    (tasks : list TaskSetupFunc) (p : PhaseList) : PhaseList :=
  p ++ [{| Name := name; Tasks := tasks; CheckFunc := Some check |}].

Definition AppendList (l : PhaseList) (p : PhaseList) : PhaseList := p ++ l.

Declare Scope phase_scope.
Delimit Scope phase_scope with phase.
(** [p.Append(...).Append(...)] *)
Notation "p '>>' f" := (f p) (at level 50, left associativity, only parsing) : phase_scope.
(** A list of tasks without wrappers. *)
Notation "'⟦' x ; .. ; y '⟧'" := (cons (Plain x) .. (cons (Plain y) nil) ..) (only parsing) : phase_scope.
#[local] Open Scope phase_scope.

Definition phaseListErrorHandler (phases : PhaseList) : PhaseList :=
  (λ p, {| Name := p.(Name); Tasks := taskErrorHandler <$> p.(Tasks); CheckFunc := p.(CheckFunc) |})
  <$> phases.

(** [strconv.ParseBool] with its error ignored. *)
Definition ParseBool (s : string) : bool :=
  bool_decide (s ∈ ["1"; "t"; "T"; "TRUE"; "true"; "True"]%string).

(** [pointer.SafeDeref]. *)
Definition SafeDeref (p : option string) : string := default "" p.

Section sequencer.
(** Whether this is the build with the [chubo] tag. *)
Context (chubo : bool).
Context (r : Runtime).

Definition initializeEarlyServicesTasks : list TaskSetupFunc :=
  ⟦Task.StartUdevd; Task.StartMachined; Task.StartAuditd;
   Task.StartSyslogd; Task.StartContainerd⟧.

Definition shouldStartDashboard (mode : Mode) (r : Runtime) : bool :=
  if chubo then false
  else if bool_decide (mode = ModeMetalAgent) then false
  else negb (ParseBool (SafeDeref r.(KernelParamDashboardDisabled))).

Definition shouldRunLeavePhase : bool := if chubo then true else negb r.(TypeWorker).

Definition Initialize : PhaseList :=
  match r.(mode) with
  | ModeContainer =>
      []
      >> Append "machined" ⟦Task.StartMachined; Task.StartContainerd⟧
      >> Append "config" ⟦Task.LoadConfig⟧
  | _ =>
      []
      >> Append "systemRequirements" ⟦Task.EnforceKSPPRequirements⟧
      >> Append "earlyServices" initializeEarlyServicesTasks
      >> Append "usb" ⟦Task.WaitForUSB⟧
      >> Append "meta" ⟦Task.ReloadMeta⟧
      >> AppendWithDeferredCheck
           (λ r, match r.(DiskImageBootloader) with
                 | None => false
                 | Some val => r.(Installed) && String.eqb val "dual-boot"
                 end)
           "cleanupBootloader" ⟦Task.CleanupBootloader⟧
      >> AppendWithDeferredCheck (shouldStartDashboard r.(mode)) "dashboard" ⟦Task.StartDashboard⟧
      >> AppendWithDeferredCheck (λ r, negb (String.eqb (SafeDeref r.(KernelParamWipe)) ""))
           "wipeDisks" ⟦Task.ResetSystemDiskPartitions⟧
      >> AppendWithDeferredCheck
           (λ r, r.(Installed) && ParseBool (SafeDeref r.(KernelParamHaltIfInstalled)))
           "haltIfInstalled" ⟦Task.haltIfInstalled⟧
      >> Append "config" ⟦Task.LoadConfig⟧
  end.

Definition Install : PhaseList :=
  match r.(mode) with
  | ModeContainer => []
  | _ =>
      if negb r.(Installed) || r.(IsInstallStaged) then
        []
        >> Append "env" ⟦Task.SetUserEnvVars⟧
        >> Append "install" ⟦Task.Install⟧
        >> Append "meta" ⟦Task.ReloadMeta⟧
        >> Append "saveMeta" ⟦Task.FlushMeta⟧
        >> Append "volumeFinalize" ⟦Task.TeardownVolumeLifecycle⟧
        >> Append "stopEverything" ⟦Task.StopAllServices⟧
        >> Append "kexec" ⟦Task.KexecPrepare⟧
        >> Append "reboot" ⟦Task.Reboot⟧
      else []
  end.

Definition Boot : PhaseList :=
  let container := bool_decide (r.(mode) = ModeContainer) in
  []
  >> Append "memorySizeCheck" ⟦Task.MemorySizeCheck⟧
  >> Append "diskSizeCheck" ⟦Task.DiskSizeCheck⟧
  >> Append "env" ⟦Task.SetUserEnvVars; Task.WaitForCARoots⟧
  >> Append "dbus" ⟦Task.StartDBus⟧
  >> AppendWhen container "sharedFilesystems" ⟦Task.SetupSharedFilesystems⟧
  >> Append "ephemeral" ⟦Task.MountEphemeralPartition⟧
  >> AppendWhen (negb container) "udevSetup" ⟦Task.WriteUdevRules⟧
  >> AppendWhen (negb container) "userDisks" [pauseOnFailure Task.MountUserDisks]
  >> Append "userSetup" [pauseOnFailure Task.WriteUserFiles]
  >> Append "startEverything" ⟦Task.StartAllServices⟧.

Definition stopAllPhaselist (enableKexec : bool) : PhaseList :=
  match r.(mode) with
  | ModeContainer => [] >> Append "stopEverything" ⟦Task.StopAllServices⟧
  | _ =>
      []
      >> Append "stopServices" ⟦Task.StopServicesEphemeral⟧
      >> Append "umount" ⟦Task.UnmountPodMounts⟧
      >> Append "unmountBind" ⟦Task.UnmountSystemDiskBindMounts⟧
      >> Append "unmountSystem" ⟦Task.UnmountEphemeralPartition⟧
      >> Append "volumeFinalize" ⟦Task.TeardownVolumeLifecycle⟧
      >> AppendWhen enableKexec "kexec" ⟦Task.KexecPrepare⟧
      >> Append "stopEverything" ⟦Task.StopAllServices⟧
  end.

(** ** Requests

    The getters of a nil request give the zero values, so a request that is missing is
    the one with these; the enumerations of the API are open. *)

Definition RebootRequest_DEFAULT : Z := 0.
Definition RebootRequest_FORCE : Z := 2.
Definition UpgradeRequest_DEFAULT : Z := 0.
Definition ResetRequest_ALL : Z := 0.
Definition ResetRequest_SYSTEM_DISK : Z := 1.
Definition ResetRequest_USER_DISKS : Z := 2.
Definition BootPartitionLabel : string := "BOOT".

Record RebootRequest := { RebootMode : Z }.
Record UpgradeRequest := { UpgradeRebootMode : Z }.
Record ShutdownRequest := { Force : bool }.

(** [ResetOptions]; a partition target is its label. *)
Record ResetOptions := {
  GetGraceful : bool;
  GetReboot : bool;
  GetMode : Z;
  GetUserDisksToWipe : list string;
  GetSystemDiskTargets : list string
}.

Definition bootPartitionInTargets (targets : list string) : bool :=
  existsb (λ label, String.eqb label BootPartitionLabel) targets.

Definition RebootSequence (req : RebootRequest) : PhaseList :=
  (if negb (req.(RebootMode) =? RebootRequest_FORCE) then
     []
     >> Append "cleanup" ⟦Task.StopAllPods⟧
     >> Append "dbus" ⟦Task.StopDBus⟧
     >> AppendList (stopAllPhaselist true)
   else [])
  >> Append "reboot" ⟦Task.Reboot⟧.

Definition Reset (req : ResetOptions) : PhaseList :=
  let targets := req.(GetSystemDiskTargets) in
  let withKexec := if zlen targets >? 0 then negb (bootPartitionInTargets targets) else false in
  let resetUserDisks :=
    (req.(GetMode) =? ResetRequest_ALL) || (req.(GetMode) =? ResetRequest_USER_DISKS) in
  let resetSystemDisk :=
    (req.(GetMode) =? ResetRequest_ALL) || (req.(GetMode) =? ResetRequest_SYSTEM_DISK) in
  match r.(mode) with
  | ModeContainer =>
      []
      >> AppendList (stopAllPhaselist false)
      >> Append "shutdown" ⟦Task.Shutdown⟧
  | _ =>
      []
      >> AppendWhen req.(GetGraceful) "drain" [taskErrorHandler Task.CordonAndDrainNode]
      >> AppendWhen req.(GetGraceful) "cleanup" [taskErrorHandler Task.RemoveAllPods]
      >> AppendWhen (negb req.(GetGraceful)) "cleanup" [taskErrorHandler Task.StopAllPods]
      >> Append "dbus" ⟦Task.StopDBus⟧
      >> AppendWhen (req.(GetGraceful) && shouldRunLeavePhase) "leave" ⟦Task.LeaveClusterMembership⟧
      >> Append "preReset" ⟦Task.SendResetSignal⟧
      >> AppendList (phaseListErrorHandler (stopAllPhaselist withKexec))
      >> Append "forceCleanup" ⟦Task.ForceCleanup⟧
      >> AppendWhen ((zlen targets =? 0) && resetSystemDisk) "reset" ⟦Task.ResetSystemDisk⟧
      >> AppendWhen ((zlen targets >? 0) && resetSystemDisk) "resetSpec" ⟦Task.ResetSystemDiskSpec⟧
      >> AppendWhen ((zlen req.(GetUserDisksToWipe) >? 0) && resetUserDisks) "resetUserDisks"
           ⟦Task.ResetUserDisks⟧
      >> AppendWhen req.(GetReboot) "reboot" ⟦Task.Reboot⟧
      >> AppendWhen (negb req.(GetReboot)) "shutdown" ⟦Task.Shutdown⟧
  end.

Definition ShutdownSequence (req : ShutdownRequest) : PhaseList :=
  []
  >> Append "storeShutdown" ⟦Task.StoreShutdownEmergency⟧
  >> AppendWhen (negb req.(Force)) "drain" ⟦Task.CordonAndDrainNode⟧
  >> Append "cleanup" ⟦Task.StopAllPods⟧
  >> Append "dbus" ⟦Task.StopDBus⟧
  >> AppendList (stopAllPhaselist false)
  >> Append "shutdown" ⟦Task.Shutdown⟧.

Definition StageUpgrade (req : UpgradeRequest) : PhaseList :=
  match r.(mode) with
  | ModeContainer => []
  | _ =>
      []
      >> Append "cleanup" ⟦Task.StopAllPods⟧
      >> Append "dbus" ⟦Task.StopDBus⟧
      >> AppendList (stopAllPhaselist (req.(UpgradeRebootMode) =? UpgradeRequest_DEFAULT))
      >> Append "reboot" ⟦Task.Reboot⟧
  end.

Definition MaintenanceUpgrade (req : UpgradeRequest) : PhaseList :=
  match r.(mode) with
  | ModeContainer => []
  | _ =>
      []
      >> Append "upgrade" ⟦Task.Upgrade⟧
      >> Append "meta" ⟦Task.ReloadMeta⟧
      >> AppendWhen (req.(UpgradeRebootMode) =? UpgradeRequest_DEFAULT) "kexec" ⟦Task.KexecPrepare⟧
      >> Append "stopEverything" ⟦Task.StopAllServices⟧
      >> Append "reboot" ⟦Task.Reboot⟧
  end.

Definition UpgradeSequence (req : UpgradeRequest) : PhaseList :=
  match r.(mode) with
  | ModeContainer => []
  | _ =>
      []
      >> Append "drain" ⟦Task.CordonAndDrainNode⟧
      >> Append "cleanup" ⟦Task.StopAllPods⟧
      >> Append "dbus" ⟦Task.StopDBus⟧
      >> Append "stopServices" ⟦Task.StopServicesEphemeral⟧
      >> Append "unmount" ⟦Task.UnmountPodMounts⟧
      >> Append "unmountBind" ⟦Task.UnmountSystemDiskBindMounts⟧
      >> Append "unmountSystem" ⟦Task.UnmountEphemeralPartition⟧
      >> Append "volumeFinalize" ⟦Task.TeardownVolumeLifecycle⟧
      >> Append "upgrade" ⟦Task.Upgrade⟧
      >> Append "meta" ⟦Task.ReloadMeta⟧
      >> AppendWhen (req.(UpgradeRebootMode) =? UpgradeRequest_DEFAULT) "kexec" ⟦Task.KexecPrepare⟧
      >> Append "stopEverything" ⟦Task.StopAllServices⟧
      >> Append "reboot" ⟦Task.Reboot⟧
  end.

(** ** [Controller.phases] *)

(** The data a sequence is run with. *)
Inductive data :=
  | NoData
  | DataShutdown (req : ShutdownRequest)
  | DataReboot (req : RebootRequest)
  | DataUpgrade (req : UpgradeRequest)
  | DataReset (req : ResetOptions).

Inductive run_error := ErrUndefinedRuntime | ErrInvalidSequenceData | ErrLocked | ErrTimeout | ErrCanceled | ErrTask (e : string).

(** The error of the [default] case needs a number that is no sequence. *)
Definition phases (seq : Sequence) (d : data) : run_error + PhaseList :=
  match seq, d with
  | SequenceBoot, _ => inr Boot
  | SequenceInitialize, _ => inr Initialize
  | SequenceInstall, _ => inr Install
  | SequenceShutdown, DataShutdown req => inr (ShutdownSequence req)
  | SequenceReboot, DataReboot req => inr (RebootSequence req)
  | SequenceReboot, _ => inr (RebootSequence {| RebootMode := RebootRequest_DEFAULT |})
  | SequenceUpgrade, DataUpgrade req => inr (UpgradeSequence req)
  | SequenceStageUpgrade, DataUpgrade req => inr (StageUpgrade req)
  | SequenceMaintenanceUpgrade, DataUpgrade req => inr (MaintenanceUpgrade req)
  | SequenceReset, DataReset req => inr (Reset req)
  | SequenceNoop, _ => inr []
  | _, _ => inl ErrInvalidSequenceData
  end.
End sequencer.

(** ** Order of the phases *)

Definition has (t : Task.t) (p : Phase) : bool :=
  existsb (λ f, bool_decide (task_of f = t)) p.(Tasks).
Definition planned (t : Task.t) (l : PhaseList) : bool := existsb (has t) l.















Section order.
Context (chubo : bool) (r : Runtime).





End order.





(** ** What a reset does *)

Lemma zlen_eqb_0 {A} (l : list A) : (zlen l =? 0) = match l with [] => true | _ => false end.
Proof. destruct l; [done|]. apply Z.eqb_neq. autorewrite with zlen. pose proof (zlen_nonneg l). lia. Qed.

Lemma zlen_gtb_0 {A} (l : list A) : (zlen l >? 0) = match l with [] => false | _ => true end.
Proof. destruct l; [done|]. rewrite Z.gtb_ltb. apply Z.ltb_lt. autorewrite with zlen. pose proof (zlen_nonneg l). lia. Qed.

Lemma bootPartition_spec targets :
  bootPartitionInTargets targets = true ↔ BootPartitionLabel ∈ targets.
Proof.
  unfold bootPartitionInTargets. rewrite existsb_exists. setoid_rewrite String.eqb_eq.
  setoid_rewrite <- list_elem_of_In. naive_solver.
Qed.

(** The tasks of a reset whose failure does not stop it. *)
Definition best_effort : list Task.t :=
  [Task.CordonAndDrainNode; Task.RemoveAllPods; Task.StopAllPods; Task.StopServicesEphemeral;
   Task.UnmountPodMounts; Task.UnmountSystemDiskBindMounts; Task.UnmountEphemeralPartition;
   Task.TeardownVolumeLifecycle; Task.KexecPrepare; Task.StopAllServices].

Definition ignores_errors (l : PhaseList) : bool :=
  forallb (λ p, forallb (λ f,
    negb (bool_decide (task_of f ∈ best_effort)) || negb (bool_decide (task_result f (Some tt) = Some tt)))
    p.(Tasks)) l.

Definition wipes (req : ResetOptions) (m : Z) : Prop :=
  req.(GetMode) = ResetRequest_ALL ∨ req.(GetMode) = m.

Lemma reset_tasks chubo r req :
  r.(mode) ≠ ModeContainer →
  let l := Reset chubo r req in
  let empty := match req.(GetSystemDiskTargets) with [] => true | _ => false end in
  let sys := (req.(GetMode) =? ResetRequest_ALL) || (req.(GetMode) =? ResetRequest_SYSTEM_DISK) in
  let user := (req.(GetMode) =? ResetRequest_ALL) || (req.(GetMode) =? ResetRequest_USER_DISKS) in
  planned Task.KexecPrepare l = negb empty && negb (bootPartitionInTargets req.(GetSystemDiskTargets)) ∧
  planned Task.ResetSystemDisk l = empty && sys ∧
  planned Task.ResetSystemDiskSpec l = negb empty && sys ∧
  planned Task.ResetUserDisks l = match req.(GetUserDisksToWipe) with [] => false | _ => true end && user ∧
  planned Task.Reboot l = req.(GetReboot) ∧
  planned Task.Shutdown l = negb req.(GetReboot) ∧
  ignores_errors l = true.
Proof.
  intros Hmode. cbv zeta. unfold Reset. cbv zeta. rewrite zlen_eqb_0, !zlen_gtb_0.
  generalize ((GetMode req =? ResetRequest_ALL) || (GetMode req =? ResetRequest_SYSTEM_DISK)) as sys.
  generalize ((GetMode req =? ResetRequest_ALL) || (GetMode req =? ResetRequest_USER_DISKS)) as user.
  generalize (match GetUserDisksToWipe req with [] => false | _ => true end) as disks.
  generalize (bootPartitionInTargets (GetSystemDiskTargets req)) as boot.
  generalize (shouldRunLeavePhase chubo r) as leave.
  intros leave boot disks user sys.
  destruct (mode r) eqn:Hm; [|done|..]; unfold stopAllPhaselist; rewrite Hm;
    destruct (GetSystemDiskTargets req), (GetReboot req), (GetGraceful req), leave, boot, disks, user, sys;
    split_and!; reflexivity.
Qed.

Lemma ignores_errorsP l E p f (err : option E) :
  ignores_errors l = true → p ∈ l → f ∈ p.(Tasks) → task_of f ∈ best_effort → task_result f err = None.
Proof.
  unfold ignores_errors. rewrite forallb_forall. intros Hall Hp Hf Hb.
  specialize (Hall p). rewrite <- list_elem_of_In, forallb_forall in Hall. specialize (Hall Hp f).
  rewrite <- list_elem_of_In in Hall. specialize (Hall Hf).
  rewrite bool_decide_true in Hall by done. simpl in Hall. apply negb_true_iff, bool_decide_eq_false in Hall.
  clear -Hall. induction f as [n|f IH|f IH]; simpl in *; [done|auto|]. by destruct (task_result f err).
Qed.

(** The plan of a reset.  Outside containers: the next kernel is loaded by kexec exactly
    when partitions are named and the boot partition is not among them; the system disk
    is wiped as a whole exactly when none is named, else only the named ones, and user
    disks only when some are named, each only in a mode that asks for it; the machine
    reboots or shuts down as requested; and no failure of draining, of stopping services
    or of unmounting stops the reset.  In a container nothing is wiped, and it shuts
    down even when a reboot was requested. *)
Theorem reset_plan chubo r req :
  let l := Reset chubo r req in
  let targets := req.(GetSystemDiskTargets) in
  if bool_decide (r.(mode) = ModeContainer)
  then map Tasks l = [⟦Task.StopAllServices⟧; ⟦Task.Shutdown⟧]
  else
    (planned Task.KexecPrepare l = true ↔ targets ≠ [] ∧ BootPartitionLabel ∉ targets) ∧
    (planned Task.ResetSystemDisk l = true ↔ targets = [] ∧ wipes req ResetRequest_SYSTEM_DISK) ∧
    (planned Task.ResetSystemDiskSpec l = true ↔ targets ≠ [] ∧ wipes req ResetRequest_SYSTEM_DISK) ∧
    (planned Task.ResetUserDisks l = true ↔ req.(GetUserDisksToWipe) ≠ [] ∧ wipes req ResetRequest_USER_DISKS) ∧
    planned Task.Reboot l = req.(GetReboot) ∧
    planned Task.Shutdown l = negb req.(GetReboot) ∧
    ∀ E p f (err : option E), p ∈ l → f ∈ p.(Tasks) → task_of f ∈ best_effort → task_result f err = None.
Proof.
  cbv zeta. case_bool_decide as Hm.
  { unfold Reset, stopAllPhaselist. by rewrite Hm. }
  destruct (reset_tasks chubo r req Hm) as (H1 & H2 & H3 & H4 & H5 & H6 & H7).
  rewrite H1, H2, H3, H4, <- (bootPartition_spec (GetSystemDiskTargets req)). unfold wipes.
  rewrite !andb_true_iff, !orb_true_iff, !Z.eqb_eq, not_true_iff_false, negb_true_iff.
  split_and!; [..|done|done|by intros; eapply ignores_errorsP].
  all: destruct (GetSystemDiskTargets req), (GetUserDisksToWipe req); rewrite ?negb_true_iff;
    intuition (try done; try congruence).
Qed.
