(* ===== verification/Controller.v ===== *)
(** * Runtime: running a sequence

    [internal/app/machined/pkg/runtime/v1alpha1/v1alpha1_controller.go]: [Run], [run],
    [runPhase] and [runTask] with the events they publish.  The tasks of a phase run
    concurrently in an error group: a schedule says which task makes its next step, and
    the environment what each task returns. *)

From S2P Require Import Prelude Sequence Sequencer.

(** The errors of contexts, and of tasks as far as the controller tells them apart. *)
Inductive ctx_error := Canceled | DeadlineExceeded.
Inductive task_error := TaskCanceled | TaskFailed (msg : string).

Inductive error :=
  | ErrSequencer (e : run_error)
  | ErrContext (e : ctx_error)
  (** "error running phase %d in %s sequence: task %d/%d: failed, ..." *)
  | ErrPhase (phase task : nat) (e : task_error).

Inductive code := LOCKED | CANCELED | FATAL.
#[export] Instance code_eq_dec : EqDecision code.
Proof. solve_decision. Defined.

Inductive event :=
  | SequenceStart (seq : Sequence)
  | SequenceStop (seq : Sequence)
  | SequenceError (seq : Sequence) (c : code)
  | PhaseStart (name : string)
  | PhaseStop (name : string)
  | TaskStart (task : Task.t)
  | TaskStop (task : Task.t).

#[export] Instance event_eq_dec : EqDecision event.
Proof. solve_decision. Defined.

Record Controller := { published : list event; locked : bool }.

Definition Publish (e : event) : prog Controller error () :=
  modify (λ c, {| published := c.(published) ++ [e]; locked := c.(locked) |}).
Definition Unlock : prog Controller error () :=
  modify (λ c, {| published := c.(published); locked := false |}).
Definition TakeLock : prog Controller error () :=
  modify (λ c, {| published := c.(published); locked := true |}).

(** ** The tasks of a phase *)

Inductive stage := Waiting | Started | Done.

(** The goroutines of the group: each task with its number, its stage and what its own
    function is going to return; and the first error that was returned. *)
Record group := {
  members : list (TaskSetupFunc * stage * option task_error);
  first_error : option (nat * task_error)
}.

Definition runTask_step (i : nat) (g : group) : prog Controller error group :=
  match g.(members) !! i with
  | Some (f, Waiting, res) =>
      _ ← Publish (TaskStart (task_of f));
      mret {| members := <[i := (f, Started, res)]> g.(members); first_error := g.(first_error) |}
  | Some (f, Started, res) =>
      _ ← Publish (TaskStop (task_of f));
      mret {| members := <[i := (f, Done, res)]> g.(members);
              first_error :=
                match g.(first_error), task_result f res with
                | None, Some e => Some (S i, e)
                | first, _ => first
                end |}
  | _ => mret g
  end.

Fixpoint run_schedule (schedule : list nat) (g : group) : prog Controller error group :=
  match schedule with
  | [] => mret g
  | i :: schedule => g ← runTask_step i g; run_schedule schedule g
  end.

Definition finished (g : group) : bool :=
  forallb (λ m, match m with (_, Done, _) => true | _ => false end) g.(members).

(** [eg.Wait()] *)
Definition Wait (g : group) : prog Controller error (option (nat * task_error)) :=
  if finished g then mret g.(first_error) else lift (Panic Blocks).

(** What the environment does during one phase. *)
Record PhaseEnv := {
  runtime : Runtime;                      (** the machine when the check is made *)
  schedule : list nat;
  results : list (option task_error);
  ctx : option ctx_error                  (** [ctx.Err()] behind the phase *)
}.

Definition new_group (phase : Phase) (env : PhaseEnv) : group :=
  {| members := imap (λ i f, (f, Waiting, default None (env.(results) !! i))) phase.(Tasks);
     first_error := None |}.

Definition runPhase (phase : Phase) (env : PhaseEnv) : prog Controller error (option (nat * task_error)) :=
  _ ← Publish (PhaseStart phase.(Name));
  with_defer (Publish (PhaseStop phase.(Name)))
    (g ← run_schedule env.(schedule) (new_group phase env);
     Wait g).

(** ** The phases *)

Definition skipped (phase : Phase) (env : PhaseEnv) : bool :=
  match phase.(CheckFunc) with
  | Some check => negb (check env.(runtime))
  | None => false
  end.

(** The loop of [run]; [number] is the number of the phase before. *)
Fixpoint run_phases (number : nat) (phases : list (Phase * PhaseEnv)) : prog Controller error () :=
  match phases with
  | [] => mret ()
  | (phase, env) :: phases =>
      if skipped phase env then run_phases (S number) phases
      else
        err ← runPhase phase env;
        match err with
        | Some (task, e) => throw (ErrPhase (S number) task e)
        | None =>
            match env.(ctx) with
            | Some e => throw (ErrContext e)
            | None => run_phases (S number) phases
            end
        end
  end.

Definition run (seq : Sequence) (phases : list (Phase * PhaseEnv)) : prog Controller error () :=
  _ ← Publish (SequenceStart seq);
  with_defer (Publish (SequenceStop seq)) (run_phases 0 phases).

(** [errors.Is(err, context.Canceled)] *)
Definition is_canceled (e : error) : bool :=
  match e with
  | ErrContext Canceled | ErrPhase _ _ TaskCanceled => true
  | _ => false
  end.

(** Run and publish the error, if there is one. *)
Definition run_reporting (seq : Sequence) (phases : list (Phase * PhaseEnv)) : prog Controller error () := λ c,
  match run seq phases c with
  | Ok (c, inl e) =>
      (_ ← Publish (SequenceError seq (if is_canceled e then CANCELED else FATAL)); throw e) c
  | res => res
  end.

(** [Run]: [lock] is what the priority lock answers; [envs] gives the environment of each
    phase. *)
Definition Run (chubo : bool) (r : option Runtime) (lock : option run_error) (seq : Sequence) (d : data)
    (envs : nat → PhaseEnv) : prog Controller error () :=
  match r with
  | None => throw (ErrSequencer ErrUndefinedRuntime)
  | Some r =>
      match lock with
      | Some e =>
          _ ← (match e with ErrLocked => Publish (SequenceError seq LOCKED) | _ => mret () end);
          throw (ErrSequencer e)
      | None =>
          _ ← TakeLock;
          with_defer Unlock
            (match phases chubo r seq d with
             | inl e => throw (ErrSequencer e)
             | inr phases => run_reporting seq (imap (λ i p, (p, envs i)) phases)
             end)
      end
  end.

(** ** The events of a phase *)

Definition count (e : event) (l : list event) : nat := length (filter (λ x, x = e) l).

Lemma count_app e l k : count e (l ++ k) = (count e l + count e k)%nat.
Proof. unfold count. by rewrite filter_app, length_app. Qed.

Lemma count_Permutation e l k : l ≡ₚ k → count e l = count e k.
Proof. intros H. unfold count. by rewrite H. Qed.

(** What a member has published so far. *)
Definition events_of (m : TaskSetupFunc * stage * option task_error) : list event :=
  match m with
  | (_, Waiting, _) => []
  | (f, Started, _) => [TaskStart (task_of f)]
  | (f, Done, _) => [TaskStart (task_of f); TaskStop (task_of f)]
  end.

(** At every moment, no task has stopped more often than it has started. *)
Definition bracketed (ev : list event) : Prop :=
  ∀ pre post t, ev = pre ++ post → (count (TaskStop t) pre ≤ count (TaskStart t) pre)%nat.

Definition task_of_member (m : TaskSetupFunc * stage * option task_error) : TaskSetupFunc * option task_error :=
  (m.1.1, m.2).

(** Why a group reports an error or none. *)
Definition error_ok (g : group) : Prop :=
  match g.(first_error) with
  | None => ∀ i f res, g.(members) !! i = Some (f, Done, res) → task_result f res = None
  | Some (k, e) => ∃ i f res, k = S i ∧ g.(members) !! i = Some (f, Done, res) ∧ task_result f res = Some e
  end.

Record group_ok (tasks : list (TaskSetupFunc * option task_error)) (g : group) (ev : list event) : Prop := {
  grp_tasks : task_of_member <$> g.(members) = tasks;
  grp_events : ev ≡ₚ g.(members) ≫= events_of;
  grp_bracketed : bracketed ev;
  grp_error : error_ok g
}.

Lemma stops_le_starts t l :
  (count (TaskStop t) (l ≫= events_of) ≤ count (TaskStart t) (l ≫= events_of))%nat.
Proof.
  induction l as [|[[f []] res] l IH]; [done|..]; rewrite bind_cons, !count_app; [done|..].
  - assert (count (TaskStop t) (events_of (f, Started, res)) = 0%nat) as -> by done. lia.
  - assert (count (TaskStop t) (events_of (f, Done, res)) = count (TaskStart t) (events_of (f, Done, res))) as ->;
      [|lia].
    unfold count. cbn [events_of]. rewrite !filter_cons, filter_nil.
    repeat case_decide; simplify_eq; done.
Qed.

Lemma bracketed_snoc ev x :
  bracketed ev → (∀ t, count (TaskStop t) (ev ++ [x]) ≤ count (TaskStart t) (ev ++ [x]))%nat →
  bracketed (ev ++ [x]).
Proof.
  intros Hb Hx pre post t Heq.
  destruct post as [|y post _] using rev_ind.
  - rewrite app_nil_r in Heq. by subst.
  - rewrite app_assoc in Heq. apply app_inj_tail in Heq as [Heq _]. by eapply Hb.
Qed.

Lemma bind_insert {A B} (f : A → list B) (l : list A) i x y z :
  l !! i = Some x → f y ≡ₚ f x ++ z → <[i := y]> l ≫= f ≡ₚ (l ≫= f) ++ z.
Proof.
  intros Hi Hf. assert (i < length l)%nat as Hlt by (by eapply lookup_lt_Some).
  rewrite <- (take_drop_middle l i x Hi) at 2. rewrite insert_take_drop by done.
  rewrite !bind_app, !bind_cons, Hf, <- !app_assoc.
  apply Permutation_app_head, Permutation_app_head, Permutation_app_comm.
Qed.

(** One member makes a step that publishes [x]. *)
Lemma group_step tasks g ev i f s s' res x first :
  group_ok tasks g ev → g.(members) !! i = Some (f, s, res) →
  events_of (f, s', res) ≡ₚ events_of (f, s, res) ++ [x] →
  let g' := {| members := <[i := (f, s', res)]> g.(members); first_error := first |} in
  error_ok g' → group_ok tasks g' (ev ++ [x]).
Proof.
  intros [Ht He Hb _] Hi Hx g' Herr.
  assert (ev ++ [x] ≡ₚ members g' ≫= events_of) as He'
    by (simpl; by rewrite (bind_insert _ _ _ _ _ _ Hi Hx), He).
  split; [|done| |done].
  - cbn [members g']. rewrite list_fmap_insert, <- Ht. apply list_insert_id. rewrite list_lookup_fmap. by rewrite Hi.
  - apply bracketed_snoc; [done|]. intros t. rewrite !(count_Permutation _ _ _ He'). apply stops_le_starts.
Qed.

(** [c'] is [c] with [ev] published. *)
Definition grown (c : Controller) (ev : list event) (c' : Controller) : Prop :=
  c' = {| published := c.(published) ++ ev; locked := c.(locked) |}.

Lemma grown_nil c : grown c [] c.
Proof. destruct c. unfold grown. simpl. by rewrite app_nil_r. Qed.

Lemma grown_trans c ev1 c1 ev2 c2 : grown c ev1 c1 → grown c1 ev2 c2 → grown c (ev1 ++ ev2) c2.
Proof. unfold grown. intros -> ->. simpl. by rewrite app_assoc. Qed.

(** How far member [i] is: 2 when it is done (or there is none). *)
Definition stage_num (s : stage) : nat :=
  match s with Waiting => 0 | Started => 1 | Done => 2 end.
Definition progress (g : group) (i : nat) : nat :=
  from_option (λ m, stage_num m.1.2) 2%nat (g.(members) !! i).
Definition turns (i : nat) (schedule : list nat) : nat := length (filter (λ j, j = i) schedule).

Lemma progress_insert g i m first j :
  is_Some (g.(members) !! i) →
  progress {| members := <[i := m]> g.(members); first_error := first |} j
  = if decide (j = i) then stage_num m.1.2 else progress g j.
Proof.
  intros [m' Hi]. unfold progress. simpl. case_decide as Hj.
  - subst. by rewrite list_lookup_insert_eq by by eapply lookup_lt_Some.
  - by rewrite list_lookup_insert_ne.
Qed.

Lemma runTask_step_ok tasks i g ev c :
  group_ok tasks g ev →
  returns (runTask_step i g) c (λ c' res, ∃ g' ev', res = inr g' ∧ grown c ev' c' ∧
    group_ok tasks g' (ev ++ ev') ∧
    ∀ j, (Nat.min 2 (progress g j + if decide (j = i) then 1 else 0) ≤ progress g' j)%nat).
Proof.
  intros Hg. unfold runTask_step, Publish.
  destruct (members g !! i) as [[[f s] res]|] eqn:Hi; [destruct s|]; prog_steps.
  - eexists _, [TaskStart (task_of f)]. split; [reflexivity|]. split; [reflexivity|]. split.
    + apply (group_step tasks g ev i f Waiting Started res (TaskStart (task_of f)) _ Hg Hi); [done|].
      destruct Hg as [_ _ _ Herr]. unfold error_ok in *. simpl.
      destruct (first_error g) as [[k e]|].
      * destruct Herr as (i' & f' & res' & -> & Hi' & He). exists i', f', res'. split; [done|].
        split; [|done]. rewrite list_lookup_insert_ne; [done|]. intros ->. congruence.
      * intros i' f' res'. destruct (decide (i' = i)) as [->|Hne].
        -- rewrite list_lookup_insert_eq by by eapply lookup_lt_Some. congruence.
        -- rewrite list_lookup_insert_ne by done. apply Herr.
    + intros j. rewrite progress_insert by done. case_decide; [subst j|lia].
      unfold progress. rewrite Hi. simpl. lia.
  - eexists _, [TaskStop (task_of f)]. split; [reflexivity|]. split; [reflexivity|]. split.
    + apply (group_step tasks g ev i f Started Done res (TaskStop (task_of f)) _ Hg Hi); [done|].
      destruct Hg as [_ _ _ Herr]. unfold error_ok in *. simpl.
      destruct (first_error g) as [[k e]|].
      * destruct Herr as (i' & f' & res' & -> & Hi' & He). exists i', f', res'. split; [done|].
        split; [|done]. rewrite list_lookup_insert_ne; [done|]. intros ->. congruence.
      * assert (<[i:=(f, Done, res)]> (members g) !! i = Some (f, Done, res)) as Hnew
          by (apply list_lookup_insert_eq; by eapply lookup_lt_Some).
        destruct (task_result f res) as [e|] eqn:Hres; [by exists i, f, res|].
        intros i' f' res'. destruct (decide (i' = i)) as [->|Hne]; [rewrite Hnew; congruence|].
        rewrite list_lookup_insert_ne by done. apply Herr.
    + intros j. rewrite progress_insert by done. case_decide; [subst j|lia].
      unfold progress. rewrite Hi. simpl. lia.
  - exists g, []. rewrite app_nil_r. split_and!; [done|apply grown_nil|done|].
    intros j. case_decide; [subst j|lia]. unfold progress. rewrite Hi. simpl. lia.
  - exists g, []. rewrite app_nil_r. split_and!; [done|apply grown_nil|done|].
    intros j. case_decide; [subst j|lia]. unfold progress. rewrite Hi. simpl. lia.
Qed.

Lemma run_schedule_ok tasks schedule g ev c :
  group_ok tasks g ev →
  returns (run_schedule schedule g) c (λ c' res, ∃ g' ev', res = inr g' ∧ grown c ev' c' ∧
    group_ok tasks g' (ev ++ ev') ∧
    ∀ j, (Nat.min 2 (progress g j + turns j schedule) ≤ progress g' j)%nat).
Proof.
  revert g ev c. induction schedule as [|i schedule IH]; intros g ev c Hg; cbn [run_schedule]; prog_steps.
  - exists g, []. rewrite app_nil_r. split_and!; [done|apply grown_nil|done|].
    intros j. unfold turns. rewrite filter_nil. cbn [length]. lia.
  - eapply returns_mono; [|by apply (runTask_step_ok tasks)]. cbv beta.
    intros c1 ? (g1 & ev1 & -> & Hc1 & Hg1 & Hp1).
    eapply returns_mono; [|by apply (IH g1 (ev ++ ev1))]. cbv beta.
    intros c2 ? (g2 & ev2 & -> & Hc2 & Hg2 & Hp2). exists g2, (ev1 ++ ev2). rewrite app_assoc.
    split_and!; [done|by eapply grown_trans|done|].
    intros j. specialize (Hp1 j). specialize (Hp2 j). unfold turns in *. rewrite filter_cons.
    destruct (decide (j = i)) as [->|Hj].
    + rewrite decide_True by done. cbn [length]. lia.
    + rewrite decide_False by congruence. lia.
Qed.

(** ** A phase *)

(** Every task gets the two turns it needs. *)
Definition complete (phase : Phase) (env : PhaseEnv) : Prop :=
  ∀ i, (i < length phase.(Tasks))%nat → (2 ≤ turns i env.(schedule))%nat.

Definition task_outcome (phase : Phase) (env : PhaseEnv) (i : nat) : option task_error :=
  f ← phase.(Tasks) !! i; task_result f (default None (env.(results) !! i)).

(** The events of a phase that ran: its tasks, each started and stopped once, stopped
    after it was started, between the events of the phase. *)
Definition block (phase : Phase) (ev : list event) : Prop :=
  ∃ mid, ev = PhaseStart phase.(Name) :: mid ++ [PhaseStop phase.(Name)] ∧ bracketed mid ∧
    mid ≡ₚ phase.(Tasks) ≫= (λ f, [TaskStart (task_of f); TaskStop (task_of f)]).

Lemma new_group_ok phase env :
  group_ok (imap (λ i f, (f, default None (env.(results) !! i))) phase.(Tasks)) (new_group phase env) [].
Proof.
  split.
  - apply list_eq. intros i. simpl. rewrite list_lookup_fmap, !list_lookup_imap.
    by destruct (Tasks phase !! i).
  - simpl. assert (∀ l, Forall (λ m, events_of m = []) l → l ≫= events_of = []) as ->; [|done|].
    { induction 1 as [|m l Hm _ IH]; [done|]. by rewrite bind_cons, Hm, IH. }
    apply Forall_lookup. intros i m. rewrite list_lookup_imap. by destruct (Tasks phase !! i); intros [= <-].
  - intros pre post t Heq. symmetry in Heq. by apply app_nil in Heq as [-> ->].
  - intros i f res. simpl. rewrite list_lookup_imap. by destruct (Tasks phase !! i).
Qed.

Lemma finished_spec g : finished g = true ↔ ∀ i, (2 ≤ progress g i)%nat.
Proof.
  unfold finished. rewrite forallb_forall. split.
  - intros H i. unfold progress. destruct (members g !! i) as [[[f s] res]|] eqn:Hi; [|simpl; lia].
    specialize (H (f, s, res)). rewrite <- list_elem_of_In in H.
    by destruct s; try (specialize (H (list_elem_of_lookup_2 _ _ _ Hi))).
  - intros H m Hm. apply list_elem_of_In, list_elem_of_lookup in Hm as [i Hi]. specialize (H i).
    unfold progress in H. rewrite Hi in H. destruct m as [[f []] res]; simpl in H; [lia|lia|done].
Qed.

Lemma done_events (l : list (TaskSetupFunc * stage * option task_error)) l' :
  length l = length l' → (∀ i f, l' !! i = Some f → ∃ res, l !! i = Some (f, Done, res)) →
  l ≫= events_of = l' ≫= (λ f, [TaskStart (task_of f); TaskStop (task_of f)]).
Proof.
  revert l'. induction l as [|m l IH]; intros [|f l'] Hlen Hdone; try done.
  destruct (Hdone 0%nat f eq_refl) as [res [= ->]]. rewrite !bind_cons. f_equal.
  apply IH; [by injection Hlen|]. intros i f' Hf'. by apply (Hdone (S i)).
Qed.

Lemma runPhase_ok phase env c :
  complete phase env →
  returns (runPhase phase env) c (λ c' res, ∃ err ev, res = inr err ∧ grown c ev c' ∧ block phase ev ∧
    match err with
    | None => ∀ i, task_outcome phase env i = None
    | Some (k, e) => ∃ i, k = S i ∧ task_outcome phase env i = Some e
    end).
Proof.
  intros Hc. unfold runPhase, Publish. prog_steps.
  set (tasks := imap (λ i f, (f, default None (env.(results) !! i))) phase.(Tasks)).
  eapply returns_mono; [|apply (run_schedule_ok tasks _ _ [] _ (new_group_ok phase env))]. cbv beta.
  intros c1 ? (g & ev & -> & Hgrown & Hg & Hp). rewrite app_nil_l in Hg. cbv beta iota.
  assert (Hlen : length g.(members) = length phase.(Tasks)).
  { destruct Hg as [Ht _ _ _]. apply (f_equal length) in Ht. unfold tasks in Ht.
    by rewrite length_fmap, length_imap in Ht. }
  assert (Hfin : finished g = true).
  { apply finished_spec. intros i. destruct (decide (i < length phase.(Tasks))%nat) as [Hi|Hi].
    - specialize (Hp i). specialize (Hc i Hi). lia.
    - unfold progress. rewrite lookup_ge_None_2 by lia. simpl. lia. }
  assert (Hmem : ∀ i f res, g.(members) !! i = Some (f, Done, res) →
    task_outcome phase env i = task_result f res).
  { intros i f res Hi. destruct Hg as [Ht _ _ _]. apply (f_equal (.!! i)) in Ht. unfold tasks in Ht.
    rewrite list_lookup_fmap, Hi, list_lookup_imap in Ht. unfold task_outcome.
    destruct (Tasks phase !! i); [|done]. by injection Ht as -> ->. }
  assert (Hdone : ∀ i f, phase.(Tasks) !! i = Some f → ∃ res, g.(members) !! i = Some (f, Done, res)).
  { intros i f Hf. destruct (lookup_lt_is_Some_2 g.(members) i) as [[[f' s] res] Hi];
      [rewrite Hlen; by eapply lookup_lt_Some|].
    pose proof (proj1 (finished_spec g) Hfin i) as Hs. unfold progress in Hs. rewrite Hi in Hs.
    destruct s; simpl in Hs; [lia|lia|].
    destruct Hg as [Ht _ _ _]. apply (f_equal (.!! i)) in Ht. unfold tasks in Ht.
    rewrite list_lookup_fmap, Hi, list_lookup_imap, Hf in Ht. injection Ht as -> ->. by eexists. }
  unfold Wait. rewrite Hfin. prog_steps.
  eexists _, (PhaseStart phase.(Name) :: ev ++ [PhaseStop phase.(Name)]). split; [done|]. split; [|split].
  - rewrite Hgrown. unfold grown. simpl. f_equal. by rewrite <- !app_assoc.
  - exists ev. destruct Hg as [Ht He Hb _]. split_and!; [done|done|]. rewrite He.
    by rewrite (done_events _ _ Hlen Hdone).
  - destruct Hg as [_ _ _ Herr]. unfold error_ok in Herr. destruct (first_error g) as [[k e]|].
    + destruct Herr as (i & f & res & -> & Hi & He). exists i. split; [done|]. by rewrite (Hmem i f res Hi).
    + intros i. destruct (Tasks phase !! i) as [f|] eqn:Hf.
      * destruct (Hdone i f Hf) as [res Hi]. rewrite (Hmem i f res Hi). by eapply Herr.
      * unfold task_outcome. by rewrite Hf.
Qed.

(** ** A sequence *)

Definition runs (x : Phase * PhaseEnv) : Prop := skipped x.1 x.2 = false.
#[local] Instance runs_dec x : Decision (runs x).
Proof. unfold runs. apply _. Defined.

(** Nothing in the phase makes the sequence stop there. *)
Definition fine (x : Phase * PhaseEnv) : Prop :=
  (∀ i, task_outcome x.1 x.2 i = None) ∧ x.2.(ctx) = None.

(** The error that ends the sequence in phase number [n]. *)
Inductive stops_with (n : nat) (x : Phase * PhaseEnv) : error → Prop :=
  | stops_task i e : task_outcome x.1 x.2 i = Some e → stops_with n x (ErrPhase n (S i) e)
  | stops_ctx e : (∀ i, task_outcome x.1 x.2 i = None) → x.2.(ctx) = Some e → stops_with n x (ErrContext e).

(** [ran] are the phases that ran, among the first [k] of [l]. *)
Inductive ending (number : nat) (l : list (Phase * PhaseEnv)) (k : nat) (ran : list (Phase * PhaseEnv))
    : error + () → Prop :=
  | ending_done : k = length l → Forall fine ran → ending number l k ran (inr ())
  | ending_error before x e :
      ran = before ++ [x] → l !! pred k = Some x → (0 < k)%nat → Forall fine before →
      stops_with (number + k) x e → ending number l k ran (inl e).

Lemma run_phases_ok number l c :
  Forall (λ x, complete x.1 x.2) l →
  returns (run_phases number l) c (λ c' res, ∃ k blocks,
    let ran := filter runs (take k l) in
    grown c (concat blocks) c' ∧ Forall2 (λ x ev, block x.1 ev) ran blocks ∧ ending number l k ran res).
Proof.
  intros Hl. revert number c. induction Hl as [|[p env] l Hc Hl IH]; intros number c; cbn [run_phases].
  { prog_steps. exists 0%nat, []. split_and!; [apply grown_nil|constructor|by constructor]. }
  destruct (skipped p env) eqn:Hskip.
  - eapply returns_mono; [|apply IH]. cbv beta. intros c' res (k & blocks & Hg & Hb & He).
    exists (S k), blocks. cbv zeta in *. cbn [take firstn]. rewrite filter_cons_False by (unfold runs; simpl; congruence).
    split_and!; [done|done|]. destruct He as [-> Hf|before x e -> Hx Hk Hf Hs]; [by constructor|].
    eapply ending_error; [done| |lia|done|by rewrite Nat.add_succ_r].
    destruct k; [lia|done].
  - prog_steps. eapply returns_mono; [|by apply runPhase_ok]. cbv beta.
    intros c1 ? (err & ev & -> & Hg & Hb & Herr). cbv beta iota.
    assert (Hone : ∀ k, filter runs (take (S k) ((p, env) :: l)) = (p, env) :: filter runs (take k l))
      by (intros k; cbn [take firstn]; by rewrite filter_cons_True).
    destruct err as [[t e]|].
    + prog_steps. exists 1%nat, [ev]. cbv zeta. rewrite Hone, take_0, filter_nil. simpl. rewrite app_nil_r.
      split_and!; [done|by repeat constructor|].
      destruct Herr as (i & -> & Ht). apply (ending_error _ _ _ _ [] (p, env)); [done|done|lia|done|].
      rewrite Nat.add_1_r. by constructor.
    + destruct (ctx env) as [e|] eqn:Hctx.
      * prog_steps. exists 1%nat, [ev]. cbv zeta. rewrite Hone, take_0, filter_nil. simpl. rewrite app_nil_r.
        split_and!; [done|by repeat constructor|].
        apply (ending_error _ _ _ _ [] (p, env)); [done|done|lia|done|]. by constructor.
      * eapply returns_mono; [|apply IH]. cbv beta. intros c' res (k & blocks & Hg' & Hb' & He).
        exists (S k), (ev :: blocks). cbv zeta in *. rewrite Hone.
        split_and!; [by eapply grown_trans|by constructor|].
        destruct He as [-> Hf|before x e -> Hx Hk Hf Hs]; [by constructor; [|constructor]|].
        apply (ending_error _ _ _ _ ((p, env) :: before) x); [done| |lia|by constructor|by rewrite Nat.add_succ_r].
        destruct k; [lia|done].
Qed.

(** The events of a sequence around those of its phases. *)
Definition sequence_events (seq : Sequence) (blocks : list (list event)) (res : error + ()) : list event :=
  SequenceStart seq :: concat blocks ++ [SequenceStop seq] ++
  match res with
  | inl e => [SequenceError seq (if is_canceled e then CANCELED else FATAL)]
  | inr _ => []
  end.

Lemma run_reporting_ok seq l c :
  Forall (λ x, complete x.1 x.2) l →
  returns (run_reporting seq l) c (λ c' res, ∃ k blocks,
    let ran := filter runs (take k l) in
    grown c (sequence_events seq blocks res) c' ∧ Forall2 (λ x ev, block x.1 ev) ran blocks ∧ ending 0 l k ran res).
Proof.
  intros Hl.
  assert (returns (run seq l) c (λ c' res, ∃ k blocks,
    let ran := filter runs (take k l) in
    grown c (SequenceStart seq :: concat blocks ++ [SequenceStop seq]) c' ∧
    Forall2 (λ x ev, block x.1 ev) ran blocks ∧ ending 0 l k ran res)) as (c' & res & Hrun & k & blocks & Hg & Hb & He).
  { unfold run, Publish. prog_steps. eapply returns_mono; [|by apply run_phases_ok]. cbv beta.
    intros c' res (k & blocks & -> & Hb & He). prog_steps. exists k, blocks. split_and!; [|done|done].
    unfold grown. simpl. by rewrite <- !app_assoc. }
  unfold run_reporting, returns. rewrite Hrun. destruct res as [e|[]].
  - eexists _, _. split; [reflexivity|]. exists k, blocks. split_and!; [|done|done].
    rewrite Hg. unfold grown, sequence_events. simpl. rewrite <- !app_assoc. simpl. by rewrite <- app_assoc.
  - eexists _, _. split; [reflexivity|]. exists k, blocks. split_and!; [|done|done].
    by rewrite Hg.
Qed.

Definition with_envs (envs : nat → PhaseEnv) (l : PhaseList) : list (Phase * PhaseEnv) :=
  imap (λ i p, (p, envs i)) l.

(** Each phase of the sequence gets a complete schedule. *)
Definition schedules_complete (envs : nat → PhaseEnv) (l : PhaseList) : Prop :=
  ∀ i p, l !! i = Some p → complete p (envs i).

Lemma with_envs_complete envs l :
  schedules_complete envs l → Forall (λ x, complete x.1 x.2) (with_envs envs l).
Proof.
  intros H. apply Forall_lookup. intros i x. unfold with_envs. rewrite list_lookup_imap.
  destruct (l !! i) eqn:Hi; intros [= <-]. by apply H.
Qed.


(** The run of a sequence that got the lock. *)
Lemma run_order_lemma chubo r seq d l envs c :
  phases chubo r seq d = inr l → schedules_complete envs l →
  ∃ c' res k blocks,
    let ran := filter runs (take k (with_envs envs l)) in
    Run chubo (Some r) None seq d envs c = Ok (c', res) ∧
    c'.(locked) = false ∧
    c'.(published) = c.(published) ++ sequence_events seq blocks res ∧
    Forall2 (λ x ev, block x.1 ev) ran blocks ∧
    ending 0 (with_envs envs l) k ran res.
Proof.
  intros Hl Hc. unfold Run. rewrite Hl.
  assert (returns (_ ← TakeLock; with_defer Unlock (run_reporting seq (with_envs envs l))) c (λ c' res,
    ∃ k blocks, let ran := filter runs (take k (with_envs envs l)) in
      c'.(locked) = false ∧ c'.(published) = c.(published) ++ sequence_events seq blocks res ∧
      Forall2 (λ x ev, block x.1 ev) ran blocks ∧ ending 0 (with_envs envs l) k ran res))
    as (c' & res & Hrun & k & blocks & H); [|by exists c', res, k, blocks].
  unfold TakeLock, Unlock. prog_steps.
  eapply returns_mono; [|apply run_reporting_ok, with_envs_complete, Hc]. cbv beta.
  intros c' res (k & blocks & -> & Hb & He). prog_steps. exists k, blocks. by split_and!.
Qed.

(** C31: a sequence that got the lock, in any interleaving of the tasks of each phase: [Run]
    returns with the lock released; it has published the start of the sequence, then one
    block per phase that ran, then the stop, then the error with its code if there is
    one; each block has the start and the stop of every task of the phase, each task
    stopped after it was started, all between the events of the phase; the phases that
    ran are those whose check holds among the first [k]; without an error these are all,
    and nothing failed; with one, the last of them is the first that had a task fail or
    found the context done, the error says so, and nothing behind it ran. *)
Theorem run_order chubo r seq d l envs c :
  phases chubo r seq d = inr l → schedules_complete envs l →
  ∃ c' res k blocks,
    let ran := filter runs (take k (with_envs envs l)) in
    Run chubo (Some r) None seq d envs c = Ok (c', res) ∧
    c'.(locked) = false ∧
    c'.(published) = c.(published) ++ sequence_events seq blocks res ∧
    Forall2 (λ x ev, block x.1 ev) ran blocks ∧
    ending 0 (with_envs envs l) k ran res.
Proof. apply run_order_lemma. Qed.

(** *** A concrete run *)

Definition metal : Runtime := {|
  mode := ModeMetal; Installed := true; IsInstallStaged := false; DiskImageBootloader := None;
  KernelParamWipe := None; KernelParamHaltIfInstalled := None; KernelParamDashboardDisabled := None;
  TypeWorker := false |}.

(** One task at a time, all succeeding but task [i] of phase [k]. *)
Definition serial_env (k i : nat) (n : nat) : PhaseEnv := {|
  runtime := metal;
  schedule := [0; 0; 1; 1; 2; 2; 3; 3; 4; 4]%nat;
  results := if Nat.eqb n k then replicate i None ++ [Some (TaskFailed "no space")] else [];
  ctx := None |}.

Lemma serial_complete k i l :
  Forall (λ p, (length p.(Tasks) ≤ 5)%nat) l → schedules_complete (serial_env k i) l.
Proof.
  intros Hl n p Hp j Hj. rewrite Forall_lookup in Hl. specialize (Hl n p Hp).
  do 5 (destruct j as [|j]; [by compute; lia|]). lia.
Qed.

Definition upgrade_default : UpgradeRequest := {| UpgradeRebootMode := UpgradeRequest_DEFAULT |}.

Lemma run_order_witness :
  let envs := serial_env 8 0 in
  let l := UpgradeSequence metal upgrade_default in
  let c := {| published := []; locked := false |} in
  ∃ c' res k blocks,
    let ran := filter runs (take k (with_envs envs l)) in
    Run true (Some metal) None SequenceUpgrade (DataUpgrade upgrade_default) envs c = Ok (c', res) ∧
    c'.(locked) = false ∧
    c'.(published) = c.(published) ++ sequence_events SequenceUpgrade blocks res ∧
    Forall2 (λ x ev, block x.1 ev) ran blocks ∧
    ending 0 (with_envs envs l) k ran res.
Proof.
  intros envs l c. apply (run_order true metal SequenceUpgrade (DataUpgrade upgrade_default) l envs c).
  - reflexivity.
  - apply serial_complete. apply Forall_forall. intros p Hp.
    repeat (apply elem_of_cons in Hp as [->|Hp]; [simpl; lia|]). by apply not_elem_of_nil in Hp.
Defined.

(** ** No reboot before the services are stopped *)

Section splitting.
Context {A : Type}.
Implicit Types (l : list A).



End splitting.





