(* ===== verification/PriorityLock.v ===== *)
(** * Runtime: the lock of the sequencer

    [internal/app/machined/pkg/runtime/v1alpha1/v1alpha1_priority_lock.go]: the lock a
    sequence is run under, which a sequence with a higher priority takes over by
    cancelling the one that runs.  The calls of [Lock] and [Unlock] are processes whose
    steps interleave in any order; a channel of capacity one is the bit that says whether
    it is full; a context is named after the call of [Lock] that made it. *)

From S2P Require Import Prelude Sequence.

(** What the lock asks of its priorities: [comparable], a zero value, and the order. *)
Class Priority (T : Type) := {
  priority_eq_dec :: EqDecision T;
  zero : T;
  CanTakeOver : T → T → bool
}.

(** Everything may take over the priority of an idle lock. *)
Class PriorityLaws (T : Type) `{Priority T} := can_take_over_zero t : CanTakeOver t zero = true.

#[export] Instance Sequence_Priority : Priority Sequence := {|
  priority_eq_dec := Sequence_eq_dec;
  zero := SequenceNoop;
  CanTakeOver := Sequence_CanTakeOver
|}.

#[export] Instance Sequence_PriorityLaws : PriorityLaws Sequence.
Proof. by intros []. Qed.

Inductive lock_error := ErrLocked | ErrTimeout.

Section lock.
Context {T : Type} `{Priority T}.
Notation call := positive.

(** Where a call of [Lock], and of the [Unlock] that belongs to it, is. *)
Inductive stage :=
  | WaitTakeover                       (** in the first [select] *)
  | HasTakeover                        (** behind it *)
  | Cancelling (cancel : option call)  (** before [cancelCtx()] *)
  | WaitRunning                        (** in the second [select] *)
  | Acquired                           (** the token taken, before [setRunningPriority] *)
  | Running                            (** [Lock] has returned a context *)
  | Unlocking                          (** in [Unlock], before the token is sent back *)
  | Released
  | Failed (e : lock_error).

Record process := { priority : T; takeover : bool; at_stage : stage }.

Record PriorityLock := {
  runningCh : bool;
  takeoverCh : bool;
  runningPriority : T;
  cancelCtx : option call;
  calls : gmap call process;
  (** the contexts whose cancel function was called *)
  cancelled : gset call
}.

Definition NewPriorityLock : PriorityLock := {|
  runningCh := true; takeoverCh := false; runningPriority := zero; cancelCtx := None;
  calls := ∅; cancelled := ∅ |}.

Definition with_stage (c : call) (p : process) (st : stage) (l : PriorityLock) : PriorityLock := {|
  runningCh := l.(runningCh); takeoverCh := l.(takeoverCh);
  runningPriority := l.(runningPriority); cancelCtx := l.(cancelCtx);
  calls := <[c := {| priority := p.(priority); takeover := p.(takeover); at_stage := st |}]> l.(calls);
  cancelled := l.(cancelled) |}.

Definition with_runningCh (full : bool) (l : PriorityLock) : PriorityLock := {|
  runningCh := full; takeoverCh := l.(takeoverCh);
  runningPriority := l.(runningPriority); cancelCtx := l.(cancelCtx);
  calls := l.(calls); cancelled := l.(cancelled) |}.

Definition with_takeoverCh (full : bool) (l : PriorityLock) : PriorityLock := {|
  runningCh := l.(runningCh); takeoverCh := full;
  runningPriority := l.(runningPriority); cancelCtx := l.(cancelCtx);
  calls := l.(calls); cancelled := l.(cancelled) |}.

(** [if cancelCtx != nil { cancelCtx() }] *)
Definition cancel (ctx : option call) (l : PriorityLock) : PriorityLock := {|
  runningCh := l.(runningCh); takeoverCh := l.(takeoverCh);
  runningPriority := l.(runningPriority); cancelCtx := l.(cancelCtx);
  calls := l.(calls);
  cancelled := match ctx with Some c => {[c]} ∪ l.(cancelled) | None => l.(cancelled) end |}.

Definition getRunningPriority (l : PriorityLock) : T * option call := (l.(runningPriority), l.(cancelCtx)).

Definition setRunningPriority (seq : T) (ctx : option call) (l : PriorityLock) : PriorityLock :=
  let l := if bool_decide (seq = zero) then cancel l.(cancelCtx) l else l in
  {| runningCh := l.(runningCh); takeoverCh := l.(takeoverCh);
     runningPriority := seq; cancelCtx := ctx;
     calls := l.(calls); cancelled := l.(cancelled) |}.

(** The guard of [Lock]. *)
Definition allowed (p : process) (sequence : T) : bool :=
  CanTakeOver p.(priority) sequence || p.(takeover).

Definition is_at (l : PriorityLock) (c : call) (p : process) (st : stage) : Prop :=
  l.(calls) !! c = Some p ∧ p.(at_stage) = st.

(** The steps of [Lock] and [Unlock]. *)
Inductive step (l : PriorityLock) : PriorityLock → Prop :=
  | step_call c p :
      l.(calls) !! c = None → step l (with_stage c p WaitTakeover l)
  | step_takeover c p :
      is_at l c p WaitTakeover → l.(takeoverCh) = false →
      step l (with_stage c p HasTakeover (with_takeoverCh true l))
  | step_takeover_timeout c p :
      is_at l c p WaitTakeover → step l (with_stage c p (Failed ErrTimeout) l)
  | step_locked c p :
      is_at l c p HasTakeover → allowed p (fst (getRunningPriority l)) = false →
      step l (with_stage c p (Failed ErrLocked) (with_takeoverCh false l))
  | step_allowed c p :
      is_at l c p HasTakeover → allowed p (fst (getRunningPriority l)) = true →
      step l (with_stage c p (Cancelling (snd (getRunningPriority l))) l)
  | step_cancel c p ctx :
      is_at l c p (Cancelling ctx) → step l (with_stage c p WaitRunning (cancel ctx l))
  | step_running c p :
      is_at l c p WaitRunning → l.(runningCh) = true →
      step l (with_stage c p Acquired (with_runningCh false l))
  | step_running_timeout c p :
      is_at l c p WaitRunning →
      step l (with_stage c p (Failed ErrTimeout) (with_takeoverCh false l))
  | step_return c p :
      is_at l c p Acquired →
      step l (with_stage c p Running (with_takeoverCh false (setRunningPriority p.(priority) (Some c) l)))
  | step_unlock c p :
      is_at l c p Running → step l (with_stage c p Unlocking (setRunningPriority zero None l))
  | step_unlocked c p :
      is_at l c p Unlocking → l.(runningCh) = false →
      step l (with_stage c p Released (with_runningCh true l)).

(** ** Invariant *)

(** Who has the token of [runningCh], and who has filled [takeoverCh]. *)
Definition has_token (st : stage) : bool :=
  match st with Acquired | Running | Unlocking => true | _ => false end.
Definition has_slot (st : stage) : bool :=
  match st with HasTakeover | Cancelling _ | WaitRunning | Acquired => true | _ => false end.
(** Whose context exists. *)
Definition has_context (st : stage) : bool :=
  match st with Running | Unlocking | Released => true | _ => false end.

(** [c] may take over [q]. *)
Definition may_take_over (p q : process) : Prop := allowed p q.(priority) = true.

(** The channels: [tok] is the call that has the token, [slot] the one that has filled
    [takeoverCh]. *)
Record channels_inv (l : PriorityLock) (tok slot : option call) : Prop := {
  inv_tok c p : l.(calls) !! c = Some p → (has_token p.(at_stage) = true ↔ tok = Some c);
  inv_slot c p : l.(calls) !! c = Some p → (has_slot p.(at_stage) = true ↔ slot = Some c);
  inv_tok_some c : tok = Some c → is_Some (l.(calls) !! c);
  inv_slot_some c : slot = Some c → is_Some (l.(calls) !! c);
  inv_runningCh : l.(runningCh) = true ↔ tok = None;
  inv_takeoverCh : l.(takeoverCh) = false ↔ slot = None
}.

(** What the lock records of the sequence that runs. *)
Definition running_inv (l : PriorityLock) : Prop :=
  match l.(cancelCtx) with
  | Some c => ∃ p, is_at l c p Running ∧ l.(runningPriority) = p.(priority)
  | None => l.(runningPriority) = zero
  end ∧
  ∀ c p, is_at l c p Running → l.(cancelCtx) = Some c.

(** Who has been, or is about to be, cancelled. *)
Record cancel_inv (l : PriorityLock) : Prop := {
  inv_about c p ctx : is_at l c p (Cancelling ctx) →
    (∀ q r, is_at l q r Running → ctx = Some q) ∧
    (∀ q, ctx = Some q →
      ∃ r, l.(calls) !! q = Some r ∧ has_context r.(at_stage) = true ∧ may_take_over p r);
  inv_waiting c p q r : is_at l c p WaitRunning → is_at l q r Running → q ∈ l.(cancelled);
  inv_cancelled q : q ∈ l.(cancelled) → ∃ r, l.(calls) !! q = Some r ∧ has_context r.(at_stage) = true;
  inv_authorized q r : q ∈ l.(cancelled) → is_at l q r Running →
    ∃ c p, l.(calls) !! c = Some p ∧ c ≠ q ∧ may_take_over p r
}.

(** Case analysis on whom a lookup in the updated calls is about. *)
Ltac lock_cases :=
  unfold is_at in *; simpl in *;
  repeat match goal with
    | H : _ ∧ _ |- _ => destruct H
    | H : <[?c := _]> _ !! ?d = Some _ |- _ =>
        apply lookup_insert_Some in H as [[? ?]|[? ?]]; subst; simpl in *
    end.

Lemma at_token l tok slot c p st :
  channels_inv l tok slot → is_at l c p st → has_token st = true → tok = Some c.
Proof. intros Hc [Hp <-] ?. by apply (inv_tok _ _ _ Hc c p). Qed.

Lemma at_slot l tok slot c p st :
  channels_inv l tok slot → is_at l c p st → has_slot st = true → slot = Some c.
Proof. intros Hc [Hp <-] ?. by apply (inv_slot _ _ _ Hc c p). Qed.

(** Moving a call to another stage, with the channels the stage needs. *)
Lemma move_channels l l' tok slot tok' slot' c p st :
  channels_inv l tok slot → l'.(calls) = l.(calls) →
  (∀ d, d ≠ c → tok' = Some d ↔ tok = Some d) → (has_token st = true ↔ tok' = Some c) →
  (∀ d, d ≠ c → slot' = Some d ↔ slot = Some d) → (has_slot st = true ↔ slot' = Some c) →
  (l'.(runningCh) = true ↔ tok' = None) → (l'.(takeoverCh) = false ↔ slot' = None) →
  channels_inv (with_stage c p st l') tok' slot'.
Proof.
  intros Hc Hcalls Htok Hct Hslot Hcs Hr Ht. destruct Hc. split; simpl; rewrite ?Hcalls; try done.
  - intros d q Hd. lock_cases; [done|]. by rewrite Htok by done; apply inv_tok0.
  - intros d q Hd. lock_cases; [done|]. by rewrite Hslot by done; apply inv_slot0.
  - intros d Hd. destruct (decide (d = c)) as [->|]; [by rewrite lookup_insert_eq|].
    rewrite lookup_insert_ne by done. by apply inv_tok_some0, Htok.
  - intros d Hd. destruct (decide (d = c)) as [->|]; [by rewrite lookup_insert_eq|].
    rewrite lookup_insert_ne by done. by apply inv_slot_some0, Hslot.
Qed.

Lemma step_channels l l' tok slot :
  channels_inv l tok slot → step l l' → ∃ tok' slot', channels_inv l' tok' slot'.
Proof.
  intros Hc Hstep. pose proof (inv_runningCh _ _ _ Hc) as Hr. pose proof (inv_takeoverCh _ _ _ Hc) as Ht.
  assert (Hfacts : ∀ c p st, is_at l c p st →
    (has_token st = true ↔ tok = Some c) ∧ (has_slot st = true ↔ slot = Some c))
    by (intros c p st [Hp <-]; split; [by eapply inv_tok|by eapply inv_slot]).
  destruct Hstep as [c p Hp|c p Hp Hfree|c p Hp|c p Hp Hno|c p Hp Hyes|c p ctx Hp|c p Hp Hfree|c p Hp|c p Hp|c p Hp|c p Hp Hfull];
    [|destruct (Hfacts _ _ _ Hp) as [Hct Hcs]; clear Hfacts; simpl in Hct, Hcs..].
  - assert (tok ≠ Some c ∧ slot ≠ Some c) as [].
    { split; intros Heq; [apply (inv_tok_some _ _ _ Hc) in Heq|apply (inv_slot_some _ _ _ Hc) in Heq];
        rewrite Hp in Heq; by destruct Heq. }
    exists tok, slot. apply (move_channels l _ tok slot); simpl; try done; intuition (try congruence; try done).
  - exists tok, (Some c). apply (move_channels l _ tok slot); simpl; try done; intuition (try congruence; try done).
  - exists tok, slot. apply (move_channels l _ tok slot); simpl; try done; intuition (try congruence; try done).
  - exists tok, None. apply (move_channels l _ tok slot); simpl; try done; intuition (try congruence; try done).
  - exists tok, slot. apply (move_channels l _ tok slot); simpl; try done; intuition (try congruence; try done).
  - exists tok, slot. apply (move_channels l _ tok slot); simpl; try done; intuition (try congruence; try done).
  - exists (Some c), slot. apply (move_channels l _ tok slot); simpl; try done; intuition (try congruence; try done).
  - exists tok, None. apply (move_channels l _ tok slot); simpl; try done; intuition (try congruence; try done).
  - exists tok, None. unfold setRunningPriority. case_bool_decide;
      apply (move_channels l _ tok slot); simpl; try done; intuition (try congruence; try done).
  - exists tok, slot. unfold setRunningPriority. case_bool_decide;
      apply (move_channels l _ tok slot); simpl; try done; intuition (try congruence; try done).
  - exists None, slot. apply (move_channels l _ tok slot); simpl; try done; intuition (try congruence; try done).
Qed.

(** Who runs, and what the lock records of it. *)
Lemma step_running_inv l l' tok slot :
  channels_inv l tok slot → running_inv l → step l l' → running_inv l'.
Proof.
  intros Hc [Hidle Hrun] Hstep.
  destruct Hstep as [c p Hp|c p Hp Hfree|c p Hp|c p Hp Hno|c p Hp Hyes|c p ctx Hp|c p Hp Hfree|c p Hp|c p Hp|c p Hp|c p Hp Hfull].
  9: { (* return *)
    split; [eexists; split; [split; [apply lookup_insert_eq|done]|done]|].
    intros d q Hd. simpl. destruct (decide (d = c)) as [->|Hne]; [done|]. exfalso. apply Hne.
    pose proof (at_token _ _ _ _ _ _ Hc Hp eq_refl).
    assert (tok = Some d); [|congruence]. apply (at_token l tok slot d q Running Hc); [|done].
    destruct Hd as [Hd Hst]. split; [|exact Hst]. revert Hd. simpl. rewrite lookup_insert_ne by done.
    unfold setRunningPriority. by case_bool_decide. }
  9: { (* unlock *)
    split; [done|].
    intros d q Hd. simpl. exfalso.
    pose proof (at_token _ _ _ _ _ _ Hc Hp eq_refl).
    destruct Hd as [Hd Hst]. revert Hd. unfold setRunningPriority. rewrite bool_decide_true by done. simpl.
    intros [[-> <-]|[Hne Hd]]%lookup_insert_Some; [done|].
    assert (tok = Some d); [|congruence]. by apply (at_token l tok slot d q Running Hc). }
  all: split; simpl;
    [destruct (cancelCtx l) as [r|]; [|exact Hidle];
     destruct Hidle as (q & [Hq Hst] & Hprio); exists q; split; [split; [|done]|done];
     simpl; rewrite lookup_insert_ne; [done|]; intros ->; first [congruence | destruct Hp as [Hp Hp']; congruence]
    |intros d q [Hd Hst]; simpl in Hd; apply lookup_insert_Some in Hd as [[-> <-]|[Hne Hd]];
     [discriminate|by apply (Hrun d q)]].
Qed.

(** Calls go on: they keep their arguments, and a context once made stays. *)
Definition evolves (m m' : gmap call process) : Prop :=
  ∀ q r, m !! q = Some r → ∃ r', m' !! q = Some r' ∧ r'.(priority) = r.(priority) ∧
    r'.(takeover) = r.(takeover) ∧ (has_context r.(at_stage) = true → has_context r'.(at_stage) = true).

Lemma evolves_insert m c p st :
  m !! c = None ∨ (m !! c = Some p ∧ (has_context p.(at_stage) = true → has_context st = true)) →
  evolves m (<[c := {| priority := p.(priority); takeover := p.(takeover); at_stage := st |}]> m).
Proof.
  intros Hc q r Hq. destruct (decide (q = c)) as [->|Hne].
  - destruct Hc as [Hc|[Hc Hst]]; [congruence|]. rewrite Hc in Hq. injection Hq as <-.
    eexists. split; [apply lookup_insert_eq|done].
  - exists r. by rewrite lookup_insert_ne.
Qed.

Lemma step_evolves l l' : step l l' → evolves l.(calls) l'.(calls).
Proof.
  intros [c p Hp|c p [Hp Hst]|c p [Hp Hst]|c p [Hp Hst]|c p [Hp Hst]|c p ctx [Hp Hst]|c p [Hp Hst]|c p [Hp Hst]|c p [Hp Hst]|c p [Hp Hst]|c p [Hp Hst]];
    unfold setRunningPriority; try case_bool_decide; simpl; apply evolves_insert; auto; right;
    rewrite ?Hst; auto.
Qed.

Lemma evolves_authority p p' r r' :
  p'.(priority) = p.(priority) → p'.(takeover) = p.(takeover) → r'.(priority) = r.(priority) →
  may_take_over p r → may_take_over p' r'.
Proof. unfold may_take_over, allowed. by intros -> -> ->. Qed.

(** What a step leaves of the facts about who was cancelled. *)
Section cancel_steps.
Context (l l' : PriorityLock) (c : call) (p : process) (st : stage).
Context (Hstep : step l l') (Hinv : cancel_inv l).
Context (Hcalls : l'.(calls) =
  <[c := {| priority := p.(priority); takeover := p.(takeover); at_stage := st |}]> l.(calls)).

Lemma is_at_after d q st' :
  is_at l' d q st' →
  (d = c ∧ q = {| priority := p.(priority); takeover := p.(takeover); at_stage := st |} ∧ st' = st)
  ∨ is_at l d q st'.
Proof.
  intros [Hd Hst]. rewrite Hcalls in Hd. apply lookup_insert_Some in Hd as [[-> <-]|[_ Hd]]; [left|by right].
  by rewrite <- Hst.
Qed.

Lemma about_after p0 p' ctx :
  p'.(priority) = p0.(priority) → p'.(takeover) = p0.(takeover) →
  (∀ q, ctx = Some q → ∃ r, l.(calls) !! q = Some r ∧ has_context r.(at_stage) = true ∧ may_take_over p0 r) →
  ∀ q, ctx = Some q →
    ∃ r, l'.(calls) !! q = Some r ∧ has_context r.(at_stage) = true ∧ may_take_over p' r.
Proof.
  intros Hprio Htk H0 q Hq. destruct (H0 q Hq) as (r & Hr & Hctx & Hmay).
  destruct (step_evolves l l' Hstep q r Hr) as (r' & Hr' & Hp' & _ & Hctx'). exists r'.
  split_and!; [done|auto|]. by eapply evolves_authority.
Qed.

Lemma cancelled_after q :
  q ∈ l.(cancelled) → ∃ r, l'.(calls) !! q = Some r ∧ has_context r.(at_stage) = true.
Proof.
  intros Hq. destruct (inv_cancelled _ Hinv q Hq) as (r & Hr & Hctx).
  destruct (step_evolves l l' Hstep q r Hr) as (r' & Hr' & _ & _ & Hctx'). eauto.
Qed.

Lemma authorized_after q r r' d p0 :
  l.(calls) !! d = Some p0 → d ≠ q → may_take_over p0 r → r'.(priority) = r.(priority) →
  ∃ d p1, l'.(calls) !! d = Some p1 ∧ d ≠ q ∧ may_take_over p1 r'.
Proof.
  intros Hp Hne Hmay Hprio. destruct (step_evolves l l' Hstep d p0 Hp) as (p1 & Hp1 & Hpp & Hpt & _).
  exists d, p1. split_and!; [done|done|]. by eapply evolves_authority.
Qed.

(** A step to a stage the facts do not mention, that cancels nothing. *)
Lemma plain_step :
  (∀ ctx, st ≠ Cancelling ctx) → st ≠ WaitRunning → st ≠ Running → l'.(cancelled) = l.(cancelled) →
  cancel_inv l'.
Proof.
  intros Hst1 Hst2 Hst3 Hcan. split.
  - intros d q ctx [(_ & _ & Heq)|Hd]%is_at_after; [by destruct (Hst1 ctx)|].
    destruct (inv_about _ Hinv d q ctx Hd) as [H1 H2]. split; [|by eapply about_after].
    intros r r0 [(_ & _ & Heq)|Hr]%is_at_after; [by destruct Hst3|]. by eapply H1.
  - intros d q r r0 [(_ & _ & Heq)|Hd]%is_at_after; [by destruct Hst2|].
    intros [(_ & _ & Heq)|Hr]%is_at_after; [by destruct Hst3|]. rewrite Hcan. by eapply inv_waiting.
  - intros q. rewrite Hcan. apply cancelled_after.
  - intros q r. rewrite Hcan. intros Hq [(_ & _ & Heq)|Hr]%is_at_after; [by destruct Hst3|].
    destruct (inv_authorized _ Hinv q r Hq Hr) as (d & p0 & Hd & Hne & Hmay).
    by eapply authorized_after.
Qed.
End cancel_steps.

Lemma allowed_cancel_inv l c p :
  let l' := with_stage c p (Cancelling (snd (getRunningPriority l))) l in
  running_inv l → cancel_inv l → is_at l c p HasTakeover → allowed p (fst (getRunningPriority l)) = true →
  step l l' → cancel_inv l'.
Proof.
  intros l' [Hidle Hrun] Hinv Hp Hok Hstep. split.
  - intros d q ctx [(-> & -> & [= ->])|Hd]%(is_at_after l l' c p (Cancelling (cancelCtx l)) eq_refl).
    + split.
      * intros r r0 [(_ & _ & [=])|Hr]%(is_at_after l l' c p (Cancelling (cancelCtx l)) eq_refl). by eapply Hrun.
      * apply (about_after l l' Hstep p); [done|done|]. intros r Hr. rewrite Hr in Hidle.
        destruct Hidle as (q & [Hq Hst] & Hprio). exists q. split_and!; [done|by rewrite Hst|].
        unfold may_take_over. rewrite <- Hprio. exact Hok.
    + destruct (inv_about _ Hinv d q ctx Hd) as [H1 H2]. split; [|by eapply about_after].
      intros r r0 [(_ & _ & [=])|Hr]%(is_at_after l l' c p (Cancelling (cancelCtx l)) eq_refl). by eapply H1.
  - intros d q r r0 [(_ & _ & [=])|Hd]%(is_at_after l l' c p (Cancelling (cancelCtx l)) eq_refl).
    intros [(_ & _ & [=])|Hr]%(is_at_after l l' c p (Cancelling (cancelCtx l)) eq_refl).
    exact (inv_waiting _ Hinv d q r r0 Hd Hr).
  - intros q Hq. exact (cancelled_after l l' Hstep Hinv q Hq).
  - intros q r Hq [(_ & _ & [=])|Hr]%(is_at_after l l' c p (Cancelling (cancelCtx l)) eq_refl).
    destruct (inv_authorized _ Hinv q r Hq Hr) as (d & p0 & Hd & Hne & Hmay). by eapply authorized_after.
Qed.

Lemma cancel_cancel_inv l c p ctx :
  let l' := with_stage c p WaitRunning (cancel ctx l) in
  cancel_inv l → is_at l c p (Cancelling ctx) → step l l' → cancel_inv l'.
Proof.
  intros l' Hinv Hp Hstep. destruct (inv_about _ Hinv c p ctx Hp) as [Hall Hmay].
  pose proof (is_at_after l l' c p WaitRunning eq_refl) as Hafter.
  assert (Hcan : ∀ q, q ∈ l'.(cancelled) ↔ ctx = Some q ∨ q ∈ l.(cancelled))
    by (intros q; simpl; destruct ctx; set_solver).
  split.
  - intros d q ctx' [(_ & _ & [=])|Hd]%Hafter.
    destruct (inv_about _ Hinv d q ctx' Hd) as [H1 H2]. split; [|by eapply about_after].
    intros r r0 [(_ & _ & [=])|Hr]%Hafter. by eapply H1.
  - intros d q r r0 Hd [(_ & _ & [=])|Hr]%Hafter. apply Hcan.
    apply Hafter in Hd as [_|Hd]; [left; by eapply Hall|right]. exact (inv_waiting _ Hinv d q r r0 Hd Hr).
  - intros q [Hq|Hq]%Hcan; [|exact (cancelled_after l l' Hstep Hinv q Hq)].
    destruct (Hmay q Hq) as (r & Hr & Hctx & _).
    destruct (step_evolves l l' Hstep q r Hr) as (r' & Hr' & _ & _ & Hctx'). eauto.
  - intros q r Hq [(_ & _ & [=])|Hr]%Hafter. apply Hcan in Hq as [Hq|Hq].
    + destruct (Hmay q Hq) as (r0 & Hr0 & _ & Hm). destruct Hr as [Hr Hst]. assert (r0 = r) as -> by congruence.
      destruct Hp as [Hp Hp']. apply (authorized_after l l' Hstep q r r c p); [done| |done|done].
      intros ->. congruence.
    + destruct (inv_authorized _ Hinv q r Hq Hr) as (d & p0 & Hd & Hne & Hm). by eapply authorized_after.
Qed.

Lemma return_cancel_inv l c p tok slot :
  let l' := with_stage c p Running (with_takeoverCh false (setRunningPriority p.(priority) (Some c) l)) in
  channels_inv l tok slot → running_inv l → cancel_inv l → is_at l c p Acquired → step l l' → cancel_inv l'.
Proof.
  intros l' Hc [Hidle Hrun] Hinv Hp Hstep.
  assert (Hcalls : l'.(calls) = <[c := {| priority := p.(priority); takeover := p.(takeover); at_stage := Running |}]> l.(calls))
    by (unfold l', setRunningPriority; by case_bool_decide).
  pose proof (is_at_after l l' c p Running Hcalls) as Hafter.
  assert (Hnone : l.(cancelCtx) = None).
  { destruct (cancelCtx l) as [d|]; [|done]. destruct Hidle as (q & Hq & _).
    pose proof (at_token l tok slot d q Running Hc Hq eq_refl).
    pose proof (at_token l tok slot c p Acquired Hc Hp eq_refl). assert (d = c) as -> by congruence.
    destruct Hp, Hq. congruence. }
  assert (Hcan : l'.(cancelled) = l.(cancelled))
    by (unfold l', setRunningPriority; case_bool_decide; simpl; [by rewrite Hnone|done]).
  assert (Hslot : ∀ d q st, is_at l' d q st → st ≠ Running → has_slot st = true → False).
  { intros d q st Hd Hne Hs. assert (d ≠ c) as Hdc.
    { intros ->. destruct Hd as [Hd Hst]. rewrite Hcalls, lookup_insert_eq in Hd. injection Hd as <-.
      by rewrite <- Hst in Hne. }
    apply Hafter in Hd as [(-> & _)|Hd]; [done|].
    pose proof (at_slot l tok slot d q st Hc Hd Hs).
    pose proof (at_slot l tok slot c p Acquired Hc Hp eq_refl). congruence. }
  split.
  - intros d q ctx Hd. by destruct (Hslot d q _ Hd).
  - intros d q r r0 Hd. by destruct (Hslot d q _ Hd).
  - intros q Hq. rewrite Hcan in Hq. exact (cancelled_after l l' Hstep Hinv q Hq).
  - intros q r Hq. rewrite Hcan in Hq. intros [(-> & -> & _)|Hr]%Hafter.
    + destruct (inv_cancelled _ Hinv c Hq) as (r & Hr & Hctx). destruct Hp as [Hp Hst].
      assert (r = p) as -> by congruence. by rewrite Hst in Hctx.
    + destruct (inv_authorized _ Hinv q r Hq Hr) as (d & p0 & Hd & Hne & Hm). by eapply authorized_after.
Qed.

Lemma unlock_cancel_inv l c p :
  let l' := with_stage c p Unlocking (setRunningPriority zero None l) in
  running_inv l → cancel_inv l → is_at l c p Running → step l l' → cancel_inv l'.
Proof.
  intros l' [_ Hrun] Hinv Hp Hstep.
  assert (l'.(calls) = <[c := {| priority := p.(priority); takeover := p.(takeover); at_stage := Unlocking |}]> l.(calls)
    ∧ l'.(cancelled) = {[c]} ∪ l.(cancelled)) as [Hcalls Hcan].
  { unfold l', setRunningPriority. rewrite bool_decide_true by done. simpl. by rewrite (Hrun c p Hp). }
  pose proof (is_at_after l l' c p Unlocking Hcalls) as Hafter. split.
  - intros d q ctx [(_ & _ & [=])|Hd]%Hafter.
    destruct (inv_about _ Hinv d q ctx Hd) as [H1 H2]. split; [|by eapply about_after].
    intros r r0 [(_ & _ & [=])|Hr]%Hafter. by eapply H1.
  - intros d q r r0 [(_ & _ & [=])|Hd]%Hafter [(_ & _ & [=])|Hr]%Hafter.
    rewrite Hcan. apply elem_of_union_r. exact (inv_waiting _ Hinv d q r r0 Hd Hr).
  - intros q. rewrite Hcan. intros [->%elem_of_singleton|Hq]%elem_of_union.
    + rewrite Hcalls. eexists. split; [apply lookup_insert_eq|done].
    + exact (cancelled_after l l' Hstep Hinv q Hq).
  - intros q r Hq Hr. rewrite Hcan in Hq.
    assert (q ≠ c) as Hne.
    { intros ->. destruct Hr as [Hr Hst]. rewrite Hcalls, lookup_insert_eq in Hr. injection Hr as <-. done. }
    apply Hafter in Hr as [(-> & _)|Hr]; [done|].
    assert (q ∈ l.(cancelled)) as Hq' by set_solver.
    destruct (inv_authorized _ Hinv q r Hq' Hr) as (d & p0 & Hd & Hne' & Hm). by eapply authorized_after.
Qed.

Lemma step_cancel_inv l l' tok slot :
  channels_inv l tok slot → running_inv l → cancel_inv l → step l l' → cancel_inv l'.
Proof.
  intros Hc Hr Hinv Hstep. pose proof Hstep as Hcase. destruct Hcase.
  - by apply (plain_step l _ c p WaitTakeover Hstep Hinv).
  - by apply (plain_step l _ c p HasTakeover Hstep Hinv).
  - by apply (plain_step l _ c p (Failed ErrTimeout) Hstep Hinv).
  - by apply (plain_step l _ c p (Failed ErrLocked) Hstep Hinv).
  - by apply allowed_cancel_inv.
  - by apply (cancel_cancel_inv l c p ctx).
  - by apply (plain_step l _ c p Acquired Hstep Hinv).
  - by apply (plain_step l _ c p (Failed ErrTimeout) Hstep Hinv).
  - by apply (return_cancel_inv l c p tok slot).
  - by apply unlock_cancel_inv.
  - by apply (plain_step l _ c p Released Hstep Hinv).
Qed.

Record lock_inv (l : PriorityLock) : Prop := {
  inv_channels : ∃ tok slot, channels_inv l tok slot;
  inv_running : running_inv l;
  inv_cancel : cancel_inv l
}.

Lemma reachable_inv l : rtc step NewPriorityLock l → lock_inv l.
Proof.
  assert (lock_inv NewPriorityLock) as H0.
  { split.
    - exists None, None. by split.
    - split; [done|]. by intros c p [[=] _].
    - split; [by intros ??? [[=] _]|by intros ???? [[=] _]|..]; intros q; by intros; set_solver. }
  revert H0. generalize NewPriorityLock. intros l0 H0 Hsteps. induction Hsteps as [|l0 l1 l2 Hstep _ IH]; [done|].
  apply IH. destruct H0 as [(tok & slot & Hc) Hr Hinv]. split.
  - by eapply step_channels.
  - by eapply step_running_inv.
  - by eapply step_cancel_inv.
Qed.

(** ** Theorems *)

(** C9: the lock is exclusive and nobody waits for a sequence that was not told to end.
    In every reachable state: at most one call is between the return of [Lock] and the
    end of [Unlock], and while it is there the channel is empty, so [Unlock] never blocks;
    and if a call waits for the running one, then the token is free, or the one who has
    it is returning it, or its context is cancelled. *)
Theorem lock_exclusive l c p :
  rtc step NewPriorityLock l → l.(calls) !! c = Some p →
  (has_token p.(at_stage) = true →
     l.(runningCh) = false ∧
     ∀ d q, l.(calls) !! d = Some q → has_token q.(at_stage) = true → d = c) ∧
  (p.(at_stage) = WaitRunning →
     l.(runningCh) = true ∨
     ∃ d q, l.(calls) !! d = Some q ∧ d ≠ c ∧
       (q.(at_stage) = Unlocking ∨ q.(at_stage) = Running ∧ d ∈ l.(cancelled))).
Proof.
  intros Hsteps Hp. destruct (reachable_inv l Hsteps) as [(tok & slot & Hc) _ Hinv].
  pose proof (inv_runningCh _ _ _ Hc) as Hr. split.
  - intros Ht. apply (inv_tok _ _ _ Hc c p Hp) in Ht. split.
    + destruct (runningCh l); [|done]. pose proof (proj1 Hr eq_refl). congruence.
    + intros d q Hq Hq'. apply (inv_tok _ _ _ Hc d q Hq) in Hq'. congruence.
  - intros Hw. destruct (runningCh l); [by left|right].
    destruct tok as [d|]; [|by pose proof (proj2 Hr eq_refl)].
    destruct (inv_tok_some _ _ _ Hc d eq_refl) as [q Hq].
    assert (has_token q.(at_stage) = true) as Ht by (by apply (inv_tok _ _ _ Hc d q Hq)).
    assert (d ≠ c) as Hne by (intros ->; assert (q = p) as -> by congruence; by rewrite Hw in Ht).
    exists d, q. split; [done|]. split; [done|].
    destruct (at_stage q) eqn:Hst; try done; [|right|by left].
    + exfalso. apply Hne.
      assert (slot = Some d) by (apply (at_slot l _ slot d q Acquired Hc); by split).
      assert (slot = Some c) by (apply (at_slot l _ slot c p WaitRunning Hc); by split). congruence.
    + split; [done|]. eapply (inv_waiting _ Hinv c p d q); by split.
Qed.

(** The call that is refused was refused for a sequence that runs. *)
Lemma locked_reason `{!PriorityLaws T} l c p :
  rtc step NewPriorityLock l → is_at l c p HasTakeover →
  allowed p (fst (getRunningPriority l)) = false →
  ∃ d q, is_at l d q Running ∧ CanTakeOver p.(priority) q.(priority) = false ∧ p.(takeover) = false.
Proof.
  intros Hsteps Hp Hno. destruct (reachable_inv l Hsteps) as [_ [Hidle _] _].
  unfold allowed in Hno. apply orb_false_iff in Hno as [Hno Htk]. simpl in Hno.
  destruct (cancelCtx l) as [d|].
  - destruct Hidle as (q & Hq & Hprio). exists d, q. by rewrite <- Hprio.
  - rewrite Hidle, can_take_over_zero in Hno. done.
Qed.

Lemma cancelled_reason l d q :
  rtc step NewPriorityLock l → is_at l d q Running → d ∈ l.(cancelled) →
  ∃ c p, l.(calls) !! c = Some p ∧ c ≠ d ∧
    (CanTakeOver p.(priority) q.(priority) = true ∨ p.(takeover) = true).
Proof.
  intros Hsteps Hq Hd. destruct (reachable_inv l Hsteps) as [_ _ Hinv].
  destruct (inv_authorized _ Hinv d q Hd Hq) as (c & p & Hp & Hne & Hmay).
  exists c, p. split_and!; [done|done|]. by apply orb_true_iff.
Qed.
End lock.

Arguments PriorityLock T : clear implicits.
Arguments process T : clear implicits.

(** The sequences by the table: [s] may take over [running]. *)
Definition takes_over (s running : Sequence) : Prop :=
  running = SequenceNoop ∨
  (running = SequenceInitialize ∧ s = SequenceMaintenanceUpgrade) ∨
  (running = SequenceBoot ∧ s ∈ [SequenceReboot; SequenceReset; SequenceUpgrade]) ∨
  (running ∈ [SequenceReboot; SequenceReset] ∧ s = SequenceReboot).

Lemma takes_over_spec s running : Sequence_CanTakeOver s running = true ↔ takes_over s running.
Proof.
  unfold takes_over. split.
  - destruct running, s; intros Hc; try discriminate Hc; clear Hc; try set_solver;
      try (by left); try (by right; left); try (right; right; left; set_solver); right; right; right; set_solver.
  - intros [->|[[-> ->]|[[-> Hs]|[Hr ->]]]]; [by destruct s|done|..].
    + repeat (apply elem_of_cons in Hs as [->|Hs]; [done|]). by apply not_elem_of_nil in Hs.
    + repeat (apply elem_of_cons in Hr as [->|Hr]; [done|]). by apply not_elem_of_nil in Hr.
Qed.

Lemma never_taken s running :
  running ∈ [SequenceInstall; SequenceShutdown; SequenceUpgrade; SequenceStageUpgrade;
             SequenceMaintenanceUpgrade] → ¬ takes_over s running.
Proof.
  intros Hin Ht%takes_over_spec. apply (bool_decide_eq_true_2 _) in Hin.
  by destruct running; try discriminate Hin; destruct s.
Qed.

(** Who may end whom.  In every reachable state of the sequencer's lock: the context of
    a running sequence was cancelled only if some other call asked for a sequence that
    the table lets take it over, or asked with the takeover option; so an installation, a
    shutdown or an upgrade that runs is cancelled by nothing else.  And a call that holds
    the takeover slot is refused exactly when a sequence runs that it may not take over
    and it does not have the option. *)
Theorem takeover_rules (l : PriorityLock Sequence) :
  rtc step NewPriorityLock l →
  (∀ d q, is_at l d q Running → d ∈ l.(cancelled) →
     ∃ c p, l.(calls) !! c = Some p ∧ c ≠ d ∧
       (takes_over p.(priority) q.(priority) ∨ p.(takeover) = true)) ∧
  (∀ d q, is_at l d q Running → d ∈ l.(cancelled) →
     q.(priority) ∈ [SequenceInstall; SequenceShutdown; SequenceUpgrade; SequenceStageUpgrade;
                     SequenceMaintenanceUpgrade] →
     ∃ c p, l.(calls) !! c = Some p ∧ p.(takeover) = true) ∧
  (∀ c p, is_at l c p HasTakeover →
     allowed p (fst (getRunningPriority l)) = false ↔
     ∃ d q, is_at l d q Running ∧ ¬ takes_over p.(priority) q.(priority) ∧ p.(takeover) = false).
Proof.
  intros Hsteps.
  assert (H1 : ∀ d q, is_at l d q Running → d ∈ l.(cancelled) →
     ∃ c p, l.(calls) !! c = Some p ∧ c ≠ d ∧ (takes_over p.(priority) q.(priority) ∨ p.(takeover) = true)).
  { intros d q Hq Hd. destruct (cancelled_reason l d q Hsteps Hq Hd) as (c & p & Hp & Hne & Hwhy).
    exists c, p. split_and!; [done|done|]. destruct Hwhy; [left|by right]. by apply takes_over_spec. }
  split_and!; [done|..].
  - intros d q Hq Hd Hprio. destruct (H1 d q Hq Hd) as (c & p & Hp & _ & [Ht|Ht]); [|eauto].
    by destruct (never_taken _ _ Hprio Ht).
  - intros c p Hp. split.
    + intros Hno. destruct (locked_reason l c p Hsteps Hp Hno) as (d & q & Hq & Hct & Htk).
      exists d, q. split_and!; [done| |done]. intros Ht%takes_over_spec.
      change (CanTakeOver p.(priority) q.(priority) = true) in Ht. congruence.
    + intros (d & q & Hq & Hct & Htk). unfold allowed. rewrite Htk, orb_false_r.
      destruct (reachable_inv l Hsteps) as [_ [Hidle Hrun] _]. rewrite (Hrun d q Hq) in Hidle.
      destruct Hidle as (q' & Hq' & Hprio). assert (q' = q) as -> by (destruct Hq, Hq'; congruence).
      simpl. rewrite Hprio. apply not_true_iff_false. intros Ht. by apply Hct, takes_over_spec.
Qed.

(** *** A takeover: a reboot ends the boot sequence *)

Definition run_step (l : PriorityLock Sequence) (c : positive) (st : stage)
    (f : PriorityLock Sequence → PriorityLock Sequence) : PriorityLock Sequence :=
  match l.(calls) !! c with
  | Some p => with_stage c p st (f l)
  | None => l
  end.

Definition boot_running : PriorityLock Sequence :=
  let p := {| priority := SequenceBoot; takeover := false; at_stage := WaitTakeover |} in
  let l := with_stage 1%positive p WaitTakeover NewPriorityLock in
  let l := run_step l 1%positive HasTakeover (with_takeoverCh true) in
  let l := run_step l 1%positive (Cancelling None) id in
  let l := run_step l 1%positive WaitRunning (cancel None) in
  let l := run_step l 1%positive Acquired (with_runningCh false) in
  run_step l 1%positive Running (λ l, with_takeoverCh false (setRunningPriority SequenceBoot (Some 1%positive) l)).

Definition reboot_waiting : PriorityLock Sequence :=
  let p := {| priority := SequenceReboot; takeover := false; at_stage := WaitTakeover |} in
  let l := with_stage 2%positive p WaitTakeover boot_running in
  let l := run_step l 2%positive HasTakeover (with_takeoverCh true) in
  let l := run_step l 2%positive (Cancelling (Some 1%positive)) id in
  run_step l 2%positive WaitRunning (cancel (Some 1%positive)).

(** Take one step of a concrete lock. *)
Tactic Notation "take_step" uconstr(rule) :=
  eapply rtc_l; [eapply rule; first [reflexivity | split; reflexivity]|].

Lemma reboot_waiting_reachable : rtc step NewPriorityLock reboot_waiting.
Proof.
  take_step (step_call _ 1%positive {| priority := SequenceBoot; takeover := false; at_stage := WaitTakeover |}).
  take_step (step_takeover _ 1%positive).
  take_step (step_allowed _ 1%positive).
  take_step (step_cancel _ 1%positive _ None).
  take_step (step_running _ 1%positive).
  take_step (step_return _ 1%positive).
  take_step (step_call _ 2%positive {| priority := SequenceReboot; takeover := false; at_stage := WaitTakeover |}).
  take_step (step_takeover _ 2%positive).
  take_step (step_allowed _ 2%positive).
  take_step (step_cancel _ 2%positive _ (Some 1%positive)).
  match goal with |- rtc _ ?x ?y => replace x with y by (vm_compute; reflexivity) end. apply rtc_refl.
Qed.

Definition reboot_call : process Sequence :=
  {| priority := SequenceReboot; takeover := false; at_stage := WaitRunning |}.

Lemma lock_exclusive_witness :
  let l := reboot_waiting in
  (has_token reboot_call.(at_stage) = true →
     l.(runningCh) = false ∧
     ∀ d q, l.(calls) !! d = Some q → has_token q.(at_stage) = true → d = 2%positive) ∧
  (reboot_call.(at_stage) = WaitRunning →
     l.(runningCh) = true ∨
     ∃ d q, l.(calls) !! d = Some q ∧ d ≠ 2%positive ∧
       (q.(at_stage) = Unlocking ∨ q.(at_stage) = Running ∧ d ∈ l.(cancelled))).
Proof.
  intros l. apply (lock_exclusive l 2%positive reboot_call); [apply reboot_waiting_reachable|reflexivity].
Defined.

Lemma takeover_rules_witness :
  let l := reboot_waiting in
  let boot := {| priority := SequenceBoot; takeover := false; at_stage := Running |} in
  is_at l 1%positive boot Running ∧ 1%positive ∈ l.(cancelled) ∧
  ∃ c p, l.(calls) !! c = Some p ∧ c ≠ 1%positive ∧
    (takes_over p.(priority) boot.(priority) ∨ p.(takeover) = true).
Proof.
  intros l boot. assert (is_at l 1%positive boot Running) as Hb by (split; reflexivity).
  assert (1%positive ∈ l.(cancelled)) as Hc by (vm_compute; reflexivity).
  split; [exact Hb|]. split; [exact Hc|].
  exact (proj1 (takeover_rules l reboot_waiting_reachable) 1%positive boot Hb Hc).
Defined.
