(* ===== verification/EventStream.v ===== *)
(** * Runtime: the event stream

    [internal/app/machined/pkg/runtime/v1alpha1/v1alpha1_events.go] and the options of
    [internal/app/machined/pkg/runtime/events.go]: the ring of runtime events, its
    publisher, and the watchers that each read it at their own pace.  Publishers and one
    watcher interleave as a sequence of steps.

    Event ids are those of the [xid] package: a type with an order, a nil value, and the
    time an id carries.  [writePos] is an [int64] that counts events; it stays an
    unbounded integer here, since 2^63 events are never published. *)

From S2P Require Import Prelude.

(** [sort.Search]: binary search for the first index in [0, n) at which [f] holds. *)
Fixpoint search_loop (fuel : nat) (f : Z → outcome Empty_set bool) (i j : Z) : outcome Empty_set Z :=
  match fuel with
  | O => if i <? j then Panic LoopFuel else Ok i
  | S fuel =>
      if i <? j then
        let h := Z.shiftr (i + j) 1 in
        found ← f h;
        if (found : bool) then search_loop fuel f i h else search_loop fuel f (h + 1) j
      else Ok i
  end.

Definition Search (n : Z) (f : Z → outcome Empty_set bool) : outcome Empty_set Z :=
  search_loop (Z.to_nat n) f 0 n.

(** On a predicate that is monotone, with [f] defined on the range, the search returns
    the border. *)
Lemma search_loop_spec fuel f (g : Z → bool) lo hi i j :
  (∀ h, lo ≤ h < hi → f h = Ok (g h)) →
  lo ≤ i ≤ j → j ≤ hi → j - i ≤ Z.of_nat fuel →
  (∀ h, lo ≤ h < i → g h = false) → (∀ h, j ≤ h < hi → g h = true) →
  (∀ h k, lo ≤ h ≤ k → k < hi → g h = true → g k = true) →
  ∃ r, search_loop fuel f i j = Ok r ∧ lo ≤ r ≤ hi ∧
    (∀ h, lo ≤ h < r → g h = false) ∧ (∀ h, r ≤ h < hi → g h = true).
Proof.
  intros Hf Hij Hj Hfuel. revert i j Hij Hj Hfuel.
  induction fuel as [|fuel IH]; intros i j Hij Hj Hfuel Hlo Hhi Hmono; cbn [search_loop].
  - destruct (Z.ltb_spec i j); [lia|]. exists i. assert (i = j) as -> by lia.
    split; [done|]. split; [lia|]. by split.
  - destruct (Z.ltb_spec i j) as [Hlt|Hge].
    2:{ exists i. assert (i = j) as -> by lia. split; [done|]. split; [lia|]. by split. }
    rewrite Z.shiftr_div_pow2 by lia. change (2 ^ 1) with 2.
    assert (i ≤ (i + j) / 2 < j) as Hh.
    { split; [apply Z.div_le_lower_bound; lia|apply Z.div_lt_upper_bound; lia]. }
    set (h := (i + j) / 2) in *. rewrite Hf by lia. cbn [mbind outcome_bind].
    destruct (g h) eqn:Hg.
    + apply IH; try lia; try done. intros k Hk. apply (Hmono h k); [lia|lia|done].
    + apply IH; try lia; try done. intros k Hk. destruct (g k) eqn:Hgk; [|done].
      rewrite (Hmono k h) in Hg; [done|lia|lia|done].
Qed.

(** On any predicate that is defined on the range, the search returns an index of it. *)
Lemma search_loop_range fuel f (g : Z → bool) lo hi i j :
  (∀ h, lo ≤ h < hi → f h = Ok (g h)) → lo ≤ i ≤ j → j ≤ hi → j - i ≤ Z.of_nat fuel →
  ∃ r, search_loop fuel f i j = Ok r ∧ i ≤ r ≤ j.
Proof.
  intros Hf. revert i j. induction fuel as [|fuel IH]; intros i j Hij Hj Hfuel; cbn [search_loop].
  - destruct (Z.ltb_spec i j); [lia|]. exists i. split; [done|lia].
  - destruct (Z.ltb_spec i j) as [Hlt|Hge]; [|exists i; split; [done|lia]].
    rewrite Z.shiftr_div_pow2 by lia. change (2 ^ 1) with 2.
    assert (i ≤ (i + j) / 2 < j) as Hh.
    { split; [apply Z.div_le_lower_bound; lia|apply Z.div_lt_upper_bound; lia]. }
    set (h := (i + j) / 2) in *. rewrite Hf by lia. cbn [mbind outcome_bind].
    destruct (g h); [destruct (IH i h) as (r & -> & ?)|destruct (IH (h + 1) j) as (r & -> & ?)];
      try lia; exists r; split; try done; lia.
Qed.

Lemma Search_range n f (g : Z → bool) :
  0 ≤ n → (∀ h, 0 ≤ h < n → f h = Ok (g h)) → ∃ r, Search n f = Ok r ∧ 0 ≤ r ≤ n.
Proof. intros Hn Hf. apply (search_loop_range _ f g 0 n); lia || done. Qed.

(** What the stream relies on of event ids. *)
Class EventID (ID : Type) := {
  id_eq_dec :: EqDecision ID;
  nil_id : ID;
  (** [id.Compare(other) > 0] *)
  id_gt : ID → ID → bool;
  (** [id.Time()] *)
  id_time : ID → Z
}.
(** [id.Time().After(timestamp)] *)
Definition id_after {ID : Type} `{EventID ID} (id : ID) (timestamp : Z) : bool := timestamp <? id_time id.

Section events.
Context {ID : Type} `{EventID ID} {message : Type} (no_message : message).

Record Event := {
  TypeURL : string;
  EventId : ID;
  Payload : message;
  ActorID : string
}.

Definition zero_event : Event :=
  {| TypeURL := ""; EventId := nil_id; Payload := no_message; ActorID := "" |}.

Record EventInfo := { info_event : Event; Backlog : Z }.

(** ** Watch options *)

Record WatchOptions := {
  TailEvents : Z;
  TailID : ID;
  TailDuration : Z;
  OptActorID : string
}.

Definition zero_options : WatchOptions :=
  {| TailEvents := 0; TailID := nil_id; TailDuration := 0; OptActorID := "" |}.

Inductive option_error := TailConflict.

Definition WatchOptionFunc := WatchOptions → option_error + WatchOptions.

Definition WithTailEvents (number : Z) : WatchOptionFunc := λ opts,
  if negb (bool_decide (opts.(TailID) = nil_id)) || negb (opts.(TailDuration) =? 0) then inl TailConflict
  else inr {| TailEvents := number; TailID := opts.(TailID); TailDuration := opts.(TailDuration);
              OptActorID := opts.(OptActorID) |}.

Definition WithTailID (id : ID) : WatchOptionFunc := λ opts,
  if negb (opts.(TailEvents) =? 0) || negb (opts.(TailDuration) =? 0) then inl TailConflict
  else inr {| TailEvents := opts.(TailEvents); TailID := id; TailDuration := opts.(TailDuration);
              OptActorID := opts.(OptActorID) |}.

Definition WithTailDuration (dur : Z) : WatchOptionFunc := λ opts,
  if negb (opts.(TailEvents) =? 0) || negb (bool_decide (opts.(TailID) = nil_id)) then inl TailConflict
  else inr {| TailEvents := opts.(TailEvents); TailID := opts.(TailID); TailDuration := dur;
              OptActorID := opts.(OptActorID) |}.

Definition WithActorID (actorID : string) : WatchOptionFunc := λ opts,
  inr {| TailEvents := opts.(TailEvents); TailID := opts.(TailID); TailDuration := opts.(TailDuration);
         OptActorID := actorID |}.

Fixpoint apply_options (opt : list WatchOptionFunc) (opts : WatchOptions) : option_error + WatchOptions :=
  match opt with
  | [] => inr opts
  | o :: opt =>
      match o opts with
      | inl e => inl e
      | inr opts => apply_options opt opts
      end
  end.

(** ** The stream *)

Record Events := {
  stream : list Event;
  writePos : Z;
  cap : Z;
  gap : Z
}.

Definition NewEvents (capacity gap : Z) : outcome Empty_set Events :=
  if capacity <? 0 then Panic SliceBounds
  else if gap >=? capacity then Panic (Explicit "NewEvents: gap >= capacity")
  else Ok {| stream := replicate (Z.to_nat capacity) zero_event; writePos := 0;
             cap := capacity; gap := gap |}.

Definition Publish (e : Events) (event : Event) : outcome Empty_set Events :=
  stream ← go_set e.(stream) (Z.rem e.(writePos) e.(cap)) event;
  Ok {| stream := stream; writePos := e.(writePos) + 1; cap := e.(cap); gap := e.(gap) |}.

(** ** Watching *)

(** The event at position [minPos + i], for the searches. *)
Definition event_at (e : Events) (pos : Z) : outcome Empty_set Event :=
  go_index e.(stream) (Z.rem pos e.(cap)).

(** The initial position of a consumer; [now] is the clock. *)
Definition watch_start (e : Events) (opts : WatchOptions) (now : Z) : outcome Empty_set Z :=
  let pos := e.(writePos) in
  let minPos := Z.max (e.(writePos) - (e.(cap) - e.(gap))) 0 in
  if negb (opts.(TailEvents) =? 0) then
    if opts.(TailEvents) <? 0 then Ok minPos
    else Ok (Z.max (pos - opts.(TailEvents)) minPos)
  else if negb (bool_decide (opts.(TailID) = nil_id)) then
    i ← Search (pos - minPos) (λ i,
      event ← event_at e (minPos + i);
      Ok (id_gt event.(EventId) opts.(TailID)));
    Ok (minPos + i)
  else if negb (opts.(TailDuration) =? 0) then
    let timestamp := now - opts.(TailDuration) in
    i ← Search (pos - minPos) (λ i,
      event ← event_at e (minPos + i);
      Ok (id_after event.(EventId) timestamp));
    Ok (minPos + i)
  else Ok pos.

(** A consumer: its position, what it has sent, and whether its channel is closed. *)
Record Consumer := { pos : Z; sent : list EventInfo; closed : bool }.

(** One turn of the consumer's loop: it sleeps when there is nothing to consume, ends on
    an overrun, and otherwise takes the event, which it sends unless it is filtered. *)
Definition consumer_turn (e : Events) (opts : WatchOptions) (c : Consumer) : outcome Empty_set Consumer :=
  if c.(closed) then Ok c
  else if c.(pos) =? e.(writePos) then Ok c
  else if e.(writePos) - c.(pos) >=? e.(cap) then
    Ok {| pos := c.(pos); sent := c.(sent); closed := true |}
  else
    event ← event_at e c.(pos);
    let pos := c.(pos) + 1 in
    let backlog := e.(writePos) - pos in
    if negb (String.eqb opts.(OptActorID) "") && negb (String.eqb event.(ActorID) opts.(OptActorID))
    then Ok {| pos := pos; sent := c.(sent); closed := false |}
    else Ok {| pos := pos; sent := c.(sent) ++ [{| info_event := event; Backlog := backlog |}];
               closed := false |}.

(** What happens after a watch has begun. *)
Inductive activity :=
  | Published (event : Event)
  | Turn
  | Done.     (** the watch function has returned, and the consumer noticed *)

Definition act (opts : WatchOptions) (a : activity) (s : Events * Consumer)
    : outcome Empty_set (Events * Consumer) :=
  let '(e, c) := s in
  match a with
  | Published event => e ← Publish e event; Ok (e, c)
  | Turn => c ← consumer_turn e opts c; Ok (e, c)
  | Done => Ok (e, {| pos := c.(pos); sent := c.(sent); closed := true |})
  end.

Fixpoint acts (opts : WatchOptions) (l : list activity) (s : Events * Consumer)
    : outcome Empty_set (Events * Consumer) :=
  match l with
  | [] => Ok s
  | a :: l => s ← act opts a s; acts opts l s
  end.

Fixpoint publish_all (e : Events) (l : list Event) : outcome Empty_set Events :=
  match l with
  | [] => Ok e
  | event :: l => e ← Publish e event; publish_all e l
  end.

(** [Watch]: the options, the position, then the consumer. *)
Definition Watch (e : Events) (opt : list WatchOptionFunc) (now : Z) (l : list activity)
    : outcome Empty_set (option_error + Events * Consumer) :=
  match apply_options opt zero_options with
  | inl err => Ok (inl err)
  | inr opts =>
      pos ← watch_start e opts now;
      s ← acts opts l (e, {| pos := pos; sent := []; closed := false |});
      Ok (inr s)
  end.

(** ** The ring holds the end of the log *)

Record stream_ok (e : Events) (log : list Event) : Prop := {
  st_len : zlen e.(stream) = e.(cap);
  st_cap : 0 < e.(cap);
  st_gap : 0 ≤ e.(gap) < e.(cap);
  st_pos : e.(writePos) = zlen log;
  st_log p : zlen log - e.(cap) ≤ p < zlen log → 0 ≤ p →
    e.(stream) !! Z.to_nat (p mod e.(cap)) = log !! Z.to_nat p
}.

Lemma NewEvents_ok capacity g :
  0 ≤ g < capacity → ∃ e, NewEvents capacity g = Ok e ∧ stream_ok e [] ∧ e.(cap) = capacity ∧ e.(gap) = g.
Proof.
  intros Hg. unfold NewEvents. destruct (Z.ltb_spec capacity 0); [lia|].
  rewrite Z.geb_leb. destruct (Z.leb_spec capacity g); [lia|].
  eexists. split; [done|]. split; [|done]. split; simpl; rewrite ?zlen_nil, ?zlen_replicate by lia; try lia; done.
Qed.

Lemma zlen_lookup {A} (l : list A) p : 0 ≤ p < zlen l → ∃ x, l !! Z.to_nat p = Some x.
Proof. intros Hp. apply lookup_lt_is_Some_2. unfold zlen in Hp. lia. Qed.

Lemma go_set_Ok {E A} (l : list A) i v : 0 ≤ i < zlen l → go_set (E:=E) l i v = Ok (<[Z.to_nat i := v]> l).
Proof. intros Hi. unfold go_set. by rewrite bool_decide_true. Qed.

Lemma mod_neq p q n : 0 < n → 0 < q - p < n → p mod n ≠ q mod n.
Proof.
  intros Hn Hpq Heq. pose proof (Z.div_mod p n ltac:(lia)). pose proof (Z.div_mod q n ltac:(lia)).
  rewrite Heq in *. generalize dependent (q mod n). generalize (q / n), (p / n). intros a b m _ Hp Hq.
  assert (0 < n * (a - b) < n) by nia. assert (0 < a - b < 1) by nia. lia.
Qed.

Lemma Publish_ok e log event :
  stream_ok e log → ∃ e', Publish e event = Ok e' ∧ stream_ok e' (log ++ [event]) ∧
    e'.(cap) = e.(cap) ∧ e'.(gap) = e.(gap).
Proof.
  intros [Hlen Hcap Hgap Hpos Hlog]. pose proof (zlen_nonneg log) as Hn. unfold Publish.
  rewrite Z.rem_mod_nonneg by lia. pose proof (Z.mod_pos_bound e.(writePos) e.(cap) Hcap) as Hm.
  rewrite go_set_Ok by lia. cbn [mbind outcome_bind]. eexists. split; [done|]. split; [|done].
  split; simpl; autorewrite with zlen; try lia.
  intros p Hp Hp0. rewrite Hpos in *.
  destruct (decide (p = zlen log)) as [->|Hne].
  - rewrite list_lookup_insert_eq by (unfold zlen in *; lia).
    rewrite lookup_app_r by (unfold zlen; lia). unfold zlen. by rewrite Nat2Z.id, Nat.sub_diag.
  - rewrite list_lookup_insert_ne.
    2:{ intros Heq. apply (mod_neq p (zlen log) e.(cap)); [lia|lia|].
        pose proof (Z.mod_pos_bound p e.(cap) Hcap). lia. }
    rewrite lookup_app_l by (unfold zlen in *; lia). apply Hlog; lia.
Qed.

Lemma event_at_ok e log p :
  stream_ok e log → 0 ≤ p → zlen log - e.(cap) ≤ p < zlen log →
  ∃ x, event_at e p = Ok x ∧ log !! Z.to_nat p = Some x.
Proof.
  intros [Hlen Hcap Hgap Hpos Hlog] Hp0 Hp. destruct (zlen_lookup log p) as [x Hx]; [lia|].
  exists x. split; [|done]. unfold event_at. rewrite Z.rem_mod_nonneg by lia.
  pose proof (Z.mod_pos_bound p e.(cap) Hcap). apply go_index_Ok; [lia|]. by rewrite Hlog by lia.
Qed.

Lemma publish_all_ok e log l :
  stream_ok e log → ∃ e', publish_all e l = Ok e' ∧ stream_ok e' (log ++ l) ∧
    e'.(cap) = e.(cap) ∧ e'.(gap) = e.(gap).
Proof.
  revert e log. induction l as [|x l IH]; intros e log Hok; cbn [publish_all].
  - exists e. by rewrite app_nil_r.
  - destruct (Publish_ok e log x Hok) as (e1 & -> & Hok1 & Hc & Hg). cbn [mbind outcome_bind].
    destruct (IH e1 (log ++ [x]) Hok1) as (e2 & -> & Hok2 & Hc' & Hg').
    exists e2. rewrite <- app_assoc in Hok2. split_and!; try done; congruence.
Qed.

(** ** Where a watch starts *)

(** The oldest position a watch may start at. *)
Definition oldest (e : Events) : Z := Z.max (e.(writePos) - (e.(cap) - e.(gap))) 0.

Definition tail_border (e : Events) (log : list Event) (newer : Event → bool) (start : Z) : Prop :=
  (∀ p q x y, oldest e ≤ p ≤ q → log !! Z.to_nat p = Some x → log !! Z.to_nat q = Some y →
     newer x = true → newer y = true) →
  ∀ p x, oldest e ≤ p → log !! Z.to_nat p = Some x → (newer x = true ↔ start ≤ p).

Lemma Search_events e log (newer : Event → bool) :
  stream_ok e log →
  ∃ i, Search (e.(writePos) - oldest e) (λ i, event ← event_at e (oldest e + i); Ok (newer event)) = Ok i ∧
    0 ≤ i ≤ e.(writePos) - oldest e ∧ tail_border e log newer (oldest e + i).
Proof.
  intros Hok. pose proof Hok as [Hlen Hcap Hgap Hpos Hlog]. pose proof (zlen_nonneg log) as Hn0.
  set (n := e.(writePos) - oldest e).
  assert (Hn : 0 ≤ n) by (unfold n, oldest; lia).
  set (g := λ i, match log !! Z.to_nat (oldest e + i) with Some x => newer x | None => false end).
  assert (Hf : ∀ h, 0 ≤ h < n → (event ← event_at e (oldest e + h); Ok (newer event)) = Ok (g h)).
  { intros h Hh. destruct (event_at_ok e log (oldest e + h) Hok) as (x & -> & Hx);
      [unfold oldest; lia|unfold n, oldest in *; lia|]. cbn [mbind outcome_bind]. unfold g. by rewrite Hx. }
  assert (∃ i, Search n (λ i, event ← event_at e (oldest e + i); Ok (newer event)) = Ok i ∧ 0 ≤ i ≤ n)
    as (i & Hs & Hi) by (by apply Search_range with g).
  exists i. split_and!; [done|lia|lia|]. intros Hmono p x Hp Hx.
  destruct (search_loop_spec (Z.to_nat n) (λ i, event ← event_at e (oldest e + i); Ok (newer event)) g 0 n 0 n)
    as (r & Hr & Hr0 & Hlow & Hhigh); try done; try lia.
  { intros h k Hh Hk. unfold g. destruct (log !! Z.to_nat (oldest e + h)) as [y|] eqn:Hy; [|done].
    destruct (zlen_lookup log (oldest e + k)) as [z Hz]; [unfold n, oldest in *; lia|]. rewrite Hz.
    apply (Hmono (oldest e + h) (oldest e + k) y z); [lia|done|done]. }
  unfold Search in Hs. rewrite Hs in Hr. injection Hr as <-.
  assert (p < zlen log) as Hlt by (apply lookup_lt_Some in Hx; unfold zlen; lia).
  assert (g (p - oldest e) = newer x) as Hgp
    by (unfold g; replace (oldest e + (p - oldest e)) with p by lia; by rewrite Hx).
  split.
  - intros Hnew. destruct (Z.le_gt_cases (oldest e + i) p); [done|].
    rewrite <- Hgp, Hlow in Hnew by lia. done.
  - intros Hle. rewrite <- Hgp. apply Hhigh. unfold n. lia.
Qed.

(** What [WithTailDuration] promises of events in the order of their times: nothing from before
    the timestamp is sent, and everything kept from after it; an event exactly at the timestamp,
    which its comment includes, may be left out ([boundary_left_out] below). *)
Definition tail_since (e : Events) (log : list Event) (timestamp : Z) (start : Z) : Prop :=
  (∀ p q x y, oldest e ≤ p ≤ q → log !! Z.to_nat p = Some x → log !! Z.to_nat q = Some y →
     id_time x.(EventId) ≤ id_time y.(EventId)) →
  ∀ p x, oldest e ≤ p → log !! Z.to_nat p = Some x →
    (start ≤ p → timestamp ≤ id_time x.(EventId)) ∧ (timestamp < id_time x.(EventId) → start ≤ p).

Lemma tail_border_since e log timestamp start :
  tail_border e log (λ x, id_after x.(EventId) timestamp) start → tail_since e log timestamp start.
Proof.
  unfold tail_border, id_after. intros Hb Hsorted p x Hp Hx.
  assert (Hiff : (timestamp <? id_time x.(EventId)) = true ↔ start ≤ p).
  { apply Hb; [|done..]. intros i j a b Hi Ha Hj. rewrite !Z.ltb_lt. pose proof (Hsorted i j a b Hi Ha Hj). lia. }
  rewrite Z.ltb_lt in Hiff. split; [|by apply Hiff]. intros Hle%Hiff. lia.
Qed.

(** The position a watch starts at, by its options. *)
Record start_ok (e : Events) (log : list Event) (opts : WatchOptions) (now start : Z) : Prop := {
  start_range : oldest e ≤ start ≤ zlen log;
  start_all : opts.(TailEvents) < 0 → start = oldest e;
  start_some : 0 < opts.(TailEvents) → start = Z.max (zlen log - opts.(TailEvents)) (oldest e);
  start_id : opts.(TailEvents) = 0 → opts.(TailID) ≠ nil_id →
    tail_border e log (λ x, id_gt x.(EventId) opts.(TailID)) start;
  start_duration : opts.(TailEvents) = 0 → opts.(TailID) = nil_id → opts.(TailDuration) ≠ 0 →
    tail_since e log (now - opts.(TailDuration)) start;
  start_next : opts.(TailEvents) = 0 → opts.(TailID) = nil_id → opts.(TailDuration) = 0 → start = zlen log
}.

Lemma watch_start_ok e log opts now :
  stream_ok e log → ∃ start, watch_start e opts now = Ok start ∧ start_ok e log opts now start.
Proof.
  intros Hok. pose proof Hok as [Hlen Hcap Hgap Hpos Hlog]. pose proof (zlen_nonneg log) as Hn0.
  unfold watch_start. fold (oldest e).
  assert (oldest e ≤ zlen log) as Hold by (unfold oldest; lia).
  destruct (Z.eqb_spec opts.(TailEvents) 0) as [Ht|Ht]; cbn [negb].
  - case_bool_decide as Hid; cbn [negb].
    + destruct (Z.eqb_spec opts.(TailDuration) 0) as [Hd|Hd]; cbn [negb].
      * rewrite Hpos. eexists. split; [done|]. split; try done; lia.
      * destruct (Search_events e log (λ x, id_after x.(EventId) (now - opts.(TailDuration))) Hok)
          as (i & -> & Hi & Hb%tail_border_since). cbn [mbind outcome_bind].
        eexists. split; [done|]. split; try done; lia.
    + destruct (Search_events e log (λ x, id_gt x.(EventId) opts.(TailID)) Hok) as (i & -> & Hi & Hb).
      cbn [mbind outcome_bind]. eexists. split; [done|]. split; try done; lia.
  - destruct (Z.ltb_spec opts.(TailEvents) 0); eexists; (split; [done|]); split; try done; lia.
Qed.

(** ** What a consumer sends *)

(** The filter on the actor. *)
Definition keep (opts : WatchOptions) (x : Event) : Prop :=
  opts.(OptActorID) = ""%string ∨ x.(ActorID) = opts.(OptActorID).
#[local] Instance keep_dec opts x : Decision (keep opts x).
Proof. unfold keep. apply _. Defined.

(** The events at the positions [i], ..., [j - 1]. *)
Definition between (log : list Event) (i j : Z) : list Event := ztake (j - i) (zdrop i log).

Definition published (l : list activity) : list Event :=
  omap (λ a, match a with Published x => Some x | _ => None end) l.

Record consumer_ok (opts : WatchOptions) (start : Z) (log : list Event) (e : Events) (aborted : Prop) (c : Consumer)
    : Prop := {
  con_range : start ≤ c.(pos) ≤ zlen log;
  con_sent : map info_event c.(sent) = filter (keep opts) (between log start c.(pos));
  con_closed : c.(closed) = true → aborted ∨ e.(cap) ≤ zlen log - c.(pos)
}.

Lemma between_snoc log i j x :
  0 ≤ i ≤ j → log !! Z.to_nat j = Some x → between log i (j + 1) = between log i j ++ [x].
Proof.
  intros Hij Hx. unfold between, ztake, zdrop.
  replace (Z.to_nat (j + 1 - i)) with (S (Z.to_nat (j - i))) by lia.
  apply take_S_r. rewrite lookup_drop. rewrite <- Hx. f_equal. lia.
Qed.

Lemma between_app log l i j : 0 ≤ i ≤ j → j ≤ zlen log → between (log ++ l) i j = between log i j.
Proof.
  intros Hij Hj. unfold between, ztake, zdrop, zlen in *.
  rewrite drop_app_le by lia. rewrite take_app_le; [done|]. rewrite length_drop. lia.
Qed.

Lemma consumer_ok_publish opts start log l e e' aborted c :
  0 ≤ start → e'.(cap) = e.(cap) → consumer_ok opts start log e aborted c →
  consumer_ok opts start (log ++ l) e' aborted c.
Proof.
  intros Hs Hcap [Hr Hsent Hcl]. pose proof (zlen_nonneg l). split.
  - autorewrite with zlen. lia.
  - by rewrite between_app by lia.
  - intros Hc. destruct (Hcl Hc); [by left|right]. rewrite Hcap. autorewrite with zlen. lia.
Qed.

(** One turn of the consumer. *)
Lemma consumer_turn_ok opts start log e aborted c :
  0 ≤ start → stream_ok e log → consumer_ok opts start log e aborted c →
  ∃ c', consumer_turn e opts c = Ok c' ∧ consumer_ok opts start log e aborted c' ∧
    (c.(closed) = false → c.(pos) < zlen log → zlen log - c.(pos) < e.(cap) →
     c'.(closed) = false ∧ c'.(pos) = c.(pos) + 1).
Proof.
  intros Hs Hok Hc. pose proof Hok as [Hlen Hcap Hgap Hpos Hlog]. pose proof Hc as [Hr Hsent Hcl].
  unfold consumer_turn. destruct (closed c) eqn:Hclosed; [by exists c|].
  rewrite Hpos. destruct (Z.eqb_spec c.(pos) (zlen log)); [exists c; split; [done|]; split; [done|lia]|].
  rewrite Z.geb_leb. destruct (Z.leb_spec e.(cap) (zlen log - c.(pos))) as [Hover|Hwithin].
  { eexists. split; [done|]. split; [|lia]. split; simpl; [done|done|by right]. }
  destruct (event_at_ok e log c.(pos) Hok) as (x & -> & Hx); [lia|lia|]. cbn [mbind outcome_bind].
  assert (between log start (c.(pos) + 1) = between log start c.(pos) ++ [x]) as Hsnoc
    by (apply between_snoc; [lia|done]).
  destruct (negb _ && negb _) eqn:Hskip.
  - apply andb_true_iff in Hskip as [Ha Hb]. eexists. split; [done|]. split; [|done].
    split; simpl; [lia| |done]. rewrite Hsnoc, filter_app, Hsent, filter_cons_False, app_nil_r; [done|].
    intros [Heq|Heq]; [rewrite Heq in Ha|rewrite Heq in Hb]; by rewrite String.eqb_refl in *.
  - eexists. split; [done|]. split; [|done]. split; simpl; [lia| |done].
    rewrite map_app, Hsnoc, filter_app, Hsent, filter_cons_True; [done|].
    apply andb_false_iff in Hskip as [Ha|Ha]; apply negb_false_iff, String.eqb_eq in Ha; [by left|by right].
Qed.

Lemma acts_ok opts start l log e c aborted :
  0 ≤ start → stream_ok e log → consumer_ok opts start log e aborted c →
  ∃ e' c', acts opts l (e, c) = Ok (e', c') ∧ stream_ok e' (log ++ published l) ∧
    e'.(cap) = e.(cap) ∧ e'.(gap) = e.(gap) ∧
    consumer_ok opts start (log ++ published l) e' (aborted ∨ Done ∈ l) c'.
Proof.
  intros Hs. revert log e c aborted. induction l as [|a l IH]; intros log e c aborted Hok Hc; cbn [acts].
  - exists e, c. cbn. rewrite app_nil_r. split_and!; try done. destruct Hc. split; try done.
    intros Hcl. destruct (con_closed0 Hcl); auto.
  - assert (∃ e1 c1, act opts a (e, c) = Ok (e1, c1) ∧
      let log1 := log ++ published [a] in
      stream_ok e1 log1 ∧ e1.(cap) = e.(cap) ∧ e1.(gap) = e.(gap) ∧
      consumer_ok opts start log1 e1 (aborted ∨ a = Done) c1) as (e1 & c1 & -> & Hok1 & Hcap & Hgap & Hc1).
    { destruct a as [x| |]; cbn [act].
      - destruct (Publish_ok e log x Hok) as (e1 & -> & Hok1 & Hcap & Hgap). cbn [mbind outcome_bind].
        eexists _, _. split; [done|]. cbn. split_and!; try done.
        destruct (consumer_ok_publish opts start log [x] e e1 aborted c Hs Hcap Hc). split; try done.
        intros Hcl. destruct (con_closed0 Hcl); auto.
      - destruct (consumer_turn_ok opts start log e aborted c Hs Hok Hc) as (c1 & -> & Hc1 & _).
        cbn [mbind outcome_bind]. eexists _, _. split; [done|]. cbn. rewrite app_nil_r. split_and!; try done.
        destruct Hc1. split; try done. intros Hcl. destruct (con_closed0 Hcl); auto.
      - eexists _, _. split; [done|]. cbn. rewrite app_nil_r. split_and!; try done.
        destruct Hc. split; simpl; auto. }
    cbn [mbind outcome_bind]. destruct (IH _ e1 c1 _ Hok1 Hc1) as (e2 & c2 & -> & Hok2 & Hcap2 & Hgap2 & Hc2).
    exists e2, c2. assert (log ++ published (a :: l) = (log ++ published [a]) ++ published l) as ->
      by (rewrite <- app_assoc; f_equal; cbn; by destruct a).
    split_and!; try done; try congruence. destruct Hc2. split; try done.
    intros Hcl. destruct (con_closed0 Hcl) as [[[?|<-]|?]|?]; [auto|left; right; left|left; right; by right|auto].
Qed.

(** C33: What a watcher gets. Whatever was published before, however publishers and the
    watcher interleave afterwards, and whatever the options are that do not conflict:
    nothing panics; the watch starts at the position its options ask for, never before the
    oldest event that is kept with the safety gap; and the events it is sent are exactly the
    published ones from there to its own position, without a loss, a repetition or a torn
    read, in order, less those of other actors. The positions are: the last n events; the
    first kept event whose id is behind the given one; for a duration, no kept event before
    the timestamp and all kept events after it (one exactly at the timestamp, which the
    comment of the option includes, may be left out); by default the next event to be
    published. Its channel is closed only if its function has returned, or if it is a full
    ring behind; otherwise a turn with something to read moves it one event on. *)
Theorem watch_delivers capacity g history opt opts now l :
  0 ≤ g < capacity → apply_options opt zero_options = inr opts →
  ∃ e0 e e' c start,
    NewEvents capacity g = Ok e0 ∧ publish_all e0 history = Ok e ∧
    Watch e opt now l = Ok (inr (e', c)) ∧
    start_ok e history opts now start ∧
    let log := history ++ published l in
    start ≤ c.(pos) ≤ zlen log ∧
    map info_event c.(sent) = filter (keep opts) (between log start c.(pos)) ∧
    (c.(closed) = true → Done ∈ l ∨ capacity ≤ zlen log - c.(pos)) ∧
    (c.(closed) = false → c.(pos) < zlen log → zlen log - c.(pos) < capacity →
     ∃ c', acts opts [Turn] (e', c) = Ok (e', c') ∧ c'.(closed) = false ∧ c'.(pos) = c.(pos) + 1).
Proof.
  intros Hg Hopt. destruct (NewEvents_ok capacity g Hg) as (e0 & He0 & Hok0 & Hcap0 & Hgap0).
  destruct (publish_all_ok e0 [] history Hok0) as (e & He & Hok & Hcap & Hgap). rewrite app_nil_l in Hok.
  destruct (watch_start_ok e history opts now Hok) as (start & Hstart & Hstartok).
  assert (0 ≤ start) as Hs by (destruct Hstartok; unfold oldest in *; lia).
  set (c0 := {| pos := start; sent := []; closed := false |}).
  assert (consumer_ok opts start history e False c0) as Hc0.
  { destruct Hstartok. split; simpl; [lia| |done]. unfold between. by rewrite Z.sub_diag. }
  destruct (acts_ok opts start l history e c0 False Hs Hok Hc0) as (e' & c & Hacts & Hok' & Hcap' & _ & Hc).
  exists e0, e, e', c, start. cbv zeta. split_and!; try done.
  - unfold Watch. rewrite Hopt, Hstart. cbn [mbind outcome_bind]. fold c0. by rewrite Hacts.
  - apply Hc.
  - apply Hc.
  - apply Hc.
  - intros Hcl. destruct (con_closed _ _ _ _ _ _ Hc Hcl) as [[[]|?]|?]; [by left|right; lia].
  - intros Hcl Hlt Hwithin.
    destruct (consumer_turn_ok opts start _ e' _ c Hs Hok' Hc) as (c' & Hturn & _ & Hnext).
    destruct (Hnext Hcl Hlt) as [? ?]; [lia|]. exists c'. split_and!; try done.
    cbn [acts act]. rewrite Hturn. done.
Qed.
End events.

(** *** A watcher that asks for the last two events of one actor *)

#[local] Instance number_id : EventID Z := {|
  nil_id := 0;
  id_gt := λ a b, b <? a;
  id_time := λ a, a
|}.

Definition number_event (n : Z) : Event (ID := Z) (message := ()) :=
  {| TypeURL := "chubo/runtime/machine.TaskEvent"; EventId := n; Payload := ();
     ActorID := if Z.odd n then "api" else "" |}.

Lemma watch_delivers_witness :
  let history := number_event <$> [1; 2; 3; 4; 5; 6] in
  let opts := {| TailEvents := 2; TailID := 0; TailDuration := 0; OptActorID := "" |} in
  let l := [Turn; Published (number_event 7); Turn; Turn] in
  ∃ e0 e e' c start,
    NewEvents () 4 1 = Ok e0 ∧ publish_all e0 history = Ok e ∧
    Watch e [WithTailEvents 2] 0 l = Ok (inr (e', c)) ∧
    start_ok e history opts 0 start ∧
    let log := history ++ published l in
    start ≤ c.(pos) ≤ zlen log ∧
    map info_event c.(sent) = filter (keep opts) (between log start c.(pos)) ∧
    (c.(closed) = true → Done ∈ l ∨ 4 ≤ zlen log - c.(pos)) ∧
    (c.(closed) = false → c.(pos) < zlen log → zlen log - c.(pos) < 4 →
     ∃ c', acts opts [Turn] (e', c) = Ok (e', c') ∧ c'.(closed) = false ∧ c'.(pos) = c.(pos) + 1).
Proof.
  intros history opts l. apply (watch_delivers () 4 1 history [WithTailEvents 2] opts 0 l).
  - lia.
  - reflexivity.
Defined.

(** A duration that reaches back exactly to an event does not reach it: of three events at the
    times 1, 2 and 3, the last second at 3 starts behind the event at 2. *)
Example boundary_left_out :
  match NewEvents () 4 1 with
  | Ok e0 =>
      match publish_all e0 (number_event <$> [1; 2; 3]) with
      | Ok e => watch_start e {| TailEvents := 0; TailID := 0; TailDuration := 1; OptActorID := "" |} 3
      | _ => Ok (-1)
      end
  | _ => Ok (-1)
  end = Ok 2.
Proof. by vm_compute. Qed.
