(* ===== verification/Errors.v ===== *)
(** * Error values

    Go error values as the block and encryption code builds and inspects them: sentinel
    values compared with [errors.Is], [fmt.Errorf] with its format and arguments kept
    apart, and the tag [xerrors.NewTaggedf] puts on an error.  The text of an error
    ([Error()]) is not computed; the format and the arguments determine it. *)

From S2P Require Import Prelude.

(** The arguments of a format: strings, lists of strings, integers, and errors, wrapped by
    [%w] or only printed. *)
Inductive arg (E : Type) :=
  | Str (s : string)
  | Strs (l : list string)
  | Int (n : Z)
  | Wrapped (e : E)
  | Printed (e : E).
Arguments Str {E} s.
Arguments Strs {E} l.
Arguments Int {E} n.
Arguments Wrapped {E} e.
Arguments Printed {E} e.

(** [Sentinel] is an [errors.New] that is compared by identity, [External] an error made by
    code outside the repository, [Retryable], [Continue] and [NotFoundTagged] the tagged
    errors of [xerrors.NewTaggedf] with the tag types [volumes.Retryable],
    [automaton.Continue] and [NotFoundTag] of bootloader/mount. *)
Inductive error :=
  | Sentinel (name : string)
  | External (text : string)
  | Errorf (format : string) (args : list (arg error))
  | Retryable (format : string) (args : list (arg error))
  | Continue (format : string) (args : list (arg error))
  | NotFoundTagged (format : string) (args : list (arg error)).

(** [errors.Is(err, target)] for a sentinel: unwraps [%w] arguments. *)
Fixpoint errors_Is (target : string) (e : error) : bool :=
  match e with
  | Sentinel name => String.eqb name target
  | External _ => false
  | Errorf _ args | Retryable _ args | Continue _ args | NotFoundTagged _ args =>
      existsb (λ a, match a with Wrapped e => errors_Is target e | _ => false end) args
  end.

(** [xerrors.TagIs[Retryable](err)]. *)
Fixpoint TagIs_Retryable (e : error) : bool :=
  match e with
  | Sentinel _ | External _ => false
  | Retryable _ _ => true
  | Errorf _ args | Continue _ args | NotFoundTagged _ args =>
      existsb (λ a, match a with Wrapped e => TagIs_Retryable e | _ => false end) args
  end.

(** [xerrors.TagIs[Continue](err)]. *)
Fixpoint TagIs_Continue (e : error) : bool :=
  match e with
  | Sentinel _ | External _ => false
  | Continue _ _ => true
  | Errorf _ args | Retryable _ args | NotFoundTagged _ args =>
      existsb (λ a, match a with Wrapped e => TagIs_Continue e | _ => false end) args
  end.

(** [xerrors.TagIs[NotFoundTag](err)]. *)
Fixpoint TagIs_NotFound (e : error) : bool :=
  match e with
  | Sentinel _ | External _ => false
  | NotFoundTagged _ _ => true
  | Errorf _ args | Retryable _ args | Continue _ args =>
      existsb (λ a, match a with Wrapped e => TagIs_NotFound e | _ => false end) args
  end.

(** [errors.Join]: the texts on lines of their own. *)
Definition errors_Join (l : list (option error)) : option error :=
  match omap id l with [] => None | es => Some (Errorf "%w\n..." (Wrapped <$> es)) end.

(** [if err != nil { return f(err) }] around a call. *)
Definition map_err {S E E' A} (f : E → E') (c : prog S E A) : prog S E' A := λ s,
  match c s with
  | Ok (s, inl e) => Ok (s, inl (f e))
  | Ok (s, inr a) => Ok (s, inr a)
  | Err e => match e with end
  | Panic r => Panic r
  end.

(** [if err != nil { return fmt.Errorf(format, err) }]. *)
Definition wrapf {S A} (format : string) (c : prog S error A) : prog S error A :=
  map_err (λ e, Errorf format [Wrapped e]) c.
(** [fmt.Errorf(format, id, err)]. *)
Definition wrap_id {S A} (format id : string) (c : prog S error A) : prog S error A :=
  map_err (λ e, Errorf format [Str id; Wrapped e]) c.
Definition retryf {S A} (format : string) (c : prog S error A) : prog S error A :=
  map_err (λ e, Retryable format [Wrapped e]) c.

(** The result of a call the caller inspects instead of returning its error. *)
Definition try {S E A} (c : prog S E A) : prog S E (E + A) := λ s,
  match c s with
  | Ok (s, r) => Ok (s, inr r)
  | Err e => match e with end
  | Panic r => Panic r
  end.

Definition of_result {S E A} (r : E + A) : prog S E A :=
  match r with inl e => throw e | inr a => mret a end.

(** Work on a part of the state. *)
Definition zoom {S T E A} (get_ : S → T) (put : T → S → S) (c : prog T E A) : prog S E A := λ s,
  match c (get_ s) with
  | Ok (t, r) => Ok (put t s, r)
  | Err e => match e with end
  | Panic r => Panic r
  end.

(** ** Symbolic execution of these combinators *)

Lemma returns_map_err {S E E' A} (f : E → E') (c : prog S E A) s (Q : S → E' + A → Prop) :
  returns c s (λ s' r, Q s' (match r with inl e => inl (f e) | inr a => inr a end)) →
  returns (map_err f c) s Q.
Proof.
  intros (s' & [e|a] & Hc & HQ); unfold returns, map_err; rewrite Hc; by eexists _, _.
Qed.

Lemma returns_try {S E A} (c : prog S E A) s (Q : S → E + (E + A) → Prop) :
  returns c s (λ s' r, Q s' (inr r)) → returns (try c) s Q.
Proof. intros (s' & r & Hc & HQ). unfold returns, try. rewrite Hc. by eexists _, _. Qed.

Lemma returns_of_result {S E A} (r : E + A) (s : S) (Q : S → E + A → Prop) :
  Q s r → returns (of_result r) s Q.
Proof. intros HQ. destruct r; [by apply returns_throw|by apply returns_ret]. Qed.

Lemma returns_zoom {S T E A} (get_ : S → T) (put : T → S → S) (c : prog T E A) s (Q : S → E + A → Prop) :
  returns c (get_ s) (λ t r, Q (put t s) r) → returns (zoom get_ put c) s Q.
Proof. intros (t & r & Hc & HQ). unfold returns, zoom. rewrite Hc. by eexists _, _. Qed.

(** *** Partial correctness

    [ensures c s Q]: if [c] returns from [s] (it may panic), the result satisfies [Q]. *)

Definition ensures {S E A} (c : prog S E A) (s : S) (Q : S → E + A → Prop) : Prop :=
  ∀ s' r, c s = Ok (s', r) → Q s' r.

Lemma returns_ensures {S E A} (c : prog S E A) (s : S) (Q : S → E + A → Prop) : returns c s Q → ensures c s Q.
Proof. intros HQ s' r Hr. exact (returns_det _ _ _ _ _ HQ Hr). Qed.

Section ensures_rules.
Context {S E : Type}.

Lemma ensures_ret {A} (a : A) (s : S) (Q : S → E + A → Prop) : Q s (inr a) → ensures (mret a) s Q.
Proof. by intros HQ s' r [= <- <-]. Qed.
Lemma ensures_throw {A} (e : E) (s : S) (Q : S → E + A → Prop) : Q s (inl e) → ensures (throw e) s Q.
Proof. by intros HQ s' r [= <- <-]. Qed.
Lemma ensures_get (s : S) (Q : S → E + S → Prop) : Q s (inr s) → ensures get s Q.
Proof. by intros HQ s' r [= <- <-]. Qed.
Lemma ensures_modify f (s : S) (Q : S → E + () → Prop) : Q (f s) (inr ()) → ensures (modify f) s Q.
Proof. by intros HQ s' r [= <- <-]. Qed.
Lemma ensures_lift {A} c (s : S) (Q : S → E + A → Prop) :
  (∀ a, c = Ok a → Q s (inr a)) → ensures (lift c) s Q.
Proof. intros HQ s' r. unfold lift. destruct c as [a|[]|]; [|done]. intros [= <- <-]. by apply HQ. Qed.
Lemma ensures_of_result {A} (r : E + A) (s : S) (Q : S → E + A → Prop) :
  Q s r → ensures (of_result r) s Q.
Proof. intros HQ. destruct r; [by apply ensures_throw|by apply ensures_ret]. Qed.

Lemma ensures_bind {A B} (c : prog S E A) (f : A → prog S E B) s Q :
  ensures c s (λ s' r, match r with inr a => ensures (f a) s' Q | inl e => Q s' (inl e) end) →
  ensures (c ≫= f) s Q.
Proof.
  intros Hc s' r. unfold mbind, prog_bind.
  destruct (c s) as [[s1 [e|a]]|[]|] eqn:E1; [| |done]; pose proof (Hc _ _ E1) as H1; simpl in H1.
  - by intros [= <- <-].
  - apply H1.
Qed.

Lemma ensures_defer {A} (d : prog S E ()) (c : prog S E A) s Q :
  ensures c s (λ s' r, ensures d s' (λ s'' _, Q s'' r)) → ensures (with_defer d c) s Q.
Proof.
  intros Hc s' r. unfold with_defer. destruct (c s) as [[s1 r1]|[]|] eqn:E1; [|done].
  pose proof (Hc _ _ E1) as H1. destruct (d s1) as [[s2 r2]|[]|] eqn:E2; [|done].
  intros [= <- <-]. by apply (H1 _ _ E2).
Qed.

Lemma ensures_map_err {E' A} (f : E → E') (c : prog S E A) s (Q : S → E' + A → Prop) :
  ensures c s (λ s' r, Q s' (match r with inl e => inl (f e) | inr a => inr a end)) →
  ensures (map_err f c) s Q.
Proof.
  intros Hc s' r. unfold map_err. destruct (c s) as [[s1 [e|a]]|[]|] eqn:E1; [| |done];
    intros [= <- <-]; apply (Hc _ _ E1).
Qed.

Lemma ensures_try {A} (c : prog S E A) s (Q : S → E + (E + A) → Prop) :
  ensures c s (λ s' r, Q s' (inr r)) → ensures (try c) s Q.
Proof.
  intros Hc s' r. unfold try. destruct (c s) as [[s1 r1]|[]|] eqn:E1; [|done].
  intros [= <- <-]. apply (Hc _ _ E1).
Qed.

Lemma ensures_zoom {T A} (get_ : S → T) (put : T → S → S) (c : prog T E A) s (Q : S → E + A → Prop) :
  ensures c (get_ s) (λ t r, Q (put t s) r) → ensures (zoom get_ put c) s Q.
Proof.
  intros Hc s' r. unfold zoom. destruct (c (get_ s)) as [[t r1]|[]|] eqn:E1; [|done].
  intros [= <- <-]. apply (Hc _ _ E1).
Qed.

Lemma ensures_mono {A} (c : prog S E A) s (Q Q' : S → E + A → Prop) :
  (∀ s' r, Q s' r → Q' s' r) → ensures c s Q → ensures c s Q'.
Proof. intros HQ Hc s' r Hr. by apply HQ, Hc. Qed.

Lemma ensures_and {A} (c : prog S E A) s (Q Q' : S → E + A → Prop) :
  ensures c s Q → ensures c s Q' → ensures c s (λ s' r, Q s' r ∧ Q' s' r).
Proof. intros H1 H2 s' r Hr. split; [by apply H1|by apply H2]. Qed.

(** What holds of every error and of the end holds of a loop whose body keeps [P]. *)
Lemma ensures_for_each {A} (f : A → prog S E ()) (P : S → Prop) (R : S → E → Prop) l s :
  (∀ x s, x ∈ l → P s → ensures (f x) s (λ s' r, match r with inr _ => P s' | inl e => R s' e end)) →
  P s →
  ensures (for_each f l) s (λ s' r, match r with inr _ => P s' | inl e => R s' e end).
Proof.
  intros Hstep. revert s. induction l as [|x l IH]; intros s HP; cbn [for_each];
    [by apply ensures_ret|].
  apply ensures_bind. eapply ensures_mono; [|apply Hstep; [left|done]].
  intros s' [e|[]]; [done|]. apply IH. intros y s1 Hy. apply Hstep. by right.
Qed.
End ensures_rules.

(** [yields V c]: a value that [c] returns satisfies [V]. *)
Definition yields {S E A} (V : A → Prop) (c : prog S E A) : Prop :=
  ∀ s, ensures c s (λ _ r, match r with inr a => V a | inl _ => True end).

Section yields_rules.
Context {S E : Type}.
Lemma yields_bind {A B} (V : A → Prop) (V' : B → Prop) (c : prog S E A) (f : A → prog S E B) :
  yields V c → (∀ a, V a → yields V' (f a)) → yields V' (c ≫= f).
Proof.
  intros Hc Hf s. apply ensures_bind. eapply ensures_mono; [|apply Hc].
  intros s' [e|a] HV; [done|]. by apply Hf.
Qed.
Lemma yields_any {A} (c : prog S E A) : yields (λ _, True) c.
Proof. intros s s' [e|a] _; done. Qed.
(** What the first call returns does not matter. *)
Lemma yields_then {A B} (V : B → Prop) (c : prog S E A) (f : A → prog S E B) :
  (∀ a, yields V (f a)) → yields V (c ≫= f).
Proof. intros Hf. eapply yields_bind; [apply yields_any|auto]. Qed.
Lemma yields_ret {A} (V : A → Prop) (a : A) : V a → yields V (mret a : prog S E A).
Proof. intros HV s. by apply ensures_ret. Qed.
Lemma yields_throw {A} (V : A → Prop) (e : E) : yields V (throw e : prog S E A).
Proof. intros s. by apply ensures_throw. Qed.
Lemma yields_of_result {A} (r : E + A) : yields (λ a, r = inr a) (of_result r : prog S E A).
Proof. intros s. apply ensures_of_result. by destruct r. Qed.
Lemma yields_defer {A} (V : A → Prop) (d : prog S E ()) (c : prog S E A) :
  yields V c → yields V (with_defer d c).
Proof.
  intros Hc s. apply ensures_defer. eapply ensures_mono; [|apply Hc]. intros s' r HV s'' r' _. done.
Qed.
Lemma yields_map_err {E' A} (V : A → Prop) (f : E → E') (c : prog S E A) :
  yields V c → yields V (map_err f c).
Proof. intros Hc s. apply ensures_map_err. eapply ensures_mono; [|apply Hc]. by intros s' []. Qed.
End yields_rules.

(** One step of symbolic execution of an [ensures] goal. *)
Ltac ensures_step :=
  cbv beta iota zeta;
  lazymatch goal with
  | |- ensures (mbind _ _) _ _ => apply ensures_bind
  | |- ensures (mret _) _ _ => apply ensures_ret
  | |- ensures (throw _) _ _ => apply ensures_throw
  | |- ensures get _ _ => apply ensures_get
  | |- ensures (modify _) _ _ => apply ensures_modify
  | |- ensures (with_defer _ _) _ _ => apply ensures_defer
  | |- ensures (wrapf _ _) _ _ => apply ensures_map_err
  | |- ensures (retryf _ _) _ _ => apply ensures_map_err
  | |- ensures (map_err _ _) _ _ => apply ensures_map_err
  | |- ensures (try _) _ _ => apply ensures_try
  | |- ensures (of_result _) _ _ => apply ensures_of_result
  | |- ensures (check ?e) _ _ => unfold check
  end; cbv beta iota zeta.
Ltac ensures_steps := repeat (progress ensures_step).
