(* ===== verification/MetaUse.v ===== *)
(** * META as its users see it

    What [New], [SetTag], [DeleteTag] and [Flush] of Meta.v do to the values in memory and on
    the device, whatever the resource state answers: every call returns, and the steps of
    revert.go, of the installer and of the controller that drops the fallback are put
    together from this. *)

From S2P Require Import Prelude Bytes MetaAdv SyslinuxAdv Meta Errors.

Section use.
Context {S W IOErr : Type} {SO : MetaStore S} {SL : MetaStoreLaws S} {FO : FileSystem W IOErr} {FL : FileSystemLaws W IOErr}.
Context (sha256 : list Z → list Z) (order : Chubo.Tags → list (Z * list Z)).
Context (sha256_size : ∀ b, zlen (sha256 b) = 32).
Context (order_perm : ∀ tags, order tags ≡ₚ map_to_list tags).
Notation meta := (Meta Chubo.Tags (list Z) S W).
Notation M := (prog meta (meta_error IOErr)).
Implicit Types m : meta.

(** The partition is at the path [p], wherever the resource state is asked. *)
Context (p : string) (path_set : p ≠ ""%string).
Context (located : ∀ (s : S) vs,
  WaitForVolumePhase s MetaPartitionLabel [VolumePhaseReady; VolumePhaseMissing; VolumePhaseClosed] = inr vs →
  vs.(MountLocation) = p).
Definition at_path (m : meta) : Prop := m.(fixedPath) = p ∨ m.(fixedPath) = ""%string.

(** Only the resources differ. *)
Definition same_values (m m' : meta) : Prop :=
  m'.(advState) = m.(advState) ∧ m'.(legacy) = m.(legacy) ∧ m'.(disk) = m.(disk) ∧ m'.(fixedPath) = m.(fixedPath).
#[export] Instance same_values_preorder : PreOrder same_values.
Proof. split; [done|]. intros m1 m2 m3 (?&?&?&?) (?&?&?&?). repeat split; congruence. Qed.

Lemma store_op_spec m (f : S → S * option store_error) : is_Some m.(resourceState) →
  returns (store_op (IOErr:=IOErr) f) m (λ m' r, same_values m m' ∧ is_Some m'.(resourceState) ∧ ∃ e, r = inr e).
Proof.
  intros [s Hs]. exists (with_store (f s).1 m), (inr (f s).2). split; [by apply store_op_Ok|].
  split; [done|]. split; [by eexists|by eexists].
Qed.

Lemma getPath_spec m : at_path m →
  returns (getPath (IOErr:=IOErr)) m (λ m' r, same_values m m' ∧ ∀ q, r = inr q → q.1 = p).
Proof.
  intros Hat. unfold getPath. apply returns_bind, returns_get. case_bool_decide as Hf; cbn [negb].
  2: { apply returns_ret. split; [done|]. intros q [= <-]. by destruct Hat. }
  destruct (resourceState m) as [s|] eqn:Hs; [|by apply returns_throw].
  destruct (WaitForVolumePhase s _ _) as [e|vs] eqn:Hw; [by apply returns_throw|]. apply returns_bind.
  eapply returns_mono; [|by apply store_op_spec; eexists]. intros m1 r (H1 & _ & [err ->]). apply returns_bind.
  destruct err as [e|]; [by apply returns_throw|]. apply returns_ret.
  repeat case_bool_decide; try by apply returns_throw. apply returns_ret. split; [done|]. intros q [= <-].
  by eapply located.
Qed.

Lemma check_spec m (e : option (meta_error IOErr)) : returns (check e) m (λ m' _, m' = m).
Proof. destruct e; [by apply returns_throw|by apply returns_ret]. Qed.
Lemma open_locked_spec m path parent :
  returns (open_locked (IOErr:=IOErr) path parent) m (λ m' _, m' = m).
Proof.
  unfold open_locked. apply returns_bind, returns_get, returns_bind.
  eapply (returns_mono _ _ (λ m' _, m' = m)).
  2: { case_bool_decide; [by apply returns_ret|]. apply returns_bind. eapply returns_mono; [|apply check_spec].
       intros m1 [e|[]] ->; [done|apply check_spec]. }
  intros m1 [e|[]] ->; [done|]. apply returns_bind. eapply returns_mono; [|apply check_spec].
  intros m1 [e|[]] ->; [done|apply check_spec].
Qed.

(** ** Loading *)

Lemma Reload_spec m tags leg : at_path m → m.(advState) = ∅ → loaded sha256 p m.(disk) tags leg →
  returns (Reload sha256) m (λ m' (r : meta_error IOErr + ()), m'.(disk) = m.(disk) ∧ m'.(fixedPath) = m.(fixedPath) ∧
    (r = inr () → m'.(advState) = tags ∧ m'.(legacy) = leg)).
Proof.
  intros Hat Hempty ([err Hadv] & Hlen & Hleg). unfold Reload. apply returns_bind.
  eapply returns_mono; [|by apply getPath_spec]. intros m1 r [(Ha1 & _ & Hd1 & Hf1) Hp]. destruct r as [e|[path parent]]; [done|].
  specialize (Hp _ eq_refl). cbn in Hp. subst path. apply returns_bind.
  eapply returns_mono; [|apply open_locked_spec]. intros m2 [e|[]] ->; [done|]. apply returns_bind, returns_get. cbv zeta.
  rewrite Hd1. apply returns_bind. exists m1, (inr tags). split; [unfold load_chubo; by rewrite Hadv|].
  apply returns_bind. exists m1, (inr leg). split.
  { unfold load_syslinux, Syslinux.NewADV. by rewrite (proj2 (Z.ltb_ge _ _)), Hleg by lia. }
  apply returns_bind. exists m1, (inr []). split; [unfold lift; cbn; by rewrite Ha1, Hempty|].
  apply returns_bind. exists m1, (inr tags). split; [done|].
  apply returns_bind, returns_modify, returns_bind, returns_modify.
  destruct (syncState_total (IOErr:=IOErr) (with_legacy leg (with_adv tags m1))) as (m' & r & Hs & Ha & Hl & _ & Hd & Hf).
  exists m', r. split; [done|]. rewrite Hd, Hf, Ha, Hl. cbn. by rewrite Hd1, Hf1.
Qed.

Lemma New_spec st path w tags leg : path = p ∨ path = ""%string → loaded sha256 p w tags leg →
  ∃ m (r : meta_error IOErr + ()), New (S:=S) sha256 st path w = Ok (m, r) ∧ m.(disk) = w ∧ m.(fixedPath) = path ∧
    (r = inr () → m.(advState) = tags ∧ m.(legacy) = leg).
Proof.
  intros Hpath Hl. unfold New, Syslinux.NewADV at 1, Chubo.NewADV at 1. set (m0 := {| legacy := _ |}).
  destruct (Reload_spec m0 tags leg Hpath eq_refl Hl) as (m & r & Hr & HQ). by exists m, r.
Qed.

(** ** Changes in memory *)

Lemma updateTagResource_same m t v :
  returns (updateTagResource (IOErr:=IOErr) t v) m (λ m' _, same_values m m').
Proof.
  unfold updateTagResource. apply returns_bind, returns_get. destruct (resourceState m) as [s|] eqn:Hs; [|by apply returns_ret].
  apply returns_bind. eapply returns_mono; [|by apply store_op_spec; eexists]. intros m1 r (H1 & Hs1 & [err ->]).
  destruct err as [[|c]|]; [|by apply returns_throw|by apply returns_ret].
  apply returns_bind. eapply returns_mono; [|by apply store_op_spec]. intros m2 r (H2 & _ & [err ->]).
  eapply returns_mono; [|apply check_spec]. intros m3 r ->. by etransitivity.
Qed.

(** A tag is set in memory, where it fits. *)
Lemma SetTag_spec m t v : Chubo.fits m.(advState) →
  returns (SetTag (IOErr:=IOErr) t v) m (λ m' r, m'.(disk) = m.(disk) ∧ m'.(fixedPath) = m.(fixedPath) ∧
    m'.(legacy) = m.(legacy) ∧ Chubo.fits m'.(advState) ∧ (r = inr true → m'.(advState) = <[t := v]> m.(advState))).
Proof.
  intros Hfit. unfold SetTag, SetTagBytes. apply returns_bind, returns_get, returns_bind.
  destruct (Chubo.SetTagBytes (advState m) t v) as [ok a] eqn:Hset.
  pose proof (Chubo.SetTagBytes_fits_aux _ _ _ _ _ Hset Hfit) as Hfit'. exists m, (inr (ok, a)).
  split; [unfold lift; cbn; by rewrite Hset|]. apply returns_bind, returns_modify. destruct ok.
  2: { apply returns_ret. by split. }
  apply returns_bind. eapply returns_mono; [|apply updateTagResource_same]. intros m1 r (Ha & Hl & Hd & Hf). cbn in *.
  assert (a = <[t := v]> (advState m)) as Hins.
  { unfold Chubo.SetTagBytes in Hset. by destruct (_ >? _); injection Hset. }
  destruct r as [e|[]]; [|apply returns_ret]; rewrite Ha, Hl, Hd, Hf; by subst a.
Qed.

(** A tag of the extended format is deleted in memory. *)
Lemma DeleteTag_spec m t : is_Some (m.(advState) !! t) →
  returns (DeleteTag (IOErr:=IOErr) t) m (λ m' r, m'.(disk) = m.(disk) ∧ m'.(fixedPath) = m.(fixedPath) ∧
    m'.(legacy) = m.(legacy) ∧ m'.(advState) = delete t m.(advState) ∧ ∀ ok, r = inr ok → ok = true).
Proof.
  intros Hsome. unfold DeleteTag. apply returns_bind, returns_get, returns_bind.
  exists m, (inr (true, delete t (advState m))). split.
  { unfold lift. cbn. unfold Chubo.DeleteTag. by rewrite bool_decide_true. }
  apply returns_bind, returns_modify, returns_bind, returns_ret.
  destruct (resourceState m) as [s|] eqn:Hs.
  2: { apply returns_ret. cbn. split_and!; try done. by intros ok [= <-]. }
  apply returns_bind. eapply returns_mono; [|apply store_op_spec; cbn; rewrite Hs; by eexists].
  intros m1 r ((Ha & Hl & Hd & Hf) & _ & [err ->]). cbn in *.
  destruct err as [[|c]|]; first [apply returns_ret|apply returns_throw]; rewrite Ha, Hl, Hd, Hf;
    split_and!; try done; by intros ok [= <-].
Qed.

(** ** Saving *)

Lemma write_at_same path off d m :
  returns (write_at (IOErr:=IOErr) path off d) m (λ m' _, m'.(advState) = m.(advState) ∧ m'.(legacy) = m.(legacy) ∧ m'.(fixedPath) = m.(fixedPath)).
Proof.
  unfold write_at. apply returns_bind, returns_get. destruct (fs_write_at _ path off d) as [w [n err]].
  apply returns_bind, returns_modify, returns_bind. eapply returns_mono; [|apply check_spec].
  intros m1 [e|[]] ->; [done|]. destruct (n =? zlen d); [by apply returns_ret|by apply returns_throw].
Qed.

(** What a flush needs: the values fit, and the device has room for the two formats. *)
Record savable (m : meta) : Prop := {
  savable_path : at_path m;
  savable_tags t : is_Some (m.(advState) !! t) → 1 ≤ t < 256;
  savable_fits : Chubo.fits m.(advState);
  savable_legacy : zlen m.(legacy) = 2 * Syslinux.AdvSize;
  savable_room : Chubo.Size + 2 * Syslinux.AdvSize ≤ zlen (fs_content m.(disk) p)
}.

Lemma Flush_spec m : savable m →
  returns (Flush sha256 order) m (λ m' (r : meta_error IOErr + ()), m'.(advState) = m.(advState) ∧ m'.(legacy) = m.(legacy) ∧
    m'.(fixedPath) = m.(fixedPath) ∧
    (r = inr () → loaded sha256 p m'.(disk) m.(advState) m.(legacy) ∧
                  zlen (fs_content m'.(disk) p) = zlen (fs_content m.(disk) p))).
Proof.
  intros [Hat Htags Hfit Hleg Hroom].
  enough (returns (Flush sha256 order) m (λ m' (r : meta_error IOErr + ()), m'.(advState) = m.(advState) ∧ m'.(legacy) = m.(legacy) ∧
            m'.(fixedPath) = m.(fixedPath))) as (m' & r & Hrun & Ha & Hl & Hf).
  { exists m', r. split; [done|]. split_and!; try done. intros ->.
    destruct (getPath_spec m Hat) as (m0 & q & Hq & (Ha0 & Hl0 & Hd0 & _) & Hp). destruct q as [e|[path parent]].
    { unfold Flush in Hrun. apply prog_bind_inv in Hrun as (m1 & q & Hq' & _). rewrite Hq in Hq'. congruence. }
    specialize (Hp _ eq_refl). cbn in Hp. subst path. by eapply Flush_loaded. }
  unfold Flush. apply returns_bind. eapply returns_mono; [|by apply getPath_spec].
  intros m1 r [(Ha1 & Hl1 & Hd1 & Hf1) _]. destruct r as [e|[path parent]]; [done|]. apply returns_bind.
  eapply returns_mono; [|apply open_locked_spec]. intros m2 [e|[]] ->; [done|]. apply returns_bind, returns_get, returns_bind.
  assert (Chubo.entries_size (order m.(advState)) ≤ Chubo.DataLength) as Hsz
    by (unfold Chubo.fits in Hfit; rewrite (Chubo.tags_size_order m.(advState)); [lia|apply order_perm]).
  eexists m1, (inr _). split; [unfold serialize, Chubo.Bytes; rewrite Ha1; by rewrite Chubo.Marshal_block|].
  apply returns_bind. eapply returns_mono; [|apply write_at_same]. intros m2 r (Ha2 & Hl2 & Hf2).
  destruct r as [e|[]]; [by rewrite Ha2, Hl2, Hf2|]. apply returns_bind. eexists m2, (inr _). split; [done|].
  apply returns_bind, returns_get. cbv zeta. destruct (_ <? 0); [apply returns_throw; by rewrite Ha2, Hl2, Hf2|].
  apply returns_bind. eapply returns_mono; [|apply write_at_same]. intros m3 r (Ha3 & Hl3 & Hf3).
  assert (m3.(advState) = m.(advState) ∧ m3.(legacy) = m.(legacy) ∧ m3.(fixedPath) = m.(fixedPath)) as H3 by (split_and!; congruence).
  destruct r as [e|[]]; [done|]. apply returns_bind, returns_get. destruct (fs_sync _ path) as [w err].
  apply returns_bind, returns_modify. eapply returns_mono; [|apply check_spec]. by intros m4 r ->.
Qed.
End use.
