(* ===== verification/Block.v ===== *)
(** * Block resources

    [pkg/machinery/resources/block]: the enumerations of volumes with their text, the specs
    of volume configurations, volume statuses, disks and discovered volumes, and
    [PartitionSpec.ResolveMaxSize] and [VolumeStatusSpec.SetSize].
    [pkg/machinery/cel/cel.go]: CEL expressions, on top of the parser and the evaluator
    of cel-go, which are the interface [CelGo]. *)

From S2P Require Import Prelude Errors.
From coqutil Require Export Datatypes.RecordSetters.
Export TriangleBracketNotations.
#[global] Arguments RecordSetters.constant {E} newValue / _.

(** ** Enumerations *)

Inductive VolumePhase :=
  | VolumePhaseWaiting | VolumePhaseFailed | VolumePhaseMissing | VolumePhaseLocated
  | VolumePhaseProvisioned | VolumePhasePrepared | VolumePhaseReady | VolumePhaseClosed.
#[export] Instance VolumePhase_eq_dec : EqDecision VolumePhase.
Proof. solve_decision. Defined.

Inductive VolumeType :=
  | VolumeTypePartition | VolumeTypeDisk | VolumeTypeTmpfs | VolumeTypeDirectory
  | VolumeTypeSymlink | VolumeTypeOverlay | VolumeTypeExternal.
#[export] Instance VolumeType_eq_dec : EqDecision VolumeType.
Proof. solve_decision. Defined.

Inductive FilesystemType :=
  | FilesystemTypeNone | FilesystemTypeXFS | FilesystemTypeVFAT | FilesystemTypeEXT4
  | FilesystemTypeISO9660 | FilesystemTypeSwap | FilesystemTypeVirtiofs.
#[export] Instance FilesystemType_eq_dec : EqDecision FilesystemType.
Proof. solve_decision. Defined.

(** The text of a filesystem type is the comment of its constant; the one of swap is
    written [swapi]. *)
Definition FilesystemType_String (t : FilesystemType) : string :=
  match t with
  | FilesystemTypeNone => "none"
  | FilesystemTypeXFS => "xfs"
  | FilesystemTypeVFAT => "vfat"
  | FilesystemTypeEXT4 => "ext4"
  | FilesystemTypeISO9660 => "iso9660"
  | FilesystemTypeSwap => "swapi"
  | FilesystemTypeVirtiofs => "virtiofs"
  end.

Definition FilesystemType_values : list FilesystemType :=
  [FilesystemTypeNone; FilesystemTypeXFS; FilesystemTypeVFAT; FilesystemTypeEXT4;
   FilesystemTypeISO9660; FilesystemTypeSwap; FilesystemTypeVirtiofs].

(** Lower case of ASCII letters, as [strings.ToLower]; other characters stay. *)
Definition lower_char (c : Ascii.ascii) : Ascii.ascii :=
  let n := Ascii.nat_of_ascii c in
  if (65 <=? n)%nat && (n <=? 90)%nat then Ascii.ascii_of_nat (n + 32) else c.
Fixpoint ToLower (s : string) : string :=
  match s with
  | EmptyString => EmptyString
  | String c s => String (lower_char c) (ToLower s)
  end.

(** [FilesystemTypeString(s)] with its error dropped: the zero value for no match. *)
Definition FilesystemTypeString (s : string) : FilesystemType :=
  let lookup s := find (λ t, String.eqb (FilesystemType_String t) s) FilesystemType_values in
  match lookup s with
  | Some t => t
  | None => default FilesystemTypeNone (lookup (ToLower s))
  end.

Inductive EncryptionProviderType := EncryptionProviderNone | EncryptionProviderLUKS2.
#[export] Instance EncryptionProviderType_eq_dec : EqDecision EncryptionProviderType.
Proof. solve_decision. Defined.
Definition EncryptionProviderType_String (t : EncryptionProviderType) : string :=
  match t with EncryptionProviderNone => "none" | EncryptionProviderLUKS2 => "luks2" end.

Inductive EncryptionKeyType :=
  EncryptionKeyStatic | EncryptionKeyNodeID | EncryptionKeyKMS | EncryptionKeyTPM.
#[export] Instance EncryptionKeyType_eq_dec : EqDecision EncryptionKeyType.
Proof. solve_decision. Defined.
Definition EncryptionKeyType_String (t : EncryptionKeyType) : string :=
  match t with
  | EncryptionKeyStatic => "static"
  | EncryptionKeyNodeID => "nodeID"
  | EncryptionKeyKMS => "kms"
  | EncryptionKeyTPM => "tpm"
  end.

(** ** Disks and discovered volumes *)

Record DiskSpec := {
  DevPath : string; diskSize : Z; diskPrettySize : string; IOSize : Z; diskSectorSize : Z;
  Readonly : bool; CDROM : bool;
  Model : string; Serial : string; Modalias : string; WWID : string; diskUUID : string;
  BusPath : string; SubSystem : string; Transport : string; Rotational : bool;
  SecondaryDisks : list string; Symlinks : list string
}.

Record DiscoveredVolumeSpec := {
  dvDevPath : string; dvType : string; dvDevicePath : string; Parent : string;
  ParentDevPath : string;
  Offset : Z; dvSize : Z; dvPrettySize : string; dvSectorSize : Z; dvIOSize : Z;
  dvName : string; dvUUID : string; dvLabel : string;
  BlockSize_ : Z; FilesystemBlockSize : Z; ProbedSize : Z;
  dvPartitionUUID : string; PartitionType : string; PartitionLabel : string;
  dvPartitionIndex : Z
}.

(** ** CEL expressions *)

(** The values an expression is evaluated on, [map[string]any] with the keys the callers
    use. *)
Record cel_values := {
  cel_volume : option DiscoveredVolumeSpec;
  cel_disk : option DiskSpec;
  cel_system_disk : option bool
}.

(** The environments of [celenv]. *)
Inductive cel_env := VolumeLocator | DiskLocator.

Inductive cel_type := BoolType | DoubleType | OtherType (name : string).
#[export] Instance cel_type_eq_dec : EqDecision cel_type.
Proof. solve_decision. Defined.

Inductive cel_val := BoolVal (b : bool) | OtherVal (type : string).

(** What the expressions use of cel-go. *)
Class CelGo := {
  Ast : Type;
  Program : Type;
  env_Parse : cel_env → string → error + Ast;
  env_Check : cel_env → Ast → error + Ast;
  OutputType : Ast → cel_type;
  type_String : cel_type → string;
  env_Program : cel_env → Ast → error + Program;
  prog_Eval : Program → cel_values → error + cel_val;
  AstToString : Ast → error + string
}.

Module Cel.
Section cel.
Context `{celgo : CelGo}.

(** Steps of a Go function that may return an error and change nothing. *)
#[local] Instance sum_ret : MRet (sum error) := λ A a, inr a.
#[local] Instance sum_bind : MBind (sum error) := λ A B f c,
  match c with inl e => inl e | inr a => f a end.

Record Expression := { ast : option Ast; expression : option string }.

Definition IsZero (expr : Expression) : bool :=
  match expr.(ast), expr.(expression) with None, None => true | _, _ => false end.

Definition parseExpressionWithOutputType (expression : string) (env : cel_env)
    (expectedType : cel_type) : error + Ast :=
  ast ← env_Parse env expression;
  ast ← env_Check env ast;
  if bool_decide (OutputType ast = expectedType) then inr ast
  else inl (Errorf "expression output type is %s, expected %s"
              [Str (type_String (OutputType ast)); Str (type_String expectedType)]).

Definition ParseBooleanExpression (expression : string) (env : cel_env) : error + Expression :=
  ast ← parseExpressionWithOutputType expression env BoolType;
  inr {| ast := Some ast; expression := None |}.

Definition Merge (expr other : Expression) : Expression :=
  {| ast := other.(ast); expression := other.(expression) |}.

(** [ParseBool] sets the AST of its receiver: the result is the AST it then holds.  In
    [EvalBool] the receiver is a copy. *)
Definition ParseBool (expr : Expression) (env : cel_env) : outcome Empty_set (error + Ast) :=
  match expr.(ast), expr.(expression) with
  | Some ast, _ => Ok (inr ast)
  | None, None => Panic (Explicit "expression is not set")
  | None, Some e => Ok (parseExpressionWithOutputType e env BoolType)
  end.

Definition EvalBool (expr : Expression) (env : cel_env) (values : cel_values)
    : outcome Empty_set (error + bool) :=
  parsed ← ParseBool expr env;
  Ok (ast ← parsed;
      p ← env_Program env ast;
      out ← prog_Eval p values;
      match out with
      | BoolVal val => inr val
      | OtherVal type => inl (Errorf "expression output type is %s, expected bool" [Str type])
      end).

Definition MarshalText (expr : Expression) : error + string :=
  match expr.(expression), expr.(ast) with
  | Some e, _ => inr e
  | None, Some ast => AstToString ast
  | None, None => inr ""%string
  end.

Definition UnmarshalText (expr : Expression) (data : string) : Expression :=
  if String.eqb data "" then expr
  else {| ast := expr.(ast); expression := Some data |}.

(** An expression evaluates or reports an error, unless it was never set. *)
Lemma EvalBool_set expr env values :
  IsZero expr = false → ∃ r, EvalBool expr env values = Ok r.
Proof.
  unfold IsZero, EvalBool, ParseBool. destruct (ast expr), (expression expr); intros; try done; eauto.
Qed.

Lemma EvalBool_zero expr env values :
  IsZero expr = true → EvalBool expr env values = Panic (Explicit "expression is not set").
Proof. unfold IsZero, EvalBool, ParseBool. by destruct (ast expr), (expression expr). Qed.
End cel.
End Cel.

(** ** Volume configurations *)

Record ParameterSpec := { paramType : Z; paramName : string; paramString : option string; paramBinary : option string }.
#[export] Instance ParameterSpec_eq_dec : EqDecision ParameterSpec.
Proof. solve_decision. Defined.

Record MountSpec := {
  TargetPath : string; SelinuxLabel : string; ProjectQuotaSupport : bool; mountParentID : string;
  FileMode : Z; UID : Z; GID : Z; RecursiveRelabel : bool; BindTarget : option string;
  Parameters : list ParameterSpec
}.

Record SymlinkProvisioningSpec := { SymlinkTargetPath : string; Force : bool }.

Record PartitionSpec := {
  MinSize : Z; MaxSize : Z; RelativeMaxSize : Z; NegativeMaxSize : bool;
  grow : bool; Label : string; TypeUUID : string
}.

Record FilesystemSpec := { fsType : FilesystemType; fsLabel : string }.

Record EncryptionKey := {
  keySlot : Z; keyType : EncryptionKeyType; LockToSTATE : bool;
  StaticPassphrase : option string; KMSEndpoint : string;
  TPMCheckSecurebootStatusOnEnroll : bool; TPMPCRs : list Z; TPMPubKeyPCRs : list Z
}.

Record EncryptionSpec := {
  Provider : EncryptionProviderType; Keys : list EncryptionKey;
  Cipher : string; KeySize : Z; BlockSize : Z; PerfOptions : option (list string)
}.

Section volume_config.
Context `{celgo : CelGo}.

Record DiskSelector := { Match_ : Cel.Expression; External_ : string }.
Record LocatorSpec := { locatorMatch : Cel.Expression; DiskMatch : Cel.Expression }.

Record ProvisioningSpec := {
  Wave : Z; diskSelector : DiskSelector; partitionSpec : PartitionSpec;
  filesystemSpec : FilesystemSpec
}.

Record VolumeConfigSpec := {
  ParentID : string; Type_ : VolumeType; Provisioning : ProvisioningSpec;
  Encryption : EncryptionSpec; Locator : LocatorSpec; Mount : MountSpec;
  Symlink : SymlinkProvisioningSpec
}.

(** [value.IsZero] of the two specs the volume manager tests. *)
Definition Locator_IsZero (l : LocatorSpec) : bool :=
  Cel.IsZero l.(locatorMatch) && Cel.IsZero l.(DiskMatch).

Definition PartitionSpec_IsZero (p : PartitionSpec) : bool :=
  (p.(MinSize) =? 0) && (p.(MaxSize) =? 0) && (p.(RelativeMaxSize) =? 0) && negb p.(NegativeMaxSize) &&
  negb p.(grow) && String.eqb p.(Label) "" && String.eqb p.(TypeUUID) "".

Definition Provisioning_IsZero (p : ProvisioningSpec) : bool :=
  (p.(Wave) =? 0) && Cel.IsZero p.(diskSelector).(Match_) && String.eqb p.(diskSelector).(External_) "" &&
  PartitionSpec_IsZero p.(partitionSpec) &&
  bool_decide (p.(filesystemSpec).(fsType) = FilesystemTypeNone) &&
  String.eqb p.(filesystemSpec).(fsLabel) "".
End volume_config.

Definition WaveSystemDisk : Z := -1.
Definition WaveUserVolumes : Z := 0.
Definition WaveLegacyUserDisks : Z := 1000000.

(** [ResolveMaxSize]: the product and the sizes are [uint64]. *)
Definition ResolveMaxSize (ps : PartitionSpec) (available : Z) : error + Z :=
  let size :=
    if negb (ps.(RelativeMaxSize) =? 0) then u64 (available * ps.(RelativeMaxSize)) / 100
    else ps.(MaxSize) in
  if ps.(NegativeMaxSize) then
    if size >? available then inl (Errorf "partition size cannot be negative" [])
    else inr (u64 (available - size))
  else inr size.

(** ** Volume statuses *)

Record TPMEncryptionOptionsInfo := { PCRs : list Z; PubKeyPCRs : list Z }.

(** The error message is the error itself, its text not computed; [None] is the empty
    message. *)
Record VolumeStatusSpec := {
  Phase : VolumePhase; PreFailPhase : VolumePhase;
  statusType : VolumeType; statusParentID : string;
  Location : string; MountLocation : string; PartitionIndex : Z; ParentLocation : string;
  UUID : string; PartitionUUID : string; Size : Z; PrettySize : string;
  Filesystem : FilesystemType;
  EncryptionProvider : EncryptionProviderType; EncryptionFailedSyncs : list error;
  ConfiguredEncryptionKeys : list string; EncryptionLockedToState : bool;
  EncryptionSlot : option Z; TPMEncryptionOptions : TPMEncryptionOptionsInfo;
  mountSpec : MountSpec; SymlinkSpec : SymlinkProvisioningSpec; ErrorMessage : option error
}.

(** [humanize.Bytes]. *)
Class Humanize := humanize_Bytes : Z → string.

Definition SetSize `{Humanize} (size : Z) (s : VolumeStatusSpec) : VolumeStatusSpec :=
  s <| Size := size |> <| PrettySize := humanize_Bytes size |>.

(** The zero values of the specs of a new status. *)
Definition zeroMountSpec : MountSpec :=
  {| TargetPath := ""; SelinuxLabel := ""; ProjectQuotaSupport := false; mountParentID := "";
     FileMode := 0; UID := 0; GID := 0; RecursiveRelabel := false; BindTarget := None;
     Parameters := [] |}.

Definition zeroStatus : VolumeStatusSpec :=
  {| Phase := VolumePhaseWaiting; PreFailPhase := VolumePhaseWaiting;
     statusType := VolumeTypePartition; statusParentID := "";
     Location := ""; MountLocation := ""; PartitionIndex := 0; ParentLocation := "";
     UUID := ""; PartitionUUID := ""; Size := 0; PrettySize := "";
     Filesystem := FilesystemTypeNone;
     EncryptionProvider := EncryptionProviderNone; EncryptionFailedSyncs := [];
     ConfiguredEncryptionKeys := []; EncryptionLockedToState := false; EncryptionSlot := None;
     TPMEncryptionOptions := {| PCRs := []; PubKeyPCRs := [] |};
     mountSpec := zeroMountSpec;
     SymlinkSpec := {| SymlinkTargetPath := ""; Force := false |}; ErrorMessage := None |}.

(** ** Requests to mount, and mounts *)

Record VolumeMountRequestSpec := {
  vmrVolumeID : string; vmrRequester : string; vmrReadOnly : bool; vmrDetached : bool;
  vmrDisableAccessTime : bool; vmrSecure : bool
}.
Record MountRequestSpec := {
  mrVolumeID : string; ParentMountID : string; mrReadOnly : bool; mrDetached : bool;
  mrDisableAccessTime : bool; mrSecure : bool; Requesters : list string; RequesterIDs : list string
}.
(** The root a status gives access to: that of the mount point, or a path of the host. *)
Inductive Root := PointRoot (point : Z) | OSRoot (Shadow : string).
Record MountStatusSpec := {
  msSpec : MountRequestSpec; msSource : string; msTarget : string; msFilesystem : FilesystemType;
  msEncryptionProvider : EncryptionProviderType; msReadOnly : bool; msProjectQuotaSupport : bool;
  msDetached : bool; msRoot : Root
}.
Record VolumeMountStatusSpec := {
  vmsVolumeID : string; vmsRequester : string; vmsTarget : string; vmsReadOnly : bool;
  vmsDetached : bool; vmsDisableAccessTime : bool; vmsSecure : bool; vmsRoot : Root
}.
