(* ===== verification/Devices.v ===== *)
(** * Block devices

    What the volume code uses of block devices, as an interface on a world [W]:
    go-blockdevice (devices and their locks, [blkid], GPT tables, swap), the mkfs and
    grow commands of [pkg/makefs], the mount a filesystem is grown under, and the LUKS
    provider.  A call on a world gives its answer and the world after it, so a device may
    answer differently every time.  Every call that matters for the data on the devices is
    logged, in the order it was made, in the [trace]; the calls on the resources, and those
    that mount, are logged there too.

    [internal/pkg/partition/helpers.go] ([WipeWithSignatures]) is modelled on top. *)

From S2P Require Import Prelude Errors Block.

(** ** Calls on the devices *)

(** Calls on the resources of the volume manager: [resource] is the kind and the id. *)
Inductive resource := LifecycleResource | ConfigResource (id : string) | StatusResource (id : string).
#[export] Instance resource_eq_dec : EqDecision resource.
Proof. solve_decision. Defined.
Inductive runtime_call :=
  | RtAddFinalizer (r : resource) (fin : string)
  | RtRemoveFinalizer (r : resource) (fin : string)
  | RtTeardown (r : resource)
  | RtDestroy (r : resource)
  | RtWrite (id : string).

(** Calls on the resources of mounts, and mounts: changes are logged when they succeed,
    removals of finalizers and writes when they are tried. *)
Inductive mount_resource :=
  | VolumeMountRequestOf (id : string) | VolumeMountStatusOf (id : string)
  | MountRequestOf (id : string) | MountStatusOf (id : string) | VolumeStatusOf (id : string).
#[export] Instance mount_resource_eq_dec : EqDecision mount_resource.
Proof. solve_decision. Defined.
Inductive mount_event :=
  | MAddFinalizer (r : mount_resource) (fin : string)
  | MRemoveFinalizer (r : mount_resource) (fin : string)
  | MTeardown (r : mount_resource) (okToDestroy : bool)
  | MAbsent (r : mount_resource)               (** there was nothing to tear down *)
  | MList (label : string) (ids : list string) (** the volume mount statuses with a label *)
  | MDestroy (r : mount_resource)
  | MWrite (r : mount_resource)
  | MPutRequest (id : string) (spec : MountRequestSpec)
  | MPutStatus (id : string) (spec : MountStatusSpec)
  | MPutVolumeMountStatus (id : string) (label : string) (spec : VolumeMountStatusSpec)
  | MCallback (id : string) (ok : bool)
  | MMove (target : string) (ok : bool)        (** a mount was moved to its target *)
  | MSetattr (target : string) (set clr : Z)
  | MRepair
  | MUmount (target : string).

Inductive event :=
  | EvLock (path : string)                     (** an exclusive lock was taken *)
  | EvUnlock (path : string)
  | EvProbe (path : string) (name : string)    (** [blkid] found [name] *)
  | EvNewTable (disk : string)
  | EvReadTable (disk : string)
  | EvAllocate (disk : string) (idx : Z)
  | EvGrowPartition (disk : string) (idx : Z) (size : Z)
  | EvWriteTable (disk : string)
  | EvWipe (path : string)
  | EvMkfs (fs : FilesystemType) (path : string)
  | EvGrowFs (path : string)
  | EvReadKeyslots (path : string) (slots : list string)
  | EvEncrypt (path : string) (slot : Z) (ok : bool)
  | EvSetToken (path : string) (slot : Z)
  | EvAddKey (path : string) (slot : Z) (ok : bool)
  | EvRemoveKey (path : string) (slot : Z) (ok : bool)
  | EvOpen (path : string) (mapped : string)
  | EvClose (mapped : string)
  | EvRuntime (c : runtime_call)               (** a call on the resources *)
  | EvMount (c : mount_event).

(** [blkid.Info], and [encryption.Key] of go-blockdevice. *)
Record probe_info := {
  probeName : string; probeSize : Z; probeSectorSize : Z; SignatureRanges : list (Z * Z)
}.
Record Key := { Slot : Z; Value : string }.

Record mkfs_options := { UnsupportedFSOption : bool; mkfsLabel : option string }.

Class Devices (W : Type) := {
  (** [block.NewFromPath], [Close], the exclusive and the shared lock, [Unlock] *)
  NewFromPath : string → W → W * option error;
  CloseDevice : string → W → W;
  RetryLockWithTimeout : string → W → W * option error;
  TryLock : string → W → W * option error;
  Unlock : string → W → W;
  (** [blkid.ProbePath] and [blkid.Probe], which differ in the locks they take *)
  ProbePath : string → W → W * (error + probe_info);
  FastWipe : string → list (Z * Z) → W → W * option error;
  (** GPT: a table is read or made, changed in memory, and written *)
  Table : Type;
  DeviceFromBlockDevice : string → W → W * option error;
  gpt_Read : string → W → W * (error + Table);
  gpt_New : string → W → W * (error + Table);
  gpt_Write : string → Table → W → W * option error;
  LargestContiguousAllocatable : Table → Z;
  AvailablePartitionGrowth : Table → Z → error + Z;
  GrowPartition : Table → Z → Z → error + Table;
  AllocatePartition : Table → Z → string → string → error + (Table * Z * string);
  DevName : string → Z → string;
  uuid_Parse : string → error + string;
  (** filesystems *)
  mkfs : FilesystemType → string → mkfs_options → W → W * option error;
  MkdirTemp : W → W * (error + string);
  RemoveDir : string → W → W;
  MountFs : string → string → string → W → W * option error;
  UnmountFs : string → W → W;
  XFSGrow : string → W → W * option error;
  Ext4Resize : string → W → W * option error;
  EvalSymlinks : string → W → W * (error + string);
  (** the context: whether it is done *)
  ctx_Done : W → W * bool;
  (** the LUKS provider.  The slots of a volume are named by strings, in the order the map
      is iterated in; a token is its type and the JSON of its data. *)
  luks_IsOpen : string → string → W → W * (error + (bool * string));
  luks_Open : string → string → Key → W → W * (error + string);
  luks_Close : string → W → W * option error;
  luks_Encrypt : string → Key → W → W * option error;
  luks_SetToken : string → Z → string * string → W → W * option error;
  luks_ReadToken : string → Z → W → W * (error + (string * string));
  luks_AddKey : string → option Key → Key → W → W * option error;
  luks_RemoveKey : string → Z → option Key → W → W * option error;
  luks_CheckKey : string → Key → W → W * (error + bool);
  luks_ReadKeyslots : string → W → W * (error + list string)
}.

(** ** The state of a run: the world and the calls made *)

Record env (W : Type) := mkenv { world : W; trace : list event }.
Arguments mkenv {W} world trace.
Arguments world {W} _.
Arguments trace {W} _.

Section calls.
Context {W : Type}.
Notation io := (prog (env W) error).

(** A call: its answer, and what it logs. *)
Definition ask {A} (f : W → W * A) (ev : A → list event) : io A := λ s,
  let '(w, a) := f s.(world) in Ok (mkenv w (s.(trace) ++ ev a), inr a).

(** A call that may fail: with an error as its only result, or an error or a value. *)
Definition call (f : W → W * option error) (ev : option error → list event) : io () :=
  err ← ask f ev; check err.
Definition query {A} (f : W → W * (error + A)) (ev : A → list event) : io A :=
  r ← ask f (λ r, match r with inl _ => [] | inr a => ev a end); of_result r.
Definition run (f : W → W) (ev : list event) : io () := ask (λ w, (f w, ())) (λ _, ev).

Definition silent {A} (_ : A) : list event := [].
Definition succeeded (err : option error) : bool := match err with None => true | Some _ => false end.

Context `{Devices W}.

(** [dev, err := NewFromPath(path)] and [defer dev.Close()] around the rest. *)
Definition with_device {A} (path : string) (c : io A) : io A :=
  _ ← call (NewFromPath path) silent;
  with_defer (run (CloseDevice path) []) c.

(** [dev.RetryLockWithTimeout(ctx, true, ...)] and [defer dev.Unlock()]. *)
Definition lock_exclusive (path : string) : io () :=
  call (RetryLockWithTimeout path) (λ err, match err with None => [EvLock path] | Some _ => [] end).
Definition unlock (path : string) : io () := run (Unlock path) [EvUnlock path].

Definition probe (path : string) : io probe_info :=
  query (ProbePath path) (λ info, [EvProbe path info.(probeName)]).

Definition read_table (disk : string) : io Table := query (gpt_Read disk) (λ _, [EvReadTable disk]).
Definition new_table (disk : string) : io Table := query (gpt_New disk) (λ _, [EvNewTable disk]).
Definition write_table (disk : string) (pt : Table) : io () :=
  call (gpt_Write disk pt) (λ _, [EvWriteTable disk]).

(** A change of a table in memory. *)
Definition allocate (disk : string) (pt : Table) (size : Z) (label type : string) : io (Table * Z * string) :=
  query (λ w, (w, AllocatePartition pt size label type)) (λ '(_, idx, _), [EvAllocate disk idx]).
Definition grow_partition (disk : string) (pt : Table) (idx size : Z) : io Table :=
  query (λ w, (w, GrowPartition pt idx size)) (λ _, [EvGrowPartition disk idx size]).

Definition make_fs (fs : FilesystemType) (path : string) (opts : mkfs_options) : io () :=
  call (mkfs fs path opts) (λ _, [EvMkfs fs path]).

(** [WipeWithSignatures] on the device at [deviceName], which is open: a probe that fails
    only skips the wipe by signatures. *)
Definition WipeWithSignatures (deviceName : string) : io () :=
  info ← try (query (ProbePath deviceName) silent);
  _ ← match info with
      | inr info =>
          if (0 <? zlen info.(SignatureRanges)) then
            map_err (λ e, Errorf "failed to wipe block device %q: %v" [Str deviceName; Printed e])
              (call (FastWipe deviceName info.(SignatureRanges)) (λ _, [EvWipe deviceName]))
          else mret ()
      | inl _ => mret ()
      end;
  map_err (λ e, Errorf "failed to wipe block device %q: %v" [Str deviceName; Printed e])
    (call (FastWipe deviceName []) (λ _, [EvWipe deviceName])).

(** ** Symbolic execution *)

(** [f] is the pure part of the call: [f s.(world)] is whatever it is. *)
Lemma ensures_ask {A} (f : W → W * A) ev s (Q : env W → error + A → Prop) :
  (∀ w a, f s.(world) = (w, a) → Q (mkenv w (s.(trace) ++ ev a)) (inr a)) → ensures (ask f ev) s Q.
Proof.
  intros HQ s' r. unfold ask. destruct (f (world s)) as [w a] eqn:E1. intros [= <- <-]. by apply HQ.
Qed.

Lemma ensures_call f ev s (Q : env W → error + () → Prop) :
  (∀ w err, f s.(world) = (w, err) →
     Q (mkenv w (s.(trace) ++ ev err)) (match err with Some e => inl e | None => inr () end)) →
  ensures (call f ev) s Q.
Proof.
  intros HQ. unfold call. apply ensures_bind, ensures_ask. intros w [e|] E1; unfold check;
    [apply ensures_throw|apply ensures_ret]; by apply (HQ _ _ E1).
Qed.

Lemma ensures_query {A} (f : W → W * (error + A)) ev s (Q : env W → error + A → Prop) :
  (∀ w r, f s.(world) = (w, r) →
     Q (mkenv w (s.(trace) ++ match r with inl _ => [] | inr a => ev a end)) r) →
  ensures (query f ev) s Q.
Proof.
  intros HQ. unfold query. apply ensures_bind, ensures_ask. intros w r E1.
  by apply ensures_of_result, HQ.
Qed.

Lemma ensures_run f ev s (Q : env W → error + () → Prop) :
  (∀ w, Q (mkenv w (s.(trace) ++ ev)) (inr ())) → ensures (run f ev) s Q.
Proof. intros HQ. apply ensures_ask. intros w [] _. apply HQ. Qed.

(** The same for calls that always return. *)

Lemma returns_ask {A} (f : W → W * A) ev s (Q : env W → error + A → Prop) :
  (∀ w a, f s.(world) = (w, a) → Q (mkenv w (s.(trace) ++ ev a)) (inr a)) → returns (ask f ev) s Q.
Proof.
  intros HQ. unfold returns, ask. destruct (f (world s)) as [w a] eqn:E1. by eexists _, _; split; [|apply HQ].
Qed.

Lemma returns_call f ev s (Q : env W → error + () → Prop) :
  (∀ w err, f s.(world) = (w, err) →
     Q (mkenv w (s.(trace) ++ ev err)) (match err with Some e => inl e | None => inr () end)) →
  returns (call f ev) s Q.
Proof.
  intros HQ. unfold call. apply returns_bind, returns_ask. intros w [e|] E1; unfold check;
    [apply returns_throw|apply returns_ret]; by apply (HQ _ _ E1).
Qed.

Lemma returns_query {A} (f : W → W * (error + A)) ev s (Q : env W → error + A → Prop) :
  (∀ w r, f s.(world) = (w, r) →
     Q (mkenv w (s.(trace) ++ match r with inl _ => [] | inr a => ev a end)) r) →
  returns (query f ev) s Q.
Proof.
  intros HQ. unfold query. apply returns_bind, returns_ask. intros w r E1.
  by apply returns_of_result, HQ.
Qed.
End calls.

(** One step of symbolic execution of a call that always returns. *)
Ltac io_step :=
  first
    [ progress prog_step
    | lazymatch goal with
      | |- returns (wrapf _ _) _ _ => apply returns_map_err
      | |- returns (map_err _ _) _ _ => apply returns_map_err
      | |- returns (wrap_id _ _ _) _ _ => apply returns_map_err
      | |- returns (try _) _ _ => apply returns_try
      | |- returns (of_result _) _ _ => apply returns_of_result
      | |- returns (zoom _ _ _) _ _ => apply returns_zoom
      end ];
  cbv beta iota zeta.
Ltac io_steps := repeat io_step.
