(* ===== verification/Keys.v ===== *)
(** * Encryption keys

    [internal/pkg/encryption/keys]: the key handlers (static passphrase, node UUID, KMS,
    TPM, and the salted wrapper), [NewHandler], and the PCR lock of
    [pkg/machinery/resources/hardware/pcr_status.go].  The KMS service, the TPM, the
    firmware and the JSON of the tokens are the interface [KeyServices]; a getter the
    configuration did not set is [None]. *)

From S2P Require Import Prelude Errors Block Devices.
From stdpp Require Import pretty.
#[local] Open Scope Z_scope.

(** ** Text *)

Definition bytes_of (s : string) : list Z :=
  (λ c, Z.of_nat (Ascii.nat_of_ascii c)) <$> String.list_ascii_of_string s.

(** One rune at the head of a byte string, and its width: UTF-8 as [range] over a string
    decodes it, [0xFFFD] of width 1 for an invalid encoding. *)
Definition continuation (b : Z) : bool := (0x80 <=? b) && (b <=? 0xBF).
Definition decode_rune (b0 : Z) (rest : list Z) : Z * nat :=
  let between lo hi b := (lo <=? b) && (b <=? hi) in
  let invalid := (0xFFFD, 1%nat) in
  if b0 <? 0x80 then (b0, 1%nat)
  else if between 0xC2 0xDF b0 then
    match rest with
    | b1 :: _ =>
        if continuation b1 then (Z.land b0 0x1F * 64 + Z.land b1 0x3F, 2%nat) else invalid
    | _ => invalid
    end
  else if between 0xE0 0xEF b0 then
    match rest with
    | b1 :: b2 :: _ =>
        let lo := if b0 =? 0xE0 then 0xA0 else 0x80 in
        let hi := if b0 =? 0xED then 0x9F else 0xBF in
        if between lo hi b1 && continuation b2
        then (Z.land b0 0xF * 4096 + Z.land b1 0x3F * 64 + Z.land b2 0x3F, 3%nat) else invalid
    | _ => invalid
    end
  else if between 0xF0 0xF4 b0 then
    match rest with
    | b1 :: b2 :: b3 :: _ =>
        let lo := if b0 =? 0xF0 then 0x90 else 0x80 in
        let hi := if b0 =? 0xF4 then 0x8F else 0xBF in
        if between lo hi b1 && continuation b2 && continuation b3
        then (Z.land b0 0x7 * 262144 + Z.land b1 0x3F * 4096 + Z.land b2 0x3F * 64 + Z.land b3 0x3F, 4%nat)
        else invalid
    | _ => invalid
    end
  else invalid.

(** [skip] bytes belong to the rune before. *)
Fixpoint runes_from (skip : nat) (bs : list Z) : list Z :=
  match bs with
  | [] => []
  | b :: rest =>
      match skip with
      | S skip => runes_from skip rest
      | O => let '(r, width) := decode_rune b rest in r :: runes_from (pred width) rest
      end
  end.
Definition runes (s : string) : list Z := runes_from 0 (bytes_of s).

(** [base64.StdEncoding.EncodeToString]. *)
Definition base64_char (n : Z) : Ascii.ascii :=
  Ascii.ascii_of_nat (Z.to_nat
    (if n <? 26 then 65 + n else if n <? 52 then 71 + n else if n <? 62 then n - 4
     else if n =? 62 then 43 else 47)).
Fixpoint base64 (bs : list Z) : string :=
  let c n := base64_char (Z.land n 63) in
  match bs with
  | [] => EmptyString
  | [b0] =>
      String (c (Z.shiftr b0 2)) (String (c (Z.shiftl b0 4)) "==")
  | [b0; b1] =>
      String (c (Z.shiftr b0 2)) (String (c (Z.lor (Z.shiftl b0 4) (Z.shiftr b1 4)))
        (String (c (Z.shiftl b1 2)) "="))
  | b0 :: b1 :: b2 :: bs =>
      String (c (Z.shiftr b0 2)) (String (c (Z.lor (Z.shiftl b0 4) (Z.shiftr b1 4)))
        (String (c (Z.lor (Z.shiftl b1 2) (Z.shiftr b2 6))) (String (c b2) (base64 bs))))
  end.
Definition EncodeToString (s : string) : string := base64 (bytes_of s).

Example base64_hello : EncodeToString "Hello, world!" = "SGVsbG8sIHdvcmxkIQ=="%string.
Proof. reflexivity. Qed.
Example runes_utf8 : runes (String (Ascii.ascii_of_nat 0xC3) (String (Ascii.ascii_of_nat 0xA9) "a")) = [0xE9; 97].
Proof. reflexivity. Qed.

(** ** Tokens *)

Record KMSToken := { SealedData : string }.
Record TPMToken := {
  KeySlots : list Z; SealedBlobPrivate : string; SealedBlobPublic : string;
  TokenPCRs : list Z; TokenPubKeyPCRs : list Z; Alg : string; EncryptionVersion : string;
  PolicyHash : string; KeyName : string
}.
(** A non-nil [token.Token]. *)
Inductive Token := TokenKMS (t : KMSToken) | TokenTPM (t : TPMToken).

Definition TokenTypeKMS : string := "sideroKMS".
Definition TokenTypeTPM : string := "talos-tpm2".

Definition ErrTokenInvalid : error := Sentinel "invalid token".

(** [tpm2.SealedResponse]. *)
Record SealedResponse := {
  respBlobPrivate : string; respBlobPublic : string; respKeyName : string;
  respPolicyDigest : string; respPCRs : list Z; respPubKeyPCRs : list Z;
  respEncryptionVersion : string; respAlg : string
}.

(** ** What the handlers use *)

Class KeyServices (W : Type) := {
  rand_Read : Z → W → W * (error + string);
  kms_Dial : string → W → W * option error;
  kms_Seal : string → string → string → W → W * (error + string);
  kms_Unseal : string → string → string → W → W * (error + string);
  kms_Close : string → W → W;
  GetSecureBoot : W → W * bool;
  GetSetupMode : W → W * bool;
  tpm2_Seal : string → list Z → W → W * (error + SealedResponse);
  tpm2_Unseal : SealedResponse → W → W * (error + string);
  AddFinalizer_PCR : Z → string → W → W * option error;
  RemoveFinalizer_PCR : Z → string → W → W * option error;
  IsNotFoundError : error → bool;
  (** the JSON of the user data of a token *)
  marshal_KMS : KMSToken → string;
  unmarshal_KMS : string → error + KMSToken;
  marshal_TPM : TPMToken → string;
  unmarshal_TPM : string → error + TPMToken
}.

(** Close a goal about the value of a program whose calls do not matter. *)
Ltac slot_tac :=
  repeat (progress (cbv beta iota zeta;
    lazymatch goal with
    | |- ensures (mbind _ _) _ _ => apply ensures_bind
    | |- ensures (with_defer _ _) _ _ => apply ensures_defer
    | |- ensures (mret _) _ _ => apply ensures_ret
    | |- ensures (throw _) _ _ => apply ensures_throw
    | |- ensures (map_err _ _) _ _ => apply ensures_map_err
    | |- ensures (if ?b then _ else _) _ _ => destruct b
    | |- ensures (match ?x with _ => _ end) _ _ => destruct x
    | |- ensures _ _ _ => intros ? ? _
    | |- match ?r with inl _ => _ | inr _ => _ end => destruct r
    | |- _ => intros; simpl; try done
    end)).

Section keys.
Context {W : Type} `{KeyServices W}.
Notation io := (prog (env W) error).

(** A TPM locker runs a function under the lock of the PCR and returns its error. *)
Definition TPMLockFunc : Type := ∀ A, io A → io A.

(** [LockPCRStatus]: the result of [fn] is dropped when the unlock fails. *)
Definition LockPCRStatus (pcr : Z) (finalizerName : string) : TPMLockFunc := λ A fn,
  _ ← map_err (λ e,
        if IsNotFoundError e
        then Errorf "failed to lock PCR %d, as it is in the wrong state, a reboot might be required" [Int pcr]
        else Errorf "failed to lock PCR %d: %w" [Int pcr; Wrapped e])
      (call (AddFinalizer_PCR pcr finalizerName) silent);
  fnErr ← try fn;
  unlockErr ← try (call (RemoveFinalizer_PCR pcr finalizerName) silent);
  match fnErr, unlockErr with
  | _, inr _ => of_result fnErr
  | inr _, inl e => throw (Errorf "failed to unlock PCR %d: %w" [Int pcr; Wrapped e])
  | inl fe, inl e =>
      throw (Errorf "%w\n%w" [Wrapped fe; Wrapped (Errorf "failed to unlock PCR %d: %w" [Int pcr; Wrapped e])])
  end.

(** [encryption.Helpers] and [keys.KeyOptions]. *)
Record KeyOptions := {
  VolumeID : string;
  GetSystemInformation : option (io string);   (** the UUID of the node *)
  TPMLocker : option TPMLockFunc;
  SaltGetter : option (io string)
}.

Inductive Handler :=
  | StaticKeyHandler (slot : Z) (data : string)
  | NodeIDKeyHandler (slot : Z) (partitionLabel : string) (getSystemInfo : io string)
  | KMSKeyHandler (slot : Z) (kmsEndpoint : string) (getSystemInfo : io string)
  | TPMKeyHandler (slot : Z) (checkSecurebootOnEnroll : bool) (tpmPCRs : list Z) (tpmLocker : TPMLockFunc)
  | SaltedHandler (wrapped : Handler) (saltGetter : io string).

Fixpoint Handler_Slot (h : Handler) : Z :=
  match h with
  | StaticKeyHandler slot _ | NodeIDKeyHandler slot _ _ | KMSKeyHandler slot _ _
  | TPMKeyHandler slot _ _ _ => slot
  | SaltedHandler wrapped _ => Handler_Slot wrapped
  end.

Definition errNoSystemInfoGetter : error := Sentinel "the UUID getter is not set".

(** [keys.NewHandler]. *)
Definition NewHandler (cfg : EncryptionKey) (opts : KeyOptions) : error + Handler :=
  let slot := cfg.(keySlot) in
  let salted (handler : Handler) : error + Handler :=
    if cfg.(LockToSTATE) then
      match opts.(SaltGetter) with
      | None => inl (Errorf "failed to create state-locked key handler at slot %d: no salt getter" [Int slot])
      | Some getter => inr (SaltedHandler handler getter)
      end
    else inr handler in
  match cfg.(keyType) with
  | EncryptionKeyStatic =>
      match cfg.(StaticPassphrase) with
      | None => inl (Errorf "static key must have key data defined" [])
      | Some k => salted (StaticKeyHandler slot k)
      end
  | EncryptionKeyNodeID =>
      match opts.(GetSystemInformation) with
      | None => inl (Errorf "failed to create nodeUUID key handler at slot %d: %w" [Int slot; Wrapped errNoSystemInfoGetter])
      | Some getter => salted (NodeIDKeyHandler slot opts.(VolumeID) getter)
      end
  | EncryptionKeyKMS =>
      match opts.(GetSystemInformation) with
      | None => inl (Errorf "failed to create KMS key handler at slot %d: %w" [Int slot; Wrapped errNoSystemInfoGetter])
      | Some getter => salted (KMSKeyHandler slot cfg.(KMSEndpoint) getter)
      end
  | EncryptionKeyTPM =>
      match opts.(TPMLocker) with
      | None => inl (Errorf "failed to create TPM key handler at slot %d: no TPM lock function" [Int slot])
      | Some locker =>
          salted (TPMKeyHandler slot cfg.(TPMCheckSecurebootStatusOnEnroll) cfg.(TPMPCRs) locker)
      end
  end.

(** ** Node UUID: the entropy check counts runes against half the length in bytes *)

Fixpoint entropy_check (len : Z) (counts : Z → Z) (rs : list Z) : bool :=
  match rs with
  | [] => true
  | s :: rs =>
      let counts r := if r =? s then counts r + 1 else counts r in
      if counts s >? len / 2 then false else entropy_check len counts rs
  end.

Definition NodeID_GetKey (slot : Z) (partitionLabel : string) (getSystemInfo : io string) : io Key :=
  nodeUUID ← wrapf "failed to get UUID: %w" getSystemInfo;
  if String.eqb nodeUUID "" then throw (Errorf "machine UUID is not populated %s" [Str nodeUUID])
  else if entropy_check (zlen (bytes_of nodeUUID)) (λ _, 0) (runes nodeUUID)
  then mret {| Slot := slot; Value := nodeUUID +:+ partitionLabel |}
  else throw (Errorf "machine UUID %s entropy check failed" [Str nodeUUID]).

(** ** KMS and TPM *)

Definition with_kms {A} (kmsEndpoint : string) (c : io A) : io A :=
  _ ← map_err (λ e, Errorf "error dialing KMS endpoint %q: %w" [Str kmsEndpoint; Wrapped e])
        (call (kms_Dial kmsEndpoint) silent);
  with_defer (Devices.run (kms_Close kmsEndpoint) []) c.

Definition KMS_NewKey (slot : Z) (kmsEndpoint : string) (getSystemInfo : io string)
    : io (Key * option Token) :=
  with_kms kmsEndpoint (
    key ← query (rand_Read 32) silent;
    uuid ← getSystemInfo;
    data ← map_err (λ e, Errorf "failed to seal KMS passphrase, slot %d: %w" [Int slot; Wrapped e])
             (query (kms_Seal kmsEndpoint uuid key) silent);
    mret ({| Slot := slot; Value := EncodeToString key |}, Some (TokenKMS {| SealedData := data |}))).

Definition KMS_GetKey (slot : Z) (kmsEndpoint : string) (getSystemInfo : io string) (t : option Token)
    : io Key :=
  match t with
  | Some (TokenKMS token) =>
      with_kms kmsEndpoint (
        uuid ← getSystemInfo;
        data ← map_err (λ e, Errorf "failed to unseal KMS passphrase, slot %d: %w" [Int slot; Wrapped e])
                 (query (kms_Unseal kmsEndpoint uuid token.(SealedData)) silent);
        mret {| Slot := slot; Value := EncodeToString data |})
  | _ => throw ErrTokenInvalid
  end.

Definition TPM_NewKey (slot : Z) (checkSecurebootOnEnroll : bool) (tpmPCRs : list Z)
    (tpmLocker : TPMLockFunc) : io (Key * option Token) :=
  _ ← (if checkSecurebootOnEnroll then
         secureboot ← ask GetSecureBoot silent;
         _ ← (if secureboot : bool then mret () else
                throw (Errorf "failed to enroll the TPM2 key, as SecureBoot is disabled (and checkSecurebootOnEnroll is enabled)" []));
         setup ← ask GetSetupMode silent;
         (if setup : bool then
            throw (Errorf "failed to enroll the TPM2 key, as the system is in SecureBoot setup mode (and checkSecurebootOnEnroll is enabled)" [])
          else mret ())
       else mret ());
  key ← query (rand_Read 32) silent;
  resp ← tpmLocker _ (query (tpm2_Seal key tpmPCRs) silent);
  mret ({| Slot := slot; Value := EncodeToString key |},
        Some (TokenTPM {|
          KeySlots := [slot];
          SealedBlobPrivate := resp.(respBlobPrivate);
          SealedBlobPublic := resp.(respBlobPublic);
          Alg := resp.(respAlg);
          EncryptionVersion := resp.(respEncryptionVersion);
          TokenPubKeyPCRs := resp.(respPubKeyPCRs);
          TokenPCRs := resp.(respPCRs);
          PolicyHash := resp.(respPolicyDigest);
          KeyName := resp.(respKeyName) |})).

Definition TPM_GetKey (slot : Z) (tpmLocker : TPMLockFunc) (t : option Token) : io Key :=
  match t with
  | Some (TokenTPM token) =>
      let sealed := {|
        respBlobPrivate := token.(SealedBlobPrivate);
        respBlobPublic := token.(SealedBlobPublic);
        respPolicyDigest := token.(PolicyHash);
        respKeyName := token.(KeyName);
        respPCRs := token.(TokenPCRs);
        respPubKeyPCRs := token.(TokenPubKeyPCRs);
        respEncryptionVersion := token.(EncryptionVersion);
        respAlg := "" |} in
      key ← tpmLocker _ (query (tpm2_Unseal sealed) silent);
      mret {| Slot := slot; Value := EncodeToString key |}
  | _ => throw ErrTokenInvalid
  end.

(** ** The interface of a handler *)

Definition with_salt (saltGetter : io string) (key : Key) : io Key :=
  salt ← wrapf "failed to get disk encryption key salt: %w" saltGetter;
  mret {| Slot := key.(Slot); Value := key.(Value) +:+ salt |}.

Fixpoint NewKey (h : Handler) : io (Key * option Token) :=
  match h with
  | StaticKeyHandler slot data => mret ({| Slot := slot; Value := data |}, None)
  | NodeIDKeyHandler slot partitionLabel getSystemInfo =>
      k ← NodeID_GetKey slot partitionLabel getSystemInfo; mret (k, None)
  | KMSKeyHandler slot kmsEndpoint getSystemInfo => KMS_NewKey slot kmsEndpoint getSystemInfo
  | TPMKeyHandler slot checkSecurebootOnEnroll tpmPCRs tpmLocker =>
      TPM_NewKey slot checkSecurebootOnEnroll tpmPCRs tpmLocker
  | SaltedHandler wrapped saltGetter =>
      '(key, token) ← NewKey wrapped;
      key ← with_salt saltGetter key;
      mret (key, token)
  end.

Fixpoint GetKey (h : Handler) (t : option Token) : io Key :=
  match h with
  | StaticKeyHandler slot data => mret {| Slot := slot; Value := data |}
  | NodeIDKeyHandler slot partitionLabel getSystemInfo => NodeID_GetKey slot partitionLabel getSystemInfo
  | KMSKeyHandler slot kmsEndpoint getSystemInfo => KMS_GetKey slot kmsEndpoint getSystemInfo t
  | TPMKeyHandler slot _ _ tpmLocker => TPM_GetKey slot tpmLocker t
  | SaltedHandler wrapped saltGetter =>
      key ← GetKey wrapped t;
      with_salt saltGetter key
  end.

(** ** Lemmas

    A call is quiet when it logs nothing; the getters and lockers a handler is made with
    are expected to be. *)

Definition quiet {A} (c : io A) : Prop := ∀ s, ensures c s (λ s' _, s'.(trace) = s.(trace)).

Definition quiet_opts (opts : KeyOptions) : Prop :=
  (∀ g, opts.(GetSystemInformation) = Some g → quiet g) ∧
  (∀ g, opts.(SaltGetter) = Some g → quiet g) ∧
  (∀ l, opts.(TPMLocker) = Some l → ∀ A (c : io A), quiet c → quiet (l A c)).

Fixpoint quiet_handler (h : Handler) : Prop :=
  match h with
  | StaticKeyHandler _ _ => True
  | NodeIDKeyHandler _ _ g | KMSKeyHandler _ _ g => quiet g
  | TPMKeyHandler _ _ _ l => ∀ A (c : io A), quiet c → quiet (l A c)
  | SaltedHandler h g => quiet_handler h ∧ quiet g
  end.

Lemma quiet_query {A} (f : W → W * (error + A)) : quiet (query f silent).
Proof.
  intros s. apply ensures_query. intros w r _. simpl. by destruct r; simpl; rewrite app_nil_r.
Qed.
Lemma quiet_call f : quiet (call f silent).
Proof. intros s. apply ensures_call. intros w err _. simpl. by rewrite app_nil_r. Qed.
Lemma quiet_run f : quiet (Devices.run f []).
Proof. intros s. apply ensures_run. intros w. simpl. by rewrite app_nil_r. Qed.
Lemma quiet_ask {A} (f : W → W * A) : quiet (ask f silent).
Proof. intros s. apply ensures_ask. intros w a _. simpl. by rewrite app_nil_r. Qed.
Lemma quiet_ret {A} (a : A) : quiet (mret a).
Proof. intros s. by apply ensures_ret. Qed.
Lemma quiet_throw {A} e : quiet (throw e : io A).
Proof. intros s. by apply ensures_throw. Qed.
Lemma quiet_of_result {A} (r : error + A) : quiet (of_result r).
Proof. intros s. by apply ensures_of_result. Qed.
Lemma quiet_bind {A B} (c : io A) (f : A → io B) :
  quiet c → (∀ a, quiet (f a)) → quiet (c ≫= f).
Proof.
  intros Hc Hf s. apply ensures_bind. eapply ensures_mono; [|apply Hc].
  intros s' [e|a] Hs; [done|]. eapply ensures_mono; [|apply Hf]. intros; congruence.
Qed.
Lemma quiet_map_err {A} f (c : io A) : quiet c → quiet (map_err f c).
Proof. intros Hc s. apply ensures_map_err. eapply ensures_mono; [|apply Hc]. done. Qed.
Lemma quiet_try {A} (c : io A) : quiet c → quiet (try c : io _).
Proof. intros Hc s. apply ensures_try. eapply ensures_mono; [|apply Hc]. done. Qed.
Lemma quiet_defer {A} (d : io ()) (c : io A) : quiet d → quiet c → quiet (with_defer d c).
Proof.
  intros Hd Hc s. apply ensures_defer. eapply ensures_mono; [|apply Hc].
  intros s' r Hs. eapply ensures_mono; [|apply Hd]. simpl. intros; congruence.
Qed.

Create HintDb quiet.
#[local] Hint Resolve quiet_query quiet_call quiet_run quiet_ask quiet_ret quiet_throw
  quiet_of_result quiet_bind quiet_map_err quiet_try quiet_defer : quiet.

(** Prove that a program without logged calls is quiet. *)
Ltac quiet_tac :=
  repeat first
    [ progress intros | solve [eauto 2 with quiet] | apply quiet_bind | apply quiet_defer
    | apply quiet_map_err | apply quiet_try | case_match ].

Lemma quiet_LockPCRStatus pcr fin A (c : io A) : quiet c → quiet (LockPCRStatus pcr fin A c).
Proof. intros Hc. unfold LockPCRStatus. quiet_tac. Qed.

Lemma quiet_NodeID slot label g : quiet g → quiet (NodeID_GetKey slot label g).
Proof. intros. unfold NodeID_GetKey, wrapf. quiet_tac. Qed.

Lemma quiet_with_salt g k : quiet g → quiet (with_salt g k).
Proof. intros. unfold with_salt, wrapf. quiet_tac. Qed.
#[local] Hint Resolve quiet_NodeID quiet_with_salt : quiet.

Lemma quiet_NewKey h : quiet_handler h → quiet (NewKey h).
Proof.
  induction h; cbn [quiet_handler NewKey]; intros; destruct_and?;
    unfold KMS_NewKey, TPM_NewKey, with_kms; quiet_tac.
Qed.

Lemma quiet_GetKey h t : quiet_handler h → quiet (GetKey h t).
Proof.
  induction h; cbn [quiet_handler GetKey]; intros; destruct_and?;
    unfold KMS_GetKey, TPM_GetKey, with_kms; quiet_tac.
Qed.

(** A key is in the slot of its handler. *)
Definition in_slot (n : Z) (r : error + Key) : Prop :=
  match r with inr k => k.(Slot) = n | inl _ => True end.

Lemma NodeID_slot slot label g s : ensures (NodeID_GetKey slot label g) s (λ _, in_slot slot).
Proof. unfold NodeID_GetKey, wrapf. slot_tac. Qed.

Lemma GetKey_slot h t s : ensures (GetKey h t) s (λ _, in_slot (Handler_Slot h)).
Proof.
  revert s. induction h as [| | | |h IH]; cbn [GetKey Handler_Slot]; intros s.
  1: by apply ensures_ret.
  1: apply NodeID_slot.
  1-2: unfold KMS_GetKey, TPM_GetKey, with_kms; slot_tac.
  apply ensures_bind. eapply ensures_mono; [|apply IH]. intros s' [e|k] Hk; [done|].
  unfold with_salt, wrapf. simpl in Hk. slot_tac.
Qed.

Lemma NewKey_slot h s :
  ensures (NewKey h) s (λ _ r, match r with inr (k, _) => k.(Slot) = Handler_Slot h | inl _ => True end).
Proof.
  revert s. induction h as [| | | |h IH]; cbn [NewKey Handler_Slot]; intros s.
  1: by apply ensures_ret.
  1: { apply ensures_bind. eapply ensures_mono; [|apply NodeID_slot].
       intros s' [e|k] Hk; [done|]. by apply ensures_ret. }
  1-2: unfold KMS_NewKey, TPM_NewKey, with_kms; slot_tac.
  apply ensures_bind. eapply ensures_mono; [|apply IH]. intros s' [e|[k t]] Hk; [done|].
  unfold with_salt, wrapf. slot_tac.
Qed.

(** A node UUID is accepted exactly when no rune is more than half of its bytes. *)
Fixpoint occurrences (r : Z) (rs : list Z) : Z :=
  match rs with [] => 0 | s :: rs => (if r =? s then 1 else 0) + occurrences r rs end.

Lemma occurrences_nonneg r rs : 0 ≤ occurrences r rs.
Proof. induction rs as [|s rs IH]; simpl; [lia|]. destruct (r =? s); lia. Qed.

Lemma entropy_check_iff len counts rs :
  entropy_check len counts rs = true ↔ ∀ r, r ∈ rs → counts r + occurrences r rs ≤ len / 2.
Proof.
  revert counts. induction rs as [|s rs IH]; intros counts; simpl.
  { split; [|done]. intros _ r Hr. by apply elem_of_nil in Hr. }
  rewrite Z.eqb_refl. split.
  - intros H1 r Hr. destruct (counts s + 1 >? len / 2) eqn:E1; [done|].
    rewrite IH in H1. apply elem_of_cons in Hr as [-> | Hr]; rewrite ?Z.eqb_refl.
    + destruct (decide (s ∈ rs)) as [Hs|Hs].
      * specialize (H1 s Hs). rewrite Z.eqb_refl in H1. lia.
      * assert (occurrences s rs = 0) as ->; [|lia]. clear -Hs.
        induction rs as [|x rs IH]; simpl; [done|].
        apply not_elem_of_cons in Hs as [Hx Hs]. destruct (Z.eqb_spec s x); [done|]. by rewrite IH.
    + specialize (H1 r Hr). destruct (r =? s); lia.
  - intros H1. assert (counts s + 1 >? len / 2 = false) as ->.
    { pose proof (H1 s ltac:(left)) as H2. rewrite Z.eqb_refl in H2.
      pose proof (occurrences_nonneg s rs). lia. }
    apply IH. intros r Hr. pose proof (H1 r ltac:(by right)). destruct (r =? s); lia.
Qed.
End keys.
