(* ===== verification/Encryption.v ===== *)
(** * Encrypted volumes

    [internal/pkg/encryption/encryption.go]: the handler of an encrypted volume, which
    formats, opens, closes it and keeps its key slots in line with the configuration, on
    top of the key handlers of [Keys] and the LUKS provider of [Devices]. *)

From S2P Require Import Prelude Errors Block Devices Keys.
From Stdlib Require Import Ascii.
From stdpp Require Import pretty.
#[local] Open Scope Z_scope.

(** ** Decimal numbers *)

(** [strconv.ParseInt(s, 10, 64)], [None] for its error. *)
Definition digit (c : Ascii.ascii) : option Z :=
  let n := Z.of_nat (Ascii.nat_of_ascii c) in
  if (48 <=? n) && (n <=? 57) then Some (n - 48) else None.
Fixpoint digits (acc : Z) (s : string) : option Z :=
  match s with
  | EmptyString => Some acc
  | String c s => d ← digit c; digits (acc * 10 + d) s
  end.
Definition ParseInt (s : string) : option Z :=
  let unsigned s := match s with EmptyString => None | _ => digits 0 s end in
  n ← match s with
      | String "-"%char s => Z.opp <$> unsigned s
      | String "+"%char s => unsigned s
      | _ => unsigned s
      end;
  if (- 2 ^ 63 <=? n) && (n <? 2 ^ 63) then Some n else None.

(** [strconv.Itoa]. *)
Definition Itoa (n : Z) : string := pretty n.

Example ParseInt_Itoa : ParseInt (Itoa (-120)) = Some (-120) ∧ ParseInt "07" = Some 7 ∧ ParseInt "x" = None.
Proof. done. Qed.

(** ** The handler *)

(** What [NewHandler] uses of the luks package: cipher names and performance options. *)
Class Luks := {
  ParseCipherKind : string → option error;
  ValidatePerfOption : string → option error
}.

Section encryption.
Context {W : Type} `{HD : Devices W} `{HKS : KeyServices W} `{HL : Luks}.
Notation io := (prog (env W) error).

(** The key handlers in the order of their slots; the cipher and the options only
    parametrise the provider. *)
Definition EncHandler : Type := list (Handler (W:=W)).

(** [slices.SortFunc] by slot: an insertion sort on up to twelve keys, stable. *)
Fixpoint insert_handler (h : Handler) (l : EncHandler) : EncHandler :=
  match l with
  | [] => [h]
  | h' :: l => if Handler_Slot h <? Handler_Slot h' then h :: h' :: l else h' :: insert_handler h l
  end.
Definition sort_handlers (l : EncHandler) : EncHandler := foldl (λ acc h, insert_handler h acc) [] l.

Fixpoint first_error {A} (f : A → option error) (l : list A) : option error :=
  match l with
  | [] => None
  | x :: l => match f x with Some e => Some e | None => first_error f l end
  end.

Fixpoint new_handlers (cfgs : list EncryptionKey) (opts : KeyOptions (W:=W)) : error + EncHandler :=
  match cfgs with
  | [] => inr []
  | cfg :: cfgs =>
      match NewHandler cfg opts with
      | inl e => inl e
      | inr h =>
          match new_handlers cfgs opts with
          | inl e => inl e
          | inr hs => inr (h :: hs)
          end
      end
  end.

(** [encryption.NewHandler]. *)
Definition New (encryptionConfig : EncryptionSpec) (opts : KeyOptions (W:=W)) : error + EncHandler :=
  match ParseCipherKind encryptionConfig.(Cipher) with
  | Some e => inl (Errorf "failed to parse cipher kind: %w" [Wrapped e])
  | None =>
      match first_error ValidatePerfOption (default [] encryptionConfig.(PerfOptions)) with
      | Some e => inl (Errorf "invalid luks performance options: %w" [Wrapped e])
      | None =>
          match new_handlers encryptionConfig.(Block.Keys) opts with
          | inl e => inl e
          | inr hs => inr (sort_handlers hs)
          end
      end
  end.

Definition Name : string := EncryptionProviderType_String EncryptionProviderLUKS2.

(** [errs]: what [multierror.Append] collected. *)
Fixpoint try_each {A} (cb : Handler (W:=W) → io A) (hs : EncHandler) (errs : list error) : io (Handler (W:=W) * A) :=
  match hs with
  | [] =>
      throw (Errorf "no handlers available to get encryption keys from: %w"
               [Wrapped (Errorf "multierror" (Wrapped <$> errs))])
  | h :: hs =>
      r ← try (cb h);
      match r with
      | inl e => try_each cb hs (errs ++ [e])
      | inr a => mret (h, a)
      end
  end.

Definition tryHandlers {A} (h : EncHandler) (cb : Handler (W:=W) → io A) : io (Handler (W:=W) * A) :=
  match h with
  | [] => throw (Errorf "no encryption keys found" [])
  | _ => try_each cb h []
  end.

Definition ErrTokenNotFound : string := "token not found".
Definition ErrDeviceNotReady : string := "device not ready".

Definition readToken (path : string) (id : Z) : io (option Token) :=
  r ← try (query (luks_ReadToken path id) silent);
  match r with
  | inl e => if errors_Is ErrTokenNotFound e then mret None else throw e
  | inr (type, userData) =>
      if String.eqb type TokenTypeKMS then
        t ← of_result (unmarshal_KMS userData); mret (Some (TokenKMS t))
      else if String.eqb type TokenTypeTPM then
        t ← of_result (unmarshal_TPM userData); mret (Some (TokenTPM t))
      else throw (Errorf "unknown token type %s" [Str type])
  end.

Definition encode_token (t : Token) : string * string :=
  match t with
  | TokenKMS t => (TokenTypeKMS, marshal_KMS t)
  | TokenTPM t => (TokenTypeTPM, marshal_TPM t)
  end.

Definition set_token (path : string) (slot : Z) (t : option Token) : io () :=
  match t with
  | None => mret ()
  | Some t => call (luks_SetToken path slot (encode_token t)) (λ _, [EvSetToken path slot])
  end.

Definition addKey (path : string) (existingKey : option Key) (handler : Handler (W:=W)) : io () :=
  '(key, token) ← NewKey handler;
  _ ← set_token path key.(Slot) token;
  wrapf "failed to add new key during key update %w"
    (call (luks_AddKey path existingKey key) (λ err, [EvAddKey path key.(Slot) (succeeded err)])).

Definition checkKey (path : string) (handler : Handler (W:=W)) : io bool :=
  token ← readToken path (Handler_Slot handler);
  r ← try (GetKey handler token);
  match r with
  | inl e => if errors_Is "invalid token" e then mret false else throw e
  | inr key => query (luks_CheckKey path key) silent
  end.

Definition removeKey (path : string) (slot : Z) (k : option Key) : io () :=
  call (luks_RemoveKey path slot k) (λ err, [EvRemoveKey path slot (succeeded err)]).

Definition updateKey (path : string) (existingKey : option Key) (handler : Handler (W:=W)) : io () :=
  valid ← checkKey path handler;
  if valid : bool then mret () else
  _ ← wrapf "failed to drop old key during key update %w"
        (removeKey path (Handler_Slot handler) existingKey);
  wrapf "failed to add new key during key update %w" (addKey path existingKey handler).

(** One handler of the loop of [syncKeys]: the failed syncs it appends. *)
Definition sync_handler (path : string) (k : option Key) (keyslots : list string) (handler : Handler (W:=W))
    : io (list error) :=
  let slot := Itoa (Handler_Slot handler) in
  if match k with Some k => k.(Slot) =? Handler_Slot handler | None => false end then mret []
  else if bool_decide (slot ∈ keyslots) then
    r ← try (updateKey path k handler);
    match r with
    | inl e => mret [Errorf "error updating key slot %s %T: %s" [Str slot; Printed e]]
    | inr _ => mret []
    end
  else
    r ← try (addKey path k handler);
    match r with
    | inl e => mret [Errorf "error adding key slot %s %T: %s" [Str slot; Printed e]]
    | inr _ => mret []
    end.

(** One slot of the clean-up loop; after a removal the log line reads the slot of [k]. *)
Definition sync_slot (path : string) (k : option Key) (visited : list string) (slot : string)
    : io (list error) :=
  if bool_decide (slot ∈ visited) then mret [] else
  match ParseInt slot with
  | None => throw (Sentinel "strconv.ParseInt")
  | Some s =>
      r ← try (removeKey path s k);
      match r with
      | inl e => mret [Errorf "error removing key slot %s: %s" [Str slot; Printed e]]
      | inr _ => match k with None => lift (Panic NilDereference) | Some _ => mret [] end
      end
  end.

Fixpoint collect {A B} (f : A → io (list B)) (l : list A) : io (list B) :=
  match l with
  | [] => mret []
  | x :: l => a ← f x; b ← collect f l; mret (a ++ b)
  end.

Definition syncKeys (h : EncHandler) (path : string) (k : option Key) : io (list error) :=
  keyslots ← query (luks_ReadKeyslots path) (λ slots, [EvReadKeyslots path slots]);
  failed ← collect (sync_handler path k keyslots) h;
  let visited := (λ handler, Itoa (Handler_Slot handler)) <$> h in
  failed' ← collect (sync_slot path k visited) keyslots;
  mret (failed ++ failed').

(** The attempt of [Open] with one handler: the path and the key. *)
Definition open_with (devicePath mappedName : string) (handler : Handler (W:=W)) : io (string * Key) :=
  slotToken ← readToken devicePath (Handler_Slot handler);
  slotKey ← GetKey handler slotToken;
  path ← query (luks_Open devicePath mappedName slotKey) (λ _, [EvOpen devicePath mappedName]);
  mret (path, slotKey).

(** [Open]: the result reads the slot of the used key, which is nil when the device was
    open already. *)
Definition Open (h : EncHandler) (devicePath mappedName : string) : io (string * Z * list error) :=
  '(isOpen, path) ← query (luks_IsOpen devicePath mappedName) silent;
  '(path, usedKey) ←
    (if isOpen : bool then mret (path, None) else
       '(_, (path, key)) ← tryHandlers h (open_with devicePath mappedName);
       mret (path, Some key));
  failedSyncs ← syncKeys h devicePath usedKey;
  match usedKey with
  | None => lift (Panic NilDereference)
  | Some key => mret (path, key.(Slot), failedSyncs)
  end.

Definition Close (encryptedPath : string) : io () :=
  r ← try (call (luks_Close encryptedPath) (λ _, [EvClose encryptedPath]));
  match r with
  | inr _ => mret ()
  | inl e =>
      if errors_Is ErrDeviceNotReady e then mret ()
      else throw (Errorf "error closing %s: %w" [Str encryptedPath; Wrapped e])
  end.

Definition FormatAndEncrypt (h : EncHandler) (path : string) : io () :=
  '(_, (key, token)) ← tryHandlers h NewKey;
  _ ← call (luks_Encrypt path key) (λ err, [EvEncrypt path key.(Slot) (succeeded err)]);
  _ ← set_token path key.(Slot) token;
  for_each (λ handler,
    if Handler_Slot handler =? key.(Slot) then mret () else addKey path (Some key) handler) h.

(** ** What a log says about the key slots of a volume *)

Definition key_event (path : string) (slots : gset Z) (ev : event) : gset Z :=
  match ev with
  | EvReadKeyslots p names => if String.eqb p path then list_to_set (omap ParseInt names) else slots
  | EvEncrypt p slot true => if String.eqb p path then {[slot]} else slots
  | EvAddKey p slot true => if String.eqb p path then {[slot]} ∪ slots else slots
  | EvRemoveKey p slot true => if String.eqb p path then slots ∖ {[slot]} else slots
  | _ => slots
  end.
Definition replay (path : string) (t : list event) (slots : gset Z) : gset Z :=
  foldl (key_event path) slots t.

(** The call leaves the key in [slot] alone. *)
Definition spares (path : string) (slot : Z) (ev : event) : Prop :=
  match ev with
  | EvSetToken p s | EvAddKey p s _ | EvRemoveKey p s _ => p = path → s ≠ slot
  | EvEncrypt p _ _ => p ≠ path
  | _ => True
  end.

(** The slots of a volume are named by their numbers, as in the header of a LUKS2 volume. *)
Definition canonical (names : list string) : Prop :=
  Forall (λ name, ∃ n, ParseInt name = Some n ∧ name = Itoa n) names.

Definition slots_of (h : EncHandler) : gset Z := list_to_set (Handler_Slot <$> h).

Lemma replay_app path t t' S : replay path (t ++ t') S = replay path t' (replay path t S).
Proof. apply foldl_app. Qed.

Lemma elem_of_slots_of n (h : EncHandler) : n ∈ slots_of h ↔ ∃ x, x ∈ h ∧ Handler_Slot x = n.
Proof.
  unfold slots_of. rewrite elem_of_list_to_set, list_elem_of_fmap. split; intros (x & ? & ?); eauto.
Qed.

(** [logs c s Q]: if [c] returns, what it logged and its result satisfy [Q]. *)
Definition logs {A} (c : io A) (s : env W) (Q : list event → error + A → Prop) : Prop :=
  ensures c s (λ s' r, ∃ t, s'.(trace) = s.(trace) ++ t ∧ Q t r).

Lemma logs_mono {A} (c : io A) s (Q Q' : list event → error + A → Prop) :
  (∀ t r, Q t r → Q' t r) → logs c s Q → logs c s Q'.
Proof. intros HQ. apply ensures_mono. intros s' r (t & ? & ?). eauto. Qed.

Lemma logs_bind {A B} (c : io A) (f : A → io B) s Q :
  logs c s (λ t r, match r with
    | inl e => Q t (inl e)
    | inr a => ∀ s', logs (f a) s' (λ t' r', Q (t ++ t') r')
    end) →
  logs (c ≫= f) s Q.
Proof.
  intros Hc. apply ensures_bind. eapply ensures_mono; [|apply Hc].
  intros s1 [e|a] (t & Ht & HQ); [eauto|]. eapply ensures_mono; [|apply (HQ s1)].
  intros s2 r (t' & Ht' & HQ'). exists (t ++ t'). rewrite Ht', Ht, app_assoc. eauto.
Qed.

Lemma logs_ret {A} (a : A) s Q : Q [] (inr a) → logs (mret a) s Q.
Proof. intros. apply ensures_ret. exists []. by rewrite app_nil_r. Qed.
Lemma logs_throw {A} e s (Q : _ → error + A → Prop) : Q [] (inl e) → logs (throw e) s Q.
Proof. intros. apply ensures_throw. exists []. by rewrite app_nil_r. Qed.
Lemma logs_quiet {A} (c : io A) s (Q : error + A → Prop) :
  quiet c → ensures c s (λ _ r, Q r) → logs c s (λ t r, t = [] ∧ Q r).
Proof.
  intros Hc HQ. eapply ensures_mono; [|apply (ensures_and _ _ _ _ (Hc s) HQ)].
  intros s' r [Ht ?]. exists []. by rewrite app_nil_r.
Qed.
Lemma logs_quiet_any {A} (c : io A) s : quiet c → logs c s (λ t r, t = []).
Proof. intros Hc. eapply ensures_mono; [|apply Hc]. intros s' r ?. exists []. by rewrite app_nil_r. Qed.
Lemma logs_map_err {A} f (c : io A) s Q :
  logs c s (λ t r, Q t (match r with inl e => inl (f e) | inr a => inr a end)) →
  logs (map_err f c) s Q.
Proof. intros HQ. apply ensures_map_err. exact HQ. Qed.
Lemma logs_try {A} (c : io A) s Q : logs c s (λ t r, Q t (inr r)) → logs (try c : io (error + A)) s Q.
Proof. intros HQ. apply ensures_try. exact HQ. Qed.
Lemma logs_call f ev s Q :
  (∀ err, Q (ev err) (match err with Some e => inl e | None => inr () end)) → logs (call f ev) s Q.
Proof. intros HQ. apply ensures_call. intros w err _. simpl. by exists (ev err). Qed.
Lemma logs_query_eq {A} (f : W → W * (error + A)) ev s Q :
  (∀ r, (f s.(world)).2 = r → Q (match r with inl _ => [] | inr a => ev a end) r) →
  logs (query f ev) s Q.
Proof. intros HQ. apply ensures_query. intros w r Hr. simpl. eexists. split; [done|]. apply HQ. by rewrite Hr. Qed.
Lemma logs_query {A} (f : W → W * (error + A)) ev s Q :
  (∀ r, Q (match r with inl _ => [] | inr a => ev a end) r) → logs (query f ev) s Q.
Proof. intros HQ. apply ensures_query. intros w r _. simpl. by eexists. Qed.

(** The same for calls that succeed. *)
Definition logs_ok {A} (c : io A) (s : env W) (Q : list event → A → Prop) : Prop :=
  ensures c s (λ s' r, match r with inr a => ∃ t, s'.(trace) = s.(trace) ++ t ∧ Q t a | inl _ => True end).

Lemma logs_ok_bind {A B} (c : io A) (f : A → io B) s Q :
  logs_ok c s (λ t a, ∀ s', logs_ok (f a) s' (λ t' b, Q (t ++ t') b)) → logs_ok (c ≫= f) s Q.
Proof.
  intros Hc. apply ensures_bind. eapply ensures_mono; [|apply Hc].
  intros s1 [e|a]; [done|]. intros (t & Ht & HQ). eapply ensures_mono; [|apply (HQ s1)].
  intros s2 [e|b]; [done|]. intros (t' & Ht' & HQ'). exists (t ++ t'). by rewrite Ht', Ht, app_assoc.
Qed.
Lemma logs_ok_of {A} (c : io A) s Q (Q' : list event → A → Prop) :
  logs c s Q → (∀ t a, Q t (inr a) → Q' t a) → logs_ok c s Q'.
Proof.
  intros Hc HQ. eapply ensures_mono; [|apply Hc]. intros s' [e|a] (t & ? & ?); [done|]. eauto.
Qed.
Lemma logs_ok_for_each {A} (f : A → io ()) (P : list A → list event → Prop) l s :
  (∀ done x t, x ∈ l → P done t → ∀ s, logs_ok (f x) s (λ t' _, P (done ++ [x]) (t ++ t'))) →
  P [] [] → logs_ok (for_each f l) s (λ t _, P l t).
Proof.
  intros Hstep HP.
  enough (∀ done t, P done t → ∀ s, logs_ok (for_each f l) s (λ t' _, P (done ++ l) (t ++ t'))) as Hgen
    by exact (Hgen [] [] HP s).
  clear s HP. induction l as [|x l IH]; intros done t HP s; cbn [for_each].
  { apply ensures_ret. exists []. by rewrite !app_nil_r. }
  apply logs_ok_bind. eapply ensures_mono; [|apply (Hstep done x t); [left|done]].
  intros s' [e|[]]; [done|]. intros (t1 & Ht1 & H1). exists t1. split; [done|]. intros s1.
  eapply ensures_mono; [|apply (IH (λ done y t Hy, Hstep done y t ltac:(by right)) _ _ H1)].
  intros s2 [e|[]]; [done|]. intros (t2 & Ht2 & H2). exists t2. split; [done|].
  rewrite (app_assoc t), (cons_middle x done l), (app_assoc done). done.
Qed.

Lemma logs_collect {A B} (f : A → io (list B)) (P : list A → list B → list event → Prop) (R : Prop) l s :
  (∀ done x bs t, x ∈ l → P done bs t →
     ∀ s, logs (f x) s (λ t' r, match r with inr b => P (done ++ [x]) (bs ++ b) (t ++ t') | inl _ => R end)) →
  P [] [] [] →
  logs (collect f l) s (λ t r, match r with inr bs => P l bs t | inl _ => R end).
Proof.
  intros Hstep HP.
  enough (∀ done bs t, P done bs t →
    ∀ s, logs (collect f l) s (λ t' r,
      match r with inr b => P (done ++ l) (bs ++ b) (t ++ t') | inl _ => R end)) as Hgen
    by exact (Hgen [] [] [] HP s).
  clear s HP. induction l as [|x l IH]; intros done bs t HP s; cbn [collect].
  { apply logs_ret. by rewrite !app_nil_r. }
  apply logs_bind. eapply logs_mono; [|apply (Hstep done x bs t); [left|done]].
  intros t1 [e|b1] H1; [done|]. intros s1. apply logs_bind.
  eapply logs_mono; [|apply (IH (λ done y bs t Hy, Hstep done y bs t ltac:(by right)) _ _ _ H1)].
  intros t2 [e|b2]; [done|]. intros H2 s2. apply logs_ret.
  rewrite !app_nil_r, (app_assoc bs), (app_assoc t), (cons_middle x done l), (app_assoc done). done.
Qed.

(** ** Handlers and slots *)

Section slots.
Context (path : string).

(** Only slot [n] of the volume changes. *)
Definition touches (n : Z) (t : list event) : Prop :=
  (∀ S m, m ≠ n → (m ∈ replay path t S ↔ m ∈ S)) ∧ (∀ m, m ≠ n → Forall (spares path m) t).

Lemma touches_nil n : touches n [].
Proof. done. Qed.
Lemma touches_app n t t' : touches n t → touches n t' → touches n (t ++ t').
Proof.
  intros [H1 H2] [H1' H2']. split.
  - intros S m Hm. by rewrite replay_app, H1', H1.
  - intros m Hm. apply Forall_app; auto.
Qed.

Lemma quiet_readToken p n : quiet (readToken p n).
Proof.
  unfold readToken. apply quiet_bind; [apply quiet_try, quiet_query|].
  intros [e|[ty d]]; repeat case_match; eauto using quiet_ret, quiet_throw, quiet_bind, quiet_of_result.
Qed.

Lemma quiet_checkKey p h : quiet_handler h → quiet (checkKey p h).
Proof.
  intros Hh. unfold checkKey. apply quiet_bind; [apply quiet_readToken|]. intros t.
  apply quiet_bind; [by apply quiet_try, quiet_GetKey|].
  intros [e|k]; [case_match|]; eauto using quiet_ret, quiet_throw, quiet_query.
Qed.

Lemma set_token_logs n t s :
  logs (set_token path n t) s (λ t _, touches n t ∧ ∀ S, replay path t S = S).
Proof.
  unfold set_token. destruct t as [tk|]; [|by apply logs_ret]. apply logs_call. intros err.
  split; [split|done]; [done|]. intros m Hm. apply Forall_singleton. intros _. congruence.
Qed.

Lemma replay_add n ok S : replay path [EvAddKey path n ok] S = if ok then {[n]} ∪ S else S.
Proof. unfold replay. simpl. by rewrite String.eqb_refl. Qed.
Lemma replay_remove n ok S : replay path [EvRemoveKey path n ok] S = if ok then S ∖ {[n]} else S.
Proof. unfold replay. simpl. by rewrite String.eqb_refl. Qed.

Lemma addKey_logs k h s : quiet_handler h →
  logs (addKey path k h) s (λ t r, touches (Handler_Slot h) t ∧
    match r with inr _ => ∀ S, Handler_Slot h ∈ replay path t S | inl _ => True end).
Proof.
  intros Hh. unfold addKey. apply logs_bind.
  eapply logs_mono; [|apply (logs_quiet _ _ _ (quiet_NewKey h Hh) (NewKey_slot h s))].
  intros t [e|[key token]] [-> Hk]; [done|]. intros s1. rewrite <-Hk.
  apply logs_bind. eapply logs_mono; [|apply set_token_logs].
  intros t [e|[]] (Ht & HS); [done|]. intros s2.
  apply logs_map_err, logs_call. intros err.
  assert (touches (Slot key) [EvAddKey path (Slot key) (succeeded err)]) as Hadd.
  { split; [intros S m Hm; rewrite replay_add; destruct err; set_solver|]. intros m Hm. apply Forall_singleton. intros _. congruence. }
  rewrite !app_nil_l. split.
  - by apply touches_app.
  - destruct err as [e|]; [done|]. intros S. rewrite replay_app, replay_add. set_solver.
Qed.

Lemma removeKey_logs n k s :
  logs (removeKey path n k) s (λ t r, ∃ ok, t = [EvRemoveKey path n ok] ∧
    (r = inr () → ok = true)).
Proof. apply logs_call. intros err. eexists. split; [done|]. by destruct err. Qed.

Lemma touches_remove n ok : touches n [EvRemoveKey path n ok].
Proof.
  split.
  - intros S m Hm. rewrite replay_remove. destruct ok; set_solver.
  - intros m Hm. repeat constructor. intros _. congruence.
Qed.

Lemma updateKey_logs k h s : quiet_handler h →
  logs (updateKey path k h) s (λ t r, touches (Handler_Slot h) t ∧
    match r with
    | inr _ => ∀ S, Handler_Slot h ∈ S → Handler_Slot h ∈ replay path t S
    | inl _ => True
    end).
Proof.
  intros Hh. unfold updateKey. apply logs_bind.
  eapply logs_mono; [|by apply logs_quiet_any, quiet_checkKey].
  intros t [e|[|]] ->; [done| |]; intros s1; [by apply logs_ret|].
  apply logs_bind, logs_map_err. eapply logs_mono; [|apply removeKey_logs].
  intros t [e|[]] (ok & -> & Hok); [split; [apply touches_remove|done]|].
  intros s2. apply logs_map_err. eapply logs_mono; [|by apply addKey_logs].
  intros t r (Ht & Hr). rewrite app_nil_l. split.
  - apply touches_app; [apply touches_remove|done].
  - destruct r as [e|[]]; [done|]. intros S _. rewrite replay_app. apply Hr.
Qed.

Lemma sync_handler_logs k names h s : quiet_handler h →
  logs (sync_handler path (Some k) names h) s (λ t r, touches (Handler_Slot h) t ∧
    Forall (spares path k.(Slot)) t ∧
    match r with
    | inr bs => bs = [] → Handler_Slot h = k.(Slot) ∨
        ∀ S, (Itoa (Handler_Slot h) ∈ names → Handler_Slot h ∈ S) → Handler_Slot h ∈ replay path t S
    | inl _ => False
    end).
Proof.
  intros Hh. unfold sync_handler. destruct (Z.eqb_spec (Slot k) (Handler_Slot h)) as [Hk|Hk].
  { apply logs_ret. eauto using touches_nil. }
  assert (∀ t, touches (Handler_Slot h) t → Forall (spares path (Slot k)) t) as Hsp
    by (intros t [_ Ht]; by apply Ht).
  case_bool_decide as Hin.
  - apply logs_bind, logs_try. eapply logs_mono; [|by apply updateKey_logs].
    intros t [e|[]] [Ht Hr] s1; apply logs_ret; rewrite app_nil_r; split_and!; auto; try done.
  - apply logs_bind, logs_try. eapply logs_mono; [|by apply addKey_logs].
    intros t [e|[]] (Ht & Hr) s1; apply logs_ret; rewrite app_nil_r; split_and!; auto; try done.
Qed.

Lemma sync_slot_logs k visited name s :
  logs (sync_slot path (Some k) visited name) s (λ t r,
    if bool_decide (name ∈ visited) then t = [] ∧ r = inr []
    else ∀ n, ParseInt name = Some n →
      ∃ ok bs, t = [EvRemoveKey path n ok] ∧ r = inr bs ∧ (bs = [] → ok = true)).
Proof.
  unfold sync_slot. case_bool_decide; [by apply logs_ret|].
  destruct (ParseInt name) as [n|]; [|by apply logs_throw].
  apply logs_bind, logs_try. eapply logs_mono; [|apply removeKey_logs].
  intros t r (ok & -> & Hok) s1. destruct r as [e|[]]; apply logs_ret; intros ? [= <-];
    eexists ok, _; rewrite app_nil_r; split_and!; try done. auto.
Qed.

(** ** Synchronising the keys *)

Section sync.
Context (h : EncHandler) (k : Key) (names : list string).
Context (Hquiet : Forall quiet_handler h) (Hk : k.(Slot) ∈ slots_of h).
Context (Hnames : canonical names).
Let S0 : gset Z := list_to_set (omap ParseInt names).

Lemma names_S0 n : n ∈ S0 ↔ Itoa n ∈ names.
Proof.
  unfold S0. rewrite elem_of_list_to_set, list_elem_of_omap. unfold canonical in Hnames.
  rewrite Forall_forall in Hnames. split.
  - intros (name & Hin & Hn). destruct (Hnames _ Hin) as (m & Hm & ->). by simplify_eq.
  - intros Hin. destruct (Hnames _ Hin) as (m & Hm & Heq%(inj Itoa)). subst. eauto.
Qed.

Definition after_handlers (done : list (Handler (W:=W))) (failed : list error) (t : list event) : Prop :=
  Forall (spares path k.(Slot)) t ∧
  (∀ m, m ∉ Handler_Slot <$> done → (m ∈ replay path t S0 ↔ m ∈ S0)) ∧
  (failed = [] → ∀ x, x ∈ done → Handler_Slot x = k.(Slot) ∨ Handler_Slot x ∈ replay path t S0).

Lemma after_handlers_step done failed t x t' bs :
  after_handlers done failed t → touches (Handler_Slot x) t' → Forall (spares path k.(Slot)) t' →
  (bs = [] → Handler_Slot x = k.(Slot) ∨
     ∀ S, (Itoa (Handler_Slot x) ∈ names → Handler_Slot x ∈ S) → Handler_Slot x ∈ replay path t' S) →
  after_handlers (done ++ [x]) (failed ++ bs) (t ++ t').
Proof.
  intros (Hsp & Hout & Hin) Ht' Hsp' Hx. split_and!.
  - by apply Forall_app.
  - intros m. rewrite fmap_app, not_elem_of_app, replay_app. intros [Hm Hm'].
    rewrite (proj1 Ht') by set_solver. by apply Hout.
  - intros [-> ->]%app_nil y. rewrite replay_app.
    assert (Hstep : ∀ z, Handler_Slot z = k.(Slot) ∨ (z ∈ done ∨ z = x) →
      Handler_Slot z = Slot k ∨ Handler_Slot z ∈ replay path t' (replay path t S0)).
    { intros z Hz. destruct (decide (Handler_Slot z = k.(Slot))) as [|Hzk]; [by left|right].
      destruct Hz as [|Hz]; [done|]. destruct (decide (Handler_Slot z = Handler_Slot x)) as [Heq|Hne].
      - rewrite Heq in *. destruct (Hx eq_refl) as [|Hxt]; [done|]. apply Hxt. intros Hi.
        destruct (decide (Handler_Slot x ∈ Handler_Slot <$> done)) as [Hd|Hd].
        + apply list_elem_of_fmap in Hd as (y' & Hy' & Hd). rewrite Hy'.
          destruct (Hin eq_refl y' Hd) as [Hu|Hu]; congruence.
        + rewrite Hout by done. by apply names_S0.
      - rewrite (proj1 Ht') by done. destruct Hz as [Hz| ->]; [|done].
        by destruct (Hin eq_refl z Hz). }
    intros [Hy|Hy%list_elem_of_singleton]%elem_of_app; apply Hstep; auto.
Qed.

(** The clean-up loop starts from the slots [S1] the first loop left. *)
Context (S1 : gset Z).

Definition after_slots (done : list string) (failed : list error) (t : list event) : Prop :=
  Forall (spares path k.(Slot)) t ∧
  (∀ m, m ∈ slots_of h → (m ∈ replay path t S1 ↔ m ∈ S1)) ∧
  (∀ m, m ∈ replay path t S1 → m ∈ S1) ∧
  (failed = [] → ∀ m, Itoa m ∈ done → m ∈ replay path t S1 → m ∈ slots_of h).

Let visited := (λ handler : Handler (W:=W), Itoa (Handler_Slot handler)) <$> h.

Lemma elem_of_visited n : Itoa n ∈ visited ↔ n ∈ slots_of h.
Proof.
  unfold visited. rewrite list_elem_of_fmap, elem_of_slots_of. split.
  - intros (x & ->%(inj Itoa) & Hx). eauto.
  - intros (x & Hx & <-). eauto.
Qed.

Lemma after_slots_step done name failed t s :
  name ∈ names → after_slots done failed t →
  logs (sync_slot path (Some k) visited name) s (λ t' r,
    match r with inr bs => after_slots (done ++ [name]) (failed ++ bs) (t ++ t') | inl _ => False end).
Proof.
  intros Hname (Hsp & Hin & Hsub & Hout). eapply logs_mono; [|apply sync_slot_logs]. simpl.
  pose proof Hnames as Hc. unfold canonical in Hc. rewrite Forall_forall in Hc.
  destruct (Hc _ Hname) as (n & Hparse & ->). intros t' r.
  case_bool_decide as Hv; [intros [-> ->]|intros H; destruct (H _ Hparse) as (ok & bs & -> & -> & Hok)].
  - rewrite !app_nil_r. split_and!; try done. intros Hf m Hm. apply elem_of_app in Hm as [Hm|Hm]; [by apply Hout|].
    apply list_elem_of_singleton, (inj Itoa) in Hm. subst. intros _. by apply elem_of_visited.
  - rewrite elem_of_visited in Hv. unfold after_slots. rewrite !replay_app, !replay_remove. split_and!.
    + apply Forall_app; split; [done|]. repeat constructor. intros _. congruence.
    + intros m Hm. rewrite <-Hin by done. destruct ok; [|done]. rewrite elem_of_difference, elem_of_singleton.
      split; [by intros []|]. intros Hm'. split; [done|]. congruence.
    + intros m Hm. apply Hsub. destruct ok; set_solver.
    + intros [-> ->]%app_nil m. rewrite Hok by done. rewrite elem_of_difference, elem_of_app, not_elem_of_singleton.
      intros [Hm|Hm%list_elem_of_singleton%(inj Itoa)] [Hm' ?]; [by apply Hout|congruence].
Qed.
End sync.

(** The provider's answer names slots by numbers. *)
Definition keyslot_names : Prop := ∀ w,
  match (luks_ReadKeyslots path w).2 with inr names => canonical names | inl _ => True end.

Lemma syncKeys_logs h k s :
  keyslot_names → Forall quiet_handler h → k.(Slot) ∈ slots_of h →
  logs (syncKeys h path (Some k)) s (λ t r,
    Forall (spares path k.(Slot)) t ∧
    (r = inr [] → ∀ S, slots_of h ∖ {[k.(Slot)]} ⊆ replay path t S ∧ replay path t S ⊆ slots_of h)).
Proof.
  intros Hn Hq Hk. unfold syncKeys. apply logs_bind, logs_query_eq. intros [e|names] Hr; [done|]. intros s1.
  pose proof (Hn (world s)) as Hc. rewrite Hr in Hc. apply logs_bind.
  eapply logs_mono; [|apply (logs_collect _ (after_handlers k names) False)].
  2: { intros done failed x t Hx Hd s2. eapply logs_mono; [|apply sync_handler_logs].
       - intros t' [e|bs] (Ht & Hsp & Hb); [done|]. eapply after_handlers_step; done.
       - rewrite Forall_forall in Hq. by apply Hq. }
  2: { split_and!; [done|done|]. intros _ x Hx. by apply elem_of_nil in Hx. }
  intros t [e|failed] H1; [done|]. intros s2. destruct H1 as (Hsp1 & Hout1 & Hin1). apply logs_bind.
  set (S0 := list_to_set (omap ParseInt names)) in *.
  eapply logs_mono; [|apply (logs_collect _ (after_slots h k (replay path t S0)) False)].
  2: { intros done failed' x t' Hx Hd s3. by apply (after_slots_step h k names). }
  2: { split_and!; try done. intros _ m Hm. by apply elem_of_nil in Hm. }
  intros t' [e|failed'] H2; [done|]. destruct H2 as (Hsp2 & Hin2 & Hsub2 & Hout2).
  intros s3. apply logs_ret. rewrite app_nil_r. split.
  { repeat apply Forall_app_2; try done. by repeat constructor. }
  intros [= [-> ->]%app_nil] S. rewrite !replay_app.
  replace (replay path [EvReadKeyslots path names] S) with S0
    by (unfold replay; simpl; by rewrite String.eqb_refl).
  split.
  - intros m Hm%elem_of_difference. destruct Hm as [Hm Hmk%not_elem_of_singleton].
    apply Hin2; [done|]. apply elem_of_slots_of in Hm as (x & Hx & <-).
    by destruct (Hin1 eq_refl x Hx).
  - intros m Hm. destruct (decide (m ∈ slots_of h)) as [|Hns]; [done|].
    apply (Hout2 eq_refl); [|done]. apply (names_S0 names Hc), Hout1; [|by apply Hsub2].
    intros Hf. apply Hns. unfold slots_of. by rewrite elem_of_list_to_set.
Qed.

(** ** Opening and formatting *)

(** Only attempts to open: the slots do not change. *)
Definition only_opens (t : list event) : Prop :=
  Forall (λ ev, match ev with EvOpen _ _ => True | _ => False end) t.

Lemma only_opens_replay t S : only_opens t → replay path t S = S.
Proof.
  intros Ht. revert S. induction Ht as [|ev t Hev Ht IH]; intros S; [done|].
  change (replay path t (key_event path S ev) = S). rewrite IH. by destruct ev.
Qed.
Lemma only_opens_spares t m : only_opens t → Forall (spares path m) t.
Proof. intros Ht. eapply Forall_impl; [exact Ht|]. by intros []. Qed.

Lemma try_each_logs {A} (cb : Handler → io A) hs errs s (Q : Handler → list event → A → Prop) :
  (∀ x s, x ∈ hs → logs (cb x) s (λ t r, only_opens t ∧ match r with inr a => Q x t a | inl _ => True end)) →
  logs (try_each cb hs errs) s (λ t r, only_opens t ∧
    match r with inr (x, a) => x ∈ hs ∧ ∃ t1 t2, t = t1 ++ t2 ∧ Q x t2 a | inl _ => True end).
Proof.
  intros Hcb. revert errs s. induction hs as [|x hs IH]; intros errs s; cbn [try_each].
  { apply logs_throw. split; [constructor|done]. }
  apply logs_bind, logs_try. eapply logs_mono; [|apply Hcb; left].
  intros t [e|a] [Ht HQ] s1.
  - eapply logs_mono; [|apply IH; intros; apply Hcb; by right].
    intros t' r [Ht' Hr]. split; [by apply Forall_app|]. destruct r as [|[y a]]; [done|].
    destruct Hr as (Hy & t1 & t2 & -> & Hr). split; [by right|]. exists (t ++ t1), t2. by rewrite app_assoc.
  - apply logs_ret. rewrite app_nil_r. split; [done|]. split; [left|]. by exists [], t.
Qed.

Lemma tryHandlers_logs {A} (h : EncHandler) (cb : Handler → io A) s (Q : Handler → list event → A → Prop) :
  (∀ x s, x ∈ h → logs (cb x) s (λ t r, only_opens t ∧ match r with inr a => Q x t a | inl _ => True end)) →
  logs (tryHandlers h cb) s (λ t r, only_opens t ∧
    match r with inr (x, a) => x ∈ h ∧ ∃ t1 t2, t = t1 ++ t2 ∧ Q x t2 a | inl _ => True end).
Proof.
  intros Hcb. unfold tryHandlers. destruct h; [|by apply try_each_logs].
  apply logs_throw. split; [constructor|done].
Qed.

Lemma open_with_logs mapped x s : quiet_handler x →
  logs (open_with path mapped x) s (λ t r, only_opens t ∧
    match r with inr (_, k) => k.(Slot) = Handler_Slot x ∧ t = [EvOpen path mapped] | inl _ => True end).
Proof.
  intros Hx. unfold open_with. apply logs_bind.
  eapply logs_mono; [|apply logs_quiet_any, quiet_readToken]. intros t [e|token] ->; [by split; [constructor|]|].
  intros s1. apply logs_bind.
  eapply logs_mono; [|apply (logs_quiet _ _ _ (quiet_GetKey x token Hx) (GetKey_slot x token s1))].
  intros t [e|k] [-> Hk]; [by split; [constructor|]|]. intros s2.
  apply logs_bind, logs_query. intros [e|p]; [by split; [constructor|]|].
  intros s3. apply logs_ret. split; [by repeat constructor|done].
Qed.

(** A device that is open already is never given back: the result reads the slot of a key
    nobody has. *)
Lemma Open_already_open_lemma (h : EncHandler) mapped s w p :
  luks_IsOpen path mapped (world s) = (w, inr (true, p)) →
  ensures (Open h path mapped) s (λ _ r, ∃ e, r = inl e).
Proof.
  intros Hopen. unfold Open. apply ensures_bind, ensures_query. intros w' r'. rewrite Hopen.
  intros [= <- <-]. apply ensures_bind, ensures_ret. apply ensures_bind.
  intros s' [e|failed] _; [eauto|]. apply ensures_lift. done.
Qed.

Lemma Open_ok (h : EncHandler) mapped s :
  keyslot_names → Forall quiet_handler h →
  logs_ok (Open h path mapped) s (λ t '(_, slot, failed),
    slot ∈ slots_of h ∧ EvOpen path mapped ∈ t ∧ Forall (spares path slot) t ∧
    (failed = [] → ∀ S, slots_of h ∖ {[slot]} ⊆ replay path t S ∧ replay path t S ⊆ slots_of h)).
Proof.
  intros Hn Hq. unfold Open. apply logs_ok_bind.
  eapply logs_ok_of; [by apply (logs_quiet_any _ _ (quiet_query _))|].
  intros t [isOpen p] ->. intros s1. apply logs_ok_bind. destruct isOpen.
  { apply ensures_ret. exists []. rewrite app_nil_r. split; [done|]. intros s2. apply ensures_bind.
    intros s3 [e|failed] _; [done|]. by apply ensures_lift. }
  apply logs_ok_bind. eapply logs_ok_of.
  { apply (tryHandlers_logs h (open_with path mapped)). intros x s2 Hx. apply open_with_logs.
    rewrite Forall_forall in Hq. by apply Hq. }
  intros t1 [x [p' k]] (Ho1 & Hx & ta & tb & -> & Hk & ->). intros s2.
  apply ensures_ret. exists []. rewrite app_nil_r. split; [done|]. intros s3.
  apply logs_ok_bind. eapply logs_ok_of; [apply syncKeys_logs; [done|done|]|].
  { rewrite Hk. apply elem_of_slots_of. eauto. }
  intros t2 failed [Hsp Hr]. intros s4. apply ensures_ret. exists []. rewrite !app_nil_r.
  split; [done|]. split_and!.
  - rewrite Hk. apply elem_of_slots_of. eauto.
  - set_solver.
  - simpl. apply Forall_app; split; [by apply only_opens_spares|done].
  - intros -> S. rewrite app_nil_l, replay_app, (only_opens_replay _ _ Ho1). by apply Hr.
Qed.

Lemma FormatAndEncrypt_ok (h : EncHandler) s :
  Forall quiet_handler h →
  logs_ok (FormatAndEncrypt h path) s (λ t _, ∀ S, replay path t S = slots_of h).
Proof.
  intros Hq. unfold FormatAndEncrypt. rewrite Forall_forall in Hq. apply logs_ok_bind. eapply logs_ok_of.
  { apply (tryHandlers_logs h NewKey _ (λ x t '(k, _), k.(Slot) = Handler_Slot x)). intros x s1 Hx.
    eapply logs_mono; [|apply (logs_quiet _ _ _ (quiet_NewKey x (Hq _ Hx)) (NewKey_slot x s1))].
    intros t r [-> Hr]. split; [constructor|]. by destruct r as [|[]]. }
  intros t1 [x [k token]] (Ho & Hx & _ & _ & _ & Hk). intros s1.
  apply logs_ok_bind. eapply logs_ok_of.
  { apply (logs_call _ _ _ (λ t r, ∃ ok, t = [EvEncrypt path (Slot k) ok] ∧ (r = inr () → ok = true))).
    intros err. eexists. split; [done|]. by destruct err. }
  intros t2 [] (ok & -> & Hok). rewrite (Hok eq_refl). intros s2.
  apply logs_ok_bind. eapply logs_ok_of; [apply set_token_logs|]. intros t3 [] (_ & Ht3). intros s3.
  eapply ensures_mono; [|apply (logs_ok_for_each _ (λ done t, ∀ m,
    m ∈ replay path t {[Slot k]} ↔ m = Slot k ∨ m ∈ Handler_Slot <$> done))].
  - intros s' [e|[]]; [done|]. intros (t & Ht & HP). exists t. split; [done|]. intros S.
    apply set_eq. intros m. rewrite !replay_app, (only_opens_replay t1) by done.
    replace (replay path [EvEncrypt path (Slot k) true] S) with ({[Slot k]} : gset Z)
      by (unfold replay; simpl; by rewrite String.eqb_refl).
    rewrite Ht3, HP. unfold slots_of. rewrite elem_of_list_to_set.
    split; [|auto]. intros [-> | ?]; [|done]. rewrite Hk, list_elem_of_fmap. eauto.
  - intros done y t Hy HP s4. destruct (Z.eqb_spec (Handler_Slot y) (Slot k)) as [Heq|Hne].
    { apply ensures_ret. exists []. rewrite !app_nil_r. split; [done|]. intros m.
      rewrite HP, fmap_app, elem_of_app. simpl. rewrite list_elem_of_singleton, Heq. naive_solver. }
    eapply logs_ok_of; [apply addKey_logs, Hq, Hy|]. intros t4 [] (Ht4 & Hin) m.
    rewrite fmap_app, elem_of_app, replay_app. simpl. rewrite list_elem_of_singleton.
    destruct (decide (m = Handler_Slot y)) as [-> | Hm]; [naive_solver|].
    rewrite (proj1 Ht4) by done. rewrite HP. naive_solver.
  - intros m. unfold replay. simpl. rewrite elem_of_singleton. rewrite elem_of_nil. naive_solver.
Qed.
End slots.

(** ** From the configuration *)

Lemma insert_handler_perm x l : insert_handler x l ≡ₚ x :: l.
Proof.
  induction l as [|y l IH]; simpl; [done|]. destruct (_ <? _); [done|]. rewrite IH. constructor.
Qed.
Lemma sort_handlers_perm l : sort_handlers l ≡ₚ l.
Proof.
  unfold sort_handlers. enough (∀ acc, foldl (λ acc x, insert_handler x acc) acc l ≡ₚ acc ++ l) as H
    by exact (H []).
  induction l as [|x l IH]; intros acc; simpl; [by rewrite app_nil_r|].
  rewrite IH, insert_handler_perm. by rewrite (Permutation_middle acc l x).
Qed.

Lemma NewHandler_made cfg (opts : KeyOptions (W:=W)) (x : Handler (W:=W)) :
  NewHandler cfg opts = inr x → quiet_opts opts → quiet_handler x ∧ Handler_Slot x = cfg.(keySlot).
Proof.
  intros Hx (Hsys & Hsalt & Htpm). unfold NewHandler in Hx.
  destruct (keyType cfg); repeat (case_match; simplify_eq/=); split_and?; eauto; naive_solver.
Qed.

Lemma new_handlers_made cfgs (opts : KeyOptions (W:=W)) (hs : EncHandler) :
  new_handlers cfgs opts = inr hs → quiet_opts opts →
  Forall quiet_handler hs ∧ Handler_Slot <$> hs = keySlot <$> cfgs.
Proof.
  intros Hhs Ho. revert hs Hhs. induction cfgs as [|cfg cfgs IH]; intros hs; cbn [new_handlers].
  { intros [= <-]. done. }
  destruct (NewHandler cfg opts) as [|x] eqn:Hx; [done|].
  destruct (new_handlers cfgs opts) as [|xs]; [done|]. intros [= <-].
  destruct (NewHandler_made _ _ _ Hx Ho), (IH _ eq_refl) as [? Heq]. split; [by constructor|].
  rewrite !fmap_cons, Heq. congruence.
Qed.

Definition configured (cfg : EncryptionSpec) : gset Z := list_to_set (keySlot <$> cfg.(Block.Keys)).

Lemma New_made cfg (opts : KeyOptions (W:=W)) (h : EncHandler) :
  New cfg opts = inr h → quiet_opts opts → Forall quiet_handler h ∧ slots_of h = configured cfg.
Proof.
  unfold New. intros Hh Ho. repeat (case_match; simplify_eq/=).
  destruct (new_handlers_made _ _ _ ltac:(done) Ho) as [Hq Hs]. split.
  - by rewrite sort_handlers_perm.
  - unfold slots_of, configured. rewrite <-Hs. apply set_eq. intros m.
    rewrite !elem_of_list_to_set. by rewrite sort_handlers_perm.
Qed.

(** C5: the key slots of an encrypted volume follow its configuration.  A format that
    succeeds leaves exactly the configured slots, whatever was there; an [Open] that
    succeeds used a configured slot, neither added nor removed a key in it nor wrote its
    token nor formatted the volume, and, when it reports no failed sync, leaves no slot that
    is not configured and has every configured one (the slot it opened with apart, which it
    does not look at). *)
Theorem key_slots_follow_configuration cfg opts h path mapped s s' :
  New cfg opts = inr h → quiet_opts opts → keyslot_names path →
  (FormatAndEncrypt h path s = Ok (s', inr ()) →
     ∃ t, s'.(trace) = s.(trace) ++ t ∧ ∀ S, replay path t S = configured cfg) ∧
  (∀ p slot failed, Open h path mapped s = Ok (s', inr (p, slot, failed)) →
     ∃ t, s'.(trace) = s.(trace) ++ t ∧ slot ∈ configured cfg ∧ EvOpen path mapped ∈ t ∧
       Forall (spares path slot) t ∧
       (failed = [] → ∀ S, configured cfg ∖ {[slot]} ⊆ replay path t S ∧ replay path t S ⊆ configured cfg)).
Proof.
  intros Hh Ho Hn. destruct (New_made _ _ _ Hh Ho) as [Hq <-]. split.
  - intros Hr. exact (FormatAndEncrypt_ok path h s Hq _ _ Hr).
  - intros p slot failed Hr. exact (Open_ok path h mapped s Hn Hq _ _ Hr).
Qed.
End encryption.
