(* ===== verification/Volumes.v ===== *)
(** * Volumes

    [internal/app/machined/pkg/controllers/block/internal/volumes]: the order in which
    volumes are provisioned, and the operations that take one volume through its phases:
    [LocateAndProvision] with [CheckDiskForProvisioning] and [CreatePartition], [Grow],
    [HandleEncryption], [Format] with [GrowFilesystem], and [Close].  An operation works
    on the devices ([env W]) and on the status of its volume, which it changes in place.
    Logging, the configuration file of mkfs.xfs and the random UUID of a swap area are left
    out. *)

From S2P Require Import Prelude Errors Block Devices Keys Encryption.

(** ** The order of volumes *)

Section compare.
Context `{celgo : CelGo}.

(** [cmpBool], and [cmp.Or] on integers. *)
Definition cmpBool (a b : bool) : Z := if Bool.eqb a b then 0 else if a then 1 else -1.
Definition cmp_Or (a b : Z) : Z := if a =? 0 then b else a.
Definition MaxUint64 : Z := 2 ^ 64 - 1.

Definition CompareVolumeConfigs (a b : VolumeConfigSpec) : Z :=
  let c := cmp_Compare a.(Provisioning).(Wave) b.(Provisioning).(Wave) in
  if negb (c =? 0) then c else
  let c := cmpBool a.(Provisioning).(partitionSpec).(grow) b.(Provisioning).(partitionSpec).(grow) in
  if negb (c =? 0) then c else
  let desiredSizeA := cmp_Or a.(Provisioning).(partitionSpec).(MaxSize) MaxUint64 in
  let desiredSizeB := cmp_Or b.(Provisioning).(partitionSpec).(MaxSize) MaxUint64 in
  cmp_Compare desiredSizeA desiredSizeB.
End compare.

(** ** Contexts *)

Record DiskContext := { Disk : DiskSpec; SystemDisk : option bool }.

Definition ToCELContext (d : DiskContext) : cel_values :=
  {| cel_volume := None; cel_disk := Some d.(Disk);
     cel_system_disk := Some (default false d.(SystemDisk)) |}.

Inductive resource_phase := PhaseRunning | PhaseTearingDown.
#[export] Instance resource_phase_eq_dec : EqDecision resource_phase.
Proof. solve_decision. Defined.

(** A [VolumeStatus] resource: its metadata and its spec. *)
Record VolumeStatus := {
  statusID : string; statusPhase : resource_phase; statusFinalizers : list string;
  statusLabels : gmap string string; statusSpec : VolumeStatusSpec
}.

Section volumes.
Context `{celgo : CelGo} `{hum : Humanize} {W : Type} `{HD : Devices W} `{HKS : KeyServices W} `{HL : Luks}.
Notation io := (prog (env W) error).

(** What an operation knows about its volume; the status it points to is in the state. *)
Record ManagerContext := {
  CfgID : string;
  Cfg : VolumeConfigSpec;
  ParentStatus : option VolumeStatus;
  ParentFinalizer : string;
  DiscoveredVolumes : list DiscoveredVolumeSpec;
  Disks : list DiskContext;
  DevicesReady : bool;
  PreviousWaveProvisioned : bool;
  EncryptionHelpers : KeyOptions (W:=W);
  ShouldCloseVolume : bool
}.

Record volume := { io_env : env W; Status : VolumeStatusSpec }.
Notation vio := (prog volume error).

Definition on_devices {A} (c : io A) : vio A :=
  zoom io_env (λ e v, {| io_env := e; Status := v.(Status) |}) c.
Definition status : vio VolumeStatusSpec := v ← get; mret v.(Status).
Definition update (f : VolumeStatusSpec → VolumeStatusSpec) : vio () :=
  modify (λ v, {| io_env := v.(io_env); Status := f v.(Status) |}).
Definition set_phase (p : VolumePhase) : vio () := update (λ st, st <| Phase := p |>).

(** [dev, err := NewFromPath(path)]; [defer dev.Close()];
    [dev.RetryLockWithTimeout(ctx, true, ...)]; [defer dev.Unlock()]. *)
Definition with_locked_device {A} (path : string) (c : io A) : io A :=
  _ ← retryf "error opening disk: %w" (call (NewFromPath path) silent);
  with_defer (run (CloseDevice path) []) (
    _ ← retryf "error locking disk: %w" (lock_exclusive path);
    with_defer (unlock path) c).

(** ** disk.go *)

Inductive DiskRejectedReason := GeneralError | NotEnoughSpace | WrongFormat.
#[local] Instance DiskRejectedReason_eq_dec : EqDecision DiskRejectedReason.
Proof. solve_decision. Defined.

Record CheckDiskResult := {
  CanProvision : bool; HasGPT : bool; DiskSize : Z; RejectedReason : DiskRejectedReason
}.
Definition noCheckDiskResult : CheckDiskResult :=
  {| CanProvision := false; HasGPT := false; DiskSize := 0; RejectedReason := GeneralError |}.

(** [if err != nil { return CheckDiskResult{} }] *)
Definition or_rejected (c : io CheckDiskResult) : io CheckDiskResult :=
  r ← try c; match r with inl _ => mret noCheckDiskResult | inr res => mret res end.

(** The space of a disk that has a GPT. *)
Definition CheckGPT (diskPath : string) (minSize diskSize : Z) : io CheckDiskResult :=
  with_device diskPath (
    _ ← call (TryLock diskPath) silent;
    with_defer (run (Unlock diskPath) []) (
      _ ← call (DeviceFromBlockDevice diskPath) silent;
      pt ← read_table diskPath;
      let available := LargestContiguousAllocatable pt in
      mret {| CanProvision := available >=? minSize; HasGPT := true; DiskSize := diskSize;
              RejectedReason := NotEnoughSpace |})).

Definition CheckDiskForProvisioning (diskPath : string) (cfg : VolumeConfigSpec) : io CheckDiskResult :=
  or_rejected (
    info ← probe diskPath;
    let minSize := cfg.(Provisioning).(partitionSpec).(MinSize) in
    match cfg.(Type_) with
    | VolumeTypeDisk =>
        mret {| CanProvision := String.eqb info.(probeName) ""; HasGPT := false;
                DiskSize := info.(probeSize); RejectedReason := WrongFormat |}
    | VolumeTypePartition =>
        if String.eqb info.(probeName) "" then
          let overhead := u64 (info.(probeSectorSize) * 67) in
          mret {| CanProvision := info.(probeSize) >=? u64 (minSize + overhead); HasGPT := false;
                  DiskSize := info.(probeSize); RejectedReason := NotEnoughSpace |}
        else if negb (String.eqb info.(probeName) "gpt") then
          mret {| CanProvision := false; HasGPT := false; DiskSize := 0; RejectedReason := WrongFormat |}
        else CheckGPT diskPath minSize info.(probeSize)
    | _ => lift (Panic (Explicit "unexpected volume type"))
    end).

(** ** partition.go *)

Record CreatePartitionResult := { PartitionIdx : Z; PartGUID : string; PartitionSize : Z }.

(** The size of a new partition, given the free space and the resolved maximum. *)
Definition partition_size (maxSize available : Z) : Z :=
  if (maxSize =? 0) || (maxSize >=? available) then available else maxSize.

Definition CreatePartition (diskPath : string) (cfg : VolumeConfigSpec) (hasPT : bool)
    : io CreatePartitionResult :=
  let spec := cfg.(Provisioning).(partitionSpec) in
  with_locked_device diskPath (
    _ ← wrapf "error getting GPT device: %w" (call (DeviceFromBlockDevice diskPath) silent);
    pt ← wrapf "error initializing GPT: %w" (if hasPT then read_table diskPath else new_table diskPath);
    let available := LargestContiguousAllocatable pt in
    maxSize ← wrapf "error resolving max size: %w" (of_result (ResolveMaxSize spec available));
    if available <? spec.(MinSize) then throw (Errorf "not enough space on disk" []) else
    let size := partition_size maxSize available in
    typeUUID ← wrapf "error parsing type UUID: %w" (of_result (uuid_Parse spec.(TypeUUID)));
    '(pt, partitionIdx, partGUID) ←
      wrapf "error allocating partition: %w" (allocate diskPath pt size spec.(Label) typeUUID);
    _ ← wrapf "error writing GPT: %w" (write_table diskPath pt);
    let partitionDevName := DevName diskPath partitionIdx in
    _ ← retryf "error opening partition: %w" (call (NewFromPath partitionDevName) silent);
    with_defer (run (CloseDevice partitionDevName) []) (
      _ ← retryf "error wiping partition: %w" (WipeWithSignatures partitionDevName);
      mret {| PartitionIdx := partitionIdx; PartGUID := partGUID; PartitionSize := size |})).

(** ** grow.go *)

Definition Grow (vc : ManagerContext) : vio () :=
  let spec := vc.(Cfg).(Provisioning).(partitionSpec) in
  if negb (bool_decide (vc.(Cfg).(Type_) = VolumeTypePartition) && spec.(grow)) then
    set_phase VolumePhaseProvisioned
  else
  st ← status;
  if (spec.(MaxSize) >? 0) && (st.(Size) >=? spec.(MaxSize)) then set_phase VolumePhaseProvisioned
  else
  grown ← on_devices (with_locked_device st.(ParentLocation) (
    _ ← wrapf "error getting GPT device: %w" (call (DeviceFromBlockDevice st.(ParentLocation)) silent);
    pt ← wrapf "error initializing GPT: %w" (read_table st.(ParentLocation));
    availableGrowth ← wrapf "error getting available partition growth: %w"
      (of_result (AvailablePartitionGrowth pt (st.(PartitionIndex) - 1)));
    if availableGrowth <=? 1024 * 1024 then mret None else
    let availableGrowth :=
      if (spec.(MaxSize) >? 0) && (availableGrowth >? u64 (spec.(MaxSize) - st.(Size)))
      then u64 (spec.(MaxSize) - st.(Size)) else availableGrowth in
    pt ← wrapf "error growing partition: %w"
      (grow_partition st.(ParentLocation) pt (st.(PartitionIndex) - 1) availableGrowth);
    _ ← wrapf "error writing GPT: %w" (write_table st.(ParentLocation) pt);
    mret (Some availableGrowth)));
  match grown with
  | None => set_phase VolumePhaseProvisioned
  | Some availableGrowth =>
      _ ← set_phase VolumePhaseProvisioned;
      update (λ st, SetSize (u64 (st.(Size) + availableGrowth)) st)
  end.

(** ** locate.go *)

(** The disk of a discovered volume: its parent, or the device itself. *)
Definition disk_of (dv : DiscoveredVolumeSpec) (disks : list DiskContext) : option DiskSpec :=
  Disk <$> find (λ d,
    (negb (String.eqb dv.(ParentDevPath) "") && String.eqb d.(Disk).(DevPath) dv.(ParentDevPath)) ||
    (String.eqb dv.(ParentDevPath) "" && String.eqb d.(Disk).(DevPath) dv.(dvDevPath))) disks.

(** Does the locator match the discovered volume? *)
Definition locator_matches (vc : ManagerContext) (dv : DiscoveredVolumeSpec) : vio bool :=
  let locator := vc.(Cfg).(Locator) in
  let disk := disk_of dv vc.(Disks) in
  let eval expr env volume :=
    r ← lift (Cel.EvalBool expr env {| cel_volume := volume; cel_disk := disk; cel_system_disk := None |});
    wrapf "error evaluating volume locator: %w" (of_result r) in
  if negb (Cel.IsZero locator.(locatorMatch)) then eval locator.(locatorMatch) VolumeLocator (Some dv)
  else if negb (Cel.IsZero locator.(DiskMatch)) then eval locator.(DiskMatch) DiskLocator None
  else throw (Errorf "no locator expression set for volume" []).

(** The first discovered volume that matches. *)
Fixpoint locate (vc : ManagerContext) (dvs : list DiscoveredVolumeSpec) : vio (option DiscoveredVolumeSpec) :=
  match dvs with
  | [] => mret None
  | dv :: dvs =>
      matches ← locator_matches vc dv;
      if matches : bool then mret (Some dv) else locate vc dvs
  end.

Fixpoint match_disks (vc : ManagerContext) (disks : list DiskContext) : vio (list string) :=
  match disks with
  | [] => mret []
  | d :: disks =>
      if d.(Disk).(Readonly) then match_disks vc disks else
      r ← lift (Cel.EvalBool vc.(Cfg).(Provisioning).(diskSelector).(Match_) DiskLocator (ToCELContext d));
      matches ← wrapf "error evaluating disk locator: %w" (of_result r);
      rest ← match_disks vc disks;
      mret (if matches : bool then d.(Disk).(DevPath) :: rest else rest)
  end.

(** The first disk that can be provisioned, with the reasons the ones before were
    rejected for. *)
Fixpoint pick_disk (cfg : VolumeConfigSpec) (disks : list string) (rejected : list DiskRejectedReason)
    : io (list DiskRejectedReason * option (string * CheckDiskResult)) :=
  match disks with
  | [] => mret (rejected, None)
  | d :: disks =>
      res ← CheckDiskForProvisioning d cfg;
      if res.(CanProvision) then mret (rejected, Some (d, res))
      else pick_disk cfg disks (rejected ++ [res.(RejectedReason)])
  end.

Definition count_reason (r : DiskRejectedReason) (l : list DiskRejectedReason) : Z :=
  zlen (filter (λ x, x = r) l).

(** A picked disk with the empty path counts as none. *)
Definition pick (cfg : VolumeConfigSpec) (disks : list string) : io (string * CheckDiskResult) :=
  '(rejected, picked) ← pick_disk cfg disks [];
  match picked with
  | Some (String _ _ as d, res) => mret (d, res)
  | _ =>
      throw (Retryable "no disks matched for volume (%d matched selector): %d have not enough space, %d have wrong format, %d have other issues"
        [Int (zlen disks); Int (count_reason NotEnoughSpace rejected);
         Int (count_reason WrongFormat rejected); Int (count_reason GeneralError rejected)])
  end.

(** Provisioning: the part of [LocateAndProvision] for a volume that is missing. *)
Definition provision (vc : ManagerContext) : vio () :=
  matchedDisks ← match_disks vc vc.(Disks);
  if bool_decide (matchedDisks = []) then throw (Errorf "no disks matched selector for volume" []) else
  if bool_decide (vc.(Cfg).(Type_) = VolumeTypeDisk) && (1 <? zlen matchedDisks) then
    throw (Errorf "multiple disks matched selector for disk volume; matched disks: %v" [Strs matchedDisks])
  else
  '(pickedDisk, diskCheckResult) ← on_devices (pick vc.(Cfg) matchedDisks);
  match vc.(Cfg).(Type_) with
  | VolumeTypeDisk =>
      update (λ st, SetSize diskCheckResult.(DiskSize)
        (st <| Phase := VolumePhaseProvisioned |> <| Location := pickedDisk |> <| ParentLocation := ""%string |>))
  | VolumeTypePartition =>
      res ← wrapf "error creating partition: %w"
        (on_devices (CreatePartition pickedDisk vc.(Cfg) diskCheckResult.(HasGPT)));
      update (λ st, SetSize res.(PartitionSize)
        (st <| Phase := VolumePhaseProvisioned |>
            <| Location := DevName pickedDisk res.(PartitionIdx) |>
            <| PartitionIndex := res.(PartitionIdx) |>
            <| ParentLocation := pickedDisk |>
            <| PartitionUUID := res.(PartGUID) |>))
  | _ => lift (Panic (Explicit "unexpected volume type"))
  end.

(** [LocateAndProvision] for disks and partitions. *)
Definition locate_or_provision (vc : ManagerContext) : vio () :=
  if Locator_IsZero vc.(Cfg).(Locator) then throw (Errorf "volume locator is not set" []) else
  found ← locate vc vc.(DiscoveredVolumes);
  match found with
  | Some dv =>
      update (λ st, SetSize dv.(dvSize)
        (st <| Phase := VolumePhaseLocated |>
            <| Location := dv.(dvDevPath) |>
            <| PartitionIndex := dv.(dvPartitionIndex) |>
            <| ParentLocation := dv.(ParentDevPath) |>
            <| UUID := dv.(dvUUID) |>
            <| PartitionUUID := dv.(dvPartitionUUID) |>))
  | None =>
      if negb vc.(DevicesReady) then set_phase VolumePhaseWaiting
      else if Provisioning_IsZero vc.(Cfg).(Provisioning) then set_phase VolumePhaseMissing
      else if negb vc.(PreviousWaveProvisioned) then set_phase VolumePhaseWaiting
      else provision vc
  end.

Definition LocateAndProvision (vc : ManagerContext) : vio () :=
  _ ← update (λ st, st <| mountSpec := vc.(Cfg).(Mount) |> <| SymlinkSpec := vc.(Cfg).(Symlink) |>);
  match vc.(Cfg).(Type_) with
  | VolumeTypeTmpfs | VolumeTypeDirectory | VolumeTypeSymlink | VolumeTypeOverlay =>
      set_phase VolumePhaseReady
  | VolumeTypeExternal =>
      update (λ st, st <| Phase := VolumePhaseReady |>
        <| Filesystem := vc.(Cfg).(Provisioning).(filesystemSpec).(fsType) |>
        <| Location := vc.(Cfg).(Provisioning).(diskSelector).(External_) |>
        <| MountLocation := vc.(Cfg).(Provisioning).(diskSelector).(External_) |>)
  | VolumeTypeDisk | VolumeTypePartition => locate_or_provision vc
  end.

(** ** encrypt.go *)

Definition key_opts (vc : ManagerContext) : KeyOptions :=
  {| VolumeID := vc.(CfgID);
     GetSystemInformation := vc.(EncryptionHelpers).(GetSystemInformation);
     TPMLocker := vc.(EncryptionHelpers).(TPMLocker);
     SaltGetter := vc.(EncryptionHelpers).(SaltGetter) |}.

(** [handler.Name() + "-" + id]. *)
Definition mapped_name (vc : ManagerContext) : string := (Encryption.Name +:+ "-" +:+ vc.(CfgID))%string.

(** Lock the parent device or the device itself. *)
Definition lock_path (st : VolumeStatusSpec) : string :=
  if String.eqb st.(ParentLocation) "" then st.(Location) else st.(ParentLocation).

(** One key of the configuration; [usedSlot] is the slot the volume was opened with.  The
    kinds of keys are listed once each, in the order of their first key. *)
Definition note_key (usedSlot : Z) (key : EncryptionKey) (st : VolumeStatusSpec) : VolumeStatusSpec :=
  let provider := EncryptionKeyType_String key.(keyType) in
  let st :=
    if key.(keySlot) =? usedSlot then
      let st := st <| EncryptionLockedToState := key.(LockToSTATE) |> in
      if String.eqb provider "tpm"
      then st <| TPMEncryptionOptions := {| PCRs := key.(TPMPCRs); PubKeyPCRs := key.(TPMPubKeyPCRs) |} |>
      else st
    else st in
  if bool_decide (provider ∈ st.(ConfiguredEncryptionKeys)) then st
  else st <| ConfiguredEncryptionKeys := st.(ConfiguredEncryptionKeys) ++ [provider] |>.

(** [slices.Sort] on strings. *)
Fixpoint insert_string (s : string) (l : list string) : list string :=
  match l with
  | [] => [s]
  | s' :: l => if String.ltb s s' then s :: s' :: l else s' :: insert_string s l
  end.
Definition sort_strings (l : list string) : list string := foldr insert_string [] l.

Definition HandleEncryptionWithHandler (vc : ManagerContext) (h : EncHandler) : vio () :=
  st ← status;
  opened ← on_devices (with_locked_device (lock_path st) (
    info ← retryf "error probing disk: %w" (probe st.(Location));
    _ ← (if String.eqb info.(probeName) "" then
           retryf "error formatting and encrypting volume: %w" (FormatAndEncrypt h st.(Location))
         else if String.eqb info.(probeName) "luks" then mret ()
         else throw (Errorf "block dev type mismatch: %s != %s" [Str info.(probeName); Str "luks"%string]));
    '(mappedPath, usedSlot, failedSyncs) ←
      retryf "error opening encrypted volume: %w" (Encryption.Open h st.(Location) (mapped_name vc));
    resolvedPath ← wrapf "error resolving symlink: %w" (query (EvalSymlinks mappedPath) silent);
    mret (resolvedPath, usedSlot, failedSyncs)));
  let '(resolvedPath, usedSlot, failedSyncs) := opened in
  _ ← update (λ st,
    st <| Phase := VolumePhasePrepared |>
       <| MountLocation := resolvedPath |>
       <| EncryptionProvider := vc.(Cfg).(Encryption).(Provider) |>
       <| EncryptionFailedSyncs := failedSyncs |>
       <| ConfiguredEncryptionKeys := [] |>
       <| EncryptionSlot := Some usedSlot |>);
  _ ← update (λ st, foldl (λ st key, note_key usedSlot key st) st vc.(Cfg).(Encryption).(Block.Keys));
  update (λ st, st <| ConfiguredEncryptionKeys := sort_strings st.(ConfiguredEncryptionKeys) |>).

Definition with_handler (vc : ManagerContext) (f : EncHandler → vio ()) : vio () :=
  match Encryption.New vc.(Cfg).(Encryption) (key_opts vc) with
  | inl e => throw (Errorf "failed to create encryption handler: %w" [Wrapped e])
  | inr handler => f handler
  end.

Definition HandleEncryption (vc : ManagerContext) : vio () :=
  match vc.(Cfg).(Encryption).(Provider) with
  | EncryptionProviderNone =>
      update (λ st,
        st <| Phase := VolumePhasePrepared |>
           <| MountLocation := st.(Location) |>
           <| EncryptionProvider := EncryptionProviderNone |>
           <| EncryptionFailedSyncs := [] |>
           <| ConfiguredEncryptionKeys := [] |>)
  | EncryptionProviderLUKS2 => with_handler vc (HandleEncryptionWithHandler vc)
  end.

(** ** close.go *)

Definition CloseWithHandler (vc : ManagerContext) : vio () :=
  let mappedName := mapped_name vc in
  _ ← map_err (λ e, Retryable "error closing encrypted volume mapped to %q: %w" [Str mappedName; Wrapped e])
        (on_devices (Encryption.Close mappedName));
  set_phase VolumePhaseClosed.

Definition Close (vc : ManagerContext) : vio () :=
  match vc.(Cfg).(Type_) with
  | VolumeTypeTmpfs | VolumeTypeDirectory | VolumeTypeSymlink | VolumeTypeOverlay | VolumeTypeExternal =>
      set_phase VolumePhaseClosed
  | VolumeTypeDisk | VolumeTypePartition =>
      match vc.(Cfg).(Encryption).(Provider) with
      | EncryptionProviderNone => set_phase VolumePhaseClosed
      | EncryptionProviderLUKS2 => with_handler vc (λ _, CloseWithHandler vc)
      end
  end.

(** ** format.go *)

Definition GrowFilesystem (vc : ManagerContext) (location : string) : io () :=
  let type := vc.(Cfg).(Provisioning).(filesystemSpec).(fsType) in
  match type with
  | FilesystemTypeXFS =>
      tmpDir ← wrapf "error creating temporary directory: %w" (query MkdirTemp silent);
      with_defer (run (RemoveDir tmpDir) []) (
        _ ← wrapf "error mounting partition: %w"
              (call (MountFs (FilesystemType_String type) location tmpDir) silent);
        with_defer (run (UnmountFs tmpDir) []) (
          wrapf "error growing XFS: %w" (call (XFSGrow tmpDir) (λ _, [EvGrowFs location]))))
  | FilesystemTypeEXT4 =>
      wrapf "error growing ext4: %w" (call (Ext4Resize location) (λ _, [EvGrowFs location]))
  | FilesystemTypeSwap => mret ()
  | _ => throw (Errorf "unsupported filesystem type to grow: %s" [Str (FilesystemType_String type)])
  end.

(** Make the filesystem the configuration asks for. *)
Definition make_filesystem (vc : ManagerContext) (st : VolumeStatusSpec) : io () :=
  let fs := vc.(Cfg).(Provisioning).(filesystemSpec) in
  let label := if String.eqb fs.(fsLabel) "" then None else Some fs.(fsLabel) in
  match fs.(fsType) with
  | FilesystemTypeXFS =>
      retryf "error formatting XFS: %w" (make_fs FilesystemTypeXFS st.(MountLocation)
        {| UnsupportedFSOption := st.(Size) <=? 300 * 1024 * 1024; mkfsLabel := label |})
  | FilesystemTypeEXT4 =>
      retryf "error formatting ext4: %w" (make_fs FilesystemTypeEXT4 st.(MountLocation)
        {| UnsupportedFSOption := false; mkfsLabel := label |})
  | FilesystemTypeSwap =>
      retryf "error formatting swap: %w" (make_fs FilesystemTypeSwap st.(MountLocation)
        {| UnsupportedFSOption := false; mkfsLabel := Some fs.(fsLabel) |})
  | t => throw (Errorf "unsupported filesystem type: %s" [Str (FilesystemType_String t)])
  end.

Definition set_ready (fs : FilesystemType) : vio () :=
  update (λ st, st <| Phase := VolumePhaseReady |> <| Filesystem := fs |>).

(** A volume that asks for no filesystem: what is on it is what it is. *)
Definition format_none (vc : ManagerContext) (name : string) (location : string) : vio () :=
  _ ← update (λ st, st <| Filesystem := FilesystemTypeString name |>);
  _ ← (if negb (String.eqb vc.(Cfg).(Mount).(TargetPath) "") then
         if String.eqb name "" then throw (Errorf "filesystem not found on %s" [Str location])
         else if String.eqb name "luks" then
           _ ← set_phase VolumePhaseProvisioned;
           throw (Errorf "volume is encrypted, but no encryption config provided" [])
         else mret ()
       else mret ());
  set_phase VolumePhaseReady.

(** The rest of [Format], under the lock, for what the probe found. *)
Definition format_found (vc : ManagerContext) (st : VolumeStatusSpec) (name : string) : vio () :=
  let type := vc.(Cfg).(Provisioning).(filesystemSpec).(fsType) in
  if bool_decide (type = FilesystemTypeNone) then format_none vc name st.(MountLocation)
  else if String.eqb name "" || String.eqb name "swap" then
    _ ← on_devices (make_filesystem vc st);
    set_ready type
  else if String.eqb name (FilesystemType_String type) then
    _ ← (if vc.(Cfg).(Provisioning).(partitionSpec).(grow)
         then wrapf "error growing filesystem: %w" (on_devices (GrowFilesystem vc st.(MountLocation)))
         else mret ());
    set_ready type
  else throw (Errorf "filesystem type mismatch: %s != %s" [Str name; Str (FilesystemType_String type)]).

Definition Format (vc : ManagerContext) : vio () :=
  st ← status;
  let devPath := lock_path st in
  _ ← retryf "error opening disk: %w" (on_devices (call (NewFromPath devPath) silent));
  with_defer (on_devices (run (CloseDevice devPath) [])) (
    _ ← retryf "error locking disk: %w" (on_devices (lock_exclusive devPath));
    with_defer (on_devices (unlock devPath)) (
      info ← retryf "error probing disk: %w" (on_devices (probe st.(MountLocation)));
      format_found vc st info.(probeName))).
End volumes.
