(* ===== verification/VolumeProcess.v ===== *)
(** * The automaton of a volume

    [volume_manager.go] ([processVolumeConfig]): the loop that takes one volume as far as
    it gets, forward to [Ready] or, when it is to be closed, to [Closed].  The loop stops
    when a turn keeps the phase; eight turns are always enough. *)

From S2P Require Import Prelude Errors Block Devices Keys Encryption Volumes.

(** ** Symbolic execution of the operations *)

Section execution.
Context {W : Type}.
Notation vio := (prog (volume (W:=W)) error).
Implicit Types (v : volume (W:=W)).

Lemma ensures_on_devices {A} (c : prog (env W) error A) (v : volume (W:=W)) (Q : volume → error + A → Prop) :
  (∀ e r, Q {| io_env := e; Status := v.(Status) |} r) → ensures (on_devices c) v Q.
Proof. intros HQ. apply ensures_zoom. intros s' r _. apply HQ. Qed.

Lemma ensures_status (v : volume (W:=W)) (Q : volume → error + VolumeStatusSpec → Prop) :
  Q v (inr v.(Status)) → ensures status v Q.
Proof. intros HQ. apply ensures_bind, ensures_get, ensures_ret, HQ. Qed.

Lemma ensures_update f (v : volume (W:=W)) (Q : volume → error + () → Prop) :
  Q {| io_env := v.(io_env); Status := f v.(Status) |} (inr ()) → ensures (update f) v Q.
Proof. intros HQ s' r [= <- <-]. exact HQ. Qed.

Lemma yields_locked_device `{HD : Devices W} {A} (V : A → Prop) path (c : prog (env W) error A) :
  yields V c → yields V (with_locked_device path c).
Proof.
  intros Hc. unfold with_locked_device. apply yields_then. intros _. apply yields_defer, yields_then.
  intros _. by apply yields_defer.
Qed.
End execution.

(** Execute a call on the devices, whatever its answer. *)
Ltac io_step :=
  cbv beta iota zeta;
  lazymatch goal with
  | |- ensures (call _ _) _ _ => apply ensures_call; intros ? [?|] _
  | |- ensures (query _ _) _ _ => apply ensures_query; intros ? [?|?] ?
  | |- ensures (run _ _) _ _ => apply ensures_run; intros ?
  | |- ensures (lock_exclusive _) _ _ => apply ensures_call; intros ? [?|] _
  | |- ensures (unlock _) _ _ => apply ensures_run; intros ?
  | |- ensures (write_table _ _) _ _ => apply ensures_call; intros ? [?|] _
  | |- ensures (read_table _) _ _ => apply ensures_query; intros ? [?|?] ?
  | |- ensures (grow_partition _ _ _ _) _ _ => apply ensures_query; intros ? [?|?] ?
  | |- ensures (with_locked_device _ _) _ _ => unfold with_locked_device
  | |- ensures (if ?b then _ else _) _ _ => destruct b eqn:?
  | |- ensures (match ?x with _ => _ end) _ _ => destruct x eqn:?
  | |- _ => progress ensures_step
  end.

(** Execute an operation without looking at its calls on the devices. *)
Ltac vstep_tac :=
  repeat (cbv beta iota zeta;
    lazymatch goal with
    | |- ensures status _ _ => apply ensures_status
    | |- ensures (update _) _ _ => apply ensures_update
    | |- ensures (set_phase _) _ _ => apply ensures_update
    | |- ensures (on_devices _) _ _ => apply ensures_on_devices; intros ? [?|?]
    | |- ensures (lift _) _ _ => apply ensures_lift; intros ? ?
    | |- ensures (if ?b then _ else _) _ _ => destruct b eqn:?
    | |- ensures (match ?x with _ => _ end) _ _ => destruct x eqn:?
    | |- ensures (let '(_, _) := ?x in _) _ _ => destruct x eqn:?
    | |- _ => progress ensures_step
    end).

Section process.
Context `{celgo : CelGo} `{hum : Humanize} {W : Type} `{HD : Devices W} `{HKS : KeyServices W} `{HL : Luks}.
Notation vio := (prog (volume (W:=W)) error).
Notation context := (ManagerContext (W:=W)).
Implicit Types (vc : context) (v : volume (W:=W)) (st : VolumeStatusSpec).

(** One turn; [true] when the turn ends the loop itself. *)
Definition turn (vc : context) : vio bool :=
  st ← status;
  if negb vc.(ShouldCloseVolume) then
    match st.(Phase) with
    | VolumePhaseReady => mret true
    | VolumePhaseWaiting | VolumePhaseMissing => _ ← LocateAndProvision vc; mret false
    | VolumePhaseLocated => _ ← Grow vc; mret false
    | VolumePhaseProvisioned => _ ← HandleEncryption vc; mret false
    | VolumePhasePrepared => _ ← Format vc; mret false
    | VolumePhaseFailed => _ ← set_phase st.(PreFailPhase); mret false
    | VolumePhaseClosed => mret true
    end
  else
    match st.(Phase) with
    | VolumePhaseReady | VolumePhasePrepared => _ ← Close vc; mret false
    | VolumePhaseWaiting | VolumePhaseMissing | VolumePhaseLocated | VolumePhaseProvisioned =>
        _ ← set_phase VolumePhaseClosed; mret false
    | VolumePhaseClosed => mret true
    | VolumePhaseFailed => _ ← set_phase st.(PreFailPhase); mret false
    end.

(** [out] stands for what happens after [fuel] turns. *)
Fixpoint process_loop (out : vio ()) (fuel : nat) (vc : context) (prevPhase : VolumePhase) : vio () :=
  match fuel with
  | O => out
  | S fuel =>
      stop ← turn vc;
      if stop : bool then mret () else
      st ← status;
      if bool_decide (st.(Phase) = prevPhase) then mret () else
      done ← on_devices (ask ctx_Done silent);
      if done : bool then mret () else process_loop out fuel vc st.(Phase)
  end.

Definition process_fuel : nat := 8.

Definition processVolumeConfig (vc : context) : vio () :=
  st ← status;
  process_loop (lift (Panic LoopFuel)) process_fuel vc st.(Phase).

(** ** The specification: which phase may follow which, and when *)

(** The volume has a device of its own. *)
Definition is_block (vc : context) : bool :=
  match vc.(Cfg).(Type_) with VolumeTypeDisk | VolumeTypePartition => true | _ => false end.

(** What to do for a volume that is not there: nothing yet, nothing at all, or provision. *)
Definition idle_phase (vc : context) : VolumePhase :=
  if negb vc.(DevicesReady) then VolumePhaseWaiting
  else if Provisioning_IsZero vc.(Cfg).(Provisioning) then VolumePhaseMissing
  else VolumePhaseWaiting.
Definition may_provision (vc : context) : bool :=
  vc.(DevicesReady) && negb (Provisioning_IsZero vc.(Cfg).(Provisioning)) && vc.(PreviousWaveProvisioned).

(** A discovered volume that the locator of the volume matches. *)
Definition is_match (vc : context) (dv : DiscoveredVolumeSpec) : bool :=
  let disk := disk_of dv vc.(Disks) in
  let value r := match r with Ok (inr b) => b | _ => false end in
  if negb (Cel.IsZero vc.(Cfg).(Locator).(locatorMatch)) then
    value (Cel.EvalBool vc.(Cfg).(Locator).(locatorMatch) VolumeLocator
      {| cel_volume := Some dv; cel_disk := disk; cel_system_disk := None |})
  else
    value (Cel.EvalBool vc.(Cfg).(Locator).(DiskMatch) DiskLocator
      {| cel_volume := None; cel_disk := disk; cel_system_disk := None |}).
Definition found (vc : context) : option DiscoveredVolumeSpec := find (is_match vc) vc.(DiscoveredVolumes).

Definition waiting (p : VolumePhase) : Prop := p = VolumePhaseWaiting ∨ p = VolumePhaseMissing.

(** Steps towards [Ready]. *)
Inductive builds (vc : context) : VolumeStatusSpec → VolumePhase → Prop :=
  | builds_static st : waiting st.(Phase) → is_block vc = false → builds vc st VolumePhaseReady
  | builds_located st dv :
      waiting st.(Phase) → is_block vc = true → found vc = Some dv → builds vc st VolumePhaseLocated
  | builds_idle st :
      waiting st.(Phase) → is_block vc = true → found vc = None → may_provision vc = false →
      builds vc st (idle_phase vc)
  | builds_provisioned st :
      waiting st.(Phase) → is_block vc = true → found vc = None → may_provision vc = true →
      builds vc st VolumePhaseProvisioned
  | builds_grown st : st.(Phase) = VolumePhaseLocated → builds vc st VolumePhaseProvisioned
  | builds_prepared st : st.(Phase) = VolumePhaseProvisioned → builds vc st VolumePhasePrepared
  | builds_ready st : st.(Phase) = VolumePhasePrepared → builds vc st VolumePhaseReady
  | builds_recovered st : st.(Phase) = VolumePhaseFailed → builds vc st st.(PreFailPhase).

(** Steps towards [Closed]. *)
Inductive closes : VolumeStatusSpec → VolumePhase → Prop :=
  | closes_open st : st.(Phase) ≠ VolumePhaseFailed → st.(Phase) ≠ VolumePhaseClosed → closes st VolumePhaseClosed
  | closes_recovered st : st.(Phase) = VolumePhaseFailed → closes st st.(PreFailPhase).

Definition vstep (vc : context) (st st' : VolumeStatusSpec) : Prop :=
  st'.(PreFailPhase) = st.(PreFailPhase) ∧
  if vc.(ShouldCloseVolume) then closes st st'.(Phase) else builds vc st st'.(Phase).

(** ** The operations follow the specification *)

(** The post-condition of a step: the phase on success, an untouched phase on an error. *)
Definition to_phase (p : VolumePhase) (st : VolumeStatusSpec) (v : volume (W:=W)) (r : error + ()) : Prop :=
  v.(Status).(PreFailPhase) = st.(PreFailPhase) ∧
  v.(Status).(Phase) = match r with inr _ => p | inl _ => st.(Phase) end.

Lemma Grow_phase vc v : ensures (Grow vc) v (to_phase VolumePhaseProvisioned v.(Status)).
Proof. unfold Grow. vstep_tac; done. Qed.

(** Noting the keys changes what is shown of them only. *)
Definition core (st : VolumeStatusSpec) :=
  (st.(Phase), st.(PreFailPhase), st.(Location), st.(MountLocation), st.(ParentLocation), st.(Size),
   st.(Filesystem), st.(EncryptionProvider), st.(EncryptionSlot)).

Lemma note_keys_core slot keys st :
  core (foldl (λ st key, note_key slot key st) st keys) = core st.
Proof.
  revert st. induction keys as [|key keys IH]; intros st; simpl; [done|]. rewrite IH.
  unfold note_key. by repeat case_match.
Qed.

Lemma note_keys_phases slot keys st :
  (foldl (λ st key, note_key slot key st) st keys).(Phase) = st.(Phase) ∧
  (foldl (λ st key, note_key slot key st) st keys).(PreFailPhase) = st.(PreFailPhase).
Proof. pose proof (note_keys_core slot keys st) as Hc. unfold core in Hc. by simplify_eq. Qed.

Lemma HandleEncryption_phase vc v : ensures (HandleEncryption vc) v (to_phase VolumePhasePrepared v.(Status)).
Proof.
  unfold HandleEncryption, with_handler, HandleEncryptionWithHandler. vstep_tac; try done.
  unfold to_phase. cbn [io_env Status].
  split; (etrans; [apply note_keys_phases|reflexivity]).
Qed.

Lemma Format_phase vc v :
  ensures (Format vc) v (λ v' r, v'.(Status).(PreFailPhase) = v.(Status).(PreFailPhase) ∧
    match r with
    | inr _ => v'.(Status).(Phase) = VolumePhaseReady
    | inl _ => v'.(Status).(Phase) = v.(Status).(Phase) ∨ v'.(Status).(Phase) = VolumePhaseProvisioned
    end).
Proof. unfold Format, format_found, format_none, set_ready. vstep_tac; simpl; auto. Qed.

Lemma Close_phase vc v : ensures (Close vc) v (to_phase VolumePhaseClosed v.(Status)).
Proof. unfold Close, with_handler, CloseWithHandler. vstep_tac; done. Qed.

(** Looking for the volume changes nothing. *)
Lemma locator_matches_pure vc dv v :
  ensures (locator_matches vc dv) v (λ v' r, v' = v ∧ match r with inr b => b = is_match vc dv | inl _ => True end).
Proof.
  unfold locator_matches, is_match. vstep_tac; simpl; repeat case_match; simplify_eq/=; done.
Qed.

Lemma locate_pure vc dvs v :
  ensures (locate vc dvs) v (λ v' r, v' = v ∧
    match r with inr o => o = find (is_match vc) dvs | inl _ => True end).
Proof.
  revert v. induction dvs as [|dv dvs IH]; intros v; cbn [locate find]; [by apply ensures_ret|].
  apply ensures_bind. eapply ensures_mono; [|apply locator_matches_pure].
  intros v' [e|b] [-> Hb]; [done|]. rewrite <-Hb. destruct b; [by apply ensures_ret|apply IH].
Qed.

Lemma match_disks_pure vc disks v : ensures (match_disks vc disks) v (λ v' r, v' = v).
Proof.
  revert v. induction disks as [|d disks IH]; intros v; cbn [match_disks]; [by apply ensures_ret|].
  case_match; [apply IH|]. apply ensures_bind, ensures_lift. intros r _.
  apply ensures_bind, ensures_map_err, ensures_of_result. destruct r as [e|b]; [done|].
  apply ensures_bind. eapply ensures_mono; [|apply IH]. intros v' [e|l] ->; [done|]. by apply ensures_ret.
Qed.

Lemma provision_phase vc v : ensures (provision vc) v (to_phase VolumePhaseProvisioned v.(Status)).
Proof.
  unfold provision. apply ensures_bind. eapply ensures_mono; [|apply match_disks_pure].
  intros v' [e|disks] ->; [done|]. vstep_tac; try done.
Qed.

(** A volume that is looked for goes where the specification says. *)
Lemma LocateAndProvision_phase vc v :
  waiting v.(Status).(Phase) →
  ensures (LocateAndProvision vc) v (λ v' r, v'.(Status).(PreFailPhase) = v.(Status).(PreFailPhase) ∧
    match r with
    | inr _ => builds vc v.(Status) v'.(Status).(Phase)
    | inl _ => v'.(Status).(Phase) = v.(Status).(Phase)
    end).
Proof.
  intros Hw. unfold LocateAndProvision. apply ensures_bind, ensures_update.
  destruct (is_block vc) eqn:Hb; unfold is_block in Hb.
  2: { destruct (Type_ (Cfg vc)) eqn:Ht; try done; vstep_tac; simpl; (split; [done|]);
       apply builds_static; unfold is_block; by rewrite ?Ht. }
  assert (ensures (locate_or_provision vc)
    {| io_env := io_env v;
       Status := (Status v) <| mountSpec := Mount (Cfg vc) |> <| SymlinkSpec := Symlink (Cfg vc) |> |}
    (λ v' r, v'.(Status).(PreFailPhase) = v.(Status).(PreFailPhase) ∧
      match r with
      | inr _ => builds vc v.(Status) v'.(Status).(Phase)
      | inl _ => v'.(Status).(Phase) = v.(Status).(Phase)
      end)) as H; [|by destruct (Type_ (Cfg vc))].
  unfold locate_or_provision. destruct (Locator_IsZero _); [by apply ensures_throw|].
  apply ensures_bind. eapply ensures_mono; [|apply locate_pure].
  intros v' [e|o] [-> Ho]; [done|]. fold (found vc) in Ho. destruct o as [dv|].
  { apply ensures_update. split; [done|]. simpl. by eapply builds_located. }
  assert (Hidle : may_provision vc = false → builds vc (Status v) (idle_phase vc)) by (by constructor).
  assert (Hprov : may_provision vc = true → builds vc (Status v) VolumePhaseProvisioned) by (by constructor).
  unfold may_provision, idle_phase in *.
  destruct (DevicesReady vc), (Provisioning_IsZero (Provisioning (Cfg vc))), (PreviousWaveProvisioned vc);
    simpl in *; try (apply ensures_update; simpl; split; [done|by apply Hidle]).
  eapply ensures_mono; [|apply provision_phase]. intros v' [e|[]] [? ->]; split; auto.
Qed.


(** ** One turn *)

Lemma builds_det vc st p p' : builds vc st p → builds vc st p' → p = p'.
Proof.
  intros H1 H2. destruct H1, H2; unfold waiting in *; try congruence;
    repeat match goal with H : _ ∨ _ |- _ => destruct H end; congruence.
Qed.

Lemma builds_phases vc st st' p :
  builds vc st p → st'.(Phase) = st.(Phase) → st'.(PreFailPhase) = st.(PreFailPhase) → builds vc st' p.
Proof.
  intros H1 Hp Hf. destruct H1; unfold waiting in *; rewrite <-Hp in *; rewrite <-?Hf;
    econstructor; unfold waiting; eassumption.
Qed.

(** Nothing is left to do: every step keeps the phase. *)
Definition settled vc st : Prop := ∀ st', vstep vc st st' → st'.(Phase) = st.(Phase).

Lemma vstep_settled vc st st' : vstep vc st st' → st'.(Phase) = st.(Phase) → settled vc st'.
Proof.
  intros [Hf H1] Hp st'' [Hf' H2]. destruct (ShouldCloseVolume vc).
  - inversion H1; inversion H2; subst; congruence.
  - rewrite Hp in H1. rewrite Hp. eapply builds_det; [|done].
    eapply builds_phases; [exact H2| |]; congruence.
Qed.

Definition after_turn vc st (v' : volume (W:=W)) (r : error + bool) : Prop :=
  v'.(Status).(PreFailPhase) = st.(PreFailPhase) ∧
  match r with
  | inr true => v'.(Status) = st ∧ settled vc st
  | inr false => vstep vc st v'.(Status)
  | inl _ =>
      v'.(Status).(Phase) = st.(Phase) ∨
      st.(Phase) = VolumePhasePrepared ∧ v'.(Status).(Phase) = VolumePhaseProvisioned
  end.

(** A turn that consists of an operation. *)
Lemma turn_op vc v (op : vio ()) p :
  (if ShouldCloseVolume vc then closes v.(Status) p else builds vc v.(Status) p) →
  ensures op v (to_phase p v.(Status)) →
  ensures (_ ← op; mret false) v (after_turn vc v.(Status)).
Proof.
  intros Hp Hop. apply ensures_bind. eapply ensures_mono; [|apply Hop].
  intros v' [e|[]] [Hf Hph]; [split; auto|]. apply ensures_ret. split; [done|].
  split; [done|]. by rewrite Hph.
Qed.

Lemma set_phase_to p v : ensures (set_phase p) v (to_phase p v.(Status)).
Proof. apply ensures_update. done. Qed.

Lemma turn_spec vc v : ensures (turn vc) v (after_turn vc v.(Status)).
Proof.
  unfold turn. apply ensures_bind, ensures_status.
  assert (Hend : settled vc v.(Status) → ensures (mret true) v (after_turn vc v.(Status)))
    by (intros; by apply ensures_ret).
  destruct (ShouldCloseVolume vc) eqn:Hc; simpl; destruct (Phase (Status v)) eqn:Hp.
  1, 3-7: eapply turn_op; [rewrite Hc; apply closes_open; congruence|first [apply set_phase_to|apply Close_phase]].
  1: eapply turn_op; [rewrite Hc; by apply closes_recovered|apply set_phase_to].
  1: { apply Hend. intros st' [_ H1]. rewrite Hc in H1. inversion H1; congruence. }
  1, 3: apply ensures_bind; (eapply ensures_mono; [|apply LocateAndProvision_phase; unfold waiting; auto]);
    intros v' [e|[]] [Hf Hph]; [split; auto|]; apply ensures_ret; (split; [done|]); split; [done|];
    by rewrite Hc.
  - eapply turn_op; [rewrite Hc; by apply builds_recovered|apply set_phase_to].
  - eapply turn_op; [rewrite Hc; by apply builds_grown|apply Grow_phase].
  - eapply turn_op; [rewrite Hc; by apply builds_prepared|apply HandleEncryption_phase].
  - apply ensures_bind. eapply ensures_mono; [|apply Format_phase].
    intros v' [e|[]] [Hf Hph]; [split; [done|]; destruct Hph; auto|]. apply ensures_ret.
    split; [done|]. split; [done|]. rewrite Hc, Hph. by apply builds_ready.
  - apply Hend. intros st' [_ H1]. rewrite Hc in H1. inversion H1; unfold waiting in *; naive_solver congruence.
  - apply Hend. intros st' [_ H1]. rewrite Hc in H1. inversion H1; unfold waiting in *; naive_solver congruence.
Qed.


(** ** The loop *)

(** The last thing that was done was to ask whether the context is done, after all the logged
    calls, and it was. *)
Definition found_done (v' : volume (W:=W)) : Prop :=
  ∃ e : env W, trace e = trace v'.(io_env) ∧ ctx_Done (world e) = (world v'.(io_env), true).

Definition loop_post vc st (v' : volume (W:=W)) (r : error + ()) : Prop :=
  ∃ st', rtc (vstep vc) st st' ∧
    match r with
    | inr _ => v'.(Status) = st' ∧ (settled vc st' ∨ found_done v')
    | inl _ =>
        v'.(Status).(Phase) = st'.(Phase) ∨
        st'.(Phase) = VolumePhasePrepared ∧ v'.(Status).(Phase) = VolumePhaseProvisioned
    end.

Lemma process_loop_spec vc out fuel v :
  (∀ v st, ensures out v (loop_post vc st)) →
  ensures (process_loop out fuel vc v.(Status).(Phase)) v (loop_post vc v.(Status)).
Proof.
  intros Hout. revert v. induction fuel as [|fuel IH]; intros v; cbn [process_loop]; [apply Hout|].
  apply ensures_bind. eapply ensures_mono; [|apply turn_spec].
  intros v' [e|[|]] [Hf Hr].
  - exists v.(Status). by split.
  - apply ensures_ret. exists v.(Status). destruct Hr as [-> Hr]. split; [done|auto].
  - apply ensures_bind, ensures_status. case_bool_decide as Hp.
    { apply ensures_ret. exists v'.(Status). split; [by apply rtc_once|].
      split; [done|]. left. by eapply vstep_settled. }
    apply ensures_bind, ensures_zoom, ensures_ask. intros w done Hdone. simpl.
    destruct done.
    { apply ensures_ret. exists v'.(Status). split; [by apply rtc_once|]. split; [done|]. right.
      exists v'.(io_env). by rewrite app_nil_r. }
    eapply ensures_mono; [|apply (IH {| io_env := _; Status := v'.(Status) |})].
    intros v'' r (st' & Hst' & H'). exists st'. split; [by eapply rtc_l|done].
Qed.

(** How many turns a status is away from the end, at most. *)
Definition rank vc st : nat :=
  if vc.(ShouldCloseVolume) then
    match st.(Phase) with VolumePhaseClosed => 0 | VolumePhaseFailed => 2 | _ => 1 end
  else
    match st.(Phase) with
    | VolumePhaseReady | VolumePhaseClosed => 0
    | VolumePhasePrepared => 1
    | VolumePhaseProvisioned => 2
    | VolumePhaseLocated => 3
    | VolumePhaseWaiting | VolumePhaseMissing =>
        if bool_decide (st.(Phase) = idle_phase vc) then 4 else 5
    | VolumePhaseFailed => 6
    end.

Lemma rank_bound vc st : (rank vc st < process_fuel)%nat.
Proof. unfold rank, process_fuel. repeat case_match; lia. Qed.

Lemma vstep_rank vc st st' :
  vstep vc st st' → st'.(Phase) ≠ st.(Phase) → (rank vc st' < rank vc st)%nat.
Proof.
  intros [_ H1] Hne. unfold rank. generalize dependent (Phase st'). intros p' H1 Hne.
  destruct (ShouldCloseVolume vc).
  - inversion H1; subst; repeat case_match; simplify_eq; try done; lia.
  - assert (Hi : waiting (idle_phase vc)) by (unfold waiting, idle_phase; repeat case_match; auto).
    inversion H1 as [? Hw|? ? Hw|? Hw|? Hw|? Hw|? Hw|? Hw|? Hw]; subst.
    1, 2, 4: destruct Hw as [Hw|Hw]; rewrite Hw; case_bool_decide; lia.
    2-4: rewrite Hw; lia.
    + rewrite (bool_decide_eq_true_2 (idle_phase vc = idle_phase vc)) by done.
      rewrite (bool_decide_eq_false_2 (Phase st = idle_phase vc)) by congruence.
      destruct Hw as [Hw|Hw], Hi as [Hi|Hi]; rewrite Hw, Hi; lia.
    + rewrite Hw in *. destruct (PreFailPhase st); try done; try case_bool_decide; lia.
Qed.

(** With more fuel than the rank, it does not matter what comes after the fuel. *)
Lemma process_loop_fuel vc out out' fuel v :
  (rank vc v.(Status) < fuel)%nat →
  process_loop out fuel vc v.(Status).(Phase) v = process_loop out' fuel vc v.(Status).(Phase) v.
Proof.
  revert v. induction fuel as [|fuel IH]; intros v Hr; [lia|]. cbn [process_loop].
  unfold mbind, prog_bind.
  destruct (turn vc v) as [[v' [e|[|]]]|[]|] eqn:Hturn; try done.
  destruct (turn_spec vc v _ _ Hturn) as [_ Hv]. simpl.
  destruct (bool_decide_reflect (Phase (Status v') = Phase (Status v))) as [Hp|Hp]; [done|].
  unfold on_devices, zoom, ask. destruct (ctx_Done (world (io_env v'))) as [w []]; [done|].
  apply (IH {| io_env := _; Status := v'.(Status) |}). pose proof (vstep_rank _ _ _ Hv Hp). simpl. lia.
Qed.

(** C7: a volume goes through its phases as specified, and gets to the end.  Processing it
    always ends within eight turns of the loop: what would come after them does not matter.
    Whatever the devices answer, the phases a call passes through follow the steps of
    [builds] (towards [Ready]) or, when the volume is to be closed, of [closes]; a call
    that reports no error stops where no step leads to another phase, unless the last thing
    it did was to ask whether its context is done, and it was; and a call that reports an
    error leaves the volume in the phase in which the error occurred, except that a volume
    found to be encrypted without an encryption configuration goes back from [Prepared] to
    [Provisioned]. *)
Theorem volume_automaton vc v :
  (∀ out, processVolumeConfig vc v = process_loop out 8 vc v.(Status).(Phase) v) ∧
  ∀ v' r, processVolumeConfig vc v = Ok (v', r) →
  ∃ st', rtc (vstep vc) v.(Status) st' ∧
    match r with
    | inr _ => v'.(Status) = st' ∧ (settled vc st' ∨ found_done v')
    | inl _ =>
        v'.(Status).(Phase) = st'.(Phase) ∨
        st'.(Phase) = VolumePhasePrepared ∧ v'.(Status).(Phase) = VolumePhaseProvisioned
    end.
Proof.
  split; [intros out; apply process_loop_fuel, rank_bound|].
  intros v' r H1. unfold processVolumeConfig in H1. cbn in H1. revert v' r H1.
  apply (process_loop_spec vc (lift (Panic LoopFuel)) process_fuel v).
  intros v1 st. by apply ensures_lift.
Qed.
End process.
