(* ===== verification/VolumeSafety.v ===== *)
(** * No data is lost

    Volumes overwrite devices: partition tables are made, partitions wiped, filesystems
    and LUKS headers written.  A monitor reads the log of the calls and accepts it only if
    each of these calls comes, under the exclusive lock of the disk, after a probe that
    found nothing there that it would destroy.  Everything [processVolumeConfig] does is
    accepted, whatever the devices answer. *)

From S2P Require Import Prelude Errors Block Devices Keys Encryption Volumes VolumeProcess.

(** ** Programs that log only some kinds of calls *)

Section logs_only.
Context {S : Type} (log : S → list event) (P : event → Prop).
Notation io := (prog S error).

Definition logs_only {A} (c : io A) : Prop :=
  ∀ s, ensures c s (λ s' _, ∃ t, log s' = log s ++ t ∧ Forall P t).

Lemma logs_only_nothing {A} (c : io A) : (∀ s, ensures c s (λ s' _, log s' = log s)) → logs_only c.
Proof.
  intros Hc s. eapply ensures_mono; [|apply Hc]. simpl. intros s' ? Hs. exists []. by rewrite app_nil_r.
Qed.
Lemma logs_only_ret {A} (a : A) : logs_only (mret a).
Proof. apply logs_only_nothing. intros s. by apply ensures_ret. Qed.
Lemma logs_only_throw {A} e : logs_only (throw e : io A).
Proof. apply logs_only_nothing. intros s. by apply ensures_throw. Qed.
Lemma emits_bind {A B} (c : io A) (f : A → io B) :
  logs_only c → (∀ a, logs_only (f a)) → logs_only (c ≫= f).
Proof.
  intros Hc Hf s. apply ensures_bind. eapply ensures_mono; [|apply Hc].
  intros s' [e|a] (t & Ht & HP); [eauto|]. eapply ensures_mono; [|apply Hf].
  intros s'' ? (t' & Ht' & HP'). exists (t ++ t'). rewrite Ht', Ht, app_assoc. split; [done|].
  by apply Forall_app.
Qed.
Lemma emits_map_err {A} f (c : io A) : logs_only c → logs_only (map_err f c).
Proof. intros Hc s. apply ensures_map_err. exact (Hc s). Qed.
Lemma emits_try {A} (c : io A) : logs_only c → logs_only (try c : io _).
Proof. intros Hc s. apply ensures_try. exact (Hc s). Qed.
Lemma emits_defer {A} (d : io ()) (c : io A) : logs_only d → logs_only c → logs_only (with_defer d c).
Proof.
  intros Hd Hc s. apply ensures_defer. eapply ensures_mono; [|apply Hc].
  intros s' r (t & Ht & HP). eapply ensures_mono; [|apply Hd].
  intros s'' ? (t' & Ht' & HP'). exists (t ++ t'). rewrite Ht', Ht, app_assoc. split; [done|].
  by apply Forall_app.
Qed.
Lemma emits_for_each {A} (f : A → io ()) l : (∀ x, x ∈ l → logs_only (f x)) → logs_only (for_each f l).
Proof.
  induction l as [|x l IH]; intros Hf; cbn [for_each]; [apply logs_only_ret|].
  apply emits_bind; [apply Hf; left|]. intros _. apply IH. intros y Hy. apply Hf. by right.
Qed.
End logs_only.
Notation emits := (logs_only trace).

Section emits.
Context {W : Type} (P : event → Prop).
Notation io := (prog (env W) error).
Lemma emits_quiet {A} (c : io A) : quiet c → emits P c.
Proof. intros Hc. apply logs_only_nothing. intros s. apply Hc. Qed.
Lemma emits_call f ev : (∀ err, Forall P (ev err)) → emits P (call f ev : io ()).
Proof. intros HP s. apply ensures_call. intros w err _. simpl. eauto. Qed.
Lemma emits_query {A} (f : W → W * (error + A)) ev : (∀ a, Forall P (ev a)) → emits P (query f ev : io A).
Proof. intros HP s. apply ensures_query. intros w [e|a] _; simpl; eauto using Forall_nil_2. Qed.
End emits.

(** Prove an [emits] goal by its structure. *)
Ltac emits_tac :=
  repeat first
    [ progress intros
    | solve [eauto 2]
    | apply emits_quiet; solve [eauto using quiet_ret, quiet_throw, quiet_of_result, quiet_query, quiet_call, quiet_run, quiet_ask]
    | apply emits_call; intros; by repeat constructor
    | apply emits_query; intros; by repeat constructor
    | apply emits_bind | apply emits_defer | apply emits_map_err | apply emits_try
    | case_match ].

(** *** The encryption handler *)

Section handler.
Context {W : Type} `{HD : Devices W} `{HKS : KeyServices W} `{HL : Luks}.

(** Calls on the keys of a volume that is encrypted already. *)
Definition key_call (ev : event) : Prop :=
  match ev with
  | EvReadKeyslots _ _ | EvSetToken _ _ | EvAddKey _ _ _ | EvRemoveKey _ _ _ | EvOpen _ _ => True
  | _ => False
  end.

Lemma emits_set_token path slot t : emits key_call (set_token path slot t).
Proof. unfold set_token. destruct t; emits_tac. Qed.
Lemma emits_addKey path k h : quiet_handler h → emits key_call (addKey path k h).
Proof.
  intros Hh. unfold addKey, wrapf. apply emits_bind; [by apply emits_quiet, quiet_NewKey|].
  intros [key token]. apply emits_bind; [apply emits_set_token|]. emits_tac.
Qed.
Lemma emits_removeKey path slot k : emits key_call (removeKey path slot k).
Proof. unfold removeKey. emits_tac. Qed.
Lemma emits_updateKey path k h : quiet_handler h → emits key_call (updateKey path k h).
Proof.
  intros Hh. unfold updateKey, wrapf. apply emits_bind; [by apply emits_quiet, quiet_checkKey|].
  intros []; [by apply emits_quiet, quiet_ret|].
  apply emits_bind; [apply emits_map_err, emits_removeKey|]. intros []. by apply emits_map_err, emits_addKey.
Qed.
Lemma emits_collect {A B} (f : A → prog (env W) error (list B)) l :
  (∀ x, x ∈ l → emits key_call (f x)) → emits key_call (collect f l).
Proof.
  induction l as [|x l IH]; intros Hf; cbn [collect]; [apply emits_quiet, quiet_ret|].
  apply emits_bind; [apply Hf; left|]. intros a. apply emits_bind; [|emits_tac].
  apply IH. intros y Hy. apply Hf. by right.
Qed.

Lemma emits_syncKeys h path k : Forall quiet_handler h → emits key_call (syncKeys h path k).
Proof.
  intros Hq. rewrite Forall_forall in Hq. unfold syncKeys.
  apply emits_bind; [apply emits_query; by repeat constructor|]. intros names.
  apply emits_bind; [apply emits_collect|intros failed; apply emits_bind; [apply emits_collect|emits_tac]].
  - intros x Hx. unfold sync_handler.
    repeat case_match; try (by apply emits_quiet, quiet_ret);
      (apply emits_bind; [apply emits_try; auto using emits_updateKey, emits_addKey|emits_tac]).
  - intros name _. unfold sync_slot.
    repeat case_match; try (by apply emits_quiet, quiet_ret); try (by apply emits_quiet, quiet_throw).
    all: apply emits_bind; [apply emits_try, emits_removeKey|].
    all: intros [e|[]]; [by apply emits_quiet, quiet_ret|].
    + by apply emits_quiet, quiet_ret.
    + intros s. by apply ensures_lift.
Qed.

Lemma emits_tryHandlers {A} (h : EncHandler) (cb : Handler → prog (env W) error A) :
  (∀ x, x ∈ h → emits key_call (cb x)) → emits key_call (tryHandlers h cb).
Proof.
  intros Hcb. unfold tryHandlers. destruct h as [|x h]; [by apply emits_quiet, quiet_throw|].
  generalize (@nil error). revert Hcb. generalize (x :: h). clear x h.
  induction l as [|x l IH]; intros Hcb errs; cbn [try_each]; [by apply emits_quiet, quiet_throw|].
  apply emits_bind; [apply emits_try, Hcb; left|]. intros [e|a]; [|by apply emits_quiet, quiet_ret].
  apply IH. intros y Hy. apply Hcb. by right.
Qed.

Lemma emits_Open h path mapped : Forall quiet_handler h → emits key_call (Encryption.Open h path mapped).
Proof.
  intros Hq. unfold Open. apply emits_bind; [apply emits_quiet, quiet_query|]. intros [isOpen p].
  apply emits_bind.
  - destruct isOpen; [by apply emits_quiet, quiet_ret|].
    apply emits_bind; [|intros [? []]; by apply emits_quiet, quiet_ret].
    apply emits_tryHandlers. intros x Hx. unfold open_with. rewrite Forall_forall in Hq.
    apply emits_bind; [apply emits_quiet, quiet_readToken|]. intros t.
    apply emits_bind; [apply emits_quiet, quiet_GetKey; auto|]. emits_tac.
  - intros [p' k]. apply emits_bind; [by apply emits_syncKeys|]. intros failed.
    destruct k; [by apply emits_quiet, quiet_ret|]. intros s. by apply ensures_lift.
Qed.

(** A format encrypts the volume and works on its keys. *)
Lemma emits_FormatAndEncrypt h path : Forall quiet_handler h →
  emits (λ ev, key_call ev ∨ ∃ slot ok, ev = EvEncrypt path slot ok) (FormatAndEncrypt h path).
Proof.
  intros Hq. unfold FormatAndEncrypt. rewrite Forall_forall in Hq.
  assert (Hmono : ∀ A (c : prog (env W) error A), emits key_call c →
    emits (λ ev, key_call ev ∨ ∃ slot ok, ev = EvEncrypt path slot ok) c).
  { intros A c Hc s. eapply ensures_mono; [|apply Hc]. intros s' ? (t & ? & ?). exists t.
    split; [done|]. eapply Forall_impl; [done|]. auto. }
  apply emits_bind.
  - apply Hmono, emits_tryHandlers. intros x Hx. apply emits_quiet, quiet_NewKey; auto.
  - intros [x [k token]]. apply emits_bind; [apply emits_call; intros err; apply Forall_singleton; right; eauto|].
    intros []. apply emits_bind; [apply Hmono, emits_set_token|]. intros [].
    apply Hmono, emits_for_each. intros y Hy. case_match; [by apply emits_quiet, quiet_ret|].
    apply emits_addKey; auto.
Qed.
End handler.

(** ** The monitor *)

Record monitor := {
  locked : option string;              (** the disk under the exclusive lock *)
  under_lock : gmap string string;     (** what probes found since the lock was taken *)
  seen : gmap string string;           (** what the last probe of a path found *)
  fresh : list string                  (** the partitions made since the lock was taken *)
}.

Definition unlocked : monitor := {| locked := None; under_lock := ∅; seen := ∅; fresh := [] |}.

Section monitor.
Context `{celgo : CelGo} `{hum : Humanize} {W : Type} `{HD : Devices W} `{HKS : KeyServices W} `{HL : Luks}.

(** [None]: the call is not allowed. *)
Definition mon_step (m : monitor) (ev : event) : option monitor :=
  match ev with
  | EvLock disk => Some {| locked := Some disk; under_lock := ∅; seen := m.(seen); fresh := [] |}
  | EvUnlock _ => Some {| locked := None; under_lock := ∅; seen := m.(seen); fresh := [] |}
  | EvProbe path name =>
      Some {| locked := m.(locked);
              under_lock := if m.(locked) then <[path := name]> m.(under_lock) else m.(under_lock);
              seen := <[path := name]> m.(seen); fresh := m.(fresh) |}
  | EvNewTable disk =>
      guard (m.(locked) = Some disk ∧ m.(seen) !! disk = Some ""%string);; Some m
  | EvAllocate disk idx =>
      guard (m.(locked) = Some disk);;
      Some {| locked := m.(locked); under_lock := m.(under_lock); seen := m.(seen);
              fresh := DevName disk idx :: m.(fresh) |}
  | EvGrowPartition disk _ _ | EvWriteTable disk => guard (m.(locked) = Some disk);; Some m
  | EvWipe path => guard (path ∈ m.(fresh));; Some m
  | EvMkfs _ path =>
      guard (m.(under_lock) !! path = Some ""%string ∨ m.(under_lock) !! path = Some "swap"%string);; Some m
  | EvEncrypt path _ _ => guard (m.(under_lock) !! path = Some ""%string);; Some m
  | EvGrowFs path => guard (is_Some (m.(under_lock) !! path));; Some m
  | _ => Some m
  end.

Fixpoint mon_run (m : monitor) (t : list event) : option monitor :=
  match t with
  | [] => Some m
  | ev :: t => m ← mon_step m ev; mon_run m t
  end.

(** The log is accepted and leaves no lock behind. *)
Definition accepted (t : list event) : Prop := ∃ m, mon_run unlocked t = Some m ∧ m.(locked) = None.

Lemma mon_run_app m t t' : mon_run m (t ++ t') = mon_run m t ≫= λ m, mon_run m t'.
Proof. revert m. induction t as [|ev t IH]; intros m; simpl; [done|]. by destruct (mon_step m ev); simpl. Qed.

(** *** Triples: the log is accepted, from monitors in [P] to monitors in [Q] *)

Section triples.
Context {S : Type} (log : S → list event).

Definition triple {A} (P : monitor → Prop) (c : prog S error A) (Q : monitor → error + A → Prop) : Prop :=
  ∀ s m, mon_run unlocked (log s) = Some m → P m →
  ensures c s (λ s' r, ∃ m', mon_run unlocked (log s') = Some m' ∧ Q m' r).

Lemma triple_ret {A} (a : A) P (Q : monitor → error + A → Prop) :
  (∀ m, P m → Q m (inr a)) → triple P (mret a) Q.
Proof. intros HQ s m Hm HP. apply ensures_ret. eauto. Qed.
Lemma triple_throw {A} e P (Q : monitor → error + A → Prop) :
  (∀ m, P m → Q m (inl e)) → triple P (throw e) Q.
Proof. intros HQ s m Hm HP. apply ensures_throw. eauto. Qed.
Lemma triple_bind {A B} P (c : prog S error A) (f : A → prog S error B) R Q :
  triple P c R → (∀ a, triple (λ m, R m (inr a)) (f a) Q) → (∀ m e, R m (inl e) → Q m (inl e)) →
  triple P (c ≫= f) Q.
Proof.
  intros Hc Hf He s m Hm HP. apply ensures_bind. eapply ensures_mono; [|by apply (Hc s m)].
  intros s' [e|a] (m' & Hm' & HR); [eauto|]. by apply (Hf a s' m').
Qed.
Lemma triple_map_err {A} P f (c : prog S error A) Q :
  triple P c (λ m r, Q m (match r with inl e => inl (f e) | inr a => inr a end)) → triple P (map_err f c) Q.
Proof. intros Hc s m Hm HP. apply ensures_map_err. by apply (Hc s m). Qed.
Lemma triple_try {A} P (c : prog S error A) Q :
  triple P c (λ m r, Q m (inr r)) → triple P (try c : prog S error _) Q.
Proof. intros Hc s m Hm HP. apply ensures_try. by apply (Hc s m). Qed.
Lemma triple_defer {A} P (d : prog S error ()) (c : prog S error A) R Q :
  triple P c R → (∀ r, triple (λ m, R m r) d (λ m _, Q m r)) → triple P (with_defer d c) Q.
Proof.
  intros Hc Hd s m Hm HP. apply ensures_defer. eapply ensures_mono; [|by apply (Hc s m)].
  intros s' r (m' & Hm' & HR). eapply ensures_mono; [|by apply (Hd r s' m')]. done.
Qed.
Lemma triple_mono {A} (P P' : monitor → Prop) (c : prog S error A) (Q Q' : monitor → error + A → Prop) :
  triple P c Q → (∀ m, P' m → P m) → (∀ m r, Q m r → Q' m r) → triple P' c Q'.
Proof.
  intros Hc HP HQ s m Hm HP'. eapply ensures_mono; [|apply (Hc s m); auto].
  intros s' r (m' & ? & ?). eauto.
Qed.
Lemma triple_lift {A} c P (Q : monitor → error + A → Prop) :
  (∀ m a, c = Ok a → P m → Q m (inr a)) → triple P (lift c) Q.
Proof. intros HQ s m Hm HP. apply ensures_lift. intros. eauto. Qed.
Lemma triple_of_result {A} (r : error + A) P (Q : monitor → error + A → Prop) :
  (∀ m, P m → Q m r) → triple P (of_result r) Q.
Proof. intros HQ s m Hm HP. apply ensures_of_result. eauto. Qed.
End triples.

Notation io := (prog (env W) error).
Notation mt := (triple (S:=env W) trace).

(** Calls that do not concern the monitor. *)
Definition harmless (ev : event) : Prop := ∀ m, mon_step m ev = Some m.
Lemma harmless_run t m : Forall harmless t → mon_run m t = Some m.
Proof. induction 1 as [|ev t Hev Ht IH]; simpl; [done|]. by rewrite Hev. Qed.
Lemma key_call_harmless ev : key_call ev → harmless ev.
Proof. by destruct ev. Qed.

Lemma mt_emits {A} (E : event → Prop) (c : io A) (P : monitor → Prop) :
  emits E c → (∀ ev m, E ev → P m → mon_step m ev = Some m) → mt P c (λ m _, P m).
Proof.
  intros Hc HE s m Hm HP. eapply ensures_mono; [|apply Hc].
  intros s' r (t & Ht & Hev). exists m. split; [|done]. rewrite Ht, mon_run_app, Hm. simpl. clear Hm Ht.
  induction Hev as [|ev t Hev Hev' IH]; simpl; [done|]. by rewrite HE.
Qed.
Lemma mt_quiet {A} (c : io A) P : quiet c → mt P c (λ m _, P m).
Proof. intros Hc. apply (mt_emits (λ _, False)); [by apply emits_quiet|done]. Qed.

Lemma mt_call f ev P Q :
  (∀ m err, P m → ∃ m', mon_run m (ev err) = Some m' ∧ Q m' (match err with Some e => inl e | None => inr () end)) →
  mt P (call f ev) Q.
Proof.
  intros HPQ s m Hm HP. apply ensures_call. intros w err _. destruct (HPQ m err HP) as (m' & ? & ?).
  exists m'. simpl. rewrite mon_run_app, Hm. auto.
Qed.
Lemma mt_query {A} (f : W → W * (error + A)) ev P Q :
  (∀ m a, P m → ∃ m', mon_run m (ev a) = Some m' ∧ Q m' (inr a)) → (∀ m e, P m → Q m (inl e)) →
  mt P (query f ev) Q.
Proof.
  intros HPQ He s m Hm HP. apply ensures_query. intros w [e|a] _; simpl.
  - exists m. rewrite app_nil_r. auto.
  - destruct (HPQ m a HP) as (m' & ? & ?). exists m'. rewrite mon_run_app, Hm. auto.
Qed.

(** *** Under a lock *)

Definition idle (m : monitor) : Prop := m.(locked) = None.
(** The lock on [disk] was just taken, and the monitor remembers [F] about the probes. *)
Definition just_locked (disk : string) (F : gmap string string → Prop) (m : monitor) : Prop :=
  m.(locked) = Some disk ∧ m.(under_lock) = ∅ ∧ F m.(seen).

Lemma mt_unlock path P : mt P (unlock path) (λ m _, idle m).
Proof. intros s m Hm _. apply ensures_run. intros w. eexists. simpl. rewrite mon_run_app, Hm. by split. Qed.

Lemma mt_lock path F : mt (λ m, idle m ∧ F m.(seen)) (lock_exclusive path)
  (λ m r, match r with inr _ => just_locked path F m | inl _ => idle m end).
Proof. apply mt_call. intros m [e|] [Hi HF]; eexists; split; simpl; by eauto. Qed.

Lemma mt_probe path P Q :
  (∀ m info, P m → Q {| locked := m.(locked);
              under_lock := if m.(locked) then <[path := info.(probeName)]> m.(under_lock) else m.(under_lock);
              seen := <[path := info.(probeName)]> m.(seen); fresh := m.(fresh) |} (inr info)) →
  (∀ m e, P m → Q m (inl e)) → mt P (probe path) Q.
Proof. intros HQ He. apply mt_query; [|done]. intros m info HP. eexists. split; [done|]. auto. Qed.

Lemma mt_locked_device {A} path F (c : io A) R :
  mt (just_locked path F) c R → 
  mt (λ m, idle m ∧ F m.(seen)) (with_locked_device path c) (λ m r, idle m).
Proof.
  intros Hc. unfold with_locked_device, retryf.
  eapply (triple_bind _ _ _ _ (λ m _, idle m ∧ F m.(seen))); [apply triple_map_err, mt_quiet, quiet_call| |by intros ? ? []].
  intros []. eapply (triple_defer _ _ _ _ (λ m _, idle m)).
  2: { intros r. apply mt_quiet, quiet_run. }
  eapply (triple_bind _ _ _ _ (λ m r, match r with inr _ => just_locked path F m | inl _ => idle m end)); [| |done].
  { eapply triple_map_err, triple_mono; [apply (mt_lock path F)|by intros m []|]. by intros m [e|[]]. }
  intros []. simpl. eapply triple_defer; [exact Hc|]. intros r. apply mt_unlock.
Qed.

(** ** The operations *)

Implicit Types (cfg : VolumeConfigSpec).

Lemma mt_emits_val {A} (E : event → Prop) (V : error + A → Prop) (c : io A) (P : monitor → Prop) :
  emits E c → (∀ s, ensures c s (λ _ r, V r)) → (∀ ev m, E ev → P m → mon_step m ev = Some m) →
  mt P c (λ m r, P m ∧ V r).
Proof.
  intros Hc HV HE s m Hm HP. eapply ensures_mono; [|apply (ensures_and _ _ _ _ (mt_emits E c P Hc HE s m Hm HP) (HV s))].
  intros s' r [(m' & ? & ?) ?]. eauto.
Qed.

Definition reads_table (ev : event) : Prop := match ev with EvReadTable _ => True | _ => False end.

Lemma mt_CheckGPT d minSize size P :
  mt P (CheckGPT d minSize size) (λ m r, P m ∧ match r with inr res => HasGPT res = true | inl _ => True end).
Proof.
  apply (mt_emits_val reads_table); [| |by intros []].
  - unfold CheckGPT, with_device, read_table. emits_tac.
  - intros s. unfold CheckGPT, with_device. slot_tac.
Qed.

(** A disk without a GPT that a partition can be made on was just found blank. *)
Lemma mt_CheckDiskForProvisioning d cfg :
  mt idle (CheckDiskForProvisioning d cfg) (λ m r, idle m ∧ ∀ res, r = inr res →
    CanProvision res = true → Type_ cfg = VolumeTypePartition → HasGPT res = false →
    m.(seen) !! d = Some ""%string).
Proof.
  unfold CheckDiskForProvisioning, or_rejected.
  eapply (triple_bind _ _ _ _ (λ m r, idle m ∧ ∀ res, r = inr (inr res) →
    CanProvision res = true → Type_ cfg = VolumeTypePartition → HasGPT res = false →
    m.(seen) !! d = Some ""%string)); [| |by intros m e []].
  2: { intros [e|res]; apply triple_ret; intros m [? H1]; (split; [done|]); intros res' [= <-]; [done|].
       by apply H1. }
  apply triple_try. eapply (triple_bind _ _ _ _ (λ m r, idle m ∧
    ∀ info, r = inr info → m.(seen) !! d = Some info.(probeName))); [| |by intros m e []].
  { apply mt_probe; [|by intros]. intros m info Hm. split; [done|]. intros ? [= <-]. simpl.
    by rewrite lookup_insert_eq. }
  intros info. destruct (Type_ cfg).
  1: destruct (String.eqb_spec (probeName info) "") as [Hn|Hn]; simpl.
  2: destruct (negb _).
  3: { eapply triple_mono; [apply mt_CheckGPT|exact (λ m H, H)|]. simpl. intros m r [[Hi _] Hr].
       split; [done|]. intros res [= ->]. congruence. }
  2, 3: apply triple_ret; intros m [Hi _]; split; [done|]; by intros ? [= <-].
  1: { apply triple_ret. simpl. intros m [Hi H1]. split; [done|].
       intros res [= <-] _ _ _. rewrite (H1 _ eq_refl). by f_equal. }
  all: apply triple_lift; intros; discriminate.
Qed.

Lemma mt_WipeWithSignatures path : mt (λ m, path ∈ m.(fresh)) (WipeWithSignatures path) (λ m _, True).
Proof.
  eapply triple_mono; [apply (mt_emits (λ ev, ev = EvWipe path))|exact (λ m H, H)|done].
  - unfold WipeWithSignatures. emits_tac.
  - intros ev m -> Hm. simpl. by rewrite option_guard_True.
Qed.

Lemma just_locked_locked disk F m : just_locked disk F m → m.(locked) = Some disk.
Proof. by intros []. Qed.

Lemma mt_allocate disk pt size label type :
  mt (λ m, m.(locked) = Some disk) (allocate disk pt size label type) (λ m r, m.(locked) = Some disk ∧
    match r with inr (_, idx, _) => DevName disk idx ∈ m.(fresh) | inl _ => True end).
Proof.
  apply mt_query; [|by intros m e Hm]. intros m [[pt' idx] guid] Hm. simpl.
  rewrite option_guard_True by done. eexists. split; [done|]. simpl. split; [done|]. left.
Qed.

Lemma mt_write_table disk pt (P : monitor → Prop) :
  (∀ m, P m → m.(locked) = Some disk) → mt P (write_table disk pt) (λ m _, P m).
Proof.
  intros HP. apply mt_call. intros m err Hm. exists m. split; [|done]. simpl.
  rewrite option_guard_True; [done|auto].
Qed.

(** Sequencing with a condition that errors keep. *)
Lemma mt_bind_keep {A B} (P : monitor → Prop) (c : io A) (f : A → io B) Q :
  mt P c (λ m _, P m) → (∀ a, mt P (f a) Q) → (∀ m e, P m → Q m (inl e)) → mt P (c ≫= f) Q.
Proof. intros Hc Hf He. eapply triple_bind; [exact Hc|exact Hf|exact He]. Qed.

Lemma mt_CreatePartition disk cfg hasPT :
  mt (λ m, idle m ∧ (hasPT = false → m.(seen) !! disk = Some ""%string))
     (CreatePartition disk cfg hasPT) (λ m _, idle m).
Proof.
  unfold CreatePartition, wrapf, retryf.
  apply (mt_locked_device _ (λ sn, hasPT = false → sn !! disk = Some ""%string) _ (λ _ _, True)).
  apply mt_bind_keep; [apply triple_map_err, mt_quiet, quiet_call| |done]. intros [].
  apply mt_bind_keep; [apply triple_map_err| |done].
  { destruct hasPT.
    - apply (mt_emits reads_table); [unfold read_table; emits_tac|by intros []].
    - apply mt_query; [|done]. intros m pt Hm. exists m. split; [|done]. destruct Hm as (Hl & _ & Hs). simpl.
      by rewrite option_guard_True by auto. }
  intros pt. apply mt_bind_keep; [apply triple_map_err, mt_quiet, quiet_of_result| |done]. intros maxSize.
  destruct (_ <? _); [by apply triple_throw|].
  apply mt_bind_keep; [apply triple_map_err, mt_quiet, quiet_of_result| |done]. intros typeUUID.
  eapply (triple_bind _ _ _ _ (λ m r, m.(locked) = Some disk ∧
    match r with inr (_, idx, _) => DevName disk idx ∈ m.(fresh) | inl _ => True end));
    [|intros [[pt' idx] guid]|done].
  { eapply triple_map_err, triple_mono; [apply mt_allocate|apply just_locked_locked|]. by intros m [e|[[]]]. }
  simpl. apply mt_bind_keep; [apply triple_map_err, mt_write_table; by intros m []| |done]. intros [].
  apply mt_bind_keep; [apply triple_map_err, mt_quiet, quiet_call| |done]. intros [].
  eapply triple_defer; [|intros r; apply mt_quiet, quiet_run].
  eapply (triple_bind _ _ _ _ (λ _ _, True)); [|intros []; by apply triple_ret|done].
  eapply triple_map_err, triple_mono; [apply mt_WipeWithSignatures|by intros m []|done].
Qed.

Definition grow_call (disk : string) (ev : event) : Prop :=
  match ev with
  | EvReadTable _ => True
  | EvGrowPartition d _ _ | EvWriteTable d => d = disk
  | _ => False
  end.

(** ** The operations on a volume *)

Notation vio := (prog (volume (W:=W)) error).
Notation vt := (triple (S:=volume (W:=W)) (λ v, trace (io_env v))).
Implicit Types (vc : ManagerContext (W:=W)).

Lemma vt_update f P : vt P (update f) (λ m _, P m).
Proof. intros v m Hm HP. apply ensures_update. eauto. Qed.
Lemma vt_status P : vt P status (λ m _, P m).
Proof. intros v m Hm HP. apply ensures_status. eauto. Qed.
Lemma vt_on_devices {A} (c : io A) P Q : mt P c Q → vt P (on_devices c) Q.
Proof. intros Hc v m Hm HP. apply ensures_zoom. eapply ensures_mono; [|by apply (Hc (io_env v) m)]. done. Qed.
Lemma vt_bind_keep {A B} (P : monitor → Prop) (c : vio A) (f : A → vio B) Q :
  vt P c (λ m _, P m) → (∀ a, vt P (f a) Q) → (∀ m e, P m → Q m (inl e)) → vt P (c ≫= f) Q.
Proof. intros Hc Hf He. eapply triple_bind; [exact Hc|exact Hf|exact He]. Qed.
(** A program that does not log at all. *)
Lemma vt_pure {A} (c : vio A) P :
  (∀ v, ensures c v (λ v' _, io_env v' = io_env v)) → vt P c (λ m _, P m).
Proof.
  intros Hc v m Hm HP. eapply ensures_mono; [|apply Hc]. simpl. intros v' r ->. eauto.
Qed.

Lemma mt_pick_disk cfg disks rejected :
  mt idle (pick_disk cfg disks rejected) (λ m r, idle m ∧ ∀ rej d res, r = inr (rej, Some (d, res)) →
    CanProvision res = true ∧ (Type_ cfg = VolumeTypePartition → HasGPT res = false →
    m.(seen) !! d = Some ""%string)).
Proof.
  revert rejected. induction disks as [|d disks IH]; intros rejected; cbn [pick_disk].
  { apply triple_ret. intros m Hm. split; [done|]. by intros. }
  eapply triple_bind; [apply mt_CheckDiskForProvisioning| |by intros m e []]. intros res. simpl.
  destruct (CanProvision res) eqn:Hcan.
  - apply triple_ret. intros m [Hm H1]. split; [done|]. intros ? ? ? [= <- <- <-]. split; [done|]. by eauto.
  - eapply triple_mono; [apply IH|by intros m []|done].
Qed.

Lemma mt_pick cfg disks :
  mt idle (pick cfg disks) (λ m r, idle m ∧ ∀ d res, r = inr (d, res) →
    Type_ cfg = VolumeTypePartition → HasGPT res = false → m.(seen) !! d = Some ""%string).
Proof.
  unfold pick. eapply triple_bind; [apply mt_pick_disk| |by intros m e []]. intros [rej picked]. simpl.
  destruct picked as [[[|c d] res]|];
    [apply triple_throw|apply triple_ret|apply triple_throw]; intros m [Hm H1]; (split; [done|]); try done.
  intros ? ? [= <- <-]. by destruct (H1 _ _ _ eq_refl).
Qed.

Lemma vt_provision vc : vt idle (provision vc) (λ m _, idle m).
Proof.
  unfold provision, wrapf. apply vt_bind_keep; [apply vt_pure; intros v; eapply ensures_mono;
    [|apply match_disks_pure]; by intros v' r ->| |done]. intros disks.
  destruct (bool_decide _); [by apply triple_throw|]. destruct (_ && _); [by apply triple_throw|].
  eapply triple_bind; [apply vt_on_devices, mt_pick| |by intros m e []]. intros [d res]. simpl.
  destruct (Type_ (Cfg vc)) eqn:Ht; try (by apply triple_lift).
  - eapply (triple_bind _ _ _ _ (λ m _, idle m)); [|intros a; apply vt_update|done].
    apply triple_map_err, vt_on_devices. eapply triple_mono; [apply mt_CreatePartition| |done].
    simpl. intros m [Hm H1]. split; [done|]. intros Hp. by eapply H1.
  - eapply triple_mono; [apply vt_update|by intros m []|done].
Qed.

Lemma vt_LocateAndProvision vc : vt idle (LocateAndProvision vc) (λ m _, idle m).
Proof.
  unfold LocateAndProvision. apply vt_bind_keep; [apply vt_update| |done]. intros [].
  assert (vt idle (locate_or_provision vc) (λ m _, idle m)) as Hl.
  { unfold locate_or_provision. destruct (Locator_IsZero _); [by apply triple_throw|].
    apply vt_bind_keep; [apply vt_pure; intros v; eapply ensures_mono;
      [|apply locate_pure]; by intros v' r [-> _]| |done].
    intros [dv|]; [apply vt_update|]. repeat (destruct (_ : bool); [apply vt_update|]). apply vt_provision. }
  destruct (Type_ (Cfg vc)); first [exact Hl|apply vt_update].
Qed.

Lemma vt_Grow vc : vt idle (Grow vc) (λ m _, idle m).
Proof.
  unfold Grow, wrapf. destruct (negb _); [apply vt_update|].
  apply vt_bind_keep; [apply vt_status| |done]. intros st. destruct (_ && _); [apply vt_update|].
  apply vt_bind_keep; [apply vt_on_devices| |done].
  - eapply triple_mono; [apply (mt_locked_device _ (λ _, True) _ (λ m _, m.(locked) = Some st.(ParentLocation)))
      |by intros|done].
    eapply triple_mono; [apply (mt_emits (grow_call st.(ParentLocation)) _ (λ m, m.(locked) = Some st.(ParentLocation)))
      |apply just_locked_locked|done].
    + apply emits_bind; [apply emits_quiet, quiet_map_err, quiet_call|]. intros [].
      unfold read_table, grow_partition, write_table. emits_tac.
    + intros [] m Hev Hm; try done; simpl in Hev; subst; simpl; by rewrite option_guard_True.
  - intros [g|]; [|apply vt_update]. apply vt_bind_keep; [apply vt_update| |done]. intros [].
    apply vt_update.
Qed.

(** *** Encryption *)

Definition safe_context vc : Prop := quiet_opts vc.(EncryptionHelpers).

Lemma safe_key_opts vc : safe_context vc → quiet_opts (key_opts vc).
Proof. by intros (? & ? & ?). Qed.

Lemma vt_HandleEncryptionWithHandler vc h :
  Forall quiet_handler h → vt idle (HandleEncryptionWithHandler vc h) (λ m _, idle m).
Proof.
  intros Hq. unfold HandleEncryptionWithHandler, retryf, wrapf.
  apply vt_bind_keep; [apply vt_status| |done]. intros st.
  apply vt_bind_keep; [apply vt_on_devices| |done].
  2: { intros [[p slot] failed]. do 2 (apply vt_bind_keep; [apply vt_update| |done]; intros []). apply vt_update. }
  eapply triple_mono; [apply (mt_locked_device _ (λ _, True) _ (λ _ _, True))|by intros|done].
  eapply (triple_bind _ _ _ _ (λ m r, ∀ info, r = inr info → m.(under_lock) !! st.(Location) = Some info.(probeName)));
    [|intros info|done].
  { apply triple_map_err, mt_probe; [|done]. intros m info (Hl & Hu & _) ? [= <-]. simpl.
    rewrite Hl. by rewrite lookup_insert_eq. }
  apply (triple_bind _ _ _ _ (λ _ _, True)); [| |done].
  - destruct (String.eqb_spec (probeName info) "") as [Hn|Hn]; [|destruct (String.eqb _ _)].
    + apply triple_map_err. eapply triple_mono;
        [apply (mt_emits _ _ (λ m, m.(under_lock) !! st.(Location) = Some ""%string) (emits_FormatAndEncrypt h _ Hq))| |done].
      * intros ev m [Hev|(slot & ok & ->)] Hm; [by apply key_call_harmless|]. simpl.
        by rewrite option_guard_True.
      * intros m H1. simpl. rewrite (H1 _ eq_refl). by f_equal.
    + by apply triple_ret.
    + by apply triple_throw.
  - intros []. eapply (triple_bind _ _ _ _ (λ _ _, True)); [| |done].
    + apply triple_map_err, (mt_emits _ _ _ (emits_Open h _ _ Hq)). intros ev m Hev _.
      by apply key_call_harmless.
    + intros [[p slot] failed]. apply (triple_bind _ _ _ _ (λ _ _, True)); [| |done].
      * apply triple_map_err, mt_quiet, quiet_query.
      * intros resolved. by apply triple_ret.
Qed.

Lemma vt_HandleEncryption vc : safe_context vc → vt idle (HandleEncryption vc) (λ m _, idle m).
Proof.
  intros Hs. unfold HandleEncryption, with_handler. case_match; [apply vt_update|].
  destruct (Encryption.New _ _) as [err|h] eqn:Hh; [by apply triple_throw|].
  apply vt_HandleEncryptionWithHandler. by eapply New_made, safe_key_opts.
Qed.

Lemma vt_Close vc : vt idle (Volumes.Close vc) (λ m _, idle m).
Proof.
  unfold Volumes.Close, with_handler, CloseWithHandler.
  repeat case_match; try apply vt_update; try (by apply triple_throw).
  all: apply vt_bind_keep; [apply triple_map_err, vt_on_devices| |done]; [|intros []; apply vt_update].
  all: apply (mt_emits (λ ev, ∃ mapped, ev = EvClose mapped)); [|by intros ev m [? ->]].
  all: unfold Encryption.Close; apply emits_bind;
    [apply emits_try, emits_call; intros; apply Forall_singleton; eauto|].
  all: intros [err|[]]; [|by apply emits_quiet, quiet_ret].
  all: destruct (errors_Is _ _); apply emits_quiet; [apply quiet_ret|apply quiet_throw].
Qed.

(** *** Filesystems *)

Lemma mt_make_filesystem vc st :
  mt (λ m, m.(under_lock) !! st.(MountLocation) = Some ""%string ∨ m.(under_lock) !! st.(MountLocation) = Some "swap"%string)
     (make_filesystem vc st) (λ _ _, True).
Proof.
  eapply triple_mono; [apply (mt_emits (λ ev, ∃ fs, ev = EvMkfs fs st.(MountLocation)))|exact (λ m H, H)|done].
  - unfold make_filesystem, make_fs, retryf. case_match; try (by apply emits_quiet, quiet_throw).
    all: apply emits_map_err, emits_call; intros; apply Forall_singleton; eauto.
  - intros ev m [fs ->] Hm. simpl. by rewrite option_guard_True.
Qed.

Lemma mt_GrowFilesystem vc location :
  mt (λ m, is_Some (m.(under_lock) !! location)) (GrowFilesystem vc location) (λ _ _, True).
Proof.
  eapply triple_mono; [apply (mt_emits (λ ev, ev = EvGrowFs location))|exact (λ m H, H)|done].
  - unfold GrowFilesystem, wrapf. case_match; try (by apply emits_quiet, quiet_throw).
    + apply emits_bind; [apply emits_map_err, emits_quiet, quiet_query|]. intros dir.
      apply emits_defer; [apply emits_quiet, quiet_run|].
      apply emits_bind; [apply emits_map_err, emits_quiet, quiet_call|]. intros [].
      apply emits_defer; [apply emits_quiet, quiet_run|].
      apply emits_map_err, emits_call. intros. by apply Forall_singleton.
    + apply emits_map_err, emits_call. intros. by apply Forall_singleton.
    + apply emits_quiet, quiet_ret.
  - intros ev m -> Hm. simpl. by rewrite option_guard_True.
Qed.

Lemma vt_format_found vc st name :
  vt (λ m, m.(under_lock) !! st.(MountLocation) = Some name) (format_found vc st name) (λ _ _, True).
Proof.
  unfold format_found, format_none, wrapf, set_ready. destruct (bool_decide _).
  { apply (triple_bind _ _ _ _ (λ _ _, True)); [eapply triple_mono; [apply (vt_update _ (λ _, True))|done|done]| |done]. intros [].
    apply (triple_bind _ _ _ _ (λ _ _, True)); [| |done]; [|intros []; eapply triple_mono; [apply (vt_update _ (λ _, True))|done|done]].
    destruct (negb _); [|by apply triple_ret].
    destruct (String.eqb _ _); [by apply triple_throw|]. destruct (String.eqb _ _); [|by apply triple_ret].
    apply vt_bind_keep; [apply vt_update| |done]. intros []. by apply triple_throw. }
  destruct (String.eqb_spec name ""), (String.eqb_spec name "swap"); simpl; subst; try discriminate.
  1-2: apply (triple_bind _ _ _ _ (λ _ _, True)); [|intros []; eapply triple_mono; [apply (vt_update _ (λ _, True))|done|done]|done].
  1-2: apply vt_on_devices; eapply triple_mono; [apply mt_make_filesystem|intros m Hm; simpl; auto|done].
  destruct (String.eqb _ _); [|by apply triple_throw].
  apply (triple_bind _ _ _ _ (λ _ _, True)); [|intros []; eapply triple_mono; [apply (vt_update _ (λ _, True))|done|done]|done].
  destruct (grow _); [|by apply triple_ret].
  apply triple_map_err, vt_on_devices. eapply triple_mono; [apply mt_GrowFilesystem|intros m Hm; simpl; eauto|done].
Qed.

Lemma vt_Format vc : vt idle (Format vc) (λ m _, idle m).
Proof.
  unfold Format, retryf. apply vt_bind_keep; [apply vt_status| |done]. intros st.
  apply vt_bind_keep; [apply triple_map_err, vt_on_devices, mt_quiet, quiet_call| |done]. intros [].
  eapply (triple_defer _ _ _ _ (λ m _, idle m)); [|intros r; apply vt_on_devices, mt_quiet, quiet_run].
  eapply (triple_bind _ _ _ _ (λ m r,
    match r with inr _ => just_locked (lock_path st) (λ _, True) m | inl _ => idle m end)); [| |done].
  { eapply triple_map_err, vt_on_devices, triple_mono; [apply (mt_lock _ (λ _, True))|by intros m|].
    by intros m [e|[]]. }
  intros []. simpl. eapply (triple_defer _ _ _ _ (λ _ _, True)); [|intros r; apply vt_on_devices, mt_unlock].
  eapply (triple_bind _ _ _ _ (λ m r, ∀ info, r = inr info →
    m.(under_lock) !! st.(MountLocation) = Some info.(probeName))); [|intros info|done].
  { apply triple_map_err, vt_on_devices, mt_probe; [|done]. intros m info (Hl & Hu & _) ? [= <-]. simpl.
    rewrite Hl. by rewrite lookup_insert_eq. }
  eapply triple_mono; [apply vt_format_found| |done]. intros m H1. by apply H1.
Qed.

(** ** The whole automaton *)

Lemma vt_turn vc : safe_context vc → vt idle (turn vc) (λ m _, idle m).
Proof.
  intros Hs. unfold turn. apply vt_bind_keep; [apply vt_status| |done]. intros st.
  destruct (negb _), (Phase st); try (by apply triple_ret);
    (apply vt_bind_keep; [|intros []; by apply triple_ret|done]);
    first [apply vt_update|auto using vt_LocateAndProvision, vt_Grow, vt_HandleEncryption, vt_Format, vt_Close].
Qed.

Lemma vt_process_loop vc out fuel prev :
  safe_context vc → vt idle out (λ m _, idle m) →
  vt idle (process_loop out fuel vc prev) (λ m _, idle m).
Proof.
  intros Hs Hout. revert prev. induction fuel as [|fuel IH]; intros prev; cbn [process_loop]; [done|].
  apply vt_bind_keep; [by apply vt_turn| |done]. intros []; [by apply triple_ret|].
  apply vt_bind_keep; [apply vt_status| |done]. intros st. destruct (bool_decide _); [by apply triple_ret|].
  apply vt_bind_keep; [apply vt_on_devices, mt_quiet, quiet_ask| |done].
  intros []; [by apply triple_ret|apply IH].
Qed.

Lemma vt_processVolumeConfig vc : safe_context vc → vt idle (processVolumeConfig vc) (λ m _, idle m).
Proof.
  intros Hs. unfold processVolumeConfig. apply vt_bind_keep; [apply vt_status| |done]. intros st.
  apply vt_process_loop; [done|]. by apply triple_lift.
Qed.

(** *** What the monitor's memory means *)

(** Under the lock of [disk], the last probe of [path] found [name]. *)
Definition probed_under_lock (t : list event) (path name : string) : Prop :=
  ∃ t1 disk t2 t3, t = t1 ++ EvLock disk :: t2 ++ EvProbe path name :: t3 ∧
    Forall (λ ev, match ev with EvUnlock _ => False | _ => True end) (t2 ++ t3) ∧
    Forall (λ ev, match ev with EvProbe p _ => p ≠ path | _ => True end) t3.

Lemma mon_run_snoc t ev m' :
  mon_run unlocked (t ++ [ev]) = Some m' → ∃ m, mon_run unlocked t = Some m ∧ mon_step m ev = Some m'.
Proof.
  rewrite mon_run_app. destruct (mon_run unlocked t) as [m|]; [|done]. simpl.
  destruct (mon_step m ev) eqn:Hev; [|done]. intros [= <-]. eauto.
Qed.

(** The lock of [disk] was taken, and not released since. *)
Definition lock_held (disk : string) (t : list event) : Prop :=
  ∃ t1 t2, t = t1 ++ EvLock disk :: t2 ∧
    Forall (λ ev, match ev with EvUnlock _ => False | _ => True end) t2.

Lemma mon_memory t m :
  mon_run unlocked t = Some m →
  (∀ disk, m.(locked) = Some disk → lock_held disk t) ∧
  (m.(locked) = None → m.(under_lock) = ∅) ∧
  (∀ path name, m.(under_lock) !! path = Some name → probed_under_lock t path name).
Proof.
  revert m. induction t as [|ev t IH] using rev_ind; intros m'.
  { intros [= <-]. split_and!; [done..|]. simpl. intros path name. by rewrite lookup_empty. }
  intros (m & Hm & Hstep)%mon_run_snoc. destruct (IH m Hm) as (Hl & He & Hu). clear IH Hm.
  assert (Hkeep_l : ∀ disk, (∀ p, ev ≠ EvUnlock p) → lock_held disk t → lock_held disk (t ++ [ev])).
  { intros disk Hev (t1 & t2 & -> & H2). exists t1, (t2 ++ [ev]). split; [by simplify_list_eq|].
    apply Forall_app; split; [done|]. apply Forall_singleton. destruct ev; try done. by destruct (Hev path). }
  assert (Hkeep_u : ∀ path name, (∀ p, ev ≠ EvUnlock p) → (∀ n, ev ≠ EvProbe path n) →
    probed_under_lock t path name → probed_under_lock (t ++ [ev]) path name).
  { intros path name Hev Hpr (t1 & disk & t2 & t3 & -> & H2 & H3). exists t1, disk, t2, (t3 ++ [ev]). split_and!.
    - by simplify_list_eq.
    - rewrite app_assoc. apply Forall_app; split; [done|]. apply Forall_singleton.
      destruct ev; try done. by destruct (Hev path0).
    - apply Forall_app; split; [done|]. apply Forall_singleton. destruct ev; try done. intros ->. by eapply Hpr. }
  destruct ev as [p|p|p n| | | | | | | | | | | | | | | | |]; simpl in Hstep; try case_guard; simplify_eq/=.
  all: try (split_and!; [intros; apply Hkeep_l; [done|by apply Hl]|done|intros; apply Hkeep_u; try done; by apply Hu]).
  - split_and!; [|done|intros path name; by rewrite lookup_empty]. intros disk [= <-]. by exists t, [].
  - destruct (locked m) as [disk|] eqn:Hlk.
    2: { split_and!; [done..|]. intros path name. rewrite He by done. by rewrite lookup_empty. }
    split_and!; [intros; apply Hkeep_l; [done|by apply Hl]|done|]. intros path name.
    destruct (decide (p = path)) as [->|Hne].
    + rewrite lookup_insert_eq. intros [= ->]. destruct (Hl disk eq_refl) as (t1 & t2 & -> & H2).
      exists t1, disk, t2, []. rewrite app_nil_r. split_and!; [by simplify_list_eq|done|constructor].
    + rewrite lookup_insert_ne by done. intros H1. apply Hkeep_u; [done|congruence|by apply Hu].
Qed.

(** The last probe of [path] found [name]. *)
Definition last_probe (t : list event) (path name : string) : Prop :=
  ∃ t1 t2, t = t1 ++ EvProbe path name :: t2 ∧
    Forall (λ ev, match ev with EvProbe p _ => p ≠ path | _ => True end) t2.

Lemma mon_seen t m path name :
  mon_run unlocked t = Some m → m.(seen) !! path = Some name → last_probe t path name.
Proof.
  revert m. induction t as [|ev t IH] using rev_ind; intros m'; [by intros [= <-]|].
  intros (m & Hm & Hstep)%mon_run_snoc.
  assert (Hkeep : (∀ n, ev ≠ EvProbe path n) → last_probe t path name → last_probe (t ++ [ev]) path name).
  { intros Hpr (t1 & t2 & -> & H2). exists t1, (t2 ++ [ev]). split; [by simplify_list_eq|].
    apply Forall_app; split; [done|]. apply Forall_singleton. destruct ev; try done. intros ->. by eapply Hpr. }
  destruct ev as [p|p|p n| | | | | | | | | | | | | | | | |]; simpl in Hstep; try case_guard; simplify_eq/=;
    try (intros H1; apply Hkeep; [done|by eapply IH]).
  destruct (decide (p = path)) as [->|Hne].
  - rewrite lookup_insert_eq. intros [= ->]. by exists t, [].
  - rewrite lookup_insert_ne by done. intros H1. apply Hkeep; [congruence|by eapply IH].
Qed.

Lemma accepted_prefix t1 ev t2 :
  accepted (t1 ++ ev :: t2) → ∃ m, mon_run unlocked t1 = Some m ∧ is_Some (mon_step m ev).
Proof.
  intros (m' & Hm & _). rewrite mon_run_app in Hm. destruct (mon_run unlocked t1) as [m|]; [|done].
  simpl in Hm. destruct (mon_step m ev) eqn:Hs; [|done]. eauto.
Qed.

(** C1: processing a volume destroys no data.  From a log the monitor accepts, the log of
    [processVolumeConfig] is accepted again, whatever the devices answer and however the
    call ends, and no lock is left behind.  In particular a filesystem is only made on a
    path that was probed under the exclusive lock still held and found blank or swap, a
    path is only encrypted when it was found blank in the same way, and a partition table
    is only made under the exclusive lock of the disk, when the last probe of the disk found
    it blank; that probe may have been made before the lock was taken.  The hypotheses say
    that the helpers of the keys log nothing and that the log so far is accepted, as the
    empty one is. *)
Theorem volumes_destroy_no_data vc v v' r :
  safe_context vc → accepted (trace (io_env v)) → processVolumeConfig vc v = Ok (v', r) →
  let t := trace (io_env v') in
  accepted t ∧
  (∀ t1 fs path t2, t = t1 ++ EvMkfs fs path :: t2 →
     probed_under_lock t1 path "" ∨ probed_under_lock t1 path "swap") ∧
  (∀ t1 path slot ok t2, t = t1 ++ EvEncrypt path slot ok :: t2 → probed_under_lock t1 path "") ∧
  (∀ t1 disk t2, t = t1 ++ EvNewTable disk :: t2 → lock_held disk t1 ∧ last_probe t1 disk "").
Proof.
  intros Hs (m & Hm & Hi) Hr t.
  assert (accepted t) as Ha.
  { destruct (vt_processVolumeConfig vc Hs v m Hm Hi _ _ Hr) as (m' & ? & ?). by exists m'. }
  split_and!; [done|intros t1 fs path t2 Ht|intros t1 path slot ok t2 Ht|intros t1 disk t2 Ht];
    rewrite Ht in Ha; apply accepted_prefix in Ha as (m' & Hm' & [? Hstep]); simpl in Hstep; case_guard as Hg; try done.
  - destruct (mon_memory _ _ Hm') as (_ & _ & Hu). destruct Hg; [left|right]; by apply Hu.
  - destruct (mon_memory _ _ Hm') as (_ & _ & Hu). by apply Hu.
  - destruct (mon_memory _ _ Hm') as (Hl & _ & _), Hg as [Hlk Hseen]. split; [by apply Hl|by eapply mon_seen].
Qed.
End monitor.
