(* ===== verification/VolumeManager.v ===== *)
(** * The volume manager

    [internal/app/machined/pkg/controllers/block/volume_manager.go]: the controller that
    turns volume configurations into volume statuses.  One pass of its [Run] loop is
    [reconcile]: a function of what the controller reads ([inputs]), on the state it keeps
    between passes, the devices and the resources.  Logging is left out. *)

From S2P Require Import Prelude Errors Block Devices Keys Encryption Volumes VolumeProcess.

(** ** The order of the volumes *)

(** [slices.SortStableFunc]. *)
Fixpoint insert_stable {A} (cmp : A → A → Z) (x : A) (l : list A) : list A :=
  match l with
  | [] => [x]
  | y :: l => if cmp y x <=? 0 then y :: insert_stable cmp x l else x :: y :: l
  end.
Definition SortStableFunc {A} (cmp : A → A → Z) (l : list A) : list A :=
  foldl (λ acc x, insert_stable cmp x acc) [] l.

(** [int]: 64 bits with wrap-around. *)
Definition int (n : Z) : Z := (n + 2 ^ 63) mod 2 ^ 64 - 2 ^ 63.
Definition MaxInt : Z := 2 ^ 63 - 1.

(** Calls on the resources. *)
Class Runtime (W : Type) := {
  rt_AddFinalizer : resource → string → W → W * option error;
  rt_RemoveFinalizer : resource → string → W → W * option error;
  rt_Teardown : resource → W → W * option error;
  rt_Destroy : resource → W → W * option error;
  rt_WriteStatus : VolumeStatus → W → W * option error;
  (** [drr.TypedSpec().Request++] in the refresh request: the new number *)
  rt_NextRefreshRequest : W → W * (error + Z)
}.

Definition ControllerName : string := "block.VolumeManagerController".
Definition MetaPartitionLabel : string := "META".

Section manager.
Context `{celgo : CelGo} `{hum : Humanize} {W : Type} `{HD : Devices W} `{HKS : KeyServices W} `{HL : Luks}.
Context `{HR : Runtime W}.
Notation io := (prog (env W) error).

(** A [VolumeConfig] resource. *)
Record VolumeConfig := {
  configID : string; configPhase : resource_phase; configFinalizers : list string;
  configLabels : gmap string string; configSpec : VolumeConfigSpec
}.

Definition compare_configs (a b : VolumeConfig) : Z := CompareVolumeConfigs a.(configSpec) b.(configSpec).

(** What all the volumes of a pass share. *)
Record pass := {
  passDiscovered : list DiscoveredVolumeSpec;
  passDisks : list DiskContext;
  passDevicesReady : bool;
  passTearingDown : bool;                          (** [volumeLifecycleTearingDown] *)
  passHelpers : string → KeyOptions (W:=W)
}.

(** The state of the loop over the volumes. *)
Record manager := {
  mgr_io : env W;
  statuses : gmap string VolumeStatus;
  allClosed : bool;
  shouldRetry : bool
}.
Notation mio := (prog manager error).

Definition on_io {A} (c : io A) : mio A :=
  zoom mgr_io (λ e m, {| mgr_io := e; statuses := m.(statuses); allClosed := m.(allClosed);
                         shouldRetry := m.(shouldRetry) |}) c.
Definition set_statuses (f : gmap string VolumeStatus → gmap string VolumeStatus) : mio () :=
  modify (λ m, {| mgr_io := m.(mgr_io); statuses := f m.(statuses); allClosed := m.(allClosed);
                  shouldRetry := m.(shouldRetry) |}).
Definition and_closed (b : bool) : mio () :=
  modify (λ m, {| mgr_io := m.(mgr_io); statuses := m.(statuses); allClosed := m.(allClosed) && b;
                  shouldRetry := m.(shouldRetry) |}).

Definition runtime (f : W → W * option error) (c : runtime_call) : io () :=
  call f (λ _, [EvRuntime c]).
Definition AddFinalizer (r : resource) (fin : string) : io () :=
  runtime (rt_AddFinalizer r fin) (RtAddFinalizer r fin).
Definition RemoveFinalizer (r : resource) (fin : string) : io () :=
  runtime (rt_RemoveFinalizer r fin) (RtRemoveFinalizer r fin).
Definition Teardown (r : resource) : io () := runtime (rt_Teardown r) (RtTeardown r).
Definition Destroy (r : resource) : io () := runtime (rt_Destroy r) (RtDestroy r).
Definition WriteStatus (st : VolumeStatus) : io () := runtime (rt_WriteStatus st) (RtWrite st.(statusID)).

(** ** One volume *)

Notation vio := (prog (volume (W:=W)) error).

Definition progressVolumeConfig (vc : ManagerContext (W:=W)) : vio () :=
  if negb vc.(ShouldCloseVolume) && negb (String.eqb vc.(Cfg).(ParentID) "") then
    match vc.(ParentStatus) with
    | None => mret ()
    | Some parent =>
        _ ← (if bool_decide (vc.(ParentFinalizer) ∈ parent.(statusFinalizers)) then mret ()
             else wrapf "error adding finalizer to parent volume configuration: %w"
                    (on_devices (AddFinalizer (StatusResource parent.(statusID)) vc.(ParentFinalizer))));
        processVolumeConfig vc
    end
  else processVolumeConfig vc.

(** What the loop makes of the result of [progressVolumeConfig]. *)
Definition record_result (r : error + ()) (st : VolumeStatusSpec) : VolumeStatusSpec :=
  match r with
  | inl e => st <| PreFailPhase := st.(Phase) |> <| Phase := VolumePhaseFailed |> <| ErrorMessage := Some e |>
  | inr _ => st <| ErrorMessage := None |> <| PreFailPhase := VolumePhaseWaiting |>
  end.

(** [progressVolumeConfig] on the status of the volume, which it changes in place. *)
Definition progress (vc : ManagerContext (W:=W)) (st : VolumeStatusSpec) : mio VolumeStatusSpec := λ m,
  match progressVolumeConfig vc {| io_env := m.(mgr_io); Status := st |} with
  | Ok (v, r) =>
      Ok ({| mgr_io := v.(io_env); statuses := m.(statuses); allClosed := m.(allClosed);
             shouldRetry := m.(shouldRetry) || match r with inl e => TagIs_Retryable e | inr _ => false end |},
          inr (record_result r v.(Status)))
  | Err e => match e with end
  | Panic p => Panic p
  end.

(** [if res.Metadata().Finalizers().Has(fin) { r.RemoveFinalizer(...) }] *)
Definition release (format : string) (r : resource) (finalizers : list string) (fin : string) : mio () :=
  if bool_decide (fin ∈ finalizers) then wrapf format (on_io (RemoveFinalizer r fin)) else mret ().

Definition release_parent (parent : option VolumeStatus) (parentFinalizer : string) : mio () :=
  match parent with
  | None => mret ()
  | Some p =>
      release "error removing finalizer from parent volume configuration: %w"
        (StatusResource p.(statusID)) p.(statusFinalizers) parentFinalizer
  end.

Definition parent_of (vc : VolumeConfig) (sts : gmap string VolumeStatus) : option VolumeStatus :=
  if String.eqb vc.(configSpec).(ParentID) "" then None else sts !! vc.(configSpec).(ParentID).

Definition parent_finalizer (vc : VolumeConfig) : string := (ControllerName +:+ "-" +:+ vc.(configID))%string.

Definition phase_is (p : resource_phase) (st : option VolumeStatus) : bool :=
  match st with Some st => bool_decide (st.(statusPhase) = p) | None => false end.

(** Is the volume torn down, or built? *)
Definition tearing_down (ps : pass) (vc : VolumeConfig) (sts : gmap string VolumeStatus) : bool :=
  phase_is PhaseTearingDown (sts !! vc.(configID)) || bool_decide (vc.(configPhase) = PhaseTearingDown) ||
  phase_is PhaseTearingDown (parent_of vc sts) || ps.(passTearingDown).

(** The stub of a volume that has no status yet. *)
Definition stub (vc : VolumeConfig) : VolumeStatus :=
  {| statusID := vc.(configID); statusPhase := PhaseRunning; statusFinalizers := [];
     statusLabels := vc.(configLabels);
     statusSpec := zeroStatus <| Phase := VolumePhaseWaiting |>
       <| statusType := vc.(configSpec).(Type_) |> <| statusParentID := vc.(configSpec).(ParentID) |> |}.

Definition with_spec (st : VolumeStatus) (spec : VolumeStatusSpec) : VolumeStatus :=
  {| statusID := st.(statusID); statusPhase := st.(statusPhase); statusFinalizers := st.(statusFinalizers);
     statusLabels := st.(statusLabels); statusSpec := spec |}.

(** The rest of an iteration, for a volume with the status [st]; the result is the phase
    the volume is left in. *)
Definition process_status (ps : pass) (vc : VolumeConfig) (gate tearingDown : bool) (st : VolumeStatus)
    (parent : option VolumeStatus) : mio VolumePhase :=
  _ ← (if tearingDown && negb (bool_decide (st.(statusPhase) = PhaseTearingDown)) then
         wrapf "error tearing down volume status: %w" (on_io (Teardown (StatusResource st.(statusID))))
       else mret ());
  let shouldCloseVolume := tearingDown && bool_decide (st.(statusFinalizers) = []) in
  spec ← progress
    {| CfgID := vc.(configID); Cfg := vc.(configSpec); ParentStatus := parent;
       ParentFinalizer := parent_finalizer vc;
       DiscoveredVolumes := ps.(passDiscovered); Disks := ps.(passDisks);
       DevicesReady := ps.(passDevicesReady); PreviousWaveProvisioned := gate;
       EncryptionHelpers := ps.(passHelpers) vc.(configID);
       ShouldCloseVolume := shouldCloseVolume |} st.(statusSpec);
  _ ← set_statuses <[vc.(configID) := with_spec st spec]>;
  let closed := bool_decide (spec.(Phase) = VolumePhaseClosed) in
  _ ← and_closed (closed || String.eqb vc.(configID) MetaPartitionLabel);
  _ ← (if shouldCloseVolume && closed then
         _ ← release_parent parent (parent_finalizer vc);
         _ ← wrapf "error destroying volume status: %w" (on_io (Destroy (StatusResource st.(statusID))));
         set_statuses (delete st.(statusID))
       else mret ());
  mret spec.(Phase).

(** An iteration: [None] when the volume has no status and needs none. *)
Definition process_volume (ps : pass) (vc : VolumeConfig) (gate : bool) : mio (option VolumePhase) :=
  m ← get;
  let parent := parent_of vc m.(statuses) in
  let tearingDown := tearing_down ps vc m.(statuses) in
  match m.(statuses) !! vc.(configID) with
  | None =>
      if tearingDown then
        _ ← release_parent parent (parent_finalizer vc);
        _ ← release "error removing finalizer from volume configuration: %w"
              (ConfigResource vc.(configID)) vc.(configFinalizers) ControllerName;
        mret None
      else
        _ ← set_statuses <[vc.(configID) := stub vc]>;
        phase ← process_status ps vc gate tearingDown (stub vc) parent;
        mret (Some phase)
  | Some st =>
      phase ← process_status ps vc gate tearingDown st parent;
      mret (Some phase)
  end.

(** The loop: [true] when the context was done, which ends the pass. *)
Fixpoint process_volumes (ps : pass) (fullyProvisionedWave : Z) (vcs : list VolumeConfig) : mio bool :=
  match vcs with
  | [] => mret false
  | vc :: vcs =>
      done ← on_io (ask ctx_Done silent);
      if done : bool then mret true else
      let wave := vc.(configSpec).(Provisioning).(Wave) in
      phase ← process_volume ps vc (wave <=? fullyProvisionedWave);
      let fullyProvisionedWave :=
        match phase with
        | Some p => if bool_decide (p = VolumePhaseReady) then fullyProvisionedWave else int (wave - 1)
        | None => fullyProvisionedWave
        end in
      process_volumes ps fullyProvisionedWave vcs
  end.

(** ** One pass of [Run] *)

Record VolumeLifecycle := { lifecyclePhase : resource_phase; lifecycleFinalizers : list string }.

(** A machine configuration: the disk to install to, [None] without a machine section. *)
Definition MachineConfig : Type := option string.

(** What the pass reads; [None] is a resource that does not exist.  A read that fails ends
    the pass with its error before anything is done with it. *)
Record inputs := {
  devicesStatus : option bool;                       (** its [Ready] *)
  refreshStatus : option Z;                          (** its [Request] *)
  inDiscovered : list DiscoveredVolumeSpec;
  inDisks : list (string * DiskSpec);                (** with their ids *)
  systemDisk : option string;
  persistentConfig : option MachineConfig;
  activeConfig : option MachineConfig;
  volumeLifecycle : option VolumeLifecycle;
  volumeConfigList : list VolumeConfig;
  volumeStatusList : list VolumeStatus
}.

(** The variables of [Run]. *)
Record controller := {
  ctl_io : env W;
  deviceReadyObserved : bool;
  deviceReadyRequest : Z;
  ctl_shouldRetry : bool
}.
Notation cio := (prog controller error).

Definition ctl_on_io {A} (c : io A) : cio A :=
  zoom ctl_io (λ e s, {| ctl_io := e; deviceReadyObserved := s.(deviceReadyObserved);
    deviceReadyRequest := s.(deviceReadyRequest); ctl_shouldRetry := s.(ctl_shouldRetry) |}) c.

(** The devices just became ready: ask for a refresh of the discovered volumes. *)
Definition observe_devices (devicesReady : bool) : cio () :=
  s ← get;
  if devicesReady && negb s.(deviceReadyObserved) then
    _ ← modify (λ s, {| ctl_io := s.(ctl_io); deviceReadyObserved := true;
                        deviceReadyRequest := s.(deviceReadyRequest); ctl_shouldRetry := s.(ctl_shouldRetry) |});
    n ← wrapf "error updating discovery refresh request: %w"
          (ctl_on_io (query rt_NextRefreshRequest silent));
    modify (λ s, {| ctl_io := s.(ctl_io); deviceReadyObserved := s.(deviceReadyObserved);
                    deviceReadyRequest := n; ctl_shouldRetry := s.(ctl_shouldRetry) |})
  else mret ().

(** Ready only if the discovery is up to date. *)
Definition devices_ready (i : inputs) (s : controller) : bool :=
  default false i.(devicesStatus) &&
  match i.(refreshStatus) with Some n => n =? s.(deviceReadyRequest) | None => false end.

(** Without a system disk: the disk the configuration installs to. *)
Definition install_disk (i : inputs) : string :=
  match i.(systemDisk) with
  | Some _ => ""
  | None =>
      match (match i.(persistentConfig) with Some c => Some c | None => i.(activeConfig) end) with
      | Some (Some disk) => disk
      | _ => ""
      end
  end.

Definition disk_context (i : inputs) (d : string * DiskSpec) : DiskContext :=
  {| Disk := d.2;
     SystemDisk := Some
       match i.(systemDisk) with
       | Some id => String.eqb d.1 id
       | None => negb (String.eqb (install_disk i) "") && String.eqb d.2.(DevPath) (install_disk i)
       end |}.

(** The global teardown starts when no finalizer but ours is left. *)
Definition lifecycle_tearing_down (lc : VolumeLifecycle) : bool :=
  bool_decide (lc.(lifecyclePhase) = PhaseTearingDown) &&
  forallb (λ fin, String.eqb fin ControllerName) lc.(lifecycleFinalizers).

Definition ensure_finalizers (vcs : list VolumeConfig) : io () :=
  for_each (λ vc,
    if bool_decide (vc.(configPhase) = PhaseRunning) && negb (bool_decide (ControllerName ∈ vc.(configFinalizers)))
    then wrapf "error adding finalizer to volume configuration: %w"
           (AddFinalizer (ConfigResource vc.(configID)) ControllerName)
    else mret ()) vcs.

Definition statuses_of (l : list VolumeStatus) : gmap string VolumeStatus :=
  list_to_map (reverse ((λ st, (st.(statusID), st)) <$> l)).

(** The loop over the volumes and the writes after it; [true] when the context was done,
    which ends [Run]. *)
Definition run_volumes (ps : pass) (lc : VolumeLifecycle) (vcs : list VolumeConfig) : mio bool :=
  done ← process_volumes ps MaxInt (SortStableFunc compare_configs vcs);
  if done : bool then mret true else
  m ← get;
  _ ← wrapf "error updating volume status: %w"
        (on_io (for_each WriteStatus ((map_to_list m.(statuses)).*2)));
  m ← get;
  _ ← (if bool_decide (lc.(lifecyclePhase) = PhaseTearingDown) && m.(allClosed) then
         wrapf "error removing finalizer from volume lifecycle: %w"
           (on_io (RemoveFinalizer LifecycleResource ControllerName))
       else mret ());
  mret false.

(** The manager works on the devices and the retry flag of the controller. *)
Definition with_manager {A} (sts : gmap string VolumeStatus) (c : mio A) : cio A := λ s,
  match c {| mgr_io := s.(ctl_io); statuses := sts; allClosed := true; shouldRetry := s.(ctl_shouldRetry) |} with
  | Ok (m, r) =>
      Ok ({| ctl_io := m.(mgr_io); deviceReadyObserved := s.(deviceReadyObserved);
             deviceReadyRequest := s.(deviceReadyRequest); ctl_shouldRetry := m.(shouldRetry) |}, r)
  | Err e => match e with end
  | Panic p => Panic p
  end.

Definition reconcile (helpers : string → KeyOptions) (i : inputs) : cio bool :=
  _ ← observe_devices (default false i.(devicesStatus));
  s ← get;
  match i.(volumeLifecycle) with
  | None => mret false
  | Some lc =>
      _ ← (if bool_decide (lc.(lifecyclePhase) = PhaseRunning) then
             wrapf "error adding finalizer to volume lifecycle: %w"
               (ctl_on_io (AddFinalizer LifecycleResource ControllerName))
           else mret ());
      _ ← ctl_on_io (ensure_finalizers i.(volumeConfigList));
      with_manager (statuses_of i.(volumeStatusList))
        (run_volumes
          {| passDiscovered := i.(inDiscovered);
             passDisks := disk_context i <$> i.(inDisks);
             passDevicesReady := devices_ready i s;
             passTearingDown := lifecycle_tearing_down lc;
             passHelpers := helpers |} lc i.(volumeConfigList))
  end.

(** What wakes the loop up: an event, or the ticker, which only runs a pass when one was
    asked for. *)
Inductive wakeup := WakeEvent | WakeTicker.
Definition wake (w : wakeup) (shouldRetry : bool) : bool * bool :=
  match w with
  | WakeEvent => (true, shouldRetry)
  | WakeTicker => (shouldRetry, false)
  end.

(** [Run] over a sequence of wake-ups with what is read after each. *)
Fixpoint Run (helpers : string → KeyOptions) (turns : list (wakeup * inputs)) : cio () :=
  match turns with
  | [] => mret ()
  | (w, i) :: turns =>
      s ← get;
      let '(go, retry) := wake w s.(ctl_shouldRetry) in
      _ ← modify (λ s, {| ctl_io := s.(ctl_io); deviceReadyObserved := s.(deviceReadyObserved);
                          deviceReadyRequest := s.(deviceReadyRequest); ctl_shouldRetry := retry |});
      stop ← (if go then reconcile helpers i else mret false);
      if stop : bool then mret () else Run helpers turns
  end.

(** [getSystemInformation] and [getSaltGetter]: a resource that does not exist is an
    error. *)
Definition getter (what : string) (read : W → W * (error + option string)) : io string :=
  r ← wrapf ("error fetching " +:+ what +:+ ": %w")%string (query read silent);
  match r with
  | None => throw (Sentinel (what +:+ " not available")%string)
  | Some s => mret s
  end.
Definition getSystemInformation := getter "system information".
Definition getSaltGetter := getter "encryption salt".

(** [constants.UKIPCR] *)
Definition UKIPCR : Z := 11.
Definition make_helpers (read_uuid read_salt : W → W * (error + option string)) (id : string) : KeyOptions :=
  {| VolumeID := id; GetSystemInformation := Some (getSystemInformation read_uuid);
     TPMLocker := Some (LockPCRStatus UKIPCR id); SaltGetter := Some (getSaltGetter read_salt) |}.
End manager.
