(* ===== verification/VolumeOrder.v ===== *)
(** * Volumes are provisioned in order

    The comparison of volume configurations is a total preorder, the sorted list puts
    earlier waves first, and the integer the loop keeps, [fullyProvisionedWave], tells for
    every volume whether all the volumes before it are ready. *)

From S2P Require Import Prelude Errors Block Devices Keys Encryption Volumes VolumeProcess VolumeManager.

Section order.
Context `{celgo : CelGo}.

(** ** The comparison *)

(** What the comparison looks at, and the order it is: wave, growing partitions last,
    smaller maximum first, no maximum last. *)
Definition sort_key (a : VolumeConfigSpec) : Z * Z * Z :=
  (a.(Provisioning).(Wave), Z.b2z a.(Provisioning).(partitionSpec).(grow),
   if a.(Provisioning).(partitionSpec).(MaxSize) =? 0 then 2 ^ 64 - 1
   else a.(Provisioning).(partitionSpec).(MaxSize)).

Definition key_le (k k' : Z * Z * Z) : Prop :=
  let '(w, g, s) := k in let '(w', g', s') := k' in
  w < w' ∨ w = w' ∧ (g < g' ∨ g = g' ∧ s ≤ s').

Lemma cmpBool_Compare x y : cmpBool x y = cmp_Compare (Z.b2z x) (Z.b2z y).
Proof. by destruct x, y. Qed.

Definition lex (w w' g g' s s' : Z) : Z :=
  if negb (cmp_Compare w w' =? 0) then cmp_Compare w w'
  else if negb (cmp_Compare g g' =? 0) then cmp_Compare g g' else cmp_Compare s s'.

Lemma lex_spec w w' g g' s s' :
  (lex w w' g g' s s' ≤ 0 ↔ key_le (w, g, s) (w', g', s')) ∧
  (lex w w' g g' s s' = 0 ↔ (w, g, s) = (w', g', s')) ∧
  lex w' w g' g s' s = - lex w w' g g' s s'.
Proof.
  unfold lex, key_le.
  pose proof (cmp_Compare_spec w w'). pose proof (cmp_Compare_spec w' w).
  pose proof (cmp_Compare_spec g g'). pose proof (cmp_Compare_spec g' g).
  pose proof (cmp_Compare_spec s s'). pose proof (cmp_Compare_spec s' s).
  assert ((w, g, s) = (w', g', s') ↔ w = w' ∧ g = g' ∧ s = s') as -> by naive_solver.
  destruct (Z.eqb_spec (cmp_Compare w w') 0), (Z.eqb_spec (cmp_Compare w' w) 0),
    (Z.eqb_spec (cmp_Compare g g') 0), (Z.eqb_spec (cmp_Compare g' g) 0); simpl; lia.
Qed.

Lemma CompareVolumeConfigs_lex a b :
  CompareVolumeConfigs a b =
  let '(w, g, s) := sort_key a in let '(w', g', s') := sort_key b in lex w w' g g' s s'.
Proof. unfold CompareVolumeConfigs, lex, sort_key. by rewrite cmpBool_Compare. Qed.

Lemma compare_le a b : CompareVolumeConfigs a b ≤ 0 ↔ key_le (sort_key a) (sort_key b).
Proof.
  rewrite CompareVolumeConfigs_lex. destruct (sort_key a) as [[w g] s], (sort_key b) as [[w' g'] s'].
  apply lex_spec.
Qed.
Lemma compare_eq a b : CompareVolumeConfigs a b = 0 ↔ sort_key a = sort_key b.
Proof.
  rewrite CompareVolumeConfigs_lex. destruct (sort_key a) as [[w g] s], (sort_key b) as [[w' g'] s'].
  apply lex_spec.
Qed.
Lemma compare_opp a b : CompareVolumeConfigs b a = - CompareVolumeConfigs a b.
Proof.
  rewrite !CompareVolumeConfigs_lex. destruct (sort_key a) as [[w g] s], (sort_key b) as [[w' g'] s'].
  apply lex_spec.
Qed.

Lemma key_le_trans k1 k2 k3 : key_le k1 k2 → key_le k2 k3 → key_le k1 k3.
Proof. destruct k1 as [[] ?], k2 as [[] ?], k3 as [[] ?]. unfold key_le. lia. Qed.
Lemma key_le_total k1 k2 : key_le k1 k2 ∨ key_le k2 k1.
Proof. destruct k1 as [[] ?], k2 as [[] ?]. unfold key_le. lia. Qed.
End order.

(** ** Sorting *)

Section sorting.
Context {A : Type} (cmp : A → A → Z).
Context (Hopp : ∀ x y, cmp y x = - cmp x y) (Htrans : ∀ x y z, cmp x y ≤ 0 → cmp y z ≤ 0 → cmp x z ≤ 0).
Notation le := (λ x y, cmp x y ≤ 0).

Lemma insert_stable_perm x l : insert_stable cmp x l ≡ₚ x :: l.
Proof. induction l as [|y l IH]; simpl; [done|]. case_match; [|done]. rewrite IH. constructor. Qed.

Lemma insert_stable_sorted x l : StronglySorted le l → StronglySorted le (insert_stable cmp x l).
Proof.
  induction 1 as [|y l Hl IH Hy]; simpl; [repeat constructor|].
  destruct (Z.leb_spec (cmp y x) 0) as [Hyx|Hyx].
  - constructor; [done|]. rewrite insert_stable_perm. by constructor.
  - assert (cmp x y ≤ 0) by (rewrite Hopp; lia). constructor; [by constructor|]. constructor; [done|].
    eapply Forall_impl; [exact Hy|]. intros z Hz. by eapply Htrans.
Qed.

(** Stable: among elements that compare equal, the new one comes last. *)
Lemma insert_stable_filter (P : A → Prop) `{∀ x, Decision (P x)} x l :
  (∀ y, P y → P x → cmp y x = 0) → StronglySorted le l →
  filter P (insert_stable cmp x l) = filter P l ++ filter P [x].
Proof.
  intros HP. induction 1 as [|y l Hl IH Hy]; cbn [insert_stable]; [done|].
  destruct (Z.leb_spec (cmp y x) 0) as [Hyx|Hyx].
  - rewrite !(filter_cons _ y), IH. by case_decide.
  - rewrite (filter_cons _ x (y :: l)), (filter_cons _ x []). destruct (decide (P x)) as [Hx|Hx];
      [|by rewrite app_nil_r].
    assert (Forall (λ z, ¬ P z) (y :: l)) as Hno.
    { constructor; [intros Hy'; specialize (HP y Hy' Hx); lia|]. eapply Forall_impl; [exact Hy|].
      intros z Hz Hz'. specialize (HP z Hz' Hx). simpl in Hz.
      enough (cmp y x ≤ 0) by lia. eapply Htrans; [exact Hz|lia]. }
    assert (filter P (y :: l) = []) as ->; [|done].
    clear -Hno. induction Hno as [|z l' Hz Hl' IH]; [done|].
    by rewrite filter_cons_False.
Qed.

Lemma SortStableFunc_gen l acc :
  StronglySorted le acc →
  let r := foldl (λ acc x, insert_stable cmp x acc) acc l in
  StronglySorted le r ∧ r ≡ₚ acc ++ l ∧
  ∀ (P : A → Prop) `{∀ x, Decision (P x)}, (∀ x y, P x → P y → cmp x y = 0) →
    filter P r = filter P acc ++ filter P l.
Proof.
  revert acc. induction l as [|x l IH]; intros acc Hacc r; simpl in r.
  - rewrite app_nil_r. split_and!; [done|done|]. intros. by rewrite app_nil_r.
  - destruct (IH _ (insert_stable_sorted x acc Hacc)) as (Hs & Hp & Hf). fold r in Hs, Hp, Hf. split_and!; [done| |].
    + rewrite Hp, insert_stable_perm. by rewrite (Permutation_middle acc l x).
    + intros P HPd HP. rewrite (Hf P _ HP), insert_stable_filter by auto.
      by rewrite (filter_cons P x l), (filter_cons P x []), <-app_assoc; case_decide.
Qed.

Lemma SortStableFunc_spec l :
  StronglySorted le (SortStableFunc cmp l) ∧ SortStableFunc cmp l ≡ₚ l ∧
  ∀ (P : A → Prop) `{∀ x, Decision (P x)}, (∀ x y, P x → P y → cmp x y = 0) →
    filter P (SortStableFunc cmp l) = filter P l.
Proof. apply (SortStableFunc_gen l []). constructor. Qed.
End sorting.

(** ** The gate of the waves *)

Section gate.
Context `{celgo : CelGo} `{hum : Humanize} {W : Type} `{HD : Devices W} `{HKS : KeyServices W} `{HL : Luks}.
Context `{HR : Runtime W}.
Notation mio := (prog (manager (W:=W)) error).

(** The reference: a volume may be provisioned when every volume before it, in the order
    of the loop, is ready. *)
Fixpoint process_in_order (ps : pass) (all_ready : bool) (vcs : list VolumeConfig) : mio bool :=
  match vcs with
  | [] => mret false
  | vc :: vcs =>
      done ← on_io (ask ctx_Done silent);
      if done : bool then mret true else
      phase ← process_volume ps vc all_ready;
      process_in_order ps
        (all_ready && match phase with Some p => bool_decide (p = VolumePhaseReady) | None => true end) vcs
  end.

Definition wave (vc : VolumeConfig) : Z := vc.(configSpec).(Provisioning).(Wave).

(** An [int] that is not the smallest one, which the loop decrements to the largest. *)
Definition valid_wave (vc : VolumeConfig) : Prop := - 2 ^ 63 < wave vc < 2 ^ 63.

Lemma int_pred vc : valid_wave vc → int (wave vc - 1) = wave vc - 1.
Proof. intros H1. unfold int, valid_wave in *. rewrite Z.mod_small; lia. Qed.

Lemma process_gate ps vcs fpw all_ready m :
  StronglySorted (λ a b, wave a ≤ wave b) vcs → Forall valid_wave vcs →
  (all_ready = true ∧ fpw = MaxInt ∨ all_ready = false ∧ ∀ vc, vc ∈ vcs → fpw < wave vc) →
  process_volumes ps fpw vcs m = process_in_order ps all_ready vcs m.
Proof.
  intros Hs Hv. revert fpw all_ready m.
  induction Hs as [|vc vcs Hs IH Hle]; intros fpw all_ready m Hgate; cbn [process_volumes process_in_order]; [done|].
  apply Forall_cons_1 in Hv as [Hvc Hv]. specialize (IH Hv).
  fold (wave vc). rewrite (int_pred vc Hvc).
  assert ((wave vc <=? fpw) = all_ready) as ->.
  { destruct Hgate as [[-> ->]|[-> Hlt]].
    - apply Z.leb_le. unfold valid_wave, MaxInt in *. lia.
    - apply Z.leb_gt, Hlt. left. }
  unfold mbind, prog_bind. destruct (on_io (ask ctx_Done silent) m) as [[m1 [e|[|]]]|[]|]; try done.
  destruct (process_volume ps vc all_ready m1) as [[m2 [e|phase]]|[]|]; try done.
  apply IH. rewrite Forall_forall in Hle.
  destruct phase as [p|]; [case_bool_decide|]; rewrite ?andb_true_r, ?andb_false_r.
  - destruct Hgate as [?|[? Hlt]]; [by left|right]. split; [done|]. intros vc' Hvc'. apply Hlt. by right.
  - right. split; [done|]. intros vc' Hvc'. specialize (Hle vc' Hvc'). simpl in Hle. lia.
  - destruct Hgate as [?|[? Hlt]]; [by left|right]. split; [done|]. intros vc' Hvc'. apply Hlt. by right.
Qed.

(** The sorted list of configurations. *)
Notation sorted := (SortStableFunc compare_configs).

Lemma compare_configs_trans a b c : compare_configs a b ≤ 0 → compare_configs b c ≤ 0 → compare_configs a c ≤ 0.
Proof. unfold compare_configs. rewrite !compare_le. apply key_le_trans. Qed.

Lemma sorted_waves vcs : StronglySorted (λ a b, wave a ≤ wave b) (sorted vcs).
Proof.
  destruct (SortStableFunc_spec compare_configs (λ a b, compare_opp _ _) compare_configs_trans vcs) as (Hs & _ & _).
  revert Hs. generalize (sorted vcs). intros l. induction 1 as [|x l Hl IH Hx]; constructor; [done|].
  eapply Forall_impl; [exact Hx|]. intros y Hy. unfold compare_configs in Hy. apply compare_le in Hy.
  unfold sort_key, key_le, wave in *. lia.
Qed.

(** C23: volumes are provisioned in order.  The comparison of configurations is the
    lexicographic order of wave, growing last, and maximal size, with no maximum last: a
    total preorder.  Sorting by it keeps the configurations, puts no later wave before an
    earlier one, and keeps the order of configurations that compare equal.  The loop over
    the sorted list, which keeps one integer, runs exactly like the reference that lets a
    volume be provisioned only when every volume before it in that order is ready, those
    of the same wave included. *)
Theorem volumes_in_order ps vcs m :
  Forall valid_wave vcs →
  (∀ a b : VolumeConfig, compare_configs a b ≤ 0 ↔ key_le (sort_key a.(configSpec)) (sort_key b.(configSpec))) ∧
  (∀ a b : VolumeConfig, compare_configs b a = - compare_configs a b) ∧
  sorted vcs ≡ₚ vcs ∧ StronglySorted (λ a b, wave a ≤ wave b) (sorted vcs) ∧
  (∀ a, filter (λ b, sort_key b.(configSpec) = sort_key a.(configSpec)) (sorted vcs) =
        filter (λ b, sort_key b.(configSpec) = sort_key a.(configSpec)) vcs) ∧
  process_volumes ps MaxInt (sorted vcs) m = process_in_order ps true (sorted vcs) m.
Proof.
  intros Hv.
  destruct (SortStableFunc_spec compare_configs (λ a b, compare_opp _ _) compare_configs_trans vcs) as (_ & Hp & Hf).
  split_and!.
  - intros a b. apply compare_le.
  - intros a b. apply compare_opp.
  - done.
  - apply sorted_waves.
  - intros a. apply Hf. intros x y Hx Hy. apply compare_eq. congruence.
  - apply process_gate; [apply sorted_waves|by rewrite Hp|by left].
Qed.
End gate.
