(* ===== verification/VolumeForms.v ===== *)
(** * The form of a volume status

    What a status in a phase says about its volume, and that processing keeps it. *)

From S2P Require Import Prelude Errors Block Devices Keys Encryption Volumes VolumeProcess VolumeSafety VolumeManager.

Section forms.
Context `{celgo : CelGo} `{hum : Humanize} {W : Type} `{HD : Devices W} `{HKS : KeyServices W} `{HL : Luks}.
Notation vio := (prog (volume (W:=W)) error).
Notation io := (prog (env W) error).
Implicit Types (vc : ManagerContext (W:=W)) (v : volume (W:=W)) (st : VolumeStatusSpec).

(** ** What a phase promises *)

(** The library opened the device of the volume under its mapped name with a key for [slot],
    and resolved the path it gave to [location]. *)
Definition mapped_to vc st (slot : Z) (location : string) : Prop :=
  ∃ key path w1 w1' w2 w2',
    key.(Slot) = slot ∧ luks_Open st.(Location) (mapped_name vc) key w1 = (w1', inr path) ∧
    EvalSymlinks path w2 = (w2', inr location).

(** Of a disk or partition that is prepared: where to mount it from, and with which key it
    was opened; of one that is ready also its filesystem. *)
Definition prepared_form vc st : Prop :=
  st.(EncryptionProvider) = vc.(Cfg).(Encryption).(Provider) ∧
  match vc.(Cfg).(Encryption).(Provider) with
  | EncryptionProviderNone => st.(MountLocation) = st.(Location)
  | EncryptionProviderLUKS2 =>
      ∃ slot, st.(EncryptionSlot) = Some slot ∧ slot ∈ configured vc.(Cfg).(Encryption) ∧
        mapped_to vc st slot st.(MountLocation)
  end.
Definition ready_form vc st : Prop :=
  prepared_form vc st ∧
  let type := vc.(Cfg).(Provisioning).(filesystemSpec).(fsType) in
  (type ≠ FilesystemTypeNone → st.(Filesystem) = type).
Definition form vc (p : VolumePhase) st : Prop :=
  is_block vc = true →
  match p with
  | VolumePhasePrepared => prepared_form vc st
  | VolumePhaseReady => ready_form vc st
  | _ => True
  end.
(** A failed volume has the form of the phase it failed in. *)
Definition well_formed vc st : Prop :=
  form vc st.(Phase) st ∧ (st.(Phase) = VolumePhaseFailed → form vc st.(PreFailPhase) st).

(** The operations of the automaton, from a status of the right form. *)
Definition keyslots_named : Prop := ∀ path, keyslot_names (W:=W) path.

Lemma form_other vc p st :
  p ≠ VolumePhasePrepared → p ≠ VolumePhaseReady → form vc p st.
Proof. intros ? ? _. by destruct p. Qed.

Lemma prepared_form_core vc st st' : core st' = core st → prepared_form vc st → prepared_form vc st'.
Proof.
  unfold core, prepared_form. intros Hc [H1 H2]. simplify_eq. split; [congruence|].
  destruct (Provider _); [congruence|]. destruct H2 as (slot & ? & ? & Hm). exists slot.
  split_and!; [congruence|done|]. unfold mapped_to in *.
  destruct Hm as (key & path & w1 & w1' & w2 & w2' & ?). exists key, path, w1, w1', w2, w2'. naive_solver congruence.
Qed.

(** The path an encrypted volume is opened at, and the slot of the key. *)
Definition opened_at (device mapped path : string) (slot : Z) : Prop :=
  ∃ key w w', key.(Slot) = slot ∧ luks_Open device mapped key w = (w', inr path).

Lemma yields_query {A} (f : W → W * (error + A)) ev :
  yields (λ a, ∃ w w', f w = (w', inr a)) (query f ev).
Proof. intros s. apply ensures_query. intros w [e|a] Ha; [done|eauto]. Qed.
Lemma yields_try_each {A} (V : A → Prop) (cb : Handler → io A) hs errs :
  (∀ x, yields V (cb x)) → yields (λ '(_, a), V a) (try_each cb hs errs).
Proof.
  intros Hcb. revert errs. induction hs as [|x hs IH]; intros errs; cbn [try_each]; [apply yields_throw|].
  intros s. apply ensures_bind, ensures_try. eapply ensures_mono; [|apply Hcb].
  intros s' [e|a] Ha; [apply IH|by apply ensures_ret].
Qed.
Lemma yields_open_with path mapped x :
  yields (λ '(p, key), opened_at path mapped p key.(Slot)) (open_with path mapped x).
Proof.
  unfold open_with. apply yields_then; intros token. apply yields_then; intros key.
  eapply yields_bind; [apply yields_query|]. intros p (w & w' & Hp). apply yields_ret. by exists key, w, w'.
Qed.

Lemma yields_Open_path (h : EncHandler) path mapped :
  yields (λ '(p, slot, _), opened_at path mapped p slot) (Encryption.Open h path mapped).
Proof.
  unfold Encryption.Open. apply yields_then; intros [isOpen p].
  eapply (yields_bind (λ '(p, key), ∀ k, key = Some k → opened_at path mapped p k.(Slot))).
  - destruct isOpen; [by apply yields_ret|]. unfold tryHandlers.
    eapply (yields_bind (λ '(_, (p, key)), opened_at path mapped p key.(Slot))).
    + destruct h; [apply yields_throw|].
      apply (yields_try_each (λ '(p, key), opened_at path mapped p key.(Slot))). intros x. apply yields_open_with.
    + intros [x [p' key]] Hk. apply yields_ret. by intros k [= <-].
  - intros [p' [key|]] Hk; apply yields_then; intros failed; [by apply yields_ret, Hk|].
    intros s. by apply ensures_lift.
Qed.
Lemma yields_Open (h : EncHandler) path mapped :
  keyslots_named → Forall quiet_handler h →
  yields (λ '(p, slot, _), slot ∈ slots_of h ∧ opened_at path mapped p slot) (Encryption.Open h path mapped).
Proof.
  intros Hn Hq s.
  eapply ensures_mono; [|exact (ensures_and _ _ _ _ (Open_ok path h mapped s (Hn path) Hq) (yields_Open_path h path mapped s))].
  intros s' [e|[[p slot] failed]] [Hs Ho]; [done|]. destruct Hs as (t & _ & Hs & _). exact (conj Hs Ho).
Qed.

Lemma HandleEncryption_form vc v :
  safe_context vc → keyslots_named →
  ensures (HandleEncryption vc) v (λ v' r, match r with inr _ => prepared_form vc v'.(Status) | inl _ => v'.(Status) = v.(Status) end).
Proof.
  intros Hs Hn. unfold HandleEncryption, with_handler.
  destruct (Provider (Encryption (Cfg vc))) eqn:Hp.
  { apply ensures_update. unfold prepared_form. rewrite Hp. done. }
  destruct (Encryption.New _ _) as [err|h] eqn:Hh; [by apply ensures_throw|].
  destruct (New_made _ _ _ Hh (safe_key_opts vc Hs)) as [Hq Hslots].
  unfold HandleEncryptionWithHandler. apply ensures_bind, ensures_status, ensures_bind.
  set (V := λ '((p, slot, _) : string * Z * list error), slot ∈ slots_of h ∧ mapped_to vc (Status v) slot p).
  apply (ensures_mono _ _ (λ v' r, v'.(Status) = v.(Status) ∧
    match r with inr a => V a | inl _ => True end)).
  - intros v' [e|[[p slot] failed]] [Hv Hslot]; [done|]. destruct Hslot as [Hslot Hmap]. rewrite Hslots in Hslot.
    apply ensures_bind, ensures_update, ensures_bind, ensures_update, ensures_update. cbn [Status].
    eapply prepared_form_core; [|eapply prepared_form_core; [apply note_keys_core|]]; [done|].
    unfold prepared_form. rewrite Hp. simpl. split; [done|]. exists slot. rewrite Hv. by split_and!.
  - apply ensures_zoom. eapply ensures_mono; [|apply (yields_locked_device V)].
    { by intros e [err|[[p slot] failed]]. }
    apply yields_then; intros info. apply yields_then; intros [].
    eapply yields_bind; [apply yields_map_err, (yields_Open h); done|].
    intros [[p slot] failed] (Hslot & key & w1 & w1' & Hk & Hw1).
    eapply yields_bind; [apply yields_map_err, yields_query|]. intros resolved (w2 & w2' & Hw2).
    apply yields_ret. split; [done|]. by exists key, p, w1, w1', w2, w2'.
Qed.

(** Opening and formatting set the status only at the end. *)
Lemma Format_form vc v :
  ensures (Format vc) v (λ v' r,
    (prepared_form vc v.(Status) → prepared_form vc v'.(Status)) ∧
    match r with
    | inr _ =>
        let type := vc.(Cfg).(Provisioning).(filesystemSpec).(fsType) in
        type ≠ FilesystemTypeNone → v'.(Status).(Filesystem) = type
    | inl _ => True
    end).
Proof.
  unfold Format, format_found, format_none, set_ready. vstep_tac; simpl; (split; [done|]); try done.
  all: lazymatch goal with H : bool_decide _ = true |- _ => by apply bool_decide_eq_true_1 in H end.
Qed.

(** The form does not depend on the phase of the status it is asked of. *)
Lemma form_phase vc p q st : form vc p st → form vc p (st <| Phase := q |>).
Proof. done. Qed.

Lemma waiting_builds_form vc st st' p : waiting st.(Phase) → builds vc st p → form vc p st'.
Proof.
  intros Hw Hb. destruct Hb as [st Hw' Hs|st dv Hw' Hs Hf|st Hw' Hs Hf Hm|st Hw' Hs Hf Hm|st Hp|st Hp|st Hp|st Hp].
  - intros Hblk. congruence.
  - by apply form_other.
  - apply form_other; unfold idle_phase; repeat case_match; done.
  - by apply form_other.
  - by apply form_other.
  - destruct Hw; congruence.
  - destruct Hw; congruence.
  - destruct Hw; congruence.
Qed.

(** After a turn the status has the form of its phase. *)
Lemma turn_form vc v :
  safe_context vc → keyslots_named → well_formed vc v.(Status) →
  ensures (turn vc) v (λ v' r, form vc v'.(Status).(Phase) v'.(Status)).
Proof.
  intros Hs Hn [Hf Hfail]. unfold turn. apply ensures_bind, ensures_status.
  assert (Hop : ∀ (op : vio ()) P, ensures op v P →
    (∀ v' r, P v' r → form vc v'.(Status).(Phase) v'.(Status)) →
    ensures (_ ← op; mret false) v (λ v' r, form vc v'.(Status).(Phase) v'.(Status))).
  { intros op P Hp HP. apply ensures_bind. eapply ensures_mono; [|exact Hp].
    intros v' [e|[]] Hv'; [by eapply HP|]. apply ensures_ret. by eapply HP. }
  assert (Hloc : waiting (Phase (Status v)) →
    ensures (_ ← LocateAndProvision vc; mret false) v (λ v' r, form vc v'.(Status).(Phase) v'.(Status))).
  { intros Hw. eapply Hop; [by apply LocateAndProvision_phase|]. intros v' [e|[]] [_ H1]; simpl in H1.
    - rewrite H1. apply form_other; intros Hp; destruct Hw; congruence.
    - by eapply waiting_builds_form. }
  assert (Hrec : Phase (Status v) = VolumePhaseFailed →
    ensures (_ ← set_phase (PreFailPhase (Status v)); mret false) v
      (λ v' r, form vc v'.(Status).(Phase) v'.(Status))).
  { intros Hp. apply ensures_bind, ensures_update, ensures_ret. simpl. by apply Hfail. }
  assert (Hto : ∀ (op : vio ()) p, p ≠ VolumePhasePrepared → p ≠ VolumePhaseReady →
    ensures op v (λ v' r, to_phase p v.(Status) v' r ∧ (∀ e, r = inl e → v'.(Status) = v.(Status))) →
    ensures (_ ← op; mret false) v (λ v' r, form vc v'.(Status).(Phase) v'.(Status))).
  { intros op p ? ? Hp. eapply Hop; [exact Hp|]. intros v' [e|[]] [[_ H1] H2]; simpl in H1.
    - by rewrite (H2 _ eq_refl).
    - rewrite H1. by apply form_other. }
  destruct (negb (ShouldCloseVolume vc)); destruct (Phase (Status v)) eqn:Hp;
    try (apply ensures_ret; by rewrite Hp);
    try (apply Hloc; unfold waiting; by auto); try (by apply Hrec);
    try (eapply (Hto _ VolumePhaseClosed); [done|done|];
      first [unfold Volumes.Close, with_handler, CloseWithHandler; vstep_tac|apply ensures_update]; by split).
  - eapply (Hto _ VolumePhaseProvisioned); [done|done|]. unfold Grow. vstep_tac; by split.
  - apply ensures_bind. eapply ensures_mono;
      [|apply (ensures_and _ _ _ _ (HandleEncryption_phase vc v) (HandleEncryption_form vc v Hs Hn))].
    intros v' [e|[]] [[_ H1] H2]; [by rewrite H2, Hp|]. apply ensures_ret. rewrite H1. by intros _.
  - apply ensures_bind. eapply ensures_mono;
      [|apply (ensures_and _ _ _ _ (Format_phase vc v) (Format_form vc v))].
    assert (Hprep : ∀ v', (prepared_form vc (Status v) → prepared_form vc (Status v')) →
      is_block vc = true → prepared_form vc (Status v')) by (intros v' Hv' Hb; by apply Hv', Hf).
    intros v' [e|[]] [[_ H1] [H2 H3]].
    + simpl in H1. rewrite Hp in H1. destruct H1 as [-> | ->]; [exact (Hprep _ H2)|by apply form_other].
    + apply ensures_ret. simpl in H1, H3. rewrite H1. intros Hb. split; auto.
Qed.

(** A volume that failed while it had failed already is left as it was. *)
Lemma turn_well_formed vc v :
  safe_context vc → keyslots_named → well_formed vc v.(Status) →
  ensures (turn vc) v (λ v' r, match r with
    | inr _ => well_formed vc v'.(Status)
    | inl _ => form vc v'.(Status).(Phase) v'.(Status)
    end).
Proof.
  intros Hs Hn Hw. eapply ensures_mono; [|apply (ensures_and _ _ _ _ (turn_form vc v Hs Hn Hw) (turn_spec vc v))].
  intros v' [e|stop] [H1 [Hpre H2]]; [done|]. split; [done|]. intros Hfail.
  destruct stop; simpl in H2.
  - destruct H2 as [H2 _]. rewrite H2 in *. by apply Hw.
  - destruct H2 as [_ H2]. rewrite Hfail in H2. rewrite Hpre.
    assert (Hno : idle_phase vc ≠ VolumePhaseFailed) by (unfold idle_phase; repeat case_match; done).
    destruct (ShouldCloseVolume vc); inversion H2; subst; try done; apply form_other; congruence.
Qed.

Lemma process_loop_well_formed vc out fuel v :
  safe_context vc → keyslots_named →
  (∀ v, ensures out v (λ v' r, well_formed vc (record_result r v'.(Status)))) →
  well_formed vc v.(Status) →
  ensures (process_loop out fuel vc v.(Status).(Phase)) v
    (λ v' r, well_formed vc (record_result r v'.(Status))).
Proof.
  intros Hs Hn Hout. revert v. induction fuel as [|fuel IH]; intros v Hw; cbn [process_loop]; [apply Hout|].
  assert (Hend : ∀ st, well_formed vc st → well_formed vc (record_result (inr ()) st)).
  { intros st [Hf _]. split; [exact Hf|]. intros _. by apply form_other. }
  apply ensures_bind. eapply ensures_mono; [|by apply turn_well_formed].
  intros v' [e|[|]] H1.
  - split; [by apply form_other|]. intros _. exact H1.
  - by apply ensures_ret, Hend.
  - apply ensures_bind, ensures_status. case_bool_decide; [by apply ensures_ret, Hend|].
    apply ensures_bind, ensures_zoom, ensures_ask. intros w done _. simpl.
    destruct done; [by apply ensures_ret, Hend|].
    apply (IH {| io_env := _; Status := v'.(Status) |}). done.
Qed.

(** C34: processing keeps the form of a volume's status, for disks and partitions.  From a
    status of the right form, one in the phase [Prepared] names the place it is mounted
    from: its own device, or, when it is encrypted, what the path resolved to that the
    library gave for its device opened under its mapped name with the key of a configured
    slot, which the status names; one in the phase [Ready] also has the filesystem of its
    configuration; and a failed one has the form of the phase it failed in, which it goes
    back to.  This holds of the status the manager keeps after a pass, whatever the devices
    answer and whether the pass succeeds or not. *)
Theorem volume_status_well_formed vc v v' r :
  safe_context vc → keyslots_named → well_formed vc v.(Status) →
  processVolumeConfig vc v = Ok (v', r) →
  well_formed vc (record_result r v'.(Status)).
Proof.
  intros Hs Hn Hw Hr. unfold processVolumeConfig in Hr. cbn in Hr. revert v' r Hr.
  apply (process_loop_well_formed vc (lift (Panic LoopFuel)) process_fuel v); done.
Qed.
End forms.
