(* ===== verification/VolumeSizes.v ===== *)
(** * The sizes of partitions

    [partition.go] and [grow.go]: the size of a partition that is created or grown, in
    the 64-bit arithmetic of the code. *)

From S2P Require Import Prelude Errors Block Devices Keys Encryption Volumes VolumeProcess.

Section sizes.
Context `{celgo : CelGo} `{hum : Humanize} {W : Type} `{HD : Devices W} `{HKS : KeyServices W} `{HL : Luks}.
Implicit Types (vc : ManagerContext (W:=W)) (v : volume (W:=W)).

(** Sizes on a disk are below 2^63: the free space of a table and the space a partition
    can grow into. *)
Definition disk_sizes : Prop :=
  (∀ pt, 0 ≤ LargestContiguousAllocatable pt < 2 ^ 63) ∧
  (∀ pt idx g, AvailablePartitionGrowth pt idx = inr g → 0 ≤ g < 2 ^ 63).

(** The fields of a specification are [uint64] and [uint]. *)
Definition spec_in_range (ps : PartitionSpec) : Prop :=
  0 ≤ ps.(MinSize) < 2 ^ 64 ∧ 0 ≤ ps.(MaxSize) < 2 ^ 64 ∧ 0 ≤ ps.(RelativeMaxSize) < 2 ^ 64.

(** A size that resolves is a [uint64]; with an absolute maximum, it is the maximum. *)
Lemma ResolveMaxSize_range ps available maxSize :
  spec_in_range ps → ResolveMaxSize ps available = inr maxSize → 0 ≤ maxSize < 2 ^ 64.
Proof.
  intros (_ & Hmax & _). unfold ResolveMaxSize.
  assert (H : 0 ≤ (if negb (RelativeMaxSize ps =? 0) then u64 (available * RelativeMaxSize ps) / 100
    else MaxSize ps) < 2 ^ 64).
  { destruct (negb _); [|done]. pose proof (u64_range (available * RelativeMaxSize ps)). split.
    - apply Z.div_pos; lia.
    - apply Z.div_lt_upper_bound; lia. }
  destruct (NegativeMaxSize ps); [|by intros [= <-]].
  destruct (_ >? _); [done|]. intros [= <-]. apply u64_range.
Qed.

Lemma partition_size_spec maxSize available :
  0 ≤ maxSize → 0 ≤ available →
  let size := partition_size maxSize available in
  0 ≤ size ≤ available ∧ (maxSize ≠ 0 → size ≤ maxSize) ∧
  (size = available ∧ (maxSize = 0 ∨ available ≤ maxSize) ∨ size = maxSize ∧ 0 < maxSize < available).
Proof.
  intros ? ?. unfold partition_size. destruct (Z.eqb_spec maxSize 0); simpl; [lia|].
  destruct (Z.geb_spec maxSize available); lia.
Qed.

(** The table that [CreatePartition] works on in the world [w]: the one read from the disk, or
    the new one made for it, once the disk is opened and locked. *)
Definition table_given (disk : string) (hasPT : bool) (w : W) (pt : Table) : Prop :=
  ∃ w1 w2 w3 w4,
    NewFromPath disk w = (w1, None) ∧ RetryLockWithTimeout disk w1 = (w2, None) ∧
    DeviceFromBlockDevice disk w2 = (w3, None) ∧
    (if hasPT then gpt_Read disk else gpt_New disk) w3 = (w4, inr pt).

(** What [CreatePartition] returns is what it asked the table for. *)
Definition asked_for (ps : PartitionSpec) (pt : Table) (res : CreatePartitionResult) : Prop :=
  ∃ pt' maxSize uuid,
    let available := LargestContiguousAllocatable pt in
    ResolveMaxSize ps available = inr maxSize ∧ ps.(MinSize) ≤ available ∧
    res.(PartitionSize) = partition_size maxSize available ∧
    AllocatePartition pt res.(PartitionSize) ps.(Label) uuid = inr (pt', res.(PartitionIdx), res.(PartGUID)).

(** The part of [CreatePartition] that has the table. *)
Lemma allocation_asked diskPath cfg pt :
  let spec := cfg.(Provisioning).(partitionSpec) in
  yields (asked_for spec pt)
    (maxSize ← wrapf "error resolving max size: %w"
       (of_result (ResolveMaxSize spec (LargestContiguousAllocatable pt)));
     if LargestContiguousAllocatable pt <? spec.(MinSize) then throw (Errorf "not enough space on disk" []) else
     let size := partition_size maxSize (LargestContiguousAllocatable pt) in
     typeUUID ← wrapf "error parsing type UUID: %w" (of_result (uuid_Parse spec.(TypeUUID)));
     '(pt, partitionIdx, partGUID) ←
       wrapf "error allocating partition: %w" (allocate diskPath pt size spec.(Label) typeUUID);
     _ ← wrapf "error writing GPT: %w" (write_table diskPath pt);
     let partitionDevName := DevName diskPath partitionIdx in
     _ ← retryf "error opening partition: %w" (call (NewFromPath partitionDevName) silent);
     with_defer (run (CloseDevice partitionDevName) []) (
       _ ← retryf "error wiping partition: %w" (WipeWithSignatures partitionDevName);
       mret {| PartitionIdx := partitionIdx; PartGUID := partGUID; PartitionSize := size |})).
Proof.
  intros ps. unfold wrapf, retryf. eapply yields_bind; [apply yields_map_err, yields_of_result|].
  intros maxSize Hmax. cbv beta zeta. destruct (Z.ltb_spec (LargestContiguousAllocatable pt) (MinSize ps));
    [apply yields_throw|].
  apply yields_then; intros uuid. eapply (yields_bind (λ '(pt', idx, guid), AllocatePartition pt
    (partition_size maxSize (LargestContiguousAllocatable pt)) (Label ps) uuid = inr (pt', idx, guid))).
  { apply yields_map_err. intros s. unfold allocate. apply ensures_query. intros w [e|[[pt' idx] guid]] [= _ Ha]; done. }
  intros [[pt' idx] guid] Ha. apply yields_then; intros []. apply yields_then; intros [].
  apply yields_defer, yields_then. intros []. apply yields_ret. by exists pt', maxSize, uuid.
Qed.

Lemma CreatePartition_asked diskPath cfg hasPT s :
  ensures (CreatePartition diskPath cfg hasPT) s (λ _ r, match r with
    | inr res => ∃ pt, table_given diskPath hasPT (world s) pt ∧ asked_for cfg.(Provisioning).(partitionSpec) pt res
    | inl _ => True
    end).
Proof.
  unfold CreatePartition, with_locked_device, lock_exclusive.
  apply ensures_bind, ensures_map_err, ensures_call. intros w1 [e|] H1; [done|].
  apply ensures_defer, ensures_bind, ensures_map_err, ensures_call. intros w2 [e|] H2; [by apply ensures_run|].
  apply ensures_defer, ensures_bind, ensures_map_err, ensures_call. intros w3 [e|] H3; [by apply ensures_run; intros; apply ensures_run|].
  assert (Htable : ∀ s3, world s3 = w3 →
    ensures (if hasPT then read_table diskPath else new_table diskPath) s3
      (λ _ r, match r with inr pt => table_given diskPath hasPT (world s) pt | inl _ => True end)).
  { intros s3 Hs3. destruct hasPT; apply ensures_query; intros w4 [e|pt] H4; try done.
    all: rewrite Hs3 in H4; by exists w1, w2, w3, w4. }
  apply ensures_bind, ensures_map_err. eapply ensures_mono; [|by apply Htable].
  intros s4 [e|pt] Hpt; [by apply ensures_run; intros; apply ensures_run|].
  eapply ensures_mono; [|apply (allocation_asked diskPath cfg pt)].
  intros s5 [e|res] Hres; apply ensures_run; intros; apply ensures_run; intros; [done|by exists pt].
Qed.

(** Growing: the status follows the table. *)
Definition grown vc v (v' : volume (W:=W)) (r : error + ()) : Prop :=
  let ps := vc.(Cfg).(Provisioning).(partitionSpec) in
  let old := v.(Status).(Size) in
  let new := v'.(Status).(Size) in
  match r with
  | inl _ => v'.(Status) = v.(Status)
  | inr _ =>
      old ≤ new ∧ (0 < ps.(MaxSize) → new ≤ Z.max old ps.(MaxSize)) ∧
      ∃ t, trace (io_env v') = trace (io_env v) ++ t ∧
        (∀ disk idx size, EvGrowPartition disk idx size ∈ t ↔
          new ≠ old ∧ disk = v.(Status).(ParentLocation) ∧ idx = v.(Status).(PartitionIndex) - 1 ∧ size = new - old)
  end.

Lemma grown_same vc v v' t :
  v'.(Status).(Size) = v.(Status).(Size) → trace (io_env v') = trace (io_env v) ++ t →
  (∀ disk idx size, EvGrowPartition disk idx size ∉ t) → grown vc v v' (inr ()).
Proof.
  unfold grown. intros -> Ht Hn. split_and!; [done|lia|]. exists t. split; [done|].
  intros disk idx size. split; [by intros ?%Hn|by intros []].
Qed.

Lemma grown_by vc v v' t c :
  v'.(Status).(Size) = v.(Status).(Size) + c → 0 < c →
  (0 < vc.(Cfg).(Provisioning).(partitionSpec).(MaxSize) →
     v.(Status).(Size) + c ≤ vc.(Cfg).(Provisioning).(partitionSpec).(MaxSize)) →
  trace (io_env v') = trace (io_env v) ++ t →
  (∀ disk idx size, EvGrowPartition disk idx size ∈ t ↔
     disk = v.(Status).(ParentLocation) ∧ idx = v.(Status).(PartitionIndex) - 1 ∧ size = c) →
  grown vc v v' (inr ()).
Proof.
  unfold grown. intros -> Hc Hmax Ht Hev. split_and!; [lia|lia|]. exists t. split; [done|].
  intros disk idx size. rewrite Hev. replace (Size (Status v) + c - Size (Status v)) with c by lia.
  assert (Size (Status v) + c ≠ Size (Status v)) by lia. tauto.
Qed.

(** The growth that is asked for: capped, and without wrap-around. *)
Lemma capped_growth (max size g : Z) :
  0 ≤ max < 2 ^ 64 → 0 ≤ size < 2 ^ 63 → 1024 * 1024 < g < 2 ^ 63 →
  (max >? 0) && (size >=? max) = false →
  let c := if (max >? 0) && (g >? u64 (max - size)) then u64 (max - size) else g in
  0 < c ∧ u64 (size + c) = size + c ∧ (0 < max → size + c ≤ max).
Proof.
  intros Hmax Hs Hg Hcap c. assert (Hc : 0 < c < 2 ^ 63 + 2 ^ 63 - size ∧ (0 < max → size + c ≤ max)).
  { subst c. destruct (Z.gtb_spec max 0); simpl in *; [|lia].
    rewrite (u64_small (max - size)) by (destruct (Z.geb_spec size max); [done|lia]).
    destruct (Z.geb_spec size max), (Z.gtb_spec g (max - size)); simpl; try done; lia. }
  split_and!; [lia|apply u64_small; lia|apply Hc].
Qed.

Lemma Grow_grown vc v :
  spec_in_range vc.(Cfg).(Provisioning).(partitionSpec) → disk_sizes →
  0 ≤ v.(Status).(Size) < 2 ^ 63 → ensures (Grow vc) v (grown vc v).
Proof.
  intros (_ & Hmax & _) [_ Hg] Hsize.
  assert (Hsame : ∀ w t, (∀ disk idx size, EvGrowPartition disk idx size ∉ t) →
    ensures (set_phase VolumePhaseProvisioned)
      {| io_env := mkenv w (trace (io_env v) ++ t); Status := Status v |} (grown vc v)).
  { intros w t Ht. by apply ensures_update, (grown_same _ _ _ t). }
  assert (Hnone : ensures (set_phase VolumePhaseProvisioned) v (grown vc v)).
  { apply ensures_update, (grown_same _ _ _ []); [done|by rewrite app_nil_r|].
    intros ???; apply not_elem_of_nil. }
  unfold Grow. destruct (negb _); [exact Hnone|]. apply ensures_bind, ensures_status.
  destruct (_ && _) eqn:Hcap; [exact Hnone|]. apply ensures_bind, ensures_zoom. clear Hnone.
  repeat io_step; try done. clear H.
  destruct (AvailablePartitionGrowth _ _) as [e|g] eqn:Hgr; [by repeat io_step|]. apply Hg in Hgr.
  destruct (Z.leb_spec g (1024 * 1024)) as [|Hmin].
  - repeat io_step. cbn [world trace]. rewrite <-!app_assoc. apply Hsame. intros ???. unfold silent. simpl.
    repeat (apply not_elem_of_cons; split; [done|]). apply not_elem_of_nil.
  - generalize (capped_growth _ (Size (Status v)) g Hmax Hsize ltac:(lia) Hcap). cbv zeta.
    match goal with |- 0 < ?c ∧ _ → _ => generalize c end. intros c (Hpos & Hwrap & Hle).
    repeat io_step; try done. clear H Hsame. apply ensures_update, ensures_update. cbn [world trace].
    rewrite <-!app_assoc. unfold silent. simpl app.
    eapply (grown_by _ _ _ _ c); [by etrans; [|apply Hwrap]|done|done|reflexivity|].
    intros disk idx size. repeat rewrite elem_of_cons. rewrite elem_of_nil. naive_solver.
Qed.

(** C35: partitions have the sizes that were asked for, in 64-bit arithmetic.  A partition
    that is created is allocated in the table that was read from its disk, or made for it,
    with the resolved maximal size, or with all the free space of that table when that is
    less or when the maximum resolves to zero, which counts as no maximum, also for a
    negative one: it fits into the free space, and it has the minimal size unless the
    maximum is less than that.  A partition that grows never shrinks and never grows beyond
    its absolute maximum unless it was larger: the status records exactly the growth of the
    table, and an error leaves the status as it was. *)
Theorem partition_sizes vc :
  let ps := vc.(Cfg).(Provisioning).(partitionSpec) in
  spec_in_range ps → disk_sizes →
  (∀ disk hasPT s s' res, CreatePartition disk vc.(Cfg) hasPT s = Ok (s', inr res) →
     ∃ pt maxSize,
       let available := LargestContiguousAllocatable pt in
       let size := res.(PartitionSize) in
       table_given disk hasPT (world s) pt ∧
       (∃ pt' uuid, AllocatePartition pt size ps.(Label) uuid = inr (pt', res.(PartitionIdx), res.(PartGUID))) ∧
       ResolveMaxSize ps available = inr maxSize ∧
       (size = available ∨ size = maxSize ∧ 0 < maxSize < available) ∧
       0 ≤ size ≤ available ∧ (0 < maxSize → size ≤ maxSize) ∧
       (ps.(MinSize) ≤ size ↔ maxSize = 0 ∨ ps.(MinSize) ≤ maxSize)) ∧
  (∀ v v' r, 0 ≤ v.(Status).(Size) < 2 ^ 63 → Grow vc v = Ok (v', r) → grown vc v v' r).
Proof.
  intros ps Hps Hd. split; [|intros v v' r Hv; by apply Grow_grown].
  intros disk hasPT s s' res Hr. destruct (CreatePartition_asked disk (Cfg vc) hasPT s s' _ Hr)
    as (pt & Hpt & pt' & maxSize & uuid & Hmax & Hmin & Hsize & Hal).
  pose proof (ResolveMaxSize_range _ _ _ Hps Hmax) as Hmax0. destruct Hd as [Hfree _]. specialize (Hfree pt).
  exists pt, maxSize. cbv zeta. split; [exact Hpt|]. split; [by eauto|]. rewrite Hsize. split; [exact Hmax|].
  change (MinSize ps ≤ LargestContiguousAllocatable pt) in Hmin.
  pose proof (partition_size_spec maxSize (LargestContiguousAllocatable pt)) as (H1 & H2 & H3); [lia|lia|].
  split_and!; lia.
Qed.
End sizes.
