(* ===== verification/VolumeTeardown.v ===== *)
(** * Tearing volumes down

    What the volume manager does to the resources when volumes go away: a status is
    destroyed, and a parent is released, only once the volume that used them is closed;
    the machine may go down only once every volume but META is. *)

From S2P Require Import Prelude Errors Block Devices Keys Encryption Volumes VolumeProcess VolumeSafety VolumeManager VolumeOrder.

Section teardown.
Context `{celgo : CelGo} `{hum : Humanize} {W : Type} `{HD : Devices W} `{HKS : KeyServices W} `{HL : Luks}.
Context `{HR : Runtime W}.
Notation io := (prog (env W) error).
Notation vio := (prog (volume (W:=W)) error).
Notation mio := (prog (manager (W:=W)) error).
Implicit Types (ps : pass (W:=W)) (vc : VolumeConfig) (ctx : ManagerContext (W:=W)) (st : VolumeStatus).

(** ** Processing a volume releases nothing *)

(** Calls on the resources that release nothing. *)
Definition holds_on (ev : event) : Prop :=
  match ev with EvRuntime (RtDestroy _) | EvRuntime (RtRemoveFinalizer _ _) => False | _ => True end.

Notation vlog := (λ v, trace (io_env v)).
Notation holding := (logs_only (S:=volume (W:=W)) vlog holds_on).

Lemma holding_on_devices {A} (c : io A) : emits holds_on c → holding (on_devices c).
Proof. intros Hc v. apply ensures_zoom. eapply ensures_mono; [|apply Hc]. done. Qed.
Lemma holding_update f : holding (update f).
Proof. apply logs_only_nothing. intros v. by apply ensures_update. Qed.
Lemma holding_status : holding status.
Proof. apply logs_only_nothing. intros v. by apply ensures_status. Qed.
Lemma holding_lift {S A} (log : S → list event) (c : outcome Empty_set A) :
  logs_only log holds_on (lift c : prog S error A).
Proof. apply logs_only_nothing. intros v. by apply ensures_lift. Qed.
Lemma holding_of_result {S A} (log : S → list event) (r : error + A) :
  logs_only log holds_on (of_result r : prog S error A).
Proof. apply logs_only_nothing. intros v. by apply ensures_of_result. Qed.

Lemma holding_impl {A} (P : event → Prop) (c : io A) :
  (∀ ev, P ev → holds_on ev) → emits P c → emits holds_on c.
Proof.
  intros HP Hc s. eapply ensures_mono; [|apply Hc]. intros s' ? (t & Ht & Hev). exists t. split; [done|].
  by eapply Forall_impl.
Qed.

(** By the structure of a program. *)
Ltac holding_tac :=
  repeat (cbv beta zeta; first
    [ progress intros
    | apply logs_only_ret | apply logs_only_throw | apply holding_lift | apply holding_of_result
    | apply emits_call; intros; repeat case_match; by repeat constructor
    | apply emits_query; intros; repeat case_match; by repeat constructor
    | apply emits_quiet; solve [apply quiet_run | apply quiet_ask | apply quiet_call | apply quiet_query]
    | solve [auto with holding]
    | apply holding_update | apply holding_status | apply holding_on_devices
    | apply emits_bind | apply emits_defer | apply emits_map_err | apply emits_try
    | progress unfold wrapf, retryf, with_device, with_locked_device, lock_exclusive, unlock, read_table,
        new_table, write_table, allocate, grow_partition, make_fs, probe, set_ready, set_phase
    | case_match ]).

Lemma holding_run f ev : Forall holds_on ev → emits holds_on (run f ev : io ()).
Proof. intros Hev s. apply ensures_run. intros w. simpl. eauto. Qed.
#[local] Hint Extern 1 (logs_only _ holds_on (run _ _)) => (apply holding_run; by repeat constructor) : holding.

Lemma holding_WipeWithSignatures path : emits holds_on (WipeWithSignatures path).
Proof. unfold WipeWithSignatures. holding_tac. Qed.
#[local] Hint Resolve holding_WipeWithSignatures : holding.

Lemma holding_CheckDisk path cfg : emits holds_on (CheckDiskForProvisioning path cfg).
Proof. unfold CheckDiskForProvisioning, or_rejected, CheckGPT. holding_tac. Qed.
#[local] Hint Resolve holding_CheckDisk : holding.

Lemma holding_CreatePartition path cfg hasPT : emits holds_on (CreatePartition path cfg hasPT).
Proof. unfold CreatePartition. holding_tac. Qed.

Lemma holding_pick cfg disks : emits holds_on (pick cfg disks).
Proof.
  unfold pick. apply emits_bind; [|holding_tac]. generalize (@nil DiskRejectedReason).
  induction disks as [|d disks IH]; intros rejected; cbn [pick_disk]; holding_tac.
Qed.
#[local] Hint Resolve holding_CreatePartition holding_pick : holding.

Lemma holding_locate ctx dvs : holding (locate ctx dvs).
Proof.
  apply logs_only_nothing. intros v. eapply ensures_mono; [|apply locate_pure]. by intros v' r [-> _].
Qed.
Lemma holding_match_disks ctx disks : holding (match_disks ctx disks).
Proof.
  apply logs_only_nothing. intros v. eapply ensures_mono; [|apply match_disks_pure]. by intros v' r ->.
Qed.
#[local] Hint Resolve holding_locate holding_match_disks : holding.

Lemma holding_LocateAndProvision ctx : holding (LocateAndProvision ctx).
Proof. unfold LocateAndProvision, locate_or_provision, provision. holding_tac. Qed.
Lemma holding_Grow ctx : holding (Grow ctx).
Proof. unfold Grow. holding_tac. Qed.
Lemma holding_Format ctx : holding (Format ctx).
Proof. unfold Format, format_found, format_none, make_filesystem, GrowFilesystem. holding_tac. Qed.
Lemma holding_Close ctx : holding (Volumes.Close ctx).
Proof. unfold Volumes.Close, with_handler, CloseWithHandler, Encryption.Close. holding_tac. Qed.

Lemma key_call_holds_on ev : key_call ev → holds_on ev.
Proof. by destruct ev. Qed.
Lemma holding_HandleEncryption ctx : safe_context ctx → holding (HandleEncryption ctx).
Proof.
  intros Hs. unfold HandleEncryption, with_handler. destruct (Provider _); [holding_tac|].
  destruct (Encryption.New _ _) as [err|h] eqn:Hh; [holding_tac|].
  assert (Forall quiet_handler h) as Hq by (by eapply New_made, safe_key_opts).
  assert (∀ path mapped, emits holds_on (Encryption.Open h path mapped)).
  { intros. by eapply holding_impl; [apply key_call_holds_on|apply emits_Open]. }
  assert (∀ path, emits holds_on (FormatAndEncrypt h path)).
  { intros. eapply holding_impl; [|by apply emits_FormatAndEncrypt]. intros ev [?%key_call_holds_on|(? & ? & ->)]; done. }
  unfold HandleEncryptionWithHandler. holding_tac.
Qed.
#[local] Hint Resolve holding_LocateAndProvision holding_Grow holding_Format holding_Close holding_HandleEncryption : holding.

Lemma holding_turn ctx : safe_context ctx → holding (turn ctx).
Proof. intros Hs. unfold turn. holding_tac. Qed.

Lemma holding_processVolumeConfig ctx : safe_context ctx → holding (processVolumeConfig ctx).
Proof.
  intros Hs. unfold processVolumeConfig. apply emits_bind; [apply holding_status|]. intros st.
  generalize (Phase st) as prev, process_fuel as fuel. intros prev fuel. revert prev.
  induction fuel as [|fuel IH]; intros prev; cbn [process_loop]; [apply holding_lift|].
  apply emits_bind; [by apply holding_turn|]. intros []; [apply logs_only_ret|]. holding_tac.
Qed.

(** ** Closing a volume *)

(** A volume behind an encrypted device, and one whose status says that the device is open: it
    is prepared or ready, or failed from there.  An opening that fails once the device is
    mapped leaves a volume failed from being provisioned ([VolumeExamples.left_open]). *)
Definition encrypted ctx : Prop :=
  is_block ctx = true ∧ ctx.(Cfg).(Encryption).(Provider) = EncryptionProviderLUKS2.
Definition open_phase (p : VolumePhase) : Prop := p = VolumePhasePrepared ∨ p = VolumePhaseReady.
Definition recorded_open (st : VolumeStatusSpec) : Prop :=
  open_phase st.(Phase) ∨ st.(Phase) = VolumePhaseFailed ∧ open_phase st.(PreFailPhase).

(** From [v] on, [v'] was closed, or is not closed yet. *)
Definition closing ctx (v v' : volume (W:=W)) : Prop :=
  ∃ t, trace (io_env v') = trace (io_env v) ++ t ∧
    (recorded_open v.(Status) → EvClose (mapped_name ctx) ∈ t ∨ recorded_open v'.(Status)).

Lemma closing_refl ctx v : closing ctx v v.
Proof. exists []. rewrite app_nil_r. auto. Qed.
Lemma closing_trans ctx v1 v2 v3 : closing ctx v1 v2 → closing ctx v2 v3 → closing ctx v1 v3.
Proof.
  intros (t1 & Ht1 & H1) (t2 & Ht2 & H2). exists (t1 ++ t2). rewrite Ht2, Ht1, app_assoc. split; [done|].
  intros Ho. destruct (H1 Ho) as [?|Ho']; [left; apply elem_of_app; auto|].
  destruct (H2 Ho') as [?|]; [left; apply elem_of_app; auto|auto].
Qed.
Lemma Close_closing ctx v :
  encrypted ctx →
  ensures (Volumes.Close ctx) v (λ v' r, match r with inr _ => closing ctx v v' | inl _ => True end).
Proof.
  intros [Hb Hp]. unfold Volumes.Close, with_handler. rewrite Hp.
  assert (ensures (CloseWithHandler ctx) v
    (λ v' r, match r with inr _ => closing ctx v v' | inl _ => True end)) as Hc.
  { unfold CloseWithHandler, Encryption.Close. apply ensures_bind, ensures_map_err, ensures_zoom,
      ensures_bind, ensures_try, ensures_call. intros w err _.
    assert (closing ctx v {| io_env := mkenv w (trace (io_env v) ++ [EvClose (mapped_name ctx)]);
      Status := (Status v) <| Phase := VolumePhaseClosed |> |}) as H1.
    { eexists. split; [reflexivity|]. intros _. left. left. }
    destruct err as [e|]; [|by apply ensures_ret, ensures_update].
    destruct (errors_Is _ _); [by apply ensures_ret, ensures_update|by apply ensures_throw]. }
  unfold is_block in Hb. destruct (Encryption.New _ _); [|by destruct (Type_ (Cfg ctx))].
  destruct (Type_ (Cfg ctx)); try done; by apply ensures_throw.
Qed.

Lemma turn_closing ctx v :
  encrypted ctx → ctx.(ShouldCloseVolume) = true →
  ensures (turn ctx) v (λ v' r, match r with inr _ => closing ctx v v' | inl _ => True end).
Proof.
  intros He Hs. unfold turn. apply ensures_bind, ensures_status. rewrite Hs. cbn [negb].
  assert (Hset : ∀ p, (recorded_open v.(Status) → open_phase p) →
    ensures (_ ← set_phase p; mret false) v (λ v' r, match r with inr _ => closing ctx v v' | inl _ => True end)).
  { intros p Hp. apply ensures_bind, ensures_update, ensures_ret. exists []. rewrite app_nil_r. split; [done|].
    intros Ho. right. left. by apply Hp. }
  assert (Hclose : ensures (_ ← Volumes.Close ctx; mret false) v
    (λ v' r, match r with inr _ => closing ctx v v' | inl _ => True end)).
  { apply ensures_bind. eapply ensures_mono; [|by apply Close_closing].
    intros v' [e|[]] H1; [done|]. by apply ensures_ret. }
  unfold recorded_open, open_phase in *.
  destruct (Phase (Status v)) eqn:Hp; try exact Hclose; try (apply Hset; naive_solver).
  apply ensures_ret, closing_refl.
Qed.

Lemma loop_closing ctx out fuel v :
  encrypted ctx → ctx.(ShouldCloseVolume) = true →
  (∀ v, ensures out v (λ v' r, match r with inr _ => closing ctx v v' | inl _ => True end)) →
  ensures (process_loop out fuel ctx v.(Status).(Phase)) v
    (λ v' r, match r with inr _ => closing ctx v v' | inl _ => True end).
Proof.
  intros He Hs Hout. revert v. induction fuel as [|fuel IH]; intros v; cbn [process_loop]; [apply Hout|].
  apply ensures_bind. eapply ensures_mono; [|by apply turn_closing].
  intros v' [e|[|]] H1; [done|by apply ensures_ret|]. apply ensures_bind, ensures_status.
  case_bool_decide; [by apply ensures_ret|].
  apply ensures_bind, ensures_zoom, ensures_ask. intros w done _. simpl.
  assert (H2 : closing ctx v {| io_env := mkenv w (trace (io_env v') ++ silent done); Status := Status v' |}).
  { eapply closing_trans; [exact H1|]. exists []. split; [done|]. by right. }
  destruct done; [by apply ensures_ret|].
  eapply ensures_mono; [|apply (IH {| io_env := _; Status := Status v' |})].
  intros v'' [e|[]] H3; [done|]. by eapply closing_trans.
Qed.

(** A volume that is found closed when it was to be closed was closed. *)
Lemma processVolumeConfig_closes ctx v :
  encrypted ctx → ctx.(ShouldCloseVolume) = true →
  ensures (processVolumeConfig ctx) v (λ v' r, ∀ t, trace (io_env v') = trace (io_env v) ++ t →
    (record_result r v'.(Status)).(Phase) = VolumePhaseClosed → recorded_open v.(Status) →
    EvClose (mapped_name ctx) ∈ t).
Proof.
  intros He Hs. unfold processVolumeConfig. apply ensures_bind, ensures_status.
  eapply ensures_mono; [|apply (loop_closing ctx (lift (Panic LoopFuel)) process_fuel v He Hs); intros ?; by apply ensures_lift].
  intros v' [e|[]]; [done|]. intros (t' & Ht' & H1) t Ht Hc Ho.
  change (Phase (Status v') = VolumePhaseClosed) in Hc.
  assert (t' = t) as -> by (apply (inj (app (trace (io_env v)))); congruence).
  destruct (H1 Ho) as [?|H2]; [done|]. destruct H2 as [[?|?]|[? _]]; congruence.
Qed.

(** ** Programs of the manager and what they log *)

Definition mlogs {A} (c : mio A) (m : manager) (Q : list event → manager → error + A → Prop) : Prop :=
  ensures c m (λ m' r, ∃ t, trace (mgr_io m') = trace (mgr_io m) ++ t ∧ Q t m' r).

Lemma mlogs_mono {A} (c : mio A) m (Q Q' : list event → manager → error + A → Prop) :
  mlogs c m Q → (∀ t m' r, Q t m' r → Q' t m' r) → mlogs c m Q'.
Proof. intros Hc HQ. eapply ensures_mono; [|exact Hc]. intros m' r (t & ? & ?). eauto. Qed.
Lemma mlogs_bind {A B} (c : mio A) (f : A → mio B) m Q :
  mlogs c m (λ t m' r, match r with inr a => mlogs (f a) m' (λ t', Q (t ++ t')) | inl e => Q t m' (inl e) end) →
  mlogs (c ≫= f) m Q.
Proof.
  intros Hc. apply ensures_bind. eapply ensures_mono; [|exact Hc].
  intros m' [e|a] (t & Ht & HQ); [eauto|]. eapply ensures_mono; [|exact HQ].
  intros m'' r (t' & Ht' & HQ'). exists (t ++ t'). by rewrite Ht', Ht, app_assoc.
Qed.
Lemma mlogs_ret {A} (a : A) m (Q : list event → manager → error + A → Prop) : Q [] m (inr a) → mlogs (mret a) m Q.
Proof. intros HQ. apply ensures_ret. exists []. by rewrite app_nil_r. Qed.
Lemma mlogs_modify f m (Q : list event → manager → error + () → Prop) :
  mgr_io (f m) = mgr_io m → Q [] (f m) (inr ()) → mlogs (modify f) m Q.
Proof. intros Hf HQ. apply ensures_modify. exists []. by rewrite Hf, app_nil_r. Qed.

(** The same manager but for its devices. *)
Definition same (m m' : manager (W:=W)) : Prop := statuses m' = statuses m ∧ allClosed m' = allClosed m.

Lemma mlogs_on_io {A} (c : io A) m Q P :
  emits P c → (∀ t m' r, same m m' → Forall P t → Q t m' r) → mlogs (on_io c) m Q.
Proof.
  intros Hc HQ. apply ensures_zoom. eapply ensures_mono; [|apply Hc].
  intros e r (t & Ht & HP). exists t. split; [done|]. by apply HQ.
Qed.
Lemma mlogs_wrapf {A} format (c : mio A) m Q :
  mlogs c m (λ t m' r, Q t m' (match r with inl e => inl (Errorf format [Wrapped e]) | inr a => inr a end)) →
  mlogs (wrapf format c) m Q.
Proof. intros Hc. apply ensures_map_err. exact Hc. Qed.
Lemma mlogs_runtime f c m (Q : list event → manager → error + () → Prop) :
  (∀ m' r, same m m' → Q [EvRuntime c] m' r) → mlogs (on_io (runtime f c)) m Q.
Proof. intros HQ. apply ensures_zoom, ensures_call. intros w err _. eexists. split; [done|]. by apply HQ. Qed.

(** ** What a log may release *)

Definition encrypted_config vc : Prop :=
  match vc.(configSpec).(Type_) with VolumeTypeDisk | VolumeTypePartition => true | _ => false end = true ∧
  vc.(configSpec).(Encryption).(Provider) = EncryptionProviderLUKS2.
Definition mapped vc : string := (Encryption.Name +:+ "-" +:+ vc.(configID))%string.

(** After the log [t]: the volume is being torn down, and it had no status, or one that
    nobody used, and its mapped device was closed if it was open. *)
Definition may_release (ps : pass (W:=W)) (sts : gmap string VolumeStatus) vc (t : list event) : Prop :=
  tearing_down ps vc sts = true ∧
  match sts !! vc.(configID) with
  | None => True
  | Some st =>
      st.(statusFinalizers) = [] ∧
      (encrypted_config vc → recorded_open st.(statusSpec) → EvClose (mapped vc) ∈ t)
  end.

(** What is released for a volume: its status, its parent, its configuration. *)
Definition releases vc (c : runtime_call) : Prop :=
  c = RtDestroy (StatusResource vc.(configID)) ∨
  c = RtRemoveFinalizer (StatusResource vc.(configSpec).(ParentID)) (parent_finalizer vc) ∨
  c = RtRemoveFinalizer (ConfigResource vc.(configID)) ControllerName.

(** May [c] come after the log [t]?  [done] is the condition for the lifecycle. *)
Definition allowed (ps : pass (W:=W)) sts (vcs : list VolumeConfig) (done : Prop) (t : list event) (c : runtime_call) : Prop :=
  match c with
  | RtRemoveFinalizer LifecycleResource _ => done
  | RtDestroy _ | RtRemoveFinalizer _ _ => ∃ vc, vc ∈ vcs ∧ releases vc c ∧ may_release ps sts vc t
  | RtAddFinalizer _ _ | RtTeardown _ | RtWrite _ => True
  end.
Definition accounted (ps : pass (W:=W)) sts vcs (done : Prop) (t : list event) : Prop :=
  ∀ t1 c t2, t = t1 ++ EvRuntime c :: t2 → allowed ps sts vcs done t1 c.

Section accounted.
Context (ps : pass (W:=W)) (sts : gmap string VolumeStatus).

Lemma may_release_prefix vc t t' : may_release ps sts vc t' → may_release ps sts vc (t ++ t').
Proof.
  intros [Ht Hst]. split; [done|]. destruct (sts !! _); [|done]. destruct Hst as [Hf Ho].
  split; [done|]. intros He Hop. apply elem_of_app. auto.
Qed.
Lemma allowed_mono vcs vcs' (done done' : Prop) t t' c :
  vcs ⊆ vcs' → (done → done') → allowed ps sts vcs done t' c → allowed ps sts vcs' done' (t ++ t') c.
Proof.
  intros Hv Hd. destruct c as [|[] ?| | |]; simpl; try done.
  all: intros (vc & ? & ? & ?); exists vc; auto using may_release_prefix.
Qed.
Lemma accounted_mono vcs vcs' (done done' : Prop) t :
  vcs ⊆ vcs' → (done → done') → accounted ps sts vcs done t → accounted ps sts vcs' done' t.
Proof. intros Hv Hd Ht t1 c t2 He. eapply (allowed_mono _ _ _ _ []); [done|done|by eapply Ht]. Qed.
Lemma accounted_app vcs done t t' :
  accounted ps sts vcs done t → accounted ps sts vcs done t' → accounted ps sts vcs done (t ++ t').
Proof.
  intros Ht Ht' t1 c t2 He. apply app_eq_inv in He as [(k & Hk & He)|(k & -> & He)].
  - destruct k as [|ev k]; simplify_eq/=.
    + rewrite <-(app_nil_r t1). eapply allowed_mono; [done|done|]. by eapply (Ht' []).
    + by eapply Ht.
  - eapply allowed_mono; [done|done|]. by eapply Ht'.
Qed.
Lemma accounted_holds vcs done t : Forall holds_on t → accounted ps sts vcs done t.
Proof.
  intros Ht t1 c t2 ->. apply Forall_app in Ht as [_ Hc%Forall_inv]. by destruct c.
Qed.
Lemma accounted_snoc vcs done t c :
  accounted ps sts vcs done t → allowed ps sts vcs done t c → accounted ps sts vcs done (t ++ [EvRuntime c]).
Proof.
  intros Ht Hc t1 c' t2 He. destruct t2 as [|ev t2 _] using rev_ind.
  - apply app_inj_tail in He as [-> [= ->]]. done.
  - rewrite app_comm_cons, app_assoc in He. apply app_inj_tail in He as [-> _]. by eapply Ht.
Qed.
Lemma allowed_release vcs done vc c t :
  vc ∈ vcs → releases vc c → may_release ps sts vc t → allowed ps sts vcs done t c.
Proof. intros ? [-> |[-> | ->]]; simpl; intros ?; exists vc; unfold releases; auto. Qed.
End accounted.

(** ** One volume *)

(** Processing in the loop, with the status it leaves. *)
Lemma progress_logs ctx spec m :
  safe_context ctx →
  mlogs (progress ctx spec) m (λ t m' r, Forall holds_on t ∧ same m m' ∧
    match r with
    | inl _ => True
    | inr spec' => ctx.(ShouldCloseVolume) = true → encrypted ctx → recorded_open spec →
        spec'.(Phase) = VolumePhaseClosed → EvClose (mapped_name ctx) ∈ t
    end).
Proof.
  intros Hs m' r Hr. unfold progress in Hr.
  destruct (progressVolumeConfig ctx _) as [[v' r']|[]|] eqn:Hp; [|done]. injection Hr as <- <-.
  set (v := {| io_env := mgr_io m; Status := spec |}) in Hp.
  assert (Hlog : holding (progressVolumeConfig ctx)).
  { pose proof (holding_processVolumeConfig ctx Hs) as Hh. unfold progressVolumeConfig, AddFinalizer, runtime.
    holding_tac; exact Hh. }
  destruct (Hlog v _ _ Hp) as (t & Ht & Hev). exists t. split; [done|]. split; [done|]. split; [done|].
  intros Hc He Ho Hph. unfold progressVolumeConfig in Hp. rewrite Hc in Hp. simpl in Hp.
  by eapply (processVolumeConfig_closes ctx v He Hc).
Qed.

Lemma releasing vc sts ps t m c format (f : W → W * option error) (Q : list event → manager → error + () → Prop) :
  accounted ps sts [vc] False t → releases vc c → may_release ps sts vc t →
  (∀ m' r, same m m' → accounted ps sts [vc] False (t ++ [EvRuntime c]) → Q [EvRuntime c] m' r) →
  mlogs (wrapf format (on_io (runtime f c))) m Q.
Proof.
  intros Ht Hr Hm HQ. apply mlogs_wrapf, mlogs_runtime. intros m' r Hs. apply HQ; [done|].
  apply accounted_snoc; [done|]. by eapply allowed_release; [left| |].
Qed.

(** Releasing the parent, when the volume may be released. *)
Lemma release_parent_logs vc sts ps t m parent :
  accounted ps sts [vc] False t → may_release ps sts vc t →
  (∀ p, parent = Some p → p.(statusID) = vc.(configSpec).(ParentID)) →
  mlogs (release_parent parent (parent_finalizer vc)) m (λ t' m' _,
    same m m' ∧ accounted ps sts [vc] False (t ++ t') ∧ may_release ps sts vc (t ++ t')).
Proof.
  intros Ht Hm Hp. unfold release_parent, release.
  assert (Hnone : mlogs (mret ()) m (λ t' m' (_ : error + ()),
    same m m' ∧ accounted ps sts [vc] False (t ++ t') ∧ may_release ps sts vc (t ++ t'))).
  { apply mlogs_ret. by rewrite app_nil_r. }
  destruct parent as [p|]; [|exact Hnone]. destruct (bool_decide _); [|exact Hnone].
  eapply releasing; [exact Ht|right; left; by rewrite (Hp p eq_refl)|done|].
  intros m' r Hs Hj. split_and!; [done|done|]. destruct Hm as [Htd Hm]. split; [done|].
  destruct (sts !! _); [|done]. destruct Hm as [? Hm]. split; [done|]. intros. apply elem_of_app. auto.
Qed.

(** What holds of the statuses: where they come from. *)
Definition resembles (sts0 sts : gmap string VolumeStatus) : Prop :=
  ∀ id st, sts !! id = Some st → st.(statusID) = id ∧
    (st.(statusPhase) = PhaseTearingDown → phase_is PhaseTearingDown (sts0 !! id) = true).

(** Closed, or without a status, or META. *)
Definition down vc (sts : gmap string VolumeStatus) : Prop :=
  vc.(configID) = MetaPartitionLabel ∨
  match sts !! vc.(configID) with Some st => st.(statusSpec).(Phase) = VolumePhaseClosed | None => True end.

(** The effect of an iteration on the statuses. *)
Definition iterated sts0 vc (m m' : manager (W:=W)) : Prop :=
  resembles sts0 (statuses m') ∧
  (∀ id, id ≠ vc.(configID) → statuses m' !! id = statuses m !! id) ∧
  (allClosed m' = true → allClosed m = true ∧ down vc (statuses m')).

Lemma iterated_insert sts0 vc m m' st' :
  resembles sts0 (statuses m) → st'.(statusID) = vc.(configID) →
  (st'.(statusPhase) = PhaseTearingDown → phase_is PhaseTearingDown (sts0 !! vc.(configID)) = true) →
  statuses m' = <[vc.(configID) := st']> (statuses m) →
  allClosed m' = allClosed m &&
    (bool_decide (st'.(statusSpec).(Phase) = VolumePhaseClosed) || String.eqb vc.(configID) MetaPartitionLabel) →
  iterated sts0 vc m m'.
Proof.
  intros Hres Hid Hph Hst Hall. unfold iterated, down. rewrite Hst, Hall. split_and!.
  - intros id st. destruct (decide (id = vc.(configID))) as [->|Hne].
    + rewrite lookup_insert_eq. intros [= <-]. auto.
    + rewrite lookup_insert_ne by done. apply Hres.
  - intros id Hne. by rewrite lookup_insert_ne.
  - intros [? [Hc|Hc]%orb_true_iff]%andb_true_iff; (split; [done|]).
    + right. rewrite lookup_insert_eq. by apply bool_decide_eq_true in Hc.
    + left. by apply String.eqb_eq.
Qed.
Lemma iterated_delete sts0 vc m m1 m' :
  iterated sts0 vc m m1 → statuses m' = delete vc.(configID) (statuses m1) → allClosed m' = allClosed m1 →
  iterated sts0 vc m m'.
Proof.
  intros (Hr & Hk & Hd) Hst Hall. unfold iterated, down. rewrite Hst, Hall, lookup_delete_eq. split_and!.
  - intros id st [_ Hl]%lookup_delete_Some. by apply Hr.
  - intros id Hne. rewrite lookup_delete_ne by done. auto.
  - intros Ha. split; [by apply Hd|auto].
Qed.
Lemma iterated_same sts0 vc m m1 m' : iterated sts0 vc m m1 → same m1 m' → iterated sts0 vc m m'.
Proof. unfold iterated. by intros ? [-> ->]. Qed.

(** The end of an iteration: what is released. *)
Lemma release_logs vc sts0 ps t m m1 parent st :
  accounted ps sts0 [vc] False t → may_release ps sts0 vc t →
  (∀ p, parent = Some p → p.(statusID) = vc.(configSpec).(ParentID)) →
  st.(statusID) = vc.(configID) → iterated sts0 vc m m1 →
  mlogs (_ ← release_parent parent (parent_finalizer vc);
         _ ← wrapf "error destroying volume status: %w" (on_io (Destroy (StatusResource st.(statusID))));
         set_statuses (delete st.(statusID))) m1
    (λ t' m' r, accounted ps sts0 [vc] False (t ++ t') ∧
       match r with inr _ => iterated sts0 vc m m' | inl _ => True end).
Proof.
  intros Ht Hm Hp Hid Hit. apply mlogs_bind. eapply mlogs_mono; [by apply release_parent_logs|].
  intros t1 m2 [e|[]] (Hs1 & Ht1 & Hm1); [done|]. apply mlogs_bind. rewrite Hid.
  eapply releasing; [exact Ht1|by left|exact Hm1|].
  intros m3 [e|[]] Hs2 Hj; [by rewrite (assoc_L (++))|].
  apply mlogs_modify; [done|]. rewrite app_nil_r, (assoc_L (++)). split; [done|].
  eapply iterated_delete; [|done|done]. eapply iterated_same; [|exact Hs2]. by eapply iterated_same.
Qed.

Lemma process_status_logs ps vc gate tearingDown st parent sts0 m :
  (∀ id, quiet_opts (passHelpers ps id)) → resembles sts0 (statuses m) →
  st.(statusID) = vc.(configID) →
  (st.(statusPhase) = PhaseTearingDown → phase_is PhaseTearingDown (sts0 !! vc.(configID)) = true) →
  (tearingDown = true → sts0 !! vc.(configID) = Some st ∧ tearing_down ps vc sts0 = true) →
  (∀ p, parent = Some p → p.(statusID) = vc.(configSpec).(ParentID)) →
  mlogs (process_status ps vc gate tearingDown st parent) m (λ t m' r,
    accounted ps sts0 [vc] False t ∧ match r with inr _ => iterated sts0 vc m m' | inl _ => True end).
Proof.
  intros Hq Hres Hid Hph Htd Hpar. unfold process_status. apply mlogs_bind.
  eapply (mlogs_mono _ _ (λ t m' _, Forall holds_on t ∧ same m m')).
  { destruct (_ && _); [|by apply mlogs_ret]. apply mlogs_wrapf, mlogs_runtime. intros.
    split; [by repeat constructor|done]. }
  intros t1 m1 [e|[]] [Ht1 [Hs1 Ha1]]; [by split; [apply accounted_holds|]|].
  apply mlogs_bind. eapply mlogs_mono; [apply progress_logs; apply Hq|].
  intros t2 m2 [e|spec] (Ht2 & [Hs2 Ha2] & Hclose).
  { split; [|done]. apply accounted_app; by apply accounted_holds. }
  apply mlogs_bind, mlogs_modify; [done|]. apply mlogs_bind, mlogs_modify; [done|].
  set (m3 := {| mgr_io := _; statuses := _; allClosed := _ && _; shouldRetry := _ |}).
  assert (Hit : iterated sts0 vc m m3).
  { eapply (iterated_insert _ _ _ _ (with_spec st spec)); [done|done|done| |]; simpl; congruence. }
  assert (Ht : accounted ps sts0 [vc] False (t1 ++ t2)) by (apply accounted_app; by apply accounted_holds).
  apply mlogs_bind. destruct (_ && bool_decide (Phase spec = _)) eqn:Hd.
  2: { apply mlogs_ret, mlogs_ret. rewrite !app_nil_r. by split. }
  apply andb_true_iff in Hd as [[Htr Hfin]%andb_true_iff Hcl].
  apply bool_decide_eq_true in Hfin, Hcl. destruct (Htd Htr) as [Hst Htd'].
  eapply mlogs_mono; [eapply (release_logs vc sts0 ps (t1 ++ t2) m); try done|].
  - split; [done|]. rewrite Hst. split; [done|]. intros He Ho. apply elem_of_app. right.
    apply Hclose; [|exact He|exact Ho|exact Hcl]. simpl. by rewrite Htr, bool_decide_eq_true_2.
  - intros t' m' [e|[]] [Hj Hr].
    + simpl. by rewrite (assoc_L (++)).
    + apply mlogs_ret. simpl. rewrite app_nil_r, (assoc_L (++)). by split.
Qed.

Lemma phase_is_resembles sts0 sts id :
  resembles sts0 sts → phase_is PhaseTearingDown (sts !! id) = true →
  phase_is PhaseTearingDown (sts0 !! id) = true.
Proof.
  intros Hr. destruct (sts !! id) as [st|] eqn:Hst; simpl; [|done]. intros H1%bool_decide_eq_true.
  by apply (Hr _ _ Hst).
Qed.
Lemma tearing_down_resembles ps vc sts0 sts :
  resembles sts0 sts → tearing_down ps vc sts = true → tearing_down ps vc sts0 = true.
Proof.
  intros Hr. unfold tearing_down, parent_of. rewrite !orb_true_iff. intros [[[H1|H1]|H1]|H1]; auto.
  - left; left; left. by eapply phase_is_resembles.
  - left; right. destruct (String.eqb _ _); [done|]. by eapply phase_is_resembles.
Qed.

Lemma process_volume_logs ps vc gate sts0 m :
  (∀ id, quiet_opts (passHelpers ps id)) → resembles sts0 (statuses m) →
  statuses m !! vc.(configID) = sts0 !! vc.(configID) →
  mlogs (process_volume ps vc gate) m (λ t m' r,
    accounted ps sts0 [vc] False t ∧ match r with inr _ => iterated sts0 vc m m' | inl _ => True end).
Proof.
  intros Hq Hres Heq.
  assert (Hpar : ∀ p, parent_of vc (statuses m) = Some p → p.(statusID) = vc.(configSpec).(ParentID)).
  { intros p. unfold parent_of. destruct (String.eqb _ _); [done|]. intros Hp. by destruct (Hres _ _ Hp). }
  unfold process_volume. apply mlogs_bind. apply ensures_get. exists []. rewrite app_nil_r. split; [done|].
  cbv beta zeta. destruct (statuses m !! configID vc) as [st|] eqn:Hst.
  { destruct (Hres _ _ Hst) as [Hid Hph]. apply mlogs_bind.
    eapply mlogs_mono; [apply (process_status_logs _ _ _ _ _ _ sts0); try done|].
    { intros Htd. split; [done|]. by eapply tearing_down_resembles. }
    intros t m' [e|p] [Hj Hit]; [by split|]. apply mlogs_ret. rewrite app_nil_r. by split. }
  destruct (tearing_down ps vc (statuses m)) eqn:Htd.
  - assert (Hm : may_release ps sts0 vc []).
    { split; [by eapply tearing_down_resembles|]. by rewrite <-Heq. }
    assert (Hnil : accounted ps sts0 [vc] False []) by (by apply accounted_holds).
    assert (Hit : iterated sts0 vc m m).
    { split_and!; [done|done|]. intros ?. split; [done|]. right. by rewrite Hst. }
    apply mlogs_bind. eapply mlogs_mono; [by apply (release_parent_logs vc sts0 ps [])|].
    intros t m1 [e|[]] (Hs1 & Hj & Hm1); [by split|]. apply mlogs_bind. unfold release.
    destruct (bool_decide _).
    + eapply releasing; [exact Hj|right; by right|exact Hm1|].
      intros m2 [e|[]] Hs2 Hj2; [by split|]. apply mlogs_ret. rewrite app_nil_r. split; [done|].
      eapply iterated_same; [|exact Hs2]. by eapply iterated_same.
    + apply mlogs_ret, mlogs_ret. rewrite !app_nil_r. split; [done|]. by eapply iterated_same.
  - apply mlogs_bind, mlogs_modify; [done|]. apply mlogs_bind.
    set (m1 := {| mgr_io := _; statuses := <[_ := _]> _; allClosed := _; shouldRetry := _ |}).
    eapply mlogs_mono; [apply (process_status_logs _ _ _ _ _ _ sts0 m1); try done|].
    { intros id st'. simpl. destruct (decide (id = configID vc)) as [->|Hne].
      - rewrite lookup_insert_eq. by intros [= <-].
      - rewrite lookup_insert_ne by done. apply Hres. }
    intros t m' [e|p] [Hj Hit]; [by split|]. apply mlogs_ret. rewrite !app_nil_r. split; [done|].
    destruct Hit as (H1 & H2 & H3). split_and!; [done| |done]. intros id Hne. rewrite (H2 id Hne). simpl.
    by rewrite lookup_insert_ne.
Qed.

(** ** The loop *)

Lemma process_volumes_logs ps fpw vcs sts0 m :
  (∀ id, quiet_opts (passHelpers ps id)) → resembles sts0 (statuses m) →
  NoDup (configID <$> vcs) → (∀ vc, vc ∈ vcs → statuses m !! vc.(configID) = sts0 !! vc.(configID)) →
  mlogs (process_volumes ps fpw vcs) m (λ t m' r,
    accounted ps sts0 vcs False t ∧
    match r with
    | inr false =>
        resembles sts0 (statuses m') ∧ (∀ id, id ∉ configID <$> vcs → statuses m' !! id = statuses m !! id) ∧
        (allClosed m' = true → allClosed m = true ∧ ∀ vc, vc ∈ vcs → down vc (statuses m'))
    | _ => True
    end).
Proof.
  intros Hq. revert fpw m. induction vcs as [|vc vcs IH]; intros fpw m Hres Hnd Heq; cbn [process_volumes].
  { apply mlogs_ret. split; [by apply accounted_holds|]. split_and!; [done|done|]. intros ?. split; [done|].
    intros vc Hvc. by apply elem_of_nil in Hvc. }
  rewrite fmap_cons in Hnd. apply NoDup_cons in Hnd as [Hnew Hnd].
  apply mlogs_bind. eapply (mlogs_on_io _ _ _ (λ _, False)); [apply emits_quiet, quiet_ask|].
  intros t1 m1 [e|stop] Hs1 Ht1; (assert (t1 = []) as -> by (destruct t1; [done|by inversion Ht1])).
  { split; [|done]. by apply accounted_holds. }
  destruct stop; [apply mlogs_ret; split; [|done]; by apply accounted_holds|].
  destruct Hs1 as [Hs1 Ha1]. cbv zeta. apply mlogs_bind. eapply mlogs_mono.
  { apply (process_volume_logs ps vc _ sts0 m1 Hq); rewrite Hs1; [done|]. apply Heq. left. }
  intros t2 m2 [e|p] [Hj Hit].
  { split; [|done]. eapply accounted_mono; [| |exact Hj]; [set_solver|done]. }
  destruct Hit as (Hres2 & Hk2 & Hd2). rewrite Hs1 in Hk2. rewrite Ha1 in Hd2.
  assert (Hother : ∀ vc', vc' ∈ vcs → vc'.(configID) ≠ vc.(configID)).
  { intros vc' Hvc' He. apply Hnew. rewrite <-He. apply list_elem_of_fmap. eauto. }
  eapply mlogs_mono; [apply IH; [done|done|]|].
  { intros vc' Hvc'. rewrite Hk2 by auto. apply Heq. by right. }
  intros t3 m3 r [Hj3 Hr3]. simpl. split.
  { apply accounted_app; (eapply accounted_mono; [| |eassumption]; [set_solver|done]). }
  destruct r as [e|[|]]; [done|done|]. destruct Hr3 as (Hres3 & Hk3 & Hd3). split_and!; [done| |].
  - intros id [? ?]%not_elem_of_cons. rewrite Hk3 by done. auto.
  - intros Ha. destruct (Hd3 Ha) as [Ha2 Hdown]. destruct (Hd2 Ha2) as [? Hvc]. split; [done|].
    intros vc' [-> |Hvc']%elem_of_cons; [|auto]. unfold down in *. by rewrite Hk3.
Qed.

(** ** A pass *)

Lemma holding_writes l : emits holds_on (for_each WriteStatus l : io ()).
Proof. apply emits_for_each. intros st _. unfold WriteStatus, runtime. apply emits_call. by repeat constructor. Qed.

(** C17: tearing down is done from the inside out, and only for volumes that nobody uses.
    In a pass over the volumes, whatever the devices and the resources answer, a status is
    destroyed, a parent released, or the configuration of a volume without a status
    released, only when the volume is being torn down, no finalizer is left on its status,
    and, for an encrypted volume whose status is prepared or ready, or failed from one of
    these, its mapped device was closed before; and the lifecycle of the volumes is released
    only when it is being torn down and every volume but META is closed or has no status. *)
Theorem volumes_torn_down ps lc vcs m m' r :
  (∀ id, quiet_opts (passHelpers ps id)) →
  (∀ id st, statuses m !! id = Some st → st.(statusID) = id) →
  NoDup (configID <$> vcs) →
  run_volumes ps lc vcs m = Ok (m', r) →
  ∃ t, trace (mgr_io m') = trace (mgr_io m) ++ t ∧
    accounted ps (statuses m) vcs
      (lc.(lifecyclePhase) = PhaseTearingDown ∧ ∀ vc, vc ∈ vcs → down vc (statuses m')) t.
Proof.
  intros Hq Hids Hnd. revert m' r.
  destruct (SortStableFunc_spec compare_configs (λ a b, compare_opp _ _) compare_configs_trans vcs) as (_ & Hperm & _).
  change (mlogs (run_volumes ps lc vcs) m (λ t m' (_ : error + bool), accounted ps (statuses m) vcs
    (lc.(lifecyclePhase) = PhaseTearingDown ∧ ∀ vc, vc ∈ vcs → down vc (statuses m')) t)).
  unfold run_volumes. apply mlogs_bind. eapply mlogs_mono.
  { apply (process_volumes_logs ps MaxInt _ (statuses m) m Hq).
    - intros id st Hst. split; [by eapply Hids|]. intros Hp. rewrite Hst. simpl. by rewrite bool_decide_eq_true_2.
    - by rewrite Hperm.
    - done. }
  intros t1 m1 r1 [Hj H1].
  assert (Hj1 : ∀ P, accounted ps (statuses m) vcs P t1).
  { intros P. eapply accounted_mono; [| |exact Hj]; [|done]. intros vc. by rewrite Hperm. }
  destruct r1 as [e|[|]]; [apply Hj1|apply mlogs_ret; rewrite app_nil_r; apply Hj1|].
  destruct H1 as (_ & _ & Hdown).
  apply mlogs_bind, ensures_get. exists []. rewrite app_nil_r. split; [done|].
  apply mlogs_bind, mlogs_wrapf. eapply mlogs_on_io; [apply holding_writes|].
  intros t2 m2 r2 [Hs2 Ha2] Ht2.
  assert (Hj2 : ∀ P, accounted ps (statuses m) vcs P (t1 ++ t2)).
  { intros P. apply accounted_app; [apply Hj1|by apply accounted_holds]. }
  destruct r2 as [e|[]]; [apply Hj2|].
  apply mlogs_bind, ensures_get. exists []. rewrite app_nil_r. split; [done|].
  apply mlogs_bind.
  destruct (bool_decide _ && _) eqn:Hl; [|apply mlogs_ret, mlogs_ret; simpl; rewrite !app_nil_r; apply Hj2].
  apply andb_true_iff in Hl as [Hl%bool_decide_eq_true Hall].
  apply mlogs_wrapf, mlogs_runtime. intros m3 r3 [Hs3 _].
  enough (accounted ps (statuses m) vcs (lifecyclePhase lc = PhaseTearingDown ∧
    ∀ vc, vc ∈ vcs → down vc (statuses m3)) ((t1 ++ t2) ++ [EvRuntime (RtRemoveFinalizer LifecycleResource ControllerName)])) as Hj3.
  { destruct r3; [|apply mlogs_ret]; simpl; rewrite ?app_nil_r, (assoc_L (++)); exact Hj3. }
  apply accounted_snoc; [apply Hj2|]. simpl. split; [done|]. intros vc Hvc. rewrite Hs3, Hs2.
  apply Hdown; [congruence|]. by rewrite Hperm.
Qed.
End teardown.
