(* ===== verification/VolumeExamples.v ===== *)
(** * Examples

    The theorems on volumes at concrete inputs, on the simulated machine. *)

From stdpp Require Import pretty.
From S2P Require Import Prelude Errors Block Devices Keys Encryption Volumes VolumeProcess VolumeSafety.
From S2P Require Import VolumeManager VolumeOrder VolumeForms VolumeSizes VolumeTeardown.
#[local] Open Scope Z_scope.

Definition GiB : Z := 1024 ^ 3.

Record machine := {
  signature : gmap string string;      (** what is on a path; nothing for a blank one *)
  keyslots : list Z;                   (** the slots of the encrypted volume *)
  opened : list string                 (** the mapped names *)
}.

Definition sign (path name : string) (m : machine) : machine :=
  {| signature := <[path := name]> m.(signature); keyslots := m.(keyslots); opened := m.(opened) |}.
Definition with_slots (l : list Z) (m : machine) : machine :=
  {| signature := m.(signature); keyslots := l; opened := m.(opened) |}.
Definition with_opened (l : list string) (m : machine) : machine :=
  {| signature := m.(signature); keyslots := m.(keyslots); opened := l |}.

Definition ok (m : machine) : machine * option error := (m, None).
Definition ok_ {A} (a : A) (m : machine) : machine * (error + A) := (m, inr a).

(** The free space of a table, on a disk of ten GiB. *)
Definition free (t : Z) : Z := Z.max 0 (Z.min t (10 * GiB)).

#[export] Instance sim_devices : Devices machine := {|
  NewFromPath := λ _, ok;
  CloseDevice := λ _ m, m;
  RetryLockWithTimeout := λ _, ok;
  TryLock := λ _, ok;
  Unlock := λ _ m, m;
  ProbePath := λ path m,
    (m, inr {| probeName := default ""%string (m.(signature) !! path); probeSize := 10 * GiB;
               probeSectorSize := 512; SignatureRanges := [] |});
  FastWipe := λ path _ m, (sign path "" m, None);
  Table := Z;
  DeviceFromBlockDevice := λ _, ok;
  gpt_Read := λ _, ok_ (5 * GiB);
  gpt_New := λ _, ok_ (9 * GiB);
  gpt_Write := λ disk _ m, (sign disk "gpt" m, None);
  LargestContiguousAllocatable := free;
  AvailablePartitionGrowth := λ t _, inr (free t);
  GrowPartition := λ t _ size, inr (t - size);
  AllocatePartition := λ t size _ _,
    if size <=? t then inr (t - size, 1, "partition-uuid"%string) else inl (External "no space");
  DevName := λ disk idx, (disk +:+ pretty idx)%string;
  uuid_Parse := inr;
  mkfs := λ fs path _ m, (sign path (FilesystemType_String fs) m, None);
  MkdirTemp := ok_ "/tmp/talos-growfs-1"%string;
  RemoveDir := λ _ m, m;
  MountFs := λ _ _ _, ok;
  UnmountFs := λ _ m, m;
  XFSGrow := λ _, ok;
  Ext4Resize := λ _, ok;
  EvalSymlinks := λ path, ok_ path;
  ctx_Done := λ m, (m, false);
  luks_IsOpen := λ _ mapped m,
    (m, inr (existsb (String.eqb mapped) m.(opened), ("/dev/mapper/" +:+ mapped)%string));
  luks_Open := λ _ mapped _ m,
    (with_opened (mapped :: m.(opened)) m, inr ("/dev/mapper/" +:+ mapped)%string);
  luks_Close := λ mapped m,
    (with_opened (filter (λ n, n ≠ mapped) m.(opened)) m, None);
  luks_Encrypt := λ path key m, (with_slots [key.(Slot)] (sign path "luks" m), None);
  luks_SetToken := λ _ _ _, ok;
  luks_ReadToken := λ _ _ m, (m, inl (Sentinel ErrTokenNotFound));
  luks_AddKey := λ _ _ key m, (with_slots (m.(keyslots) ++ [key.(Slot)]) m, None);
  luks_RemoveKey := λ _ slot _ m,
    (with_slots (filter (λ n, n ≠ slot) m.(keyslots)) m, None);
  luks_CheckKey := λ _ _, ok_ true;
  luks_ReadKeyslots := λ _ m,
    (m, match m.(keyslots) with
        | [] => inl (External "no key slots")
        | l => inr (Itoa <$> filter (λ n, ParseInt (Itoa n) = Some n) l)
        end)
|}.

#[export] Instance sim_services : KeyServices machine := {|
  rand_Read := λ _, ok_ "0123456789abcdef0123456789abcdef"%string;
  kms_Dial := λ _, ok;
  kms_Seal := λ _ _ data, ok_ ("sealed:" +:+ data)%string;
  kms_Unseal := λ _ _ data, ok_ data;
  kms_Close := λ _ m, m;
  GetSecureBoot := λ m, (m, true);
  GetSetupMode := λ m, (m, false);
  tpm2_Seal := λ _ _ m, (m, inl (External "no TPM"));
  tpm2_Unseal := λ _ m, (m, inl (External "no TPM"));
  AddFinalizer_PCR := λ _ _, ok;
  RemoveFinalizer_PCR := λ _ _, ok;
  IsNotFoundError := λ _, false;
  marshal_KMS := SealedData;
  unmarshal_KMS := λ s, inr {| SealedData := s |};
  marshal_TPM := λ _, ""%string;
  unmarshal_TPM := λ _, inl (External "no TPM")
|}.

#[export] Instance sim_luks : Luks := {| ParseCipherKind := λ _, None; ValidatePerfOption := λ _, None |}.

(** Expressions are [true] and [false]. *)
#[export] Instance sim_cel : CelGo := {|
  Ast := bool;
  Program := bool;
  env_Parse := λ _ s,
    if String.eqb s "true" then inr true else if String.eqb s "false" then inr false
    else inl (External "syntax error");
  env_Check := λ _, inr;
  OutputType := λ _, BoolType;
  type_String := λ _, "bool"%string;
  env_Program := λ _, inr;
  prog_Eval := λ b _, inr (BoolVal b);
  AstToString := λ b, inr (if b : bool then "true" else "false")%string
|}.

#[export] Instance sim_humanize : Humanize := λ n, (pretty n +:+ " B")%string.

Lemma sim_keyslot_names path : keyslot_names path.
Proof.
  intros m. simpl. unfold canonical. destruct (keyslots m) as [|k l]; [done|].
  rewrite Forall_fmap, Forall_forall.
  intros n [Hn _]%list_elem_of_filter. simpl. eauto.
Qed.

(** An encrypted volume with the slots 0 and 1, configured with static keys in 0 and 2. *)
Definition static_key (slot : Z) : EncryptionKey :=
  {| keySlot := slot; keyType := EncryptionKeyStatic; LockToSTATE := false;
     StaticPassphrase := Some "secret"%string; KMSEndpoint := "";
     TPMCheckSecurebootStatusOnEnroll := false; TPMPCRs := []; TPMPubKeyPCRs := [] |}.
Definition sim_encryption : EncryptionSpec :=
  {| Provider := EncryptionProviderLUKS2; Block.Keys := [static_key 2; static_key 0];
     Cipher := ""; KeySize := 0; BlockSize := 0; PerfOptions := None |}.
Definition sim_opts : KeyOptions (W:=machine) :=
  {| VolumeID := "STATE"; GetSystemInformation := None; TPMLocker := None; SaltGetter := None |}.
Definition sim_handler : EncHandler (W:=machine) :=
  [StaticKeyHandler 0 "secret"; StaticKeyHandler 2 "secret"].
Definition sim_start : env machine :=
  mkenv {| signature := {[ "/dev/sda5"%string := "luks"%string ]}; keyslots := [0; 1]; opened := [] |} [].

Lemma key_slots_follow_configuration_witness :
  let s' := mkenv {| signature := {[ "/dev/sda5"%string := "luks"%string ]}; keyslots := [0; 2];
                     opened := ["luks2-STATE"%string] |}
              [EvOpen "/dev/sda5" "luks2-STATE"; EvReadKeyslots "/dev/sda5" ["0"; "1"]%string;
               EvAddKey "/dev/sda5" 2 true; EvRemoveKey "/dev/sda5" 1 true] in
  Open sim_handler "/dev/sda5" "luks2-STATE" sim_start =
    Ok (s', inr ("/dev/mapper/luks2-STATE"%string, 0, [])) ∧
  ∃ t, s'.(trace) = t ∧ configured sim_encryption ∖ {[0]} ⊆ replay "/dev/sda5" t ∅.
Proof.
  intros s'.
  assert (Open sim_handler "/dev/sda5" "luks2-STATE" sim_start =
    Ok (s', inr ("/dev/mapper/luks2-STATE"%string, 0, []))) as Hopen by (vm_compute; reflexivity).
  assert (New sim_encryption sim_opts = inr sim_handler) as Hnew by reflexivity.
  split; [exact Hopen|].
  destruct (key_slots_follow_configuration sim_encryption sim_opts sim_handler "/dev/sda5" "luks2-STATE"
    sim_start s' Hnew ltac:(repeat split; intros ? [=]) (sim_keyslot_names _)) as [_ H].
  destruct (H _ _ _ Hopen) as (t & Ht & _ & _ & _ & Hr). exists t. split; [exact Ht|].
  apply (Hr eq_refl ∅).
Defined.

(** ** The theorems *)

#[export] Instance sim_runtime : Runtime machine := {|
  rt_AddFinalizer := λ _ _, ok;
  rt_RemoveFinalizer := λ _ _, ok;
  rt_Teardown := λ _, ok;
  rt_Destroy := λ _, ok;
  rt_WriteStatus := λ _, ok;
  rt_NextRefreshRequest := ok_ 1
|}.

(** ** A configuration *)

Definition expr (b : bool) : Cel.Expression := {| Cel.ast := Some b; Cel.expression := None |}.
Definition no_expr : Cel.Expression := {| Cel.ast := None; Cel.expression := None |}.

Definition sim_mount : MountSpec :=
  {| TargetPath := "/system/state"; SelinuxLabel := ""; ProjectQuotaSupport := false; mountParentID := "";
     FileMode := 448; UID := 0; GID := 0; RecursiveRelabel := false; BindTarget := None; Parameters := [] |}.
Definition sim_partition : PartitionSpec :=
  {| MinSize := GiB; MaxSize := 2 * GiB; RelativeMaxSize := 0; NegativeMaxSize := false;
     grow := true; Label := "STATE"; TypeUUID := "linux" |}.

(** An encrypted partition, which is not there yet and goes to any disk. *)
Definition sim_config : VolumeConfigSpec :=
  {| ParentID := ""; Type_ := VolumeTypePartition;
     Provisioning := {| Wave := 0; diskSelector := {| Match_ := expr true; External_ := "" |};
       partitionSpec := sim_partition;
       filesystemSpec := {| fsType := FilesystemTypeXFS; fsLabel := "STATE" |} |};
     Encryption := sim_encryption;
     Locator := {| locatorMatch := expr false; DiskMatch := no_expr |};
     Mount := sim_mount; Symlink := {| SymlinkTargetPath := ""; Force := false |} |}.

Definition sim_disk : DiskSpec :=
  {| DevPath := "/dev/sda"; diskSize := 10 * GiB; diskPrettySize := "10 GiB"; IOSize := 512;
     diskSectorSize := 512; Readonly := false; CDROM := false; Model := ""; Serial := ""; Modalias := "";
     WWID := ""; diskUUID := ""; BusPath := ""; SubSystem := ""; Transport := ""; Rotational := false;
     SecondaryDisks := []; Symlinks := [] |}.

Definition sim_context (close : bool) : ManagerContext (W:=machine) :=
  {| CfgID := "STATE"; Cfg := sim_config; ParentStatus := None; ParentFinalizer := "";
     DiscoveredVolumes := []; Disks := [{| Disk := sim_disk; SystemDisk := Some true |}];
     DevicesReady := true; PreviousWaveProvisioned := true; EncryptionHelpers := sim_opts;
     ShouldCloseVolume := close |}.

Definition blank : env machine := mkenv {| signature := ∅; keyslots := []; opened := [] |} [].
Definition sim_volume : volume (W:=machine) :=
  {| io_env := blank; Status := zeroStatus <| Phase := VolumePhaseWaiting |> |}.

Definition result_of (r : outcome Empty_set (volume (W:=machine) * (error + ()))) : volume (W:=machine) :=
  match r with Ok (v, _) => v | _ => sim_volume end.

(** The partition is made, encrypted and formatted. *)
Definition sim_ready : volume (W:=machine) :=
  Eval vm_compute in result_of (processVolumeConfig (sim_context false) sim_volume).

Example sim_ready_trace : trace (io_env sim_ready) =
  [EvProbe "/dev/sda" ""; EvLock "/dev/sda"; EvNewTable "/dev/sda"; EvAllocate "/dev/sda" 1;
   EvWriteTable "/dev/sda"; EvWipe "/dev/sda1"; EvUnlock "/dev/sda";
   EvLock "/dev/sda"; EvProbe "/dev/sda1" ""; EvEncrypt "/dev/sda1" 0 true; EvAddKey "/dev/sda1" 2 true;
   EvOpen "/dev/sda1" "luks2-STATE"; EvReadKeyslots "/dev/sda1" ["0"; "2"]; EvUnlock "/dev/sda";
   EvLock "/dev/sda"; EvProbe "/dev/mapper/luks2-STATE" "";
   EvMkfs FilesystemTypeXFS "/dev/mapper/luks2-STATE"; EvUnlock "/dev/sda"]%string.
Proof. reflexivity. Qed.

Lemma sim_safe close : safe_context (sim_context close).
Proof. repeat split; intros ? [=]. Qed.

Lemma volume_automaton_witness :
  processVolumeConfig (sim_context false) sim_volume = Ok (sim_ready, inr ()) ∧
  rtc (vstep (sim_context false)) (Status sim_volume) (Status sim_ready) ∧
  settled (sim_context false) (Status sim_ready).
Proof.
  assert (processVolumeConfig (sim_context false) sim_volume = Ok (sim_ready, inr ())) as Hr
    by (vm_compute; reflexivity).
  split; [exact Hr|]. destruct (volume_automaton (sim_context false) sim_volume) as [_ Ha].
  destruct (Ha _ _ Hr) as (st' & Hst & Heq & [Hs|(e & _ & Hw)]); [|discriminate Hw].
  rewrite Heq. split; [exact Hst|exact Hs].
Defined.

Lemma volumes_destroy_no_data_witness :
  accepted (trace (io_env sim_volume)) ∧ accepted (trace (io_env sim_ready)) ∧
  (∀ t1 t2, trace (io_env sim_ready) = t1 ++ EvMkfs FilesystemTypeXFS "/dev/mapper/luks2-STATE" :: t2 →
     probed_under_lock t1 "/dev/mapper/luks2-STATE" "" ∨ probed_under_lock t1 "/dev/mapper/luks2-STATE" "swap").
Proof.
  assert (processVolumeConfig (sim_context false) sim_volume = Ok (sim_ready, inr ())) as Hr
    by (vm_compute; reflexivity).
  assert (accepted (trace (io_env sim_volume))) as Ha by (exists unlocked; split; reflexivity).
  split; [exact Ha|].
  destruct (volumes_destroy_no_data (sim_context false) sim_volume sim_ready (inr ()) (sim_safe _) Ha Hr)
    as (H1 & H2 & _).
  split; [exact H1|]. intros t1 t2 Ht. exact (H2 _ _ _ _ Ht).
Defined.

Lemma volume_status_well_formed_witness :
  well_formed (sim_context false) (Status sim_volume) ∧
  ready_form (sim_context false) (Status sim_ready).
Proof.
  assert (processVolumeConfig (sim_context false) sim_volume = Ok (sim_ready, inr ())) as Hr
    by (vm_compute; reflexivity).
  assert (well_formed (sim_context false) (Status sim_volume)) as Hw by (split; [intros _; exact I|discriminate]).
  split; [exact Hw|].
  destruct (volume_status_well_formed (sim_context false) sim_volume sim_ready (inr ()) (sim_safe _)
    sim_keyslot_names Hw Hr) as [Hf _].
  exact (Hf eq_refl).
Defined.

(** ** Sizes *)

Definition created : CreatePartitionResult :=
  {| PartitionIdx := 1; PartGUID := "partition-uuid"; PartitionSize := 2 * GiB |}.
(** The partition of one GiB is found on the disk again: it grows to two. *)
Definition small_volume : volume (W:=machine) :=
  {| io_env := blank; Status := zeroStatus <| Phase := VolumePhaseLocated |> <| Size := GiB |>
       <| ParentLocation := "/dev/sda"%string |> <| PartitionIndex := 1 |> |}.
Definition grown_volume : volume (W:=machine) := Eval vm_compute in result_of (Grow (sim_context false) small_volume).
Definition after_creation : env machine :=
  Eval vm_compute in
  match CreatePartition "/dev/sda" sim_config false blank with Ok (e, _) => e | _ => blank end.

Lemma partition_sizes_witness :
  CreatePartition "/dev/sda" sim_config false blank = Ok (after_creation, inr created) ∧
  Grow (sim_context false) small_volume = Ok (grown_volume, inr ()) ∧
  (∃ pt maxSize, ResolveMaxSize sim_partition (LargestContiguousAllocatable pt) = inr maxSize ∧
     0 ≤ 2 * GiB ≤ LargestContiguousAllocatable pt) ∧
  Size (Status small_volume) ≤ Size (Status grown_volume).
Proof.
  assert (CreatePartition "/dev/sda" sim_config false blank = Ok (after_creation, inr created)) as Hc
    by (vm_compute; reflexivity).
  assert (Grow (sim_context false) small_volume = Ok (grown_volume, inr ())) as Hg by (vm_compute; reflexivity).
  assert (spec_in_range sim_partition) as Hr by (repeat split; vm_compute; congruence).
  assert (disk_sizes (W:=machine)) as Hd.
  { split; [intros t|intros t idx g [= <-]]; change (0 ≤ free t < 2 ^ 63); unfold free, GiB; lia. }
  destruct (partition_sizes (sim_context false) Hr Hd) as [H1 H2].
  split; [exact Hc|]. split; [exact Hg|]. split.
  - destruct (H1 _ _ _ _ _ Hc) as (pt & maxSize & _ & _ & Hmax & _ & Hsize & _). exists pt, maxSize.
    split; [exact Hmax|exact Hsize].
  - assert (0 ≤ Size (Status small_volume) < 2 ^ 63) as Hv by (vm_compute; split; congruence).
    destruct (H2 _ _ _ Hv Hg) as [Hle _]. exact Hle.
Defined.

(** ** The order of volumes *)

Definition config (id : string) (wave : Z) (phase : resource_phase) : VolumeConfig :=
  {| configID := id; configPhase := phase; configFinalizers := [ControllerName]; configLabels := ∅;
     configSpec := {| ParentID := ""; Type_ := VolumeTypePartition;
       Provisioning := {| Wave := wave; diskSelector := {| Match_ := expr true; External_ := "" |};
         partitionSpec := sim_partition;
         filesystemSpec := {| fsType := FilesystemTypeXFS; fsLabel := "STATE" |} |};
       Encryption := sim_encryption; Locator := {| locatorMatch := expr false; DiskMatch := no_expr |};
       Mount := sim_mount; Symlink := {| SymlinkTargetPath := ""; Force := false |} |} |}.
Definition sim_configs : list VolumeConfig :=
  [config "EPHEMERAL" 1 PhaseRunning; config "STATE" 0 PhaseRunning].
Definition sim_pass : pass (W:=machine) :=
  {| passDiscovered := []; passDisks := [{| Disk := sim_disk; SystemDisk := Some true |}];
     passDevicesReady := true; passTearingDown := false; passHelpers := λ _, sim_opts |}.
Definition sim_manager (e : env machine) (sts : gmap string VolumeStatus) : manager :=
  {| mgr_io := e; statuses := sts; allClosed := true; shouldRetry := false |}.

Lemma volumes_in_order_witness :
  SortStableFunc compare_configs sim_configs =
    [config "STATE" 0 PhaseRunning; config "EPHEMERAL" 1 PhaseRunning] ∧
  process_volumes sim_pass MaxInt (SortStableFunc compare_configs sim_configs) (sim_manager blank ∅) =
  process_in_order sim_pass true (SortStableFunc compare_configs sim_configs) (sim_manager blank ∅).
Proof.
  split; [reflexivity|].
  assert (Forall valid_wave sim_configs) as Hv by (repeat constructor; vm_compute; congruence).
  apply (volumes_in_order sim_pass sim_configs (sim_manager blank ∅) Hv).
Defined.

(** ** Tearing down *)

Definition ready_status : VolumeStatus :=
  {| statusID := "STATE"; statusPhase := PhaseRunning; statusFinalizers := []; statusLabels := ∅;
     statusSpec := Status sim_ready |}.
Definition going : list VolumeConfig := [config "STATE" 0 PhaseTearingDown].
Definition lifecycle : VolumeLifecycle :=
  {| lifecyclePhase := PhaseTearingDown; lifecycleFinalizers := [ControllerName] |}.
Definition before : manager (W:=machine) :=
  sim_manager (mkenv (world (io_env sim_ready)) []) {[ "STATE"%string := ready_status ]}.
Definition torn_down : manager (W:=machine) :=
  Eval vm_compute in
  match run_volumes sim_pass lifecycle going before with Ok (m, _) => m | _ => before end.

Lemma volumes_torn_down_witness :
  run_volumes sim_pass lifecycle going before = Ok (torn_down, inr false) ∧
  trace (mgr_io torn_down) =
    [EvRuntime (RtTeardown (StatusResource "STATE")); EvClose "luks2-STATE";
     EvRuntime (RtDestroy (StatusResource "STATE"));
     EvRuntime (RtRemoveFinalizer LifecycleResource ControllerName)]%string ∧
  accounted sim_pass (statuses before) going
    (lifecyclePhase lifecycle = PhaseTearingDown ∧ ∀ vc, vc ∈ going → down vc (statuses torn_down))
    (trace (mgr_io torn_down)).
Proof.
  assert (run_volumes sim_pass lifecycle going before = Ok (torn_down, inr false)) as Hr by (vm_compute; reflexivity).
  split; [exact Hr|]. split; [reflexivity|].
  assert (∀ id st, statuses before !! id = Some st → statusID st = id) as Hids.
  { intros id st H. change (({[ "STATE"%string := ready_status ]} : gmap string VolumeStatus) !! id = Some st) in H.
    apply lookup_singleton_Some in H as [<- <-]. reflexivity. }
  assert (NoDup (configID <$> going)) as Hnd by (apply NoDup_singleton).
  assert (∀ id : string, quiet_opts (passHelpers sim_pass id)) as Hq by (intros id; repeat split; intros ? [=]).
  destruct (volumes_torn_down sim_pass lifecycle going before torn_down (inr false) Hq Hids Hnd Hr) as (t & Ht & Hj).
  change (trace (mgr_io torn_down) = [] ++ t) in Ht. rewrite Ht. exact Hj.
Defined.

(** A volume whose key slots cannot be read: opening it maps its device and then fails, and
    the volume is failed from being provisioned. *)
Definition provisioned : VolumeStatusSpec :=
  zeroStatus <| Phase := VolumePhaseProvisioned |> <| Location := "/dev/sda5"%string |>
    <| ParentLocation := "/dev/sda"%string |>.
Definition unreadable : env machine :=
  mkenv {| signature := {[ "/dev/sda5"%string := "luks"%string ]}; keyslots := []; opened := [] |} [].
Definition failed : env machine * VolumeStatusSpec :=
  Eval vm_compute in
  match progress (sim_context false) provisioned (sim_manager unreadable ∅) with
  | Ok (m, inr st) => (mgr_io m, st)
  | _ => (unreadable, provisioned)
  end.
Definition failed_status : VolumeStatus :=
  {| statusID := "STATE"; statusPhase := PhaseRunning; statusFinalizers := []; statusLabels := ∅;
     statusSpec := failed.2 |}.
Definition left_behind : manager (W:=machine) :=
  Eval vm_compute in
  match run_volumes sim_pass lifecycle going
    (sim_manager (mkenv (world failed.1) []) {[ "STATE"%string := failed_status ]}) with
  | Ok (m, _) => m
  | _ => before
  end.

(** Torn down, the volume is released with its device still mapped. *)
Example left_open :
  (Phase failed.2, PreFailPhase failed.2) = (VolumePhaseFailed, VolumePhaseProvisioned) ∧
  trace (mgr_io left_behind) =
    [EvRuntime (RtTeardown (StatusResource "STATE"));
     EvRuntime (RtDestroy (StatusResource "STATE"));
     EvRuntime (RtRemoveFinalizer LifecycleResource ControllerName)] ∧
  opened (world (mgr_io left_behind)) = ["luks2-STATE"%string].
Proof. split_and!; reflexivity. Qed.
