(* ===== verification/MountResources.v ===== *)
(** * The resources of mounts

    [pkg/machinery/resources/block]: requests to mount a volume ([VolumeMountRequest], one
    per requester), requests to the kernel ([MountRequest], one per volume), and the
    statuses that answer them; and the calls of the controllers on them, as an interface. *)

From S2P Require Import Prelude Errors Block Devices Volumes.

(** A resource: its metadata and its spec. *)
Record Resource (A : Type) := {
  resID : string; resPhase : resource_phase; resFinalizers : list string; resSpec : A
}.
Arguments resID {A} _.
Arguments resPhase {A} _.
Arguments resFinalizers {A} _.
Arguments resSpec {A} _.

(** [xslices.ToMap] with the id as the key. *)
Definition ToMap {A} (id : A → string) (l : list A) : gmap string A :=
  foldl (λ m v, <[id v := v]> m) ∅ l.

Notation VolumeMountRequest := (Resource VolumeMountRequestSpec).
Notation MountRequest := (Resource MountRequestSpec).
Notation MountStatus := (Resource MountStatusSpec).
Notation VolumeMountStatus := (Resource VolumeMountStatusSpec).

(** The calls of the COSI runtime.  A read of a resource that does not exist gives [None];
    volume mount statuses are listed by their label [mount-status-id]. *)
Class Cosi (W : Type) := {
  cosi_AddFinalizer : mount_resource → string → W → W * option error;
  cosi_RemoveFinalizer : mount_resource → string → W → W * option error;
  cosi_Teardown : mount_resource → W → W * (error + bool);
  cosi_Destroy : mount_resource → W → W * option error;
  cosi_IsNotFound : error → bool;
  cosi_GetVolumeMountStatus : string → W → W * (error + option VolumeMountStatus);
  cosi_ListVolumeStatuses : W → W * (error + list VolumeStatus);
  cosi_ListVolumeMountRequests : W → W * (error + list VolumeMountRequest);
  cosi_ListMountRequests : W → W * (error + list MountRequest);
  cosi_ListMountStatuses : W → W * (error + list MountStatus);
  cosi_ListVolumeMountStatuses : string → W → W * (error + list VolumeMountStatus);
  (** [safe.WriterModify]: the function works on the spec of the resource, which is created
      with the zero spec if it does not exist *)
  cosi_ModifyVolumeMountRequest :
    string → (VolumeMountRequestSpec → VolumeMountRequestSpec) → W → W * option error;
  cosi_ModifyMountRequest : string → (MountRequestSpec → MountRequestSpec) → W → W * option error;
  cosi_ModifyMountStatus : string → (MountStatusSpec → MountStatusSpec) → W → W * option error;
  (** the second argument becomes the label *)
  cosi_ModifyVolumeMountStatus :
    string → string → (VolumeMountStatusSpec → VolumeMountStatusSpec) → W → W * option error
}.

Section calls.
Context {W : Type} `{HC : Cosi W}.
Notation io := (prog (env W) error).

(** Log [c] when the call succeeds. *)
Definition on_success (c : mount_event) (err : option error) : list event :=
  match err with None => [EvMount c] | Some _ => [] end.

Definition MAdd (r : mount_resource) (fin : string) : io () :=
  call (cosi_AddFinalizer r fin) (on_success (MAddFinalizer r fin)).
Definition MRemove (r : mount_resource) (fin : string) : io () :=
  call (cosi_RemoveFinalizer r fin) (λ _, [EvMount (MRemoveFinalizer r fin)]).
Definition MTear (r : mount_resource) : io bool :=
  query (cosi_Teardown r) (λ ok, [EvMount (MTeardown r ok)]).
Definition MKill (r : mount_resource) : io () :=
  call (cosi_Destroy r) (on_success (MDestroy r)).

Definition MListStatuses (label : string) : io (list VolumeMountStatus) :=
  query (cosi_ListVolumeMountStatuses label) (λ l, [EvMount (MList label (resID <$> l))]).

End calls.

(** ** Logs whose calls are justified by what came before

    [P before ev]: the call [ev] may come after [before]. *)

Section justified.
Context {W : Type} (P : list event → event → Prop).
Notation io := (prog (env W) error).

Definition justified (t : list event) : Prop := ∀ t1 ev t2, t = t1 ++ ev :: t2 → P t1 ev.

Lemma justified_nil : justified [].
Proof. by intros [|??] ???. Qed.
Lemma justified_snoc t ev : justified t → P t ev → justified (t ++ [ev]).
Proof.
  intros Ht Hev t1 ev' t2 Heq. destruct t2 as [|ev2 t2 _] using rev_ind.
  - by apply app_inj_tail in Heq as [-> ->].
  - rewrite app_comm_cons, app_assoc in Heq. apply app_inj_tail in Heq as [-> _]. by eapply Ht.
Qed.

Lemma justified_app t t' : justified t → (∀ t1 ev t2, t' = t1 ++ ev :: t2 → P (t ++ t1) ev) → justified (t ++ t').
Proof.
  intros Ht Ht' t1 ev t2 [(l & -> & Heq)|(l & -> & ->)]%app_eq_inv.
  - destruct l as [|ev' l]; simpl in *; simplify_eq.
    + specialize (Ht' [] ev t2 eq_refl). by rewrite !app_nil_r in Ht'.
    + by eapply Ht.
  - by eapply Ht'.
Qed.
(** [t'] is justified, by [P'], after [t]. *)
Lemma justified_after (P' : list event → event → Prop) t t' :
  justified t → (∀ t1 ev t2, t' = t1 ++ ev :: t2 → P' t1 ev) → (∀ t1 ev, P' t1 ev → P (t ++ t1) ev) →
  justified (t ++ t').
Proof. intros Ht Ht' HP'. apply justified_app; [done|]. intros t1 ev t2 Heq. by eapply HP', Ht'. Qed.

Context (mono : ∀ t0 t ev, P t ev → P (t0 ++ t) ev).

Lemma justified_join t t' : justified t → justified t' → justified (t ++ t').
Proof. intros Ht Ht'. apply justified_app; [done|]. intros t1 ev t2 Heq. by eapply mono, Ht'. Qed.

Lemma justified_Forall (Q : event → Prop) t : (∀ t1 ev, P t1 ev → Q ev) → justified t → Forall Q t.
Proof.
  intros HQ Ht. apply Forall_forall. intros ev (t1 & t2 & ->)%list_elem_of_split. by eapply HQ, Ht.
Qed.

(** A loop whose turns are justified is justified. *)
Lemma justified_for_each {A} (f : A → io ()) l e (D : A → list event → Prop) :
  (∀ x t t', D x t → D x (t' ++ t)) → (∀ x t t', D x t → D x (t ++ t')) →
  (∀ x e, x ∈ l → ensures (f x) e (λ e' r, ∃ t,
     e'.(trace) = e.(trace) ++ t ∧ justified t ∧ (r = inr () → D x t))) →
  ensures (for_each f l) e (λ e' r, ∃ t,
    e'.(trace) = e.(trace) ++ t ∧ justified t ∧ (r = inr () → ∀ x, x ∈ l → D x t)).
Proof.
  intros HDl HDr. revert e. induction l as [|x l IH]; intros e Hf; cbn [for_each].
  { apply ensures_ret. exists []. rewrite app_nil_r. split_and!; [done|apply justified_nil|].
    by intros _ y ?%elem_of_nil. }
  apply ensures_bind. eapply ensures_mono; [|apply Hf; left].
  intros e1 [err|[]] (t1 & He1 & Ht1 & HD); [by exists t1; split_and!|].
  eapply ensures_mono; [|apply IH; intros y e0 Hy; apply Hf; by right].
  intros e2 r (t2 & He2 & Ht2 & HD2). exists (t1 ++ t2). rewrite He2, He1, app_assoc. split_and!; [done| |].
  - by apply justified_join.
  - intros Hr y [->|Hy]%elem_of_cons; [by apply HDr, HD|]. apply HDl. by apply HD2.
Qed.
End justified.
