(* ===== verification/VolumeMounter.v ===== *)
(** * The automaton of a volume mounter

    [internal/app/machined/pkg/automaton/machine.go]: an automaton that a controller runs
    in its reconcile loop, one state after the other until a state fails, asks to continue
    later, or none is left.  [automaton/blockautomaton/volume_mount.go]: the automaton that
    mounts a volume, calls back while it is mounted, and unmounts it.

    A state of an automaton is a function in the code; here it is a value, and [step] runs
    it. *)

From S2P Require Import Prelude Errors Block Devices Volumes MountResources.

(** ** Automata *)

Section automaton.
Context {W State : Type} (step : State → prog (env W) error (option State)).

Record ControllerAutomaton := { auto_env : env W; state : option State }.
Notation auto := (prog ControllerAutomaton error).

Definition in_env {A} (c : prog (env W) error A) : auto A :=
  zoom auto_env (λ e a, {| auto_env := e; state := a.(state) |}) c.

(** [out] stands for what happens after [fuel] states. *)
Fixpoint Run (out : auto ()) (fuel : nat) (AfterFunc : option (prog (env W) error ())) : auto () :=
  match fuel with
  | O => out
  | S fuel =>
      a ← get;
      match a.(state) with
      | None => match AfterFunc with Some f => in_env f | None => mret () end
      | Some st =>
          r ← try (in_env (step st));
          match r with
          | inl err => if TagIs_Continue err then mret () else throw err
          | inr nextState =>
              _ ← modify (λ a, {| auto_env := a.(auto_env); state := nextState |});
              Run out fuel AfterFunc
          end
      end
  end.
End automaton.

(** ** The mounter *)

Section mounter.
Context {W : Type} `{HC : Cosi W}.
Notation io := (prog (env W) error).

Record VolumeMounterOptions := { optReadOnly : bool; optDetached : bool }.
Inductive VolumeMounterOption := WithReadOnly (readOnly : bool) | WithDetached (detached : bool).
Definition apply_option (o : VolumeMounterOptions) (opt : VolumeMounterOption) : VolumeMounterOptions :=
  match opt with
  | WithReadOnly b => {| optReadOnly := b; optDetached := o.(optDetached) |}
  | WithDetached b => {| optReadOnly := o.(optReadOnly); optDetached := b |}
  end.

Record volumeMountContext := {
  mountID : string; volumeID : string; requester : string;
  callback : VolumeMountStatus → W → W * option error;
  options : VolumeMounterOptions
}.

Inductive mounter_state :=
  | createVolumeMountRequest
  | waitForMountStatus
  | callbackWithMountStatus (mountStatus : VolumeMountStatus)
  | removeMountStatusFinalizer
  | removeMountRequest
  | waitForVolumeMountStatusRemoved.

Definition NewVolumeMounter (requester volumeID : string) (callback : VolumeMountStatus → W → W * option error)
    (opts : list VolumeMounterOption) : mounter_state * volumeMountContext :=
  (createVolumeMountRequest,
   {| mountID := (requester +:+ "-" +:+ volumeID)%string; volumeID := volumeID; requester := requester;
      callback := callback;
      options := foldl apply_option {| optReadOnly := false; optDetached := false |} opts |}).

Definition mounter_step (c : volumeMountContext) (st : mounter_state) : io (option mounter_state) :=
  match st with
  | createVolumeMountRequest =>
      _ ← wrapf "error creating volume mount request: %w"
        (call (cosi_ModifyVolumeMountRequest c.(mountID) (λ req,
           {| vmrVolumeID := c.(volumeID); vmrRequester := c.(requester);
              vmrReadOnly := c.(options).(optReadOnly); vmrDetached := c.(options).(optDetached);
              vmrDisableAccessTime := req.(vmrDisableAccessTime); vmrSecure := req.(vmrSecure) |}))
           (on_success (MWrite (VolumeMountRequestOf c.(mountID)))));
      mret (Some waitForMountStatus)
  | waitForMountStatus =>
      r ← wrapf "error reading volume mount status: %w" (query (cosi_GetVolumeMountStatus c.(mountID)) silent);
      match r with
      | None => throw (Continue "waiting for mount status to be established" [])
      | Some mountStatus =>
          if mountStatus.(resSpec).(vmsReadOnly) && negb c.(options).(optReadOnly) then
            throw (Continue "volume is mounted read-only, but read-write was requested" [])
          else
          _ ← (if bool_decide (c.(requester) ∈ mountStatus.(resFinalizers)) then mret ()
               else wrapf "error adding finalizer: %w"
                      (MAdd (VolumeMountStatusOf mountStatus.(resID)) c.(requester)));
          mret (Some (callbackWithMountStatus mountStatus))
      end
  | callbackWithMountStatus mountStatus =>
      _ ← call (c.(callback) mountStatus)
            (λ err, [EvMount (MCallback mountStatus.(resID) (succeeded err))]);
      mret (Some removeMountStatusFinalizer)
  | removeMountStatusFinalizer =>
      _ ← wrapf "error removing finalizer: %w" (MRemove (VolumeMountStatusOf c.(mountID)) c.(requester));
      mret (Some removeMountRequest)
  | removeMountRequest =>
      okToDestroy ← wrapf "error tearing down mount request: %w" (MTear (VolumeMountRequestOf c.(mountID)));
      if negb okToDestroy then throw (Continue "mount request is not ready to be destroyed" [])
      else
      _ ← wrapf "error destroying mount request: %w" (MKill (VolumeMountRequestOf c.(mountID)));
      mret (Some waitForVolumeMountStatusRemoved)
  | waitForVolumeMountStatusRemoved =>
      r ← wrapf "error reading volume mount status: %w" (query (cosi_GetVolumeMountStatus c.(mountID)) silent);
      match r with
      | None => mret None
      | Some _ => throw (Continue "waiting for mount status to be removed" [])
      end
  end.

(** Six states, and the turn that finds none left. *)
Definition mounter_fuel : nat := 7.
Definition RunMounter (c : volumeMountContext) (AfterFunc : option (io ())) :
    prog (ControllerAutomaton (State:=mounter_state)) error () :=
  Run (mounter_step c) (lift (Panic LoopFuel)) mounter_fuel AfterFunc.
End mounter.

(** ** A run always returns

    A state that leads to a state of a lower rank cannot loop. *)

Section automaton_properties.
Context {W State : Type} (step : State → prog (env W) error (option State)).
Context (AfterFunc : option (prog (env W) error ())).

(** What the steps keep, a run keeps. *)
Context (rank : State → nat) (Inv : option State → env W → Prop).
Definition below (st : State) (st' : option State) : Prop :=
  match st' with Some st' => (rank st' < rank st)%nat | None => True end.

Lemma Run_invariant out fuel a :
  (∀ st e, Inv (Some st) e →
     returns (step st) e (λ e' r,
       match r with
       | inr st' => Inv st' e' ∧ below st st'
       | inl _ => Inv (Some st) e'
       end)) →
  (∀ f e, AfterFunc = Some f → Inv None e → returns f e (λ e' _, Inv None e')) →
  (match a.(state) with Some st => S (rank st) | None => 0 end < fuel)%nat →
  Inv a.(state) a.(auto_env) →
  returns (Run step out fuel AfterFunc) a (λ a' _, Inv a'.(state) a'.(auto_env)).
Proof.
  intros Hstep Hafter. revert a. induction fuel as [|fuel IH]; intros [e st] Hfuel HI; simpl in *;
    [destruct st; lia|].
  io_steps. destruct st as [st|]; simpl.
  - apply returns_bind, returns_try, returns_zoom. eapply returns_mono; [|by apply Hstep].
    intros e' [err|st'] H'; simpl in *; [by case_match; io_steps|].
    destruct H' as [HI' Hlt]. io_steps. apply IH; [|done]. simpl. destruct st'; simpl in *; lia.
  - destruct AfterFunc as [f|] eqn:Ef; [|by io_steps].
    apply returns_zoom. eapply returns_mono; [|by apply Hafter]. done.
Qed.
End automaton_properties.

(** ** The protocol of the mounter *)

Section protocol.
Context {W : Type} `{HC : Cosi W} (c : volumeMountContext (W:=W)) (AfterFunc : option (prog (env W) error ())).
Notation request := (VolumeMountRequestOf c.(mountID)).
Notation mstatus := (VolumeMountStatusOf c.(mountID)).

(** What may have happened before the callback is called with [ms]: its finalizer was
    added, or was there. *)
Definition granted (ms : VolumeMountStatus) (adds : list event) : Prop :=
  (ms.(resSpec).(vmsReadOnly) = true → c.(options).(optReadOnly) = true) ∧
  (adds = [] ∧ c.(requester) ∈ ms.(resFinalizers) ∨
   adds = [EvMount (MAddFinalizer (VolumeMountStatusOf ms.(resID)) c.(requester))]).

Definition prepared (ms : VolumeMountStatus) (t : list event) : Prop :=
  ∃ adds n, granted ms adds ∧
    t = EvMount (MWrite request) :: adds ++ replicate n (EvMount (MCallback ms.(resID) false)).
Definition called (n : nat) (t : list event) : Prop :=
  ∃ ms t0, prepared ms t0 ∧
    t = t0 ++ EvMount (MCallback ms.(resID) true) :: replicate n (EvMount (MRemoveFinalizer mstatus c.(requester))).
Definition tearing (t : list event) : Prop :=
  ∃ n t0 oks, called (S n) t0 ∧ t = t0 ++ map (λ ok, EvMount (MTeardown request ok)) oks.
Definition destroyed (t : list event) : Prop :=
  ∃ t0, tearing t0 ∧ t = t0 ++ [EvMount (MTeardown request true); EvMount (MDestroy request)].

(** The log of an automaton in a state. *)
Definition mounter_log (st : option mounter_state) (t : list event) : Prop :=
  match st with
  | Some createVolumeMountRequest => t = []
  | Some waitForMountStatus => t = [EvMount (MWrite request)]
  | Some (callbackWithMountStatus ms) => prepared ms t
  | Some removeMountStatusFinalizer => ∃ n, called n t
  | Some removeMountRequest => tearing t
  | Some waitForVolumeMountStatusRemoved | None => destroyed t
  end.

Definition mounter_rank (st : mounter_state) : nat :=
  match st with
  | createVolumeMountRequest => 5 | waitForMountStatus => 4 | callbackWithMountStatus _ => 3
  | removeMountStatusFinalizer => 2 | removeMountRequest => 1 | waitForVolumeMountStatusRemoved => 0
  end.

(** The steps follow the protocol. *)
Lemma replicate_snoc {A} n (x : A) : replicate n x ++ [x] = replicate (S n) x.
Proof. by rewrite <- replicate_S_end. Qed.

Lemma prepared_again ms t :
  prepared ms t → prepared ms (t ++ [EvMount (MCallback ms.(resID) false)]).
Proof.
  intros (adds & n & HA & ->). exists adds, (S n). split; [done|].
  by rewrite <- replicate_snoc; simpl; rewrite <- !app_assoc.
Qed.
Lemma called_next n t : called n t → called (S n) (t ++ [EvMount (MRemoveFinalizer mstatus c.(requester))]).
Proof.
  intros (ms & t0 & HP & ->). exists ms, t0. split; [done|].
  by rewrite <- replicate_snoc, <- app_assoc.
Qed.
Lemma tearing_next t ok : tearing t → tearing (t ++ [EvMount (MTeardown request ok)]).
Proof.
  intros (n & t0 & oks & HC' & ->). exists n, t0, (oks ++ [ok]). split; [done|].
  by rewrite map_app, app_assoc.
Qed.

Lemma mounter_step_follows st e :
  mounter_log (Some st) e.(trace) →
  returns (mounter_step c st) e (λ e' r,
    match r with
    | inr st' => mounter_log st' e'.(trace) ∧ below mounter_rank st st'
    | inl _ => mounter_log (Some st) e'.(trace)
    end).
Proof.
  destruct st as [| |ms| | |]; cbn [mounter_log mounter_step]; intros HI; io_steps.
  - apply returns_call. intros w [err|] _; simpl; rewrite HI; [done|]. io_steps. simpl. auto with lia.
  - apply returns_query. intros w [err|[ms|]] _; simpl; rewrite ?app_nil_r; [done| |by io_steps].
    destruct (_ && _) eqn:Ero; [by io_steps|]. apply andb_false_iff in Ero.
    assert (Hro : vmsReadOnly (resSpec ms) = true → optReadOnly (options c) = true).
    { intros H. rewrite H in Ero. destruct Ero as [?|?%negb_false_iff]; done. }
    io_steps. case_bool_decide as Hfin; io_steps.
    + split; [|simpl; lia]. exists [], 0%nat. simpl. rewrite HI. split; [by split; auto|done].
    + apply returns_call. intros w' [err|] _; simpl; rewrite ?app_nil_r; [done|]. io_steps.
      split; [|simpl; lia]. eexists [_], 0%nat. simpl. rewrite HI. split; [by split; auto|done].
  - apply returns_call. intros w [err|] _; simpl; [by apply prepared_again|]. io_steps.
    split; [|simpl; lia]. exists 0%nat, ms, (trace e). done.
  - apply returns_call. destruct HI as [n HI]. intros w [err|] _; simpl; [by eauto using called_next|]. io_steps.
    split; [|simpl; lia]. exists n, (trace e ++ [EvMount (MRemoveFinalizer mstatus c.(requester))]), [].
    split; [by apply called_next|by rewrite app_nil_r].
  - apply returns_query. intros w [err|ok] _; simpl; [by rewrite app_nil_r|].
    destruct ok; simpl; [|by io_steps; apply tearing_next]. io_steps. apply returns_call.
    intros w' [err|] _; simpl; [by rewrite app_nil_r; apply tearing_next|]. io_steps.
    split; [|simpl; lia]. exists (trace e). split; [done|]. simpl. by rewrite <- app_assoc.
  - apply returns_query. intros w [err|[ms|]] _; simpl; rewrite ?app_nil_r; by io_steps.
Qed.

(** A run keeps the protocol, from whatever world it starts in. *)
Lemma RunMounter_follows a :
  (∀ f e, AfterFunc = Some f → returns f e (λ e' _, e'.(trace) = e.(trace))) →
  mounter_log a.(state) a.(auto_env).(trace) →
  returns (RunMounter c AfterFunc) a (λ a' _, mounter_log a'.(state) a'.(auto_env).(trace)).
Proof.
  intros Hafter HI. apply (Run_invariant _ _ mounter_rank (λ st e, mounter_log st e.(trace))); [| | |done].
  - intros st e. apply mounter_step_follows.
  - intros f e Hf He. eapply returns_mono; [|by apply Hafter]. simpl. by intros e' _ ->.
  - destruct (state a) as [[]|]; simpl; unfold mounter_fuel; lia.
Qed.
End protocol.

(** ** Any number of runs *)

(** A new mounter after any number of runs; between them the world changes. *)
Inductive mounter_reachable {W} `{HC : Cosi W} (m : mounter_state * volumeMountContext (W:=W))
    (AfterFunc : option (prog (env W) error ())) : ControllerAutomaton (W:=W) (State:=mounter_state) → Prop :=
  | reachable_new w :
      mounter_reachable m AfterFunc {| auto_env := mkenv w []; state := Some m.1 |}
  | reachable_run a w a' r :
      mounter_reachable m AfterFunc a →
      RunMounter m.2 AfterFunc {| auto_env := mkenv w a.(auto_env).(trace); state := a.(state) |} = Ok (a', r) →
      mounter_reachable m AfterFunc a'.

(** C39: A volume mounter follows its protocol through any number of runs, whatever changes
    between them: the request is written once; the callback is called only with a status
    that holds the mounter's finalizer and is not read-only unless that was asked for, and
    is called again only after a failure; the finalizer is removed only after a successful
    callback, the request destroyed only after a teardown that reports it ready, and the
    mounter ends only after that.  Every run returns. *)
Theorem volume_mounter_protocol {W} `{HC : Cosi W} requester volumeID callback opts AfterFunc a :
  let m := NewVolumeMounter (W:=W) requester volumeID callback opts in
  (∀ f e, AfterFunc = Some f → returns f e (λ e' _, e'.(trace) = e.(trace))) →
  mounter_reachable m AfterFunc a →
  mounter_log m.2 a.(state) a.(auto_env).(trace) ∧
  ∃ a' r, RunMounter m.2 AfterFunc a = Ok (a', r).
Proof.
  intros m Hafter Hreach. set (c := m.2).
  assert (HI : mounter_log c a.(state) a.(auto_env).(trace)).
  { induction Hreach as [w|a w a' r Hreach IH Hr]; [done|].
    by refine (returns_det _ _ _ _ _ (RunMounter_follows c _ _ Hafter _) Hr). }
  split; [done|]. destruct (RunMounter_follows c _ a Hafter HI) as (a' & r & Hr & _). eauto.
Qed.
