(* ===== verification/MountRequests.v ===== *)
(** * Requests and statuses of mounts

    [controllers/block/mount_request.go]: the requests to mount the same volume become one
    request to the kernel.  [controllers/block/mount_status.go]: the status of a mount
    becomes one status per requester, and is held until they are all gone.  Each definition
    is one pass of the controller's loop. *)

From S2P Require Import Prelude Errors Block Devices Volumes MountResources.

(** A volume that can be mounted. *)
Definition volume_ready (st : VolumeStatus) : bool :=
  bool_decide (st.(statusSpec).(Phase) = VolumePhaseReady) && bool_decide (st.(statusPhase) = PhaseRunning).

(** ** Mount requests *)

Module MountRequestController.
Section controller.
Context {W : Type} `{HC : Cosi W}.
Notation io := (prog (env W) error).

(** One [VolumeMountRequest] joins the desired requests. *)
Definition join_request (volumeStatusMap : gmap string VolumeStatus) (desired : gmap string MountRequestSpec)
    (request : VolumeMountRequest) : gmap string MountRequestSpec :=
  let r := request.(resSpec) in
  match volumeStatusMap !! r.(vmrVolumeID) with
  | None => desired
  | Some volumeStatus =>
      if negb (volume_ready volumeStatus) then desired else
      let d := default
        {| mrVolumeID := r.(vmrVolumeID); ParentMountID := ""; mrReadOnly := r.(vmrReadOnly);
           mrDetached := r.(vmrDetached); mrDisableAccessTime := r.(vmrDisableAccessTime);
           mrSecure := r.(vmrSecure); Requesters := []; RequesterIDs := [] |}
        (desired !! r.(vmrVolumeID)) in
      <[ r.(vmrVolumeID) :=
        {| mrVolumeID := d.(mrVolumeID);
           ParentMountID := volumeStatus.(statusSpec).(mountSpec).(mountParentID);
           mrReadOnly := d.(mrReadOnly) && r.(vmrReadOnly);
           mrDetached := d.(mrDetached) && r.(vmrDetached);
           mrDisableAccessTime := d.(mrDisableAccessTime) || r.(vmrDisableAccessTime);
           mrSecure := d.(mrSecure) || r.(vmrSecure);
           Requesters := d.(Requesters) ++ [r.(vmrRequester)];
           RequesterIDs := d.(RequesterIDs) ++ [request.(resID)] |} ]> desired
  end.

Definition desired_requests (volumeStatusMap : gmap string VolumeStatus) (requests : list VolumeMountRequest)
    : gmap string MountRequestSpec :=
  foldl (join_request volumeStatusMap) ∅ requests.

(** The clean-up of an existing request; the result are the requests to write. *)
Definition clean_one (desired : gmap string MountRequestSpec) (mountRequest : MountRequest)
    : io (gmap string MountRequestSpec) :=
  let id := mountRequest.(resID) in
  let tearingDown := bool_decide (mountRequest.(resPhase) = PhaseTearingDown) in
  let shouldBeDestroyed := bool_decide (desired !! id = None) in
  if tearingDown || shouldBeDestroyed then
    okToDestroy ← wrap_id "failed to teardown mount request %q: %w" id (MTear (MountRequestOf id));
    if (okToDestroy : bool) then
      _ ← wrap_id "failed to destroy mount request %q: %w" id (MKill (MountRequestOf id));
      mret desired
    else if negb shouldBeDestroyed then mret (delete id desired) else mret desired
  else mret desired.

Fixpoint cleanup (desired : gmap string MountRequestSpec) (mountRequests : list MountRequest)
    : io (gmap string MountRequestSpec) :=
  match mountRequests with
  | [] => mret desired
  | mountRequest :: mountRequests =>
      desired ← clean_one desired mountRequest;
      cleanup desired mountRequests
  end.

Definition write_request (r : string * MountRequestSpec) : io () :=
  wrap_id "failed to create/update mount request %q: %w" r.1
    (call (cosi_ModifyMountRequest r.1 (λ _, r.2)) (λ _, [EvMount (MPutRequest r.1 r.2)])).

(** [range] is the order in which the map is iterated. *)
Definition progress_requests (range : gmap string MountRequestSpec → list (string * MountRequestSpec))
    (desired : gmap string MountRequestSpec) (mountRequests : list MountRequest) : io () :=
  desired ← cleanup desired mountRequests;
  for_each write_request (range desired).

Definition Run (range : gmap string MountRequestSpec → list (string * MountRequestSpec)) : io () :=
  volumeStatuses ← wrapf "failed to read volume statuses: %w" (query cosi_ListVolumeStatuses silent);
  requests ← wrapf "failed to read volume mount requests: %w" (query cosi_ListVolumeMountRequests silent);
  mountRequests ← wrapf "failed to read mount requests: %w" (query cosi_ListMountRequests silent);
  progress_requests range (desired_requests (ToMap statusID volumeStatuses) requests) mountRequests.

(** *** What is wanted

    The request for a volume, from all the requests for it. *)

Definition wanted (volumeStatusMap : gmap string VolumeStatus) (requests : list VolumeMountRequest)
    (id : string) : option MountRequestSpec :=
  let rs := filter (λ r, r.(resSpec).(vmrVolumeID) = id) requests in
  match volumeStatusMap !! id with
  | Some st =>
      if volume_ready st && negb (bool_decide (rs = [])) then Some
        {| mrVolumeID := id; ParentMountID := st.(statusSpec).(mountSpec).(mountParentID);
           mrReadOnly := forallb (λ r, r.(resSpec).(vmrReadOnly)) rs;
           mrDetached := forallb (λ r, r.(resSpec).(vmrDetached)) rs;
           mrDisableAccessTime := existsb (λ r, r.(resSpec).(vmrDisableAccessTime)) rs;
           mrSecure := existsb (λ r, r.(resSpec).(vmrSecure)) rs;
           Requesters := (λ r, r.(resSpec).(vmrRequester)) <$> rs;
           RequesterIDs := resID <$> rs |}
      else None
  | None => None
  end.

Lemma desired_requests_wanted volumeStatusMap requests id :
  desired_requests volumeStatusMap requests !! id = wanted volumeStatusMap requests id.
Proof.
  unfold desired_requests. induction requests as [|r l IH] using rev_ind.
  - unfold wanted. cbn. rewrite lookup_empty. destruct (_ !! id); [|done]. by rewrite andb_false_r.
  - rewrite foldl_app. cbn [foldl]. revert IH. generalize (foldl (join_request volumeStatusMap) ∅ l).
    intros m IH. unfold join_request, wanted in *. rewrite filter_app.
    destruct (decide (vmrVolumeID (resSpec r) = id)) as [<-|Hne].
    + rewrite filter_cons_True, filter_nil by done.
      destruct (volumeStatusMap !! _) as [st|]; [|done]. destruct (volume_ready st); cbn [negb andb]; [|done].
      rewrite lookup_insert_eq, IH.
      destruct (filter _ l) as [|r0 l0]; cbn; [by rewrite !andb_diag, !orb_diag, !andb_true_r, !orb_false_r|].
      rewrite !forallb_app, !existsb_app, !fmap_app. cbn.
      by rewrite !andb_true_r, !orb_false_r, !andb_assoc, !orb_assoc.
    + rewrite filter_cons_False, filter_nil, app_nil_r by done.
      destruct (volumeStatusMap !! vmrVolumeID (resSpec r)) as [st|]; [|done].
      destruct (negb (volume_ready st)); [done|]. by rewrite lookup_insert_ne.
Qed.

(** *** A pass *)

Definition teardown_of (id : string) (ok : bool) : event := EvMount (MTeardown (MountRequestOf id) ok).
Definition destroy_of (id : string) : event := EvMount (MDestroy (MountRequestOf id)).
(** An existing request that must go, though a new one may take its place. *)
Definition must_go (want : string → option MountRequestSpec) (mr : MountRequest) : Prop :=
  mr.(resPhase) = PhaseTearingDown ∨ want mr.(resID) = None.
(** No old version of the request is left. *)
Definition replaceable (mrs : list MountRequest) (t : list event) (id : string) : Prop :=
  ∀ mr, mr ∈ mrs → mr.(resID) = id → mr.(resPhase) = PhaseTearingDown → destroy_of id ∈ t.

Definition cleanup_event (want : string → option MountRequestSpec) (mrs : list MountRequest)
    (t : list event) (ev : event) : Prop :=
  ∃ mr, mr ∈ mrs ∧ must_go want mr ∧
    ((∃ ok, ev = teardown_of mr.(resID) ok) ∨ ev = destroy_of mr.(resID) ∧ teardown_of mr.(resID) true ∈ t).
Definition cleanup_log want mrs (t : list event) : Prop := Forall (cleanup_event want mrs t) t.

(** What happens to one request. *)
Inductive cleaned (desired : gmap string MountRequestSpec) (mr : MountRequest)
    : list event → error + gmap string MountRequestSpec → Prop :=
  | cleaned_keep : ¬ must_go (desired !!.) mr → cleaned desired mr [] (inr desired)
  | cleaned_error err : must_go (desired !!.) mr → cleaned desired mr [] (inl err)
  | cleaned_stuck err :
      must_go (desired !!.) mr → cleaned desired mr [teardown_of mr.(resID) true] (inl err)
  | cleaned_gone : must_go (desired !!.) mr →
      cleaned desired mr [teardown_of mr.(resID) true; destroy_of mr.(resID)] (inr desired)
  | cleaned_wait : must_go (desired !!.) mr →
      cleaned desired mr [teardown_of mr.(resID) false] (inr (delete mr.(resID) desired)).

Lemma clean_one_cleaned desired mr e :
  ensures (clean_one desired mr) e (λ e' r, ∃ t, e'.(trace) = e.(trace) ++ t ∧ cleaned desired mr t r).
Proof.
  assert (Hact : must_go (desired !!.) mr ↔
    (bool_decide (resPhase mr = PhaseTearingDown) || bool_decide (desired !! resID mr = None)) = true)
    by (unfold must_go; rewrite orb_true_iff, !bool_decide_eq_true; done).
  unfold clean_one. destruct (_ || _).
  2: { apply ensures_ret. exists []. rewrite app_nil_r. split; [done|]. constructor. by intros ?%Hact. }
  assert (must_go (desired !!.) mr) as Hgo by (by apply Hact).
  ensures_step. apply ensures_map_err, ensures_query. intros w [err|ok] _; [by eexists; split; constructor|].
  destruct ok.
  - ensures_step. apply ensures_map_err, ensures_call. intros w' [err|] _; simpl.
    + rewrite app_nil_r. eexists. split; [done|]. by constructor.
    + ensures_step. eexists. simpl. rewrite <- app_assoc. split; [done|]. by constructor.
  - replace (if negb _ then mret (delete _ _) else _) with (mret (delete (resID mr) desired) : io _).
    { ensures_step. eexists. split; [done|]. by constructor. }
    case_bool_decide; [|done]. simpl. by rewrite delete_id.
Qed.

(** The head says nothing about the other requests. *)
Lemma cleaned_other desired mr t desired1 mr' :
  cleaned desired mr t (inr desired1) → resID mr' ≠ resID mr →
  must_go (desired1 !!.) mr' ↔ must_go (desired !!.) mr'.
Proof. unfold must_go. inversion 1; intros Hne; simplify_eq; [done..|]. by rewrite lookup_delete_ne. Qed.

Lemma cleaned_head_log desired mr mrs t r : cleaned desired mr t r → cleanup_log (desired !!.) (mr :: mrs) t.
Proof.
  assert (mr ∈ mr :: mrs) by left.
  inversion 1; subst; repeat constructor; exists mr; split_and!; eauto. right. split; [done|left].
Qed.

Lemma cleanup_event_mono want want' mrs mrs' t t' ev :
  (∀ mr, mr ∈ mrs → mr ∈ mrs' ∧ (must_go want mr → must_go want' mr)) → t ⊆ t' →
  cleanup_event want mrs t ev → cleanup_event want' mrs' t' ev.
Proof.
  intros Hmrs Hsub (mr & Hin & Hgo & Hev). destruct (Hmrs mr Hin). exists mr. split_and!; auto.
  destruct Hev as [?|[? ?]]; auto.
Qed.

Lemma cleanup_log_id want mrs t id :
  cleanup_log want mrs t → (∃ ok, teardown_of id ok ∈ t) ∨ destroy_of id ∈ t → ∃ mr, mr ∈ mrs ∧ mr.(resID) = id.
Proof.
  intros Ht Hid. unfold cleanup_log in Ht. rewrite Forall_forall in Ht.
  destruct Hid as [[ok Hid]|Hid]; apply Ht in Hid as (mr & Hin & _ & [[ok' [=]]|[[=] _]]); eauto.
Qed.

Lemma cleaned_replaceable desired mr t1 desired1 mrs t2 id spec :
  cleaned desired mr t1 (inr desired1) → resID mr ∉ resID <$> mrs → cleanup_log (desired1 !!.) mrs t2 →
  (desired1 !! id = Some spec ∧ replaceable mrs t2 id ↔
   desired !! id = Some spec ∧ replaceable (mr :: mrs) (t1 ++ t2) id).
Proof.
  intros H1 Hfresh Hlog.
  assert (Hmrs : ∀ mr', mr' ∈ mrs → resID mr' ≠ resID mr).
  { intros mr' Hin Heq. apply Hfresh. rewrite <- Heq. by apply list_elem_of_fmap_2. }
  assert (Hgone : destroy_of (resID mr) ∉ t2).
  { intros Hin. destruct (cleanup_log_id _ _ _ (resID mr) Hlog) as (mr' & Hin' & Heq); [by right|].
    by apply (Hmrs mr'). }
  destruct (decide (id = resID mr)) as [->|Hne].
  - assert (Ht2 : replaceable mrs t2 (resID mr)) by (intros mr' Hin Heq; by apply Hmrs in Hin).
    inversion H1; simplify_eq.
    + (* kept *) assert (replaceable (mr :: mrs) ([] ++ t2) (resID mr)); [|tauto].
      intros mr' [->|Hin]%elem_of_cons Heq Htd; [|by apply Hmrs in Hin].
      exfalso. match goal with H : ¬ must_go _ _ |- _ => apply H end. by left.
    + match goal with |- _ ↔ _ ∧ ?R => assert R by (intros mr' _ _ _; set_solver) end. tauto.
    + rewrite lookup_delete_eq. split; [by intros [? _]|]. intros [Hd Hrep]. exfalso.
      match goal with H : must_go _ _ |- _ => destruct H as [Htd|Hd'] end; [|congruence].
      specialize (Hrep mr). set_solver.
  - assert (desired1 !! id = desired !! id) as -> by (inversion H1; simplify_eq; by rewrite ?lookup_delete_ne).
    assert (Ht1 : destroy_of id ∉ t1) by (inversion H1; simplify_eq; set_solver).
    unfold replaceable. set_solver.
Qed.

Lemma cleanup_logs desired mrs e :
  NoDup (resID <$> mrs) →
  ensures (cleanup desired mrs) e (λ e' r, ∃ t,
    e'.(trace) = e.(trace) ++ t ∧ cleanup_log (desired !!.) mrs t ∧
    match r with
    | inr desired' =>
        (∀ id spec, desired' !! id = Some spec ↔ desired !! id = Some spec ∧ replaceable mrs t id) ∧
        (∀ mr, mr ∈ mrs → must_go (desired !!.) mr →
           ∃ ok, teardown_of mr.(resID) ok ∈ t ∧ (ok = true → destroy_of mr.(resID) ∈ t))
    | inl _ => True
    end).
Proof.
  revert desired e. induction mrs as [|mr mrs IH]; intros desired e Hnd; cbn [cleanup].
  { apply ensures_ret. exists []. rewrite app_nil_r. split_and!; [done|constructor| |].
    - intros id spec. split; [|tauto]. intros ?. split; [done|]. by intros ? ?%elem_of_nil.
    - by intros mr ?%elem_of_nil. }
  cbn in Hnd. apply NoDup_cons in Hnd as [Hfresh Hnd]. apply ensures_bind.
  assert (Hne : ∀ mr', mr' ∈ mrs → resID mr' ≠ resID mr).
  { intros mr' Hin Heq. apply Hfresh. rewrite <- Heq. by apply list_elem_of_fmap_2. }
  eapply ensures_mono; [|apply clean_one_cleaned]. intros e1 [err|desired1] (t1 & He1 & H1); cbn beta iota.
  { exists t1. split_and!; [done| |done]. by eapply cleaned_head_log. }
  eapply ensures_mono; [|by apply IH]. intros e2 r (t2 & He2 & Hlog & Hr). exists (t1 ++ t2).
  rewrite He2, He1, app_assoc. split; [done|]. split.
  { apply Forall_app. split.
    - eapply Forall_impl; [by eapply cleaned_head_log|]. intros ev. apply cleanup_event_mono; [done|set_solver].
    - eapply Forall_impl; [exact Hlog|]. intros ev. apply cleanup_event_mono; [|set_solver].
      intros mr' Hin. split; [by right|]. apply (cleaned_other _ _ _ _ _ H1). auto. }
  destruct r as [|desired']; [done|]. destruct Hr as [Hd' Hgone]. split.
  - intros id spec. rewrite Hd'. apply cleaned_replaceable; eauto using cleanup_log_id.
  - intros mr' [->|Hin]%elem_of_cons Hgo.
    + inversion H1; simplify_eq; [done|..]; eexists; (split; [left|done || (intros; right; left)]).
    + destruct (Hgone mr' Hin) as (ok & ? & ?); [by apply (cleaned_other _ _ _ _ _ H1); auto|].
      exists ok. split; [|intros]; apply elem_of_app; auto.
Qed.
Lemma writes_log l e :
  ensures (for_each write_request l) e (λ e' r, ∃ l', l' `prefix_of` l ∧
    e'.(trace) = e.(trace) ++ ((λ p, EvMount (MPutRequest p.1 p.2)) <$> l') ∧ (r = inr () → l' = l)).
Proof.
  revert e. induction l as [|p l IH]; intros e; cbn [for_each].
  { apply ensures_ret. exists []. by rewrite app_nil_r. }
  apply ensures_bind, ensures_map_err, ensures_call. intros w [err|] _; simpl.
  - exists [p]. split_and!; [by apply prefix_cons, prefix_nil|done|done].
  - eapply ensures_mono; [|apply IH]. intros e' r (l' & Hpre & -> & Hr). exists (p :: l').
    cbn. rewrite <- app_assoc. split_and!; [by apply prefix_cons|done|]. by intros ->%Hr.
Qed.
End controller.

(** C37: A pass over the mount requests writes, in any map order, exactly the requests that
    are wanted: for each volume that is ready, all the requests for it joined, read-only and
    detached when all of them are, without access times and secure when any of them is.  It
    first tears down the existing requests that nobody wants or that are going, destroys
    those that are ready, and does not write over one that is still going. *)
Theorem mount_requests_pass {W} `{HC : Cosi W} range volumeStatuses requests mountRequests e e' r :
  (∀ m, range m ≡ₚ map_to_list m) → NoDup (resID <$> mountRequests) →
  progress_requests range (desired_requests (ToMap statusID volumeStatuses) requests) mountRequests e
    = Ok (e', r) →
  let want := wanted (ToMap statusID volumeStatuses) requests in
  ∃ t puts, e'.(trace) = e.(trace) ++ t ++ ((λ p, EvMount (MPutRequest p.1 p.2)) <$> puts) ∧
    cleanup_log want mountRequests t ∧ NoDup puts.*1 ∧
    (∀ id spec, (id, spec) ∈ puts → want id = Some spec ∧ replaceable mountRequests t id) ∧
    (r = inr () →
      (∀ mr, mr ∈ mountRequests → must_go want mr →
         ∃ ok, teardown_of mr.(resID) ok ∈ t ∧ (ok = true → destroy_of mr.(resID) ∈ t)) ∧
      (∀ id spec, want id = Some spec → replaceable mountRequests t id → (id, spec) ∈ puts)).
Proof.
  intros Hrange Hnd Hrun want. revert e' r Hrun.
  assert (Hwant : ∀ id, desired_requests (ToMap statusID volumeStatuses) requests !! id = want id)
    by apply desired_requests_wanted.
  assert (Hgo : ∀ mr, must_go (desired_requests (ToMap statusID volumeStatuses) requests !!.) mr ↔ must_go want mr)
    by (intros mr; unfold must_go; by rewrite Hwant).
  apply ensures_bind. eapply ensures_mono; [|by apply cleanup_logs].
  intros e1 [err|desired] (t & He1 & Hlog & Hr).
  all: assert (cleanup_log want mountRequests t) as Hlog'
    by (eapply Forall_impl; [exact Hlog|]; intros ev; apply cleanup_event_mono; [by setoid_rewrite Hgo|done]).
  { exists t, []. rewrite app_nil_r. split_and!; [done..|constructor|by intros ?? ?%elem_of_nil|done]. }
  destruct Hr as [Hd Hgone]. eapply ensures_mono; [|apply writes_log].
  intros e2 r (puts & Hpre & He2 & Hr). exists t, puts. rewrite He2, He1, app_assoc.
  assert (Hin : ∀ id spec, (id, spec) ∈ range desired ↔ want id = Some spec ∧ replaceable mountRequests t id)
    by (intros id spec; by rewrite Hrange, elem_of_map_to_list, Hd, Hwant).
  split_and!; [done..| | |].
  - destruct Hpre as [l Hpre]. eapply (NoDup_app _ (l.*1)). rewrite <- fmap_app, <- Hpre, Hrange.
    apply NoDup_fst_map_to_list.
  - intros id spec Hp. apply Hin. destruct Hpre as [l ->]. apply elem_of_app. by left.
  - intros ->%Hr. split; [by setoid_rewrite <- Hgo|]. intros. by apply Hin.
Qed.
End MountRequestController.

(** ** Mount statuses *)

Module MountStatusController.
Definition Name : string := "block.MountStatusController".

Section controller.
Context {W : Type} `{HC : Cosi W}.
Notation io := (prog (env W) error).

(** The status for one requester. *)
Definition requester_status (ms : MountStatusSpec) (requester : string) : VolumeMountStatusSpec :=
  {| vmsVolumeID := ms.(msSpec).(mrVolumeID); vmsRequester := requester; vmsTarget := ms.(msTarget);
     vmsReadOnly := ms.(msSpec).(mrReadOnly); vmsDetached := ms.(msDetached);
     vmsDisableAccessTime := ms.(msSpec).(mrDisableAccessTime); vmsSecure := ms.(msSpec).(mrSecure);
     vmsRoot := ms.(msRoot) |}.

Definition explode (mountStatus : MountStatus) (i : nat) (requester : string) : io () :=
  let ms := mountStatus.(resSpec) in
  requestID ← lift (match ms.(msSpec).(RequesterIDs) !! i with
                    | Some id => Ok id | None => Panic IndexRange end);
  let spec := requester_status ms requester in
  wrap_id "failed to create volume mount status %q: %w" requestID
    (call (cosi_ModifyVolumeMountStatus requestID mountStatus.(resID) (λ _, spec))
       (λ _, [EvMount (MPutVolumeMountStatus requestID mountStatus.(resID) spec)])).

(** Tear down and destroy one volume mount status: whether it is gone. *)
Definition remove_status (id : string) : io bool :=
  okToDestroy ← wrap_id "failed to teardown volume mount status %q: %w" id (MTear (VolumeMountStatusOf id));
  if (okToDestroy : bool) then
    _ ← wrap_id "failed to destroy volume mount status %q: %w" id (MKill (VolumeMountStatusOf id));
    mret true
  else mret false.

Definition list_statuses (id : string) : io (list VolumeMountStatus) :=
  wrap_id "failed to read volume mount statuses for mount status %q: %w" id (MListStatuses id).

Definition progress_running (mountStatus : MountStatus) : io () :=
  let id := mountStatus.(resID) in
  _ ← (if bool_decide (Name ∈ mountStatus.(resFinalizers)) then mret ()
       else wrap_id "failed to add finalizer to mount status %q: %w" id (MAdd (MountStatusOf id) Name));
  _ ← for_each (λ '(i, requester), explode mountStatus i requester)
        (imap pair mountStatus.(resSpec).(msSpec).(Requesters));
  volumeMountStatuses ← list_statuses id;
  for_each (λ vms,
    if bool_decide (vms.(resID) ∈ mountStatus.(resSpec).(msSpec).(RequesterIDs)) then mret ()
    else _ ← remove_status vms.(resID); mret ()) volumeMountStatuses.

(** [allDestroyed]: none was left. *)
Fixpoint remove_all (l : list VolumeMountStatus) : io bool :=
  match l with
  | [] => mret true
  | vms :: l =>
      gone ← remove_status vms.(resID);
      allDestroyed ← remove_all l;
      mret (gone && allDestroyed)
  end.

Definition progress_tearing_down (mountStatus : MountStatus) : io () :=
  let id := mountStatus.(resID) in
  volumeMountStatuses ← list_statuses id;
  allDestroyed ← remove_all volumeMountStatuses;
  if allDestroyed && bool_decide (Name ∈ mountStatus.(resFinalizers)) then
    wrap_id "failed to remove finalizer from mount status %q: %w" id (MRemove (MountStatusOf id) Name)
  else mret ().

Definition progress_status (mountStatus : MountStatus) : io () :=
  match mountStatus.(resPhase) with
  | PhaseRunning => progress_running mountStatus
  | PhaseTearingDown => progress_tearing_down mountStatus
  end.

Definition Run : io () :=
  mountStatuses ← wrapf "failed to read volume mount requests: %w" (query cosi_ListMountStatuses silent);
  for_each progress_status mountStatuses.

(** *** What a pass may do *)

Definition put_of (id rid : string) (spec : VolumeMountStatusSpec) : event :=
  EvMount (MPutVolumeMountStatus rid id spec).
Definition teardown_of (v : string) (ok : bool) : event := EvMount (MTeardown (VolumeMountStatusOf v) ok).
Definition destroy_of (v : string) : event := EvMount (MDestroy (VolumeMountStatusOf v)).
Definition list_of (id : string) (ids : list string) : event := EvMount (MList id ids).
Definition hold_of (id : string) : event := EvMount (MAddFinalizer (MountStatusOf id) Name).
Definition release_of (id : string) : event := EvMount (MRemoveFinalizer (MountStatusOf id) Name).
Definition removal (v : string) : list event := [teardown_of v true; destroy_of v].

Definition is_requester (ms : MountStatus) (i : nat) (rid requester : string) : Prop :=
  ms.(resSpec).(msSpec).(Requesters) !! i = Some requester ∧
  ms.(resSpec).(msSpec).(RequesterIDs) !! i = Some rid.

Definition status_call (mss : list MountStatus) (before : list event) (ev : event) : Prop :=
  match ev with
  | EvMount (MAddFinalizer (MountStatusOf id) fin) =>
      fin = Name ∧ ∃ ms, ms ∈ mss ∧ ms.(resID) = id ∧ ms.(resPhase) = PhaseRunning
  | EvMount (MPutVolumeMountStatus rid id spec) =>
      ∃ ms i requester, ms ∈ mss ∧ ms.(resID) = id ∧ ms.(resPhase) = PhaseRunning ∧
        (Name ∈ ms.(resFinalizers) ∨ hold_of id ∈ before) ∧
        is_requester ms i rid requester ∧ spec = requester_status ms.(resSpec) requester
  | EvMount (MList id _) => ∃ ms, ms ∈ mss ∧ ms.(resID) = id
  | EvMount (MTeardown (VolumeMountStatusOf v) _) =>
      ∃ ms ids, ms ∈ mss ∧ list_of ms.(resID) ids ∈ before ∧ v ∈ ids ∧
        (ms.(resPhase) = PhaseTearingDown ∨ v ∉ ms.(resSpec).(msSpec).(RequesterIDs))
  | EvMount (MDestroy (VolumeMountStatusOf v)) => ∃ t, before = t ++ [teardown_of v true]
  | EvMount (MRemoveFinalizer (MountStatusOf id) fin) =>
      fin = Name ∧ ∃ ms ids t, ms ∈ mss ∧ ms.(resID) = id ∧ ms.(resPhase) = PhaseTearingDown ∧
        before = t ++ list_of id ids :: flat_map removal ids
  | _ => False
  end.

(** What a pass without an error has done. *)
Definition status_done (ms : MountStatus) (t : list event) : Prop :=
  ∃ ids, list_of ms.(resID) ids ∈ t ∧
  match ms.(resPhase) with
  | PhaseRunning =>
      (Name ∈ ms.(resFinalizers) ∨ hold_of ms.(resID) ∈ t) ∧
      (∀ i rid requester, is_requester ms i rid requester →
         put_of ms.(resID) rid (requester_status ms.(resSpec) requester) ∈ t) ∧
      (∀ v, v ∈ ids → v ∉ ms.(resSpec).(msSpec).(RequesterIDs) →
         ∃ ok, teardown_of v ok ∈ t ∧ (ok = true → destroy_of v ∈ t))
  | PhaseTearingDown =>
      (∀ v, v ∈ ids → ∃ ok, teardown_of v ok ∈ t ∧ (ok = true → destroy_of v ∈ t)) ∧
      (Name ∈ ms.(resFinalizers) →
         release_of ms.(resID) ∈ t ∨ ∃ v, v ∈ ids ∧ teardown_of v false ∈ t)
  end.

Lemma status_call_mono mss t0 t ev : status_call mss t ev → status_call mss (t0 ++ t) ev.
Proof.
  destruct ev; try done. destruct c; cbn; repeat case_match; try done.
  - intros (-> & ms & ids & t1 & ? & ? & ? & ->). split; [done|]. exists ms, ids, (t0 ++ t1). by rewrite app_assoc.
  - intros (ms & ids & ? & ? & ? & ?). exists ms, ids. split_and!; auto. apply elem_of_app. auto.
  - intros [t1 ->]. exists (t0 ++ t1). by rewrite app_assoc.
  - intros (ms & i & requester & ? & ? & ? & Hhold & ? & ?). exists ms, i, requester. split_and!; auto.
    destruct Hhold; [auto|]. right. apply elem_of_app. auto.
Qed.

Lemma status_done_app ms t t1 t2 : status_done ms t → status_done ms (t1 ++ t ++ t2).
Proof.
  assert (Hsub : ∀ ev, ev ∈ t → ev ∈ t1 ++ t ++ t2) by set_solver.
  intros (ids & Hids & Hdone). exists ids. split; [auto|].
  destruct (resPhase ms).
  - destruct Hdone as (Hhold & Hputs & Hgone). split_and!; [destruct Hhold; auto|eauto|].
    intros v Hv Hin. destruct (Hgone v Hv Hin) as (ok & ? & ?). exists ok. auto.
  - destruct Hdone as (Hgone & Hrel). split.
    + intros v Hv. destruct (Hgone v Hv) as (ok & ? & ?). exists ok. auto.
    + intros Hin. destruct (Hrel Hin) as [?|(v & ? & ?)]; eauto.
Qed.

Lemma remove_status_logs v e :
  ensures (remove_status v) e (λ e' r, ∃ t, e'.(trace) = e.(trace) ++ t ∧
    match r with
    | inr true => t = removal v
    | inr false => t = [teardown_of v false]
    | inl _ => t = [] ∨ t = [teardown_of v true]
    end).
Proof.
  unfold remove_status. apply ensures_bind, ensures_map_err, ensures_query. intros w [err|ok] _; simpl; [by eauto|].
  destruct ok; [|apply ensures_ret; by eauto].
  apply ensures_bind, ensures_map_err, ensures_call. intros w' [err|] _; simpl.
  - rewrite app_nil_r. eauto.
  - apply ensures_ret. simpl. rewrite <- app_assoc. by eauto.
Qed.
(** The removal of statuses among [ids]. *)
Definition removal_call (ids : list string) (before : list event) (ev : event) : Prop :=
  match ev with
  | EvMount (MTeardown (VolumeMountStatusOf v) _) => v ∈ ids
  | EvMount (MDestroy (VolumeMountStatusOf v)) => ∃ t, before = t ++ [teardown_of v true]
  | _ => False
  end.
Lemma removal_call_mono ids t0 t ev : removal_call ids t ev → removal_call ids (t0 ++ t) ev.
Proof.
  destruct ev; try done. destruct c; try done; cbn; destruct r; try done.
  intros [t1 ->]. exists (t0 ++ t1). by rewrite app_assoc.
Qed.
Lemma removal_justified ids v t : v ∈ ids →
  t = [] ∨ t = [teardown_of v true] ∨ t = [teardown_of v false] ∨ t = removal v → justified (removal_call ids) t.
Proof.
  intros Hv. assert (Hone : ∀ ok, justified (removal_call ids) [teardown_of v ok])
    by (intros ok; by apply (justified_snoc _ [] (teardown_of v ok) (justified_nil _))).
  intros [->|[->|[->| ->]]]; [apply justified_nil|done|done|].
  apply (justified_snoc _ [teardown_of v true] (destroy_of v)); [done|]. by exists [].
Qed.

Lemma removed_done v t r :
  match r with
  | inr true => t = removal v
  | inr false => t = [teardown_of v false]
  | inl _ => t = [] ∨ t = [teardown_of v true]
  end → (t = [] ∨ t = [teardown_of v true] ∨ t = [teardown_of v false] ∨ t = removal v) ∧
  (∀ b : bool, r = @inr error _ b → ∃ ok, teardown_of v ok ∈ t ∧ (ok = true → destroy_of v ∈ t)).
Proof.
  destruct r as [err|[]]; intros Ht; (split; [tauto|]); intros b [=]; subst.
  - exists true. unfold removal. set_solver.
  - exists false. set_solver.
Qed.

Lemma remove_all_logs ids l e :
  (∀ vms, vms ∈ l → vms.(resID) ∈ ids) →
  ensures (remove_all l) e (λ e' r, ∃ t, e'.(trace) = e.(trace) ++ t ∧ justified (removal_call ids) t ∧
    match r with
    | inr gone => (∀ vms, vms ∈ l → ∃ ok, teardown_of vms.(resID) ok ∈ t ∧ (ok = true → destroy_of vms.(resID) ∈ t)) ∧
        if gone : bool then t = flat_map removal (resID <$> l)
        else ∃ vms, vms ∈ l ∧ teardown_of vms.(resID) false ∈ t
    | inl _ => True
    end).
Proof.
  revert e. induction l as [|vms l IH]; intros e Hl; cbn [remove_all].
  { apply ensures_ret. exists []. rewrite app_nil_r. split_and!; [done|apply justified_nil| |done].
    by intros ? ?%elem_of_nil. }
  apply ensures_bind. eapply ensures_mono; [|apply remove_status_logs].
  intros e1 r1 (t1 & He1 & H1). pose proof (removed_done _ _ _ H1) as [Ht1 Hdone1].
  assert (justified (removal_call ids) t1) by (apply (removal_justified ids (resID vms)); [apply Hl; left|done]).
  destruct r1 as [err|gone1]; [by exists t1|].
  apply ensures_bind. eapply ensures_mono; [|apply IH; intros; apply Hl; by right].
  intros e2 r2 (t2 & He2 & Hj2 & H2).
  assert (Ht : trace e2 = trace e ++ t1 ++ t2) by by rewrite He2, He1, app_assoc.
  assert (justified (removal_call ids) (t1 ++ t2)) by (apply justified_join; [apply removal_call_mono|done..]).
  destruct r2 as [err|gone2]; [by exists (t1 ++ t2)|]. destruct H2 as [Hdone2 H2].
  apply ensures_ret. exists (t1 ++ t2). split_and!; [done..| |].
  - intros vms' [->|Hin]%elem_of_cons.
    + destruct (Hdone1 _ eq_refl) as (ok & ? & ?). exists ok. set_solver.
    + destruct (Hdone2 _ Hin) as (ok & ? & ?). exists ok. set_solver.
  - destruct gone1; simpl.
    + destruct gone2; [by subst|]. destruct H2 as (vms' & ? & ?). exists vms'. set_solver.
    + exists vms. subst t1. set_solver.
Qed.

Lemma explode_logs ms e :
  ensures (for_each (λ '(i, requester), explode ms i requester) (imap pair ms.(resSpec).(msSpec).(Requesters))) e
    (λ e' r, ∃ t, e'.(trace) = e.(trace) ++ t ∧
      Forall (λ ev, ∃ i rid requester, is_requester ms i rid requester ∧
        ev = put_of ms.(resID) rid (requester_status ms.(resSpec) requester)) t ∧
      (r = inr () → ∀ i rid requester, is_requester ms i rid requester →
         put_of ms.(resID) rid (requester_status ms.(resSpec) requester) ∈ t)).
Proof.
  set (put := λ ev, ∃ i rid requester, is_requester ms i rid requester ∧ _).
  set (D := λ (p : nat * string) (t : list event), ∀ rid,
    ms.(resSpec).(msSpec).(RequesterIDs) !! p.1 = Some rid →
    put_of ms.(resID) rid (requester_status ms.(resSpec) p.2) ∈ t).
  eapply ensures_mono; [|apply (justified_for_each (λ _, put) ltac:(done) _ _ _ D)].
  - intros e' r (t & He & Ht & HD). exists t. split_and!; [done|apply (justified_Forall _ _ _ (λ _ _ H, H) Ht)|].
    intros Hr i rid requester [Hi Hrid]. apply (HD Hr (i, requester)); [|done].
    apply elem_of_lookup_imap. by exists i, requester.
  - intros p t t' HD rid Hrid. set_solver.
  - intros p t t' HD rid Hrid. set_solver.
  - intros [i requester] e0 (i' & y & [= <- <-] & Hi)%elem_of_lookup_imap. unfold explode.
    apply ensures_bind, ensures_lift. intros rid Hrid.
    destruct (RequesterIDs _ !! i) as [rid'|] eqn:Ei; [|done]. injection Hrid as ->.
    apply ensures_map_err, ensures_call. intros w err _. simpl. eexists. split; [done|]. split.
    + intros [|? t1] ev t2 Heq; simplify_list_eq; [|by destruct t1]. exists i, rid, requester. done.
    + intros _ rid' Hrid'. simpl in Hrid'. rewrite Ei in Hrid'. simplify_eq. left.
Qed.
(** The log of a turn over a mount status, and what it has done. *)
Definition status_turn mss ms (e e' : env W) (r : error + ()) : Prop :=
  ∃ t, e'.(trace) = e.(trace) ++ t ∧ justified (status_call mss) t ∧ (r = inr () → status_done ms t).

(** Removals of listed statuses come after the list. *)
Lemma removal_after_list mss ms ids ids' t t1 ev :
  ms ∈ mss → list_of ms.(resID) ids ∈ t →
  (∀ v, v ∈ ids' → v ∈ ids ∧ (ms.(resPhase) = PhaseTearingDown ∨ v ∉ ms.(resSpec).(msSpec).(RequesterIDs))) →
  removal_call ids' t1 ev → status_call mss (t ++ t1) ev.
Proof.
  intros Hms Hlist Hids. destruct ev; try done. destruct c; try done; cbn; destruct r; try done.
  - intros [Hv Hgo]%Hids. exists ms, ids. split_and!; [done| |done..]. apply elem_of_app. by left.
  - intros [t2 ->]. exists (t ++ t2). by rewrite app_assoc.
Qed.

Lemma progress_running_turn mss ms e :
  ms ∈ mss → ms.(resPhase) = PhaseRunning →
  ensures (progress_running ms) e (status_turn mss ms e).
Proof.
  intros Hms Hphase. unfold progress_running. apply ensures_bind.
  assert (Hhold : ensures (if bool_decide (Name ∈ ms.(resFinalizers)) then mret ()
      else wrap_id "failed to add finalizer to mount status %q: %w" ms.(resID) (MAdd (MountStatusOf ms.(resID)) Name)) e
    (λ e' r, ∃ t, e'.(trace) = e.(trace) ++ t ∧ justified (status_call mss) t ∧
       (r = inr () → Name ∈ ms.(resFinalizers) ∨ hold_of ms.(resID) ∈ t))).
  { case_bool_decide.
    - apply ensures_ret. exists []. rewrite app_nil_r. split_and!; [done|apply justified_nil|auto].
    - apply ensures_map_err, ensures_call. intros w [err|] _; eexists; (split; [done|]); simpl.
      + split; [apply justified_nil|done].
      + split; [|intros _; right; left].
        apply (justified_snoc _ [] (hold_of _) (justified_nil _)). split; [done|]. by exists ms. }
  eapply ensures_mono; [|exact Hhold]. clear Hhold. intros e1 [err|[]] (t1 & He1 & Hj1 & Hhold); [by exists t1|].
  specialize (Hhold eq_refl). apply ensures_bind. eapply ensures_mono; [|apply explode_logs].
  intros e2 r2 (t2 & He2 & Hputs & Hall).
  assert (Hj2 : justified (status_call mss) (t1 ++ t2)).
  { apply (justified_app _ _ _ Hj1). intros b ev a ->. apply Forall_app in Hputs as [_ Hputs].
    apply Forall_cons in Hputs as [(i & rid & requester & Hreq & ->) _]. exists ms, i, requester. split_and!; try done.
    destruct Hhold; [by left|]. right. apply elem_of_app. by left. }
  destruct r2 as [err|[]]; [by exists (t1 ++ t2); rewrite He2, He1, app_assoc|].
  apply ensures_bind, ensures_map_err, ensures_query. intros w [err|l] _; simpl.
  { exists (t1 ++ t2). by rewrite app_nil_r, He2, He1, app_assoc. }
  set (ids := resID <$> l). set (t3 := (t1 ++ t2) ++ [list_of ms.(resID) ids]).
  assert (Hj3 : justified (status_call mss) t3) by (apply justified_snoc; [done|by exists ms]).
  set (ids' := filter (λ v, v ∉ ms.(resSpec).(msSpec).(RequesterIDs)) ids).
  eapply ensures_mono; [|apply (justified_for_each (removal_call ids') (removal_call_mono ids') _ _ _
    (λ (vms : VolumeMountStatus) t, vms.(resID) ∉ ms.(resSpec).(msSpec).(RequesterIDs) →
       ∃ ok, teardown_of vms.(resID) ok ∈ t ∧ (ok = true → destroy_of vms.(resID) ∈ t)))].
  - intros e4 r4 (t4 & He4 & Hj4 & Hdone). exists (t3 ++ t4). split_and!.
    + rewrite He4. simpl. rewrite He2, He1. unfold t3. by rewrite !app_assoc.
    + eapply justified_after; [done|exact Hj4|]. intros b ev.
      apply (removal_after_list _ ms ids); [done|set_solver|]. intros v [? ?]%list_elem_of_filter. auto.
    + intros Hr. exists ids. rewrite Hphase. split_and!; [set_solver|destruct Hhold; set_solver| |].
      * intros. do 2 (apply elem_of_app; left). apply elem_of_app. right. eauto.
      * intros v (vms & -> & Hin)%list_elem_of_fmap Hv. destruct (Hdone Hr vms Hin Hv) as (ok & ? & ?).
        exists ok. set_solver.
  - intros x t t' HD Hx. destruct (HD Hx) as (ok & ? & ?). exists ok. set_solver.
  - intros x t t' HD Hx. destruct (HD Hx) as (ok & ? & ?). exists ok. set_solver.
  - intros vms e0 Hin. case_bool_decide as Hreq.
    { apply ensures_ret. exists []. rewrite app_nil_r. split_and!; [done|apply justified_nil|done]. }
    apply ensures_bind. eapply ensures_mono; [|apply remove_status_logs].
    intros e5 r5 (t5 & He5 & H5). pose proof (removed_done _ _ _ H5) as [Ht5 Hdone5].
    assert (justified (removal_call ids') t5).
    { apply (removal_justified ids' (resID vms)); [|done]. apply list_elem_of_filter.
      split; [done|by apply list_elem_of_fmap_2]. }
    destruct r5 as [err|b]; [by exists t5|]. apply ensures_ret. exists t5. split_and!; [done..|]. intros _ _. eauto.
Qed.

Lemma progress_tearing_down_turn mss ms e :
  ms ∈ mss → ms.(resPhase) = PhaseTearingDown →
  ensures (progress_tearing_down ms) e (status_turn mss ms e).
Proof.
  intros Hms Hphase. unfold progress_tearing_down.
  apply ensures_bind, ensures_map_err, ensures_query. intros w [err|l] _; simpl.
  { exists []. split_and!; [done|apply justified_nil|done]. }
  set (ids := resID <$> l).
  assert (Hj1 : justified (status_call mss) [list_of ms.(resID) ids])
    by (apply (justified_snoc _ [] (list_of _ _) (justified_nil _)); by exists ms).
  apply ensures_bind. eapply ensures_mono; [|apply (remove_all_logs ids)].
  2: { intros vms Hin. by apply list_elem_of_fmap_2. }
  intros e2 r2 (t2 & He2 & Hj2 & H2).
  assert (Hj : justified (status_call mss) ([list_of ms.(resID) ids] ++ t2)).
  { eapply justified_after; [done|exact Hj2|]. intros b ev.
    apply (removal_after_list _ ms ids); [done|by left|auto]. }
  assert (He : trace e2 = trace e ++ [list_of (resID ms) ids] ++ t2) by (rewrite He2; simpl; by rewrite <- app_assoc).
  destruct r2 as [err|gone]; [by exists ([list_of ms.(resID) ids] ++ t2)|]. destruct H2 as [Hdone Hgone].
  assert (Hall : ∀ t, ∀ v, v ∈ ids → ∃ ok, teardown_of v ok ∈ ([list_of ms.(resID) ids] ++ t2) ++ t ∧
    (ok = true → destroy_of v ∈ ([list_of ms.(resID) ids] ++ t2) ++ t)).
  { intros t v (vms & -> & Hin)%list_elem_of_fmap. destruct (Hdone vms Hin) as (ok & ? & ?). exists ok. set_solver. }
  destruct (_ && _) eqn:Erel.
  - apply andb_true_iff in Erel as [-> Hfin%bool_decide_eq_true]. subst t2.
    apply ensures_map_err, ensures_call. intros w' err _. simpl.
    exists (([list_of ms.(resID) ids] ++ flat_map removal ids) ++ [release_of ms.(resID)]). split_and!.
    + rewrite He. by rewrite !app_assoc.
    + apply justified_snoc; [done|]. split; [done|]. by exists ms, ids, [].
    + intros _. exists ids. rewrite Hphase. split_and!; [set_solver|apply Hall|]. intros _. left. set_solver.
  - apply ensures_ret. exists (([list_of ms.(resID) ids] ++ t2) ++ []). split_and!; [by rewrite app_nil_r|by rewrite app_nil_r|].
    intros _. exists ids. rewrite Hphase. split_and!; [set_solver|apply Hall|]. intros Hfin. right.
    rewrite (bool_decide_eq_true_2 _ Hfin), andb_true_r in Erel. subst gone.
    destruct Hgone as (vms & Hin & ?). exists vms.(resID). split; [by apply list_elem_of_fmap_2|set_solver].
Qed.
End controller.

(** C38: In a pass over the mount statuses, a requester gets the status of its mount only
    while the controller's finalizer is on it, a status is torn down only when its mount
    goes or its requester has gone, and the finalizer is removed only right after every
    status that was listed for the mount has been torn down and destroyed.  A pass without
    an error serves every requester, and releases every mount all of whose statuses went. *)
Theorem mount_statuses_held {W} `{HC : Cosi W} mss e e' r :
  for_each progress_status mss e = Ok (e', r) →
  ∃ t, e'.(trace) = e.(trace) ++ t ∧
    (∀ before ev after, t = before ++ ev :: after → status_call mss before ev) ∧
    (r = inr () → ∀ ms, ms ∈ mss → status_done ms t).
Proof.
  intros Hrun. revert e' r Hrun.
  apply (justified_for_each (status_call mss) (status_call_mono mss) progress_status mss e status_done).
  - intros ms t t' Hd. pose proof (status_done_app ms t t' [] Hd) as Hd'. by rewrite app_nil_r in Hd'.
  - intros ms t t' Hd. exact (status_done_app ms t [] t' Hd).
  - intros ms e0 Hms. unfold progress_status. destruct (resPhase ms) eqn:Hphase;
      [by apply progress_running_turn|by apply progress_tearing_down_turn].
Qed.
End MountStatusController.
