(* ===== verification/FileSystems.v ===== *)
(** * Filesystems to mount

    [pkg/xfs/fsopen] and [pkg/xfs/opentree]: the two kinds of filesystems, which the new
    mount calls of the kernel open; [pkg/xfs/root_linux.go]: a root keeps one open;
    [pkg/makefs]: repairs; [internal/pkg/selinux]: labels.  The kernel is an interface on a
    world, like the devices. *)

From S2P Require Import Prelude Errors Block Devices.

(** ** The kernel *)

Record MountAttr := { Attr_set : Z; Attr_clr : Z; Propagation : Z }.

(** What [os.Stat] and [os.Lstat] tell of a file. *)
Record FileInfo := { Mode : Z; statUid : Z; statGid : Z }.
Definition ModeDir : Z := 2 ^ 31.
Definition ModeSymlink : Z := 2 ^ 27.
Definition IsDir (st : FileInfo) : bool := negb (Z.land st.(Mode) ModeDir =? 0).

Class Kernel (W : Type) := {
  (** the new mount calls; [Fsmount] gives a descriptor even when it fails *)
  unix_Fsopen : string → Z → W → W * (error + Z);
  FsconfigSetString : Z → string → string → W → W * option error;
  FsconfigSetFlag : Z → string → W → W * option error;
  FsconfigSetBinary : Z → string → string → W → W * option error;
  FsconfigCreate : Z → W → W * option error;
  Fsmount : Z → Z → Z → W → W * (Z * option error);
  OpenTree : Z → string → Z → W → W * (error + Z);
  unix_Close : Z → W → W * option error;
  MoveMount : Z → string → Z → string → Z → W → W * option error;
  MountSetattr : Z → string → Z → MountAttr → W → W * option error;
  (** [unix.Unmount] in a goroutine of its own: [None] when it does not answer in time *)
  unix_Unmount : string → Z → W → W * option (option error);
  unix_Open : string → Z → Z → W → W * (error + Z);
  Syncfs : Z → W → W * option error;
  swap_On : string → W → W * option error;
  swap_Off : string → W → W * option error;
  (** the fields of the lines of [/proc/mounts], and the error of the scanner *)
  proc_mounts : W → W * (error + (list (list string) * option error));
  (** commands *)
  cmd_Run : list string → W → W * option error;
  (** files *)
  MkdirAll : string → Z → W → W * option error;
  Mkdir : string → Z → W → W * option error;
  Stat : string → W → W * (error + FileInfo);
  Lstat : string → W → W * (error + FileInfo);
  os_Symlink : string → string → W → W * option error;
  Readlink : string → W → W * (error + string);
  RemoveAll : string → W → W * option error;
  ReadDir : string → W → W * (error + list string);
  Chmod : string → Z → W → W * option error;
  Chown : string → Z → Z → W → W * option error;
  (** what [filepath.Walk] calls its function with *)
  Walk : string → W → W * list (string * FileInfo * option error);
  os_IsExist : error → bool;
  os_IsNotExist : error → bool;
  (** extended attributes; [None] is [nil] *)
  LGet : string → W → W * (error + option string);
  LSet : string → string → W → W * option error;
  (** [selinux.IsEnabled], which is computed once *)
  selinux_IsEnabled : bool;
  (** go-retry: whether its timer leaves time for another attempt, and the error it
      reports for the errors of the attempts, timed out or not *)
  retry_Tick : W → W * bool;
  retry_Error : list error → bool → error;
  (** the order in which a map is iterated *)
  range_map : ∀ A, gmap string A → list (string * A)
}.
Arguments range_map {W Kernel A} _.

Definition AT_FDCWD : Z := -100.
Definition AT_EMPTY_PATH : Z := 0x1000.
Definition AT_RECURSIVE : Z := 0x8000.
Definition FSOPEN_CLOEXEC : Z := 1.
Definition FSMOUNT_CLOEXEC : Z := 1.
Definition OPEN_TREE_CLONE : Z := 1.
Definition OPEN_TREE_CLOEXEC : Z := 0x80000.
Definition MOVE_MOUNT_F_EMPTY_PATH : Z := 4.
Definition MNT_FORCE : Z := 1.
Definition MS_SHARED : Z := 0x100000.
Definition O_RDONLY_DIRECTORY_CLOEXEC : Z := 0x90000.
Definition MOUNT_ATTR_RDONLY : Z := 1.
Definition MOUNT_ATTR_NOSUID : Z := 2.
Definition MOUNT_ATTR_NODEV : Z := 4.
Definition MOUNT_ATTR_NOATIME : Z := 0x10.
Definition MOUNT_ATTR__ATIME : Z := 0x70.

Definition ErrClosed : error := Sentinel "os.ErrClosed".
Definition ErrRepairUnsupported : error := Sentinel "unsupported filesystem type for repair".

Section filesystems.
Context {W : Type} `{HK : Kernel W}.
Notation io := (prog (env W) error).

Definition sys (f : W → W * option error) : io () := call f silent.
Definition ask_ {A} (f : W → W * A) : io A := ask f silent.

(** ** fsopen *)

Record Fsopen := {
  fstype : string; source : string;
  boolParams : gmap string (); stringParams : gmap string (list string);
  binaryParams : gmap string (list string);
  fsopenFd : Z; mntflags : Z
}.

Inductive FsOption :=
  | WithSource (src : string)
  | WithMountFlags (flag : Z)
  | WithProjectQuota (enabled : bool)
  | WithStringParameter (param value : string)
  | WithBoolParameter (param : string)
  | WithBinaryParameters (param value : string).

Definition append_param (param value : string) (m : gmap string (list string)) : gmap string (list string) :=
  <[param := default [] (m !! param) ++ [value]]> m.

Definition set_fs_option (t : Fsopen) (o : FsOption) : Fsopen :=
  match o with
  | WithSource src => t <| source := src |>
  | WithMountFlags flag => t <| mntflags := Z.lor t.(mntflags) flag |>
  | WithProjectQuota enabled => if enabled then t <| boolParams := <["prjquota" := ()]> t.(boolParams) |> else t
  | WithStringParameter param value => t <| stringParams := append_param param value t.(stringParams) |>
  | WithBoolParameter param => t <| boolParams := <[param := ()]> t.(boolParams) |>
  | WithBinaryParameters param value => t <| binaryParams := append_param param value t.(binaryParams) |>
  end.

Definition defaultOpts (fstype : string) (opts : list FsOption) : list FsOption :=
  if String.eqb fstype "iso9660" then opts ++ [WithBoolParameter "ro"] else opts.

Definition fsopen_New (fstype : string) (opts : list FsOption) : Fsopen :=
  foldl set_fs_option
    {| fstype := fstype; source := ""; boolParams := ∅; stringParams := ∅; binaryParams := ∅;
       fsopenFd := 0; mntflags := 0 |}
    (defaultOpts fstype opts).

(** The parameters of the new filesystem, and its creation. *)
Definition fsopen_configure (fs : Fsopen) (fsfd : Z) : io () :=
  _ ← (if negb (String.eqb fs.(source) "") then
         map_err (λ e, Errorf "FSCONFIG_SET_STRING failed: %w: key=%q value=%q"
                         [Wrapped e; Str "source"%string; Str fs.(source)])
           (sys (FsconfigSetString fsfd "source" fs.(source)))
       else mret ());
  _ ← for_each (λ '(key, _),
        map_err (λ e, Errorf "FSCONFIG_SET_FLAG failed: %w: key=%q" [Wrapped e; Str key])
          (sys (FsconfigSetFlag fsfd key))) (range_map fs.(boolParams));
  _ ← for_each (λ '(key, binary), for_each (λ bf,
        map_err (λ e, Errorf "FSCONFIG_SET_BINARY failed: %w: key=%q" [Wrapped e; Str key])
          (sys (FsconfigSetBinary fsfd key bf))) binary) (range_map fs.(binaryParams));
  _ ← for_each (λ '(key, values), for_each (λ value,
        map_err (λ e, Errorf "FSCONFIG_SET_BINARY failed: %w: key=%q" [Wrapped e; Str key])
          (sys (FsconfigSetString fsfd key value))) values) (range_map fs.(stringParams));
  wrapf "FSCONFIG_CMD_CREATE failed: %w" (sys (FsconfigCreate fsfd)).

(** [new]: the filesystem after it, and its error. *)
Definition fsopen_new (fs : Fsopen) : io (Fsopen * option error) :=
  r ← try (query (unix_Fsopen fs.(fstype) FSOPEN_CLOEXEC) silent);
  match r with
  | inl e => mret (fs, Some (Errorf "unix.Fsopen fstype=%q failed: %w" [Str fs.(fstype); Wrapped e]))
  | inr fsfd =>
      r ← try (fsopen_configure fs fsfd);
      '(fs, err) ← match r with
        | inl e => mret (fs, Some e)
        | inr _ =>
            let flags := Z.lor fs.(mntflags) FSMOUNT_CLOEXEC in
            '(fd, err) ← ask_ (Fsmount fsfd flags 0);
            mret (fs <| mntflags := flags |> <| fsopenFd := fd |>,
                  match err with Some e => Some (Errorf "FSMOUNT failed: %w" [Wrapped e]) | None => None end)
        end;
      cloErr ← ask_ (unix_Close fsfd);
      mret (fs, match err with None => cloErr | Some _ => errors_Join [err; cloErr] end)
  end.

(** ** opentree *)

Record Opentree := { treeRoot : string; treeRootFd : Z; treeFd : Z }.

Definition NewFromPath_ (path : string) : Opentree :=
  {| treeRoot := path; treeRootFd := AT_FDCWD; treeFd := 0 |}.
Definition NewFromFd (fd : Z) : Opentree := {| treeRoot := ""; treeRootFd := fd; treeFd := 0 |}.

Definition opentree_new (fs : Opentree) (flags : Z) : io (Opentree * option error) :=
  r ← try (query (OpenTree fs.(treeRootFd) fs.(treeRoot) flags) silent);
  match r with
  | inl e => mret (fs, Some (Errorf "unix.OpenTree on %q failed: %w" [Str fs.(treeRoot); Wrapped e]))
  | inr mntfd => mret (fs <| treeFd := mntfd |>, None)
  end.

(** ** The interface [xfs.FS] *)

Inductive FS := FsopenFS (fs : Fsopen) | OpentreeFS (fs : Opentree).

(** [Open] gives a descriptor even when it fails. *)
Definition FS_Open (fs : FS) : io (FS * (Z * option error)) :=
  match fs with
  | FsopenFS f =>
      if negb (f.(fsopenFd) =? 0) then mret (fs, (f.(fsopenFd), None)) else
      '(f, err) ← fsopen_new f;
      mret (FsopenFS f, (f.(fsopenFd), err))
  | OpentreeFS f =>
      if negb (f.(treeFd) =? 0) then mret (fs, (f.(treeFd), None)) else
      let flags := Z.lor OPEN_TREE_CLONE OPEN_TREE_CLOEXEC in
      let flags := if String.eqb f.(treeRoot) "" then Z.lor flags AT_EMPTY_PATH else flags in
      '(f, err) ← opentree_new f flags;
      mret (OpentreeFS f, (f.(treeFd), err))
  end.

Definition FS_Close (fs : FS) : io (FS * option error) :=
  match fs with
  | FsopenFS f =>
      if f.(fsopenFd) =? 0 then mret (fs, Some ErrClosed) else
      err ← ask_ (unix_Close f.(fsopenFd)); mret (FsopenFS (f <| fsopenFd := 0 |>), err)
  | OpentreeFS f =>
      if f.(treeFd) =? 0 then mret (fs, None) else
      err ← ask_ (unix_Close f.(treeFd)); mret (OpentreeFS (f <| treeFd := 0 |>), err)
  end.

Definition Ext4Repair (partname : string) : io () :=
  wrapf "failed to repair ext4 filesystem: %w"
    (call (cmd_Run ["e2fsck"; "-f"; "-p"; partname]%string) (λ _, [EvMount MRepair])).
Definition XFSRepair (partname : string) : io () :=
  wrapf "error repairing XFS filesystem: %w"
    (call (cmd_Run ["xfs_repair"; partname]%string) (λ _, [EvMount MRepair])).

Definition FS_Repair (fs : FS) : io () :=
  match fs with
  | FsopenFS f =>
      let repair := map_err (λ e, Errorf "repair %q: %w" [Str f.(source); Wrapped e]) in
      if String.eqb f.(fstype) "ext4" then repair (Ext4Repair f.(source))
      else if String.eqb f.(fstype) "xfs" then repair (XFSRepair f.(source))
      else throw (Errorf "%w: %s" [Wrapped ErrRepairUnsupported; Str f.(fstype)])
  | OpentreeFS _ => mret ()
  end.

Definition FS_Source (fs : FS) : string :=
  match fs with FsopenFS f => f.(source) | OpentreeFS f => f.(treeRoot) end.
Definition FS_FSType (fs : FS) : string :=
  match fs with FsopenFS f => f.(fstype) | OpentreeFS _ => "" end.

(** ** The root of a filesystem *)

Record UnixRoot := { rootFS : FS; mntfd : Z }.

(** The descriptor is kept even when the filesystem does not open. *)
Definition OpenFS (root : UnixRoot) : io (UnixRoot * option error) :=
  if negb (root.(mntfd) =? 0) then mret (root, None) else
  '(fs, (fd, err)) ← FS_Open root.(rootFS);
  mret ({| rootFS := fs; mntfd := fd |},
        match err with Some e => Some (Errorf "failed to create root filesystem: %w" [Wrapped e]) | None => None end).

Definition root_Close (root : UnixRoot) : io (UnixRoot * option error) :=
  if root.(mntfd) =? 0 then mret (root, None) else
  '(fs, err) ← FS_Close root.(rootFS);
  mret ({| rootFS := fs; mntfd := 0 |}, err).

Definition RepairFS (root : UnixRoot) : io () := FS_Repair root.(rootFS).

Definition Fd (root : UnixRoot) : error + Z :=
  if root.(mntfd) =? 0 then inl ErrClosed else inr root.(mntfd).

(** ** Labels *)

Definition trimmed (c : Ascii.ascii) : bool := Ascii.eqb c (Ascii.ascii_of_nat 0) || Ascii.eqb c (Ascii.ascii_of_nat 10).
Fixpoint trim_left (l : list Ascii.ascii) : list Ascii.ascii :=
  match l with c :: l' => if trimmed c then trim_left l' else l | [] => [] end.
(** [bytes.Trim(label, cutset)] with NUL and newline as the cutset. *)
Definition trim_label (s : string) : string :=
  String.string_of_list_ascii (rev (trim_left (rev (trim_left (String.list_ascii_of_string s))))).

Definition GetLabel (filename : string) : io string :=
  if negb selinux_IsEnabled then mret ""%string else
  label ← query (LGet filename) silent;
  mret (match label with None => ""%string | Some l => trim_label l end).

Definition SetLabel (filename label : string) (excludeLabels : list string) : io () :=
  if String.eqb label "" || negb selinux_IsEnabled then mret () else
  currentLabel ← GetLabel filename;
  if String.eqb currentLabel label then mret () else
  if negb (String.eqb currentLabel "") && bool_decide (currentLabel ∈ excludeLabels) then mret () else
  sys (LSet filename label).

Definition SetLabelRecursive (dir label : string) (excludeLabels : list string) : io () :=
  if String.eqb label "" || negb selinux_IsEnabled then mret () else
  files ← ask_ (Walk dir);
  for_each (λ '(path, _, _), SetLabel path label excludeLabels) files.

(** [filetree.ChownRecursive]. *)
Definition ChownRecursive (root : string) (uid gid : Z) : io () :=
  files ← ask_ (Walk root);
  for_each (λ '(path, info, err),
    match err with
    | Some e => throw e
    | None =>
        if negb (info.(statUid) =? uid) || negb (info.(statGid) =? gid) then sys (Chown path uid gid)
        else mret ()
    end) files.

(** ** Calls that always return and log nothing *)

Definition hush {A} (c : io A) : Prop := ∀ e, returns c e (λ e' _, e'.(trace) = e.(trace)).

Lemma hush_ret {A} (a : A) : hush (mret a).
Proof. intros e. by apply returns_ret. Qed.
Lemma hush_throw {A} err : hush (throw err : io A).
Proof. intros e. by apply returns_throw. Qed.
Lemma hush_ask {A} (f : W → W * A) : hush (ask_ f).
Proof.
  intros e. unfold returns, ask_, ask. destruct (f (world e)) as [w a]. eexists _, _. split; [done|].
  simpl. by rewrite app_nil_r.
Qed.
Lemma hush_bind {A B} (c : io A) (f : A → io B) : hush c → (∀ a, hush (f a)) → hush (c ≫= f).
Proof.
  intros Hc Hf e. apply returns_bind. eapply returns_mono; [|apply Hc]. intros e1 [err|a] He1; [done|].
  eapply returns_mono; [|apply Hf]. by intros e2 _ ->.
Qed.
Lemma hush_map_err {A} f (c : io A) : hush c → hush (map_err f c).
Proof. intros Hc e. apply returns_map_err, Hc. Qed.
Lemma hush_try {A} (c : io A) : hush c → hush (try c : io _).
Proof. intros Hc e. apply returns_try, Hc. Qed.
Lemma hush_check err : hush (check err).
Proof. destruct err; [apply hush_throw|apply hush_ret]. Qed.
Lemma hush_of_result {A} (r : error + A) : hush (of_result r).
Proof. destruct r; [apply hush_throw|apply hush_ret]. Qed.
Lemma hush_sys f : hush (sys f).
Proof. apply hush_bind; [apply hush_ask|apply hush_check]. Qed.
Lemma hush_query {A} (f : W → W * (error + A)) : hush (query f silent).
Proof.
  intros e. unfold query. apply returns_bind. unfold returns at 1, ask.
  destruct (f (world e)) as [w r]. eexists _, _. split; [done|]. simpl.
  eapply returns_mono; [|apply hush_of_result]. intros e' _ ->. simpl. by destruct r; rewrite app_nil_r.
Qed.
Lemma hush_for_each {A} (f : A → io ()) l : (∀ x, hush (f x)) → hush (for_each f l).
Proof. intros Hf. induction l as [|x l IH]; cbn [for_each]; [apply hush_ret|]. by apply hush_bind. Qed.
Lemma hush_defer {A} (d : io ()) (c : io A) : hush d → hush c → hush (with_defer d c).
Proof.
  intros Hd Hc e. apply returns_defer. eapply returns_mono; [|apply Hc]. intros e1 r He1.
  eapply returns_mono; [|apply Hd]. by intros e2 _ ->.
Qed.
End filesystems.

#[export] Hint Resolve hush_ret hush_throw hush_ask hush_check hush_of_result hush_sys hush_query : hush.
(** Prove a [hush] goal by its structure. *)
Ltac hush_tac :=
  unfold wrapf;
  repeat first
    [ progress intros
    | solve [eauto 2 with hush]
    | apply hush_bind | apply hush_map_err | apply hush_try | apply hush_for_each | apply hush_defer
    | case_match ].

Section hush.
Context {W : Type} `{HK : Kernel W}.
Lemma hush_fsopen_new fs : hush (fsopen_new fs).
Proof. unfold fsopen_new, fsopen_configure. hush_tac. Qed.
Lemma hush_opentree_new fs flags : hush (opentree_new fs flags).
Proof. unfold opentree_new. hush_tac. Qed.
#[local] Hint Resolve hush_fsopen_new hush_opentree_new : hush.
Lemma hush_OpenFS root : hush (OpenFS root).
Proof. unfold OpenFS, FS_Open. hush_tac. Qed.
Lemma hush_root_Close root : hush (root_Close root).
Proof. unfold root_Close, FS_Close. hush_tac. Qed.
Lemma hush_GetLabel filename : hush (GetLabel filename).
Proof. unfold GetLabel. hush_tac. Qed.
#[local] Hint Resolve hush_GetLabel : hush.
Lemma hush_SetLabel filename label excludes : hush (SetLabel filename label excludes).
Proof. unfold SetLabel. hush_tac. Qed.
#[local] Hint Resolve hush_SetLabel : hush.
Lemma hush_SetLabelRecursive dir label excludes : hush (SetLabelRecursive dir label excludes).
Proof. unfold SetLabelRecursive. hush_tac. Qed.
Lemma hush_ChownRecursive dir uid gid : hush (ChownRecursive dir uid gid).
Proof. unfold ChownRecursive. hush_tac. Qed.
End hush.
#[export] Hint Resolve hush_OpenFS hush_root_Close hush_GetLabel hush_SetLabel hush_SetLabelRecursive
  hush_ChownRecursive : hush.
