(* ===== verification/MountPoint.v ===== *)
(** * Mount points

    [internal/pkg/mount/v3]: a [Point] is a filesystem that is open, or moved to its
    target ([point.go], [unmount.go]); a [Manager] makes one from its options
    ([manager.go]); the managers of overlays ([helpers.go]).  Printing is left out.

    Points are shared: a manager and the controller of the mounts hold the same point, so
    points live in a heap. *)

From S2P Require Import Prelude Errors Block Devices FileSystems.

(** ** Paths *)

(** [strings.Split(s, "/")]. *)
Fixpoint split_slash (s : string) : list string :=
  match s with
  | EmptyString => [""%string]
  | String c s =>
      if Ascii.eqb c (Ascii.ascii_of_nat 47) then ""%string :: split_slash s
      else match split_slash s with [] => [String c ""] | w :: l => String c w :: l end
  end.

(** The elements of a cleaned path, last first. *)
Definition clean_element (rooted : bool) (out : list string) (w : string) : list string :=
  if String.eqb w "" || String.eqb w "." then out
  else if String.eqb w ".." then
    match out with
    | [] => if rooted then [] else [".."%string]
    | top :: rest => if String.eqb top ".." then ".."%string :: out else rest
    end
  else w :: out.

Definition join_slash (l : list string) : string := String.concat "/" l.

(** [filepath.Clean] and [filepath.Join]. *)
Definition Clean (path : string) : string :=
  let rooted := String.prefix "/" path in
  let out := join_slash (rev (foldl (clean_element rooted) [] (split_slash path))) in
  if rooted then ("/" +:+ out)%string else if String.eqb out "" then "."%string else out.
Definition Join (l : list string) : string :=
  match filter (λ w, w ≠ ""%string) l with [] => ""%string | l => Clean (join_slash l) end.

Example join_root : Join ["/"; "/var/"]%string = "/var"%string.
Proof. reflexivity. Qed.
Example join_dots : Join ["/var"; "../etc/./x//"]%string = "/etc/x"%string.
Proof. reflexivity. Qed.

(** ** Points *)

Record Point := {
  root : option UnixRoot; keepOpen : bool; detached : bool;
  pointFstype : string; pointSource : string; target : string; selinuxLabel : string
}.

Definition NewPoint (source target fstype : string) : Point :=
  {| root := None; keepOpen := false; detached := false; pointFstype := fstype;
     pointSource := source; target := target; selinuxLabel := "" |}.

(** An object and what its methods work on. *)
Record obj (W A : Type) := { obj_io : env W; this : A }.
Arguments obj_io {W A} _.
Arguments this {W A} _.

Section point.
Context {W : Type} `{HK : Kernel W}.
Notation io := (prog (env W) error).
Notation pio := (prog (obj W Point) error).

Definition p_io {A} (c : io A) : pio A := zoom obj_io (λ e o, {| obj_io := e; this := o.(this) |}) c.
Definition point : pio Point := o ← get; mret o.(this).
(** [p.root]: a call on a nil root panics. *)
Definition point_root : pio UnixRoot :=
  p ← point; lift (match p.(root) with Some r => Ok r | None => Panic NilDereference end).
Definition set_root (r : UnixRoot) : pio () :=
  modify (λ o, {| obj_io := o.(obj_io); this := (o.(this)) <| root := Some r |> |}).

Definition Source : pio string :=
  p ← point;
  if String.eqb p.(pointSource) "" then r ← point_root; mret (FS_Source r.(rootFS)) else mret p.(pointSource).
Definition FSType : pio string :=
  p ← point;
  if String.eqb p.(pointFstype) "" then r ← point_root; mret (FS_FSType r.(rootFS)) else mret p.(pointFstype).

Definition Release (force : bool) : pio () :=
  p ← point;
  if p.(keepOpen) && negb force then mret () else
  r ← point_root;
  '(r, err) ← p_io (root_Close r);
  _ ← set_root r;
  check err.

Definition IsMounted : pio bool :=
  p ← point;
  '(lines, scanErr) ← p_io (query proc_mounts silent);
  if existsb (λ fields : list string, match fields with
                | _ :: mountpoint :: _ => String.eqb mountpoint p.(target)
                | _ => false end) lines
  then mret true
  else _ ← check scanErr; mret false.

Definition moved (target : string) (err : option error) : list event :=
  [EvMount (MMove target (succeeded err))].

Definition moveMount (target : string) : pio () :=
  r ← point_root;
  match Fd r with
  | inl err =>
      source ← Source;
      if negb (String.eqb source "") then
        map_err (λ e, Errorf "error moving mount from %q to %q: %w" [Str source; Str target; Wrapped e])
          (p_io (call (MoveMount AT_FDCWD source AT_FDCWD target 0) (moved target)))
      else throw (Errorf "error getting root fd: %w" [Wrapped err])
  | inr fd =>
      map_err (λ e, Errorf "error moving detached mount fd=%d to %q: %w" [Int fd; Str target; Wrapped e])
        (p_io (call (MoveMount fd "" AT_FDCWD target MOVE_MOUNT_F_EMPTY_PATH) (moved target)))
  end.

(** A change of the access time clears the bits of all its modes. *)
Definition clear_atime (attr : MountAttr) : MountAttr :=
  if negb (Z.land attr.(Attr_set) MOUNT_ATTR_NOATIME =? 0) || negb (Z.land attr.(Attr_clr) MOUNT_ATTR_NOATIME =? 0)
  then {| Attr_set := attr.(Attr_set); Attr_clr := Z.lor attr.(Attr_clr) MOUNT_ATTR__ATIME;
          Propagation := attr.(Propagation) |}
  else attr.

Definition setattr (attr : MountAttr) (flags : Z) : pio () :=
  let attr := clear_atime attr in
  p ← point;
  r ← point_root;
  fd ← match Fd r with
       | inl err => if errors_Is "os.ErrClosed" err then mret 0 else throw err
       | inr fd => mret fd
       end;
  let '(fd, flags) := if negb (String.eqb p.(target) "") then (AT_FDCWD, flags)
                      else (fd, Z.lor flags AT_EMPTY_PATH) in
  map_err (λ e, Errorf "setattr failed for fd=%d target=%q flags=%d attr=%#+v: %w"
             [Int fd; Str p.(target); Int flags; Int attr.(Attr_set); Int attr.(Attr_clr);
              Int attr.(Propagation); Wrapped e])
    (p_io (call (MountSetattr fd p.(target) flags attr)
       (λ err, match err with
               | None => [EvMount (MSetattr p.(target) attr.(Attr_set) attr.(Attr_clr))]
               | Some _ => [] end))).

Definition set_bits (bits : Z) : MountAttr := {| Attr_set := bits; Attr_clr := 0; Propagation := 0 |}.
Definition clear_bits (bits : Z) : MountAttr := {| Attr_set := 0; Attr_clr := bits; Propagation := 0 |}.

Definition Share : pio () :=
  p ← point;
  if p.(detached) then throw (Sentinel "EINVAL") else
  setattr {| Attr_set := 0; Attr_clr := 0; Propagation := MS_SHARED |} AT_RECURSIVE.

Definition setattr_attached (attr : MountAttr) : pio () :=
  p ← point; if p.(detached) then mret () else setattr attr 0.
Definition RemountReadOnly : pio () := setattr_attached (set_bits MOUNT_ATTR_RDONLY).
Definition RemountReadWrite : pio () := setattr_attached (clear_bits MOUNT_ATTR_RDONLY).
Definition SetDisableAccessTime (disable : bool) : pio () :=
  setattr_attached (if disable then set_bits MOUNT_ATTR_NOATIME else clear_bits MOUNT_ATTR_NOATIME).
Definition SECURE : Z := Z.lor MOUNT_ATTR_NOSUID MOUNT_ATTR_NODEV.
Definition SetSecure (secure : bool) : pio () :=
  setattr_attached (if secure then set_bits SECURE else clear_bits SECURE).

(** *** Retries *)

(** How an attempt ended: it may be tried again after an expected error. *)
Inductive attempt := Success | Expected (err : error) | Unexpected (err : error).

Definition repair_then (err : error) : pio attempt :=
  r ← point_root;
  res ← try (p_io (RepairFS r));
  mret (match res with
        | inl errRepair => Unexpected (Errorf "error repairing: %w" [Wrapped errRepair])
        | inr _ => Expected err
        end).

(** [switch err]: an error is compared with the error numbers by identity. *)
Definition is_errno (names : list string) (err : error) : bool :=
  match err with Sentinel name => existsb (String.eqb name) names | _ => false end.

Definition judge (err : error) (isUnmount : bool) : pio attempt :=
  if is_errno ["EBUSY"]%string err then mret (Expected err)
  else if is_errno ["ENOENT"; "ENXIO"]%string err then mret (Expected err)
  else if is_errno ["EUCLEAN"; "EIO"]%string err then
    if negb isUnmount then repair_then err else mret (Expected err)
  else if is_errno ["EINVAL"]%string err then
    r ← try IsMounted;
    match r with
    | inl checkErr => mret (Expected checkErr)
    | inr isMounted =>
        if negb isMounted && negb isUnmount then repair_then err
        else if negb isMounted && isUnmount then mret Success
        else mret (Unexpected err)
    end
  else mret (Unexpected err).

(** 5 s, an attempt every 50 ms. *)
Definition retry_ticks : nat := 100.

(** [retry.Constant(...).Retry]; the errors so far are kept for the error it reports. *)
Fixpoint Retry (ticks : nat) (f : pio attempt) (errs : list error) : pio () :=
  res ← f;
  match res with
  | Success => mret ()
  | Unexpected err => throw (retry_Error (errs ++ [err]) false)
  | Expected err =>
      match ticks with
      | O => throw (retry_Error (errs ++ [err]) true)
      | S ticks =>
          again ← p_io (ask_ retry_Tick);
          if (again : bool) then Retry ticks f (errs ++ [err])
          else throw (retry_Error (errs ++ [err]) true)
      end
  end.

Definition retry (f : pio ()) (isUnmount : bool) : pio () :=
  Retry retry_ticks (
    r ← try f;
    match r with inl err => judge err isUnmount | inr _ => mret Success end) [].

(** *** Mounting *)

Record Options := { SkipIfMounted : bool; MountAttributes : Z; Shared : bool }.

Definition mount_once (opts : Options) : pio () :=
  p ← point;
  source ← Source;
  _ ← map_err (λ e, Errorf "error mounting %q to %q: %w" [Str source; Str p.(target); Wrapped e])
        (moveMount p.(target));
  _ ← map_err (λ e, Errorf "error setting mountattributes on %s: %w" [Str p.(target); Wrapped e])
        (setattr (set_bits opts.(MountAttributes)) 0);
  _ ← (if opts.(Shared) then
         map_err (λ e, Errorf "error making %q shared: %w" [Str p.(target); Wrapped e]) Share
       else mret ());
  r ← try (p_io (SetLabel p.(target) p.(selinuxLabel) []));
  match r with
  | inl e => if errors_Is "ENOTSUP" e then mret () else
      throw (Errorf "error setting selinux label on %q: %w" [Str p.(target); Wrapped e])
  | inr _ => mret ()
  end.

Definition point_Mount (opts : Options) : pio () :=
  with_defer (Release false) (
    p ← point;
    if p.(detached) then mret () else
    isMounted ← (if opts.(SkipIfMounted) then IsMounted else mret false);
    if (isMounted : bool) then mret () else retry (mount_once opts) false).

(** *** Unmounting *)

Definition trySyncMount (target : string) : io () :=
  fd ← map_err (λ e, Errorf "open %q: %w" [Str target; Wrapped e])
         (query (unix_Open target O_RDONLY_DIRECTORY_CLOEXEC 0) silent);
  with_defer (sys (unix_Close fd))
    (map_err (λ e, Errorf "SYS_SYNCFS %q: %w" [Str target; Wrapped e]) (sys (Syncfs fd))).

(** The context is never done; [None]: the unmount did not answer in time. *)
Definition unmountLoop (target : string) (flags : Z) : io (option (option error)) :=
  _ ← try (trySyncMount target);
  ask (unix_Unmount target flags) (λ r, match r with
    | Some None => [EvMount (MUmount target)] | _ => [] end).

Definition SafeUnmount (target : string) : io () :=
  r ← unmountLoop target 0;
  match r with
  | Some err => check err
  | None =>
      r ← unmountLoop target MNT_FORCE;
      match r with
      | Some err => check err
      | None => throw (Errorf "unmounting %s with force flag timed out" [Str target])
      end
  end.

Definition point_Unmount : pio () :=
  _ ← Release true;
  p ← point;
  if p.(detached) then mret () else retry (p_io (SafeUnmount p.(target))) true.
End point.

(** ** Managers *)

(** The points that are shared, and the next free reference. *)
Record heap (W : Type) := { heap_io : env W; points : gmap Z Point; nextPoint : Z }.
Arguments heap_io {W} _.
Arguments points {W} _.
Arguments nextPoint {W} _.

Section manager.
Context {W : Type} `{HK : Kernel W}.
Notation io := (prog (env W) error).
Notation pio := (prog (obj W Point) error).
Notation hio := (prog (heap W) error).

Definition h_io {A} (c : io A) : hio A :=
  zoom heap_io (λ e h, {| heap_io := e; points := h.(points); nextPoint := h.(nextPoint) |}) c.

(** A method of the point [id]. *)
Definition on_point {A} (id : Z) (c : pio A) : hio A := λ h,
  match h.(points) !! id with
  | None => Panic NilDereference
  | Some p =>
      zoom (λ h, {| obj_io := h.(heap_io); this := p |})
           (λ o h, {| heap_io := o.(obj_io); points := <[id := o.(this)]> h.(points); nextPoint := h.(nextPoint) |})
           c h
  end.

Definition alloc_point (p : Point) : hio Z :=
  h ← get;
  _ ← modify (λ h, {| heap_io := h.(heap_io); points := <[h.(nextPoint) := p]> h.(points);
                      nextPoint := h.(nextPoint) + 1 |});
  mret h.(nextPoint).

(** A manager is used to mount once: the filesystem moves into the root of its point.  A
    callback of the unmount handles its errors itself. *)
Record Manager := {
  mgrFS : option FS; mgrTarget : string; mgrLabel : string; shared : bool; skipIfMounted : bool;
  mgrKeepOpen : bool; mgrDetached : bool; mountattr : Z; extraDirs : list string;
  extraUnmountCallbacks : list (W → W); mgrPoint : option Z
}.

Inductive ManagerOption :=
  | WithTarget (target : string)
  | WithKeepOpenAfterMount
  | WithSelinuxLabel (label : string)
  | WithShared
  | WithSkipIfMounted
  | WithFsopen (fstype : string) (opts : list FsOption)
  | WithOpentreeFromPath (path : string)
  | WithMountAttributes (flags : Z)
  | WithDetached
  | WithExtraDirs (dirs : list string)
  | WithExtraUnmountCallbacks (callbacks : list (W → W)).

Definition WithDisableAccessTime : ManagerOption := WithMountAttributes MOUNT_ATTR_NOATIME.
Definition WithSecure : ManagerOption := WithMountAttributes (Z.lor MOUNT_ATTR_NOSUID MOUNT_ATTR_NODEV).
Definition WithReadOnly : ManagerOption := WithMountAttributes MOUNT_ATTR_RDONLY.

Definition set_manager_option (m : Manager) (o : ManagerOption) : Manager :=
  match o with
  | WithTarget target => m <| mgrTarget := target |>
  | WithKeepOpenAfterMount => m <| mgrKeepOpen := true |>
  | WithSelinuxLabel label => m <| mgrLabel := label |>
  | WithShared => m <| shared := true |>
  | WithSkipIfMounted => m <| skipIfMounted := true |>
  | WithFsopen fstype opts => m <| mgrFS := Some (FsopenFS (fsopen_New fstype opts)) |>
  | WithOpentreeFromPath path => m <| mgrFS := Some (OpentreeFS (NewFromPath_ path)) |>
  | WithMountAttributes flags => m <| mountattr := Z.lor m.(mountattr) flags |>
  | WithDetached => m <| mgrDetached := true |> <| mgrKeepOpen := true |>
  | WithExtraDirs dirs => m <| extraDirs := m.(extraDirs) ++ dirs |>
  | WithExtraUnmountCallbacks callbacks => m <| extraUnmountCallbacks := m.(extraUnmountCallbacks) ++ callbacks |>
  end.

Definition NewManager (opts : list ManagerOption) : Manager :=
  foldl set_manager_option
    {| mgrFS := None; mgrTarget := ""; mgrLabel := ""; shared := false; skipIfMounted := false;
       mgrKeepOpen := false; mgrDetached := false; mountattr := 0; extraDirs := [];
       extraUnmountCallbacks := []; mgrPoint := None |} opts.

(** The manager holds its point from now on; the mode is [0o755]. *)
Definition manager_Mount (m : Manager) : hio (Manager * Z) :=
  _ ← for_each (λ dir,
        if negb (String.prefix "/" dir) then throw (Errorf "dir %q is not absolute" [Str dir]) else
        map_err (λ e, Errorf "error creating mount point directory %q: %w" [Str dir; Wrapped e])
          (h_io (sys (MkdirAll dir 493)))) m.(extraDirs);
  fs ← lift (match m.(mgrFS) with Some fs => Ok fs | None => Panic NilDereference end);
  '(root, err) ← h_io (OpenFS {| rootFS := fs; mntfd := 0 |});
  _ ← wrapf "openfs failed: %w" (check err);
  id ← alloc_point {| root := Some root; keepOpen := m.(mgrKeepOpen); detached := m.(mgrDetached);
                      pointFstype := ""; pointSource := ""; target := m.(mgrTarget);
                      selinuxLabel := m.(mgrLabel) |};
  _ ← (if negb m.(mgrDetached) then
         map_err (λ e, Errorf "failed to create mount target %s: %w" [Str m.(mgrTarget); Wrapped e])
           (h_io (sys (MkdirAll m.(mgrTarget) 493)))
       else mret ());
  _ ← wrapf "failed to mount: %w"
        (on_point id (point_Mount {| SkipIfMounted := m.(skipIfMounted); MountAttributes := m.(mountattr);
                                     Shared := m.(shared) |}));
  mret (m <| mgrPoint := Some id |>, id).

Definition manager_point (m : Manager) : hio Z :=
  lift (match m.(mgrPoint) with Some id => Ok id | None => Panic NilDereference end).

(** The callbacks are deferred: the last one runs first. *)
Fixpoint with_callbacks (callbacks : list (W → W)) (c : hio ()) : hio () :=
  match callbacks with
  | [] => c
  | cb :: callbacks => with_defer (h_io (run cb [])) (with_callbacks callbacks c)
  end.

Definition manager_Unmount (m : Manager) : hio () :=
  with_callbacks m.(extraUnmountCallbacks) (id ← manager_point m; on_point id point_Unmount).

Definition manager_Move (m : Manager) (newTarget : string) : hio () :=
  id ← manager_point m; on_point id (moveMount newTarget).

(** *** Overlays *)

Definition VarSystemOverlaysPath : string := "/var/system/overlays".
Definition SystemOverlaysPath : string := "/system/overlays".

(** [strings.Cut(target, "/")]: what follows the first slash. *)
Fixpoint cut_slash (s : string) : string :=
  match s with
  | EmptyString => ""
  | String c s => if Ascii.eqb c (Ascii.ascii_of_nat 47) then s else cut_slash s
  end.
(** [strings.ReplaceAll(s, "/", "-")]. *)
Fixpoint replace_slashes (s : string) : string :=
  match s with
  | EmptyString => ""
  | String c s => String (if Ascii.eqb c (Ascii.ascii_of_nat 47) then Ascii.ascii_of_nat 45 else c) (replace_slashes s)
  end.
(** [fmt.Sprintf(format, arg)] for a format with one [%s]. *)
Fixpoint sprintf_s (format arg : string) : string :=
  match format with
  | EmptyString => ""
  | String c f =>
      if String.prefix "%s" format then (arg +:+ String.substring 2 (String.length format - 2) format)%string
      else String c (sprintf_s f arg)
  end.

Definition lowerdirs (sources : list string) : list FsOption :=
  match sources with
  | [] => []
  | [source] => [WithStringParameter "lowerdir" source]
  | _ => (λ source, WithStringParameter "lowerdir+" source) <$> sources
  end.

Definition NewReadOnlyOverlay (sources : list string) (target : string) (options : list ManagerOption) : Manager :=
  NewManager (options ++ [WithTarget target; WithReadOnly; WithFsopen "overlay" (lowerdirs sources)]).

Definition NewOverlayWithBasePath (sources : list string) (target basePath : string)
    (options : list ManagerOption) : Manager :=
  let overlayPrefix := replace_slashes (cut_slash target) in
  let diff := sprintf_s (Join [basePath; "%s-diff"%string]) overlayPrefix in
  let workdir := sprintf_s (Join [basePath; "%s-workdir"%string]) overlayPrefix in
  NewManager (options ++
    [WithTarget target; WithExtraDirs [diff; workdir];
     WithFsopen "overlay"
       ([WithStringParameter "upperdir" diff; WithStringParameter "workdir" workdir] ++ lowerdirs sources)]).

Definition NewVarOverlay (sources : list string) (target : string) (options : list ManagerOption) : Manager :=
  NewOverlayWithBasePath sources target VarSystemOverlaysPath options.
Definition NewSystemOverlay (sources : list string) (target : string) (options : list ManagerOption) : Manager :=
  NewOverlayWithBasePath sources target SystemOverlaysPath options.
End manager.

(** ** Mounting is tried once *)

Section mounting.
Context {W : Type} `{HK : Kernel W}.
Notation pio := (prog (obj W Point) error).

Lemma returns_p_io {A} (c : prog (env W) error A) (o : obj W Point) Q :
  returns c o.(obj_io) (λ e r, Q {| obj_io := e; this := o.(this) |} r) → returns (p_io c) o Q.
Proof. intros HQ. unfold p_io. by apply returns_zoom. Qed.

Lemma returns_point (o : obj W Point) Q : Q o (inr o.(this)) → returns point o Q.
Proof. intros HQ. unfold point. by io_steps. Qed.
Lemma returns_point_root (o : obj W Point) r Q : root o.(this) = Some r → Q o (inr r) → returns point_root o Q.
Proof.
  intros Hr HQ. unfold point_root. apply returns_bind, returns_point. rewrite Hr. by eapply returns_lift.
Qed.

(** The change of attributes that setting [bits] makes. *)
Definition attr_call (target : string) (attr : MountAttr) : event :=
  EvMount (MSetattr target (clear_atime attr).(Attr_set) (clear_atime attr).(Attr_clr)).
Definition share_attr : MountAttr := {| Attr_set := 0; Attr_clr := 0; Propagation := MS_SHARED |}.
(** What a mount logs. *)
Definition mount_calls (target : string) (attributes : Z) (shared : bool) : list event :=
  EvMount (MMove target true) :: attr_call target (set_bits attributes) ::
  (if shared then [attr_call target share_attr] else []).
(** A mount that is tried once: its calls up to the first that fails. *)
Definition tried_once (target : string) (attributes : Z) (shared : bool) (t : list event) : Prop :=
  t `prefix_of` mount_calls target attributes shared ∨ t = [EvMount (MMove target false)].

Lemma Source_returns (o : obj W Point) r0 :
  root o.(this) = Some r0 → returns Source o (λ o' r, o' = o ∧ ∃ s, r = inr s).
Proof.
  intros Hr. unfold Source. apply returns_bind, returns_point.
  destruct (String.eqb _ _); [|apply returns_ret; eauto].
  apply returns_bind. eapply returns_point_root; [done|]. apply returns_ret. eauto.
Qed.

Lemma moveMount_logs target o r0 :
  root o.(this) = Some r0 → returns (moveMount target) o (λ o' r, o'.(this) = o.(this) ∧
    match r with
    | inr _ => o'.(obj_io).(trace) = o.(obj_io).(trace) ++ [EvMount (MMove target true)]
    | inl _ => ∃ t, o'.(obj_io).(trace) = o.(obj_io).(trace) ++ t ∧ (t = [] ∨ t = [EvMount (MMove target false)])
    end).
Proof.
  intros Hr. unfold moveMount. apply returns_bind. eapply returns_point_root; [done|].
  destruct (Fd r0) as [err|fd].
  - apply returns_bind. eapply returns_mono; [|by apply (Source_returns o r0)]. intros o' r (-> & s & ->).
    destruct (negb _).
    + apply returns_map_err, returns_p_io, returns_call. intros w [e|] _; eauto.
    + apply returns_throw. split; [done|]. exists []. rewrite app_nil_r. auto.
  - apply returns_map_err, returns_p_io, returns_call. intros w [e|] _; eauto.
Qed.

Lemma Fd_error r0 err : Fd r0 = inl err → err = ErrClosed.
Proof. unfold Fd. by destruct (_ =? _); intros [= <-]. Qed.

Lemma setattr_logs attr flags o r0 :
  root o.(this) = Some r0 → returns (setattr attr flags) o (λ o' r, o'.(this) = o.(this) ∧
    o'.(obj_io).(trace) = o.(obj_io).(trace) ++
      match r with inr _ => [attr_call (target o.(this)) attr] | inl _ => [] end).
Proof.
  intros Hr. unfold setattr. apply returns_bind, returns_point, returns_bind.
  eapply returns_point_root; [done|]. apply returns_bind.
  assert (Hfd : ∃ fd, match Fd r0 with
    | inl err => if errors_Is "os.ErrClosed" err then mret 0 else throw err
    | inr fd => mret fd end = (mret fd : pio Z)).
  { destruct (Fd r0) as [err|fd] eqn:Ef; [|eauto]. apply Fd_error in Ef as ->. simpl. eauto. }
  destruct Hfd as [fd ->]. apply returns_ret.
  destruct (if negb (String.eqb (target (this o)) "") then _ else _) as [fd' flags'].
  apply returns_map_err, returns_p_io, returns_call. by intros w [e|] _.
Qed.

Lemma mount_once_logs opts o r0 :
  root o.(this) = Some r0 → detached o.(this) = false →
  returns (mount_once opts) o (λ o' r, o'.(this) = o.(this) ∧ ∃ t,
    o'.(obj_io).(trace) = o.(obj_io).(trace) ++ t ∧
    tried_once (target o.(this)) opts.(MountAttributes) opts.(Shared) t ∧
    match r with
    | inr _ => t = mount_calls (target o.(this)) opts.(MountAttributes) opts.(Shared)
    | inl err => ∃ format args, err = Errorf format args
    end).
Proof.
  intros Hr Hd. unfold mount_once, tried_once, mount_calls. apply returns_bind, returns_point, returns_bind.
  eapply returns_mono; [|by apply (Source_returns o r0)]. intros ? ? (-> & src & ->).
  apply returns_bind, returns_map_err. eapply returns_mono; [|by apply (moveMount_logs _ o r0)].
  intros o1 [err|[]] [Hthis1 He1].
  { destruct He1 as (t & He1 & Ht). split; [done|]. exists t. split_and!; [done| |eauto].
    destruct Ht as [->| ->]; [left; apply prefix_nil|by right]. }
  apply returns_bind, returns_map_err. eapply returns_mono; [|apply (setattr_logs _ _ o1 r0); congruence].
  rewrite !Hthis1. intros o2 [err|[]] [Hthis2 He2].
  { split; [done|]. eexists. rewrite He2, He1, app_nil_r. split_and!; [done|left; apply prefix_cons, prefix_nil|eauto]. }
  assert (He2' : trace (obj_io o2) = trace (obj_io o) ++ [EvMount (MMove (target (this o)) true);
    attr_call (target (this o)) (set_bits opts.(MountAttributes))])
    by (rewrite He2, He1; by rewrite <- app_assoc).
  apply returns_bind.
  assert (Hshare : returns (if opts.(Shared) then map_err (λ e, Errorf "error making %q shared: %w"
      [Str (target (this o)); Wrapped e]) Share else mret ()) o2 (λ o' r, o'.(this) = o.(this) ∧
    o'.(obj_io).(trace) = o2.(obj_io).(trace) ++ match r with
      | inr _ => if opts.(Shared) then [attr_call (target (this o)) share_attr] else []
      | inl _ => [] end ∧ match r with inr _ => True | inl err => ∃ format args, err = Errorf format args end)).
  { destruct opts.(Shared); [|apply returns_ret; by rewrite app_nil_r].
    apply returns_map_err. unfold Share. apply returns_bind, returns_point. rewrite Hthis2, Hd.
    eapply returns_mono; [|apply (setattr_logs _ _ o2 r0); congruence]. rewrite Hthis2.
    intros o3 [err|[]] [Hthis3 He3]; eauto. }
  eapply returns_mono; [|exact Hshare]. clear Hshare. intros o3 [err|[]] (Hthis3 & He3 & Herr).
  { split; [done|]. eexists. rewrite He3, He2', app_nil_r. split_and!; [done| |done].
    left. by apply prefix_cons, prefix_cons, prefix_nil. }
  apply returns_bind, returns_try, returns_p_io. eapply returns_mono; [|apply hush_SetLabel].
  assert (Hend : ∀ e' : env W, trace e' = trace (obj_io o3) → trace e' = trace (obj_io o) ++
    EvMount (MMove (target (this o)) true) :: attr_call (target (this o)) (set_bits opts.(MountAttributes)) ::
      (if opts.(Shared) then [attr_call (target (this o)) share_attr] else []))
    by (intros e' ->; rewrite He3, He2'; by rewrite <- app_assoc).
  intros e' [err|[]] He'; simpl.
  - destruct (errors_Is "ENOTSUP" err); [apply returns_ret|apply returns_throw];
      (split; [done|]); eexists; split_and!; eauto.
  - apply returns_ret. split; [done|]. eexists; split_and!; eauto.
Qed.

(** An attempt that fails with a wrapped error is the last. *)
Lemma retry_wrapped (f : pio ()) isUnmount o (Q : obj W Point → error + () → Prop) :
  returns f o (λ o' r, match r with
    | inr _ => Q o' (inr ())
    | inl err => (∃ format args, err = Errorf format args) ∧ Q o' (inl (retry_Error [err] false))
    end) →
  returns (retry f isUnmount) o Q.
Proof.
  intros Hf. unfold retry, retry_ticks. cbn [Retry]. apply returns_bind, returns_bind, returns_try.
  eapply returns_mono; [|exact Hf]. intros o' [err|[]] H'; simpl.
  - destruct H' as [(format & args & ->) HQ]. apply returns_ret. by apply returns_throw.
  - apply returns_ret. by apply returns_ret.
Qed.

(** A release only closes the filesystem. *)
Lemma Release_returns force o r0 :
  root o.(this) = Some r0 → returns (Release force) o (λ o' r,
    o'.(obj_io).(trace) = o.(obj_io).(trace) ∧ ∃ r1, o'.(this) = (o.(this) <| root := Some r1 |>)).
Proof.
  intros Hr. unfold Release. apply returns_bind, returns_point.
  destruct (_ && _).
  { apply returns_ret. split; [done|]. exists r0. destruct o as [e []]; simpl in *. by subst. }
  apply returns_bind. eapply returns_point_root; [done|]. apply returns_bind, returns_p_io.
  eapply returns_mono; [|apply hush_root_Close]. intros e' [err|[r1 err]] He'; simpl.
  { split; [done|]. exists r0. destruct o as [e []]; simpl in *. by subst. }
  apply returns_bind, returns_modify. destruct err; simpl; [apply returns_throw|apply returns_ret]; eauto.
Qed.

Lemma IsMounted_returns (o : obj W Point) :
  returns IsMounted o (λ o' r, o'.(this) = o.(this) ∧ o'.(obj_io).(trace) = o.(obj_io).(trace)).
Proof.
  unfold IsMounted. apply returns_bind, returns_point, returns_bind, returns_p_io.
  eapply returns_mono; [|apply hush_query]. intros e' [err|[lines scanErr]] He'; simpl; [done|].
  destruct (existsb _ _); [by apply returns_ret|]. apply returns_bind.
  destruct scanErr; [by apply returns_throw|]. apply returns_ret. by apply returns_ret.
Qed.

Definition is_move (ev : event) : Prop := match ev with EvMount (MMove _ _) => True | _ => False end.
#[export] Instance is_move_dec ev : Decision (is_move ev).
Proof. unfold is_move. destruct ev; try apply _. destruct c; apply _. Defined.

(** What the log of a mount tells. *)
Definition mount_log (p : Point) (opts : Options) (t : list event) (ok : bool) : Prop :=
  let calls := mount_calls p.(target) opts.(MountAttributes) opts.(Shared) in
  if p.(detached) then t = []
  else tried_once p.(target) opts.(MountAttributes) opts.(Shared) t ∧ (ok = true → t = calls ∨ opts.(SkipIfMounted) = true ∧ t = []).

Lemma point_Mount_log opts o r0 :
  root o.(this) = Some r0 →
  returns (point_Mount opts) o (λ o' r,
    (∃ r1, o'.(this) = (o.(this) <| root := Some r1 |>)) ∧
    (o.(this).(detached) = true → r = inr ()) ∧
    ∃ t, o'.(obj_io).(trace) = o.(obj_io).(trace) ++ t ∧
      mount_log o.(this) opts t (match r with inr _ => true | inl _ => false end)).
Proof.
  intros Hr. unfold point_Mount. apply returns_defer.
  eapply (returns_mono _ _ (λ o' r, o'.(this) = o.(this) ∧ (o.(this).(detached) = true → r = inr ()) ∧
    ∃ t, o'.(obj_io).(trace) = o.(obj_io).(trace) ++ t ∧
      mount_log o.(this) opts t (match r with inr _ => true | inl _ => false end))).
  { intros o1 r (Hthis & Hdet & t & Ht & Hlog). eapply returns_mono; [|by apply (Release_returns _ _ r0); congruence].
    intros o2 _ (He2 & r1 & Hr1). rewrite Hr1, Hthis. split_and!; [eauto|done|]. exists t. by rewrite He2. }
  unfold mount_log. apply returns_bind, returns_point. destruct (detached (this o)) eqn:Hd.
  { apply returns_ret. split_and!; [done..|]. exists []. by rewrite app_nil_r. }
  apply returns_bind.
  assert (Hskip : returns (if opts.(SkipIfMounted) then IsMounted else mret false) o (λ o' r,
    o'.(this) = o.(this) ∧ o'.(obj_io).(trace) = o.(obj_io).(trace) ∧ (r = inr true → opts.(SkipIfMounted) = true))).
  { destruct opts.(SkipIfMounted); [|by apply returns_ret].
    eapply returns_mono; [|apply IsMounted_returns]. intros o' r [? ?]. auto. }
  eapply returns_mono; [|exact Hskip]. clear Hskip. intros o1 [err|skip] (Hthis1 & He1 & Hskip).
  { split_and!; [done..|]. exists []. rewrite app_nil_r. split_and!; [done|left; apply prefix_nil|done]. }
  destruct skip.
  { apply returns_ret. split_and!; [done..|]. exists []. rewrite app_nil_r.
    split_and!; [done|left; apply prefix_nil|]. intros _. right. auto. }
  apply retry_wrapped. eapply returns_mono; [|apply (mount_once_logs opts o1 r0); congruence].
  rewrite Hthis1, He1. intros o2 [err|[]] (Hthis2 & t & Ht & Hpre & Hend); rewrite Hthis2.
  - split; [done|]. split_and!; [done..|]. exists t. by split_and!.
  - split_and!; [done..|]. exists t. split_and!; [done..|]. auto.
Qed.
End mounting.

Section managers.
Context {W : Type} `{HK : Kernel W}.

Lemma returns_on_point {A} id p (c : prog (obj W Point) error A) (h : heap W) Q :
  h.(points) !! id = Some p →
  returns c {| obj_io := h.(heap_io); this := p |} (λ o r,
    Q {| heap_io := o.(obj_io); points := <[id := o.(this)]> h.(points); nextPoint := h.(nextPoint) |} r) →
  returns (on_point id c) h Q.
Proof.
  intros Hp (o & r & Hc & HQ). unfold returns, on_point, zoom. rewrite Hp. simpl. rewrite Hc. eauto.
Qed.

Lemma returns_h_io {A} (c : prog (env W) error A) (h : heap W) Q :
  returns c h.(heap_io) (λ e r, Q {| heap_io := e; points := h.(points); nextPoint := h.(nextPoint) |} r) →
  returns (h_io c) h Q.
Proof. intros HQ. unfold h_io. by apply returns_zoom. Qed.

Definition manager_options (m : Manager (W:=W)) : Options :=
  {| SkipIfMounted := m.(skipIfMounted); MountAttributes := m.(mountattr); Shared := m.(shared) |}.

(** The log of a mount by [m], and the point it makes. *)
Definition mounted_log (m : Manager (W:=W)) (t : list event) (ok : bool) : Prop :=
  let calls := mount_calls m.(mgrTarget) m.(mountattr) m.(shared) in
  if m.(mgrDetached) then t = []
  else tried_once m.(mgrTarget) m.(mountattr) m.(shared) t ∧ (ok = true → t = calls ∨ m.(skipIfMounted) = true ∧ t = []).
Definition point_of (m : Manager (W:=W)) (p : Point) : Prop :=
  p.(target) = m.(mgrTarget) ∧ p.(detached) = m.(mgrDetached) ∧ is_Some p.(root).

Lemma mounted_log_fail m ok : ok = false → mounted_log m [] ok.
Proof.
  unfold mounted_log. destruct (mgrDetached m); [done|]. intros ->. split; [left; apply prefix_nil|done].
Qed.

Lemma manager_Mount_log m fs h :
  m.(mgrFS) = Some fs →
  returns (manager_Mount m) h (λ h' r, ∃ t,
    h'.(heap_io).(trace) = h.(heap_io).(trace) ++ t ∧
    match r with
    | inl _ => mounted_log m t false ∧
        (h'.(points) = h.(points) ∨ ∃ p, h'.(points) = <[h.(nextPoint) := p]> h.(points))
    | inr (m', id) => mounted_log m t true ∧ m' = (m <| mgrPoint := Some id |>) ∧ id = h.(nextPoint) ∧
        ∃ p, h'.(points) = <[id := p]> h.(points) ∧ point_of m p
    end ∧ h.(nextPoint) ≤ h'.(nextPoint)).
Proof.
  intros Hfs. unfold manager_Mount. apply returns_bind.
  assert (Hdirs : returns (for_each (λ dir,
        if negb (String.prefix "/" dir) then throw (Errorf "dir %q is not absolute" [Str dir]) else
        map_err (λ e, Errorf "error creating mount point directory %q: %w" [Str dir; Wrapped e])
          (h_io (sys (MkdirAll dir 493)))) m.(extraDirs)) h (λ h' _,
     h'.(heap_io).(trace) = h.(heap_io).(trace) ∧ h'.(points) = h.(points) ∧ h'.(nextPoint) = h.(nextPoint))).
  { generalize (extraDirs m). intros l. revert h. induction l as [|dir l IH]; intros h; cbn [for_each];
      [by apply returns_ret|].
    apply returns_bind. destruct (negb _); [by apply returns_throw|].
    apply returns_map_err, returns_h_io. eapply returns_mono; [|apply hush_sys].
    intros e1 [err|[]] He1; [done|]. eapply returns_mono; [|apply IH]. intros h2 r (He2 & Hp2 & Hn2).
    simpl in *. by rewrite He2. }
  eapply returns_mono; [|exact Hdirs]. clear Hdirs. intros h1 [err|[]] (He1 & Hp1 & Hn1).
  { exists []. rewrite app_nil_r, Hp1, Hn1. split_and!; [done|by apply mounted_log_fail|auto|lia]. }
  rewrite Hfs. apply returns_bind. eapply returns_lift; [done|]. apply returns_bind, returns_h_io.
  eapply returns_mono; [|apply hush_OpenFS]. intros e2 [err|[r0 err]] He2; simpl.
  { exists []. rewrite app_nil_r, Hp1, Hn1, He2. split_and!; [done|by apply mounted_log_fail|auto|lia]. }
  apply returns_bind, returns_map_err. destruct err as [err|]; simpl; [apply returns_throw|apply returns_ret].
  { exists []. rewrite app_nil_r. simpl. rewrite Hp1, Hn1, He2. split_and!; [done|by apply mounted_log_fail|auto|lia]. }
  set (p0 := {| root := Some r0; keepOpen := _; detached := _; pointFstype := _; pointSource := _;
                target := _; selinuxLabel := _ |}).
  apply returns_bind. unfold alloc_point.
  apply returns_bind, returns_get, returns_bind, returns_modify, returns_ret. simpl. rewrite Hp1, Hn1.
  set (h2 := {| heap_io := e2; points := _; nextPoint := _ |}).
  apply returns_bind.
  assert (Hdir : returns (if negb m.(mgrDetached) then
         map_err (λ e, Errorf "failed to create mount target %s: %w" [Str m.(mgrTarget); Wrapped e])
           (h_io (sys (MkdirAll m.(mgrTarget) 493)))
       else mret ()) h2 (λ h' _, h'.(heap_io).(trace) = e2.(trace) ∧ h'.(points) = h2.(points) ∧
         h'.(nextPoint) = h2.(nextPoint))).
  { destruct (negb _); [|by apply returns_ret]. apply returns_map_err, returns_h_io.
    eapply returns_mono; [|apply hush_sys]. intros e' [err|[]] He'; done. }
  eapply returns_mono; [|exact Hdir]. clear Hdir. intros h3 [err|[]] (He3 & Hp3 & Hn3).
  { exists []. rewrite app_nil_r, He3, He2, He1, Hp3, Hn3. split_and!; [done|by apply mounted_log_fail|simpl; eauto|simpl; lia]. }
  apply returns_bind, returns_map_err. eapply (returns_on_point _ p0).
  { rewrite Hp3. simpl. by rewrite lookup_insert_eq. }
  eapply returns_mono; [|by apply (point_Mount_log _ _ r0)].
  intros o r ((r1 & Hr1) & Hdet & t & Ht & Hlog). simpl in Hr1, Ht.
  rewrite He3, He2, He1 in Ht. unfold mount_log in Hlog. simpl in Hlog. unfold mounted_log.
  rewrite Hp3, Hn3. simpl. rewrite insert_insert_eq.
  destruct r as [err|[]].
  - exists t. simpl. split_and!; [done|done|eauto|lia].
  - apply returns_ret. exists t. simpl. split_and!; [done|done|done|done| |lia].
    eexists. split; [done|]. rewrite Hr1. done.
Qed.
End managers.

(** C40: Mounting always returns, and is tried once: an error of an attempt is wrapped, so
    the retries and repairs for the error numbers of the kernel are never reached.  A
    detached mount changes nothing in the kernel, whatever attributes were asked for;
    another one moves the filesystem to its target and sets exactly the attributes of the
    options, or stops at the first error. *)
Theorem mount_tried_once {W} `{HK : Kernel W} (m : Manager (W:=W)) fs h :
  m.(mgrFS) = Some fs →
  ∃ h' r t, manager_Mount m h = Ok (h', r) ∧ h'.(heap_io).(trace) = h.(heap_io).(trace) ++ t ∧
    EvMount MRepair ∉ t ∧
    (length (filter is_move t) ≤ 1)%nat ∧
    (m.(mgrDetached) = true → t = []) ∧
    (m.(mgrDetached) = false → tried_once m.(mgrTarget) m.(mountattr) m.(shared) t) ∧
    (∀ m' id, r = inr (m', id) →
       m'.(mgrPoint) = Some id ∧ (∃ p, h'.(points) !! id = Some p ∧ point_of m p) ∧
       (m.(mgrDetached) = false → m.(skipIfMounted) = false →
        t = mount_calls m.(mgrTarget) m.(mountattr) m.(shared))).
Proof.
  intros Hfs. destruct (manager_Mount_log m fs h Hfs) as (h' & r & Hrun & t & Ht & Hr & _).
  exists h', r, t. split_and!; [done|done|..].
  all: assert (mounted_log m t (match r with inr _ => true | inl _ => false end)) as Hlog
    by (destruct r as [|[m' id]]; tauto); unfold mounted_log in Hlog.
  all: assert (Hpre : tried_once m.(mgrTarget) m.(mountattr) m.(shared) t)
    by (destruct (mgrDetached m); [subst; left; apply prefix_nil|tauto]).
  - intros Hin. destruct Hpre as [[l Hl]| ->]; [|set_solver].
    assert (EvMount MRepair ∈ mount_calls (mgrTarget m) (mountattr m) (shared m)) as H
      by (rewrite Hl; apply elem_of_app; auto).
    unfold mount_calls, attr_call in H. destruct (shared m); set_solver.
  - destruct Hpre as [[l Hl]| ->]; [|done]. apply (f_equal (λ t, length (filter is_move t))) in Hl.
    rewrite filter_app, length_app in Hl. unfold mount_calls, attr_call in Hl.
    rewrite filter_cons_True in Hl by done. rewrite filter_cons_False in Hl by tauto.
    destruct (shared m); [rewrite filter_cons_False in Hl by tauto|]; rewrite filter_nil in Hl; simpl in Hl; lia.
  - by intros Hd; rewrite Hd in Hlog.
  - done.
  - intros m' id ->. destruct Hr as (_ & -> & -> & p & Hp & Hof). split_and!; [done| |].
    + exists p. rewrite Hp. by rewrite lookup_insert_eq.
    + intros Hd Hskip. rewrite Hd in Hlog. destruct Hlog as [_ Hlog]. destruct (Hlog eq_refl) as [?|[? _]]; [done|].
      congruence.
Qed.
