(* ===== verification/Mounts.v ===== *)
(** * The controller of the mounts

    [controllers/block/mount.go]: mounts what the mount requests ask for, and unmounts it
    when the request, the volume or the parent goes.  One pass of its [Run] loop is [Run];
    logging is left out. *)

From S2P Require Import Prelude Errors Block Devices Volumes MountResources MountRequests FileSystems MountPoint.

(** An active mount: the point and the manager that unmounts it are pointers that may be
    nil. *)
Record mountContext (W : Type) := {
  ctxPoint : option Z; readOnly : bool; disableAccessTime : bool; secure : bool;
  unmounter : option (Manager (W:=W))
}.
Arguments ctxPoint {W} _.
Arguments readOnly {W} _.
Arguments disableAccessTime {W} _.
Arguments secure {W} _.
Arguments unmounter {W} _.

Record MountController (W : Type) := { ctrlHeap : heap W; activeMounts : gmap string (mountContext W) }.
Arguments ctrlHeap {W} _.
Arguments activeMounts {W} _.

Definition Name : string := "block.MountController".

Section controller.
Context {W : Type} `{HC : Cosi W} `{HK : Kernel W}.
Notation io := (prog (env W) error).
Notation hio := (prog (heap W) error).
Notation cio := (prog (MountController W) error).

Definition on_heap {A} (c : hio A) : cio A :=
  zoom ctrlHeap (λ h ctrl, {| ctrlHeap := h; activeMounts := ctrl.(activeMounts) |}) c.
Definition c_io {A} (c : io A) : cio A := on_heap (h_io c).
Definition active (id : string) : cio (option (mountContext W)) :=
  ctrl ← get; mret (ctrl.(activeMounts) !! id).
Definition set_active (id : string) (mc : mountContext W) : cio () :=
  modify (λ ctrl, {| ctrlHeap := ctrl.(ctrlHeap); activeMounts := <[id := mc]> ctrl.(activeMounts) |}).
Definition delete_active (id : string) : cio () :=
  modify (λ ctrl, {| ctrlHeap := ctrl.(ctrlHeap); activeMounts := delete id ctrl.(activeMounts) |}).
Definition noMountContext : mountContext W :=
  {| ctxPoint := None; readOnly := false; disableAccessTime := false; secure := false; unmounter := None |}.

(** A method of the point of a mount. *)
Definition on_ctx_point {A} (mc : mountContext W) (c : prog (obj W Point) error A) : cio A :=
  match mc.(ctxPoint) with None => lift (Panic NilDereference) | Some id => on_heap (on_point id c) end.

(** ** Targets *)

Definition updateTargetSettings (targetPath : string) (spec : MountSpec) : io () :=
  _ ← wrap_id "failed to chmod %q: %w" targetPath (sys (Chmod targetPath spec.(FileMode)));
  st ← wrap_id "failed to stat %q: %w" targetPath (query (Stat targetPath) silent);
  _ ← (if negb (st.(statUid) =? u32 spec.(UID)) || negb (st.(statGid) =? u32 spec.(GID)) then
         wrap_id "failed to chown %q: %w" targetPath
           (if spec.(RecursiveRelabel) then ChownRecursive targetPath (u32 spec.(UID)) (u32 spec.(GID))
            else sys (Chown targetPath spec.(UID) spec.(GID)))
       else mret ());
  currentLabel ← wrap_id "failed to get current label %q: %w" targetPath (GetLabel targetPath);
  if String.eqb currentLabel spec.(SelinuxLabel) then mret () else
  r ← try (if spec.(RecursiveRelabel) then SetLabelRecursive targetPath spec.(SelinuxLabel) []
           else SetLabel targetPath spec.(SelinuxLabel) []);
  match r with
  | inl err => if errors_Is "ENOTSUP" err then mret () else
      throw (Errorf "error setting label on %q: %w" [Str currentLabel; Wrapped err])
  | inr _ => mret ()
  end.

(** [os.Mkdir], unless the directory is there. *)
Definition make_directory (path : string) (mode : Z) : io () :=
  r ← try (sys (Mkdir path mode));
  match r with
  | inr _ => mret ()
  | inl err =>
      if negb (os_IsExist err) then throw (Errorf "failed to create target path: %w" [Wrapped err]) else
      st ← wrapf "failed to stat target path: %w" (query (Stat path) silent);
      if negb (IsDir st) then throw (Errorf "target path %q is not a directory" [Str path]) else mret ()
  end.

(** [manager.Unmount()] with its error dropped, when the settings of a new mount fail. *)
Definition settle (m : Manager) (id targetPath : string) (spec : MountSpec) : cio () :=
  r ← try (c_io (updateTargetSettings targetPath spec));
  match r with
  | inr _ => mret ()
  | inl err =>
      _ ← try (on_heap (manager_Unmount m));
      throw (Errorf "failed to update target settings %q: %w" [Str id; Wrapped err])
  end.

(** ** Directories, bind mounts and symlinks *)

Definition handleBindMountOperation (rootPath source bindTarget : string) (mr : MountRequest)
    (vs : VolumeStatus) : cio () :=
  mc ← active mr.(resID);
  match mc with
  | Some _ => mret ()
  | None =>
      let mountSource := Join [rootPath; source] in
      let mountTarget := Join [rootPath; bindTarget] in
      let spec := vs.(statusSpec).(mountSpec) in
      _ ← c_io (make_directory mountTarget spec.(FileMode));
      '(m, point) ← wrap_id "failed to mount %q: %w" mr.(resID)
        (on_heap (manager_Mount (NewManager
           [WithTarget mountTarget; WithOpentreeFromPath mountSource; WithSelinuxLabel spec.(SelinuxLabel)])));
      _ ← (if negb mr.(resSpec).(mrReadOnly) && negb mr.(resSpec).(mrDetached)
           then settle m mr.(resID) mountTarget spec else mret ());
      set_active mr.(resID)
        {| ctxPoint := Some point; readOnly := mr.(resSpec).(mrReadOnly); disableAccessTime := false;
           secure := false; unmounter := Some m |}
  end.

Definition handleDirectoryMountOperation (rootPath target : string) (mr : MountRequest) (vs : VolumeStatus) : cio () :=
  let targetPath := Join [rootPath; target] in
  let spec := vs.(statusSpec).(mountSpec) in
  _ ← c_io (make_directory targetPath spec.(FileMode));
  _ ← match spec.(BindTarget) with
      | None => mret ()
      | Some bindTarget =>
          map_err (λ _, Errorf "target path %q is not a directory" [Str targetPath])
            (handleBindMountOperation rootPath target bindTarget mr vs)
      end;
  c_io (updateTargetSettings targetPath spec).

(** The contents of a directory that cannot be removed are removed one by one; what fails
    stays. *)
Definition remove_entries (targetPath : string) (entries : list string) : io () :=
  for_each (λ entry, _ ← try (sys (RemoveAll (Join [targetPath; entry]))); mret ()) entries.

Definition handleSymlinkMountOperation (rootPath target : string) (mr : MountRequest) (vs : VolumeStatus) : cio () :=
  mc ← active mr.(resID);
  match mc with
  | Some _ => mret ()
  | None =>
      let targetPath := Join [rootPath; target] in
      let link := vs.(statusSpec).(SymlinkSpec).(SymlinkTargetPath) in
      let create := wrap_id "failed to create symlink %q: %w" targetPath (c_io (sys (os_Symlink link targetPath))) in
      r ← try (c_io (query (Lstat targetPath) silent));
      match r with
      | inl err =>
          if negb (os_IsNotExist err) then throw (Errorf "failed to stat target path: %w" [Wrapped err]) else
          _ ← create; set_active mr.(resID) noMountContext
      | inr st =>
          same ← (if negb (Z.land st.(Mode) ModeSymlink =? 0) then
                    symlinkTarget ← wrapf "failed to read symlink target: %w" (c_io (query (Readlink targetPath) silent));
                    mret (String.eqb symlinkTarget link)
                  else mret false);
          if (same : bool) then mret () else
          if negb vs.(statusSpec).(SymlinkSpec).(Force) then
            throw (Errorf "target path %q is not a symlink to %q" [Str targetPath; Str link])
          else
          r ← try (c_io (sys (RemoveAll targetPath)));
          match r with
          | inl err =>
              if negb (IsDir st) then
                throw (Errorf "failed to remove target path, and target is not a directory %s: %w"
                         [Int st.(Mode); Wrapped err])
              else
              entries ← wrapf "failed to read target path: %w" (c_io (query (ReadDir targetPath) silent));
              _ ← c_io (remove_entries targetPath entries);
              set_active mr.(resID) noMountContext
          | inr _ => _ ← create; set_active mr.(resID) noMountContext
          end
      end
  end.

(** ** Disks, overlays and swap *)

Definition FSParameterTypeStringValue : Z := 0.
Definition FSParameterTypeBooleanValue : Z := 1.
Definition FSParameterTypeBinaryValue : Z := 2.

Definition parameter_option (param : ParameterSpec) : list FsOption :=
  if param.(paramType) =? FSParameterTypeBinaryValue then
    match param.(paramBinary) with None => [] | Some b => [WithBinaryParameters param.(paramName) b] end
  else if param.(paramType) =? FSParameterTypeStringValue then
    match param.(paramString) with None => [] | Some s => [WithStringParameter param.(paramName) s] end
  else if param.(paramType) =? FSParameterTypeBooleanValue then [WithBoolParameter param.(paramName)]
  else [].

Definition when {A} (b : bool) (x : A) : list A := if b then [x] else [].

Definition disk_manager (source target : string) (fs : FilesystemType) (mr : MountRequest) (vs : VolumeStatus)
    : Manager (W:=W) :=
  let spec := vs.(statusSpec).(mountSpec) in
  let fsOpts := [WithSource source; WithProjectQuota spec.(ProjectQuotaSupport)] ++
                flat_map parameter_option spec.(Parameters) in
  NewManager ([WithTarget target; WithFsopen (FilesystemType_String fs) fsOpts; WithSelinuxLabel spec.(SelinuxLabel)] ++
    when mr.(resSpec).(mrDisableAccessTime) WithDisableAccessTime ++
    when mr.(resSpec).(mrSecure) WithSecure ++
    when mr.(resSpec).(mrReadOnly) WithReadOnly ++
    when mr.(resSpec).(mrDetached) WithDetached).

(** The mount that is not there yet. *)
Definition mount_disk (source target : string) (fs : FilesystemType) (mr : MountRequest) (vs : VolumeStatus)
    : cio (mountContext W) :=
  '(m, point) ← wrap_id "failed to mount %q: %w" mr.(resID)
    (on_heap (manager_Mount (disk_manager source target fs mr vs)));
  _ ← (if negb mr.(resSpec).(mrReadOnly) && negb mr.(resSpec).(mrDetached)
       then settle m mr.(resID) target vs.(statusSpec).(mountSpec) else mret ());
  let mc := {| ctxPoint := Some point; readOnly := mr.(resSpec).(mrReadOnly);
               disableAccessTime := mr.(resSpec).(mrDisableAccessTime); secure := mr.(resSpec).(mrSecure);
               unmounter := Some m |} in
  _ ← set_active mr.(resID) mc;
  mret mc.

(** Change an attribute of an active mount that differs from the request. *)
Definition update_attribute (id format : string) (mc : mountContext W) (differs : bool)
    (change : prog (obj W Point) error ()) (mc' : mountContext W) : cio (mountContext W) :=
  if differs then
    _ ← wrap_id format id (on_ctx_point mc change);
    _ ← set_active id mc';
    mret mc'
  else mret mc.

(** The three changes of an active mount. *)
Definition update_disk (mr : MountRequest) (mc : mountContext W) : cio () :=
  let id := mr.(resID) in
  let req := mr.(resSpec) in
  mc ← update_attribute id "failed to remount %q: %w" mc (negb (eqb mc.(readOnly) req.(mrReadOnly)))
         (if req.(mrReadOnly) then RemountReadOnly else RemountReadWrite)
         {| ctxPoint := mc.(ctxPoint); readOnly := req.(mrReadOnly);
            disableAccessTime := mc.(disableAccessTime); secure := mc.(secure); unmounter := mc.(unmounter) |};
  mc ← update_attribute id "failed to update disableAccessTime for %q: %w" mc
         (negb (eqb mc.(disableAccessTime) req.(mrDisableAccessTime)))
         (SetDisableAccessTime req.(mrDisableAccessTime))
         {| ctxPoint := mc.(ctxPoint); readOnly := mc.(readOnly);
            disableAccessTime := req.(mrDisableAccessTime); secure := mc.(secure); unmounter := mc.(unmounter) |};
  _ ← update_attribute id "failed to update secure for %q: %w" mc
         (negb (eqb mc.(secure) req.(mrSecure)))
         (SetSecure req.(mrSecure))
         {| ctxPoint := mc.(ctxPoint); readOnly := mc.(readOnly);
            disableAccessTime := mc.(disableAccessTime); secure := req.(mrSecure); unmounter := mc.(unmounter) |};
  mret ().

Definition handleDiskMountOperation (source target : string) (fs : FilesystemType) (mr : MountRequest)
    (vs : VolumeStatus) : cio () :=
  mc ← active mr.(resID);
  mc ← match mc with Some mc => mret mc | None => mount_disk source target fs mr vs end;
  update_disk mr mc.

Definition EphemeralPartitionLabel : string := "EPHEMERAL".

Definition handleOverlayMountOperation (target : string) (mr : MountRequest) (vs : VolumeStatus) : cio () :=
  mc ← active mr.(resID);
  match mc with
  | Some _ => mret ()
  | None =>
      let parentID := vs.(statusSpec).(statusParentID) in
      if negb (String.eqb parentID EphemeralPartitionLabel) then
        throw (Errorf "overlay mount is not supported for %q" [Str parentID]) else
      '(m, point) ← wrap_id "failed to mount %q: %w" mr.(resID)
        (on_heap (manager_Mount (NewVarOverlay [target] target
           [WithSelinuxLabel vs.(statusSpec).(mountSpec).(SelinuxLabel)])));
      _ ← settle m mr.(resID) target vs.(statusSpec).(mountSpec);
      set_active mr.(resID)
        {| ctxPoint := Some point; readOnly := false; disableAccessTime := false; secure := false;
           unmounter := Some m |}
  end.

Definition handleSwapMountOperation (source : string) (mr : MountRequest) : cio () :=
  mc ← active mr.(resID);
  match mc with
  | Some _ => mret ()
  | None =>
      _ ← wrap_id "failed to enable swap on %q: %w" source (c_io (sys (swap_On source)));
      point ← on_heap (alloc_point (NewPoint source "" "swap"));
      set_active mr.(resID)
        {| ctxPoint := Some point; readOnly := false; disableAccessTime := false; secure := false;
           unmounter := None |}
  end.

Definition handleMountOperation (rootPath source target : string) (fs : FilesystemType) (mr : MountRequest)
    (vs : VolumeStatus) : cio () :=
  match vs.(statusSpec).(statusType) with
  | VolumeTypeDirectory => handleDirectoryMountOperation rootPath target mr vs
  | VolumeTypeOverlay => handleOverlayMountOperation (Join [rootPath; target]) mr vs
  | VolumeTypeSymlink => handleSymlinkMountOperation rootPath target mr vs
  | VolumeTypeTmpfs => throw (Errorf "not implemented yet" [])
  | VolumeTypeExternal => handleDiskMountOperation source (Join [rootPath; target]) fs mr vs
  | VolumeTypeDisk | VolumeTypePartition =>
      if bool_decide (fs = FilesystemTypeSwap) then handleSwapMountOperation source mr
      else handleDiskMountOperation source (Join [rootPath; target]) fs mr vs
  end.

(** ** Unmounting *)

(** [handleDiskUnmountOperation] and [handleDirectoryUnmountOperation]: a nil unmounter
    panics. *)
Definition handleDiskUnmountOperation (mr : MountRequest) : cio () :=
  mc ← active mr.(resID);
  match mc with
  | None => mret ()
  | Some mc =>
      m ← lift (match mc.(unmounter) with Some m => Ok m | None => Panic NilDereference end);
      _ ← wrap_id "failed to unmount %q: %w" mr.(resID) (on_heap (manager_Unmount m));
      delete_active mr.(resID)
  end.
Definition handleDirectoryUnmountOperation (mr : MountRequest) : cio () := handleDiskUnmountOperation mr.
Definition handleSymlinkUmountOperation (mr : MountRequest) : cio () := delete_active mr.(resID).

Definition handleSwapUmountOperation (mr : MountRequest) : cio () :=
  mc ← active mr.(resID);
  match mc with
  | None => mret ()
  | Some mc =>
      source ← on_ctx_point mc Source;
      _ ← wrap_id "failed to disable swap on %q: %w" source (c_io (sys (swap_Off source)));
      delete_active mr.(resID)
  end.

Definition handleUnmountOperation (mr : MountRequest) (vs : VolumeStatus) : cio () :=
  match vs.(statusSpec).(statusType) with
  | VolumeTypeDirectory => handleDirectoryUnmountOperation mr
  | VolumeTypeTmpfs => throw (Errorf "not implemented yet" [])
  | VolumeTypeExternal => handleDiskUnmountOperation mr
  | VolumeTypeDisk | VolumeTypePartition | VolumeTypeOverlay =>
      if bool_decide (vs.(statusSpec).(Filesystem) = FilesystemTypeSwap) then handleSwapUmountOperation mr
      else handleDiskUnmountOperation mr
  | VolumeTypeSymlink => handleSymlinkUmountOperation mr
  end.

(** Whether the status of the mount is gone. *)
Definition tearDownMountStatus (id : string) : io bool :=
  r ← try (MTear (MountStatusOf id));
  match r with
  | inl err =>
      if cosi_IsNotFound err then _ ← run (λ w, w) [EvMount (MAbsent (MountStatusOf id))]; mret true
      else throw (Errorf "failed to teardown mount status %q: %w" [Str id; Wrapped err])
  | inr okToDestroy =>
      if negb okToDestroy then mret false else
      _ ← wrap_id "failed to destroy mount status %q: %w" id (MKill (MountStatusOf id));
      mret true
  end.

(** ** One mount request *)

Definition not_ready (vs : option VolumeStatus) : bool :=
  match vs with None => true | Some vs => negb (volume_ready vs) end.
Definition in_phase {A} (p : resource_phase) (r : option (Resource A)) : bool :=
  match r with None => false | Some r => bool_decide (r.(resPhase) = p) end.
Definition parentFinalizerName (mr : MountRequest) : string := (Name +:+ "-" +:+ mr.(resID))%string.

(** [if res.Metadata().Finalizers().Has(fin) { r.RemoveFinalizer(...) }], and the opposite. *)
Definition drop (format id : string) (r : mount_resource) (finalizers : list string) (fin : string) : io () :=
  if bool_decide (fin ∈ finalizers) then wrap_id format id (MRemove r fin) else mret ().
Definition hold (format id : string) (r : mount_resource) (finalizers : list string) (fin : string) : io () :=
  if bool_decide (fin ∈ finalizers) then mret () else wrap_id format id (MAdd r fin).

Definition drop_all (mr : MountRequest) (vs : option VolumeStatus) (parent : option MountStatus) : cio () :=
  _ ← match vs with
      | Some vs => c_io (drop "failed to remove finalizer from volume status %q: %w" vs.(statusID)
                           (VolumeStatusOf vs.(statusID)) vs.(statusFinalizers) Name)
      | None => mret ()
      end;
  _ ← match parent with
      | Some parent => c_io (drop "failed to remove finalizer from parent mount status %q: %w" parent.(resID)
                               (MountStatusOf parent.(resID)) parent.(resFinalizers) (parentFinalizerName mr))
      | None => mret ()
      end;
  c_io (drop "failed to remove finalizer from mount request %q: %w" mr.(resID) (MountRequestOf mr.(resID))
              mr.(resFinalizers) Name).

(** The steps that take the mount down: whether the turn goes on. *)
Definition take_down (mr : MountRequest) (vs : option VolumeStatus) (parent : option MountStatus) : cio bool :=
  let id := mr.(resID) in
  mountStatusTornDown ← wrap_id "error tearing down mount status %q: %w" id (c_io (tearDownMountStatus id));
  if negb mountStatusTornDown then mret false else
  _ ← match vs with Some vs => handleUnmountOperation mr vs | None => mret () end;
  _ ← drop_all mr vs parent;
  mret true.

Definition mount_status_spec (mr : MountRequest) (vs : VolumeStatus) (rootPath : string)
    (mc : option (mountContext W)) : MountStatusSpec :=
  let target := Join [rootPath; vs.(statusSpec).(mountSpec).(TargetPath)] in
  {| msSpec := mr.(resSpec); msSource := vs.(statusSpec).(MountLocation); msTarget := target;
     msFilesystem := vs.(statusSpec).(Filesystem);
     msEncryptionProvider := vs.(statusSpec).(EncryptionProvider);
     msReadOnly := mr.(resSpec).(mrReadOnly);
     msProjectQuotaSupport := vs.(statusSpec).(mountSpec).(ProjectQuotaSupport);
     msDetached := mr.(resSpec).(mrDetached);
     msRoot := match mc with
               | Some {| ctxPoint := Some point |} => PointRoot point
               | _ => OSRoot target
               end |}.

(** The finalizers of a mount; the result are the root path and the volume, which is there,
    as is the parent if one is named. *)
Definition hold_all (mr : MountRequest) (vs : option VolumeStatus) (parent : option MountStatus)
    : cio (string * VolumeStatus) :=
  let id := mr.(resID) in
  _ ← c_io (hold "failed to add finalizer to mount request %q: %w" id (MountRequestOf id) mr.(resFinalizers) Name);
  rootPath ←
    (if negb (String.eqb mr.(resSpec).(ParentMountID) "") then
       parent ← lift (match parent with Some p => Ok p | None => Panic NilDereference end);
       _ ← (if bool_decide (parent.(resPhase) = PhaseRunning) then
              c_io (hold "failed to add finalizer to parent mount status %q: %w" parent.(resID)
                      (MountStatusOf parent.(resID)) parent.(resFinalizers) (parentFinalizerName mr))
            else mret ());
       mret parent.(resSpec).(msTarget)
     else mret "/"%string);
  vs ← lift (match vs with Some vs => Ok vs | None => Panic NilDereference end);
  _ ← c_io (hold "failed to add finalizer to volume status %q: %w" vs.(statusID)
              (VolumeStatusOf vs.(statusID)) vs.(statusFinalizers) Name);
  mret (rootPath, vs).

Definition perform_mount (mr : MountRequest) (vs : option VolumeStatus) (parent : option MountStatus) : cio () :=
  let id := mr.(resID) in
  '(rootPath, vs) ← hold_all mr vs parent;
  _ ← handleMountOperation rootPath vs.(statusSpec).(MountLocation) vs.(statusSpec).(mountSpec).(TargetPath)
        vs.(statusSpec).(Filesystem) mr vs;
  mc ← active id;
  let spec := mount_status_spec mr vs rootPath mc in
  wrap_id "failed to create mount status %q: %w" id
    (c_io (call (cosi_ModifyMountStatus id (λ _, spec)) (λ _, [EvMount (MPutStatus id spec)]))).

(** When the mount must go, and when there may be one. *)
Definition must_take_down (mr : MountRequest) (vs : option VolumeStatus) (mountStatus parent : option MountStatus) : bool :=
  let mountHasParent := negb (String.eqb mr.(resSpec).(ParentMountID) "") in
  not_ready vs || bool_decide (mr.(resPhase) = PhaseTearingDown) ||
  in_phase PhaseTearingDown mountStatus || (mountHasParent && in_phase PhaseTearingDown parent).
Definition may_mount (mr : MountRequest) (vs : option VolumeStatus) (parent : option MountStatus) : bool :=
  let mountHasParent := negb (String.eqb mr.(resSpec).(ParentMountID) "") in
  negb (not_ready vs || bool_decide (mr.(resPhase) = PhaseTearingDown)) &&
  (negb mountHasParent || in_phase PhaseRunning parent).

Definition process_request (volumeStatusMap : gmap string VolumeStatus) (mountStatusMap : gmap string MountStatus)
    (mr : MountRequest) : cio () :=
  let vs := volumeStatusMap !! mr.(resSpec).(mrVolumeID) in
  let mountStatus := mountStatusMap !! mr.(resID) in
  let parent := mountStatusMap !! mr.(resSpec).(ParentMountID) in
  goes_on ← (if must_take_down mr vs mountStatus parent then take_down mr vs parent else mret true);
  if goes_on && may_mount mr vs parent then perform_mount mr vs parent else mret ().

Definition process_requests (volumeStatuses : list VolumeStatus) (mountStatuses : list MountStatus)
    (mountRequests : list MountRequest) : cio () :=
  for_each (process_request (ToMap statusID volumeStatuses) (ToMap resID mountStatuses)) mountRequests.

Definition Run : cio () :=
  volumeStatuses ← wrapf "failed to read volume statuses: %w" (c_io (query cosi_ListVolumeStatuses silent));
  mountStatuses ← wrapf "failed to read mount statuses: %w" (c_io (query cosi_ListMountStatuses silent));
  mountRequests ← wrapf "failed to read mount requests: %w" (c_io (query cosi_ListMountRequests silent));
  process_requests volumeStatuses mountStatuses mountRequests.
End controller.
