(* ===== verification/MountSafety.v ===== *)
(** * Mounts are released after they are gone

    What a turn of the mount controller does, for all answers of the kernel and of the
    resources: the finalizers that keep the volume, the parent and the request are dropped
    only after the status of the mount is gone and the mount with it, and a mount is made
    only under these finalizers; and the attributes of a disk mount follow its request. *)

From S2P Require Import Prelude Errors Block Devices Volumes VolumeSafety MountResources MountRequests FileSystems MountPoint Mounts.

(** ** Only calls on the kernel *)

Definition kernel_event (ev : event) : Prop :=
  match ev with EvMount (MMove _ _ | MSetattr _ _ _ | MRepair | MUmount _) => True | _ => False end.

Definition obj_log {W A} (o : obj W A) : list event := o.(obj_io).(trace).
Definition heap_log {W} (h : heap W) : list event := h.(heap_io).(trace).
Definition ctrl_log {W} (c : MountController W) : list event := heap_log c.(ctrlHeap).

Section logs.
Context {W : Type} `{HC : Cosi W} `{HK : Kernel W}.
Notation io := (prog (env W) error).
Notation pio := (prog (obj W Point) error).
Notation hio := (prog (heap W) error).
Notation cio := (prog (MountController W) error).

Lemma logs_only_zoom {S T A} (logS : S → list event) (logT : T → list event) P get_ put (c : prog T error A) :
  (∀ s, logS s = logT (get_ s)) → (∀ t s, logS (put t s) = logT t) →
  logs_only logT P c → logs_only logS P (zoom get_ put c).
Proof.
  intros Hget Hput Hc s. apply ensures_zoom. eapply ensures_mono; [|apply Hc].
  intros t r (l & Hl & HP). exists l. by rewrite Hput, Hget.
Qed.

Lemma emits_hush {A} P (c : io A) : hush c → logs_only trace P c.
Proof.
  intros Hc e e' r Hr. destruct (Hc e) as (e1 & r1 & Hr1 & He). rewrite Hr in Hr1. simplify_eq.
  exists []. by rewrite app_nil_r.
Qed.
Lemma logs_only_lift {S A} (log : S → list event) P (c : outcome Empty_set A) : logs_only log P (lift c).
Proof. apply logs_only_nothing. intros s. by apply ensures_lift. Qed.
Lemma logs_only_get {S} (log : S → list event) P : logs_only log P (get : prog S error S).
Proof. apply logs_only_nothing. intros s. by apply ensures_get. Qed.
Lemma logs_only_modify {S} (log : S → list event) P f :
  (∀ s, log (f s) = log s) → logs_only log P (modify f : prog S error ()).
Proof. intros Hf. apply logs_only_nothing. intros s. by apply ensures_modify. Qed.
Lemma logs_only_check {S} (log : S → list event) P err : logs_only log P (check err : prog S error ()).
Proof. destruct err; [apply logs_only_throw|apply logs_only_ret]. Qed.

Lemma emits_p_io {A} (P : event → Prop) (c : io A) : logs_only trace P c → logs_only obj_log P (p_io c : pio A).
Proof. by apply logs_only_zoom. Qed.
Lemma emits_h_io {A} (P : event → Prop) (c : io A) : logs_only trace P c → logs_only heap_log P (h_io c : hio A).
Proof. by apply logs_only_zoom. Qed.
Lemma emits_on_heap {A} (P : event → Prop) (c : hio A) : logs_only heap_log P c → logs_only ctrl_log P (on_heap c : cio A).
Proof. by apply logs_only_zoom. Qed.
Lemma emits_on_point {A} (P : event → Prop) id (c : pio A) :
  logs_only obj_log P c → logs_only heap_log P (on_point id c : hio A).
Proof.
  intros Hc h h' r. unfold on_point. destruct (points h !! id) as [p|]; [|done]. revert h' r.
  apply ensures_zoom. eapply ensures_mono; [|apply Hc]. intros o r (t & Ht & HP). by exists t.
Qed.
End logs.

Create HintDb logs.
#[export] Hint Resolve logs_only_ret logs_only_throw logs_only_lift logs_only_get logs_only_check : logs.

(** Prove that a program logs only some calls by its structure. *)
Ltac logs_tac :=
  unfold wrapf, wrap_id;
  repeat first
    [ progress intros
    | solve [eauto 2 with logs]
    | apply logs_only_modify; done
    | apply emits_hush; solve [hush_tac]
    | apply emits_call; intros []; by repeat constructor
    | apply emits_query; intros; by repeat constructor
    | apply emits_bind | apply emits_defer | apply emits_map_err | apply emits_try | apply emits_for_each
    | apply emits_p_io | apply emits_h_io | apply emits_on_heap | apply emits_on_point
    | case_match ].

Section kernel_logs.
Context {W : Type} `{HC : Cosi W} `{HK : Kernel W}.
Notation io := (prog (env W) error).
Notation pio := (prog (obj W Point) error).
Notation hio := (prog (heap W) error).
Notation cio := (prog (MountController W) error).
Notation kernel_only := (logs_only (obj_log (W:=W) (A:=Point)) kernel_event).

Lemma kernel_point : kernel_only point.
Proof. unfold point. logs_tac. Qed.
Lemma kernel_point_root : kernel_only point_root.
Proof. unfold point_root, point. logs_tac. Qed.
#[local] Hint Resolve kernel_point kernel_point_root : logs.
Lemma kernel_Source : kernel_only Source.
Proof. unfold Source. logs_tac. Qed.
Lemma kernel_Release force : kernel_only (Release force).
Proof. unfold Release, set_root. logs_tac. Qed.
Lemma kernel_IsMounted : kernel_only IsMounted.
Proof. unfold IsMounted. logs_tac. Qed.
#[local] Hint Resolve kernel_Source kernel_Release kernel_IsMounted : logs.
Lemma kernel_moveMount target : kernel_only (moveMount target).
Proof. unfold moveMount. logs_tac. Qed.
Lemma kernel_setattr attr flags : kernel_only (setattr attr flags).
Proof. unfold setattr. logs_tac. Qed.
#[local] Hint Resolve kernel_moveMount kernel_setattr : logs.
Lemma kernel_setattr_attached attr : kernel_only (setattr_attached attr).
Proof. unfold setattr_attached. logs_tac. Qed.
Lemma kernel_Share : kernel_only Share.
Proof. unfold Share. logs_tac. Qed.
#[local] Hint Resolve kernel_setattr_attached kernel_Share : logs.
Lemma kernel_repair_then err : kernel_only (repair_then err).
Proof.
  unfold repair_then, RepairFS, FS_Repair, Ext4Repair, XFSRepair. logs_tac.
Qed.
#[local] Hint Resolve kernel_repair_then : logs.
Lemma kernel_retry f isUnmount : kernel_only f → kernel_only (retry f isUnmount).
Proof.
  intros Hf. unfold retry. generalize retry_ticks (@nil error). intros n. induction n as [|n IH]; intros errs;
    cbn [Retry]; unfold judge; logs_tac.
Qed.
#[local] Opaque retry.
Lemma kernel_mount_once opts : kernel_only (mount_once opts).
Proof. unfold mount_once. logs_tac. Qed.
#[local] Hint Resolve kernel_mount_once : logs.
Lemma kernel_point_Mount opts : kernel_only (point_Mount opts).
Proof. unfold point_Mount. logs_tac. by apply kernel_retry, kernel_mount_once. Qed.
Lemma kernel_SafeUnmount target : logs_only trace kernel_event (SafeUnmount target : io ()).
Proof.
  assert (Hloop : ∀ flags, logs_only trace kernel_event (unmountLoop target flags : io _)).
  { intros flags. unfold unmountLoop, trySyncMount. apply emits_bind; [logs_tac|]. intros _ e.
    apply ensures_ask. intros w [[err|]|] _; simpl; eexists; (split; [done|]); by repeat constructor. }
  unfold SafeUnmount. logs_tac; apply Hloop.
Qed.
#[local] Hint Resolve kernel_SafeUnmount : logs.
Lemma kernel_point_Unmount : kernel_only point_Unmount.
Proof. unfold point_Unmount. logs_tac. apply kernel_retry. logs_tac. Qed.
#[local] Hint Resolve kernel_point_Mount kernel_point_Unmount : logs.

Lemma kernel_alloc_point p : logs_only heap_log kernel_event (alloc_point p : hio Z).
Proof. unfold alloc_point. logs_tac. Qed.
#[local] Hint Resolve kernel_alloc_point : logs.
Lemma kernel_manager_Mount m : logs_only heap_log kernel_event (manager_Mount m : hio _).
Proof. unfold manager_Mount. logs_tac. Qed.
Lemma kernel_manager_Unmount m : logs_only heap_log kernel_event (manager_Unmount m : hio _).
Proof.
  unfold manager_Unmount, manager_point. induction (extraUnmountCallbacks m) as [|cb l IH]; cbn [with_callbacks];
    [logs_tac|]. apply emits_defer; [|done]. apply emits_h_io. intros e.
  apply ensures_run. intros w. by exists [].
Qed.
#[local] Hint Resolve kernel_manager_Mount kernel_manager_Unmount : logs.

(** *** The operations of the controller *)

Notation kernel_ctrl := (logs_only (ctrl_log (W:=W)) kernel_event).

Lemma kernel_active id : kernel_ctrl (active id).
Proof. unfold active. logs_tac. Qed.
Lemma kernel_set_active id mc : kernel_ctrl (set_active id mc).
Proof. unfold set_active. logs_tac. Qed.
Lemma kernel_delete_active id : kernel_ctrl (delete_active id).
Proof. unfold delete_active. logs_tac. Qed.
#[local] Hint Resolve kernel_active kernel_set_active kernel_delete_active : logs.
Lemma kernel_on_ctx_point {A} mc (c : pio A) : kernel_only c → kernel_ctrl (on_ctx_point mc c).
Proof. intros Hc. unfold on_ctx_point. logs_tac. Qed.
Lemma hush_updateTargetSettings path spec : hush (updateTargetSettings path spec : io ()).
Proof. unfold updateTargetSettings, wrap_id. hush_tac. Qed.
Lemma hush_make_directory path mode : hush (make_directory path mode : io ()).
Proof. unfold make_directory. hush_tac. Qed.
Lemma hush_remove_entries path entries : hush (remove_entries path entries : io ()).
Proof. unfold remove_entries. hush_tac. Qed.
#[local] Hint Resolve hush_updateTargetSettings hush_make_directory hush_remove_entries : hush.
Lemma kernel_settle m id path spec : kernel_ctrl (settle m id path spec).
Proof. unfold settle, c_io. logs_tac. Qed.
#[local] Hint Resolve kernel_settle : logs.
Lemma kernel_bind rootPath source bindTarget mr vs :
  kernel_ctrl (handleBindMountOperation rootPath source bindTarget mr vs).
Proof. unfold handleBindMountOperation, c_io. logs_tac. Qed.
#[local] Hint Resolve kernel_bind : logs.
Lemma kernel_disk source target fs mr vs : kernel_ctrl (handleDiskMountOperation source target fs mr vs).
Proof.
  unfold handleDiskMountOperation, mount_disk, update_disk, update_attribute. logs_tac; apply kernel_on_ctx_point;
    unfold RemountReadOnly, RemountReadWrite, SetDisableAccessTime, SetSecure; logs_tac.
Qed.
#[local] Hint Resolve kernel_disk : logs.
Lemma kernel_handleMountOperation rootPath source target fs mr vs :
  kernel_ctrl (handleMountOperation rootPath source target fs mr vs).
Proof.
  unfold handleMountOperation, handleDirectoryMountOperation, handleSymlinkMountOperation,
    handleOverlayMountOperation, handleSwapMountOperation, c_io. logs_tac.
Qed.
Lemma kernel_handleUnmountOperation mr vs : kernel_ctrl (handleUnmountOperation mr vs).
Proof.
  unfold handleUnmountOperation, handleDirectoryUnmountOperation, handleSymlinkUmountOperation,
    handleSwapUmountOperation, handleDiskUnmountOperation, c_io. logs_tac. all: by apply kernel_on_ctx_point, kernel_Source.
Qed.
End kernel_logs.

(** ** The active mounts *)

Section active_mounts.
Context {W : Type} `{HC : Cosi W} `{HK : Kernel W}.
Notation io := (prog (env W) error).
Notation hio := (prog (heap W) error).
Notation cio := (prog (MountController W) error).

(** A call leaves all mounts but [id] alone; [steady] calls leave them all. *)
Definition touches {A} (id : string) (c : cio A) : Prop :=
  ∀ s, ensures c s (λ s' _, delete id s'.(activeMounts) = delete id s.(activeMounts)).
Definition steady {A} (c : cio A) : Prop := ∀ s, ensures c s (λ s' _, s'.(activeMounts) = s.(activeMounts)).

Lemma steady_on_heap {A} (c : hio A) : steady (on_heap c).
Proof. intros s. apply ensures_zoom. by intros h r _. Qed.
Lemma steady_c_io {A} (c : io A) : steady (c_io c).
Proof. apply steady_on_heap. Qed.
Lemma steady_map_err {A} f (c : cio A) : steady c → steady (map_err f c).
Proof. intros Hc s. apply ensures_map_err. exact (Hc s). Qed.
Lemma touches_steady {A} id (c : cio A) : steady c → touches id c.
Proof. intros Hc s. eapply ensures_mono; [|apply Hc]. by intros s' _ ->. Qed.
Lemma touches_ret {A} id (a : A) : touches id (mret a).
Proof. intros s. by apply ensures_ret. Qed.
Lemma touches_throw {A} id err : touches id (throw err : cio A).
Proof. intros s. by apply ensures_throw. Qed.
Lemma touches_lift {A} id (c : outcome Empty_set A) : touches id (lift c).
Proof. intros s. by apply ensures_lift. Qed.
Lemma touches_bind {A B} id (c : cio A) (f : A → cio B) : touches id c → (∀ a, touches id (f a)) → touches id (c ≫= f).
Proof.
  intros Hc Hf s. apply ensures_bind. eapply ensures_mono; [|apply Hc]. intros s1 [err|a] H1; [done|].
  eapply ensures_mono; [|apply Hf]. intros s2 r H2. by rewrite H2.
Qed.
Lemma touches_map_err {A} id f (c : cio A) : touches id c → touches id (map_err f c).
Proof. intros Hc s. apply ensures_map_err. exact (Hc s). Qed.
Lemma touches_try {A} id (c : cio A) : touches id c → touches id (try c : cio _).
Proof. intros Hc s. apply ensures_try. exact (Hc s). Qed.
Lemma touches_active id id' : touches id (active id').
Proof. unfold active. apply touches_bind; [intros s; by apply ensures_get|intros; apply touches_ret]. Qed.
Lemma touches_set_active id mc : touches id (set_active id mc).
Proof. intros s. apply ensures_modify. simpl. by rewrite delete_insert_eq. Qed.
Lemma touches_delete_active id : touches id (delete_active id).
Proof. intros s. apply ensures_modify. simpl. by rewrite delete_delete_eq. Qed.
Lemma steady_on_ctx_point {A} mc (c : prog (obj W Point) error A) : steady (on_ctx_point mc c).
Proof. unfold on_ctx_point. case_match; [apply steady_on_heap|]. intros s. by apply ensures_lift. Qed.
End active_mounts.

#[export] Hint Resolve steady_on_heap steady_c_io steady_on_ctx_point steady_map_err touches_steady touches_ret
  touches_throw touches_lift touches_active touches_set_active touches_delete_active : touches.
Ltac touches_tac :=
  unfold wrapf, wrap_id;
  repeat first
    [ progress intros
    | solve [eauto 3 with touches]
    | apply touches_bind | apply touches_map_err | apply touches_try
    | case_match ].

Section active_mounts_2.
Context {W : Type} `{HC : Cosi W} `{HK : Kernel W}.
Notation cio := (prog (MountController W) error).

Lemma touches_handleMountOperation rootPath source target fs mr vs :
  touches mr.(resID) (handleMountOperation rootPath source target fs mr vs : cio ()).
Proof.
  unfold handleMountOperation, handleDirectoryMountOperation, handleBindMountOperation, handleSymlinkMountOperation,
    handleOverlayMountOperation, handleSwapMountOperation, handleDiskMountOperation, mount_disk, update_disk, update_attribute,
    settle. touches_tac.
Qed.

(** An unmount ends without the mount, or leaves it. *)
Definition unmounts (id : string) (c : cio ()) : Prop := ∀ s, ensures c s (λ s' r, s'.(activeMounts) =
  match r with inr _ => delete id s.(activeMounts) | inl _ => s.(activeMounts) end).

Lemma unmounts_throw id err : unmounts id (throw err).
Proof. intros s. by apply ensures_throw. Qed.
Lemma unmounts_delete id : unmounts id (delete_active id).
Proof. intros s. by apply ensures_modify. Qed.
Lemma unmounts_bind {A} id (c : cio A) (f : A → cio ()) : steady c → (∀ a, unmounts id (f a)) → unmounts id (c ≫= f).
Proof.
  intros Hc Hf s. apply ensures_bind. eapply ensures_mono; [|apply Hc]. intros s1 [err|a] H1; [done|].
  eapply ensures_mono; [|apply Hf]. intros s2 r. by rewrite H1.
Qed.
(** What is not active needs no unmount. *)
Lemma unmounts_active id (f : mountContext W → cio ()) :
  (∀ mc, unmounts id (f mc)) →
  unmounts id (mc ← active id; match mc with None => mret () | Some mc => f mc end).
Proof.
  intros Hf s. apply ensures_bind. unfold active. apply ensures_bind, ensures_get, ensures_ret.
  destruct (activeMounts s !! id) as [mc|] eqn:Emc; [apply Hf|]. apply ensures_ret. by rewrite delete_id.
Qed.

Lemma handleUnmountOperation_unmounts mr vs : unmounts mr.(resID) (handleUnmountOperation mr vs).
Proof.
  assert (Hdisk : unmounts mr.(resID) (handleDiskUnmountOperation mr)).
  { apply unmounts_active. intros mc. apply unmounts_bind; [intros s; by apply ensures_lift|]. intros m.
    apply unmounts_bind; [apply steady_map_err, steady_on_heap|]. intros _. apply unmounts_delete. }
  unfold handleUnmountOperation, handleDirectoryUnmountOperation.
  destruct (statusType _); try case_bool_decide; try done; try apply unmounts_throw; try apply unmounts_delete.
  all: apply unmounts_active; intros mc; (apply unmounts_bind; [apply steady_on_ctx_point|]); intros src.
  all: (apply unmounts_bind; [apply steady_map_err, steady_c_io|]); intros _; apply unmounts_delete.
Qed.
End active_mounts_2.

(** ** One turn *)

Section turn.
Context {W : Type} `{HC : Cosi W} `{HK : Kernel W}.
Notation io := (prog (env W) error).
Notation hio := (prog (heap W) error).
Notation cio := (prog (MountController W) error).

(** What a call adds to the log, and where it ends. *)
Definition does {A} (c : cio A) (s : MountController W) (Q : list event → MountController W → error + A → Prop) : Prop :=
  ensures c s (λ s' r, ∃ t, ctrl_log s' = ctrl_log s ++ t ∧ Q t s' r).

Lemma does_mono {A} (c : cio A) s (Q Q' : list event → MountController W → error + A → Prop) :
  (∀ t s' r, Q t s' r → Q' t s' r) → does c s Q → does c s Q'.
Proof. intros HQ. apply ensures_mono. intros s' r (t & ? & ?). eauto. Qed.
Lemma does_bind {A B} (c : cio A) (f : A → cio B) s Q :
  does c s (λ t s1 r, match r with inr a => does (f a) s1 (λ t' s2 r', Q (t ++ t') s2 r') | inl e => Q t s1 (inl e) end) →
  does (c ≫= f) s Q.
Proof.
  intros Hc. apply ensures_bind. eapply ensures_mono; [|exact Hc]. intros s1 [e|a] (t & Ht & H1); [by eauto|].
  eapply ensures_mono; [|exact H1]. intros s2 r (t' & Ht' & HQ). exists (t ++ t'). by rewrite Ht', Ht, app_assoc.
Qed.
Lemma does_ret {A} (a : A) s (Q : list event → MountController W → error + A → Prop) : Q [] s (inr a) → does (mret a) s Q.
Proof. intros HQ. apply ensures_ret. exists []. by rewrite app_nil_r. Qed.
Lemma does_map_err {A} f (c : cio A) s (Q : list event → MountController W → error + A → Prop) :
  does c s (λ t s' r, Q t s' (match r with inl e => inl (f e) | inr a => inr a end)) → does (map_err f c) s Q.
Proof. intros Hc. by apply ensures_map_err. Qed.
Lemma does_lift {A} (c : outcome Empty_set A) s (Q : list event → MountController W → error + A → Prop) :
  (∀ a, c = Ok a → Q [] s (inr a)) → does (lift c) s Q.
Proof. intros HQ. apply ensures_lift. intros a Ha. exists []. rewrite app_nil_r. auto. Qed.
Lemma does_logs {A} (c : cio A) P s (Q : MountController W → error + A → Prop) :
  logs_only ctrl_log P c → ensures c s Q → does c s (λ t s' r, Forall P t ∧ Q s' r).
Proof.
  intros Hc HQ. eapply ensures_mono; [|apply (ensures_and _ _ _ _ (Hc s) HQ)].
  intros s' r [(t & ? & ?) ?]. eauto.
Qed.
(** A call on the resources alone. *)
Lemma does_c_io {A} (c : io A) s (Q : list event → error + A → Prop) :
  (∀ e, ensures c e (λ e' r, ∃ t, e'.(trace) = e.(trace) ++ t ∧ Q t r)) →
  does (c_io c) s (λ t s' r, Q t r ∧ s'.(activeMounts) = s.(activeMounts)).
Proof.
  intros Hc. apply ensures_zoom, ensures_zoom. eapply ensures_mono; [|apply Hc].
  intros e' r (t & Ht & HQ). by exists t.
Qed.

(** *** The status of the mount *)

Definition status_teardown (id : string) (ok : bool) : event := EvMount (MTeardown (MountStatusOf id) ok).
(** The status was destroyed, or there was none. *)
Definition gone (id : string) (t : list event) : Prop :=
  t = [status_teardown id true; EvMount (MDestroy (MountStatusOf id))] ∨ t = [EvMount (MAbsent (MountStatusOf id))].

Lemma tearDownMountStatus_log id e :
  ensures (tearDownMountStatus id) e (λ e' r, ∃ t, e'.(trace) = e.(trace) ++ t ∧
    match r with
    | inr true => gone id t
    | inr false => t = [status_teardown id false]
    | inl _ => t = [] ∨ t = [status_teardown id true]
    end).
Proof.
  unfold tearDownMountStatus. apply ensures_bind, ensures_try, ensures_query. intros w [err|ok] _; simpl.
  - destruct (cosi_IsNotFound err); [|apply ensures_throw; eauto].
    apply ensures_bind, ensures_run. intros w'. apply ensures_ret. simpl. rewrite app_nil_r. eexists. split; [done|].
    by right.
  - destruct ok; simpl; [|apply ensures_ret; eauto].
    apply ensures_bind, ensures_map_err, ensures_call. intros w' [err|] _; simpl.
    + rewrite app_nil_r. eauto.
    + apply ensures_ret. simpl. rewrite <- app_assoc. eexists. split; [done|]. by left.
Qed.

(** *** Finalizers *)

Definition release (r : mount_resource) (finalizers : list string) (fin : string) : list event :=
  when (bool_decide (fin ∈ finalizers)) (EvMount (MRemoveFinalizer r fin)).
Definition grab (r : mount_resource) (finalizers : list string) (fin : string) : list event :=
  when (negb (bool_decide (fin ∈ finalizers))) (EvMount (MAddFinalizer r fin)).

Lemma drop_log format id r fins fin e :
  ensures (drop format id r fins fin) e (λ e' _, ∃ t, e'.(trace) = e.(trace) ++ t ∧ t = release r fins fin).
Proof.
  unfold drop, release. case_bool_decide; simpl.
  - apply ensures_map_err, ensures_call. intros w err _. eauto.
  - apply ensures_ret. exists []. by rewrite app_nil_r.
Qed.
Lemma hold_log format id r fins fin e :
  ensures (hold format id r fins fin) e (λ e' res, ∃ t, e'.(trace) = e.(trace) ++ t ∧
    t = match res with inr _ => grab r fins fin | inl _ => [] end).
Proof.
  unfold hold, grab. case_bool_decide; simpl.
  - apply ensures_ret. exists []. by rewrite app_nil_r.
  - apply ensures_map_err, ensures_call. intros w [err|] _; simpl; eauto.
Qed.

(** What keeps the volume, the parent and the request of a mount. *)
Definition on_volume (f : mount_resource → list string → string → list event) (vs : option VolumeStatus) : list event :=
  match vs with Some vs => f (VolumeStatusOf vs.(statusID)) vs.(statusFinalizers) Name | None => [] end.
Definition on_parent (f : mount_resource → list string → string → list event) (mr : MountRequest)
    (parent : option MountStatus) : list event :=
  match parent with
  | Some p => f (MountStatusOf p.(resID)) p.(resFinalizers) (parentFinalizerName mr)
  | None => []
  end.
Definition on_request (f : mount_resource → list string → string → list event) (mr : MountRequest) : list event :=
  f (MountRequestOf mr.(resID)) mr.(resFinalizers) Name.
Definition releases (mr : MountRequest) (vs : option VolumeStatus) (parent : option MountStatus) : list event :=
  on_volume release vs ++ on_parent release mr parent ++ on_request release mr.
Definition grabs (mr : MountRequest) (vs : option VolumeStatus) (parent : option MountStatus) : list event :=
  on_request grab mr ++
  (if negb (String.eqb mr.(resSpec).(ParentMountID) "") && in_phase PhaseRunning parent
   then on_parent grab mr parent else []) ++
  on_volume grab vs.

(** *** Taking down *)

Definition unmounted (mr : MountRequest) (vs : option VolumeStatus) (s : MountController W) : Prop :=
  vs = None ∨ s.(activeMounts) !! mr.(resID) = None.

(** The finalizers are dropped after the status and the mount are gone. *)
Definition downed (mr : MountRequest) (vs : option VolumeStatus) (parent : option MountStatus)
    (s : MountController W) (t : list event) (s' : MountController W) (r : error + bool) : Prop :=
  delete mr.(resID) s'.(activeMounts) = delete mr.(resID) s.(activeMounts) ∧
  ∃ st um rel, t = st ++ um ++ rel ∧ Forall kernel_event um ∧ rel `prefix_of` releases mr vs parent ∧
    (gone mr.(resID) st ∨
     (st = [] ∨ ∃ ok, st = [status_teardown mr.(resID) ok]) ∧ um = [] ∧ rel = [] ∧
       s'.(activeMounts) = s.(activeMounts)) ∧
    (rel ≠ [] → unmounted mr vs s') ∧
    (r = inr true → gone mr.(resID) st ∧ rel = releases mr vs parent ∧ unmounted mr vs s') ∧
    (r = inr false → t = [status_teardown mr.(resID) false]).

Lemma drop_all_log mr vs parent s :
  does (drop_all mr vs parent) s (λ t s' r, t `prefix_of` releases mr vs parent ∧
    s'.(activeMounts) = s.(activeMounts) ∧ (r = inr () → t = releases mr vs parent)).
Proof.
  unfold drop_all, releases. apply does_bind.
  assert (Hvs : does (match vs with
      | Some vs => c_io (drop "failed to remove finalizer from volume status %q: %w" vs.(statusID)
                           (VolumeStatusOf vs.(statusID)) vs.(statusFinalizers) Name)
      | None => mret () end) s (λ t s' _, t = on_volume release vs ∧ s'.(activeMounts) = s.(activeMounts))).
  { destruct vs; [|by apply does_ret]. apply (does_c_io _ _ (λ t _, t = _)). intros e. apply drop_log. }
  eapply does_mono; [|exact Hvs]. clear Hvs. intros t1 s1 [err|[]] [-> H1].
  { split_and!; [by apply prefix_app_r|done|done]. }
  apply does_bind.
  assert (Hp : does (match parent with
      | Some parent => c_io (drop "failed to remove finalizer from parent mount status %q: %w" parent.(resID)
                               (MountStatusOf parent.(resID)) parent.(resFinalizers) (parentFinalizerName mr))
      | None => mret () end) s1 (λ t s' _, t = on_parent release mr parent ∧ s'.(activeMounts) = s1.(activeMounts))).
  { destruct parent; [|by apply does_ret]. apply (does_c_io _ _ (λ t _, t = _)). intros e. apply drop_log. }
  eapply does_mono; [|exact Hp]. clear Hp. intros t2 s2 [err|[]] [-> H2].
  { split_and!; [by apply prefix_app, prefix_app_r|congruence|done]. }
  eapply does_mono; [|apply (does_c_io _ _ (λ t _, t = on_request release mr)); intros e; apply drop_log].
  intros t3 s3 r [-> H3]. split_and!; [done|congruence|done].
Qed.

Lemma take_down_downed mr vs parent s : does (take_down mr vs parent) s (downed mr vs parent s).
Proof.
  unfold take_down, downed. apply does_bind, does_map_err.
  eapply does_mono; [|apply does_c_io; intros e; apply tearDownMountStatus_log].
  intros st s1 [err|[|]] [Hst Hact1]; simpl.
  - rewrite Hact1. split; [done|]. exists st, [], []. rewrite !app_nil_r.
    split_and!; [done|done|apply prefix_nil| |done|done|done]. right. split_and!; [|done..].
    destruct Hst as [->| ->]; eauto.
  - apply does_bind.
    assert (Hum : does (match vs with Some vs => handleUnmountOperation mr vs | None => mret () end) s1
      (λ t s' r, Forall kernel_event t ∧ delete mr.(resID) s'.(activeMounts) = delete mr.(resID) s1.(activeMounts) ∧
        (r = inr () → unmounted mr vs s'))).
    { destruct vs as [vs|]; [|apply does_ret; split_and!; [constructor|done|by left]].
      apply does_logs; [apply kernel_handleUnmountOperation|].
      eapply ensures_mono; [|apply handleUnmountOperation_unmounts]. intros s2 [err|[]] H2; rewrite H2; [done|].
      rewrite delete_delete_eq. split; [done|]. intros _. right. rewrite H2. apply lookup_delete_eq. }
    eapply does_mono; [|exact Hum]. clear Hum. intros um s2 [err|[]] (Hk & Hact2 & Hun).
    { rewrite Hact2, Hact1. split; [done|]. exists st, um, []. rewrite app_nil_r.
      split_and!; [done|done|apply prefix_nil|by left|done|done|done]. }
    specialize (Hun eq_refl). apply does_bind. eapply does_mono; [|apply drop_all_log].
    intros rel s3 r (Hrel & Hact3 & Hall).
    assert (Hun3 : unmounted mr vs s3) by (unfold unmounted in *; by rewrite Hact3).
    destruct r as [err|[]].
    { rewrite Hact3, Hact2, Hact1. split; [done|]. exists st, um, rel. split_and!; [done|done|done|by left|done|done|done]. }
    apply does_ret. rewrite Hact3, Hact2, Hact1. split; [done|]. exists st, um, rel.
    rewrite app_nil_r. split_and!; [done|done|done|by left|done| |done]. intros _. split_and!; auto.
  - apply does_ret. rewrite Hact1. split; [done|]. exists st, [], []. rewrite !app_nil_r.
    split_and!; [done|done|apply prefix_nil| |done|done|done]. right. split_and!; eauto.
Qed.
(** *** Mounting *)

Definition root_path (mr : MountRequest) (parent : option MountStatus) : string :=
  if negb (String.eqb mr.(resSpec).(ParentMountID) "") then
    match parent with Some p => p.(resSpec).(msTarget) | None => "" end
  else "/".
Definition put_status (mr : MountRequest) (vs : VolumeStatus) (parent : option MountStatus) (s : MountController W)
    : event :=
  EvMount (MPutStatus mr.(resID)
    (mount_status_spec mr vs (root_path mr parent) (s.(activeMounts) !! mr.(resID)))).

(** Nothing is mounted or reported before the finalizers are there. *)
Definition upped (mr : MountRequest) (vs : option VolumeStatus) (parent : option MountStatus)
    (s : MountController W) (t : list event) (s' : MountController W) (r : error + ()) : Prop :=
  delete mr.(resID) s'.(activeMounts) = delete mr.(resID) s.(activeMounts) ∧
  ∃ held kernel put, t = held ++ kernel ++ put ∧ held `prefix_of` grabs mr vs parent ∧
    Forall kernel_event kernel ∧
    (held = grabs mr vs parent ∨ kernel = [] ∧ put = [] ∧ s'.(activeMounts) = s.(activeMounts) ∧ r ≠ inr ()) ∧
    (put = [] ∨ ∃ vs', vs = Some vs' ∧ put = [put_status mr vs' parent s']) ∧
    (r = inr () → put ≠ []).

Lemma hold_all_log mr vs parent s :
  does (hold_all mr vs parent) s (λ t s' r, t `prefix_of` grabs mr vs parent ∧
    s'.(activeMounts) = s.(activeMounts) ∧
    ∀ rootPath vs', r = inr (rootPath, vs') →
      t = grabs mr vs parent ∧ vs = Some vs' ∧ rootPath = root_path mr parent).
Proof.
  unfold hold_all, grabs. apply does_bind.
  eapply does_mono; [|apply (does_c_io _ _ (λ t r, t = match r with inr _ => on_request grab mr | inl _ => [] end));
    intros e; apply hold_log].
  intros t1 s1 [err|[]] [-> H1]; [by split_and!; [apply prefix_nil|..]|].
  apply does_bind.
  set (P := if negb (String.eqb _ _) && _ then _ else _).
  assert (Hp : does (if negb (String.eqb mr.(resSpec).(ParentMountID) "") then
       parent ← lift (match parent with Some p => Ok p | None => Panic NilDereference end);
       _ ← (if bool_decide (parent.(resPhase) = PhaseRunning) then
              c_io (hold "failed to add finalizer to parent mount status %q: %w" parent.(resID)
                      (MountStatusOf parent.(resID)) parent.(resFinalizers) (parentFinalizerName mr))
            else mret ());
       mret parent.(resSpec).(msTarget)
     else mret "/"%string) s1 (λ t s' r, s'.(activeMounts) = s1.(activeMounts) ∧
       match r with inr rootPath => t = P ∧ rootPath = root_path mr parent | inl _ => t = [] end)).
  { unfold P, root_path. destruct (negb _); [|by apply does_ret]. apply does_bind, does_lift.
    intros p Hp. destruct parent as [p'|]; [|done]. injection Hp as ->. simpl. apply does_bind.
    case_bool_decide; [|by apply does_ret, does_ret].
    eapply does_mono; [|apply does_c_io; intros e; apply hold_log].
    intros t s' [err|[]] [-> Hact]; [done|]. apply does_ret. by rewrite app_nil_r. }
  eapply does_mono; [|exact Hp]. clear Hp. intros t2 s2 [err|rootPath] [H2 Ht2].
  { subst t2. rewrite app_nil_r. split_and!; [by apply prefix_app_r|congruence|done]. }
  destruct Ht2 as [-> ->]. apply does_bind, does_lift. intros vs' Hvs. destruct vs as [vs0|]; [|done]. injection Hvs as ->.
  simpl. apply does_bind. eapply does_mono; [|apply does_c_io; intros e; apply hold_log].
  intros t3 s3 [err|[]] [-> H3].
  - rewrite app_nil_r. split_and!; [by apply prefix_app, prefix_app_r|congruence|done].
  - apply does_ret. rewrite app_nil_r. split_and!; [done|congruence|]. by intros rootPath vs1 [= -> ->].
Qed.

Lemma perform_mount_upped mr vs parent s : does (perform_mount mr vs parent) s (upped mr vs parent s).
Proof.
  unfold perform_mount, upped. apply does_bind. eapply does_mono; [|apply hold_all_log].
  intros held s1 [err|[rootPath vs']] (Hheld & Hact1 & Hr).
  { rewrite Hact1. split; [done|]. exists held, [], []. rewrite app_nil_r.
    split_and!; [done|done|done|right; done|by left|done]. }
  destruct (Hr _ _ eq_refl) as (-> & -> & ->). apply does_bind.
  eapply does_mono; [|apply does_logs; [apply kernel_handleMountOperation|apply touches_handleMountOperation]].
  intros kernel s2 [err|[]] (Hk & Hact2).
  { rewrite Hact2, Hact1. split; [done|]. exists (grabs mr (Some vs') parent), kernel, []. rewrite app_nil_r.
    split_and!; [done|done|done|by left|by left|done]. }
  apply does_bind. unfold active. apply does_bind. apply ensures_get. exists []. rewrite app_nil_r. split; [done|].
  apply does_ret, does_map_err.
  eapply does_mono; [|apply (does_c_io _ _ (λ t _, t = [put_status mr vs' parent s2]))].
  2: { intros e. apply ensures_call. intros w err _. simpl. eauto. }
  intros put s3 r [-> Hact3]. simpl. rewrite Hact3, Hact2, Hact1. split; [done|].
  eexists _, kernel, _. split_and!; [done|done|done|by left| |done].
  right. exists vs'. split; [done|]. unfold put_status. by rewrite Hact3.
Qed.
End turn.

(** C19: A turn of the mount controller that takes a mount down drops the finalizers that
    keep the volume, the parent and the request only after the status of the mount was
    destroyed or absent, and then the mount is no longer active, unless the status of its
    volume is absent (nothing is unmounted then); while the status is still held nothing is
    unmounted. It mounts, and writes the status, only after it has added the finalizers that
    were missing in what was read before the turn; a finalizer dropped in the same turn is
    not added again (the example on mounting again without them). No other mount is touched,
    and an error ends the turn. *)
Theorem mounts_released {W} `{HC : Cosi W} `{HK : Kernel W} volumeStatusMap mountStatusMap mr
    (s s' : MountController W) r :
  process_request volumeStatusMap mountStatusMap mr s = Ok (s', r) →
  let vs := volumeStatusMap !! mr.(resSpec).(mrVolumeID) in
  let parent := mountStatusMap !! mr.(resSpec).(ParentMountID) in
  ∃ down up s1 r1, ctrl_log s' = ctrl_log s ++ down ++ up ∧
    (if must_take_down mr vs (mountStatusMap !! mr.(resID)) parent then downed mr vs parent s down s1 r1
     else down = [] ∧ s1 = s ∧ r1 = inr true) ∧
    match r1 with
    | inl err => up = [] ∧ s' = s1 ∧ r = inl err
    | inr goes_on =>
        if goes_on && may_mount mr vs parent then upped mr vs parent s1 up s' r
        else up = [] ∧ s' = s1 ∧ r = inr ()
    end.
Proof.
  intros Hrun vs parent. revert s' r Hrun. unfold process_request. fold vs parent.
  set (must := must_take_down _ _ _ _).
  assert (Hdown : does (if must then take_down mr vs parent else mret true) s (λ t s1 r1,
    if must then downed mr vs parent s t s1 r1 else t = [] ∧ s1 = s ∧ r1 = inr true)).
  { destruct must; [apply take_down_downed|by apply does_ret]. }
  intros s' r Hrun.
  assert (H : does (goes_on ← (if must then take_down mr vs parent else mret true);
    if goes_on && may_mount mr vs parent then perform_mount mr vs parent else mret ()) s (λ t s' r,
    ∃ down up s1 r1, t = down ++ up ∧
      (if must then downed mr vs parent s down s1 r1 else down = [] ∧ s1 = s ∧ r1 = inr true) ∧
      match r1 with
      | inl err => up = [] ∧ s' = s1 ∧ r = inl err
      | inr goes_on => if goes_on && may_mount mr vs parent then upped mr vs parent s1 up s' r
          else up = [] ∧ s' = s1 ∧ r = inr ()
      end)).
  { apply does_bind. eapply does_mono; [|exact Hdown]. intros down s1 [err|goes_on] Hd.
    { exists down, [], s1, (inl err). rewrite app_nil_r. done. }
    destruct (goes_on && may_mount mr vs parent) eqn:Eup.
    - eapply does_mono; [|apply perform_mount_upped]. intros up s2 r2 Hup.
      exists down, up, s1, (inr goes_on). rewrite Eup. done.
    - apply does_ret. exists down, [], s1, (inr goes_on). rewrite Eup. done. }
  destruct (H _ _ Hrun) as (t & Ht & down & up & s1 & r1 & -> & Hd & Hu). exists down, up, s1, r1. done.
Qed.
