(* ===== verification/MountAttributes.v ===== *)
(** * The attributes of a disk mount

    The kernel keeps the attributes of a mount: read-only, no access times, no set-user-ID
    programs and devices.  The controller records what it asked for and changes what
    differs from the request; the log of the changes shows that the records are true, for
    mounts that are not detached. *)

From S2P Require Import Prelude Errors Block Devices Volumes VolumeSafety MountResources MountRequests FileSystems MountPoint Mounts MountSafety.

(** ** Attributes *)

(** The bits of the attributes. *)
Definition attributes_of (readOnly disableAccessTime secure : bool) : Z :=
  Z.lor (if readOnly then MOUNT_ATTR_RDONLY else 0)
    (Z.lor (if disableAccessTime then MOUNT_ATTR_NOATIME else 0) (if secure then SECURE else 0)).

(** What a call makes of the attributes of a mount. *)
Definition apply_attr (attrs : Z) (ev : event) : Z :=
  match ev with EvMount (MSetattr _ set clr) => Z.lor (Z.ldiff attrs clr) set | _ => attrs end.
Definition kernel_attributes (attrs : Z) (t : list event) : Z := foldl apply_attr attrs t.

Definition remount_attr (readOnly : bool) : MountAttr :=
  if readOnly then set_bits MOUNT_ATTR_RDONLY else clear_bits MOUNT_ATTR_RDONLY.
Definition atime_attr (disable : bool) : MountAttr :=
  if disable then set_bits MOUNT_ATTR_NOATIME else clear_bits MOUNT_ATTR_NOATIME.
Definition secure_attr (secure : bool) : MountAttr := if secure then set_bits SECURE else clear_bits SECURE.

Lemma apply_remount target ro ro' nt se :
  apply_attr (attributes_of ro nt se) (attr_call target (remount_attr ro')) = attributes_of ro' nt se.
Proof. by destruct ro, ro', nt, se. Qed.
Lemma apply_atime target ro nt nt' se :
  apply_attr (attributes_of ro nt se) (attr_call target (atime_attr nt')) = attributes_of ro nt' se.
Proof. by destruct ro, nt, nt', se. Qed.
Lemma apply_secure target ro nt se se' :
  apply_attr (attributes_of ro nt se) (attr_call target (secure_attr se')) = attributes_of ro nt se'.
Proof. by destruct ro, nt, se, se'. Qed.

Section attributes.
Context {W : Type} `{HC : Cosi W} `{HK : Kernel W}.
Notation cio := (prog (MountController W) error).

Definition recorded (mc : mountContext W) : Z :=
  attributes_of mc.(readOnly) mc.(disableAccessTime) mc.(secure).
Definition requested (mr : MountRequest) : Z :=
  attributes_of mr.(resSpec).(mrReadOnly) mr.(resSpec).(mrDisableAccessTime) mr.(resSpec).(mrSecure).

(** An active mount and its point. *)
Definition mounted (s : MountController W) (id : string) (mc : mountContext W) (p : Point) : Prop :=
  s.(activeMounts) !! id = Some mc ∧
  ∃ pid, mc.(ctxPoint) = Some pid ∧ s.(ctrlHeap).(points) !! pid = Some p ∧ is_Some p.(root).

(** The calls that change the attributes, on the target. *)
Definition changes (p : Point) (attrs : list MountAttr) : list event :=
  if p.(detached) then [] else attr_call p.(target) <$> attrs.

Lemma changes_app p l l' : changes p (l ++ l') = changes p l ++ changes p l'.
Proof. unfold changes. destruct (detached p); [done|]. apply fmap_app. Qed.

Lemma setattr_attached_log attr (o : obj W Point) :
  is_Some o.(this).(root) → ensures (setattr_attached attr) o (λ o' r, o'.(this) = o.(this) ∧
    o'.(obj_io).(trace) = o.(obj_io).(trace) ++ match r with inr _ => changes o.(this) [attr] | inl _ => [] end).
Proof.
  intros [r0 Hr]. apply returns_ensures. unfold setattr_attached, changes. apply returns_bind, returns_point.
  destruct (detached (this o)).
  - apply returns_ret. by rewrite app_nil_r.
  - by apply (setattr_logs _ _ _ r0).
Qed.

(** A change of one attribute keeps the point. *)
Lemma update_attribute_log id format mc mc' (differs : bool) attr s p :
  mounted s id mc p → mc'.(ctxPoint) = mc.(ctxPoint) →
  does (update_attribute id format mc differs (setattr_attached attr) mc') s (λ t s' r,
    match r with
    | inr mcr => mcr = (if differs then mc' else mc) ∧ mounted s' id mcr p ∧
        t = (if differs then changes p [attr] else [])
    | inl _ => mounted s' id mc p ∧ t = []
    end).
Proof.
  intros (Hact & pid & Hpid & Hp & Hroot) Hpid'. unfold update_attribute. destruct differs.
  2: { apply does_ret. split_and!; [done| |done]. split; [done|]. by exists pid. }
  apply does_bind, does_map_err. unfold on_ctx_point. rewrite Hpid.
  assert (Hset : does (on_heap (on_point pid (setattr_attached attr))) s (λ t s' r,
    mounted s' id mc p ∧ t = match r with inr _ => changes p [attr] | inl _ => [] end)).
  { apply ensures_zoom. intros h' r. unfold on_point. rewrite Hp. revert h' r. apply ensures_zoom.
    eapply ensures_mono; [|by apply setattr_attached_log]. simpl. intros o r [Hthis Hlog].
    eexists. split; [exact Hlog|]. split; [|done]. split; [done|]. exists pid. rewrite Hthis.
    simpl. split_and!; [done|by rewrite lookup_insert_eq|done]. }
  eapply does_mono; [|exact Hset]. clear Hset. intros t s1 [err|[]] [(Hact1 & pid1 & Hpid1 & Hp1 & _) ->].
  { split; [|done]. split; [done|]. by exists pid1. }
  apply does_bind. apply ensures_modify. exists []. rewrite app_nil_r. split; [done|].
  apply does_ret. rewrite !app_nil_r. split_and!; [done| |done]. split; [by apply lookup_insert_eq|].
  exists pid1. rewrite Hpid'. done.
Qed.

(** *** A new mount *)

Lemma disk_manager_spec source target fs mr vs :
  let m := disk_manager (W:=W) source target fs mr vs in
  is_Some m.(mgrFS) ∧ m.(mgrTarget) = target ∧ m.(mgrDetached) = mr.(resSpec).(mrDetached) ∧
  m.(skipIfMounted) = false ∧ m.(shared) = false ∧ m.(mountattr) = requested mr.
Proof.
  unfold disk_manager, requested. destruct mr as [id ph fins [vid par ro det nt se rs rids]]. simpl.
  destruct ro, det, nt, se; simpl; split_and!; eauto.
Qed.

(** The settings of the target do not show in the log. *)
Lemma settle_log m id path spec s :
  does (settle m id path spec) s (λ t s' r, s'.(activeMounts) = s.(activeMounts) ∧
    (r = inr () → t = [] ∧ s'.(ctrlHeap).(points) = s.(ctrlHeap).(points))).
Proof.
  unfold settle. apply does_bind.
  assert (Hset : does (try (c_io (updateTargetSettings path spec)) : cio _) s (λ t s' r, t = [] ∧
    s'.(activeMounts) = s.(activeMounts) ∧ s'.(ctrlHeap).(points) = s.(ctrlHeap).(points))).
  { apply ensures_try, ensures_zoom, ensures_zoom, returns_ensures.
    eapply returns_mono; [|apply hush_updateTargetSettings]. simpl. intros e r He.
    exists []. rewrite app_nil_r. done. }
  eapply does_mono; [|exact Hset]. clear Hset. intros t s1 [err|[err|[]]] (-> & Hact & Hp); [done| |by apply does_ret].
  apply does_bind. apply ensures_try.
  eapply ensures_mono; [|apply (ensures_and _ _ _ _ (steady_on_heap (manager_Unmount m) s1)
    (emits_on_heap kernel_event _ (kernel_manager_Unmount m) s1))].
  simpl. intros s2 r [Hact2 (t & Ht & _)]. exists t. split; [done|].
  apply ensures_throw. exists []. rewrite app_nil_r. split; [done|]. split; [congruence|done].
Qed.

Lemma changes_attributes p attr t : detached p = false →
  t = mount_calls (target p) attr false → kernel_attributes 0 t = attr.
Proof.
  intros Hd ->. unfold kernel_attributes, mount_calls, attr_call, set_bits. simpl.
  unfold clear_atime. by destruct (_ || _).
Qed.

Lemma mount_disk_log source tgt fs mr vs s :
  s.(activeMounts) !! mr.(resID) = None →
  does (mount_disk source tgt fs mr vs) s (λ t s' r,
    match r with
    | inr mc => ∃ p, mounted s' mr.(resID) mc p ∧ p.(target) = tgt ∧ p.(detached) = mr.(resSpec).(mrDetached) ∧
        mc.(readOnly) = mr.(resSpec).(mrReadOnly) ∧ mc.(disableAccessTime) = mr.(resSpec).(mrDisableAccessTime) ∧
        mc.(secure) = mr.(resSpec).(mrSecure) ∧
        if p.(detached) then t = [] else t = mount_calls tgt (requested mr) false
    | inl _ => s'.(activeMounts) !! mr.(resID) = None
    end).
Proof.
  intros Hnone. unfold mount_disk.
  destruct (disk_manager_spec source tgt fs mr vs) as ([f Hfs] & Htgt & Hdet & Hskip & Hsh & Hattr).
  set (m := disk_manager source tgt fs mr vs) in *. apply does_bind, does_map_err.
  assert (Hm : does (on_heap (manager_Mount m)) s (λ t s' r, s'.(activeMounts) = s.(activeMounts) ∧
    match r with
    | inr (m', pid) => ∃ p, s'.(ctrlHeap).(points) !! pid = Some p ∧ point_of m p ∧
        if p.(detached) then t = [] else t = mount_calls tgt (requested mr) false
    | inl _ => True
    end)).
  { apply ensures_zoom, returns_ensures. eapply returns_mono; [|by apply (manager_Mount_log m f)].
    intros h r (t & Ht & Hr & _). exists t. split; [done|]. split; [done|]. destruct r as [|[m' pid]]; [done|].
    destruct Hr as (Hlog & _ & -> & p & Hp & Hof). exists p. simpl. rewrite Hp. split; [apply lookup_insert_eq|].
    split; [done|]. destruct Hof as (_ & -> & _). unfold mounted_log in Hlog.
    destruct (mgrDetached m); [done|]. destruct Hlog as [_ Hlog].
    destruct (Hlog eq_refl) as [->|[? _]]; [|congruence]. by rewrite Htgt, Hsh, Hattr. }
  eapply does_mono; [|exact Hm]. clear Hm. intros t1 s1 [err|[m' pid]] [Hact1 H1]; [by rewrite Hact1|].
  destruct H1 as (p & Hp & (Hpt & Hpd & Hpr) & Ht1). apply does_bind.
  assert (Hs : does (if negb mr.(resSpec).(mrReadOnly) && negb mr.(resSpec).(mrDetached)
       then settle m' mr.(resID) tgt vs.(statusSpec).(mountSpec) else mret ()) s1 (λ t s' r,
    s'.(activeMounts) = s1.(activeMounts) ∧
    (r = inr () → t = [] ∧ s'.(ctrlHeap).(points) = s1.(ctrlHeap).(points)))).
  { destruct (_ && _); [apply settle_log|by apply does_ret]. }
  eapply does_mono; [|exact Hs]. clear Hs. intros t2 s2 [err|[]] [Hact2 H2]; [by rewrite Hact2, Hact1|].
  destruct (H2 eq_refl) as [-> Hp2]. apply does_bind. apply ensures_modify. exists []. rewrite app_nil_r.
  split; [done|]. apply does_ret. rewrite !app_nil_r. exists p. split_and!; try done; [|congruence|congruence].
  split; [apply lookup_insert_eq|]. exists pid. simpl. by rewrite Hp2.
Qed.

(** *** An active mount meets its request *)

(** What is known of the mount after calls that logged [t]: from [attrs], the kernel's
    attributes are the recorded ones. *)
Definition tracked (id : string) (p : Point) (attrs : Z) (t : list event) (s : MountController W)
    (mc : mountContext W) : Prop :=
  mounted s id mc p ∧ if p.(detached) then t = [] else kernel_attributes attrs t = recorded mc.

(** One change keeps the mount tracked. *)
Lemma update_tracked {A} id format mc mc' differs attr (f : mountContext W → cio A) p attrs t s Q :
  tracked id p attrs t s mc → mc'.(ctxPoint) = mc.(ctxPoint) →
  (differs = false → recorded mc' = recorded mc) →
  apply_attr (recorded mc) (attr_call p.(target) attr) = recorded mc' →
  (∀ t' s' err, tracked id p attrs (t ++ t') s' mc → Q t' s' (inl err)) →
  (∀ t' s' mcr, mcr = (if differs then mc' else mc) → tracked id p attrs (t ++ t') s' mcr →
     does (f mcr) s' (λ t'' s'' r, Q (t' ++ t'') s'' r)) →
  does (mc ← update_attribute id format mc differs (setattr_attached attr) mc'; f mc) s Q.
Proof.
  intros [Hm Ht] Hpid Hsame Happly Herr Hok. apply does_bind.
  eapply does_mono; [|by apply (update_attribute_log id format mc mc' differs attr s p)].
  intros t' s' [err|mcr].
  - intros [Hm' ->]. apply Herr. rewrite app_nil_r. done.
  - intros (Hmcr & Hm' & ->). apply Hok; [done|]. split; [done|]. subst mcr.
    destruct differs; [|by rewrite app_nil_r]. unfold changes. destruct (detached p); [by rewrite app_nil_r|].
    unfold kernel_attributes in *. rewrite foldl_app. simpl. by rewrite Ht.
Qed.

Lemma meets (field : mountContext W → bool) mc mc' b :
  field mc' = b → field (if negb (eqb (field mc) b) then mc' else mc) = b.
Proof. intros Hb. destruct (eqb _ _) eqn:E; simpl; [by apply eqb_prop|done]. Qed.
Lemma keeps_field (field : mountContext W → bool) mc mc' (b : bool) :
  field mc' = field mc → field (if b then mc' else mc) = field mc.
Proof. by destruct b. Qed.

Lemma update_disk_tracked mr mc p attrs t s :
  tracked mr.(resID) p attrs t s mc →
  does (update_disk mr mc) s (λ t' s' r, ∃ mc', tracked mr.(resID) p attrs (t ++ t') s' mc' ∧
    (r = inr () → mc'.(readOnly) = mr.(resSpec).(mrReadOnly) ∧
       mc'.(disableAccessTime) = mr.(resSpec).(mrDisableAccessTime) ∧ mc'.(secure) = mr.(resSpec).(mrSecure))).
Proof.
  intros Htr. unfold update_disk.
  replace (if mrReadOnly _ then RemountReadOnly else RemountReadWrite)
    with (setattr_attached (remount_attr mr.(resSpec).(mrReadOnly)) : prog (obj W Point) error ())
    by (by destruct (mrReadOnly _)).
  eapply update_tracked; [exact Htr|done| |apply apply_remount|intros t1 s1 err Htr1; by exists mc|].
  { unfold recorded. simpl. by intros ->%negb_false_iff%eqb_prop. }
  intros t1 s1 mc1 Hmc1 Htr1. unfold SetDisableAccessTime. fold (atime_attr mr.(resSpec).(mrDisableAccessTime)).
  eapply update_tracked; [exact Htr1|done| |apply apply_atime| |].
  { unfold recorded. simpl. by intros ->%negb_false_iff%eqb_prop. }
  { intros t2 s2 err Htr2. exists mc1. rewrite app_assoc. done. }
  intros t2 s2 mc2 Hmc2 Htr2. unfold SetSecure. fold (secure_attr mr.(resSpec).(mrSecure)).
  eapply update_tracked; [exact Htr2|done| |apply apply_secure| |].
  { unfold recorded. simpl. by intros ->%negb_false_iff%eqb_prop. }
  { intros t3 s3 err Htr3. exists mc2. rewrite !app_assoc in *. done. }
  intros t3 s3 mc3 Hmc3 Htr3. apply does_ret. exists mc3. rewrite !app_nil_r, !app_assoc in *. split; [done|].
  intros _.
  assert (Hro : mc1.(readOnly) = mr.(resSpec).(mrReadOnly)) by (subst mc1; by apply (meets readOnly)).
  assert (Hnt : mc2.(disableAccessTime) = mr.(resSpec).(mrDisableAccessTime))
    by (subst mc2; by apply (meets disableAccessTime)).
  split_and!.
  - rewrite Hmc3, (keeps_field readOnly), Hmc2, (keeps_field readOnly); done.
  - rewrite Hmc3, (keeps_field disableAccessTime); done.
  - subst mc3. by apply (meets secure).
Qed.
End attributes.

(** C36: Whatever the kernel answers, after the operation on a disk mount the attributes the
    kernel was told, starting from none for a new mount and from the recorded ones for an
    active one, are those the controller records, also when it stops in between; without an
    error they are the requested ones.  For a detached mount the kernel is told nothing, and
    an active mount keeps its point. *)
Theorem disk_attributes_follow {W} `{HC : Cosi W} `{HK : Kernel W} source tgt fs mr vs (s s' : MountController W) r :
  (∀ mc, s.(activeMounts) !! mr.(resID) = Some mc → ∃ p, mounted s mr.(resID) mc p) →
  handleDiskMountOperation source tgt fs mr vs s = Ok (s', r) →
  ∃ t, ctrl_log s' = ctrl_log s ++ t ∧
    match s'.(activeMounts) !! mr.(resID) with
    | None => s.(activeMounts) !! mr.(resID) = None ∧ r ≠ inr ()
    | Some mc' => ∃ p,
        (match s.(activeMounts) !! mr.(resID) with
         | None => p.(target) = tgt ∧ p.(detached) = mr.(resSpec).(mrDetached) ∧
             tracked mr.(resID) p 0 t s' mc'
         | Some mc => mounted s mr.(resID) mc p ∧ tracked mr.(resID) p (recorded mc) t s' mc'
         end) ∧
        (r = inr () → recorded mc' = requested mr)
    end.
Proof.
  intros Hwf Hrun. revert s' r Hrun.
  apply (ensures_bind (active mr.(resID)) (λ mc, mc ← match mc with Some mc => mret mc
    | None => mount_disk source tgt fs mr vs end; update_disk mr mc)).
  unfold active. apply ensures_bind, ensures_get, ensures_ret.
  assert (Hmet : ∀ mc, mc.(readOnly) = mr.(resSpec).(mrReadOnly) ∧
     mc.(disableAccessTime) = mr.(resSpec).(mrDisableAccessTime) ∧ mc.(secure) = mr.(resSpec).(mrSecure) →
     recorded (W:=W) mc = requested mr) by (intros mc (H1 & H2 & H3); unfold recorded; by rewrite H1, H2, H3).
  destruct (activeMounts s !! resID mr) as [mc|] eqn:Emc.
  - destruct (Hwf mc eq_refl) as [p Hp]. apply ensures_bind, ensures_ret.
    eapply ensures_mono; [|apply (update_disk_tracked mr mc p (recorded mc) [])].
    2: { split; [done|]. by destruct (detached p). }
    intros s' r (t & Ht & mc' & Htr & Hr). exists t. split; [done|].
    pose proof Htr as [[-> _] _]. exists p. split; [done|]. auto.
  - apply (does_bind (mount_disk source tgt fs mr vs) (update_disk mr)).
    eapply does_mono; [|by apply mount_disk_log]. intros t s1 [err|mc].
    { intros ->. done. }
    intros (p & Hm & Htgt & Hdet & Hro & Hnt & Hse & Ht).
    eapply does_mono; [|apply (update_disk_tracked mr mc p 0 t)].
    2: { split; [done|]. destruct (detached p) eqn:Ed; [done|].
      rewrite (changes_attributes p (requested mr) t); [|done|by rewrite Htgt]. by rewrite (Hmet mc). }
    intros t' s' r (mc' & Htr & Hr). pose proof Htr as [[-> _] _]. exists p. split; [done|]. auto.
Qed.
