(* ===== verification/MountSim.v ===== *)
(** * A simulated store and kernel

    Concrete instances of the interfaces of the mounts, for the examples: a store of the
    resources with the phases and finalizers of the COSI runtime, and a kernel on which
    every call succeeds. *)

From S2P Require Import Prelude Errors Block Devices Volumes MountResources FileSystems.

Record store := {
  vmrs : gmap string VolumeMountRequest;
  vmss : gmap string (string * VolumeMountStatus);   (** with the label *)
  mrs : gmap string MountRequest;
  mss : gmap string MountStatus;
  vss : gmap string VolumeStatus
}.
Definition empty_store : store := {| vmrs := ∅; vmss := ∅; mrs := ∅; mss := ∅; vss := ∅ |}.

(** A change of the phase and the finalizers of a resource; [None]: the call fails. *)
Definition meta : Type := resource_phase * list string.
Definition change_resource {A} (f : meta → option meta) (r : Resource A) : option (Resource A) :=
  '(ph, fins) ← f (r.(resPhase), r.(resFinalizers));
  Some {| resID := r.(resID); resPhase := ph; resFinalizers := fins; resSpec := r.(resSpec) |}.
Definition change_volume (f : meta → option meta) (v : VolumeStatus) : option VolumeStatus :=
  '(ph, fins) ← f (v.(statusPhase), v.(statusFinalizers));
  Some {| statusID := v.(statusID); statusPhase := ph; statusFinalizers := fins;
          statusLabels := v.(statusLabels); statusSpec := v.(statusSpec) |}.

Definition NotFound : error := External "not found".
Definition Conflict : error := External "conflict".

Definition change_in {A} (change : A → option A) (id : string) (m : gmap string A) : error + gmap string A :=
  match m !! id with
  | None => inl NotFound
  | Some r => match change r with Some r => inr (<[id := r]> m) | None => inl Conflict end
  end.

Definition finish {A} (w : store) (put : gmap string A → store) (m : error + gmap string A) : store * option error :=
  match m with inl e => (w, Some e) | inr m => (put m, None) end.

Definition change_meta (f : meta → option meta) (r : mount_resource) (w : store) : store * option error :=
  match r with
  | VolumeMountRequestOf id => finish w (λ m, w <| vmrs := m |>) (change_in (change_resource f) id w.(vmrs))
  | VolumeMountStatusOf id =>
      finish w (λ m, w <| vmss := m |>)
        (change_in (λ p, r ← change_resource f p.2; Some (p.1, r)) id w.(vmss))
  | MountRequestOf id => finish w (λ m, w <| mrs := m |>) (change_in (change_resource f) id w.(mrs))
  | MountStatusOf id => finish w (λ m, w <| mss := m |>) (change_in (change_resource f) id w.(mss))
  | VolumeStatusOf id => finish w (λ m, w <| vss := m |>) (change_in (change_volume f) id w.(vss))
  end.

Definition get_meta (r : mount_resource) (w : store) : option meta :=
  let of_ {A} (r : Resource A) := (r.(resPhase), r.(resFinalizers)) in
  match r with
  | VolumeMountRequestOf id => of_ <$> w.(vmrs) !! id
  | VolumeMountStatusOf id => (λ p, of_ p.2) <$> w.(vmss) !! id
  | MountRequestOf id => of_ <$> w.(mrs) !! id
  | MountStatusOf id => of_ <$> w.(mss) !! id
  | VolumeStatusOf id => (λ v, (v.(statusPhase), v.(statusFinalizers))) <$> w.(vss) !! id
  end.

Definition destroy_resource (r : mount_resource) (w : store) : store :=
  match r with
  | VolumeMountRequestOf id => w <| vmrs := delete id w.(vmrs) |>
  | VolumeMountStatusOf id => w <| vmss := delete id w.(vmss) |>
  | MountRequestOf id => w <| mrs := delete id w.(mrs) |>
  | MountStatusOf id => w <| mss := delete id w.(mss) |>
  | VolumeStatusOf id => w <| vss := delete id w.(vss) |>
  end.

(** [safe.WriterModify]: a resource that is torn down cannot be modified. *)
Definition modify_in {A} (zero : A) (f : A → A) (id : string) (m : gmap string (Resource A))
    : error + gmap string (Resource A) :=
  match m !! id with
  | None => inr (<[id := {| resID := id; resPhase := PhaseRunning; resFinalizers := []; resSpec := f zero |}]> m)
  | Some r =>
      match r.(resPhase) with
      | PhaseRunning =>
          inr (<[id := {| resID := id; resPhase := PhaseRunning; resFinalizers := r.(resFinalizers);
                          resSpec := f r.(resSpec) |}]> m)
      | PhaseTearingDown => inl Conflict
      end
  end.

Definition zeroMountRequest : MountRequestSpec :=
  {| mrVolumeID := ""; ParentMountID := ""; mrReadOnly := false; mrDetached := false;
     mrDisableAccessTime := false; mrSecure := false; Requesters := []; RequesterIDs := [] |}.

Definition items {A} (m : gmap string A) : list A := snd <$> map_to_list m.

#[export] Instance sim_cosi : Cosi store := {|
  cosi_AddFinalizer := λ r fin,
    change_meta (λ '(ph, fins), match ph with PhaseRunning => Some (ph, fins ++ [fin]) | _ => None end) r;
  cosi_RemoveFinalizer := λ r fin,
    change_meta (λ '(ph, fins), Some (ph, filter (λ f, f ≠ fin) fins)) r;
  cosi_Teardown := λ r w,
    match change_meta (λ '(_, fins), Some (PhaseTearingDown, fins)) r w with
    | (w, Some e) => (w, inl e)
    | (w, None) => (w, inr (match get_meta r w with Some (_, []) => true | _ => false end))
    end;
  cosi_Destroy := λ r w,
    match get_meta r w with
    | Some (_, []) => (destroy_resource r w, None)
    | Some _ => (w, Some Conflict)
    | None => (w, Some NotFound)
    end;
  cosi_IsNotFound := λ e, match e with External s => String.eqb s "not found" | _ => false end;
  cosi_GetVolumeMountStatus := λ id w, (w, inr (snd <$> w.(vmss) !! id));
  cosi_ListVolumeStatuses := λ w, (w, inr (items w.(vss)));
  cosi_ListVolumeMountRequests := λ w, (w, inr (items w.(vmrs)));
  cosi_ListMountRequests := λ w, (w, inr (items w.(mrs)));
  cosi_ListMountStatuses := λ w, (w, inr (items w.(mss)));
  cosi_ListVolumeMountStatuses := λ label w,
    (w, inr (snd <$> filter (λ p, p.1 = label) (items w.(vmss))));
  cosi_ModifyVolumeMountRequest := λ id f w,
    finish w (λ m, w <| vmrs := m |>)
      (modify_in {| vmrVolumeID := ""; vmrRequester := ""; vmrReadOnly := false; vmrDetached := false;
                    vmrDisableAccessTime := false; vmrSecure := false |} f id w.(vmrs));
  cosi_ModifyMountRequest := λ id f w,
    finish w (λ m, w <| mrs := m |>) (modify_in zeroMountRequest f id w.(mrs));
  cosi_ModifyMountStatus := λ id f w,
    finish w (λ m, w <| mss := m |>)
      (modify_in {| msSpec := zeroMountRequest; msSource := ""; msTarget := ""; msFilesystem := FilesystemTypeNone;
                    msEncryptionProvider := EncryptionProviderNone; msReadOnly := false;
                    msProjectQuotaSupport := false; msDetached := false; msRoot := OSRoot "" |} f id w.(mss));
  cosi_ModifyVolumeMountStatus := λ id label f w,
    finish w (λ m, match m !! id with Some r => w <| vmss := <[id := (label, r)]> w.(vmss) |> | None => w end)
      (modify_in {| vmsVolumeID := ""; vmsRequester := ""; vmsTarget := ""; vmsReadOnly := false;
                    vmsDetached := false; vmsDisableAccessTime := false; vmsSecure := false; vmsRoot := OSRoot "" |}
         f id (snd <$> w.(vmss)))
|}.

Definition fine (w : store) : store * option error := (w, None).
Definition gives {A} (a : A) (w : store) : store * (error + A) := (w, inr a).
Definition directory : FileInfo := {| Mode := ModeDir; statUid := 0; statGid := 0 |}.

#[export] Instance sim_kernel : Kernel store := {|
  unix_Fsopen := λ _ _, gives 3;
  FsconfigSetString := λ _ _ _, fine;
  FsconfigSetFlag := λ _ _, fine;
  FsconfigSetBinary := λ _ _ _, fine;
  FsconfigCreate := λ _, fine;
  Fsmount := λ _ _ _ w, (w, (4, None));
  OpenTree := λ _ _ _, gives 4;
  unix_Close := λ _, fine;
  MoveMount := λ _ _ _ _ _, fine;
  MountSetattr := λ _ _ _ _, fine;
  unix_Unmount := λ _ _ w, (w, Some None);
  unix_Open := λ _ _ _, gives 5;
  Syncfs := λ _, fine;
  swap_On := λ _, fine;
  swap_Off := λ _, fine;
  proc_mounts := gives ([], None);
  cmd_Run := λ _, fine;
  MkdirAll := λ _ _, fine;
  Mkdir := λ _ _, fine;
  Stat := λ _, gives directory;
  Lstat := λ _ w, (w, inl NotFound);
  os_Symlink := λ _ _, fine;
  Readlink := λ _, gives ""%string;
  RemoveAll := λ _, fine;
  ReadDir := λ _, gives [];
  Chmod := λ _ _, fine;
  Chown := λ _ _ _, fine;
  Walk := λ _ w, (w, []);
  os_IsExist := λ _, false;
  os_IsNotExist := λ _, true;
  LGet := λ _, gives None;
  LSet := λ _ _, fine;
  selinux_IsEnabled := false;
  retry_Tick := λ w, (w, true);
  retry_Error := λ errs _, default NotFound (last errs);
  range_map := λ A m, map_to_list m
|}.
