(* ===== verification/MountExamples.v ===== *)
(** * Examples of the mounts

    The properties of the mounts on concrete inputs, in the simulated store and kernel. *)

From S2P Require Import Prelude Errors Block Devices Volumes MountResources VolumeMounter MountRequests FileSystems MountPoint Mounts MountSafety MountAttributes MountSim.
#[local] Open Scope string_scope.
#[local] Open Scope list_scope.

(** ** A volume mounter *)

Definition vm_status : VolumeMountStatus :=
  {| resID := "config-STATE"; resPhase := PhaseRunning; resFinalizers := [];
     resSpec := {| vmsVolumeID := "STATE"; vmsRequester := "config"; vmsTarget := "/system/state";
                   vmsReadOnly := true; vmsDetached := true; vmsDisableAccessTime := false;
                   vmsSecure := false; vmsRoot := PointRoot 0 |} |}.
Definition with_status (w : store) : store := w <| vmss := {["config-STATE" := ("STATE", vm_status)]} |>.
Definition the_mounter := NewVolumeMounter (W:=store) "config" "STATE" (λ _, fine) [VolumeMounter.WithReadOnly true; VolumeMounter.WithDetached true].
Definition first_run := RunMounter the_mounter.2 None {| auto_env := mkenv empty_store []; state := Some the_mounter.1 |}.
Definition after_first : ControllerAutomaton :=
  match first_run with Ok (a, _) => a | _ => {| auto_env := mkenv empty_store []; state := None |} end.
Definition second_run :=
  RunMounter the_mounter.2 None {| auto_env := mkenv (with_status after_first.(auto_env).(world)) after_first.(auto_env).(trace);
                                   state := after_first.(state) |}.
Definition after_second : ControllerAutomaton :=
  match second_run with Ok (a, _) => a | _ => after_first end.

(** The second run mounts, calls back, and removes the request; it waits for the status to
    go. *)
Lemma volume_mounter_protocol_witness :
  after_second.(state) = Some waitForVolumeMountStatusRemoved ∧
  mounter_log the_mounter.2 after_second.(state) after_second.(auto_env).(trace) ∧
  ∃ a' r, RunMounter the_mounter.2 None after_second = Ok (a', r).
Proof.
  assert (H1 : ∃ r, first_run = Ok (after_first, r)) by (eexists; vm_compute; reflexivity).
  assert (H2 : ∃ r, second_run = Ok (after_second, r)) by (eexists; vm_compute; reflexivity).
  destruct H1 as [r1 H1], H2 as [r2 H2]. split; [vm_compute; reflexivity|].
  apply (volume_mounter_protocol (W:=store) "config" "STATE" (λ _, fine)
    [VolumeMounter.WithReadOnly true; VolumeMounter.WithDetached true] None after_second); [done|].
  eapply (reachable_run _ _ after_first); [|exact H2].
  eapply (reachable_run _ _ {| auto_env := mkenv empty_store []; state := Some the_mounter.1 |} empty_store); [|exact H1].
  apply reachable_new.
Defined.

(** ** Two requests for a volume *)

Definition ephemeral : VolumeStatus :=
  {| statusID := "EPHEMERAL"; statusPhase := PhaseRunning; statusFinalizers := []; statusLabels := ∅;
     statusSpec := zeroStatus <| Phase := VolumePhaseReady |> <| MountLocation := "/dev/sda4" |>
       <| Filesystem := FilesystemTypeXFS |> <| mountSpec := zeroMountSpec <| TargetPath := "/var" |> |> |}.

Definition vm_request (requester : string) (ro detached : bool) : VolumeMountRequest :=
  {| resID := requester +:+ "-EPHEMERAL"; resPhase := PhaseRunning; resFinalizers := [];
     resSpec := {| vmrVolumeID := "EPHEMERAL"; vmrRequester := requester; vmrReadOnly := ro;
                   vmrDetached := detached; vmrDisableAccessTime := ro; vmrSecure := true |} |}.
Definition two_requests : list VolumeMountRequest := [vm_request "kubelet" true true; vm_request "etcd" false true].

Definition joined : MountRequestSpec :=
  {| mrVolumeID := "EPHEMERAL"; ParentMountID := ""; mrReadOnly := false; mrDetached := true;
     mrDisableAccessTime := true; mrSecure := true; Requesters := ["kubelet"; "etcd"];
     RequesterIDs := ["kubelet-EPHEMERAL"; "etcd-EPHEMERAL"] |}.
Definition request (id : string) (ph : resource_phase) (fins : list string) (spec : MountRequestSpec) : MountRequest :=
  {| resID := id; resPhase := ph; resFinalizers := fins; resSpec := spec |}.
(** A request nobody wants, and the previous version of the one that is wanted. *)
Definition existing : list MountRequest :=
  [request "STATE" PhaseRunning [] joined; request "EPHEMERAL" PhaseTearingDown [] joined].
Definition with_requests : store :=
  empty_store <| mrs := list_to_map ((λ r, (r.(resID), r)) <$> existing) |>.

Definition requests_pass :=
  MountRequestController.progress_requests map_to_list
    (MountRequestController.desired_requests (ToMap statusID [ephemeral]) two_requests) existing
    (mkenv with_requests []).
Definition after_pass : env store := match requests_pass with Ok (e, _) => e | _ => mkenv empty_store [] end.

Lemma mount_requests_pass_witness :
  after_pass.(trace) =
    [MountRequestController.teardown_of "STATE" true; MountRequestController.destroy_of "STATE";
     MountRequestController.teardown_of "EPHEMERAL" true; MountRequestController.destroy_of "EPHEMERAL";
     EvMount (MPutRequest "EPHEMERAL" joined)] ∧
  ∃ t puts, after_pass.(trace) = [] ++ t ++ ((λ p, EvMount (MPutRequest p.1 p.2)) <$> puts) ∧
    ∀ id spec, (id, spec) ∈ puts →
      MountRequestController.wanted (ToMap statusID [ephemeral]) two_requests id = Some spec ∧
      MountRequestController.replaceable existing t id.
Proof.
  assert (Hrun : requests_pass = Ok (after_pass, inr ())) by (vm_compute; reflexivity).
  split; [vm_compute; reflexivity|].
  destruct (MountRequestController.mount_requests_pass map_to_list [ephemeral] two_requests existing _ _ _
    (λ m, reflexivity _) ltac:(apply (bool_decide_unpack _); vm_compute; exact I) Hrun)
    as (t & puts & Ht & _ & _ & Hputs & _).
  exists t, puts. split; [exact Ht|exact Hputs].
Defined.

(** ** The status of a mount that goes *)

Definition mounted_spec : MountStatusSpec :=
  {| msSpec := joined; msSource := "/dev/sda4"; msTarget := "/var"; msFilesystem := FilesystemTypeXFS;
     msEncryptionProvider := EncryptionProviderNone; msReadOnly := false; msProjectQuotaSupport := false;
     msDetached := true; msRoot := PointRoot 0 |}.
Definition mount_status (ph : resource_phase) (fins : list string) : MountStatus :=
  {| resID := "EPHEMERAL"; resPhase := ph; resFinalizers := fins; resSpec := mounted_spec |}.
Definition requester_of (r : string) : VolumeMountStatus :=
  {| resID := r +:+ "-EPHEMERAL"; resPhase := PhaseRunning; resFinalizers := [];
     resSpec := MountStatusController.requester_status mounted_spec r |}.
Definition with_statuses : store :=
  empty_store <| vmss := {["kubelet-EPHEMERAL" := ("EPHEMERAL", requester_of "kubelet")]} |>
    <| mss := {["EPHEMERAL" := mount_status PhaseTearingDown [MountStatusController.Name]]} |>.
Definition statuses_pass :=
  for_each MountStatusController.progress_status [mount_status PhaseTearingDown [MountStatusController.Name]]
    (mkenv with_statuses []).
Definition after_statuses : env store := match statuses_pass with Ok (e, _) => e | _ => mkenv empty_store [] end.

Lemma mount_statuses_held_witness :
  after_statuses.(trace) =
    [MountStatusController.list_of "EPHEMERAL" ["kubelet-EPHEMERAL"];
     MountStatusController.teardown_of "kubelet-EPHEMERAL" true;
     MountStatusController.destroy_of "kubelet-EPHEMERAL";
     MountStatusController.release_of "EPHEMERAL"] ∧
  ∃ t, after_statuses.(trace) = [] ++ t ∧
    ∀ before ev after, t = before ++ ev :: after →
      MountStatusController.status_call [mount_status PhaseTearingDown [MountStatusController.Name]] before ev.
Proof.
  assert (Hrun : statuses_pass = Ok (after_statuses, inr ())) by (vm_compute; reflexivity).
  split; [vm_compute; reflexivity|].
  destruct (MountStatusController.mount_statuses_held _ _ _ _ Hrun) as (t & Ht & Hcalls & _).
  exists t. split; [exact Ht|exact Hcalls].
Defined.

(** ** A mount point *)

Definition heap0 : heap store := {| heap_io := mkenv empty_store []; points := ∅; nextPoint := 0 |}.
Definition var_request (ro detached : bool) : MountRequest :=
  request "EPHEMERAL" PhaseRunning [Name]
    {| mrVolumeID := "EPHEMERAL"; ParentMountID := ""; mrReadOnly := ro; mrDetached := detached;
       mrDisableAccessTime := true; mrSecure := true; Requesters := []; RequesterIDs := [] |}.
Definition var_manager (detached : bool) : Manager (W:=store) :=
  disk_manager "/dev/sda4" "/var" FilesystemTypeXFS (var_request true detached) ephemeral.

Lemma mount_tried_once_witness :
  ∃ h' r t, manager_Mount (var_manager false) heap0 = Ok (h', r) ∧
    h'.(heap_io).(trace) = [] ++ t ∧ EvMount MRepair ∉ t ∧
    tried_once "/var" 0x17 false t.
Proof.
  assert (Hfs : mgrFS (var_manager false) = Some (default (OpentreeFS (NewFromPath_ "")) (mgrFS (var_manager false))))
    by (vm_compute; reflexivity).
  destruct (mount_tried_once (var_manager false) _ heap0 Hfs) as (h' & r & t & Hrun & Ht & Hrep & _ & _ & Hpre & _).
  exists h', r, t. split_and!; [exact Hrun|exact Ht|exact Hrep|].
  apply (Hpre ltac:(vm_compute; reflexivity)).
Defined.

(** ** The controller of the mounts *)

Definition controller0 (w : store) : MountController store :=
  {| ctrlHeap := {| heap_io := mkenv w []; points := ∅; nextPoint := 0 |}; activeMounts := ∅ |}.
Definition result (c : outcome Empty_set (MountController store * (error + ()))) : MountController store :=
  match c with Ok (s, _) => s | _ => controller0 empty_store end.
Definition forget (s : MountController store) : MountController store :=
  {| ctrlHeap := {| heap_io := mkenv s.(ctrlHeap).(heap_io).(world) []; points := s.(ctrlHeap).(points);
                    nextPoint := s.(ctrlHeap).(nextPoint) |}; activeMounts := s.(activeMounts) |}.

(** A store with a mounted volume whose status is being torn down; the controller has
    mounted it. *)
Definition held : VolumeStatus :=
  {| statusID := "EPHEMERAL"; statusPhase := PhaseRunning; statusFinalizers := [Name]; statusLabels := ∅;
     statusSpec := ephemeral.(statusSpec) |}.
Definition mounted_store : store :=
  empty_store <| vss := {["EPHEMERAL" := held]} |>
    <| mrs := {["EPHEMERAL" := var_request false false]} |>
    <| mss := {["EPHEMERAL" := mount_status PhaseTearingDown []]} |>.
Definition mount_it (s : MountController store) := handleMountOperation "/" "/dev/sda4" "/var" FilesystemTypeXFS (var_request false false) ephemeral s.
Definition mounted_controller : MountController store := forget (result (mount_it (controller0 mounted_store))).
Definition turn := process_request {["EPHEMERAL" := held]} {["EPHEMERAL" := mount_status PhaseTearingDown []]}
  (var_request false false) mounted_controller.
Definition after_turn : MountController store := result turn.

Lemma mounts_released_witness :
  let vs := ({["EPHEMERAL" := held]} : gmap string VolumeStatus) !! "EPHEMERAL" in
  ∃ down up s1 r1, ctrl_log after_turn = [] ++ down ++ up ∧
    downed (var_request false false) vs None mounted_controller down s1 r1.
Proof.
  assert (Hrun : turn = Ok (after_turn, inr ())) by (vm_compute; reflexivity).
  destruct (mounts_released _ _ _ _ _ _ Hrun) as (down & up & s1 & r1 & Hlog & Hdown & _).
  exists down, up, s1, r1. split; [exact Hlog|]. revert Hdown.
  assert (Hmust : must_take_down (var_request false false)
    (({["EPHEMERAL" := held]} : gmap string VolumeStatus) !! "EPHEMERAL")
    (({["EPHEMERAL" := mount_status PhaseTearingDown []]} : gmap string MountStatus) !! "EPHEMERAL")
    (({["EPHEMERAL" := mount_status PhaseTearingDown []]} : gmap string MountStatus) !! "") = true)
    by (vm_compute; reflexivity).
  simpl. rewrite Hmust. exact (λ H, H).
Defined.

(** The turn looks at what was read before it: after it has dropped the finalizers it
    mounts the volume again without them. *)
Example remount_without_finalizers :
  ctrl_log after_turn =
    [status_teardown "EPHEMERAL" true; EvMount (MDestroy (MountStatusOf "EPHEMERAL"));
     EvMount (MUmount "/var");
     EvMount (MRemoveFinalizer (VolumeStatusOf "EPHEMERAL") Name);
     EvMount (MRemoveFinalizer (MountRequestOf "EPHEMERAL") Name);
     EvMount (MMove "/var" true); EvMount (MSetattr "/var" 0x16 0x70);
     put_status (var_request false false) held None after_turn] ∧
  statusFinalizers <$> (after_turn.(ctrlHeap).(heap_io).(world).(vss) !! "EPHEMERAL") = Some [] ∧
  is_Some (after_turn.(activeMounts) !! "EPHEMERAL").
Proof. split_and!; [vm_compute; reflexivity..|]. vm_compute. eauto. Qed.

(** ** Attributes *)

Definition remounted (req : MountRequest) := handleDiskMountOperation "/dev/sda4" "/var" FilesystemTypeXFS req ephemeral mounted_controller.

Lemma disk_attributes_follow_witness :
  requested (var_request false false) = 0x16 ∧ requested (var_request true false) = 0x17 ∧
  ∃ t, ctrl_log (result (remounted (var_request true false))) = [] ++ t ∧
    match (result (remounted (var_request true false))).(activeMounts) !! "EPHEMERAL" with
    | Some mc' => recorded mc' = 0x17
    | None => False
    end.
Proof.
  assert (Hrun : remounted (var_request true false) = Ok (result (remounted (var_request true false)), inr ()))
    by (vm_compute; reflexivity).
  split_and!; [vm_compute; reflexivity..|].
  assert (Hwf : ∀ mc, mounted_controller.(activeMounts) !! "EPHEMERAL" = Some mc →
    ∃ p, mounted mounted_controller "EPHEMERAL" mc p).
  { intros mc Hmc. vm_compute in Hmc. injection Hmc as <-. eexists. split; [vm_compute; reflexivity|].
    exists 0. split_and!; [vm_compute; reflexivity..|]. vm_compute. eauto. }
  destruct (disk_attributes_follow "/dev/sda4" "/var" FilesystemTypeXFS (var_request true false) ephemeral
    mounted_controller _ _ Hwf Hrun) as (t & Ht & Hend).
  exists t. split; [exact Ht|]. revert Hend.
  change (resID (var_request true false)) with "EPHEMERAL".
  destruct (activeMounts (result (remounted (var_request true false))) !! "EPHEMERAL") as [mc'|].
  - intros (p & _ & Hr). rewrite (Hr eq_refl). vm_compute. reflexivity.
  - intros [_ Hr]. by apply Hr.
Defined.

(** A detached mount gets no attributes, though they are recorded. *)
Example detached_without_attributes :
  let s := result (handleDiskMountOperation "/dev/sda4" "/var" FilesystemTypeXFS (var_request true true) ephemeral
                     (controller0 empty_store)) in
  ctrl_log s = [] ∧ recorded <$> (s.(activeMounts) !! "EPHEMERAL") = Some 0x17.
Proof. split; vm_compute; reflexivity. Qed.

(** A detached mount stays detached when a request that is not joins, but its status says
    that it is attached. *)
Example detached_reported_attached :
  let s := result (handleDiskMountOperation "/dev/sda4" "/var" FilesystemTypeXFS (var_request false true) ephemeral
                     (controller0 mounted_store)) in
  let s' := result (handleDiskMountOperation "/dev/sda4" "/var" FilesystemTypeXFS (var_request false false) ephemeral s) in
  ctrl_log s' = [] ∧ detached <$> (s'.(ctrlHeap).(points) !! 0) = Some true ∧
  (mount_status_spec (var_request false false) ephemeral "/" (s'.(activeMounts) !! "EPHEMERAL")).(msDetached) = false.
Proof. split_and!; vm_compute; reflexivity. Qed.
