(* ===== verification/Netip.v ===== *)
(** * IP addresses

    [net/netip]: addresses and prefixes; and the sets of addresses of go4.org/netipx, an
    interface with its laws.  On top, [adapters/network/ipset.go].  Zones are left out: a
    prefix has none. *)

From S2P Require Import Prelude Errors.

(** ** Intervals of integers *)

Definition interval : Type := Z * Z.
Definition inside (x : Z) (i : interval) : bool := (i.1 <=? x) && (x <=? i.2).
Definition covers (l : list interval) (x : Z) : bool := existsb (inside x) l.

(** Sorted, and with a gap between each and the next. *)
Definition before (i j : interval) : Prop := i.2 + 1 < j.1.
Definition separated (l : list interval) : Prop :=
  StronglySorted before l ∧ Forall (λ i, i.1 ≤ i.2) l.

Lemma inside_iff x i : inside x i = true ↔ i.1 ≤ x ≤ i.2.
Proof. unfold inside. rewrite andb_true_iff, !Z.leb_le. done. Qed.

Lemma covers_iff l x : covers l x = true ↔ ∃ i, i ∈ l ∧ i.1 ≤ x ≤ i.2.
Proof.
  unfold covers. rewrite existsb_exists. split; intros (i & Hi & Hx); exists i.
  - by rewrite list_elem_of_In, <- inside_iff.
  - by rewrite <- list_elem_of_In, inside_iff.
Qed.

Lemma separated_nil : separated [].
Proof. split; constructor. Qed.

Lemma separated_cons i l :
  separated (i :: l) ↔ i.1 ≤ i.2 ∧ Forall (before i) l ∧ separated l.
Proof.
  unfold separated. split.
  - intros [[? ?]%StronglySorted_inv [? ?]%Forall_cons]. done.
  - intros (? & ? & ? & ?). by split; constructor.
Qed.

(** ** Big-endian numbers *)

(** The [n] bytes of [v]. *)
Fixpoint be (n : nat) (v : Z) : list Z :=
  match n with O => [] | S n => u8 (v / 2 ^ (8 * Z.of_nat n)) :: be n v end.

Lemma length_be n v : length (be n v) = n.
Proof. induction n; simpl; by f_equal. Qed.

Lemma be_mod n v : be n (v mod 2 ^ (8 * Z.of_nat n)) = be n v.
Proof.
  enough (∀ m, (n ≤ m)%nat → be n (v mod 2 ^ (8 * Z.of_nat m)) = be n v) by auto.
  induction n as [|n IH]; intros m Hm; [done|]. simpl. rewrite IH by lia. f_equal.
  unfold u8. rewrite <- !Z.shiftr_div_pow2, <- !Z.land_ones by lia.
  apply Z.bits_inj'. intros i Hi. rewrite !Z.land_spec, !Z.shiftr_spec, Z.land_spec by done.
  destruct (decide (i < 8)); [|rewrite !(Z.ones_spec_high 8) by lia; by rewrite !andb_false_r].
  rewrite (Z.ones_spec_low _ (i + _)) by lia. by rewrite andb_true_r.
Qed.

Lemma be_inj n v w : 0 ≤ v < 2 ^ (8 * Z.of_nat n) → 0 ≤ w < 2 ^ (8 * Z.of_nat n) → be n v = be n w → v = w.
Proof.
  revert v w. induction n as [|n IH]; intros v w Hv Hw; [simpl in *; lia|].
  cbn [be]. intros [= Hhead Htail].
  set (p := 2 ^ (8 * Z.of_nat n)) in *.
  assert (Hp : 0 < p) by (apply Z.pow_pos_nonneg; lia).
  replace (2 ^ (8 * Z.of_nat (S n))) with (256 * p) in *
    by (unfold p; rewrite Nat2Z.inj_succ, Z.mul_succ_r, Z.pow_add_r by lia; lia).
  assert (v mod p = w mod p).
  { apply IH; [apply Z.mod_pos_bound; lia..|]. unfold p. by rewrite !be_mod. }
  assert (Hq : ∀ x, 0 ≤ x < 256 * p → 0 ≤ x / p < 256).
  { intros x Hx. split; [apply Z.div_pos; lia|apply Z.div_lt_upper_bound; lia]. }
  rewrite !u8_small in Hhead by auto.
  rewrite (Z.div_mod v p), (Z.div_mod w p) by lia. congruence.
Qed.

(** ** Addresses and prefixes *)

Inductive Family := IPv4 | IPv6.
#[export] Instance Family_eq_dec : EqDecision Family.
Proof. solve_decision. Defined.

(** The number of bytes of an address, and the addresses of a family. *)
Definition address_bytes (f : Family) : nat := match f with IPv4 => 4 | IPv6 => 16 end.
Definition BitLen (f : Family) : Z := 8 * Z.of_nat (address_bytes f).
Definition last_value (f : Family) : Z := 2 ^ BitLen f - 1.

Record Addr := { family : Family; value : Z }.
#[export] Instance Addr_eq_dec : EqDecision Addr.
Proof. solve_decision. Defined.
Definition valid_addr (a : Addr) : Prop := 0 ≤ a.(value) ≤ last_value a.(family).

Definition Is4 (a : Addr) : bool := bool_decide (a.(family) = IPv4).

(** The zero [netip.Addr] is [None]: it is what follows the last address, and its
    [MarshalBinary] is empty. *)
Definition Next (a : Addr) : option Addr :=
  if a.(value) =? last_value a.(family) then None
  else Some {| family := a.(family); value := a.(value) + 1 |}.
Definition MarshalBinary (a : option Addr) : list Z :=
  match a with None => [] | Some a => be (address_bytes a.(family)) a.(value) end.

(** A prefix; one that is not valid has no good number of bits. *)
Record Prefix := { prefixAddr : Addr; prefixBits : Z }.
Definition prefix_IsValid (p : Prefix) : bool :=
  (0 <=? p.(prefixBits)) && (p.(prefixBits) <=? BitLen p.(prefixAddr).(family)).
Definition PrefixFrom (a : Addr) (bits : Z) : Prefix := {| prefixAddr := a; prefixBits := bits |}.

(** [Prefix.Contains]: the leading bits agree. *)
Definition Contains (p : Prefix) (a : Addr) : bool :=
  bool_decide (p.(prefixAddr).(family) = a.(family)) &&
  (Z.shiftr p.(prefixAddr).(value) (BitLen a.(family) - p.(prefixBits)) =?
   Z.shiftr a.(value) (BitLen a.(family) - p.(prefixBits))).

Record IPRange := { From : Addr; To : Addr }.
Definition bounds (r : IPRange) : interval := (r.(From).(value), r.(To).(value)).
Definition valid_range (r : IPRange) : Prop :=
  valid_addr r.(From) ∧ valid_addr r.(To) ∧ r.(From).(family) = r.(To).(family).
Definition of_family (f : Family) (rs : list IPRange) : list IPRange :=
  filter (λ r, r.(From).(family) = f) rs.

(** ** Sets of addresses *)

(** [netipx.IPSetBuilder] and [netipx.IPSet]. *)
Class Netipx := {
  IPSetBuilder : Type;
  IPSet : Type;
  zeroBuilder : IPSetBuilder;
  AddPrefix : Prefix → IPSetBuilder → IPSetBuilder;
  RemovePrefix : Prefix → IPSetBuilder → IPSetBuilder;
  builder_IPSet : IPSetBuilder → error + IPSet;
  Ranges : IPSet → list IPRange
}.

(** What the code relies on: a builder stands for a set of addresses, valid prefixes make
    no error, and the ranges of a set are as few as possible and sorted. *)
Class NetipxLaws (N : Netipx) := {
  in_builder : IPSetBuilder → Addr → bool;
  faultless : IPSetBuilder → Prop;
  in_zeroBuilder a : in_builder zeroBuilder a = false;
  faultless_zero : faultless zeroBuilder;
  in_AddPrefix p b a : prefix_IsValid p = true → valid_addr p.(prefixAddr) → valid_addr a →
    in_builder (AddPrefix p b) a = Contains p a || in_builder b a;
  faultless_AddPrefix p b : prefix_IsValid p = true → faultless b → faultless (AddPrefix p b);
  in_RemovePrefix p b a : prefix_IsValid p = true → valid_addr p.(prefixAddr) → valid_addr a →
    in_builder (RemovePrefix p b) a = in_builder b a && negb (Contains p a);
  faultless_RemovePrefix p b : prefix_IsValid p = true → faultless b → faultless (RemovePrefix p b);
  IPSet_faultless b : faultless b → ∃ s, builder_IPSet b = inr s;
  Ranges_valid b s : builder_IPSet b = inr s → Forall valid_range (Ranges s);
  Ranges_separated b s f : builder_IPSet b = inr s → separated (bounds <$> of_family f (Ranges s));
  Ranges_members b s a : builder_IPSet b = inr s → faultless b → valid_addr a →
    covers (bounds <$> of_family a.(family) (Ranges s)) a.(value) = in_builder b a
}.

Section ipset.
Context `{N : Netipx}.

Definition BuildIPSet (include exclude : list Prefix) : error + IPSet :=
  builder_IPSet (foldl (λ b p, RemovePrefix p b) (foldl (λ b p, AddPrefix p b) zeroBuilder include) exclude).

Fixpoint split_ranges (rs ipv4 ipv6 : list IPRange) : list IPRange * list IPRange :=
  match rs with
  | [] => (ipv4, ipv6)
  | rng :: rs =>
      if Is4 rng.(From) then split_ranges rs (ipv4 ++ [rng]) ipv6
      else split_ranges rs ipv4 (ipv6 ++ [rng])
  end.
Definition SplitIPSet (set : IPSet) : list IPRange * list IPRange := split_ranges (Ranges set) [] [].

(** *** What they compute *)

Definition usable (p : Prefix) : Prop := prefix_IsValid p = true ∧ valid_addr p.(prefixAddr).
(** The addresses of the set. *)
Definition member (include exclude : list Prefix) (a : Addr) : bool :=
  existsb (λ p, Contains p a) include && negb (existsb (λ p, Contains p a) exclude).

Lemma split_ranges_spec rs l4 l6 :
  split_ranges rs l4 l6 = (l4 ++ of_family IPv4 rs, l6 ++ of_family IPv6 rs).
Proof.
  revert l4 l6. induction rs as [|r rs IH]; intros l4 l6; simpl; [by rewrite !app_nil_r|].
  unfold of_family, Is4. case_bool_decide as Hf; rewrite IH; unfold of_family.
  - rewrite filter_cons_True, filter_cons_False by (rewrite ?Hf; done). by rewrite <- app_assoc.
  - rewrite filter_cons_False, (filter_cons_True _ r) by (destruct (family (From r)); done).
    by rewrite <- app_assoc.
Qed.

Lemma SplitIPSet_spec set :
  SplitIPSet set = (of_family IPv4 (Ranges set), of_family IPv6 (Ranges set)).
Proof. apply split_ranges_spec. Qed.

Context `{L : !NetipxLaws N}.

Lemma add_prefixes_spec include b a : Forall usable include → faultless b → valid_addr a →
  faultless (foldl (λ b p, AddPrefix p b) b include) ∧
  in_builder (foldl (λ b p, AddPrefix p b) b include) a =
    in_builder b a || existsb (λ p, Contains p a) include.
Proof.
  revert b. induction include as [|p l IH]; intros b Hu Hb Ha; simpl; [by rewrite orb_false_r|].
  apply Forall_cons in Hu as [[Hv Hp] Hu].
  destruct (IH (AddPrefix p b)) as [Hf Hin]; [done|by apply faultless_AddPrefix|done|].
  split; [done|]. rewrite Hin, in_AddPrefix by done. by destruct (Contains p a), (in_builder b a).
Qed.

Lemma remove_prefixes_spec exclude b a : Forall usable exclude → faultless b → valid_addr a →
  faultless (foldl (λ b p, RemovePrefix p b) b exclude) ∧
  in_builder (foldl (λ b p, RemovePrefix p b) b exclude) a =
    in_builder b a && negb (existsb (λ p, Contains p a) exclude).
Proof.
  revert b. induction exclude as [|p l IH]; intros b Hu Hb Ha; simpl; [by rewrite andb_true_r|].
  apply Forall_cons in Hu as [[Hv Hp] Hu].
  destruct (IH (RemovePrefix p b)) as [Hf Hin]; [done|by apply faultless_RemovePrefix|done|].
  split; [done|]. rewrite Hin, in_RemovePrefix by done. by destruct (Contains p a), (in_builder b a).
Qed.

(** Usable prefixes make a set; its ranges of either family hold the included addresses
    that are not excluded. *)
Lemma BuildIPSet_spec include exclude : Forall usable include → Forall usable exclude →
  ∃ s, BuildIPSet include exclude = inr s ∧
    Forall valid_range (Ranges s) ∧
    (∀ f, separated (bounds <$> of_family f (Ranges s))) ∧
    (∀ a, valid_addr a →
      covers (bounds <$> of_family a.(family) (Ranges s)) a.(value) = member include exclude a).
Proof.
  intros Hi He. unfold BuildIPSet. set (b := foldl _ (foldl _ _ _) _).
  assert (Hb : faultless b ∧ ∀ a, valid_addr a → in_builder b a = member include exclude a).
  { assert (H0 : valid_addr {| family := IPv4; value := 0 |}) by (by vm_compute).
    split.
    - eapply remove_prefixes_spec; [done| |done]. by eapply add_prefixes_spec; [|apply faultless_zero|].
    - intros a Ha. unfold b.
      destruct (add_prefixes_spec include zeroBuilder a) as [Hf Hin]; [done|apply faultless_zero|done|].
      destruct (remove_prefixes_spec exclude (foldl (λ b p, AddPrefix p b) zeroBuilder include) a) as [_ ->]; [done..|].
      by rewrite Hin, in_zeroBuilder. }
  destruct Hb as [Hf Hin]. destruct (IPSet_faultless b Hf) as [s Hs]. exists s.
  split_and!; [done|by eapply Ranges_valid| |].
  - intros f. by eapply Ranges_separated.
  - intros a Ha. rewrite (Ranges_members b) by done. auto.
Qed.
End ipset.
