(* ===== verification/NfTables.v ===== *)
(** * Firewall rules and their instructions

    The rules of nftables chains (resources/network/nftables_chain.go), and their
    compilation to the instructions of nftables
    (adapters/network/nftables_rule.go). *)

From S2P Require Import Prelude Errors Bytes Netip.

Definition u16 (n : Z) : Z := n mod 2 ^ 16.

(** ** Rules *)

Inductive MatchOperator := OperatorEqual | OperatorNotEqual.
Inductive NfTablesVerdict := VerdictDrop | VerdictAccept.

Definition ConntrackStateNew : Z := 0x08.
Definition ConntrackStateRelated : Z := 0x04.
Definition ConntrackStateEstablished : Z := 0x02.
Definition ConntrackStateInvalid : Z := 0x01.

Definition ProtocolICMP : Z := 0x1.
Definition ProtocolTCP : Z := 0x6.
Definition ProtocolUDP : Z := 0x11.
Definition ProtocolICMPv6 : Z := 0x3a.

Definition ICMPTypeTimestampRequest : Z := 13.
Definition ICMPTypeTimestampReply : Z := 14.
Definition ICMPTypeAddressMaskRequest : Z := 17.
Definition ICMPTypeAddressMaskReply : Z := 18.

Record NfTablesIfNameMatch := { InterfaceNames : list string; Operator : MatchOperator }.
Record NfTablesMark := { markMask : Z; markXor : Z; markValue : Z }.
Record NfTablesAddressMatch := { IncludeSubnets : list Prefix; ExcludeSubnets : list Prefix; addrInvert : bool }.
Record PortRange := { Lo : Z; Hi : Z }.
Record NfTablesLayer4Match := {
  Protocol : Z;
  MatchSourcePort : option (list PortRange);
  MatchDestinationPort : option (list PortRange);
  MatchICMPType : option (list Z)
}.

Record NfTablesRule := {
  MatchIIfName : option NfTablesIfNameMatch;
  MatchOIfName : option NfTablesIfNameMatch;
  MatchMark : option NfTablesMark;
  MatchConntrackState : option (list Z);
  MatchSourceAddress : option NfTablesAddressMatch;
  MatchDestinationAddress : option NfTablesAddressMatch;
  MatchLayer4 : option NfTablesLayer4Match;
  MatchLimit : option Z;         (** packets per second *)
  ClampMSS : option Z;           (** the MTU *)
  SetMark : option NfTablesMark;
  AnonCounter : bool;
  ruleVerdict : option NfTablesVerdict
}.

(** A rule that says nothing. *)
Definition noRule : NfTablesRule := {|
  MatchIIfName := None; MatchOIfName := None; MatchMark := None; MatchConntrackState := None;
  MatchSourceAddress := None; MatchDestinationAddress := None; MatchLayer4 := None;
  MatchLimit := None; ClampMSS := None; SetMark := None; AnonCounter := false; ruleVerdict := None
|}.

(** ** Instructions

    [expr.Any] of google/nftables, what the code uses of it. *)

Inductive MetaKey := MetaKeyNFPROTO | MetaKeyIIFNAME | MetaKeyOIFNAME | MetaKeyMARK | MetaKeyL4PROTO.
Inductive CmpOp := CmpOpEq | CmpOpNeq | CmpOpGt.
Inductive PayloadBase := PayloadBaseNetworkHeader | PayloadBaseTransportHeader.

Inductive Any :=
  | Meta (Key : MetaKey) (Register : Z) (SourceRegister : bool)
  | Cmp (Op : CmpOp) (Register : Z) (Data : list Z)
  | Ct (Register : Z)                              (** the state, [CtKeySTATE] *)
  | Bitwise (SourceRegister DestRegister Len : Z) (Mask Xor : list Z)
  | Lookup (SourceRegister SetID : Z) (SetName : string) (Invert : bool)
  | Payload (DestRegister : Z) (Base : PayloadBase) (Offset Len : Z)
  | ExthdrLoad (DestRegister Type_ Offset Len : Z)   (** TCP options *)
  | ExthdrWrite (SourceRegister Type_ Offset Len : Z)
  | Immediate (Register : Z) (Data : list Z)
  | Limit (Rate Burst : Z)                         (** packets, per second *)
  | Counter
  | Verdict (Kind : NfTablesVerdict).

Definition TableFamilyIPv4 : Z := 2.
Definition TableFamilyIPv6 : Z := 10.
Definition IPPROTO_TCP : Z := 6.

Definition cmp_operator (o : MatchOperator) : CmpOp :=
  match o with OperatorEqual => CmpOpEq | OperatorNotEqual => CmpOpNeq end.
Definition is_not_equal (o : MatchOperator) : bool :=
  match o with OperatorEqual => false | OperatorNotEqual => true end.

(** ** Sets *)

Inductive NfTablesSet :=
  | SetKindIPv4 (Addresses : list IPRange)
  | SetKindIPv6 (Addresses : list IPRange)
  | SetKindPort (Ports : list interval)
  | SetKindIfName (Strings : list (list Z))
  | SetKindConntrackState (ConntrackStates : list Z)
  | SetKindICMPType (ICMPTypes : list Z).

Inductive SetDatatype := TypeIPAddr | TypeIP6Addr | TypeInetService | TypeIFName | TypeCTState | TypeICMPType.

Definition IsInterval (set : NfTablesSet) : bool :=
  match set with
  | SetKindIPv4 _ | SetKindIPv6 _ | SetKindPort _ => true
  | SetKindIfName _ | SetKindConntrackState _ | SetKindICMPType _ => false
  end.

Definition KeyType (set : NfTablesSet) : SetDatatype :=
  match set with
  | SetKindIPv4 _ => TypeIPAddr
  | SetKindIPv6 _ => TypeIP6Addr
  | SetKindPort _ => TypeInetService
  | SetKindIfName _ => TypeIFName
  | SetKindConntrackState _ => TypeCTState
  | SetKindICMPType _ => TypeICMPType
  end.

Record SetElement := { Key : list Z; IntervalEnd : bool }.

(** The loop over the sorted ports: [cur] is [ports[i]]. *)
Fixpoint merge_from (cur : interval) (ports : list interval) : list interval :=
  match ports with
  | [] => [cur]
  | next :: ports =>
      if next.1 <=? u16 (cur.2 + 1) then merge_from (cur.1, next.2) ports
      else cur :: merge_from next ports
  end.

Section sorting.
Context `{Sort : SlicesSort}.

Definition sort_ports (ports : list interval) : list interval :=
  SortFunc (λ a b, cmp_Compare a.1 b.1) ports.

Definition mergeAdjacentPorts (ports : list interval) : list interval :=
  match sort_ports ports with [] => [] | cur :: ports => merge_from cur ports end.

Definition range_elements (r : IPRange) : list SetElement :=
  [{| Key := MarshalBinary (Some r.(From)); IntervalEnd := false |};
   {| Key := MarshalBinary (Next r.(To)); IntervalEnd := true |}].
Definition port_elements (p : interval) : list SetElement :=
  [{| Key := be 2 p.1; IntervalEnd := false |};
   {| Key := be 2 (u16 (p.2 + 1)); IntervalEnd := true |}].

Definition SetElements (set : NfTablesSet) : list SetElement :=
  match set with
  | SetKindIPv4 l | SetKindIPv6 l => flat_map range_elements l
  | SetKindPort l => flat_map port_elements (mergeAdjacentPorts l)
  | SetKindIfName l => (λ s, {| Key := s; IntervalEnd := false |}) <$> l
  | SetKindConntrackState l => (λ s, {| Key := le32 s; IntervalEnd := false |}) <$> l
  | SetKindICMPType l => (λ t, {| Key := [u8 t]; IntervalEnd := false |}) <$> l
  end.
End sorting.

(** ** Compilation *)

Record NfTablesCompiled := { Rules : list (list Any); Sets : list NfTablesSet }.

(** What [Compile] builds up: the parts common to both families, before and after, and
    those of a family, which may be [nil]. *)
Record compiling := {
  cSets : list NfTablesSet;
  rulePre : list Any; rulePost : list Any;
  rule4 : option (list Any); rule6 : option (list Any)
}.
Definition nothing : compiling :=
  {| cSets := []; rulePre := []; rulePost := []; rule4 := None; rule6 := None |}.

Definition append_pre (es : list Any) (c : compiling) : compiling :=
  {| cSets := c.(cSets); rulePre := c.(rulePre) ++ es; rulePost := c.(rulePost);
     rule4 := c.(rule4); rule6 := c.(rule6) |}.
Definition append_post (es : list Any) (c : compiling) : compiling :=
  {| cSets := c.(cSets); rulePre := c.(rulePre); rulePost := c.(rulePost) ++ es;
     rule4 := c.(rule4); rule6 := c.(rule6) |}.
Definition append_set (s : NfTablesSet) (c : compiling) : compiling :=
  {| cSets := c.(cSets) ++ [s]; rulePre := c.(rulePre); rulePost := c.(rulePost);
     rule4 := c.(rule4); rule6 := c.(rule6) |}.
(** [append(rule4, es...)], also of a [nil] slice; [es] may be empty. *)
Definition append_family (f : Family) (es : list Any) (c : compiling) : compiling :=
  let more r := Some (default [] r ++ es) in
  {| cSets := c.(cSets); rulePre := c.(rulePre); rulePost := c.(rulePost);
     rule4 := if bool_decide (f = IPv4) then more c.(rule4) else c.(rule4);
     rule6 := if bool_decide (f = IPv6) then more c.(rule6) else c.(rule6) |}.
(** [uint32(len(result.Sets) - 1)] *)
Definition last_set (c : compiling) : Z := u32 (zlen c.(cSets) - 1).

(** [copy] of a name into 16 bytes. *)
Definition ifname (name : string) : list Z :=
  let b := (λ c, Z.of_N (Ascii.N_of_ascii c)) <$> String.list_ascii_of_string name in
  take 16 (b ++ replicate 16 0).

Definition match_family (family : Z) : list Any := [Meta MetaKeyNFPROTO 1 false; Cmp CmpOpEq 1 [family]].
Definition matchV4 : list Any := match_family TableFamilyIPv4.
Definition matchV6 : list Any := match_family TableFamilyIPv6.

Definition matchIfNames (operator : MatchOperator) (ifnames : list string) (c : compiling) : compiling :=
  match ifnames with
  | [name] => append_pre [Cmp (cmp_operator operator) 1 (ifname name)] c
  | _ =>
      let c := append_set (SetKindIfName (ifname <$> ifnames)) c in
      append_pre [Lookup 1 (last_set c) "" (is_not_equal operator)] c
  end.

(** [if a.NfTablesRule.MatchIIfName != nil], and the same for the outgoing interface. *)
Definition compile_ifname (key : MetaKey) (m : option NfTablesIfNameMatch) (c : compiling) : compiling :=
  match m with
  | None => c
  | Some m => matchIfNames m.(Operator) m.(InterfaceNames) (append_pre [Meta key 1 false] c)
  end.

Definition compile_mark (m : option NfTablesMark) (c : compiling) : compiling :=
  match m with
  | None => c
  | Some m => append_pre [
      Meta MetaKeyMARK 1 false;
      Bitwise 1 1 4 (le32 m.(markMask)) (le32 m.(markXor));
      Cmp CmpOpEq 1 (le32 m.(markValue))] c
  end.

Definition compile_conntrack (m : option (list Z)) (c : compiling) : compiling :=
  match m with
  | None => c
  | Some [state] => append_pre [
      Ct 1;
      Bitwise 1 1 4 (le32 state) [0; 0; 0; 0];
      Cmp CmpOpNeq 1 [0; 0; 0; 0]] c
  | Some states =>
      let c := append_set (SetKindConntrackState states) c in
      append_pre [Ct 1; Lookup 1 (last_set c) "" false] c
  end.

Section compile.
Context `{N : Netipx} `{Sort : SlicesSort}.

(** [len(set) == 1 && set[0].From() == first && set[0].To() == last] *)
Definition covers_all (f : Family) (set : list IPRange) : bool :=
  match set with
  | [r] => bool_decide (r.(From) = {| family := f; value := 0 |}) &&
           bool_decide (r.(To) = {| family := f; value := last_value f |})
  | _ => false
  end.

(** One of the two switches of [addressMatchExpression]. *)
Definition address_family (f : Family) (set : list IPRange) (invert : bool) (off : Z) (c : compiling) : compiling :=
  let none := match set with [] => true | _ => false end in
  if covers_all f set && negb invert || invert && none then append_family f [] c
  else if negb (covers_all f set) && invert || negb invert && negb none then
    let c := append_set (match f with IPv4 => SetKindIPv4 set | IPv6 => SetKindIPv6 set end) c in
    append_family f [
      Payload 1 PayloadBaseNetworkHeader off (Z.of_nat (address_bytes f));
      Lookup 1 (last_set c) "" invert] c
  else c.

Definition addressMatchExpression (m : NfTablesAddressMatch) (label : string) (offV4 offV6 : Z) (c : compiling)
    : error + compiling :=
  match BuildIPSet m.(IncludeSubnets) m.(ExcludeSubnets) with
  | inl err => inl (Errorf "failed to build IPSet for %s address match: %w" [Str label; Wrapped err])
  | inr ipSet =>
      let '(v4Set, v6Set) := SplitIPSet ipSet in
      let none := match v4Set, v6Set with [], [] => true | _, _ => false end in
      if none && negb m.(addrInvert) then inl (Sentinel "ErrNotExist") else
      if covers_all IPv4 v4Set && covers_all IPv6 v6Set && m.(addrInvert) then inl (Sentinel "ErrNotExist") else
      inr (address_family IPv6 v6Set m.(addrInvert) offV6
             (address_family IPv4 v4Set m.(addrInvert) offV4 c))
  end.

Definition compile_address (m : option NfTablesAddressMatch) (label : string) (offV4 offV6 : Z) (c : compiling)
    : error + compiling :=
  match m with
  | None => inr c
  | Some m => addressMatchExpression m label offV4 offV6 c
  end.

Definition portMatch (off : Z) (ports : option (list PortRange)) (c : compiling) : compiling :=
  match ports with
  | None => c
  | Some ports =>
      let c := append_set (SetKindPort ((λ r, (r.(Lo), r.(Hi))) <$> ports)) c in
      append_post [Payload 1 PayloadBaseTransportHeader off 2; Lookup 1 (last_set c) "" false] c
  end.

Definition compile_icmp (types : option (list Z)) (c : compiling) : compiling :=
  match types with
  | None => c
  | Some types =>
      let c := append_set (SetKindICMPType types) c in
      append_post [Payload 1 PayloadBaseTransportHeader 0 1; Lookup 1 (last_set c) "" false] c
  end.

Definition compile_layer4 (m : option NfTablesLayer4Match) (c : compiling) : compiling :=
  match m with
  | None => c
  | Some m =>
      compile_icmp m.(MatchICMPType)
        (portMatch 2 m.(MatchDestinationPort)
          (portMatch 0 m.(MatchSourcePort)
            (append_pre [Meta MetaKeyL4PROTO 1 false; Cmp CmpOpEq 1 [u8 m.(Protocol)]] c)))
  end.

Definition compile_limit (m : option Z) (c : compiling) : compiling :=
  match m with None => c | Some rate => append_post [Limit rate (u32 rate)] c end.

(** The headers a segment carries. *)
Definition IPv4HeaderLen : Z := 20.
Definition IPv6HeaderLen : Z := 40.
Definition TCPHeaderLen : Z := 20.
Definition TCPOptionsLen : Z := 12.

Definition clampMSS (f : Family) (mtu : Z) : list Any :=
  let header := match f with IPv4 => IPv4HeaderLen | IPv6 => IPv6HeaderLen end in
  let mss := u16 (mtu - (header + TCPHeaderLen + TCPOptionsLen)) in
  [Meta MetaKeyL4PROTO 1 false;
   Cmp CmpOpEq 1 [IPPROTO_TCP];
   Payload 1 PayloadBaseTransportHeader 13 1;
   Bitwise 1 1 1 [Z.lor 2 4] [0];
   Cmp CmpOpEq 1 [2];
   ExthdrLoad 1 2 2 2;
   Cmp CmpOpGt 1 (be 2 mss);
   Immediate 1 (be 2 mss);
   ExthdrWrite 1 2 2 2].

Definition compile_clamp (m : option Z) (c : compiling) : compiling :=
  match m with
  | None => c
  | Some mtu =>
      let c := match c.(rule4) with None => c | Some _ => append_family IPv4 (clampMSS IPv4 mtu) c end in
      match c.(rule6) with None => c | Some _ => append_family IPv6 (clampMSS IPv6 mtu) c end
  end.

Definition compile_set_mark (m : option NfTablesMark) (c : compiling) : compiling :=
  match m with
  | None => c
  | Some m => append_post [
      Meta MetaKeyMARK 1 false;
      Bitwise 1 1 4 (le32 m.(markMask)) (le32 m.(markXor));
      Meta MetaKeyMARK 1 true] c
  end.
Definition compile_counter (b : bool) (c : compiling) : compiling :=
  if b then append_post [Counter] c else c.
Definition compile_verdict (v : option NfTablesVerdict) (c : compiling) : compiling :=
  match v with None => c | Some v => append_post [Verdict v] c end.

(** The rules: one, or one for each family that has a part of its own. *)
Definition assemble (c : compiling) : list (list Any) :=
  match c.(rule4), c.(rule6) with
  | None, None =>
      match c.(rulePre), c.(rulePost) with
      | [], [] => []
      | pre, post => [pre ++ post]
      end
  | Some r4, None => [c.(rulePre) ++ matchV4 ++ r4 ++ c.(rulePost)]
  | None, Some r6 => [c.(rulePre) ++ matchV6 ++ r6 ++ c.(rulePost)]
  | Some r4, Some r6 =>
      [c.(rulePre) ++ matchV4 ++ r4 ++ c.(rulePost); c.(rulePre) ++ matchV6 ++ r6 ++ c.(rulePost)]
  end.

(** [if errors.Is(err, fs.ErrNotExist) { return &NfTablesCompiled{}, nil }]: a rule that
    cannot match. *)
Definition or_no_rule (r : error + compiling) (k : compiling → error + NfTablesCompiled) : error + NfTablesCompiled :=
  match r with
  | inr c => k c
  | inl err => if errors_Is "ErrNotExist" err then inr {| Rules := []; Sets := [] |} else inl err
  end.

Definition Compile (a : NfTablesRule) : error + NfTablesCompiled :=
  let c := compile_ifname MetaKeyIIFNAME a.(MatchIIfName) nothing in
  let c := compile_ifname MetaKeyOIFNAME a.(MatchOIfName) c in
  let c := compile_mark a.(MatchMark) c in
  let c := compile_conntrack a.(MatchConntrackState) c in
  or_no_rule (compile_address a.(MatchSourceAddress) "source" 12 8 c) (λ c,
  or_no_rule (compile_address a.(MatchDestinationAddress) "destination" 16 24 c) (λ c,
  let c := compile_layer4 a.(MatchLayer4) c in
  let c := compile_limit a.(MatchLimit) c in
  let c := compile_clamp a.(ClampMSS) c in
  let c := compile_set_mark a.(SetMark) c in
  let c := compile_counter a.(AnonCounter) c in
  let c := compile_verdict a.(ruleVerdict) c in
  inr {| Rules := assemble c; Sets := c.(cSets) |})).
End compile.
