(* ===== verification/NfMachine.v ===== *)
(** * What compiled rules do

    The kernel's side of nftables is an interface: its laws say what each instruction does
    with the registers, the packet and the sets.  Against it, [Compile] is correct: running
    the instructions of a rule decides on a packet as the rule says. *)

From S2P Require Import Prelude Errors Bytes Netip NfTables.

(** ** The machine *)

(** What a load reads. *)
Inductive source :=
  | FromMeta (key : MetaKey)
  | FromCt
  | FromPayload (base : PayloadBase) (off len : Z).

(** How an instruction ends: the next one follows, the rule does not match, or the packet
    is decided. *)
Inductive flow := Next_ | Break | Stop (v : NfTablesVerdict).

(** A set as the kernel has it. *)
Record kernel_set := { ksInterval : bool; ksElements : list SetElement }.
Notation set_table := (Z → option kernel_set).

(** [K]: the state of the evaluation of a packet. *)
Class NfMachine (K : Type) := {
  step : set_table → Any → K → K * flow;
  reg : K → Z → list Z;
  load : K → source → option (list Z);
  allows : K → Z → Z → bool;                 (** the next packet is within a limit *)
  contains : kernel_set → list Z → bool
}.

Definition bitwise (v mask xor : list Z) : list Z := zip_with Z.lxor (zip_with Z.land v mask) xor.

(** The two ends of an interval of numbers of [n] bytes. *)
Definition interval_ends (n : nat) (i : interval) : list SetElement :=
  [{| Key := be n i.1; IntervalEnd := false |}; {| Key := be n (i.2 + 1); IntervalEnd := true |}].
Definition fit (n : nat) (l : list interval) : Prop :=
  Forall (λ i, 0 ≤ i.1 ∧ i.2 < 2 ^ (8 * Z.of_nat n)) l ∧
  ¬ ((∃ i, i ∈ l ∧ i.1 = 0) ∧ (∃ i, i ∈ l ∧ i.2 = 2 ^ (8 * Z.of_nat n) - 1)).

Section machine.
Context {K : Type} `{M : NfMachine K}.

(** The packet and the limits are as before. *)
Definition same (k k' : K) : Prop :=
  (∀ src, load k' src = load k src) ∧ (∀ rate burst, allows k' rate burst = allows k rate burst).

Definition loads (src : source) (r : Z) (k : K) (res : K * flow) : Prop :=
  same k res.1 ∧
  match load k src with
  | Some v => res.2 = Next_ ∧ reg res.1 r = v
  | None => res.2 = Break
  end.
End machine.

Class NfMachineLaws {K : Type} (M : NfMachine K) := {
  step_Meta S key r k : loads (FromMeta key) r k (step S (Meta key r false) k);
  step_Ct S r k : loads FromCt r k (step S (Ct r) k);
  step_Payload S r base off len k : loads (FromPayload base off len) r k (step S (Payload r base off len) k);
  step_Cmp_Eq S r d k : length (reg k r) = length d →
    step S (Cmp CmpOpEq r d) k = (k, if bool_decide (reg k r = d) then Next_ else Break);
  step_Cmp_Neq S r d k : length (reg k r) = length d →
    step S (Cmp CmpOpNeq r d) k = (k, if bool_decide (reg k r = d) then Break else Next_);
  step_Bitwise S r r' mask xor k :
    length (reg k r) = length mask → length mask = length xor →
    ∃ k', step S (Bitwise r r' (zlen mask) mask xor) k = (k', Next_) ∧ same k k' ∧
      reg k' r' = bitwise (reg k r) mask xor;
  step_Lookup S r i name invert s k : S i = Some s →
    step S (Lookup r i name invert) k = (k, if xorb invert (contains s (reg k r)) then Next_ else Break);
  step_Limit S rate burst k :
    ∃ k', step S (Limit rate burst) k = (k', if allows k rate burst then Next_ else Break) ∧
      ∀ src, load k' src = load k src;
  step_Mark S r k :
    ∃ k', step S (Meta MetaKeyMARK r true) k = (k', Next_) ∧
      load k' (FromMeta MetaKeyMARK) = Some (reg k r) ∧
      (∀ src, src ≠ FromMeta MetaKeyMARK → load k' src = load k src) ∧
      (∀ rate burst, allows k' rate burst = allows k rate burst);
  step_Counter S k : ∃ k', step S Counter k = (k', Next_) ∧ same k k';
  step_Verdict S v k : step S (Verdict v) k = (k, Stop v);
  step_tables S S' e k : match e with Lookup _ _ _ _ => True | _ => step S e k = step S' e k end;
  contains_intervals n l x : separated l → fit n l → 0 ≤ x < 2 ^ (8 * Z.of_nat n) →
    contains {| ksInterval := true; ksElements := flat_map (interval_ends n) l |} (be n x) = covers l x;
  contains_keys keys x :
    contains {| ksInterval := false; ksElements := (λ s, {| Key := s; IntervalEnd := false |}) <$> keys |} x =
      bool_decide (x ∈ keys)
}.

Section run.
Context {K : Type} `{M : NfMachine K}.

(** The instructions of a rule, and the rules of a chain up to the first verdict. *)
Fixpoint run_rule (S : set_table) (es : list Any) (k : K) : K * flow :=
  match es with
  | [] => (k, Next_)
  | e :: es => match step S e k with (k', Next_) => run_rule S es k' | res => res end
  end.
Fixpoint run_rules (S : set_table) (rules : list (list Any)) (k : K) : K * option NfTablesVerdict :=
  match rules with
  | [] => (k, None)
  | es :: rules =>
      match run_rule S es k with
      | (k', Stop v) => (k', Some v)
      | (k', _) => run_rules S rules k'
      end
  end.
End run.

(** ** Packets, and what a rule says of them *)

Record packet := {
  iif : string; oif : string;
  mark : Z;
  ctState : Z;
  src : Addr; dst : Addr;
  l4proto : Z;
  transport : list Z              (** the bytes from the transport header on *)
}.

Definition flags : list Z :=
  [ConntrackStateNew; ConntrackStateRelated; ConntrackStateEstablished; ConntrackStateInvalid].
Definition packet_ok (p : packet) : Prop :=
  0 ≤ p.(mark) < 2 ^ 32 ∧ p.(ctState) ∈ flags ∧ valid_addr p.(src) ∧ valid_addr p.(dst) ∧
  p.(dst).(family) = p.(src).(family) ∧ 0 ≤ p.(l4proto) < 256 ∧ Forall byte_ok p.(transport).

Definition header_byte (f : Family) : Z := match f with IPv4 => TableFamilyIPv4 | IPv6 => TableFamilyIPv6 end.
Definition src_off (f : Family) : Z := match f with IPv4 => 12 | IPv6 => 8 end.
Definition dst_off (f : Family) : Z := match f with IPv4 => 16 | IPv6 => 24 end.

(** Where the kernel reads the fields of a packet. *)
Record carries {K : Type} `{M : NfMachine K} (k : K) (p : packet) : Prop := {
  carries_ok : packet_ok p;
  carries_family : load k (FromMeta MetaKeyNFPROTO) = Some [header_byte p.(src).(family)];
  carries_iif : load k (FromMeta MetaKeyIIFNAME) = Some (ifname p.(iif));
  carries_oif : load k (FromMeta MetaKeyOIFNAME) = Some (ifname p.(oif));
  carries_mark : load k (FromMeta MetaKeyMARK) = Some (le32 p.(mark));
  carries_proto : load k (FromMeta MetaKeyL4PROTO) = Some [p.(l4proto)];
  carries_ct : load k FromCt = Some (le32 p.(ctState));
  carries_src : load k (FromPayload PayloadBaseNetworkHeader (src_off p.(src).(family))
                          (Z.of_nat (address_bytes p.(src).(family)))) = Some (MarshalBinary (Some p.(src)));
  carries_dst : load k (FromPayload PayloadBaseNetworkHeader (dst_off p.(src).(family))
                          (Z.of_nat (address_bytes p.(src).(family)))) = Some (MarshalBinary (Some p.(dst)));
  carries_transport off len : 0 ≤ off → 0 ≤ len →
    load k (FromPayload PayloadBaseTransportHeader off len) =
      if off + len <=? zlen p.(transport) then Some (ztake len (zdrop off p.(transport))) else None
}.

Definition name_matches (m : option NfTablesIfNameMatch) (name : string) : bool :=
  match m with
  | None => true
  | Some m => xorb (is_not_equal m.(Operator)) (bool_decide (ifname name ∈ ifname <$> m.(InterfaceNames)))
  end.
Definition update_mark (m : NfTablesMark) (x : Z) : Z := Z.lxor (Z.land x m.(markMask)) m.(markXor).
Definition mark_matches (m : option NfTablesMark) (x : Z) : bool :=
  match m with None => true | Some m => update_mark m x =? m.(markValue) end.
Definition state_matches (m : option (list Z)) (s : Z) : bool :=
  match m with None => true | Some states => bool_decide (s ∈ states) end.
Definition address_matches (m : option NfTablesAddressMatch) (a : Addr) : bool :=
  match m with
  | None => true
  | Some m => xorb m.(addrInvert) (member m.(IncludeSubnets) m.(ExcludeSubnets) a)
  end.
(** The 16-bit number at an offset. *)
Definition port_at (off : nat) (t : list Z) : option Z :=
  match drop off t with a :: b :: _ => Some (a * 256 + b) | _ => None end.
Definition port_matches (m : option (list PortRange)) (off : nat) (t : list Z) : bool :=
  match m with
  | None => true
  | Some rs =>
      match port_at off t with
      | None => false
      | Some x => existsb (λ r, (r.(Lo) <=? x) && (x <=? r.(Hi))) rs
      end
  end.
Definition type_matches (m : option (list Z)) (t : list Z) : bool :=
  match m with
  | None => true
  | Some types => match t with [] => false | x :: _ => bool_decide (x ∈ types) end
  end.
Definition layer4_matches (m : option NfTablesLayer4Match) (p : packet) : bool :=
  match m with
  | None => true
  | Some m =>
      (p.(l4proto) =? m.(Protocol)) && port_matches m.(MatchSourcePort) 0 p.(transport) &&
      port_matches m.(MatchDestinationPort) 2 p.(transport) && type_matches m.(MatchICMPType) p.(transport)
  end.

Definition rule_matches (r : NfTablesRule) (p : packet) : bool :=
  name_matches r.(MatchIIfName) p.(iif) && name_matches r.(MatchOIfName) p.(oif) &&
  mark_matches r.(MatchMark) p.(mark) && state_matches r.(MatchConntrackState) p.(ctState) &&
  address_matches r.(MatchSourceAddress) p.(src) && address_matches r.(MatchDestinationAddress) p.(dst) &&
  layer4_matches r.(MatchLayer4) p.

(** A rule that matches changes the mark. *)
Definition marked (r : NfTablesRule) (p : packet) : packet :=
  match r.(SetMark) with
  | None => p
  | Some m =>
      {| iif := p.(iif); oif := p.(oif); mark := update_mark m p.(mark); ctState := p.(ctState);
         src := p.(src); dst := p.(dst); l4proto := p.(l4proto); transport := p.(transport) |}
  end.
