(* ===== verification/NfCorrect.v ===== *)
(** * Compiled rules decide as the rules say

    The parts of a compiled rule are tests; the set elements of a rule hold exactly what
    the rule lists. *)

From stdpp Require Import sorting.
From S2P Require Import Prelude Errors Bytes Netip NfTables NfMachine.

(** ** Numbers in registers *)

#[local] Transparent le32.

Lemma u8_land a b : u8 (Z.land a b) = Z.land (u8 a) (u8 b).
Proof.
  unfold u8. rewrite <- !Z.land_ones by done. apply Z.bits_inj'. intros i Hi.
  rewrite !Z.land_spec. by destruct (Z.testbit a i), (Z.testbit b i), (Z.testbit (Z.ones 8) i).
Qed.
Lemma u8_lxor a b : u8 (Z.lxor a b) = Z.lxor (u8 a) (u8 b).
Proof.
  unfold u8. rewrite <- !Z.land_ones by done. apply Z.bits_inj'. intros i Hi.
  rewrite !Z.lxor_spec, !Z.land_spec, Z.lxor_spec.
  by destruct (Z.testbit a i), (Z.testbit b i), (Z.testbit (Z.ones 8) i).
Qed.

Lemma bitwise_le32 a m x : bitwise (le32 a) (le32 m) (le32 x) = le32 (Z.lxor (Z.land a m) x).
Proof.
  unfold bitwise, le32. cbn [zip_with]. rewrite <- !Z.shiftr_div_pow2 by done.
  rewrite !Z.shiftr_lxor, !Z.shiftr_land, !u8_lxor, !u8_land. done.
Qed.

Lemma le32_inj a b : 0 ≤ a < 2 ^ 32 → 0 ≤ b < 2 ^ 32 → le32 a = le32 b → a = b.
Proof.
  intros Ha Hb Heq. assert (H : get_le32 (E:=Empty_set) (le32 a ++ []) = get_le32 (le32 b ++ [])) by by rewrite Heq.
  rewrite !get_le32_put in H by done. congruence.
Qed.

Lemma bool_decide_le32 a b : 0 ≤ a < 2 ^ 32 → 0 ≤ b < 2 ^ 32 → bool_decide (le32 a = le32 b) = (a =? b).
Proof.
  intros. destruct (Z.eqb_spec a b) as [->|Hne]; [by rewrite bool_decide_true|].
  rewrite bool_decide_false; [done|]. intros ?%le32_inj; done.
Qed.

(** ** Ports *)

Definition port_interval (r : PortRange) : interval := (r.(Lo), r.(Hi)).
(** Ranges of ports that do not meet, in some order. *)
Definition disjoint_ports (rs : list interval) : Prop :=
  ∃ l, l ≡ₚ rs ∧ StronglySorted (λ a b, a.2 < b.1) l ∧ Forall (λ i, 0 ≤ i.1 ≤ i.2 ∧ i.2 < 2 ^ 16) l.
(** The first and the last port are not both in a range. *)
Definition not_both_ends (rs : list interval) : Prop :=
  ¬ ((∃ i, i ∈ rs ∧ i.1 = 0) ∧ (∃ i, i ∈ rs ∧ i.2 = 65535)).

Section merging.
Implicit Types l : list interval.

Lemma merge_from_spec cur l :
  StronglySorted (λ a b, a.2 < b.1) (cur :: l) → Forall (λ i, 0 ≤ i.1 ≤ i.2 ∧ i.2 < 2 ^ 16) (cur :: l) →
  separated (merge_from cur l) ∧ (∀ x, covers (merge_from cur l) x = covers (cur :: l) x) ∧
  Forall (λ i, cur.1 ≤ i.1 ∧ (∃ j, j ∈ cur :: l ∧ i.1 = j.1) ∧ (∃ j, j ∈ cur :: l ∧ i.2 = j.2)) (merge_from cur l).
Proof.
  revert cur. induction l as [|next l IH]; intros cur [Hs Hf]%StronglySorted_inv [Hcur Hl]%Forall_cons; cbn [merge_from].
  - split_and!; [apply separated_cons; split_and!; [lia|done|apply separated_nil]|done|].
    apply Forall_singleton. split_and!; [lia|exists cur; split; [left|done]..].
  - pose proof Hf as [Hn _]%Forall_cons. pose proof Hl as [Hnext Hl']%Forall_cons.
    pose proof Hs as [Hs' Hf']%StronglySorted_inv.
    replace (u16 (cur.2 + 1)) with (cur.2 + 1) by (unfold u16; rewrite Z.mod_small; lia).
    destruct (Z.leb_spec next.1 (cur.2 + 1)) as [Hle|Hgt].
    + destruct (IH (cur.1, next.2)) as (Hsep & Hcov & Hall).
      { constructor; [done|]. done. }
      { apply Forall_cons. split; [simpl in *; lia|done]. }
      split_and!; [done| |].
      * intros x. rewrite Hcov. cbn [covers existsb]. rewrite orb_assoc. f_equal.
        apply eq_bool_prop_intro. rewrite orb_True, !Is_true_true, !inside_iff. simpl. lia.
      * eapply Forall_impl; [exact Hall|]. intros i (Hi & (j & Hj & Hj1) & j' & Hj' & Hj2). simpl in *.
        split_and!; [done| |].
        -- apply elem_of_cons in Hj as [->|Hj]; simpl in Hj1; [by exists cur; split; [left|]|].
           exists j. split; [right; by right|done].
        -- apply elem_of_cons in Hj' as [->|Hj']; simpl in Hj2; [exists next; split; [right; by left|done]|].
           exists j'. split; [right; by right|done].
    + destruct (IH next) as (Hsep & Hcov & Hall); [done..|].
      split_and!.
      * apply separated_cons. split_and!; [lia| |done].
        eapply Forall_impl; [exact Hall|]. intros i (Hi & _). unfold before. lia.
      * intros x. cbn [covers existsb]. f_equal. apply Hcov.
      * apply Forall_cons. split; [split_and!; [lia|exists cur; split; [left|done]..]|].
        eapply Forall_impl; [exact Hall|]. intros i (Hi & (j & Hj & Hj1) & j' & Hj' & Hj2).
        split_and!; [lia|exists j; split; [by right|done]|exists j'; split; [by right|done]].
Qed.

(** Whatever a sort does with equal keys, disjoint ranges have one order. *)
Lemma disjoint_order_unique l l' :
  l' ≡ₚ l → StronglySorted (λ a b, a.1 ≤ b.1) l' →
  StronglySorted (λ a b, a.2 < b.1) l → Forall (λ i, 0 ≤ i.1 ≤ i.2 ∧ i.2 < 2 ^ 16) l → l' = l.
Proof.
  intros Hperm Hsorted' Hsorted Hok. eapply (StronglySorted_unique_strong (λ a b : interval, a.1 ≤ b.1)); [|done| |done].
  - intros a b Ha Hb Hab Hba. assert (Heq : a.1 = b.1) by lia. clear Hab Hba Hsorted'.
    rewrite Hperm in Ha. clear Hperm. induction Hsorted as [|c l Hs IH Hf]; [by apply elem_of_nil in Hb|].
    apply Forall_cons in Hok as [Hc Hok]. rewrite Forall_forall in Hf.
    apply elem_of_cons in Ha as [->|Ha], Hb as [->|Hb]; [done| | |by apply IH].
    + specialize (Hf b Hb). lia.
    + specialize (Hf a Ha). lia.
  - clear Hperm. induction Hsorted as [|c l Hs IH Hf]; [constructor|].
    apply Forall_cons in Hok as [Hc Hok]. constructor; [by apply IH|].
    eapply Forall_impl; [exact Hf|]. simpl. lia.
Qed.

Context `{Sort : SlicesSort} `{L : !SlicesSortLaws Sort}.

Lemma sort_ports_unique rs l :
  l ≡ₚ rs → StronglySorted (λ a b, a.2 < b.1) l → Forall (λ i, 0 ≤ i.1 ≤ i.2 ∧ i.2 < 2 ^ 16) l →
  sort_ports rs = l.
Proof.
  intros Hperm. apply disjoint_order_unique; [etrans; [apply SortFunc_perm|done]|apply (SortFunc_sorted fst)].
Qed.

(** The merged ranges hold the same ports. *)
Lemma mergeAdjacentPorts_spec rs : disjoint_ports rs →
  separated (mergeAdjacentPorts rs) ∧ (∀ x, covers (mergeAdjacentPorts rs) x = covers rs x) ∧
  (not_both_ends rs → fit 2 (mergeAdjacentPorts rs)).
Proof.
  intros (l & Hperm & Hs & Hok). unfold mergeAdjacentPorts. rewrite (sort_ports_unique rs l) by done.
  assert (Hcov : ∀ x, covers l x = covers rs x).
  { intros x. apply eq_bool_prop_intro. rewrite !Is_true_true, !covers_iff. by setoid_rewrite Hperm. }
  destruct l as [|cur l].
  { split_and!; [apply separated_nil|done|]. intros _. split; [constructor|].
    intros [(i & []%elem_of_nil & _) _]. }
  destruct (merge_from_spec cur l) as (Hsep & Hcov' & Hall); [done..|].
  split_and!; [done|intros x; by rewrite Hcov', Hcov|].
  intros Hends. rewrite Forall_forall in Hall, Hok. split.
  - apply Forall_forall. intros i Hi. destruct (Hall i Hi) as (_ & (j & Hj & ->) & j' & Hj' & ->).
    pose proof (Hok j Hj). pose proof (Hok j' Hj'). simpl in *. lia.
  - intros [(i & Hi & Hi0) (i' & Hi' & Hi1)]. apply Hends.
    destruct (Hall i Hi) as (_ & (j & Hj & Hij) & _), (Hall i' Hi') as (_ & _ & j' & Hj' & Hij').
    split; [exists j|exists j']; rewrite <- Hperm; (split; [done|]); simpl in *; lia.
Qed.

Lemma port_elements_ends i : port_elements i = interval_ends 2 i.
Proof.
  unfold port_elements, interval_ends, u16. f_equal. f_equal. f_equal.
  apply (be_mod 2).
Qed.
End merging.

(** ** Addresses *)

Lemma separated_full M l : 0 ≤ M → separated l → Forall (λ i, 0 ≤ i.1 ∧ i.2 ≤ M) l →
  (∀ x, 0 ≤ x ≤ M → covers l x = true) → l = [(0, M)].
Proof.
  intros HM Hsep Hin Hall.
  assert (H0 : covers l 0 = true) by (apply Hall; lia).
  destruct l as [|[lo hi] l]; [done|].
  apply separated_cons in Hsep as (Hle & Hb & Hsep). apply Forall_cons in Hin as [Hi Hin]. cbn [fst snd] in *.
  rewrite Forall_forall in Hb, Hin. destruct Hsep as [_ Hord]. rewrite Forall_forall in Hord.
  unfold before in Hb. simpl in Hb.
  assert (lo = 0) as ->.
  { apply covers_iff in H0 as (i & [->|Hel]%elem_of_cons & Hx); simpl in *; [lia|].
    specialize (Hb i Hel). lia. }
  assert (hi = M) as ->.
  { destruct (decide (hi = M)) as [|Hne]; [done|]. exfalso.
    assert (Hnext : covers ((0, hi) :: l) (hi + 1) = true) by (apply Hall; lia).
    apply covers_iff in Hnext as (i & [->|Hel]%elem_of_cons & Hx); simpl in *; [lia|].
    specialize (Hb i Hel). lia. }
  destruct l as [|i l]; [done|]. exfalso.
  assert (Hel : i ∈ i :: l) by left. specialize (Hb i Hel). specialize (Hin i Hel). specialize (Hord i Hel).
  simpl in *. lia.
Qed.

Lemma last_value_nonneg f : 0 ≤ last_value f.
Proof. by destruct f. Qed.
Lemma last_value_pow f : last_value f = 2 ^ (8 * Z.of_nat (address_bytes f)) - 1.
Proof. done. Qed.

Section address_sets.
Context `{N : Netipx} `{L : !NetipxLaws N}.

(** The ranges of the set of a match in a family. *)
Record ranges_of (include exclude : list Prefix) (f : Family) (rs : list IPRange) : Prop := {
  ranges_valid : Forall (λ r, valid_range r ∧ r.(From).(family) = f) rs;
  ranges_separated : separated (bounds <$> rs);
  ranges_member a : valid_addr a → a.(family) = f →
    covers (bounds <$> rs) a.(value) = member include exclude a
}.

Lemma BuildIPSet_ranges include exclude : Forall usable include → Forall usable exclude →
  ∃ s, BuildIPSet include exclude = inr s ∧ ∀ f, ranges_of include exclude f (of_family f (Ranges s)).
Proof.
  intros Hi He. destruct (BuildIPSet_spec include exclude Hi He) as (s & Hs & Hv & Hsep & Hm).
  exists s. split; [done|]. intros f. split; [|done|].
  - apply Forall_forall. intros r [Hr Hin]%list_elem_of_filter. rewrite Forall_forall in Hv. auto.
  - intros a Ha <-. auto.
Qed.

Context (include exclude : list Prefix) (f : Family) (rs : list IPRange).
Hypothesis Hrs : ranges_of include exclude f rs.

Lemma ranges_within : Forall (λ i, 0 ≤ i.1 ∧ i.2 ≤ last_value f) (bounds <$> rs).
Proof.
  apply Forall_fmap. eapply Forall_impl; [apply (ranges_valid _ _ _ _ Hrs)|].
  intros r ((Hf & Ht & Hfam) & <-). unfold valid_addr in *. simpl. rewrite Hfam in *. lia.
Qed.

Lemma ranges_empty : rs = [] → ∀ a, valid_addr a → a.(family) = f → member include exclude a = false.
Proof. intros Hnil a Ha Hf. rewrite <- (ranges_member _ _ _ _ Hrs) by done. by rewrite Hnil. Qed.

Lemma covers_all_iff :
  covers_all f rs = true ↔ ∀ a, valid_addr a → a.(family) = f → member include exclude a = true.
Proof.
  split.
  - intros Hall a Ha Hf. rewrite <- (ranges_member _ _ _ _ Hrs) by done.
    unfold covers_all in Hall. destruct rs as [|r [|]]; [done| |done].
    apply andb_prop in Hall as [HF%bool_decide_eq_true HT%bool_decide_eq_true].
    apply covers_iff. exists (bounds r). split; [by left|]. unfold bounds. rewrite HF, HT. simpl.
    unfold valid_addr in Ha. by rewrite Hf in Ha.
  - intros Hall. assert (Hfull : bounds <$> rs = [(0, last_value f)]).
    { apply separated_full; [apply last_value_nonneg|apply (ranges_separated _ _ _ _ Hrs)|apply ranges_within|].
      intros x Hx. pose proof (ranges_member _ _ _ _ Hrs {| family := f; value := x |} Hx eq_refl) as Hm.
      etrans; [exact Hm|]. by apply Hall. }
    pose proof (ranges_valid _ _ _ _ Hrs) as Hv. destruct rs as [|r [|]]; [done| |done].
    apply Forall_singleton in Hv as ((Hf & Ht & Hfam) & HfF). injection Hfull as HF HT.
    unfold covers_all. destruct r as [[ff fv] [tf tv]]. simpl in *. subst.
    by rewrite !bool_decide_true.
Qed.

(** No range ends at the last address, unless all addresses are meant. *)
Definition ends_inside : Prop :=
  member include exclude {| family := f; value := last_value f |} = false ∨
  ∀ a, valid_addr a → a.(family) = f → member include exclude a = true.

Lemma range_elements_ends : covers_all f rs = false → ends_inside →
  flat_map range_elements rs = flat_map (interval_ends (address_bytes f)) (bounds <$> rs) ∧
  fit (address_bytes f) (bounds <$> rs).
Proof.
  intros Hnot [Hlast|Hall]; [|by rewrite (proj2 covers_all_iff Hall) in Hnot].
  assert (Hin : ∀ r, r ∈ rs → r.(To).(value) < last_value f).
  { intros r Hr. pose proof (ranges_valid _ _ _ _ Hrs) as Hv. rewrite Forall_forall in Hv.
    destruct (Hv r Hr) as ((Hf & Ht & Hfam) & Hff). unfold valid_addr in *.
    destruct (decide (r.(To).(value) = last_value f)) as [Heq|]; [|rewrite <- Hfam, Hff in *; lia].
    rewrite <- (ranges_member _ _ _ _ Hrs) in Hlast; [|unfold valid_addr; simpl; split; [apply last_value_nonneg|lia]|done].
    assert (Hc : covers (bounds <$> rs) (last_value f) = true); [|simpl in Hlast; congruence].
    apply covers_iff. exists (bounds r). split; [by apply list_elem_of_fmap_2|]. unfold bounds. simpl.
    pose proof (ranges_separated _ _ _ _ Hrs) as [_ Hord]. rewrite Forall_fmap, Forall_forall in Hord.
    specialize (Hord r Hr). simpl in Hord. lia. }
  split.
  - pose proof (ranges_valid _ _ _ _ Hrs) as Hv. clear Hnot Hlast Hrs. induction rs as [|r l IH]; [done|].
    apply Forall_cons in Hv as [((Hf & Ht & Hfam) & Hff) Hv].
    assert (Hlt : r.(To).(value) < last_value f) by (apply Hin; left).
    assert (Htf : r.(To).(family) = f) by congruence.
    cbn [flat_map fmap list_fmap]. rewrite IH; [|intros; apply Hin; by right|done]. f_equal.
    unfold range_elements, interval_ends, Next, MarshalBinary, bounds. cbn [fst snd].
    rewrite Htf, Hff. destruct (Z.eqb_spec r.(To).(value) (last_value f)); [lia|]. done.
  - split.
    + eapply Forall_impl; [apply ranges_within|]. intros i Hi. rewrite last_value_pow in Hi. simpl in *. lia.
    + intros [_ (i & (r & -> & Hr)%list_elem_of_fmap & Hi)]. specialize (Hin r Hr).
      rewrite last_value_pow in Hin. unfold bounds in Hi. simpl in Hi. lia.
Qed.
End address_sets.
