(* ===== verification/NfTests.v ===== *)
(** * The instructions of a rule as tests

    The instructions that [Compile] makes for each condition of a rule decide it; the
    instructions that follow them limit, mark, count and give the verdict. *)

From S2P Require Import Prelude Errors Bytes Netip NfTables NfMachine NfCorrect.

Lemma length_ifname name : length (ifname name) = 16%nat.
Proof. unfold ifname. rewrite length_take, length_app, length_replicate. lia. Qed.
Lemma length_le32 n : length (le32 n) = 4%nat.
Proof. done. Qed.

(** Compare two results of a test. *)
Ltac flow_eq := refine (f_equal (λ b : bool, (_, if b then Next_ else Break)) _).

Definition kset `{Sort : SlicesSort} (s : NfTablesSet) : kernel_set :=
  {| ksInterval := IsInterval s; ksElements := SetElements s |}.

Section tests.
Context {K : Type} `{M : NfMachine K} `{ML : !NfMachineLaws M} `{Sort : SlicesSort}.
Implicit Types (k : K) (p : packet) (S : set_table).

Lemma same_refl k : same k k.
Proof. done. Qed.
Lemma same_trans k1 k2 k3 : same k1 k2 → same k2 k3 → same k1 k3.
Proof. intros [Ha Hb] [Hc Hd]. split; intros; [by rewrite Hc|by rewrite Hd]. Qed.

Lemma carries_loads k k' p : (∀ src, load k' src = load k src) → carries k p → carries k' p.
Proof. intros Hl []. split; intros; rewrite ?Hl; auto. Qed.
Lemma carries_same k k' p : same k k' → carries k p → carries k' p.
Proof. intros [Hl _]. by apply carries_loads. Qed.

Lemma run_rule_app S es es' k :
  run_rule S (es ++ es') k = match run_rule S es k with (k', Next_) => run_rule S es' k' | res => res end.
Proof.
  revert k. induction es as [|e es IH]; intros k; simpl; [done|].
  destruct (step S e k) as [k' []]; [apply IH|done..].
Qed.

Lemma run_rule_cons S e es k :
  run_rule S (e :: es) k = match step S e k with (k', Next_) => run_rule S es k' | res => res end.
Proof. done. Qed.

(** [es] goes on exactly for the packets that satisfy [b], among those that satisfy [φ]. *)
Definition tests S (φ : packet → Prop) (es : list Any) (b : packet → bool) : Prop :=
  ∀ k p, carries k p → φ p →
    ∃ k', run_rule S es k = (k', if b p then Next_ else Break) ∧ same k k'.

Lemma tests_nil S φ : tests S φ [] (λ _, true).
Proof. intros k p _ _. by exists k. Qed.

Lemma tests_app S φ es es' b b' : tests S φ es b → tests S φ es' b' → tests S φ (es ++ es') (λ p, b p && b' p).
Proof.
  intros H H' k p Hk Hp. destruct (H k p Hk Hp) as (k1 & Hr & Hs).
  rewrite run_rule_app, Hr. destruct (b p); [|by exists k1].
  destruct (H' k1 p) as (k2 & Hr' & Hs'); [by eapply carries_same|done|].
  exists k2. split; [done|]. by eapply same_trans.
Qed.

Lemma tests_ext S φ es b b' : (∀ p, packet_ok p → φ p → b p = b' p) → tests S φ es b → tests S φ es b'.
Proof. intros Hb H k p Hk Hp. rewrite <- Hb by (done || apply (carries_ok _ _ Hk)). by apply H. Qed.

Lemma tests_weaken S (φ φ' : packet → Prop) es b : (∀ p, φ' p → φ p) → tests S φ es b → tests S φ' es b.
Proof. intros Hφ H k p Hk Hp. apply H; auto. Qed.

(** A load, and then instructions on register 1. *)
Lemma tests_load S (φ : packet → Prop) e from es (v : packet → list Z) (b : packet → bool) :
  (∀ k, loads from 1 k (step S e k)) →
  (∀ k p, carries k p → φ p → load k from = Some (v p)) →
  (∀ k p, carries k p → φ p → reg k 1 = v p →
     ∃ k', run_rule S es k = (k', if b p then Next_ else Break) ∧ same k k') →
  tests S φ (e :: es) b.
Proof.
  intros He Hv Hes k p Hk Hp. cbn [run_rule]. specialize (He k). unfold loads in He.
  rewrite (Hv k p Hk Hp) in He. destruct (step S e k) as [k1 fl]. cbn [fst snd] in He.
  destruct He as (Hs & -> & Hr). destruct (Hes k1 p) as (k2 & Hrun & Hs2); [by eapply carries_same|done..|].
  exists k2. split; [done|]. by eapply same_trans.
Qed.

Lemma run_cmp_eq S k d : length (reg k 1) = length d →
  run_rule S [Cmp CmpOpEq 1 d] k = (k, if bool_decide (reg k 1 = d) then Next_ else Break).
Proof. intros Hl. cbn [run_rule]. rewrite step_Cmp_Eq by done. by case_bool_decide. Qed.
Lemma run_cmp_neq S k d : length (reg k 1) = length d →
  run_rule S [Cmp CmpOpNeq 1 d] k = (k, if bool_decide (reg k 1 = d) then Break else Next_).
Proof. intros Hl. cbn [run_rule]. rewrite step_Cmp_Neq by done. by case_bool_decide. Qed.
Lemma run_lookup S k i name invert s : S i = Some s →
  run_rule S [Lookup 1 i name invert] k = (k, if xorb invert (contains s (reg k 1)) then Next_ else Break).
Proof. intros Hi. cbn [run_rule]. rewrite (step_Lookup S 1 i name invert s) by done. by destruct (xorb _ _). Qed.

(** ** Interfaces *)

Lemma tests_ifname S key (name : packet → string) (operator : MatchOperator) ifn :
  (∀ k p, carries k p → load k (FromMeta key) = Some (ifname (name p))) →
  tests S (λ _, True) [Meta key 1 false; Cmp (cmp_operator operator) 1 (ifname ifn)]
    (λ p, name_matches (Some {| InterfaceNames := [ifn]; Operator := operator |}) (name p)).
Proof.
  intros Hload. eapply tests_load; [intros; apply step_Meta|intros; by apply Hload|].
  intros k p _ _ Hr. exists k. split; [|apply same_refl]. simpl name_matches.
  rewrite (bool_decide_ext (ifname (name p) ∈ [ifname ifn]) (ifname (name p) = ifname ifn))
    by apply list_elem_of_singleton.
  destruct operator; [rewrite run_cmp_eq|rewrite run_cmp_neq]; rewrite Hr, ?length_ifname; try done;
    by case_bool_decide.
Qed.

Lemma tests_ifnames S key (name : packet → string) (operator : MatchOperator) ifns i setName :
  (∀ k p, carries k p → load k (FromMeta key) = Some (ifname (name p))) →
  S i = Some (kset (SetKindIfName (ifname <$> ifns))) →
  tests S (λ _, True) [Meta key 1 false; Lookup 1 i setName (is_not_equal operator)]
    (λ p, name_matches (Some {| InterfaceNames := ifns; Operator := operator |}) (name p)).
Proof.
  intros Hload Hi. eapply tests_load; [intros; apply step_Meta|intros; by apply Hload|].
  intros k p _ _ Hr. exists k. split; [|apply same_refl].
  rewrite (run_lookup S k i setName _ _ Hi), Hr. unfold kset. cbn [IsInterval SetElements].
  by rewrite contains_keys.
Qed.

(** ** Marks and connection states *)

Definition mark_ok (m : NfTablesMark) : Prop :=
  0 ≤ m.(markMask) < 2 ^ 32 ∧ 0 ≤ m.(markXor) < 2 ^ 32 ∧ 0 ≤ m.(markValue) < 2 ^ 32.

Lemma u32_bits x : (∀ n, 32 ≤ n → Z.testbit x n = false) ↔ 0 ≤ x < 2 ^ 32.
Proof.
  split.
  - intros H. assert (Hx : x = Z.land x (Z.ones 32)).
    { apply Z.bits_inj'. intros n Hn. rewrite Z.land_spec. destruct (decide (n < 32)).
      - by rewrite Z.ones_spec_low, andb_true_r by lia.
      - by rewrite H by lia. }
    rewrite Hx, Z.land_ones by done. by apply Z.mod_pos_bound.
  - intros H n Hn. rewrite <- (Z.mod_small x (2 ^ 32)), <- Z.land_ones by done.
    by rewrite Z.land_spec, Z.ones_spec_high, andb_false_r by lia.
Qed.

Lemma update_mark_range m x : mark_ok m → 0 ≤ x < 2 ^ 32 → 0 ≤ update_mark m x < 2 ^ 32.
Proof.
  intros (Hm & Hxor & _) Hx. apply u32_bits. intros n Hn. unfold update_mark.
  rewrite Z.lxor_spec, Z.land_spec. by rewrite !(proj2 (u32_bits _)) by done.
Qed.

(** The masked and flipped value of a register. *)
Lemma run_bitwise S k x mask xor es : reg k 1 = le32 x →
  ∃ k', run_rule S (Bitwise 1 1 4 (le32 mask) (le32 xor) :: es) k = run_rule S es k' ∧ same k k' ∧
    reg k' 1 = le32 (Z.lxor (Z.land x mask) xor).
Proof.
  intros Hr. destruct (step_Bitwise S 1 1 (le32 mask) (le32 xor) k) as (k' & Hstep & Hs & Hr'); [by rewrite Hr|done|].
  exists k'. cbn [run_rule]. change 4 with (zlen (le32 mask)). rewrite Hstep. split_and!; [done..|].
  by rewrite Hr', Hr, bitwise_le32.
Qed.

Lemma tests_mark S m : mark_ok m →
  tests S (λ _, True) [Meta MetaKeyMARK 1 false; Bitwise 1 1 4 (le32 m.(markMask)) (le32 m.(markXor));
                       Cmp CmpOpEq 1 (le32 m.(markValue))]
    (λ p, mark_matches (Some m) p.(mark)).
Proof.
  intros Hm. eapply tests_load; [intros; apply step_Meta|intros k p Hk _; apply (carries_mark _ _ Hk)|].
  intros k p Hk _ Hr. destruct (run_bitwise S k _ m.(markMask) m.(markXor) [Cmp CmpOpEq 1 (le32 m.(markValue))] Hr)
    as (k' & -> & Hs & Hr'). exists k'. split; [|done].
  rewrite run_cmp_eq by by rewrite Hr'. rewrite Hr'. flow_eq.
  pose proof (carries_ok _ _ Hk) as (Hmark & _). rewrite bool_decide_le32; [done| |apply Hm].
  by apply update_mark_range.
Qed.

Lemma flags_u32 s : s ∈ flags → 0 ≤ s < 2 ^ 32.
Proof. intros Hs. unfold flags in Hs. set_unfold. destruct_or!; subst; done. Qed.
Lemma land_flags s m : s ∈ flags → m ∈ flags → (Z.land s m =? 0) = negb (bool_decide (s = m)).
Proof. intros Hs Hm. unfold flags in *. set_unfold. destruct_or!; by subst. Qed.
Lemma zeros_le32 : [0; 0; 0; 0] = le32 0.
Proof. done. Qed.

Lemma tests_state S state : state ∈ flags →
  tests S (λ _, True) [Ct 1; Bitwise 1 1 4 (le32 state) [0; 0; 0; 0]; Cmp CmpOpNeq 1 [0; 0; 0; 0]]
    (λ p, state_matches (Some [state]) p.(ctState)).
Proof.
  intros Hm. eapply tests_load; [intros; apply step_Ct|intros k p Hk _; apply (carries_ct _ _ Hk)|].
  intros k p Hk _ Hr. rewrite zeros_le32.
  destruct (run_bitwise S k _ state 0 [Cmp CmpOpNeq 1 (le32 0)] Hr) as (k' & -> & Hs & Hr').
  exists k'. split; [|done]. rewrite run_cmp_neq by by rewrite Hr'. rewrite Hr', Z.lxor_0_r.
  pose proof (carries_ok _ _ Hk) as (_ & Hct & _).
  rewrite bool_decide_le32; [| |done].
  - rewrite land_flags by done. simpl. rewrite (bool_decide_ext _ _ (list_elem_of_singleton _ _)).
    by case_bool_decide.
  - apply u32_bits. intros n Hn. rewrite Z.land_spec. by rewrite (proj2 (u32_bits _) (flags_u32 _ Hct)).
Qed.

Lemma tests_states S states i setName : Forall (λ s, s ∈ flags) states →
  S i = Some (kset (SetKindConntrackState states)) →
  tests S (λ _, True) [Ct 1; Lookup 1 i setName false] (λ p, state_matches (Some states) p.(ctState)).
Proof.
  intros Hf Hi. eapply tests_load; [intros; apply step_Ct|intros k p Hk _; apply (carries_ct _ _ Hk)|].
  intros k p Hk _ Hr. exists k. split; [|apply same_refl].
  rewrite (run_lookup S k i setName _ _ Hi), Hr. unfold kset. cbn [IsInterval SetElements].
  pose proof (contains_keys (le32 <$> states) (le32 p.(ctState))) as Hc. rewrite <- list_fmap_compose in Hc.
  unfold compose in Hc. rewrite Hc, xorb_false_l. flow_eq. apply bool_decide_ext.
  pose proof (carries_ok _ _ Hk) as (_ & Hct & _). rewrite Forall_forall in Hf. split.
  - intros (s & Heq & Hs)%list_elem_of_fmap. apply le32_inj in Heq as ->; auto using flags_u32.
  - apply list_elem_of_fmap_2.
Qed.

(** ** The transport header *)

Lemma tests_proto S proto :
  tests S (λ _, True) [Meta MetaKeyL4PROTO 1 false; Cmp CmpOpEq 1 [u8 proto]] (λ p, p.(l4proto) =? u8 proto).
Proof.
  eapply tests_load; [intros; apply step_Meta|intros k p Hk _; apply (carries_proto _ _ Hk)|].
  intros k p _ _ Hr. exists k. split; [|apply same_refl]. rewrite run_cmp_eq by by rewrite Hr. rewrite Hr.
  flow_eq. destruct (Z.eqb_spec p.(l4proto) (u8 proto)) as [->|Hne]; [by rewrite bool_decide_true|].
  rewrite bool_decide_false; [done|]. congruence.
Qed.

(** A load of [len] bytes of the transport header; a short packet does not match. *)
Lemma tests_transport S off len es (φ : packet → Prop) (b : packet → bool) :
  0 ≤ off → 0 ≤ len →
  (∀ p, packet_ok p → zlen p.(transport) < off + len → b p = false) →
  (∀ k p, carries k p → off + len ≤ zlen p.(transport) →
     reg k 1 = ztake len (zdrop off p.(transport)) →
     ∃ k', run_rule S es k = (k', if b p then Next_ else Break) ∧ same k k') →
  tests S φ (Payload 1 PayloadBaseTransportHeader off len :: es) b.
Proof.
  intros Hoff Hlen Hshort Hes k p Hk Hp. cbn [run_rule].
  pose proof (step_Payload S 1 PayloadBaseTransportHeader off len k) as He. unfold loads in He.
  rewrite (carries_transport _ _ Hk) in He by done.
  destruct (step S _ k) as [k1 fl]. cbn [fst snd] in He. destruct He as [Hs He].
  destruct (Z.leb_spec (off + len) (zlen p.(transport))).
  - destruct He as [-> Hr]. destruct (Hes k1 p) as (k2 & Hrun & Hs2); [by eapply carries_same|done..|].
    exists k2. split; [done|]. by eapply same_trans.
  - subst fl. rewrite Hshort by (done || apply (carries_ok _ _ Hk)). by exists k1.
Qed.

Lemma be_2_bytes a b : byte_ok a → byte_ok b → be 2 (a * 256 + b) = [a; b].
Proof.
  unfold byte_ok, u8. intros Ha Hb. cbn [be]. unfold u8. change (2 ^ (8 * Z.of_nat 1)) with 256.
  change (2 ^ (8 * Z.of_nat 0)) with 1. change (2 ^ 8) with 256. f_equal; [|f_equal]; Z.div_mod_to_equations; lia.
Qed.

Definition ports_ok (rs : list PortRange) : Prop :=
  disjoint_ports (port_interval <$> rs) ∧ not_both_ends (port_interval <$> rs).

Lemma covers_ports rs x :
  covers (port_interval <$> rs) x = existsb (λ r, (r.(Lo) <=? x) && (x <=? r.(Hi))) rs.
Proof. induction rs as [|r rs IH]; [done|]. cbn [fmap list_fmap covers existsb]. by rewrite <- IH. Qed.

Context `{LS : !SlicesSortLaws Sort}.

Lemma tests_port S (off : nat) rs i setName :
  ports_ok rs → S i = Some (kset (SetKindPort ((λ r, (r.(Lo), r.(Hi))) <$> rs))) →
  tests S (λ _, True) [Payload 1 PayloadBaseTransportHeader (Z.of_nat off) 2; Lookup 1 i setName false]
    (λ p, port_matches (Some rs) off p.(transport)).
Proof.
  intros [Hd Hends] Hi. apply tests_transport; [lia|done| |].
  - intros p _ Hlen. unfold port_matches, port_at. unfold zlen in Hlen.
    assert (Hl : (length (drop off p.(transport)) < 2)%nat) by (rewrite length_drop; lia).
    destruct (drop off p.(transport)) as [|? [|??]]; simpl in Hl; [done..|lia].
  - intros k p Hk Hlen Hr. exists k. split; [|apply same_refl].
    rewrite (run_lookup S k i setName _ _ Hi), Hr, xorb_false_l. flow_eq.
    unfold ztake, zdrop. rewrite Nat2Z.id. unfold port_matches, port_at. unfold zlen in Hlen.
    assert (Hl : (2 ≤ length (drop off p.(transport)))%nat) by (rewrite length_drop; lia).
    pose proof (carries_ok _ _ Hk) as (_ & _ & _ & _ & _ & _ & Hbytes).
    apply (Forall_drop _ off) in Hbytes.
    destruct (drop off p.(transport)) as [|a [|b t]]; [simpl in Hl; lia..|].
    apply Forall_cons in Hbytes as [Ha [Hb _]%Forall_cons].
    change (take (Z.to_nat 2) (a :: b :: t)) with [a; b]. rewrite <- be_2_bytes by done.
    destruct (mergeAdjacentPorts_spec _ Hd) as (Hsep & Hcov & Hfit).
    unfold kset. cbn [IsInterval SetElements].
    replace (flat_map port_elements _) with (flat_map (interval_ends 2) (mergeAdjacentPorts (port_interval <$> rs))).
    + rewrite contains_intervals; [by rewrite Hcov, covers_ports|done|by apply Hfit|].
      unfold byte_ok in *. change (2 ^ (8 * Z.of_nat 2)) with 65536. lia.
    + apply flat_map_ext. intros j. symmetry. apply port_elements_ends.
Qed.

Lemma tests_icmp S types i setName :
  Forall byte_ok types → S i = Some (kset (SetKindICMPType types)) →
  tests S (λ _, True) [Payload 1 PayloadBaseTransportHeader 0 1; Lookup 1 i setName false]
    (λ p, type_matches (Some types) p.(transport)).
Proof.
  intros Htypes Hi. apply tests_transport; [done..| |].
  - intros p _ Hlen. pose proof (zlen_nonneg p.(transport)). rewrite (zlen_0_inv p.(transport)) by lia. done.
  - intros k p Hk Hlen Hr. exists k. split; [|apply same_refl].
    rewrite (run_lookup S k i setName _ _ Hi), Hr, xorb_false_l. flow_eq. rewrite zdrop_0.
    destruct p.(transport) as [|x t]; [done|]. change (ztake 1 (x :: t)) with [x].
    unfold kset. cbn [IsInterval SetElements type_matches].
    pose proof (contains_keys ((λ t, [u8 t]) <$> types) [x]) as Hc. rewrite <- list_fmap_compose in Hc.
    unfold compose in Hc. rewrite Hc. apply bool_decide_ext. rewrite Forall_forall in Htypes. split.
    + intros (y & [= ->] & Hy)%list_elem_of_fmap. rewrite u8_small; [done|]. by apply Htypes.
    + intros Hx. rewrite <- (u8_small x) by by apply Htypes. by apply (list_elem_of_fmap_2 (λ t, [u8 t])).
Qed.
End tests.
