(* ===== verification/NfCompile.v ===== *)
(** * Compilation is correct

    The rules [Compile] makes decide on a packet as the rule it was given says, mark it as
    the rule says, and leave it alone otherwise. *)

From S2P Require Import Prelude Errors Bytes Netip NfTables NfMachine NfCorrect NfTests.

(** A rule that can be compiled to what it says: its numbers are of their widths, its
    ranges of ports do not meet, it does not clamp. *)
Definition ranges_ok (m : option (list PortRange)) : Prop :=
  match m with None => True | Some rs => ports_ok rs end.
Definition states_ok (m : option (list Z)) : Prop :=
  match m with None => True | Some states => Forall (λ s, s ∈ flags) states end.
Definition marks_ok (m : option NfTablesMark) : Prop := match m with None => True | Some m => mark_ok m end.
Definition subnets_ok (m : option NfTablesAddressMatch) : Prop :=
  match m with
  | None => True
  | Some m => Forall usable m.(IncludeSubnets) ∧ Forall usable m.(ExcludeSubnets) ∧
              ∀ f, ends_inside m.(IncludeSubnets) m.(ExcludeSubnets) f
  end.
Definition layer4_ok (m : option NfTablesLayer4Match) : Prop :=
  match m with
  | None => True
  | Some m => 0 ≤ m.(Protocol) < 256 ∧ ranges_ok m.(MatchSourcePort) ∧ ranges_ok m.(MatchDestinationPort) ∧
              match m.(MatchICMPType) with None => True | Some types => Forall byte_ok types end
  end.

(** No address of the family matches. *)
Definition excludes (m : NfTablesAddressMatch) (f : Family) : Prop :=
  ∀ a, valid_addr a → a.(family) = f → address_matches (Some m) a = false.
(** A rule for both addresses is for one family only in both, or in none. *)
Definition families_agree (r : NfTablesRule) : Prop :=
  match r.(MatchSourceAddress), r.(MatchDestinationAddress) with
  | Some s, Some d => ∀ f, excludes s f ↔ excludes d f
  | _, _ => True
  end.

Definition rule_ok (r : NfTablesRule) : Prop :=
  marks_ok r.(MatchMark) ∧ states_ok r.(MatchConntrackState) ∧
  subnets_ok r.(MatchSourceAddress) ∧ subnets_ok r.(MatchDestinationAddress) ∧ families_agree r ∧
  layer4_ok r.(MatchLayer4) ∧ r.(ClampMSS) = None ∧ marks_ok r.(SetMark).

Section compile.
Context {K : Type} `{M : NfMachine K} `{ML : !NfMachineLaws M}.
Context `{Sort : SlicesSort} `{LS : !SlicesSortLaws Sort} `{N : Netipx} `{LN : !NetipxLaws N}.
Implicit Types (k : K) (p : packet) (S : set_table) (c : compiling).

Definition any (p : packet) : Prop := True.
Definition in_family (f : Family) (p : packet) : Prop := p.(src).(family) = f.

(** The table has the sets of a rule at their indices. *)
Definition extends S (sets : list NfTablesSet) : Prop := ∀ i s, sets !! i = Some s → S (Z.of_nat i) = Some (kset s).

Lemma extends_app S sets s : extends S (sets ++ [s]) → extends S sets.
Proof. intros H i s' Hi. apply H. by apply lookup_app_l_Some. Qed.

Lemma last_set_at S s c : zlen c.(cSets) < 2 ^ 32 - 1 → extends S (append_set s c).(cSets) →
  S (last_set (append_set s c)) = Some (kset s).
Proof.
  intros Hlen H. unfold last_set, append_set. cbn [cSets]. rewrite zlen_app, zlen_cons, zlen_nil.
  pose proof (zlen_nonneg c.(cSets)). rewrite u32_small by lia. unfold zlen in *.
  replace (Z.of_nat (length c.(cSets)) + (1 + 0) - 1) with (Z.of_nat (length c.(cSets))) by lia.
  apply H. unfold append_set. cbn [cSets]. rewrite lookup_app_r, Nat.sub_diag by lia. done.
Qed.

Definition family_rule (f : Family) c : option (list Any) := match f with IPv4 => c.(rule4) | IPv6 => c.(rule6) end.

(** The parts are tests: [pre] and [post], and those of the families, if there are any. *)
Record built (n : Z) c (pre : packet → bool) (fam : Family → option (packet → bool)) (post : packet → bool) : Prop := {
  built_few : zlen c.(cSets) ≤ n;
  built_pre S : extends S c.(cSets) → tests S any c.(rulePre) pre;
  built_family f : match family_rule f c, fam f with
    | Some es, Some b => ∀ S, extends S c.(cSets) → tests S (in_family f) es b
    | None, None => True
    | _, _ => False
    end;
  built_post S : extends S c.(cSets) → tests S any c.(rulePost) post
}.

Lemma built_nothing : built 0 nothing (λ _, true) (λ _, None) (λ _, true).
Proof. split; [done|intros; apply tests_nil|by intros []|intros; apply tests_nil]. Qed.

Lemma built_append_pre n c pre fam post es b :
  (∀ S, extends S c.(cSets) → tests S any es b) →
  built n c pre fam post → built n (append_pre es c) (λ p, pre p && b p) fam post.
Proof.
  intros Hes [Hn Hpre Hfam Hpost]. split; [done|intros; by apply tests_app; [apply Hpre|apply Hes]|done|done].
Qed.
Lemma built_append_post n c pre fam post es b :
  (∀ S, extends S c.(cSets) → tests S any es b) →
  built n c pre fam post → built n (append_post es c) pre fam (λ p, post p && b p).
Proof.
  intros Hes [Hn Hpre Hfam Hpost]. split; [done|done|done|intros; by apply tests_app; [apply Hpost|apply Hes]].
Qed.
Lemma built_append_set n c pre fam post s :
  built n c pre fam post → built (n + 1) (append_set s c) pre fam post.
Proof.
  intros [Hn Hpre Hfam Hpost]. split.
  - unfold append_set. cbn [cSets]. rewrite zlen_app, zlen_cons, zlen_nil. lia.
  - intros S HS%extends_app. by apply Hpre.
  - intros f. specialize (Hfam f). replace (family_rule f (append_set s c)) with (family_rule f c) by by destruct f.
    destruct (family_rule f c), (fam f); try done. intros S HS%extends_app. by apply Hfam.
  - intros S HS%extends_app. by apply Hpost.
Qed.
Lemma built_more n n' c pre fam post : n ≤ n' → built n c pre fam post → built n' c pre fam post.
Proof. intros Hle []. split; [lia|done..]. Qed.
Lemma built_ext n c pre pre' fam post post' : (∀ p, pre p = pre' p) → (∀ p, post p = post' p) →
  built n c pre fam post → built n c pre' fam post'.
Proof.
  intros Hpre Hpost []. split; [done| |done|]; intros; eapply tests_ext; eauto.
Qed.

Definition set_family (f : Family) (b : packet → bool) (fam : Family → option (packet → bool)) f' :=
  if bool_decide (f' = f) then Some (λ p, from_option (λ b', b' p) true (fam f) && b p) else fam f'.

Lemma family_rule_append f f' es c :
  family_rule f' (append_family f es c) =
    if bool_decide (f' = f) then Some (default [] (family_rule f c) ++ es) else family_rule f' c.
Proof. by destruct f, f'. Qed.

Lemma built_append_family n c pre fam post f es b :
  (∀ S, extends S c.(cSets) → tests S (in_family f) es b) →
  built n c pre fam post → built n (append_family f es c) pre (set_family f b fam) post.
Proof.
  intros Hes [Hn Hpre Hfam Hpost]. split; [done|done| |done].
  intros f'. rewrite family_rule_append. unfold set_family. case_bool_decide as Hf; [subst f'|apply Hfam].
  intros S HS. specialize (Hfam f). destruct (family_rule f c), (fam f); try done; simpl.
  - apply tests_app; [by apply Hfam|by apply Hes].
  - by apply Hes.
Qed.

(** ** The conditions, in order *)

Lemma built_ifname n c pre fam post key m (name : packet → string) :
  (∀ k p, carries k p → load k (FromMeta key) = Some (ifname (name p))) → n < 2 ^ 32 - 1 →
  built n c pre fam post →
  built (n + 1) (compile_ifname key m c) (λ p, pre p && name_matches m (name p)) fam post.
Proof.
  intros Hload Hn Hb. destruct m as [[ifns op]|]; cbn [compile_ifname].
  2: { apply (built_more n); [lia|]. eapply built_ext, Hb; [intros; by rewrite andb_true_r|done]. }
  assert (Hset : ∀ ifns, built (n + 1)
    (let c := append_set (SetKindIfName (ifname <$> ifns)) (append_pre [Meta key 1 false] c) in
     append_pre [Lookup 1 (last_set c) "" (is_not_equal op)] c)
    (λ p, pre p && name_matches (Some {| InterfaceNames := ifns; Operator := op |}) (name p)) fam post).
  { clear ifns. intros ifns. cbv zeta.
    set (c' := append_set (SetKindIfName (ifname <$> ifns)) c).
    assert (Heq : append_pre [Lookup 1 (last_set (append_set (SetKindIfName (ifname <$> ifns)) (append_pre [Meta key 1 false] c)))
                    "" (is_not_equal op)] (append_set (SetKindIfName (ifname <$> ifns)) (append_pre [Meta key 1 false] c)) =
                  append_pre [Meta key 1 false; Lookup 1 (last_set c') "" (is_not_equal op)] c').
    { unfold append_pre, c', append_set, last_set. cbn. by rewrite <- app_assoc. }
    rewrite Heq. apply built_append_pre; [|by apply built_append_set].
    intros S HS. eapply tests_ifnames; [done|]. apply last_set_at; [|done]. destruct Hb. lia. }
  unfold matchIfNames. cbn [InterfaceNames Operator].
  destruct ifns as [|ifn [|ifn' ifns]]; [apply Hset| |apply Hset].
  apply (built_more n); [lia|].
  assert (Heq : append_pre [Cmp (cmp_operator op) 1 (ifname ifn)] (append_pre [Meta key 1 false] c) =
                append_pre [Meta key 1 false; Cmp (cmp_operator op) 1 (ifname ifn)] c).
  { unfold append_pre. cbn. by rewrite <- app_assoc. }
  rewrite Heq. apply built_append_pre; [|exact Hb]. intros S _. by apply tests_ifname.
Qed.

Lemma built_mark n c pre fam post m : marks_ok m → built n c pre fam post →
  built n (compile_mark m c) (λ p, pre p && mark_matches m p.(mark)) fam post.
Proof.
  intros Hm Hb. destruct m as [m|]; cbn [compile_mark].
  - apply built_append_pre; [|done]. intros S _. by apply tests_mark.
  - eapply built_ext; [|done|exact Hb]. intros. by rewrite andb_true_r.
Qed.

Lemma built_conntrack n c pre fam post m : states_ok m → n < 2 ^ 32 - 1 → built n c pre fam post →
  built (n + 1) (compile_conntrack m c) (λ p, pre p && state_matches m p.(ctState)) fam post.
Proof.
  intros Hm Hn Hb. destruct m as [states|]; cbn [compile_conntrack].
  2: { apply (built_more n); [lia|]. eapply built_ext, Hb; [intros; by rewrite andb_true_r|done]. }
  assert (Hset : built (n + 1)
    (let c := append_set (SetKindConntrackState states) c in append_pre [Ct 1; Lookup 1 (last_set c) "" false] c)
    (λ p, pre p && state_matches (Some states) p.(ctState)) fam post).
  { apply built_append_pre; [|by apply built_append_set]. intros S HS. apply tests_states; [done|].
    apply last_set_at; [|done]. destruct Hb. lia. }
  destruct states as [|state [|state' states]]; [exact Hset| |exact Hset].
  apply (built_more n); [lia|]. apply built_append_pre; [|exact Hb]. intros S _.
  apply tests_state. by apply Forall_cons in Hm as [Hm _].
Qed.

(** *** Addresses *)

(** Where an address of a packet is read. *)
Definition read_at (get : packet → Addr) (off : Family → Z) : Prop :=
  (∀ p, packet_ok p → valid_addr (get p) ∧ (get p).(family) = p.(src).(family)) ∧
  ∀ k p, carries k p →
    load k (FromPayload PayloadBaseNetworkHeader (off p.(src).(family)) (Z.of_nat (address_bytes p.(src).(family)))) =
      Some (MarshalBinary (Some (get p))).

Lemma read_src : read_at src src_off.
Proof. split; [by intros p (_ & _ & ? & _)|apply carries_src]. Qed.
Lemma read_dst : read_at dst dst_off.
Proof. split; [by intros p (_ & _ & _ & ? & ? & _)|apply carries_dst]. Qed.

Definition set_of_family (f : Family) (rs : list IPRange) : NfTablesSet :=
  match f with IPv4 => SetKindIPv4 rs | IPv6 => SetKindIPv6 rs end.

Lemma tests_address S f get off include exclude invert rs i setName :
  read_at get off → ranges_of include exclude f rs → covers_all f rs = false → ends_inside include exclude f →
  S i = Some (kset (set_of_family f rs)) →
  tests S (in_family f) [Payload 1 PayloadBaseNetworkHeader (off f) (Z.of_nat (address_bytes f)); Lookup 1 i setName invert]
    (λ p, address_matches (Some {| IncludeSubnets := include; ExcludeSubnets := exclude; addrInvert := invert |}) (get p)).
Proof.
  intros [Hget Hload] Hrs Hnot Hends Hi.
  apply (tests_load S _ _ (FromPayload PayloadBaseNetworkHeader (off f) (Z.of_nat (address_bytes f))) _
           (λ p, MarshalBinary (Some (get p)))); [intros; apply step_Payload| |].
  { intros k p Hk Hf. unfold in_family in Hf. rewrite <- Hf. by apply Hload. }
  intros k p Hk Hf Hr. exists k. split; [|apply same_refl]. unfold in_family in Hf.
  rewrite (run_lookup S k i setName _ _ Hi), Hr. flow_eq. simpl. f_equal.
  destruct (Hget p (carries_ok _ _ Hk)) as [Hv Hfam]. rewrite Hf in Hfam.
  rewrite <- (ranges_member _ _ _ _ Hrs) by done.
  destruct (range_elements_ends _ _ _ _ Hrs Hnot Hends) as [Hel Hfit].
  rewrite Hfam. unfold kset.
  replace (IsInterval (set_of_family f rs)) with true by by destruct f.
  replace (SetElements (set_of_family f rs)) with (flat_map range_elements rs) by by destruct f.
  rewrite Hel. apply contains_intervals; [apply (ranges_separated _ _ _ _ Hrs)|done|].
  unfold valid_addr in Hv. rewrite Hfam, last_value_pow in Hv. lia.
Qed.

(** One family of a match: it gets a test, or no address of the family matches. *)
Lemma built_address_family n c pre fam post f get off include exclude invert rs :
  let m := {| IncludeSubnets := include; ExcludeSubnets := exclude; addrInvert := invert |} in
  read_at get off → ranges_of include exclude f rs → ends_inside include exclude f → n < 2 ^ 32 - 1 →
  built n c pre fam post →
  (¬ excludes m f ∧ built (n + 1) (address_family f rs invert (off f) c) pre
     (set_family f (λ p, address_matches (Some m) (get p)) fam) post) ∨
  (excludes m f ∧ built n (address_family f rs invert (off f) c) pre fam post).
Proof.
  intros m Hget Hrs Hends Hn Hb. unfold address_family.
  set (zero := {| family := f; value := 0 |}).
  assert (Hzero : valid_addr zero) by (split; [done|apply last_value_nonneg]).
  assert (Hall : covers_all f rs = true → invert = false →
    ∀ a, valid_addr a → a.(family) = f → address_matches (Some m) a = true).
  { intros Hc Hi a Ha Hf. simpl. rewrite Hi. by apply (covers_all_iff _ _ _ _ Hrs). }
  assert (Hnone : rs = [] → invert = true →
    ∀ a, valid_addr a → a.(family) = f → address_matches (Some m) a = true).
  { intros Hc Hi a Ha Hf. simpl. by rewrite Hi, (ranges_empty _ _ _ _ Hrs) by done. }
  assert (Htrue : (∀ a, valid_addr a → a.(family) = f → address_matches (Some m) a = true) →
    ¬ excludes m f ∧ built (n + 1) (append_family f [] c) pre
      (set_family f (λ p, address_matches (Some m) (get p)) fam) post).
  { intros Ht. split.
    - intros Hex. specialize (Hex zero Hzero eq_refl). by rewrite Ht in Hex.
    - apply (built_more n); [lia|]. apply built_append_family; [|done]. intros S _.
      eapply tests_ext, tests_nil. intros p Hp Hf. symmetry. destruct (proj1 Hget p Hp) as [Hv Hfam].
      apply Ht; [done|]. by rewrite Hfam. }
  assert (Hset : covers_all f rs = false →
    built (n + 1) (let c := append_set (set_of_family f rs) c in
      append_family f [Payload 1 PayloadBaseNetworkHeader (off f) (Z.of_nat (address_bytes f));
                       Lookup 1 (last_set c) "" invert] c) pre
      (set_family f (λ p, address_matches (Some m) (get p)) fam) post).
  { intros Hc. apply built_append_family; [|by apply built_append_set]. intros S HS.
    eapply tests_address; [done..|]. apply last_set_at; [|done]. destruct Hb. lia. }
  fold (set_of_family f rs).
  destruct (covers_all f rs) eqn:Hc, invert eqn:Hi; simpl.
  - right. split.
    + intros a Ha Hf. unfold m. simpl. by rewrite (proj1 (covers_all_iff _ _ _ _ Hrs) Hc).
    + destruct rs; done.
  - left. by apply Htrue, Hall.
  - destruct rs as [|r rs']; simpl; left; [by apply Htrue, Hnone|]. split; [|by apply Hset].
    intros Hex. assert (Hcov : covers_all f (r :: rs') = true); [|congruence].
    apply (covers_all_iff _ _ _ _ Hrs). intros a Ha Hf. specialize (Hex a Ha Hf). simpl in Hex.
    by destruct (member include exclude a).
  - destruct rs as [|r rs']; simpl; [right|left].
    + split; [|done]. intros a Ha Hf. unfold m. simpl. by rewrite (ranges_empty _ _ _ _ Hrs).
    + split; [|by apply Hset]. intros Hex. pose proof (ranges_valid _ _ _ _ Hrs) as Hv.
      apply Forall_cons in Hv as [((Hfrom & _) & Hff) _].
      specialize (Hex r.(From) Hfrom Hff). simpl in Hex. rewrite <- (ranges_member _ _ _ _ Hrs) in Hex by done.
      assert (Hcov : covers (bounds <$> r :: rs') r.(From).(value) = true); [|simpl in *; congruence].
      apply covers_iff. exists (bounds r). split; [by left|]. unfold bounds. simpl.
      pose proof (ranges_separated _ _ _ _ Hrs) as [_ Hord]. apply Forall_cons in Hord as [Hord _]. simpl in Hord. lia.
Qed.

Lemma excludes_iff include exclude invert f rs : ranges_of include exclude f rs →
  excludes {| IncludeSubnets := include; ExcludeSubnets := exclude; addrInvert := invert |} f ↔
  if invert then covers_all f rs = true else rs = [].
Proof.
  intros Hrs. unfold excludes. simpl. destruct invert; simpl.
  - rewrite (covers_all_iff _ _ _ _ Hrs). split; intros H a Ha Hf; specialize (H a Ha Hf);
      by destruct (member include exclude a).
  - split; [|intros -> a Ha Hf; by apply (ranges_empty _ _ _ _ Hrs)].
    intros H. destruct rs as [|r rs']; [done|]. exfalso.
    pose proof (ranges_valid _ _ _ _ Hrs) as Hv. apply Forall_cons in Hv as [((Hfrom & _) & Hff) _].
    specialize (H r.(From) Hfrom Hff). rewrite <- (ranges_member _ _ _ _ Hrs) in H by done.
    assert (Hcov : covers (bounds <$> r :: rs') r.(From).(value) = true); [|simpl in *; congruence].
    apply covers_iff. exists (bounds r). split; [by left|]. unfold bounds. simpl.
    pose proof (ranges_separated _ _ _ _ Hrs) as [_ Hord]. apply Forall_cons in Hord as [Hord _]. simpl in Hord. lia.
Qed.

(** The tests of the families, narrowed by a match: only those it does not exclude. *)
Definition narrowed (m : NfTablesAddressMatch) (get : packet → Addr) (fam fam' : Family → option (packet → bool)) : Prop :=
  ∀ f, (excludes m f ∧ fam' f = fam f) ∨
       (¬ excludes m f ∧
        fam' f = Some (λ p, from_option (λ b, b p) true (fam f) && address_matches (Some m) (get p))).

Lemma built_address n c pre fam post m label get off :
  read_at get off → subnets_ok (Some m) → n < 2 ^ 32 - 2 → built n c pre fam post →
  ((∀ f, excludes m f) ∧ compile_address (Some m) label (off IPv4) (off IPv6) c = inl (Sentinel "ErrNotExist")) ∨
  ((∃ f, ¬ excludes m f) ∧ ∃ c' fam',
    compile_address (Some m) label (off IPv4) (off IPv6) c = inr c' ∧
    built (n + 2) c' pre fam' post ∧ narrowed m get fam fam').
Proof.
  intros Hget (Hinc & Hexc & Hends) Hn Hb. destruct m as [include exclude invert]. simpl in Hinc, Hexc, Hends.
  destruct (BuildIPSet_ranges include exclude Hinc Hexc) as (s & Hs & Hrs).
  cbn [compile_address]. unfold addressMatchExpression. cbn [IncludeSubnets ExcludeSubnets addrInvert].
  rewrite Hs, SplitIPSet_spec. cbv iota zeta.
  set (m := {| IncludeSubnets := include; ExcludeSubnets := exclude; addrInvert := invert |}).
  set (rs4 := of_family IPv4 (Ranges s)). set (rs6 := of_family IPv6 (Ranges s)).
  assert (Hex4 : excludes m IPv4 ↔ if invert then covers_all IPv4 rs4 = true else rs4 = []) by apply excludes_iff, Hrs.
  assert (Hex6 : excludes m IPv6 ↔ if invert then covers_all IPv6 rs6 = true else rs6 = []) by apply excludes_iff, Hrs.
  assert (Hcases : (∀ f, excludes m f) ∧
      (match rs4, rs6 with [], [] => true | _, _ => false end && negb invert = true ∨
       covers_all IPv4 rs4 && covers_all IPv6 rs6 && invert = true) ∨
    (∃ f, ¬ excludes m f) ∧ match rs4, rs6 with [], [] => true | _, _ => false end && negb invert = false ∧
      covers_all IPv4 rs4 && covers_all IPv6 rs6 && invert = false).
  { destruct invert; simpl.
    - destruct (covers_all IPv4 rs4) eqn:H4; [destruct (covers_all IPv6 rs6) eqn:H6|].
      + left. split; [intros []; tauto|by right].
      + right. split_and!; [exists IPv6; rewrite Hex6; done|by destruct rs4, rs6|done].
      + right. split_and!; [exists IPv4; rewrite Hex4; done|by destruct rs4, rs6|by destruct (covers_all IPv6 rs6)].
    - destruct rs4 as [|r4 l4] eqn:H4; [destruct rs6 as [|r6 l6] eqn:H6|].
      + left. split; [intros []; tauto|by left].
      + right. split_and!; [exists IPv6; rewrite Hex6; done|done|by rewrite andb_false_r].
      + right. split_and!; [exists IPv4; rewrite Hex4; done|done|by rewrite andb_false_r]. }
  destruct Hcases as [[Hex Hcond]|[Hex [-> ->]]].
  - left. split; [done|]. destruct (match rs4, rs6 with [], [] => true | _, _ => false end && negb invert) eqn:Hc1; [done|].
    destruct Hcond as [|Hc2]; [done|]. by rewrite Hc2.
  - right. split; [done|].
    destruct (built_address_family n c pre fam post IPv4 get off include exclude invert rs4) as [[Hf4 Hb4]|[Hf4 Hb4]];
      [done|apply Hrs|apply Hends|lia|done| |].
    + destruct (built_address_family (n + 1) _ pre _ post IPv6 get off include exclude invert rs6
        Hget (Hrs IPv6) (Hends IPv6) ltac:(lia) Hb4) as [[Hf6 Hb6]|[Hf6 Hb6]]; (eexists _, _; split_and!; [done| |]);
        [|intros []|..].
      1: apply (built_more (n + 1 + 1)); [lia|exact Hb6].
      all: try (right; split; done). 1: apply (built_more (n + 1)); [lia|exact Hb6].
      intros []; [right|left]; split; done.
    + destruct (built_address_family n _ pre _ post IPv6 get off include exclude invert rs6
        Hget (Hrs IPv6) (Hends IPv6) ltac:(lia) Hb4) as [[Hf6 Hb6]|[Hf6 Hb6]]; (eexists _, _; split_and!; [done| |]).
      * apply (built_more (n + 1)); [lia|exact Hb6].
      * intros []; [left|right]; split; done.
      * apply (built_more n); [lia|exact Hb6].
      * intros []; left; split; done.
Qed.

(** *** The transport layer *)

Lemma built_port n c pre fam post (off : nat) m : ranges_ok m → n < 2 ^ 32 - 1 → built n c pre fam post →
  built (n + 1) (portMatch (Z.of_nat off) m c) pre fam (λ p, post p && port_matches m off p.(transport)).
Proof.
  intros Hm Hn Hb. destruct m as [rs|]; cbn [portMatch].
  - apply built_append_post; [|by apply built_append_set]. intros S HS. apply tests_port; [done|].
    apply last_set_at; [|done]. destruct Hb. lia.
  - apply (built_more n); [lia|]. eapply built_ext, Hb; [done|]. intros. by rewrite andb_true_r.
Qed.

Lemma built_icmp n c pre fam post m : match m with None => True | Some types => Forall byte_ok types end →
  n < 2 ^ 32 - 1 → built n c pre fam post →
  built (n + 1) (compile_icmp m c) pre fam (λ p, post p && type_matches m p.(transport)).
Proof.
  intros Hm Hn Hb. destruct m as [types|]; cbn [compile_icmp].
  - apply built_append_post; [|by apply built_append_set]. intros S HS. apply tests_icmp; [done|].
    apply last_set_at; [|done]. destruct Hb. lia.
  - apply (built_more n); [lia|]. eapply built_ext, Hb; [done|]. intros. by rewrite andb_true_r.
Qed.

Lemma built_layer4 n c pre fam post m : layer4_ok m → n < 2 ^ 32 - 3 → built n c pre fam post →
  ∃ pre' post', built (n + 3) (compile_layer4 m c) pre' fam post' ∧
    ∀ p, pre' p && post' p = pre p && post p && layer4_matches m p.
Proof.
  intros Hm Hn Hb. destruct m as [m|]; cbn [compile_layer4].
  - destruct Hm as (Hproto & Hs & Hd & Hi).
    pose proof (built_append_pre _ _ _ _ _ _ _ (λ S _, tests_proto S m.(Protocol)) Hb) as H1.
    pose proof (built_port n _ _ _ _ 0 _ Hs ltac:(lia) H1) as H2.
    pose proof (built_port (n + 1) _ _ _ _ 2 _ Hd ltac:(lia) H2) as H3.
    pose proof (built_icmp (n + 1 + 1) _ _ _ _ _ Hi ltac:(lia) H3) as H4.
    eexists _, _. split.
    + apply (built_more (n + 1 + 1 + 1)); [lia|exact H4].
    + intros p. simpl. rewrite u8_small by done. by destruct (pre p), (post p), (l4proto p =? Protocol m).
  - exists pre, post. split; [by apply (built_more n); [lia|]|]. intros p. by rewrite andb_true_r.
Qed.

(** ** What follows the conditions *)

Definition within (r : NfTablesRule) k : bool :=
  match r.(MatchLimit) with None => true | Some rate => allows k rate (u32 rate) end.

(** The limit, the mark, the counter and the verdict of a rule. *)
Definition ending (r : NfTablesRule) : list Any :=
  from_option (λ rate, [Limit rate (u32 rate)]) [] r.(MatchLimit) ++
  from_option (λ m, [Meta MetaKeyMARK 1 false; Bitwise 1 1 4 (le32 m.(markMask)) (le32 m.(markXor));
                     Meta MetaKeyMARK 1 true]) [] r.(SetMark) ++
  (if r.(AnonCounter) then [Counter] else []) ++
  from_option (λ v, [Verdict v]) [] r.(ruleVerdict).

Lemma append_post_app es es' c : append_post es' (append_post es c) = append_post (es ++ es') c.
Proof. unfold append_post. simpl. by rewrite app_assoc. Qed.
Lemma append_post_nil c : append_post [] c = c.
Proof. destruct c. unfold append_post. simpl. by rewrite app_nil_r. Qed.

Lemma compile_ending r c : r.(ClampMSS) = None →
  compile_verdict r.(ruleVerdict) (compile_counter r.(AnonCounter) (compile_set_mark r.(SetMark)
    (compile_clamp r.(ClampMSS) (compile_limit r.(MatchLimit) c)))) = append_post (ending r) c.
Proof.
  intros ->. cbn [compile_clamp]. unfold ending.
  destruct r.(MatchLimit), r.(SetMark), r.(AnonCounter), r.(ruleVerdict);
    cbn [compile_verdict compile_counter compile_set_mark compile_limit from_option];
    by rewrite ?append_post_app, ?append_post_nil.
Qed.

Lemma packet_ok_marked r p : marks_ok r.(SetMark) → packet_ok p → packet_ok (marked r p).
Proof.
  intros Hm (Hmark & H). unfold marked. destruct r.(SetMark) as [m|]; [|exact (conj Hmark H)].
  split; [|exact H]. simpl. by apply update_mark_range.
Qed.

Lemma run_set_mark S r k p : marks_ok r.(SetMark) → carries k p →
  ∃ k', run_rule S (from_option (λ m, [Meta MetaKeyMARK 1 false;
      Bitwise 1 1 4 (le32 m.(markMask)) (le32 m.(markXor)); Meta MetaKeyMARK 1 true]) [] r.(SetMark)) k = (k', Next_) ∧
    carries k' (marked r p) ∧ ∀ rate burst, allows k' rate burst = allows k rate burst.
Proof.
  intros Hm Hk. pose proof (packet_ok_marked r p Hm (carries_ok _ _ Hk)) as Hok.
  unfold marked in *. destruct r.(SetMark) as [m|]; cbn [from_option] in *; [|by exists k].
  pose proof (step_Meta S MetaKeyMARK 1 k) as He. unfold loads in He. rewrite (carries_mark _ _ Hk) in He.
  destruct (step S (Meta MetaKeyMARK 1 false) k) as [k1 fl] eqn:Hst1. cbn [fst snd] in He.
  destruct He as (Hs1 & -> & Hr).
  destruct (run_bitwise S k1 _ m.(markMask) m.(markXor) [Meta MetaKeyMARK 1 true] Hr) as (k2 & Hrun & Hs2 & Hr2).
  destruct (step_Mark S 1 k2) as (k3 & Hst & Hmark & Hload & Hall).
  exists k3. split; [by rewrite run_rule_cons, Hst1, Hrun, run_rule_cons, Hst|]. pose proof (same_trans _ _ _ Hs1 Hs2) as Hs. pose proof (carries_same _ _ _ Hs Hk) as Hk2.
  split; [|intros; rewrite Hall; apply Hs].
  assert (Hother : ∀ src, src ≠ FromMeta MetaKeyMARK → load k3 src = load k2 src) by done.
  destruct Hk2. split; simpl; try (rewrite Hother by done; done); [done| |].
  - by rewrite Hmark, Hr2.
  - intros. rewrite Hother by done. auto.
Qed.

Lemma run_ending S r k p : marks_ok r.(SetMark) → carries k p →
  ∃ k', run_rule S (ending r) k =
      (k', if within r k then from_option Stop Next_ r.(ruleVerdict) else Break) ∧
    carries k' (if within r k then marked r p else p) ∧
    (r.(MatchLimit) = None → ∀ rate burst, allows k' rate burst = allows k rate burst).
Proof.
  intros Hm Hk. unfold ending. rewrite run_rule_app.
  assert (Hlim : ∃ k1, run_rule S (from_option (λ rate, [Limit rate (u32 rate)]) [] r.(MatchLimit)) k =
      (k1, if within r k then Next_ else Break) ∧ carries k1 p ∧
      (r.(MatchLimit) = None → k1 = k)).
  { unfold within. destruct r.(MatchLimit) as [rate|]; [|by exists k].
    destruct (step_Limit S rate (u32 rate) k) as (k1 & Hst & Hl). exists k1. cbn. rewrite Hst.
    split_and!; [by destruct (allows k rate (u32 rate))|by eapply carries_loads|done]. }
  destruct Hlim as (k1 & -> & Hk1 & Heq). destruct (within r k).
  2: { exists k1. split_and!; [done..|]. by intros ->%Heq. }
  rewrite run_rule_app. destruct (run_set_mark S r k1 p Hm Hk1) as (k2 & -> & Hk2 & Ha2).
  rewrite run_rule_app.
  assert (Hcount : ∃ k3, run_rule S (if AnonCounter r then [Counter] else []) k2 = (k3, Next_) ∧ same k2 k3).
  { destruct (AnonCounter r); [|by exists k2]. destruct (step_Counter S k2) as (k3 & Hst & Hs). exists k3.
    cbn. by rewrite Hst. }
  destruct Hcount as (k3 & -> & Hs3). exists k3. split_and!.
  - destruct r.(ruleVerdict) as [v|]; cbn; [|done]. by rewrite step_Verdict.
  - by eapply carries_same.
  - intros ->%Heq rate burst. destruct Hs3 as [_ ->]. apply Ha2.
Qed.

(** ** A whole rule *)

Record decided (r : NfTablesRule) k p (b : bool) (k' : K) : Prop := {
  decided_carries : carries k' (if b && within r k then marked r p else p);
  decided_allows : b = false ∨ r.(MatchLimit) = None → ∀ rate burst, allows k' rate burst = allows k rate burst
}.

Lemma run_one S r es b k p : marks_ok r.(SetMark) → tests S any es b → carries k p →
  ∃ k', run_rule S (es ++ ending r) k =
      (k', if b p && within r k then from_option Stop Next_ r.(ruleVerdict) else Break) ∧
    decided r k p (b p) k'.
Proof.
  intros Hm Hes Hk. destruct (Hes k p Hk I) as (k1 & Hr & Hs). rewrite run_rule_app, Hr.
  pose proof (carries_same _ _ _ Hs Hk) as Hk1. destruct (b p); simpl.
  - destruct (run_ending S r k1 p Hm Hk1) as (k2 & -> & Hk2 & Ha).
    assert (Hw : within r k1 = within r k).
    { unfold within. destruct r.(MatchLimit); [|done]. apply Hs. }
    rewrite Hw in *. exists k2. split; [done|]. split; [done|]. intros [?|Hl]; [done|]. intros rate burst.
    rewrite Ha by done. apply Hs.
  - exists k1. split; [done|]. split; [done|]. intros _. apply Hs.
Qed.

(** Two rules of which at most one is for a packet. *)
Lemma run_two S r es es' b b' k p : marks_ok r.(SetMark) →
  tests S any es b → tests S any es' b' → carries k p →
  (∀ q, q.(src).(family) = p.(src).(family) → b p = true → b' q = false) →
  ∃ k', run_rules S [es ++ ending r; es' ++ ending r] k =
      (k', if (b p || b' p) && within r k then r.(ruleVerdict) else None) ∧
    decided r k p (b p || b' p) k'.
Proof.
  intros Hm Hes Hes' Hk Hxor. cbn [run_rules].
  destruct (run_one S r es b k p Hm Hes Hk) as (k1 & -> & [Hk1 Ha1]).
  assert (Hfam : (marked r p).(src).(family) = p.(src).(family)) by by unfold marked; destruct r.(SetMark).
  destruct (b p) eqn:Hb; simpl in *.
  - assert (Hmiss : ∀ q, carries k1 q → q.(src).(family) = p.(src).(family) →
      ∃ k2, run_rule S (es' ++ ending r) k1 = (k2, Break) ∧ same k1 k2).
    { intros q Hq Hf. destruct (Hes' k1 q Hq I) as (k2 & Hr & Hs). exists k2. split; [|done].
      rewrite run_rule_app, Hr. by rewrite Hxor by done. }
    destruct (within r k) eqn:Hw.
    + destruct r.(ruleVerdict) as [v|]; simpl.
      { exists k1. split; [done|]. split; [by rewrite Hw|done]. }
      destruct (Hmiss (marked r p)) as (k2 & -> & Hs); [done..|]. exists k2. split; [done|].
      split; [rewrite Hw; by eapply carries_same|]. intros H rate burst. destruct Hs as [_ ->]. by apply Ha1.
    + destruct (Hmiss p) as (k2 & -> & Hs); [done..|]. exists k2. split; [done|].
      split; [rewrite Hw; by eapply carries_same|]. intros H rate burst. destruct Hs as [_ ->]. by apply Ha1.
  - destruct (run_one S r es' b' k1 p Hm Hes' Hk1) as (k2 & -> & [Hk2 Ha2]).
    assert (Hw : within r k1 = within r k).
    { unfold within. destruct r.(MatchLimit); [|done]. apply Ha1. by left. }
    rewrite Hw in *. exists k2. split.
    + destruct (b' p && within r k); [|done]. by destruct r.(ruleVerdict).
    + split; [exact Hk2|]. intros H rate burst. rewrite Ha2 by done. apply Ha1. by left.
Qed.

Lemma tests_family S f : tests S any (match_family (header_byte f)) (λ p, bool_decide (p.(src).(family) = f)).
Proof.
  eapply tests_load; [intros; apply step_Meta|intros k p Hk _; apply (carries_family _ _ Hk)|].
  intros k p _ _ Hr. exists k. split; [|apply same_refl]. rewrite run_cmp_eq by by rewrite Hr. rewrite Hr.
  flow_eq. apply bool_decide_ext. split; [|by intros ->].
  by destruct f, (family (src p)).
Qed.

Lemma tests_guard S f es b : tests S (in_family f) es b →
  tests S any (match_family (header_byte f) ++ es) (λ p, bool_decide (p.(src).(family) = f) && b p).
Proof.
  intros Hes k p Hk Hp. rewrite run_rule_app. destruct (tests_family S f k p Hk Hp) as (k1 & -> & Hs).
  case_bool_decide as Hf; [|by exists k1].
  destruct (Hes k1 p) as (k2 & Hr & Hs2); [by eapply carries_same|done|].
  exists k2. split; [done|]. by eapply same_trans.
Qed.

(** The rule of one family. *)
Definition family_body (f : Family) (es : list Any) c : list Any :=
  rulePre c ++ match_family (header_byte f) ++ es ++ rulePost c.

Lemma tests_body S n c pre fam post f es b : built n c pre fam post → extends S c.(cSets) →
  family_rule f c = Some es → fam f = Some b →
  tests S any (family_body f es c) (λ p, pre p && (bool_decide (p.(src).(family) = f) && (b p && post p))).
Proof.
  intros Hb HS Hes Hbf. pose proof (built_family _ _ _ _ _ Hb f) as Hf. rewrite Hes, Hbf in Hf.
  apply tests_app; [by eapply built_pre|].
  intros k p Hk Hp.
  assert (Hpost : tests S any c.(rulePost) post) by by eapply built_post.
  assert (Hall : tests S (in_family f) (es ++ rulePost c) (λ p, b p && post p)).
  { apply tests_app; [by apply Hf|]. by eapply tests_weaken, Hpost. }
  by apply (tests_guard S f (es ++ rulePost c) _ Hall).
Qed.

(** What the address matches ask of a packet, given the tests of the families. *)
Definition asks (fam : Family → option (packet → bool)) (A : packet → bool) : Prop :=
  (∀ f, fam f = None) ∧ (∀ p, packet_ok p → A p = true) ∨
  (∃ f, fam f ≠ None) ∧
  ∀ p, packet_ok p → match fam p.(src).(family) with Some b => b p = A p | None => A p = false end.

Lemma assemble_decides S n c r pre fam post A k p :
  marks_ok r.(SetMark) → built n c pre fam post → extends S c.(cSets) → asks fam A → carries k p →
  ∃ k', run_rules S (assemble (append_post (ending r) c)) k =
      (k', if (pre p && post p && A p) && within r k then r.(ruleVerdict) else None) ∧
    decided r k p (pre p && post p && A p) k'.
Proof.
  intros Hm Hb HS HA Hk. pose proof (carries_ok _ _ Hk) as Hok.
  assert (Hbody : ∀ f es b, family_rule f c = Some es → fam f = Some b →
    tests S any (family_body f es c) (λ p, pre p && (bool_decide (p.(src).(family) = f) && (b p && post p))))
    by (intros; by eapply tests_body).
  pose proof (built_family _ _ _ _ _ Hb IPv4) as Hf4. pose proof (built_family _ _ _ _ _ Hb IPv6) as Hf6.
  unfold assemble, append_post. cbn [rule4 rule6 rulePre rulePost]. simpl in Hf4, Hf6.
  specialize (Hbody IPv4) as Hbody4. specialize (Hbody IPv6) as Hbody6. clear Hbody.
  simpl in Hbody4, Hbody6. unfold family_body in Hbody4, Hbody6.
  change matchV4 with (match_family (header_byte IPv4)). change matchV6 with (match_family (header_byte IPv6)).
  assert (Hsingle : ∀ es b, tests S any es b → b p = pre p && post p && A p →
    ∃ k', run_rules S [es ++ ending r] k =
      (k', if (pre p && post p && A p) && within r k then r.(ruleVerdict) else None) ∧
      decided r k p (pre p && post p && A p) k').
  { intros es b Hes Hbp. destruct (run_one S r es b k p Hm Hes Hk) as (k' & Hr & Hd). rewrite Hbp in *.
    exists k'. split; [|done]. cbn [run_rules]. rewrite Hr.
    destruct (pre p && post p && A p && within r k); [|done]. by destruct r.(ruleVerdict). }
  destruct (rule4 c) as [es4|], (fam IPv4) as [b4|] eqn:Hfam4; try done;
    destruct (rule6 c) as [es6|], (fam IPv6) as [b6|] eqn:Hfam6; try done.
  - (* both families *)
    destruct HA as [[HA _]|[_ HA]]; [by rewrite HA in Hfam4|]. specialize (HA p Hok).
    destruct (run_two S r _ _ _ _ k p Hm (Hbody4 _ _ eq_refl eq_refl) (Hbody6 _ _ eq_refl eq_refl) Hk)
      as (k' & Hr & Hd).
    { intros q Hq Hhit. rewrite Hq. destruct (family (src p)); [|by rewrite !andb_false_r in Hhit].
      by rewrite andb_false_r. }
    rewrite <- !app_assoc in Hr. exists k'.
    replace (pre p && post p && A p) with (pre p && (bool_decide (p.(src).(family) = IPv4) && (b4 p && post p)) ||
      pre p && (bool_decide (p.(src).(family) = IPv6) && (b6 p && post p))); [by split|].
    destruct (family (src p)) eqn:Hfp; simpl; rewrite ?Hfam4, ?Hfam6 in HA; rewrite <- HA;
      destruct (pre p), (post p); simpl; by rewrite ?andb_true_r, ?andb_false_r, ?orb_false_r.
  - destruct HA as [[HA _]|[_ HA]]; [by rewrite HA in Hfam4|]. specialize (HA p Hok).
    destruct (Hsingle _ _ (Hbody4 _ _ eq_refl eq_refl)) as (k' & Hr & Hd).
    { destruct (family (src p)) eqn:Hfp; simpl; rewrite ?Hfam4, ?Hfam6 in HA; rewrite ?HA;
        destruct (pre p), (post p); simpl; by rewrite ?andb_true_r, ?andb_false_r, ?HA. }
    rewrite <- !app_assoc in Hr. by exists k'.
  - destruct HA as [[HA _]|[_ HA]]; [by rewrite HA in Hfam6|]. specialize (HA p Hok).
    destruct (Hsingle _ _ (Hbody6 _ _ eq_refl eq_refl)) as (k' & Hr & Hd).
    { destruct (family (src p)) eqn:Hfp; simpl; rewrite ?Hfam4, ?Hfam6 in HA; rewrite ?HA;
        destruct (pre p), (post p); simpl; by rewrite ?andb_true_r, ?andb_false_r, ?HA. }
    rewrite <- !app_assoc in Hr. by exists k'.
  - destruct HA as [[_ HA]|[[[] Hne] _]]; [|by rewrite Hfam4 in Hne|by rewrite Hfam6 in Hne].
    specialize (HA p Hok). clear Hbody4 Hbody6.
    assert (Hes : tests S any (rulePre c ++ rulePost c) (λ p, pre p && post p)).
    { apply tests_app; [by eapply built_pre|by eapply built_post]. }
    destruct (Hsingle _ _ Hes) as (k' & Hr & Hd); [by rewrite HA, andb_true_r|].
    rewrite <- app_assoc in Hr.
    destruct (rulePre c) as [|e es]; [destruct (rulePost c ++ ending r) as [|e es] eqn:Hnil|]; simpl in Hr;
      by exists k'.
Qed.

(** Nothing happens to a packet that a rule does not match. *)
Lemma decided_nothing r k p : carries k p → decided r k p false k.
Proof. by split. Qed.

(** The two address matches together. *)
Lemma asks_addresses r (fam fam' fam'' : Family → option (packet → bool)) :
  families_agree r → (∀ f, fam f = None) →
  match r.(MatchSourceAddress) with
  | None => ∀ f, fam' f = fam f | Some m => (∃ f, ¬ excludes m f) ∧ narrowed m src fam fam' end →
  match r.(MatchDestinationAddress) with
  | None => ∀ f, fam'' f = fam' f | Some m => (∃ f, ¬ excludes m f) ∧ narrowed m dst fam' fam'' end →
  asks fam'' (λ p, address_matches r.(MatchSourceAddress) p.(src) && address_matches r.(MatchDestinationAddress) p.(dst)).
Proof.
  unfold families_agree, asks. intros Hagree H0 Hs Hd.
  destruct (MatchSourceAddress r) as [ms|], (MatchDestinationAddress r) as [md|].
  - right. destruct Hs as [[f0 Hf0] Hs], Hd as [_ Hd]. split.
    + exists f0. destruct (Hs f0) as [[? _]|[_ Hs0]]; [done|].
      destruct (Hd f0) as [[He _]|[_ ->]]; [by apply Hagree in He|done].
    + intros p Hp. pose proof Hp as (_ & _ & Hv & Hv' & Hf & _).
      destruct (Hs p.(src).(family)) as [[He Hs']|[He Hs']], (Hd p.(src).(family)) as [[He' Hd']|[He' Hd']].
      * rewrite Hd', Hs', H0. by rewrite He.
      * by rewrite Hagree in He.
      * by rewrite Hagree in He.
      * rewrite Hd', Hs', H0. done.
  - right. destruct Hs as [[f0 Hf0] Hs]. split.
    + exists f0. rewrite Hd. destruct (Hs f0) as [[? _]|[_ ->]]; done.
    + intros p Hp. pose proof Hp as (_ & _ & Hv & _). rewrite Hd.
      destruct (Hs p.(src).(family)) as [[He ->]|[He ->]]; rewrite H0; [by rewrite He|by rewrite andb_true_r].
  - right. destruct Hd as [[f0 Hf0] Hd]. split.
    + exists f0. destruct (Hd f0) as [[? _]|[_ ->]]; done.
    + intros p Hp. pose proof Hp as (_ & _ & _ & Hv & Hf & _).
      destruct (Hd p.(src).(family)) as [[He ->]|[He ->]]; rewrite Hs, H0; [by rewrite He|done].
  - left. split; [|done]. intros f. by rewrite Hd, Hs.
Qed.

(** An address match, if there is one: it rules out every packet, or narrows the tests. *)
Definition narrows (m : option NfTablesAddressMatch) get (fam fam' : Family → option (packet → bool)) : Prop :=
  match m with
  | None => ∀ f, fam' f = fam f
  | Some m => (∃ f, ¬ excludes m f) ∧ narrowed m get fam fam'
  end.

Lemma built_maybe_address n c pre fam post m label get off :
  read_at get off → subnets_ok m → n < 2 ^ 32 - 2 → built n c pre fam post →
  ((∀ p, packet_ok p → address_matches m (get p) = false) ∧
   compile_address m label (off IPv4) (off IPv6) c = inl (Sentinel "ErrNotExist")) ∨
  ∃ c' fam', compile_address m label (off IPv4) (off IPv6) c = inr c' ∧ built (n + 2) c' pre fam' post ∧
    narrows m get fam fam'.
Proof.
  intros Hget Hm Hn Hb. destruct m as [m|].
  - destruct (built_address n c pre fam post m label get off Hget Hm Hn Hb)
      as [[Hex Herr]|(Hex & c' & fam' & Heq & Hb' & Hn')]; [left|right; by exists c', fam'].
    split; [|done]. intros p Hp. destruct (proj1 Hget p Hp) as [Hv _]. by apply (Hex (get p).(family)).
  - right. exists c, fam. split_and!; [done| |done]. apply (built_more n); [lia|done].
Qed.

(** A rule that compiles to nothing because no packet matches it. *)
Definition decides (r : NfTablesRule) (compiled : NfTablesCompiled) : Prop :=
  ∀ S k p, extends S compiled.(Sets) → carries k p →
  ∃ k', run_rules S compiled.(Rules) k =
      (k', if rule_matches r p && within r k then r.(ruleVerdict) else None) ∧
    decided r k p (rule_matches r p) k'.

Lemma decides_never r : (∀ p, packet_ok p → rule_matches r p = false) → decides r {| Rules := []; Sets := [] |}.
Proof.
  intros Hnever S k p _ Hk. exists k. rewrite Hnever by apply (carries_ok _ _ Hk).
  split; [done|]. by apply decided_nothing.
Qed.

(** Every rule compiles, and decides as it says, in every table that has its sets. *)
Lemma Compile_decides r : rule_ok r → ∃ compiled, Compile r = inr compiled ∧ decides r compiled.
Proof.
  intros (Hmk & Hst & Hsrc & Hdst & Hagree & Hl4 & Hclamp & Hset). unfold Compile.
  pose proof built_nothing as H0.
  apply (built_ifname 0 _ _ _ _ MetaKeyIIFNAME r.(MatchIIfName) iif) in H0; [|intros ?? []; done|done].
  apply (built_ifname 1 _ _ _ _ MetaKeyOIFNAME r.(MatchOIfName) oif) in H0; [|intros ?? []; done|done].
  apply (built_mark _ _ _ _ _ r.(MatchMark) Hmk) in H0.
  apply (built_conntrack 2 _ _ _ _ r.(MatchConntrackState) Hst) in H0; [|done].
  pose proof (built_maybe_address 3 _ _ _ _ _ "source" src src_off read_src Hsrc eq_refl H0) as Hs.
  cbn [src_off] in Hs. destruct Hs as [[Hno ->]|(c1 & fam1 & -> & Hb1 & Hn1)]; cbn [or_no_rule].
  { eexists. split; [done|]. apply decides_never. intros p Hp. unfold rule_matches.
    by rewrite Hno, !andb_false_r by done. }
  pose proof (built_maybe_address 5 _ _ _ _ _ "destination" dst dst_off read_dst Hdst eq_refl Hb1) as Hd.
  cbn [dst_off] in Hd. destruct Hd as [[Hno ->]|(c2 & fam2 & -> & Hb2 & Hn2)]; cbn [or_no_rule].
  { eexists. split; [done|]. apply decides_never. intros p Hp. unfold rule_matches.
    by rewrite Hno, !andb_false_r by done. }
  destruct (built_layer4 7 _ _ _ _ _ Hl4 eq_refl Hb2) as (pre' & post' & Hb3 & Hpp).
  rewrite compile_ending by done. eexists. split; [done|]. intros S k p HS Hk. cbn [Rules Sets] in *.
  destruct (assemble_decides S _ _ r _ _ _ _ k p Hset Hb3 HS
    (asks_addresses r _ fam1 fam2 Hagree (λ _, eq_refl) Hn1 Hn2) Hk) as (k' & Hr & Hdec).
  assert (Heq : pre' p && post' p && (address_matches r.(MatchSourceAddress) p.(src) &&
      address_matches r.(MatchDestinationAddress) p.(dst)) = rule_matches r p).
  { rewrite Hpp. unfold rule_matches.
    destruct (name_matches _ _), (name_matches _ _), (mark_matches _ _), (state_matches _ _); simpl; try done.
    by rewrite andb_comm. }
  rewrite Heq in *. by exists k'.
Qed.
End compile.
