(* ===== verification/Firewall.v ===== *)
(** * The firewall of the machine

    From the documents of the configuration
    (config/types/network/{default_action_config,rule_config,port_range}.go) to the chains
    (controllers/network/nftables_chain_config.go) and to the batch of operations that
    programs them (controllers/network/nftables_chain.go).  Finalizers, events and logging
    are left out. *)

From S2P Require Import Prelude Errors Netip NfTables NfMachine.

(** ** The configuration *)

Inductive DefaultAction := DefaultActionAccept | DefaultActionBlock.
#[export] Instance DefaultAction_eq_dec : EqDecision DefaultAction.
Proof. solve_decision. Defined.

(** The zero value of [Except] is [None]. *)
Record IngressRule := { Subnet : Prefix; Except : option Prefix }.
Record RuleConfigV1Alpha1 := {
  MetaName : string;
  Ports : list PortRange;
  ruleProtocol : Z;
  Ingress : list IngressRule
}.
Inductive Document :=
  | DefaultActionConfigV1Alpha1 (ingress : DefaultAction)
  | RuleConfig (c : RuleConfigV1Alpha1).

Definition PortRanges (c : RuleConfigV1Alpha1) : list interval := (λ pr, (pr.(Lo), pr.(Hi))) <$> c.(Ports).
Definition Subnets (c : RuleConfigV1Alpha1) : list Prefix := Subnet <$> c.(Ingress).
Definition is_set {A} (e : option A) : bool := match e with None => false | Some _ => true end.
Definition valid_except (e : option Prefix) : bool := match e with None => false | Some p => prefix_IsValid p end.
Definition ExceptSubnets (c : RuleConfigV1Alpha1) : list Prefix :=
  omap Except (filter (λ rule, valid_except rule.(Except) = true) c.(Ingress)).

(** [WrapNetworkRuleConfigList]: the first action that is not the zero value, and the
    rules of all documents. *)
Fixpoint DefaultActionOf (docs : list Document) : DefaultAction :=
  match docs with
  | [] => DefaultActionAccept
  | DefaultActionConfigV1Alpha1 DefaultActionBlock :: _ => DefaultActionBlock
  | _ :: docs => DefaultActionOf docs
  end.
Definition RulesOf (docs : list Document) : list RuleConfigV1Alpha1 :=
  omap (λ d, match d with RuleConfig c => Some c | DefaultActionConfigV1Alpha1 _ => None end) docs.

Section validate.
Context `{Sort : SlicesSort}.

(** The loop of [PortRanges.Validate]; [prev] is [clone[i-1]]. *)
Fixpoint validate_ports (prev : option PortRange) (clone : list PortRange) : option error :=
  match clone with
  | [] => None
  | pr :: clone =>
      if pr.(Hi) <? pr.(Lo) then Some (Errorf "invalid port range: %s" [Int pr.(Lo); Int pr.(Hi)]) else
      match prev with
      | Some prev =>
          if (pr.(Lo) =? prev.(Lo)) || (pr.(Lo) <=? prev.(Hi)) then
            Some (Errorf "invalid port range: %s, overlaps with %s" [Int pr.(Lo); Int pr.(Hi); Int prev.(Lo); Int prev.(Hi)])
          else validate_ports (Some pr) clone
      | None => validate_ports (Some pr) clone
      end
  end.
Definition Ports_Validate (prs : list PortRange) : option error :=
  validate_ports None (SortFunc (λ a b, cmp_Compare a.(Lo) b.(Lo)) prs).

Fixpoint validate_ingress (rules : list IngressRule) : option error :=
  match rules with
  | [] => None
  | rule :: rules =>
      if negb (prefix_IsValid rule.(Subnet)) then Some (Errorf "invalid subnet: %s" []) else
      if is_set rule.(Except) && negb (valid_except rule.(Except)) then
        Some (Errorf "invalid except: %s" [])
      else validate_ingress rules
  end.

Definition Validate (c : RuleConfigV1Alpha1) : option error :=
  if String.eqb c.(MetaName) "" then Some (Errorf "name is required" []) else
  match c.(Ports) with
  | [] => Some (Errorf "portSelector.ports is required" [])
  | _ => match Ports_Validate c.(Ports) with Some err => Some err | None => validate_ingress c.(Ingress) end
  end.
End validate.

(** ** The chains *)

Definition ChainTypeFilter : string := "filter".
Definition ChainHookPrerouting : Z := 0.
Definition ChainHookInput : Z := 1.
Definition ChainPriorityMangle : Z := -150.
Definition ChainPriorityNATDest : Z := -100.

Record NfTablesChainSpec := {
  chainType : string; chainHook : Z; chainPriority : Z; chainPolicy : NfTablesVerdict;
  chainRules : list NfTablesRule
}.

Definition IngressChainName : string := "ingress".
Definition PreroutingChainName : string := "prerouting".
Definition SideroLinkName : string := "siderolink".
Definition trusted : list string := ["lo"%string; SideroLinkName].

(** A rule that counts, with a verdict. *)
Definition counted (r : NfTablesRule) (v : NfTablesVerdict) : NfTablesRule := {|
  MatchIIfName := r.(MatchIIfName); MatchOIfName := r.(MatchOIfName); MatchMark := r.(MatchMark);
  MatchConntrackState := r.(MatchConntrackState); MatchSourceAddress := r.(MatchSourceAddress);
  MatchDestinationAddress := r.(MatchDestinationAddress); MatchLayer4 := r.(MatchLayer4);
  MatchLimit := r.(MatchLimit); ClampMSS := r.(ClampMSS); SetMark := r.(SetMark);
  AnonCounter := true; ruleVerdict := Some v |}.

Definition on_iif (names : list string) (r : NfTablesRule) : NfTablesRule := {|
  MatchIIfName := Some {| InterfaceNames := names; Operator := OperatorEqual |};
  MatchOIfName := r.(MatchOIfName); MatchMark := r.(MatchMark);
  MatchConntrackState := r.(MatchConntrackState); MatchSourceAddress := r.(MatchSourceAddress);
  MatchDestinationAddress := r.(MatchDestinationAddress); MatchLayer4 := r.(MatchLayer4);
  MatchLimit := r.(MatchLimit); ClampMSS := r.(ClampMSS); SetMark := r.(SetMark);
  AnonCounter := r.(AnonCounter); ruleVerdict := r.(ruleVerdict) |}.
Definition in_states (states : list Z) (r : NfTablesRule) : NfTablesRule := {|
  MatchIIfName := r.(MatchIIfName); MatchOIfName := r.(MatchOIfName); MatchMark := r.(MatchMark);
  MatchConntrackState := Some states; MatchSourceAddress := r.(MatchSourceAddress);
  MatchDestinationAddress := r.(MatchDestinationAddress); MatchLayer4 := r.(MatchLayer4);
  MatchLimit := r.(MatchLimit); ClampMSS := r.(ClampMSS); SetMark := r.(SetMark);
  AnonCounter := r.(AnonCounter); ruleVerdict := r.(ruleVerdict) |}.
Definition from_source (m : NfTablesAddressMatch) (r : NfTablesRule) : NfTablesRule := {|
  MatchIIfName := r.(MatchIIfName); MatchOIfName := r.(MatchOIfName); MatchMark := r.(MatchMark);
  MatchConntrackState := r.(MatchConntrackState); MatchSourceAddress := Some m;
  MatchDestinationAddress := r.(MatchDestinationAddress); MatchLayer4 := r.(MatchLayer4);
  MatchLimit := r.(MatchLimit); ClampMSS := r.(ClampMSS); SetMark := r.(SetMark);
  AnonCounter := r.(AnonCounter); ruleVerdict := r.(ruleVerdict) |}.
Definition to_destination (m : NfTablesAddressMatch) (r : NfTablesRule) : NfTablesRule := {|
  MatchIIfName := r.(MatchIIfName); MatchOIfName := r.(MatchOIfName); MatchMark := r.(MatchMark);
  MatchConntrackState := r.(MatchConntrackState); MatchSourceAddress := r.(MatchSourceAddress);
  MatchDestinationAddress := Some m; MatchLayer4 := r.(MatchLayer4);
  MatchLimit := r.(MatchLimit); ClampMSS := r.(ClampMSS); SetMark := r.(SetMark);
  AnonCounter := r.(AnonCounter); ruleVerdict := r.(ruleVerdict) |}.
Definition on_layer4 (m : NfTablesLayer4Match) (r : NfTablesRule) : NfTablesRule := {|
  MatchIIfName := r.(MatchIIfName); MatchOIfName := r.(MatchOIfName); MatchMark := r.(MatchMark);
  MatchConntrackState := r.(MatchConntrackState); MatchSourceAddress := r.(MatchSourceAddress);
  MatchDestinationAddress := r.(MatchDestinationAddress); MatchLayer4 := Some m;
  MatchLimit := r.(MatchLimit); ClampMSS := r.(ClampMSS); SetMark := r.(SetMark);
  AnonCounter := r.(AnonCounter); ruleVerdict := r.(ruleVerdict) |}.
Definition limited (rate : Z) (r : NfTablesRule) : NfTablesRule := {|
  MatchIIfName := r.(MatchIIfName); MatchOIfName := r.(MatchOIfName); MatchMark := r.(MatchMark);
  MatchConntrackState := r.(MatchConntrackState); MatchSourceAddress := r.(MatchSourceAddress);
  MatchDestinationAddress := r.(MatchDestinationAddress); MatchLayer4 := r.(MatchLayer4);
  MatchLimit := Some rate; ClampMSS := r.(ClampMSS); SetMark := r.(SetMark);
  AnonCounter := r.(AnonCounter); ruleVerdict := r.(ruleVerdict) |}.
Definition protocol (proto : Z) : NfTablesLayer4Match :=
  {| Protocol := proto; MatchSourcePort := None; MatchDestinationPort := None; MatchICMPType := None |}.

Section chains.
Context `{Sort : SlicesSort}.

(** Trusted interfaces: loopback and siderolink. *)
Definition trusted_rule : NfTablesRule := counted (on_iif trusted noRule) VerdictAccept.

Definition conntrack_rules : list NfTablesRule := [
  counted (in_states [ConntrackStateEstablished; ConntrackStateRelated] noRule) VerdictAccept;
  counted (in_states [ConntrackStateInvalid] noRule) VerdictDrop].

Definition icmp_rules : list NfTablesRule := [
  counted (on_layer4 {| Protocol := ProtocolICMP; MatchSourcePort := None; MatchDestinationPort := None;
    MatchICMPType := Some [ICMPTypeTimestampRequest; ICMPTypeTimestampReply;
                           ICMPTypeAddressMaskRequest; ICMPTypeAddressMaskReply] |} noRule) VerdictDrop;
  counted (limited 5 (on_layer4 (protocol ProtocolICMP) noRule)) VerdictAccept;
  counted (limited 5 (on_layer4 (protocol ProtocolICMPv6) noRule)) VerdictAccept].

Definition verdict_of (a : DefaultAction) : NfTablesVerdict :=
  match a with DefaultActionAccept => VerdictDrop | DefaultActionBlock => VerdictAccept end.

(** What a rule of the configuration is about: its ports, and the addresses that are, or
    are not, its subnets. *)
Definition rule_match (a : DefaultAction) (c : RuleConfigV1Alpha1) (r : NfTablesRule) : NfTablesRule :=
  from_source {| IncludeSubnets := Subnets c; ExcludeSubnets := ExceptSubnets c;
                 addrInvert := bool_decide (a = DefaultActionAccept) |}
    (on_layer4 {| Protocol := c.(ruleProtocol); MatchSourcePort := None;
                  MatchDestinationPort := Some ((λ pr, {| Lo := pr.1; Hi := pr.2 |}) <$> sort_ports (PortRanges c));
                  MatchICMPType := None |} r).

Definition buildIngressChain (docs : list Document) : NfTablesChainSpec :=
  let a := DefaultActionOf docs in
  {| chainType := ChainTypeFilter; chainHook := ChainHookInput; chainPriority := ChainPriorityMangle + 10;
     chainPolicy := match a with DefaultActionBlock => VerdictDrop | DefaultActionAccept => VerdictAccept end;
     chainRules := [trusted_rule] ++
       match a with DefaultActionBlock => conntrack_rules ++ icmp_rules | DefaultActionAccept => [] end ++
       ((λ c, counted (rule_match a c noRule) (verdict_of a)) <$> RulesOf docs) |}.

Definition drop_new (proto : Z) : NfTablesRule :=
  counted (in_states [ConntrackStateNew] (on_layer4 (protocol proto) noRule)) VerdictDrop.

Definition buildPreroutingChain (docs : list Document) (nodeAddresses : list Prefix) : NfTablesChainSpec :=
  let a := DefaultActionOf docs in
  let myAddresses := (λ p, PrefixFrom p.(prefixAddr) (BitLen p.(prefixAddr).(family))) <$> nodeAddresses in
  {| chainType := ChainTypeFilter; chainHook := ChainHookPrerouting; chainPriority := ChainPriorityNATDest - 10;
     chainPolicy := VerdictAccept;
     chainRules := [trusted_rule;
         counted (to_destination {| IncludeSubnets := myAddresses; ExcludeSubnets := []; addrInvert := true |} noRule)
           VerdictAccept] ++
       ((λ c, counted (in_states [ConntrackStateNew] (rule_match a c noRule)) (verdict_of a)) <$> RulesOf docs) ++
       match a with DefaultActionBlock => [drop_new ProtocolTCP; drop_new ProtocolUDP] | DefaultActionAccept => [] end |}.

(** The chains a pass of [NfTablesChainConfigController.Run] writes; the others are
    cleaned up. *)
Definition ConfigRun (cfg : option (list Document)) (nodeAddresses : option (list Prefix))
    : list (string * NfTablesChainSpec) :=
  match cfg with
  | None => []
  | Some docs =>
      if bool_decide (DefaultActionOf docs = DefaultActionAccept) && match RulesOf docs with [] => true | _ => false end
      then []
      else (IngressChainName, buildIngressChain docs) ::
        match nodeAddresses with
        | None => []
        | Some addresses => [(PreroutingChainName, buildPreroutingChain docs addresses)]
        end
  end.
End chains.

(** ** The batch of operations *)

Inductive operation :=
  | AddTable (ipv4 : bool) (name : string)
  | DelChain (table name : string)
  | AddChain (table name : string) (spec : option NfTablesChainSpec)   (** [None]: the hint for iptables *)
  | AddSet (table : string) (ID : Z) (name : string) (set : kernel_set) (key : SetDatatype)
  | AddRule (table chain : string) (exprs : list Any).

Definition DefaultNfTablesTableName : string := "talos".
Definition IptablesHint : string := "CHUBO-IPTABLES-HINT".

Section batch.
Context `{N : Netipx} `{Sort : SlicesSort}.
(** [conn.AddSet] fails when it cannot encode the set; [strconv.Itoa]. *)
Context (addSetError : kernel_set → option error) (Itoa : Z → string).

Definition setNameOf (setID : Z) : string := ("__set" +:+ Itoa setID)%string.
Definition kernel_set_of (s : NfTablesSet) : kernel_set := {| ksInterval := IsInterval s; ksElements := SetElements s |}.

(** The loop over the instructions of a rule: every lookup gets a set of its own. *)
Fixpoint fix_lookups (table chain : string) (sets : list NfTablesSet) (es : list Any) (setID : Z)
    : error + (list operation * list Any * Z) :=
  match es with
  | [] => inr ([], [], setID)
  | Lookup r i _ invert :: es =>
      if u32 (zlen sets) <=? i then inl (Errorf "invalid set ID %d in lookup" [Int i]) else
      match sets !! Z.to_nat i with
      | None => inl (Errorf "invalid set ID %d in lookup" [Int i])
      | Some set =>
          let kset := kernel_set_of set in
          match addSetError kset with
          | Some err => inl (Errorf "error adding nftables set for chain %s: %w" [Str chain; Wrapped err])
          | None =>
              match fix_lookups table chain sets es (u32 (setID + 1)) with
              | inl err => inl err
              | inr (ops, es, next) =>
                  inr (AddSet table setID (setNameOf setID) kset (KeyType set) :: ops,
                       Lookup r setID (setNameOf setID) invert :: es, next)
              end
          end
      end
  | e :: es =>
      match fix_lookups table chain sets es setID with
      | inl err => inl err
      | inr (ops, es, next) => inr (ops, e :: es, next)
      end
  end.

Fixpoint add_compiled (table chain : string) (sets : list NfTablesSet) (rules : list (list Any)) (setID : Z)
    : error + (list operation * Z) :=
  match rules with
  | [] => inr ([], setID)
  | es :: rules =>
      match fix_lookups table chain sets es setID with
      | inl err => inl err
      | inr (ops, es, setID) =>
          match add_compiled table chain sets rules setID with
          | inl err => inl err
          | inr (ops', setID) => inr (ops ++ AddRule table chain es :: ops', setID)
          end
      end
  end.

Fixpoint add_rules (table chain : string) (rules : list NfTablesRule) (setID : Z) : error + (list operation * Z) :=
  match rules with
  | [] => inr ([], setID)
  | rule :: rules =>
      match Compile rule with
      | inl err => inl (Errorf "error compiling nftables rule for chain %s: %w" [Str chain; Wrapped err])
      | inr compiled =>
          match add_compiled table chain compiled.(Sets) compiled.(Rules) setID with
          | inl err => inl err
          | inr (ops, setID) =>
              match add_rules table chain rules setID with
              | inl err => inl err
              | inr (ops', setID) => inr (ops ++ ops', setID)
              end
          end
      end
  end.

Fixpoint add_chains (table : string) (chains : list (string * NfTablesChainSpec)) (setID : Z)
    : error + list operation :=
  match chains with
  | [] => inr []
  | (name, spec) :: chains =>
      match add_rules table name spec.(chainRules) setID with
      | inl err => inl err
      | inr (ops, setID) =>
          match add_chains table chains setID with
          | inl err => inl err
          | inr ops' => inr (AddChain table name (Some spec) :: ops ++ ops')
          end
      end
  end.

(** [preCreateIptablesNFTable] *)
Definition preCreateIptablesNFTable (tables : error + list string) : error + list operation :=
  match tables with
  | inl err => inl (Errorf "error listing existing nftables tables: %w" [Wrapped err])
  | inr tables =>
      if bool_decide ("mangle"%string ∈ tables) then inr []
      else inr [AddTable true "mangle"; AddChain "mangle" IptablesHint None]
  end.

(** One pass of [NfTablesChainController.Run] up to [conn.Flush]: the operations of the
    batch, from what the kernel lists; a chain is the name of its table and its own. *)
Definition Run (TableName : string) (ipv4Tables inetTables : error + list string)
    (chains : error + list (string * NfTablesChainSpec)) (existing : error + list (string * string))
    : error + list operation :=
  let table := if String.eqb TableName "" then DefaultNfTablesTableName else TableName in
  match preCreateIptablesNFTable ipv4Tables with
  | inl err => inl (Errorf "error pre-creating iptables-nft table: %w" [Wrapped err])
  | inr hint =>
  match chains with
  | inl err => inl (Errorf "error listing nftables chains: %w" [Wrapped err])
  | inr chains =>
  match inetTables with
  | inl err => inl (Errorf "error listing existing nftables tables: %w" [Wrapped err])
  | inr tables =>
  match existing with
  | inl err => inl (Errorf "error listing existing nftables chains: %w" [Wrapped err])
  | inr existing =>
      match add_chains table chains 0 with
      | inl err => inl err
      | inr ops =>
          inr (hint ++ (if bool_decide (table ∈ tables) then [] else [AddTable false table]) ++
               (uncurry DelChain <$> filter (λ c, c.1 = table) existing) ++ ops)
      end
  end end end end.
End batch.
