(* ===== verification/FirewallBatch.v ===== *)
(** * The batch programs the rules

    The operations of a batch put the rules of a chain in the kernel with their sets, and
    together the rules of a chain decide like the first rule that matches. *)

From S2P Require Import Prelude Errors Bytes Netip NfTables NfMachine NfCorrect NfTests NfCompile Firewall.

(** ** What the kernel has after a batch *)

Definition set_ids (ops : list operation) : list Z :=
  omap (λ o, match o with AddSet _ i _ _ _ => Some i | _ => None end) ops.
Definition rules_in (table chain : string) (ops : list operation) : list (list Any) :=
  omap (λ o, match o with
             | AddRule t c es => if bool_decide (t = table ∧ c = chain) then Some es else None
             | _ => None
             end) ops.
Definition has_sets (S : set_table) (ops : list operation) : Prop :=
  ∀ t i n s key, AddSet t i n s key ∈ ops → S i = Some s.
Definition table_of (ops : list operation) : set_table := λ i,
  head (omap (λ o, match o with AddSet _ j _ s _ => if j =? i then Some s else None | _ => None end) ops).
(** The specification of a chain, if it is added. *)
Definition chain_in (table chain : string) (ops : list operation) : option NfTablesChainSpec :=
  head (omap (λ o, match o with
                   | AddChain t c (Some spec) => if bool_decide (t = table ∧ c = chain) then Some spec else None
                   | _ => None
                   end) ops).

(** What a chain decides: the first verdict, or else the policy. *)
Definition chain_verdict {K} `{M : NfMachine K} (table chain : string) (ops : list operation) (k : K)
    : K * NfTablesVerdict :=
  match chain_in table chain ops with
  | None => (k, VerdictAccept)
  | Some spec =>
      let '(k', v) := run_rules (table_of ops) (rules_in table chain ops) k in
      (k', default spec.(chainPolicy) v)
  end.

Lemma set_ids_app ops ops' : set_ids (ops ++ ops') = set_ids ops ++ set_ids ops'.
Proof. apply omap_app. Qed.
Lemma rules_in_app t c ops ops' : rules_in t c (ops ++ ops') = rules_in t c ops ++ rules_in t c ops'.
Proof. apply omap_app. Qed.
Lemma has_sets_app S ops ops' : has_sets S (ops ++ ops') → has_sets S ops ∧ has_sets S ops'.
Proof. intros H. split; intros t i n s key Hin; eapply H, elem_of_app; [by left|by right]. Qed.

Lemma table_of_sets ops : NoDup (set_ids ops) → has_sets (table_of ops) ops.
Proof.
  intros Hnd t i n s key Hin. unfold table_of.
  induction ops as [|o ops IH]; [by apply elem_of_nil in Hin|].
  assert (Hnot : i ∉ set_ids ops → omap (λ o, match o with AddSet _ j _ s _ => if j =? i then Some s else None | _ => None end) ops = []).
  { clear. intros Hi. induction ops as [|o ops IH]; [done|]. destruct o; simpl in *; auto.
    apply not_elem_of_cons in Hi as [Hne Hi]. destruct (Z.eqb_spec ID i); [done|auto]. }
  apply elem_of_cons in Hin as [<-|Hin].
  - simpl. by rewrite Z.eqb_refl.
  - destruct o; try (apply IH; done). simpl in *. apply NoDup_cons in Hnd as [Hni Hnd].
    destruct (Z.eqb_spec ID i) as [->|]; [|by apply IH]. exfalso. apply Hni.
    apply list_elem_of_omap. by eexists.
Qed.

(** Identifiers are given out in order, as long as they do not wrap around. *)
Definition numbered (setID : Z) (ops : list operation) (next : Z) : Prop :=
  0 ≤ setID → setID + zlen (set_ids ops) < 2 ^ 32 →
  next = setID + zlen (set_ids ops) ∧ set_ids ops = seqZ setID (zlen (set_ids ops)).

Lemma numbered_nil i : numbered i [] i.
Proof. intros ? _. split; [simpl; unfold zlen; simpl; lia|done]. Qed.
Lemma numbered_app i ops j ops' j' : numbered i ops j → numbered j ops' j' → numbered i (ops ++ ops') j'.
Proof.
  intros H H' Hi Hlt. rewrite set_ids_app, zlen_app in *.
  pose proof (zlen_nonneg (set_ids ops)). pose proof (zlen_nonneg (set_ids ops')).
  destruct (H Hi) as [-> Heq]; [lia|]. destruct H' as [-> Heq']; [lia|lia|].
  split; [lia|]. rewrite seqZ_app by lia. by rewrite <- Heq, Heq' at 1.
Qed.
Lemma numbered_other i o ops j : (∀ t i n s key, o ≠ AddSet t i n s key) → numbered i ops j → numbered i (o :: ops) j.
Proof. intros Ho H. unfold numbered. replace (set_ids (o :: ops)) with (set_ids ops); [done|]. by destruct o; try destruct (Ho _ _ _ _ _ eq_refl). Qed.
Lemma numbered_set t i n s key ops j : numbered (u32 (i + 1)) ops j → numbered i (AddSet t i n s key :: ops) j.
Proof.
  intros H Hi. change (set_ids (AddSet t i n s key :: ops)) with (i :: set_ids ops). rewrite zlen_cons.
  pose proof (zlen_nonneg (set_ids ops)). intros Hlt. rewrite u32_small in H by lia.
  destruct H as [-> Heq]; [lia..|]. split; [lia|]. rewrite seqZ_cons by lia.
  f_equal. rewrite Heq at 1. f_equal; lia.
Qed.

Lemma numbered_NoDup ops j : numbered 0 ops j → zlen (set_ids ops) < 2 ^ 32 → NoDup (set_ids ops).
Proof. intros H Hlt. destruct H as [_ ->]; [lia..|]. apply NoDup_seqZ. Qed.

(** ** The instructions of a rule in the batch *)

(** The lookups of a rule are into its sets. *)
Definition lookup_below (n : Z) (e : Any) : Prop :=
  match e with Lookup _ i _ _ => 0 ≤ i < n | _ => True end.
Definition closed (c : NfTablesCompiled) : Prop :=
  zlen c.(Sets) < 2 ^ 32 ∧ Forall (Forall (lookup_below (zlen c.(Sets)))) c.(Rules).

(** ** The lookups of a compiled rule

    They are into its own sets, of which there are at most ten. *)

Definition sized (n : Z) (c : compiling) : Prop :=
  zlen c.(cSets) ≤ n ∧ n < 2 ^ 32 ∧
  Forall (lookup_below (zlen c.(cSets)))
    (c.(rulePre) ++ c.(rulePost) ++ default [] c.(rule4) ++ default [] c.(rule6)).

Section closed.
Context `{Sort : SlicesSort} `{N : Netipx}.
Implicit Types (c : compiling) (es : list Any).

Lemma lookup_below_more n n' es : n ≤ n' → Forall (lookup_below n) es → Forall (lookup_below n') es.
Proof. intros Hn H. eapply Forall_impl; [exact H|]. intros []; simpl; auto. lia. Qed.

Lemma sized_nothing : sized 0 nothing.
Proof. split; [done|]. split; [done|constructor]. Qed.
Lemma sized_pre n c es : sized n c → Forall (lookup_below (zlen c.(cSets))) es → sized n (append_pre es c).
Proof.
  intros (Hl & Hn & Hf) Hes. split; [done|]. split; [done|]. cbn [append_pre cSets rulePre rulePost rule4 rule6].
  rewrite !Forall_app in *. tauto.
Qed.
Lemma sized_post n c es : sized n c → Forall (lookup_below (zlen c.(cSets))) es → sized n (append_post es c).
Proof.
  intros (Hl & Hn & Hf) Hes. split; [done|]. split; [done|]. cbn [append_post cSets rulePre rulePost rule4 rule6].
  rewrite !Forall_app in *. tauto.
Qed.
Lemma sized_family n c f es : sized n c → Forall (lookup_below (zlen c.(cSets))) es → sized n (append_family f es c).
Proof.
  intros (Hl & Hn & Hf) Hes. split; [done|]. split; [done|]. cbn [append_family cSets rulePre rulePost rule4 rule6].
  rewrite !Forall_app in *. destruct f; simpl; rewrite Forall_app; tauto.
Qed.
Lemma sized_set n c s : n < 2 ^ 32 - 1 → sized n c →
  sized (n + 1) (append_set s c) ∧ 0 ≤ last_set (append_set s c) < zlen (append_set s c).(cSets).
Proof.
  intros Hn (Hl & _ & Hf). pose proof (zlen_nonneg c.(cSets)).
  assert (Hlen : zlen (append_set s c).(cSets) = zlen c.(cSets) + 1) by (cbn; rewrite zlen_app; done).
  split; [split; [lia|split; [lia|]]|].
  - eapply lookup_below_more; [|exact Hf]. lia.
  - unfold last_set. rewrite u32_small; lia.
Qed.
Lemma sized_more n n' c : n ≤ n' → n' < 2 ^ 32 → sized n c → sized n' c.
Proof. intros Hn Hn' (Hl & _ & Hf). split; [lia|done]. Qed.

(** A set, and instructions that look it up. *)
Lemma sized_ifname n c key m : n < 2 ^ 32 - 1 → sized n c → sized (n + 1) (compile_ifname key m c).
Proof.
  intros Hn Hc. pose proof (sized_more n (n + 1) c ltac:(lia) ltac:(lia) Hc). destruct m as [m|]; [|done].
  assert (Hpre : sized n (append_pre [Meta key 1 false] c)) by (apply sized_pre; [done|by repeat constructor]).
  pose proof (sized_more n (n + 1) _ ltac:(lia) ltac:(lia) Hpre).
  unfold compile_ifname, matchIfNames. destruct (InterfaceNames m) as [|name []].
  2: { apply sized_pre; [done|by repeat constructor]. }
  all: edestruct (sized_set n) as [Hset Hlast]; [done|exact Hpre|];
    apply sized_pre; [exact Hset|]; constructor; [exact Hlast|constructor].
Qed.
Lemma sized_mark n c m : sized n c → sized n (compile_mark m c).
Proof. intros Hc. destruct m; [|done]. apply sized_pre; [done|by repeat constructor]. Qed.
Lemma sized_conntrack n c m : n < 2 ^ 32 - 1 → sized n c → sized (n + 1) (compile_conntrack m c).
Proof.
  intros Hn Hc. pose proof (sized_more n (n + 1) c ltac:(lia) ltac:(lia) Hc). destruct m as [[|st []]|]; [| | |done].
  2: { apply sized_pre; [done|by repeat constructor]. }
  all: edestruct (sized_set n) as [Hset Hlast]; [done|exact Hc|];
    apply sized_pre; [exact Hset|]; do 2 constructor; [exact Hlast|constructor].
Qed.
Lemma sized_address_family n c f rs invert off : n < 2 ^ 32 - 1 → sized n c →
  sized (n + 1) (address_family f rs invert off c).
Proof.
  intros Hn Hc. pose proof (sized_more n (n + 1) c ltac:(lia) ltac:(lia) Hc). unfold address_family.
  destruct (_ || _ : bool); [by apply sized_family|]. destruct (_ || _ : bool); [|done].
  edestruct (sized_set n) as [Hset Hlast]; [done|exact Hc|].
  apply sized_family; [exact Hset|]. do 2 constructor; [exact Hlast|constructor].
Qed.
Lemma sized_address n c c' m label off4 off6 : n < 2 ^ 32 - 2 → sized n c →
  compile_address m label off4 off6 c = inr c' → sized (n + 2) c'.
Proof.
  intros Hn Hc. destruct m as [m|]; simpl.
  - unfold addressMatchExpression. destruct (BuildIPSet _ _) as [|set]; [done|].
    destruct (SplitIPSet set) as [v4 v6]. destruct (_ && _ : bool); [done|]. destruct (_ && _ : bool); [done|].
    intros [= <-]. replace (n + 2) with (n + 1 + 1) by lia.
    apply sized_address_family; [lia|]. apply sized_address_family; [lia|done].
  - intros [= <-]. eapply sized_more, Hc; lia.
Qed.
Lemma sized_port n c off m : n < 2 ^ 32 - 1 → sized n c → sized (n + 1) (portMatch off m c).
Proof.
  intros Hn Hc. destruct m; [|eapply sized_more, Hc; lia]. cbn [portMatch].
  edestruct (sized_set n) as [Hset Hlast]; [done|exact Hc|].
  apply sized_post; [exact Hset|]. do 2 constructor; [exact Hlast|constructor].
Qed.
Lemma sized_icmp n c m : n < 2 ^ 32 - 1 → sized n c → sized (n + 1) (compile_icmp m c).
Proof.
  intros Hn Hc. destruct m; [|eapply sized_more, Hc; lia]. cbn [compile_icmp].
  edestruct (sized_set n) as [Hset Hlast]; [done|exact Hc|].
  apply sized_post; [exact Hset|]. do 2 constructor; [exact Hlast|constructor].
Qed.
Lemma sized_layer4 n c m : n < 2 ^ 32 - 3 → sized n c → sized (n + 3) (compile_layer4 m c).
Proof.
  intros Hn Hc. destruct m; [|eapply sized_more, Hc; lia]. cbn [compile_layer4].
  replace (n + 3) with (n + 1 + 1 + 1) by lia.
  apply sized_icmp, sized_port, sized_port; [lia..|]. apply sized_pre; [done|by repeat constructor].
Qed.
Lemma sized_clamp n c m : sized n c → sized n (compile_clamp m c).
Proof.
  intros Hc. destruct m as [mtu|]; [|done]. cbn [compile_clamp].
  assert (Hf : ∀ f c, sized n c → sized n (append_family f (clampMSS f mtu) c))
    by (intros; apply sized_family; [done|by repeat constructor]).
  destruct (rule4 c); (destruct (rule6 _); [by repeat apply Hf|by try apply Hf]).
Qed.
Lemma sized_ending n c r : sized n c →
  sized n (compile_verdict r.(ruleVerdict) (compile_counter r.(AnonCounter)
    (compile_set_mark r.(SetMark) (compile_clamp r.(ClampMSS) (compile_limit r.(MatchLimit) c))))).
Proof.
  intros Hc. unfold compile_verdict, compile_counter, compile_set_mark, compile_limit.
  repeat first [apply sized_clamp|apply sized_post; [|by repeat constructor]|case_match|done].
Qed.

Lemma sized_assemble n c : sized n c → closed {| Rules := assemble c; Sets := c.(cSets) |}.
Proof.
  intros (Hl & Hn & Hf). split; cbn [Sets Rules]; [lia|]. rewrite !Forall_app in Hf.
  destruct Hf as (Hpre & Hpost & H4 & H6). unfold assemble.
  assert (Hfam : ∀ f, Forall (lookup_below (zlen (cSets c))) (match_family f)) by (by repeat constructor).
  assert (Hplain : Forall (lookup_below (zlen (cSets c))) (rulePre c ++ rulePost c)) by by apply Forall_app.
  destruct (rule4 c), (rule6 c); simpl in H4, H6;
    [..|destruct (rulePre c), (rulePost c); [constructor|by constructor..]];
    repeat first [done|apply Hfam|apply Forall_app; split|constructor].
Qed.

Lemma Compile_closed r compiled : Compile r = inr compiled → closed compiled.
Proof.
  unfold Compile, or_no_rule.
  assert (Hnone : closed {| Rules := []; Sets := [] |}) by (by split).
  assert (H0 : sized 3 (compile_conntrack (MatchConntrackState r) (compile_mark (MatchMark r)
    (compile_ifname MetaKeyOIFNAME (MatchOIfName r) (compile_ifname MetaKeyIIFNAME (MatchIIfName r) nothing))))).
  { apply (sized_conntrack 2), sized_mark, (sized_ifname 1), (sized_ifname 0), sized_nothing; lia. }
  destruct (compile_address _ "source" _ _ _) as [err|c1] eqn:H1; [by case_match; intros [= <-]|].
  apply (sized_address 3) in H1; [|lia|done].
  destruct (compile_address _ "destination" _ _ _) as [err|c2] eqn:H2; [by case_match; intros [= <-]|].
  apply (sized_address 5) in H2; [|lia|done]. intros [= <-].
  apply (sized_assemble 10), sized_ending, (sized_layer4 7); [lia|done].
Qed.
End closed.

Section batch.
Context {K : Type} `{M : NfMachine K} `{ML : !NfMachineLaws M}.
Context `{Sort : SlicesSort} `{LS : !SlicesSortLaws Sort} `{N : Netipx} `{LN : !NetipxLaws N}.
Context (addSetError : kernel_set → option error) (Itoa : Z → string).
Implicit Types (k : K) (p : packet) (S : set_table).

Definition local (sets : list NfTablesSet) : set_table := λ i, kernel_set_of <$> sets !! Z.to_nat i.
Lemma local_extends sets : extends (local sets) sets.
Proof. intros i s Hi. unfold local. by rewrite Nat2Z.id, Hi. Qed.

Lemma step_other S S' e es es' k : (∀ r i n inv, e ≠ Lookup r i n inv) →
  (∀ k, run_rule S es k = run_rule S' es' k) → run_rule S (e :: es) k = run_rule S' (e :: es') k.
Proof.
  intros He Hes. rewrite !run_rule_cons. pose proof (step_tables S S' e k) as Ht.
  destruct e; try rewrite Ht; try (destruct (step S' _ k) as [? []]; [apply Hes|done..]).
  by destruct (He SourceRegister SetID SetName Invert).
Qed.

(** With its sets, the rule of the batch runs like the compiled one. *)
Lemma fix_lookups_spec table chain sets es setID ops es' next :
  fix_lookups addSetError Itoa table chain sets es setID = inr (ops, es', next) →
  (∀ S k, has_sets S ops → run_rule S es' k = run_rule (local sets) es k) ∧
  (∀ c, rules_in table c ops = []) ∧ (∀ c, chain_in table c ops = None) ∧ numbered setID ops next.
Proof.
  revert setID ops es' next. induction es as [|e es IH]; intros setID ops es' next.
  { intros [= <- <- <-]. split_and!; [done..|]. apply numbered_nil. }
  assert (Hother : (∀ r i n inv, e ≠ Lookup r i n inv) →
    fix_lookups addSetError Itoa table chain sets (e :: es) setID = inr (ops, es', next) →
    (∀ S k, has_sets S ops → run_rule S es' k = run_rule (local sets) (e :: es) k) ∧
    (∀ c, rules_in table c ops = []) ∧ (∀ c, chain_in table c ops = None) ∧ numbered setID ops next).
  { intros He Hfix.
    assert (Hfix' : match fix_lookups addSetError Itoa table chain sets es setID with
      | inl err => inl err | inr (ops, es, next) => inr (ops, e :: es, next) end = inr (ops, es', next)).
    { destruct e; try done. by destruct (He SourceRegister SetID SetName Invert). }
    destruct (fix_lookups _ _ _ _ _ es setID) as [|[[ops1 es1] next1]] eqn:Heq; [done|]. injection Hfix' as <- <- <-.
    destruct (IH _ _ _ _ Heq) as (Hrun & Hr & Hc & Hn). split_and!; [|done..].
    intros S k HS. apply step_other; [done|]. intros k'. by apply Hrun. }
  destruct e; try (apply Hother; done). clear Hother. cbn [fix_lookups].
  destruct (u32 (zlen sets) <=? SetID); [done|]. destruct (sets !! Z.to_nat SetID) as [s|] eqn:Hs; [|done].
  destruct (addSetError (kernel_set_of s)) eqn:Herr; [done|].
  destruct (fix_lookups _ _ _ _ _ es _) as [|[[ops1 es1] next1]] eqn:Heq; [done|]. intros [= <- <- <-].
  destruct (IH _ _ _ _ Heq) as (Hrun & Hr & Hc & Hn). split_and!; [|done..|by apply numbered_set].
  intros S k HS. rewrite !run_rule_cons.
  rewrite (step_Lookup S _ setID _ _ (kernel_set_of s)) by (eapply HS; left).
  rewrite (step_Lookup (local sets) _ SetID _ _ (kernel_set_of s)) by (unfold local; by rewrite Hs).
  destruct (xorb _ _); [|done]. apply Hrun. intros t i n s' key Hin. eapply HS. by right.
Qed.

Lemma fix_lookups_total table chain sets es setID :
  (∀ s, addSetError s = None) → zlen sets < 2 ^ 32 → Forall (lookup_below (zlen sets)) es →
  ∃ res, fix_lookups addSetError Itoa table chain sets es setID = inr res.
Proof.
  intros Hadd Hlen. revert setID. induction es as [|e es IH]; intros setID Hes; [by eexists|].
  apply Forall_cons in Hes as [He Hes].
  destruct (IH setID Hes) as [[[ops es'] next] Heq].
  destruct e; cbn [fix_lookups]; rewrite ?Heq; try by eexists.
  simpl in He. rewrite u32_small by (pose proof (zlen_nonneg sets); lia).
  destruct (Z.leb_spec (zlen sets) SetID); [lia|].
  destruct (lookup_lt_is_Some_2 sets (Z.to_nat SetID)) as [s ->]; [unfold zlen in *; lia|].
  rewrite Hadd. destruct (IH (u32 (setID + 1)) Hes) as [[[ops1 es1] next1] ->]. by eexists.
Qed.

(** ** The rules of a chain *)

Lemma run_rules_cons S es rules k :
  run_rules S (es :: rules) k =
    match run_rule S es k with (k', Stop v) => (k', Some v) | (k', _) => run_rules S rules k' end.
Proof. done. Qed.
Lemma run_rules_app S rules rules' k :
  run_rules S (rules ++ rules') k =
    match run_rules S rules k with (k', None) => run_rules S rules' k' | res => res end.
Proof.
  revert k. induction rules as [|es rules IH]; intros k; [done|]. simpl.
  destruct (run_rule S es k) as [k' []]; [apply IH|apply IH|done].
Qed.

(** What adding operations for a chain leaves. *)
Record adds (table chain : string) (ops : list operation) (run : set_table → K → K * option NfTablesVerdict) : Prop := {
  adds_run S k : has_sets S ops → run_rules S (rules_in table chain ops) k = run S k;
  adds_others c : c ≠ chain → rules_in table c ops = [];
  adds_chain c : chain_in table c ops = None
}.

Lemma chain_in_app table chain ops ops' : chain_in table chain ops = None →
  chain_in table chain (ops ++ ops') = chain_in table chain ops'.
Proof. unfold chain_in. rewrite omap_app. by destruct (omap _ ops). Qed.

Lemma add_compiled_spec table chain sets rules setID ops next :
  add_compiled addSetError Itoa table chain sets rules setID = inr (ops, next) →
  adds table chain ops (λ _ k, run_rules (local sets) rules k) ∧ numbered setID ops next.
Proof.
  revert setID ops next. induction rules as [|es rules IH]; intros setID ops next; cbn [add_compiled].
  { intros [= <- <-]. split; [by split|apply numbered_nil]. }
  destruct (fix_lookups _ _ _ _ _ es setID) as [|[[ops1 es1] next1]] eqn:Hfix; [done|].
  destruct (add_compiled _ _ _ _ _ rules next1) as [|[ops2 next2]] eqn:Hadd; [done|]. intros [= <- <-].
  destruct (fix_lookups_spec _ _ _ _ _ _ _ _ Hfix) as (Hrun1 & Hr1 & Hc1 & Hn1).
  destruct (IH _ _ _ Hadd) as [[Hrun2 Ho2 Hc2] Hn2]. split.
  - assert (Hrules : ∀ c, rules_in table c (ops1 ++ AddRule table chain es1 :: ops2) =
      (if bool_decide (chain = c) then [es1] else []) ++ rules_in table c ops2).
    { intros c. rewrite rules_in_app, Hr1. unfold rules_in. cbn [omap list_omap app].
      rewrite (bool_decide_ext (table = table ∧ chain = c) (chain = c)) by tauto. by case_bool_decide. }
    split.
    + intros S k HS. apply has_sets_app in HS as [HS1 HS2]. rewrite Hrules, bool_decide_true by done. cbn [app].
      rewrite !run_rules_cons, (Hrun1 S) by done.
      assert (HS2' : has_sets S ops2) by (intros t i n s key Hin; eapply HS2; by right).
      destruct (run_rule _ es k) as [k' []]; [by apply Hrun2|by apply Hrun2|done].
    + intros c Hc. rewrite Hrules, bool_decide_false, Ho2 by done. done.
    + intros c. rewrite chain_in_app by done. apply Hc2.
  - eapply numbered_app; [done|]. by apply numbered_other.
Qed.

Lemma add_compiled_total table chain sets rules setID :
  (∀ s, addSetError s = None) → zlen sets < 2 ^ 32 → Forall (Forall (lookup_below (zlen sets))) rules →
  ∃ res, add_compiled addSetError Itoa table chain sets rules setID = inr res.
Proof.
  intros Hadd Hlen. revert setID. induction rules as [|es rules IH]; intros setID Hes; [by eexists|].
  apply Forall_cons in Hes as [He Hes]. cbn [add_compiled].
  destruct (fix_lookups_total table chain sets es setID Hadd Hlen He) as [[[ops es'] next] ->].
  destruct (IH next Hes) as [[ops2 next2] ->]. by eexists.
Qed.

(** C18: a rule compiles, and wherever its sets are the instructions decide on every packet
    as the rule: its verdict, and its mark, when all its conditions hold and it is within
    its limit, nothing otherwise. The rule is such that its parts are of their widths, its
    ranges of ports are disjoint and do not start at the first port and end at the last, its
    subnets keep clear of the last address of a family, its source and its destination are
    for the same families, and it clamps no MSS; the examples show what goes wrong
    otherwise. *)
Theorem compiled_rules_decide r : rule_ok r → ∃ compiled, Compile r = inr compiled ∧ closed compiled ∧
  ∀ S k p, extends S compiled.(Sets) → carries k p →
    ∃ k', run_rules S compiled.(Rules) k =
        (k', if rule_matches r p && within r k then r.(ruleVerdict) else None) ∧
      carries k' (if rule_matches r p && within r k then marked r p else p).
Proof.
  intros Hr. destruct (Compile_decides r Hr) as (compiled & Heq & Hdec). exists compiled.
  split_and!; [done|by eapply Compile_closed|]. intros S k p HS Hk.
  destruct (Hdec S k p HS Hk) as (k' & Hrun & [Hk' _]). by exists k'.
Qed.
End batch.
