(* ===== verification/FirewallChains.v ===== *)
(** * What a batch of chains decides

    The rules of every chain in a batch decide, in the order of the chain, as the rules they
    were compiled from. *)

From S2P Require Import Prelude Errors Bytes Netip NfTables NfMachine NfCorrect NfTests NfCompile Firewall FirewallBatch.

(** ** The decision of a list of rules *)

Definition within_limit (A : Z → Z → bool) (r : NfTablesRule) : bool :=
  match r.(MatchLimit) with None => true | Some rate => A rate (u32 rate) end.
Definition verdict_on (A : Z → Z → bool) (p : packet) (r : NfTablesRule) : option NfTablesVerdict :=
  if rule_matches r p && within_limit A r then r.(ruleVerdict) else None.

(** The verdict of the first rule that matches, within its limit, and has one. *)
Fixpoint chain_decision (A : Z → Z → bool) (rs : list NfTablesRule) (p : packet) : option NfTablesVerdict :=
  match rs with
  | [] => None
  | r :: rs => match verdict_on A p r with Some v => Some v | None => chain_decision A rs p end
  end.

(** At most one limit is consulted for a packet. *)
Definition consults (p : packet) (r : NfTablesRule) : Prop := rule_matches r p = true ∧ r.(MatchLimit) ≠ None.
Definition once (rs : list NfTablesRule) (p : packet) : Prop :=
  ForallOrdPairs (λ r r', consults p r → ¬ consults p r') rs.

Definition chain_ok (rs : list NfTablesRule) : Prop := Forall (λ r, rule_ok r ∧ r.(SetMark) = None) rs.

Lemma chain_decision_app A rs rs' p :
  chain_decision A (rs ++ rs') p =
    match chain_decision A rs p with Some v => Some v | None => chain_decision A rs' p end.
Proof. induction rs as [|r rs IH]; simpl; [done|]. by destruct (verdict_on A p r). Qed.

Lemma chain_decision_ext A A' rs p :
  Forall (λ r, consults p r → within_limit A r = within_limit A' r) rs →
  chain_decision A rs p = chain_decision A' rs p.
Proof.
  induction 1 as [|r rs Hr _ IH]; [done|]. cbn [chain_decision]. rewrite IH.
  enough (Heq : verdict_on A p r = verdict_on A' p r) by by rewrite Heq.
  unfold verdict_on, consults, within_limit in *. destruct (rule_matches r p), (MatchLimit r); try done.
  by rewrite Hr.
Qed.

Section chains.
Context {K : Type} `{M : NfMachine K} `{ML : !NfMachineLaws M}.
Context `{Sort : SlicesSort} `{LS : !SlicesSortLaws Sort} `{N : Netipx} `{LN : !NetipxLaws N}.
Context (addSetError : kernel_set → option error) (Itoa : Z → string).
Implicit Types (k : K) (p : packet) (S : set_table).

(** A run that decides as the rules do. *)
Definition runs_as (rs : list NfTablesRule) (run : K → K * option NfTablesVerdict) : Prop :=
  ∀ k p, carries k p → once rs p → ∃ k', run k = (k', chain_decision (allows k) rs p).

Lemma runs_as_nil : runs_as [] (λ k, (k, None)).
Proof. intros k p _ _. by exists k. Qed.

Lemma runs_as_cons r rs compiled run S : SetMark r = None → decides r compiled → extends S compiled.(Sets) →
  runs_as rs run →
  runs_as (r :: rs) (λ k, match run_rules S compiled.(Rules) k with (k', None) => run k' | res => res end).
Proof.
  intros Hset Hdec HS Hrun k p Hk Honce. inversion Honce as [|? ? Hone Hrs]; subst.
  destruct (Hdec S k p HS Hk) as (k1 & -> & [Hk1 Ha]).
  cbn [chain_decision]. change (within r k) with (within_limit (allows k) r) in *.
  change (if rule_matches r p && within_limit (allows k) r then ruleVerdict r else None) with (verdict_on (allows k) p r).
  destruct (verdict_on (allows k) p r) as [v|]; [by exists k1|].
  assert (Hp : carries k1 p) by (unfold marked in Hk1; rewrite Hset in Hk1; by destruct (rule_matches r p && _)).
  destruct (Hrun k1 p Hp Hrs) as [k2 ->]. exists k2. f_equal. apply chain_decision_ext.
  apply Forall_forall. intros r' Hr' Hc. rewrite Forall_forall in Hone.
  assert (Hallows : ∀ rate burst, allows k1 rate burst = allows k rate burst).
  { apply Ha. destruct (rule_matches r p) eqn:Hm; [right|by left]. destruct (MatchLimit r) eqn:Hl; [|done].
    exfalso. apply (Hone r' Hr'); [|done]. split; [done|by rewrite Hl]. }
  unfold within_limit. destruct (MatchLimit r'); [apply Hallows|done].
Qed.

(** ** The operations of a chain *)

Lemma add_rules_spec table chain rs setID ops next : chain_ok rs →
  add_rules addSetError Itoa table chain rs setID = inr (ops, next) →
  (∃ run, adds table chain ops run ∧ ∀ S, runs_as rs (run S)) ∧ numbered setID ops next.
Proof.
  intros Hok. revert setID ops next. induction Hok as [|r rs [Hr Hset] _ IH]; intros setID ops next; cbn [add_rules].
  { intros [= <- <-]. split; [|apply numbered_nil]. exists (λ _ k, (k, None)).
    split; [by split|intros; apply runs_as_nil]. }
  destruct (Compile_decides r Hr) as (compiled & -> & Hdec).
  destruct (add_compiled _ _ _ _ _ _ setID) as [|[ops1 next1]] eqn:H1; [done|].
  destruct (add_rules _ _ _ _ rs next1) as [|[ops2 next2]] eqn:H2; [done|]. intros [= <- <-].
  apply add_compiled_spec in H1 as [[Hrun1 Ho1 Hc1] Hn1].
  destruct (IH _ _ _ H2) as [(run & [Hrun2 Ho2 Hc2] & Hruns) Hn2]. split; [|by eapply numbered_app].
  eexists (λ S k, match run_rules (local compiled.(Sets)) compiled.(Rules) k with (k', None) => run S k' | res => res end).
  split; [split|].
  - intros S k [HS1 HS2]%has_sets_app. rewrite rules_in_app, run_rules_app, Hrun1 by done.
    destruct (run_rules _ _ k) as [k' []]; [done|]. by apply Hrun2.
  - intros c Hc. by rewrite rules_in_app, Ho1, Ho2.
  - intros c. by rewrite chain_in_app.
  - intros S. eapply (runs_as_cons r rs compiled (run S)); [done..|apply local_extends|done].
Qed.

Lemma add_rules_total table chain rs setID : (∀ s, addSetError s = None) → chain_ok rs →
  ∃ res, add_rules addSetError Itoa table chain rs setID = inr res.
Proof.
  intros Hadd Hok. revert setID. induction Hok as [|r rs [Hr _] _ IH]; intros setID; [by eexists|]. cbn [add_rules].
  destruct (Compile_decides r Hr) as (compiled & Heq & _). rewrite Heq. apply Compile_closed in Heq as [Hlen Hall].
  destruct (add_compiled_total addSetError Itoa table chain compiled.(Sets) compiled.(Rules) setID) as [[ops next] ->];
    [done..|]. destruct (IH next) as [[ops2 next2] ->]. by eexists.
Qed.

(** ** The chains of a batch *)

Definition chains_ok (chains : list (string * NfTablesChainSpec)) : Prop :=
  NoDup chains.*1 ∧ Forall (λ c, chain_ok c.2.(chainRules)) chains.

(** Operations that set up a chain of the table: it has the specification, and its rules
    decide as those of the specification. *)
Record sets_up (table : string) (ops : list operation) (name : string) (spec : NfTablesChainSpec) : Prop := {
  sets_up_chain : chain_in table name ops = Some spec;
  sets_up_rules S : has_sets S ops → runs_as spec.(chainRules) (run_rules S (rules_in table name ops))
}.

Lemma add_chains_spec table chains setID ops : chains_ok chains →
  add_chains addSetError Itoa table chains setID = inr ops →
  (∀ name spec, (name, spec) ∈ chains → sets_up table ops name spec) ∧
  (∀ name, name ∉ chains.*1 → chain_in table name ops = None ∧ rules_in table name ops = []) ∧
  ∃ next, numbered setID ops next.
Proof.
  intros [Hnd Hok]. revert setID ops. induction chains as [|[name spec] chains IH]; intros setID ops; cbn [add_chains].
  { intros [= <-]. split_and!; [|done|exists setID; apply numbered_nil]. intros ?? []%elem_of_nil. }
  apply NoDup_cons in Hnd as [Hnew Hnd]. apply Forall_cons in Hok as [Hspec Hok]. cbn [fst snd] in *.
  destruct (add_rules _ _ _ _ _ setID) as [|[ops1 next1]] eqn:H1; [done|].
  destruct (add_chains _ _ _ chains next1) as [|ops2] eqn:H2; [done|]. intros [= <-].
  apply add_rules_spec in H1 as [(run & [Hrun Hothers Hchain] & Hruns) Hn1]; [|done].
  destruct (IH Hnd Hok _ _ H2) as (Hall & Hnone & next & Hn2).
  set (o := AddChain table name (Some spec)).
  assert (Hsets : ∀ S, has_sets S (o :: ops1 ++ ops2) → has_sets S ops1 ∧ has_sets S ops2).
  { intros S HS. apply has_sets_app. intros t i n s key Hin. eapply HS. by right. }
  assert (Hin : ∀ c, chain_in table c (o :: ops1 ++ ops2) = if bool_decide (name = c) then Some spec else chain_in table c ops2).
  { intros c. case_bool_decide as Hc.
    - subst. unfold chain_in, o. simpl. by rewrite bool_decide_true.
    - rewrite <- (chain_in_app table c ops1 ops2) by done. unfold chain_in, o. simpl.
      rewrite bool_decide_false; [done|by intros []]. }
  assert (Hrules : ∀ c, rules_in table c (o :: ops1 ++ ops2) = rules_in table c ops1 ++ rules_in table c ops2)
    by (intros; apply (rules_in_app table c (o :: ops1))).
  split_and!.
  - intros c sp [[= -> ->]|Hel]%elem_of_cons.
    + split; [by rewrite Hin, bool_decide_true|]. intros S [HS1 HS2]%Hsets k p Hk Honce.
      rewrite Hrules, (proj2 (Hnone name Hnew)), app_nil_r, Hrun by done. by apply Hruns.
    + assert (Hne : c ≠ name) by (intros ->; by apply Hnew, (list_elem_of_fmap_2' fst _ (name, sp))).
      destruct (Hall c sp Hel) as [Hc Hr]. split; [by rewrite Hin, bool_decide_false by congruence|].
      intros S [HS1 HS2]%Hsets. rewrite Hrules, Hothers by done. by apply Hr.
  - intros c [Hne Hc]%not_elem_of_cons. destruct (Hnone c Hc) as [Hcn Hrn].
    rewrite Hin, Hrules, bool_decide_false by (by intros <-). by rewrite Hothers, Hrn.
  - exists next. apply numbered_other; [done|]. by eapply numbered_app.
Qed.

Lemma add_chains_total table chains setID : (∀ s, addSetError s = None) → chains_ok chains →
  ∃ ops, add_chains addSetError Itoa table chains setID = inr ops.
Proof.
  intros Hadd [_ Hok]. revert setID. induction Hok as [|[name spec] chains Hspec _ IH]; intros setID; [by eexists|].
  cbn [add_chains]. destruct (add_rules_total table name spec.(chainRules) setID Hadd Hspec) as [[ops next] ->].
  destruct (IH next) as [ops2 ->]. by eexists.
Qed.

(** ** The batch *)

Definition TableNameOf (TableName : string) : string :=
  if String.eqb TableName "" then DefaultNfTablesTableName else TableName.

(** What comes before the chains adds no rules, no sets and no chain of the firewall. *)
Definition inert (ops : list operation) : Prop :=
  Forall (λ o, match o with AddSet _ _ _ _ _ | AddRule _ _ _ | AddChain _ _ (Some _) => False | _ => True end) ops.

Lemma inert_facts ops : inert ops → set_ids ops = [] ∧ ∀ t c, rules_in t c ops = [] ∧ chain_in t c ops = None.
Proof.
  induction 1 as [|o ops Ho _ [IHs IH]]; [done|].
  destruct o as [| |? ? []| |]; simpl in Ho; try done; (split; [done|]); intros t c; apply IH.
Qed.

(** Whatever the kernel lists, a batch is made: it deletes the chains of the table the
    kernel has, and sets up the given ones, and no others. *)
Lemma Run_sets_up TableName ipv4Tables inetTables chains existing :
  (∀ s, addSetError s = None) → chains_ok chains →
  let table := TableNameOf TableName in
  ∃ ops, Run addSetError Itoa TableName (inr ipv4Tables) (inr inetTables) (inr chains) (inr existing) = inr ops ∧
    (∀ c, (table, c) ∈ existing → DelChain table c ∈ ops) ∧
    (∀ name, name ∉ chains.*1 → chain_in table name ops = None) ∧
    (zlen (set_ids ops) < 2 ^ 32 →
     ∀ name spec, (name, spec) ∈ chains → sets_up table ops name spec ∧ has_sets (table_of ops) ops).
Proof.
  intros Hadd Hok table. destruct (add_chains_total table chains 0 Hadd Hok) as [ops Hops].
  destruct (add_chains_spec table chains 0 ops Hok Hops) as (Hall & Hnone & next & Hn).
  set (hint := if bool_decide ("mangle"%string ∈ ipv4Tables) then [] else
    [AddTable true "mangle"; AddChain "mangle" IptablesHint None]).
  set (pre := hint ++ (if bool_decide (table ∈ inetTables) then [] else [AddTable false table]) ++
    (uncurry DelChain <$> filter (λ c, c.1 = table) existing)).
  assert (Hpre : inert pre).
  { unfold pre, hint, inert. rewrite !Forall_app, Forall_fmap. split_and!; [by case_bool_decide; repeat constructor..|].
    apply Forall_forall. by intros []. }
  apply inert_facts in Hpre as [Hsp Hrp].
  assert (Hids : set_ids (pre ++ ops) = set_ids ops) by (by rewrite set_ids_app, Hsp).
  assert (Hin : ∀ c, chain_in table c (pre ++ ops) = chain_in table c ops).
  { intros c. apply chain_in_app, Hrp. }
  exists (pre ++ ops). split_and!.
  - unfold Run, preCreateIptablesNFTable. fold (TableNameOf TableName). fold table. rewrite Hops.
    unfold pre, hint. rewrite <- !app_assoc. by case_bool_decide.
  - intros c Hc. unfold pre. rewrite !elem_of_app. left. right. right.
    apply (list_elem_of_fmap_2' _ _ (table, c)); [|done]. by apply list_elem_of_filter.
  - intros name Hname. rewrite Hin. by apply Hnone.
  - rewrite Hids. intros Hlt name spec Hel.
    assert (HS : has_sets (table_of (pre ++ ops)) (pre ++ ops)).
    { apply table_of_sets. rewrite Hids. by eapply numbered_NoDup. }
    split; [|done]. destruct (Hall name spec Hel) as [Hc Hr]. split; [by rewrite Hin|].
    intros S HS'. rewrite rules_in_app, (proj1 (Hrp _ _)). apply Hr. by apply has_sets_app in HS' as [_ ?].
Qed.
End chains.
