(* ===== verification/FirewallValid.v ===== *)
(** * Valid firewall documents

    Validation accepts exactly the rules whose ranges of ports are in order and do not meet;
    every rule of the chains of valid documents can be compiled to what it says. *)

From S2P Require Import Prelude Errors Bytes Netip NfTables NfMachine NfCorrect NfTests NfCompile Firewall FirewallChains.

(** ** Ranges of ports *)

Definition uint16_ports (prs : list PortRange) : Prop :=
  Forall (λ pr, 0 ≤ pr.(Lo) < 2 ^ 16 ∧ 0 ≤ pr.(Hi) < 2 ^ 16) prs.

Section ports.
Context `{Sort : SlicesSort} `{LS : !SlicesSortLaws Sort}.

(** The ports of a range follow those of the one before. *)
Definition follows (prev : option PortRange) (pr : PortRange) : Prop :=
  match prev with Some prev => prev.(Hi) < pr.(Lo) | None => True end.

Lemma validate_ports_spec prev clone :
  StronglySorted (λ a b, a.(Lo) ≤ b.(Lo)) (option_list prev ++ clone) →
  from_option (λ prev, prev.(Lo) ≤ prev.(Hi)) True prev →
  validate_ports prev clone = None ↔
    Forall (λ pr, pr.(Lo) ≤ pr.(Hi) ∧ follows prev pr) clone ∧ StronglySorted (λ a b, a.(Hi) < b.(Lo)) clone.
Proof.
  revert prev. induction clone as [|pr clone IH]; intros prev Hs Hprev; cbn [validate_ports].
  { split; [by repeat constructor|done]. }
  assert (Hs' : StronglySorted (λ a b, a.(Lo) ≤ b.(Lo)) (pr :: clone))
    by (destruct prev; [by apply StronglySorted_inv in Hs as [? _]|done]).
  destruct (Z.ltb_spec pr.(Hi) pr.(Lo)) as [Hlt|Hle].
  { split; [done|]. intros [[[] _]%Forall_cons _]. lia. }
  assert (Hnext : follows prev pr → validate_ports (Some pr) clone = None ↔
    Forall (λ pr', pr'.(Lo) ≤ pr'.(Hi) ∧ follows prev pr') (pr :: clone) ∧
    StronglySorted (λ a b, a.(Hi) < b.(Lo)) (pr :: clone)).
  { intros Hf. rewrite (IH (Some pr)) by done. rewrite !Forall_cons. split.
    - intros [Hall Hsc]. split_and!; [done..| |].
      + eapply Forall_impl; [exact Hall|]. intros pr' [? Hpr']. split; [done|].
        unfold follows in *. destruct prev; [simpl in *; lia|done].
      + constructor; [done|]. eapply Forall_impl; [exact Hall|]. by intros pr' [_ ?].
    - intros [[_ Hall] [Hsc Hgt]%StronglySorted_inv]. split; [|done].
      rewrite Forall_forall in Hall, Hgt. apply Forall_forall. intros pr' Hin. split; [by apply Hall|by apply Hgt]. }
  destruct prev as [prev|]; [|by apply Hnext].
  destruct ((pr.(Lo) =? prev.(Lo)) || (pr.(Lo) <=? prev.(Hi))) eqn:Hover.
  - split; [done|]. intros [[[_ Hf] _]%Forall_cons _]. simpl in Hf, Hprev.
    apply orb_prop in Hover as [?%Z.eqb_eq|?%Z.leb_le]; lia.
  - apply Hnext. apply orb_false_iff in Hover as [_ ?%Z.leb_gt]. simpl. lia.
Qed.

Lemma Ports_Validate_spec prs :
  Ports_Validate prs = None ↔
    let sorted := SortFunc (λ a b, cmp_Compare a.(Lo) b.(Lo)) prs in
    Forall (λ pr, pr.(Lo) ≤ pr.(Hi)) sorted ∧ StronglySorted (λ a b, a.(Hi) < b.(Lo)) sorted.
Proof.
  unfold Ports_Validate. rewrite validate_ports_spec; [|apply (SortFunc_sorted Lo)|done].
  simpl. f_equiv. apply Forall_iff. intros pr. tauto.
Qed.

Lemma valid_disjoint prs : uint16_ports prs → Ports_Validate prs = None → disjoint_ports (port_interval <$> prs).
Proof.
  intros H16 [Hall Hs]%Ports_Validate_spec. set (sorted := SortFunc _ prs) in *.
  assert (Hperm : sorted ≡ₚ prs) by apply SortFunc_perm. exists (port_interval <$> sorted). split_and!.
  - by rewrite Hperm.
  - clear Hall Hperm. induction Hs as [|pr l _ IH Hf]; simpl; constructor; [done|]. by apply Forall_fmap.
  - unfold uint16_ports in H16. rewrite <- Hperm in H16. rewrite Forall_fmap, Forall_forall in *.
    intros pr Hpr. specialize (H16 pr Hpr). specialize (Hall pr Hpr). simpl. lia.
Qed.

Lemma port_interval_inj a b : port_interval a = port_interval b → a = b.
Proof. destruct a, b. by intros [= -> ->]. Qed.

Lemma disjoint_valid prs : disjoint_ports (port_interval <$> prs) → Ports_Validate prs = None.
Proof.
  intros (l & Hperm & Hs & Hok). apply Ports_Validate_spec. set (sorted := SortFunc _ prs).
  assert (Hsorted : port_interval <$> sorted = l).
  { apply disjoint_order_unique; [|clear l Hperm Hs Hok|done..].
    - unfold sorted. by rewrite Hperm, SortFunc_perm.
    - pose proof (SortFunc_sorted Lo prs) as H. fold sorted in H.
      induction H as [|pr l' _ IH Hf]; simpl; constructor; [done|]. by apply Forall_fmap. }
  subst l. split.
  - rewrite Forall_fmap in Hok. eapply Forall_impl; [exact Hok|]. simpl. lia.
  - clear Hok Hperm. induction sorted as [|pr l IH]; [constructor|]. apply StronglySorted_inv in Hs as [Hs Hf].
    constructor; [by apply IH|]. by rewrite <- (Forall_fmap port_interval (λ b, pr.(Hi) < b.1)).
Qed.

(** The check of a selector of ports accepts exactly the ranges that are in order and
    do not meet, whatever order they are listed in. *)
Theorem port_validation prs : uint16_ports prs →
  Ports_Validate prs = None ↔ disjoint_ports (port_interval <$> prs).
Proof. intros H16. split; [by apply valid_disjoint|apply disjoint_valid]. Qed.
End ports.

(** ** Documents *)

Section documents.
Context `{Sort : SlicesSort} `{LS : !SlicesSortLaws Sort}.

(** What the types of a document guarantee. *)
Definition typed (c : RuleConfigV1Alpha1) : Prop :=
  uint16_ports c.(Ports) ∧ 0 ≤ c.(ruleProtocol) < 256 ∧
  Forall (λ rule, valid_addr rule.(Subnet).(prefixAddr) ∧
                  from_option (λ p, valid_addr p.(prefixAddr)) True rule.(Except)) c.(Ingress).
(** A valid document, with no range that ends at the last address of a family, and whose
    ranges of ports do not start at the first port and end at the last. *)
Definition rule_config_ok (c : RuleConfigV1Alpha1) : Prop :=
  typed c ∧ Validate c = None ∧ not_both_ends (PortRanges c) ∧
  ∀ f, ends_inside (Subnets c) (ExceptSubnets c) f.
Definition docs_ok (docs : list Document) : Prop := Forall rule_config_ok (RulesOf docs).
(** Addresses of the node. *)
Definition addresses_ok (addresses : list Prefix) : Prop :=
  Forall (λ p, valid_addr p.(prefixAddr) ∧ p.(prefixAddr).(value) ≠ last_value p.(prefixAddr).(family)) addresses.

Lemma validate_ingress_spec rules : validate_ingress rules = None →
  Forall (λ rule, prefix_IsValid rule.(Subnet) = true) rules.
Proof.
  induction rules as [|rule rules IH]; simpl; [constructor|]. destruct (prefix_IsValid _) eqn:Hv; simpl; [|done].
  destruct (_ && _); [done|]. intros H. constructor; auto.
Qed.

Lemma Validate_spec c : Validate c = None →
  Ports_Validate c.(Ports) = None ∧ Forall (λ rule, prefix_IsValid rule.(Subnet) = true) c.(Ingress).
Proof.
  unfold Validate. destruct (String.eqb _ _); [done|]. destruct (Ports c) as [|pr prs]; [done|].
  destruct (Ports_Validate (pr :: prs)) eqn:Hp; [done|]. intros H%validate_ingress_spec. done.
Qed.

Lemma Validate_excepts c : Validate c = None →
  Ports_Validate c.(Ports) = None ∧
  Forall (λ rule, ∀ e, rule.(Except) = Some e → prefix_IsValid e = true) c.(Ingress).
Proof.
  unfold Validate. destruct (String.eqb _ _); [done|]. destruct (Ports c) as [|pr prs]; [done|].
  destruct (Ports_Validate (pr :: prs)) eqn:Hp; [done|]. intros H. split; [done|]. revert H.
  induction (Ingress c) as [|rule rules IH]; simpl; [constructor|]. destruct (negb _); [done|].
  destruct (_ && _) eqn:He; [done|]. intros H. constructor; [|by apply IH].
  intros e Hr. rewrite Hr in He. simpl in He. by apply negb_false_iff in He.
Qed.

Lemma subnets_usable c : typed c → Validate c = None → Forall usable (Subnets c) ∧ Forall usable (ExceptSubnets c).
Proof.
  intros (_ & _ & Ht) [_ Hv]%Validate_spec. rewrite Forall_forall in Ht, Hv. split; apply Forall_forall; intros p.
  - intros (rule & -> & Hin)%list_elem_of_fmap. split; [by apply Hv|by apply Ht].
  - intros (rule & [Hvalid Hin]%list_elem_of_filter & He)%list_elem_of_omap. unfold valid_except in Hvalid.
    rewrite He in Hvalid. split; [done|]. pose proof (proj2 (Ht rule Hin)) as Ha. by rewrite He in Ha.
Qed.

Lemma PortRanges_eq c : PortRanges c = port_interval <$> c.(Ports).
Proof. done. Qed.

Definition sorted_ranges (c : RuleConfigV1Alpha1) : list PortRange :=
  (λ pr, {| Lo := pr.1; Hi := pr.2 |}) <$> sort_ports (PortRanges c).
Lemma sorted_ranges_perm c : port_interval <$> sorted_ranges c ≡ₚ PortRanges c.
Proof.
  unfold sorted_ranges. rewrite <- list_fmap_compose.
  rewrite (list_fmap_ext _ id) by (by intros ? []). rewrite list_fmap_id. apply SortFunc_perm.
Qed.

Lemma ranges_ok_sorted c : rule_config_ok c → ports_ok (sorted_ranges c).
Proof.
  intros ((H16 & _) & [Hp _]%Validate_spec & Hends & _). split.
  - destruct (valid_disjoint c.(Ports) H16 Hp) as (l & Hperm & Hl). exists l. split; [|done].
    by rewrite sorted_ranges_perm.
  - intros [(i & Hi & Hi0) (j & Hj & Hj0)]. apply Hends. rewrite sorted_ranges_perm in Hi, Hj.
    split; [by exists i|by exists j].
Qed.

(** *** The rules of the chains *)

Context `{N : Netipx} `{LN : !NetipxLaws N}.

Lemma rule_ok_match a c r : rule_config_ok c → r.(MatchMark) = None → states_ok r.(MatchConntrackState) →
  r.(MatchDestinationAddress) = None → r.(ClampMSS) = None → r.(SetMark) = None → ∀ v,
  rule_ok (counted (rule_match a c r) v).
Proof.
  intros Hc Hm Hst Hd Hcl Hset v. pose proof Hc as (Ht & Hv & _ & Hends). unfold rule_ok, families_agree. simpl.
  rewrite Hm, Hd, Hset. pose proof Ht as (_ & Hproto & _). pose proof (subnets_usable c Ht Hv) as [Hi He].
  split_and!; try done; try lia. by apply ranges_ok_sorted.
Qed.

Lemma ingress_chain_ok docs : docs_ok docs → chain_ok (buildIngressChain docs).(chainRules).
Proof.
  intros Hdocs. unfold chain_ok. cbn [buildIngressChain chainRules]. rewrite !Forall_app. split_and!.
  - apply Forall_singleton. by repeat split.
  - destruct (DefaultActionOf docs); [constructor|].
    repeat apply Forall_cons; (split_and!; [|repeat split..]); try (repeat constructor; done).
  - apply Forall_fmap. eapply Forall_impl; [exact Hdocs|]. intros c Hc. split; [|done]. by apply rule_ok_match.
Qed.

Definition host_prefix (p : Prefix) : Prefix := PrefixFrom p.(prefixAddr) (BitLen p.(prefixAddr).(family)).

Lemma Contains_host p a : Contains (host_prefix p) a = bool_decide (p.(prefixAddr) = a).
Proof.
  unfold Contains, host_prefix, PrefixFrom. cbn [prefixAddr prefixBits]. destruct p as [[f v] bits], a as [f' v'].
  cbn [prefixAddr family value]. destruct (decide (f = f')) as [->|Hne].
  - rewrite bool_decide_true by done. rewrite Z.sub_diag, !Z.shiftr_0_r. simpl.
    destruct (Z.eqb_spec v v') as [->|Hv]; [by rewrite bool_decide_true|]. rewrite bool_decide_false; [done|congruence].
  - rewrite !bool_decide_false by congruence. done.
Qed.

Lemma member_hosts addresses a :
  member (host_prefix <$> addresses) [] a = existsb (λ p, bool_decide (p.(prefixAddr) = a)) addresses.
Proof.
  unfold member. simpl. rewrite andb_true_r. induction addresses as [|p l IH]; [done|].
  cbn [fmap list_fmap existsb]. by rewrite <- IH, Contains_host.
Qed.

Lemma hosts_usable addresses : addresses_ok addresses →
  Forall usable (host_prefix <$> addresses) ∧ ∀ f, ends_inside (host_prefix <$> addresses) [] f.
Proof.
  intros Hok. split.
  - apply Forall_fmap. eapply Forall_impl; [exact Hok|]. intros p [Hv _]. split; [|done].
    unfold prefix_IsValid. simpl. destruct (family (prefixAddr p)); done.
  - intros f. left. rewrite member_hosts. apply not_true_iff_false. rewrite existsb_exists.
    intros (p & Hin%list_elem_of_In & Heq%bool_decide_eq_true). unfold addresses_ok in Hok. rewrite Forall_forall in Hok.
    destruct (Hok p Hin) as [_ Hne]. by rewrite Heq in Hne.
Qed.

Lemma prerouting_chain_ok docs addresses : docs_ok docs → addresses_ok addresses →
  chain_ok (buildPreroutingChain docs addresses).(chainRules).
Proof.
  intros Hdocs Haddr. destruct (hosts_usable addresses Haddr) as [Hu He].
  unfold chain_ok. cbn [buildPreroutingChain chainRules]. rewrite !Forall_app. split_and!.
  - apply Forall_cons; split; [by repeat split|]. apply Forall_singleton. by repeat split.
  - apply Forall_fmap. eapply Forall_impl; [exact Hdocs|]. intros c Hc. split; [|done].
    apply (rule_ok_match _ c (in_states [ConntrackStateNew] noRule)); try done. by repeat constructor.
  - destruct (DefaultActionOf docs); [constructor|].
    repeat apply Forall_cons; (split_and!; [|repeat split..]); try (repeat constructor; done).
Qed.

Lemma ConfigRun_ok docs addresses : docs_ok docs → from_option addresses_ok True addresses →
  chains_ok (ConfigRun (Some docs) addresses).
Proof.
  intros Hdocs Haddr. unfold ConfigRun, chains_ok. destruct (_ && _); [by repeat constructor|].
  pose proof (ingress_chain_ok docs Hdocs). destruct addresses as [addresses|]; simpl.
  - split; [by repeat constructor; set_solver|]. pose proof (prerouting_chain_ok docs addresses Hdocs Haddr).
    apply Forall_cons; split; [done|]. by apply Forall_singleton.
  - split; [by repeat constructor; set_solver|]. by apply Forall_singleton.
Qed.
End documents.
