(* ===== verification/FirewallSafety.v ===== *)
(** * What the firewall lets through

    The packets that come in from the network and are for the machine: which of them the
    chains of a configuration accept, and that the batch programmed into the kernel decides
    just so. *)

From S2P Require Import Prelude Errors Bytes Netip NfTables NfMachine NfCorrect NfTests NfCompile Firewall FirewallBatch FirewallChains FirewallValid.

(** ** The decisions *)

(** A rule of the configuration is about the packet. *)
Definition concerns (c : RuleConfigV1Alpha1) (p : packet) : bool :=
  (p.(l4proto) =? c.(ruleProtocol)) &&
  match port_at 2 p.(transport) with Some x => covers (PortRanges c) x | None => false end.
(** What an entry allows: its subnet, without what is excluded from it. *)
Definition entry_allows (rule : IngressRule) (a : Addr) : bool :=
  Contains rule.(Subnet) a && negb (from_option (λ e, Contains e a) false rule.(Except)).
(** The source is one the rule allows. *)
Definition allows_source (c : RuleConfigV1Alpha1) (p : packet) : bool :=
  existsb (λ rule, entry_allows rule p.(src)) c.(Ingress).
(** No entry allows an address that is excluded from another one. *)
Definition own_excepts (c : RuleConfigV1Alpha1) : Prop :=
  ∀ rule rule' e a, rule ∈ c.(Ingress) → rule' ∈ c.(Ingress) → rule'.(Except) = Some e →
    Contains e a = true → entry_allows rule a = false.
Definition some_rule_allows (docs : list Document) (p : packet) : bool :=
  existsb (λ c, concerns c p && allows_source c p) (RulesOf docs).
Definition some_rule_denies (docs : list Document) (p : packet) : bool :=
  existsb (λ c, concerns c p && negb (allows_source c p)) (RulesOf docs).

Definition from_trusted (p : packet) : bool := bool_decide (p.(iif) ∈ trusted).
Definition is_icmp (p : packet) : bool := (p.(l4proto) =? ProtocolICMP) || (p.(l4proto) =? ProtocolICMPv6).
Definition reveals (p : packet) : bool :=
  (p.(l4proto) =? ProtocolICMP) &&
  match p.(transport) with
  | [] => false
  | t :: _ => bool_decide (t ∈ [ICMPTypeTimestampRequest; ICMPTypeTimestampReply;
                                ICMPTypeAddressMaskRequest; ICMPTypeAddressMaskReply])
  end.

Definition accept_if (b : bool) : NfTablesVerdict := if b then VerdictAccept else VerdictDrop.

(** [A]: whether the next packet is within a limit. *)
Definition ingress_decision (A : Z → Z → bool) (docs : list Document) (p : packet) : NfTablesVerdict :=
  if from_trusted p then VerdictAccept else
  match DefaultActionOf docs with
  | DefaultActionAccept => accept_if (negb (some_rule_denies docs p))
  | DefaultActionBlock =>
      if bool_decide (p.(ctState) ∈ [ConntrackStateEstablished; ConntrackStateRelated]) then VerdictAccept else
      if p.(ctState) =? ConntrackStateInvalid then VerdictDrop else
      if reveals p then VerdictDrop else
      if is_icmp p && A 5 5 then VerdictAccept else
      accept_if (some_rule_allows docs p)
  end.

Definition for_machine (addresses : list Prefix) (p : packet) : bool :=
  existsb (λ a, bool_decide (a.(prefixAddr) = p.(dst))) addresses.

Definition prerouting_decision (docs : list Document) (addresses : option (list Prefix)) (p : packet)
    : NfTablesVerdict :=
  match addresses with
  | None => VerdictAccept
  | Some addresses =>
      if from_trusted p || negb (for_machine addresses p) || negb (p.(ctState) =? ConntrackStateNew) then VerdictAccept else
      match DefaultActionOf docs with
      | DefaultActionAccept => accept_if (negb (some_rule_denies docs p))
      | DefaultActionBlock =>
          accept_if (some_rule_allows docs p || negb ((p.(l4proto) =? ProtocolTCP) || (p.(l4proto) =? ProtocolUDP)))
      end
  end.

(** ** Names of interfaces *)

(** What the kernel makes names of. *)
Definition name_ok (name : string) : Prop :=
  (String.length name < 16)%nat ∧ Forall (λ c, Ascii.N_of_ascii c ≠ 0%N) (String.list_ascii_of_string name).

Lemma length_list_ascii s : length (String.list_ascii_of_string s) = String.length s.
Proof. induction s; simpl; auto. Qed.

Lemma padded_inj (l l' : list Z) n n' : Forall (λ x, x ≠ 0) l → Forall (λ x, x ≠ 0) l' →
  l ++ replicate n 0 = l' ++ replicate n' 0 → l = l'.
Proof.
  intros Hl. revert l'. induction Hl as [|x l Hx _ IH]; intros l' Hl' Heq.
  - destruct Hl' as [|y l' Hy _]; [done|]. destruct n; simpl in Heq; [done|]. by injection Heq as <-.
  - destruct Hl' as [|y l' Hy Hl']; [destruct n'; simpl in Heq; [done|]; injection Heq as -> _; done|].
    injection Heq as <- Heq. f_equal. by apply IH.
Qed.

Lemma ifname_eq s : (String.length s < 16)%nat →
  ifname s = ((λ c, Z.of_N (Ascii.N_of_ascii c)) <$> String.list_ascii_of_string s) ++ replicate (16 - String.length s) 0.
Proof.
  intros Hlen. unfold ifname. rewrite take_app, length_fmap, length_list_ascii, take_ge, take_replicate;
    [|rewrite length_fmap, length_list_ascii; lia]. f_equal. f_equal. lia.
Qed.

Lemma ifname_inj s s' : name_ok s → name_ok s' → ifname s = ifname s' → s = s'.
Proof.
  intros [Hlen Hs] [Hlen' Hs']. rewrite !ifname_eq by done. intros Heq%padded_inj.
  - apply list_fmap_eq_inj in Heq.
    + rewrite <- (String.string_of_list_ascii_of_string s), <- (String.string_of_list_ascii_of_string s'). by rewrite Heq.
    + intros a b Hab%N2Z.inj. rewrite <- (Ascii.ascii_N_embedding a), <- (Ascii.ascii_N_embedding b). by rewrite Hab.
  - apply Forall_fmap. eapply Forall_impl; [exact Hs|]. simpl. lia.
  - apply Forall_fmap. eapply Forall_impl; [exact Hs'|]. simpl. lia.
Qed.

Lemma trusted_names p : name_ok p.(iif) → bool_decide (ifname p.(iif) ∈ ifname <$> trusted) = from_trusted p.
Proof.
  intros Hp. unfold from_trusted. apply bool_decide_ext. split.
  - intros (s & Heq & Hin)%list_elem_of_fmap. apply ifname_inj in Heq; [by rewrite Heq|done|].
    unfold trusted in Hin. rewrite !elem_of_cons, elem_of_nil in Hin.
    destruct Hin as [->|[->|[]]]; (split; [vm_compute; lia|by repeat constructor]).
  - apply list_elem_of_fmap_2.
Qed.

(** ** The rules of the chains *)

Lemma bool_decide_eqb (x y : Z) : bool_decide (x = y) = (x =? y).
Proof. destruct (Z.eqb_spec x y); [by rewrite bool_decide_true|by rewrite bool_decide_false]. Qed.

Section rules.
Context `{Sort : SlicesSort} `{LS : !SlicesSortLaws Sort}.
Implicit Types (A : Z → Z → bool) (c : RuleConfigV1Alpha1) (p : packet).

Lemma ports_of_rule c x :
  existsb (λ r, (r.(Lo) <=? x) && (x <=? r.(Hi))) (sorted_ranges c) = covers (PortRanges c) x.
Proof.
  rewrite <- covers_ports. apply eq_bool_prop_intro. rewrite !Is_true_true, !covers_iff.
  by setoid_rewrite sorted_ranges_perm.
Qed.

Lemma layer4_of_rule a c r v p :
  layer4_matches (MatchLayer4 (counted (rule_match a c r) v)) p = concerns c p.
Proof.
  unfold concerns. simpl. fold (sorted_ranges c). rewrite !andb_true_r. f_equal.
  destruct (port_at 2 (transport p)); [apply ports_of_rule|done].
Qed.

(** The sources a rule matches, with the excluded subnets of all its entries. *)
Definition in_subnets c p : bool := member (Subnets c) (ExceptSubnets c) p.(src).
Lemma in_subnets_allows c p : rule_config_ok c → own_excepts c → in_subnets c p = allows_source c p.
Proof.
  intros (_ & [_ Hv]%Validate_excepts & _) Hown. unfold in_subnets, member, allows_source.
  apply eq_bool_prop_intro. rewrite !Is_true_true, andb_true_iff, negb_true_iff, !existsb_exists. split.
  - intros [(s & Hs%list_elem_of_In & Hc) Hno]. apply list_elem_of_fmap in Hs as (rule & -> & Hin).
    exists rule. split; [by apply list_elem_of_In|]. unfold entry_allows. rewrite Hc. simpl.
    destruct (Except rule) as [e|] eqn:He; [simpl|done].
    rewrite Forall_forall in Hv. specialize (Hv rule Hin e He).
    assert (Hex : e ∈ ExceptSubnets c).
    { apply list_elem_of_omap. exists rule. split; [|done]. apply list_elem_of_filter.
      unfold valid_except. by rewrite He. }
    destruct (Contains e (src p)) eqn:Hce; [|done].
    assert (existsb (λ e, Contains e (src p)) (ExceptSubnets c) = true); [|congruence].
    apply existsb_exists. exists e. by split; [apply list_elem_of_In|].
  - intros (rule & Hin%list_elem_of_In & Ha). split.
    + exists (Subnet rule). split; [by apply list_elem_of_In, list_elem_of_fmap_2|]. by apply andb_true_iff in Ha as [? _].
    + apply not_true_iff_false. rewrite existsb_exists. intros (e & He%list_elem_of_In & Hc).
      apply list_elem_of_omap in He as (rule' & [_ Hin']%list_elem_of_filter & He).
      by rewrite (Hown rule rule' e _ Hin Hin' He Hc) in Ha.
Qed.

(** What a rule of the configuration, with the states of [r], gives its verdict to. *)
Definition hits (a : DefaultAction) c p : bool :=
  concerns c p && (if a then negb (in_subnets c p) else in_subnets c p).

Lemma rule_matches_hits a c states v p :
  rule_matches (counted (rule_match a c (from_option (λ st, in_states st noRule) noRule states)) v) p =
    state_matches states p.(ctState) && hits a c p.
Proof.
  unfold rule_matches. rewrite layer4_of_rule. unfold hits, in_subnets.
  destruct states as [states|]; simpl; destruct a; simpl; rewrite ?andb_true_r, ?andb_true_l;
    destruct (concerns c p), (member _ _ _); simpl; by rewrite ?andb_true_r, ?andb_false_r.
Qed.

Lemma chain_decision_rules A a states v cs p :
  chain_decision A ((λ c, counted (rule_match a c (from_option (λ st, in_states st noRule) noRule states)) v) <$> cs) p =
    if state_matches states p.(ctState) && existsb (λ c, hits a c p) cs then Some v else None.
Proof.
  induction cs as [|c cs IH]; [by rewrite andb_false_r|]. cbn [fmap list_fmap chain_decision existsb].
  unfold verdict_on. rewrite rule_matches_hits. unfold within_limit.
  replace (MatchLimit _) with (@None Z) by by destruct states.
  change (list_fmap _ _ ?f cs) with (f <$> cs). rewrite IH.
  destruct (state_matches states _), (hits a c p); simpl; done.
Qed.

Lemma chain_decision_new A a v cs p :
  chain_decision A ((λ c, counted (in_states [ConntrackStateNew] (rule_match a c noRule)) v) <$> cs) p =
    if (p.(ctState) =? ConntrackStateNew) && existsb (λ c, hits a c p) cs then Some v else None.
Proof.
  etrans; [apply (chain_decision_rules A a (Some [ConntrackStateNew]))|]. cbn [state_matches].
  rewrite (bool_decide_ext _ (p.(ctState) = ConntrackStateNew)) by set_solver. by rewrite bool_decide_eqb.
Qed.

(** Rules without a limit are consulted in any order. *)
Lemma once_unlimited rs p : Forall (λ r, r.(MatchLimit) = None) rs → once rs p.
Proof.
  induction 1 as [|r rs Hr Hrs IH]; constructor; [|done].
  apply Forall_forall. intros r' _ [_ []]. done.
Qed.
Lemma once_cons r rs p : ¬ consults p r → once rs p → once (r :: rs) p.
Proof. intros Hr Hrs. constructor; [|done]. apply Forall_forall. intros r' _ Hc. by destruct Hr. Qed.
Lemma once_app_unlimited rs rs' p :
  Forall (λ r, r.(MatchLimit) = None) rs' → once rs p → once (rs ++ rs') p.
Proof.
  intros Hrs'. induction 1 as [|r rs Hr _ IH]; [by apply once_unlimited|]. simpl. constructor; [|done].
  apply Forall_app. split; [done|]. eapply Forall_impl; [exact Hrs'|]. intros r' Hr' _ [_ Hl]. done.
Qed.

Lemma rules_unlimited a states v cs :
  Forall (λ r, r.(MatchLimit) = None)
    ((λ c, counted (rule_match a c (from_option (λ st, in_states st noRule) noRule states)) v) <$> cs).
Proof. apply Forall_fmap, Forall_true. intros c. simpl. by destruct states. Qed.

Lemma ingress_once docs p : once (buildIngressChain docs).(chainRules) p.
Proof.
  cbn [buildIngressChain chainRules]. rewrite app_assoc. apply once_app_unlimited; [apply (rules_unlimited _ None)|].
  destruct (DefaultActionOf docs); [by apply once_unlimited; repeat constructor|].
  simpl. do 4 (apply once_cons; [by intros [_ []]|]). constructor; [|by repeat constructor].
  apply Forall_singleton. unfold consults, rule_matches. simpl. rewrite !andb_true_r, !Z.eqb_eq.
  intros [-> _] [? _]. done.
Qed.

Lemma prerouting_once docs addresses p : once (buildPreroutingChain docs addresses).(chainRules) p.
Proof.
  apply once_unlimited. cbn [buildPreroutingChain chainRules]. rewrite !Forall_app. split_and!.
  - by repeat constructor.
  - apply (rules_unlimited _ (Some [ConntrackStateNew])).
  - destruct (DefaultActionOf docs); by repeat constructor.
Qed.

(** *** What the chains decide *)

Lemma verdict_trusted A p : name_ok p.(iif) →
  verdict_on A p trusted_rule = if from_trusted p then Some VerdictAccept else None.
Proof.
  intros Hp. unfold verdict_on, rule_matches, trusted_rule. cbn -[trusted from_trusted ifname].
  rewrite !andb_true_r, <- (trusted_names p Hp). done.
Qed.

Lemma some_rule_hits a docs p : docs_ok docs → Forall own_excepts (RulesOf docs) →
  existsb (λ c, hits a c p) (RulesOf docs) = if a then some_rule_denies docs p else some_rule_allows docs p.
Proof.
  unfold docs_ok, some_rule_denies, some_rule_allows, hits. generalize (RulesOf docs). intros cs Hok Hown.
  transitivity (existsb (λ c, concerns c p && (if a then negb (allows_source c p) else allows_source c p)) cs);
    [|by destruct a].
  induction Hok as [|c cs Hc _ IH]; [done|]. apply Forall_cons in Hown as [Ho Hown]. simpl.
  by rewrite IH, in_subnets_allows.
Qed.

(** The rules of a chain that are not about documents. *)
Lemma verdict_states A p states v :
  verdict_on A p (counted (in_states states noRule) v) =
    if bool_decide (p.(ctState) ∈ states) then Some v else None.
Proof. unfold verdict_on, rule_matches. simpl. by rewrite !andb_true_r. Qed.
Lemma verdict_limited A p proto :
  verdict_on A p (counted (limited 5 (on_layer4 (protocol proto) noRule)) VerdictAccept) =
    if (p.(l4proto) =? proto) && A 5 5 then Some VerdictAccept else None.
Proof. unfold verdict_on, rule_matches. simpl. by rewrite !andb_true_r. Qed.
Lemma verdict_reveals A p :
  verdict_on A p (counted (on_layer4 {| Protocol := ProtocolICMP; MatchSourcePort := None; MatchDestinationPort := None;
    MatchICMPType := Some [ICMPTypeTimestampRequest; ICMPTypeTimestampReply;
                           ICMPTypeAddressMaskRequest; ICMPTypeAddressMaskReply] |} noRule) VerdictDrop) =
    if reveals p then Some VerdictDrop else None.
Proof. unfold verdict_on, rule_matches, reveals. simpl. by rewrite !andb_true_r. Qed.
Lemma verdict_drop_new A p proto :
  verdict_on A p (drop_new proto) = if (p.(ctState) =? ConntrackStateNew) && (p.(l4proto) =? proto) then Some VerdictDrop else None.
Proof.
  unfold verdict_on, rule_matches. simpl. rewrite !andb_true_r. f_equal. f_equal.
  by destruct (Z.eqb_spec p.(ctState) ConntrackStateNew); case_bool_decide; set_solver.
Qed.
Lemma verdict_not_mine A p addresses :
  verdict_on A p (counted (to_destination
    {| IncludeSubnets := host_prefix <$> addresses; ExcludeSubnets := []; addrInvert := true |} noRule) VerdictAccept) =
    if for_machine addresses p then None else Some VerdictAccept.
Proof.
  unfold verdict_on, rule_matches, for_machine. simpl. rewrite member_hosts, !andb_true_r. by destruct (existsb _ _).
Qed.

Lemma ingress_chain_decision A docs p : docs_ok docs → Forall own_excepts (RulesOf docs) → name_ok p.(iif) →
  default (buildIngressChain docs).(chainPolicy) (chain_decision A (buildIngressChain docs).(chainRules) p) =
    ingress_decision A docs p.
Proof.
  intros Hok Hown Hp. unfold ingress_decision, buildIngressChain. cbn [chainRules chainPolicy]. rewrite !chain_decision_app.
  rewrite (chain_decision_rules A _ None), some_rule_hits by done. cbn [state_matches chain_decision andb].
  rewrite verdict_trusted by done. destruct (from_trusted p); [done|].
  destruct (DefaultActionOf docs); [by simpl; destruct (some_rule_denies docs p)|].
  cbn [chain_decision app conntrack_rules icmp_rules].
  rewrite !verdict_states, verdict_reveals, !verdict_limited.
  rewrite (bool_decide_ext (p.(ctState) ∈ [ConntrackStateInvalid]) (p.(ctState) = ConntrackStateInvalid)) by set_solver.
  rewrite bool_decide_eqb. unfold is_icmp.
  destruct (bool_decide (_ ∈ _)); [done|]. destruct (_ =? ConntrackStateInvalid); [done|]. destruct (reveals p); [done|].
  destruct (_ =? ProtocolICMP), (_ =? ProtocolICMPv6), (A 5 5), (some_rule_allows docs p); done.
Qed.

Lemma prerouting_chain_decision A docs addresses p :
  docs_ok docs → Forall own_excepts (RulesOf docs) → name_ok p.(iif) →
  default (buildPreroutingChain docs addresses).(chainPolicy)
      (chain_decision A (buildPreroutingChain docs addresses).(chainRules) p) =
    prerouting_decision docs (Some addresses) p.
Proof.
  intros Hok Hown Hp. unfold prerouting_decision, buildPreroutingChain. cbn [chainRules chainPolicy]. rewrite !chain_decision_app.
  rewrite chain_decision_new, some_rule_hits by done. cbn [chain_decision].
  rewrite verdict_trusted by done. destruct (from_trusted p); [done|]. cbn [orb]. fold host_prefix.
  rewrite verdict_not_mine. destruct (for_machine addresses p); [|done]. cbn [orb negb].
  destruct (DefaultActionOf docs); cbn [chain_decision]; rewrite ?verdict_drop_new;
    destruct (ctState p =? _); try done.
  - by destruct (some_rule_denies docs p).
  - by destruct (some_rule_allows docs p), (_ =? ProtocolTCP), (_ =? ProtocolUDP).
Qed.
End rules.

(** ** The firewall *)

Section firewall.
Context {K : Type} `{M : NfMachine K} `{ML : !NfMachineLaws M}.
Context `{Sort : SlicesSort} `{LS : !SlicesSortLaws Sort} `{N : Netipx} `{LN : !NetipxLaws N}.
Context (addSetError : kernel_set → option error) (Itoa : Z → string).
Implicit Types (k : K) (p : packet).

(** A chain that is set up: its verdict is that of its rules, or its policy. *)
Lemma chain_verdict_sets_up table ops name spec k p :
  sets_up table ops name spec → has_sets (table_of ops) ops → carries k p → once spec.(chainRules) p →
  (chain_verdict table name ops k).2 = default spec.(chainPolicy) (chain_decision (allows k) spec.(chainRules) p).
Proof.
  intros [Hc Hr] HS Hk Honce. unfold chain_verdict. rewrite Hc.
  by destruct (Hr _ HS k p Hk Honce) as [k' ->].
Qed.

Lemma idle_decisions A docs addresses p : DefaultActionOf docs = DefaultActionAccept → RulesOf docs = [] →
  ingress_decision A docs p = VerdictAccept ∧ prerouting_decision docs addresses p = VerdictAccept.
Proof.
  intros Ha Hr. unfold ingress_decision, prerouting_decision, some_rule_denies. rewrite Ha, Hr. simpl.
  split; [by case_match|]. destruct addresses; [by case_match|done].
Qed.

(** C2: of valid documents the controllers make a batch, whatever tables and chains the
    kernel lists; it deletes the chains the kernel has in the table, and once it is in the
    kernel, each chain gives every packet the verdict the documents give it, where an entry
    allows its subnet without what is excluded from it.  The documents are such that no
    entry allows what is excluded from another one, that the subnets keep clear of the last
    address of a family, as do the addresses of the node, and that no rule has ports from
    the first to the last; the sets can be encoded, and there are fewer than 2^32. *)
Theorem firewall_decides TableName ipv4Tables inetTables existing docs addresses :
  (∀ s, addSetError s = None) → docs_ok docs → Forall own_excepts (RulesOf docs) →
  from_option addresses_ok True addresses →
  let table := TableNameOf TableName in
  ∃ ops, Run addSetError Itoa TableName (inr ipv4Tables) (inr inetTables)
           (inr (ConfigRun (Some docs) addresses)) (inr existing) = inr ops ∧
    (∀ c, (table, c) ∈ existing → DelChain table c ∈ ops) ∧
    (zlen (set_ids ops) < 2 ^ 32 → ∀ k p, carries k p → name_ok p.(iif) →
     (chain_verdict table IngressChainName ops k).2 = ingress_decision (allows k) docs p ∧
     (chain_verdict table PreroutingChainName ops k).2 = prerouting_decision docs addresses p).
Proof.
  intros Hadd Hdocs Hown Haddr table.
  pose proof (ConfigRun_ok docs addresses Hdocs Haddr) as Hok.
  destruct (Run_sets_up addSetError Itoa TableName ipv4Tables inetTables _ existing Hadd Hok)
    as (ops & Hrun & Hdel & Hnone & Hall).
  exists ops. split_and!; [done..|]. intros Hlt k p Hk Hp. fold table in Hnone, Hall. specialize (Hall Hlt).
  assert (Hmissing : ∀ name, name ∉ (ConfigRun (Some docs) addresses).*1 →
    (chain_verdict table name ops k).2 = VerdictAccept).
  { intros name Hname. unfold chain_verdict. by rewrite Hnone. }
  clear Hnone. pose proof (ingress_chain_decision (allows k) docs p Hdocs Hown Hp) as Hing.
  pose proof (λ addresses, prerouting_chain_decision (allows k) docs addresses p Hdocs Hown Hp) as Hpre.
  unfold ConfigRun in *. case_bool_decide as Ha; [destruct (RulesOf docs) eqn:Hr|].
  { destruct (idle_decisions (allows k) docs addresses p Ha Hr) as [-> ->].
    split; apply Hmissing; apply not_elem_of_nil. }
  all: cbn [andb] in *; (split;
    [destruct (Hall IngressChainName (buildIngressChain docs) ltac:(left)) as [Hset HS];
     rewrite (chain_verdict_sets_up _ _ _ _ _ p Hset HS Hk) by apply ingress_once;
     by apply Hing|]);
    (destruct addresses as [addresses|]; [|by apply Hmissing; set_solver]);
    destruct (Hall PreroutingChainName (buildPreroutingChain docs addresses) ltac:(right; left)) as [Hset HS];
    rewrite (chain_verdict_sets_up _ _ _ _ _ p Hset HS Hk) by apply prerouting_once;
    by apply Hpre.
Qed.
End firewall.
