(* ===== verification/FirewallExamples.v ===== *)
(** * The firewall on concrete packets

    Witnesses of the theorems, at the instances of the interfaces, and what the code does
    outside of what they promise. *)

From stdpp Require Import sorting.
From S2P Require Import Prelude Bytes Errors Netip NfTables NfMachine NfCorrect NfTests NfCompile Firewall.
From S2P Require Import FirewallBatch FirewallChains FirewallValid FirewallSafety.

(** ** Sorting *)

Definition not_after {A} (cmp : A → A → Z) : relation A := λ a b, cmp a b ≤ 0.
#[export] Instance not_after_dec {A} (cmp : A → A → Z) : RelDecision (not_after cmp).
Proof. intros a b. unfold Decision, not_after. apply Z.le_dec. Defined.

#[export] Instance merge_SlicesSort : SlicesSort := {| SortFunc A cmp := merge_sort (not_after cmp) |}.

#[export] Instance merge_SlicesSortLaws : SlicesSortLaws merge_SlicesSort.
Proof.
  split; intros A; simpl.
  - intros cmp l. apply merge_sort_Permutation.
  - intros key l. set (cmp := λ a b, cmp_Compare (key a) (key b)).
    assert (Hiff : ∀ a b, not_after cmp a b ↔ key a ≤ key b).
    { intros a b. unfold not_after, cmp. destruct (cmp_Compare_spec (key a) (key b)) as [[? ->]|[[? ->]|[? ->]]]; lia. }
    assert (Hs : StronglySorted (not_after cmp) (merge_sort (not_after cmp) l)).
    { apply StronglySorted_merge_sort.
      - intros a b c. rewrite !Hiff. lia.
      - intros a b. rewrite !Hiff. lia. }
    induction Hs as [|a l' _ IH Hf]; constructor; [done|]. eapply Forall_impl; [exact Hf|]. intros b. by rewrite Hiff.
Qed.

(** ** Sets of addresses: intervals of each family *)

Definition prefix_interval (p : Prefix) : interval :=
  let n := BitLen p.(prefixAddr).(family) - p.(prefixBits) in
  let lo := Z.shiftl (Z.shiftr p.(prefixAddr).(value) n) n in (lo, lo + 2 ^ n - 1).

Lemma prefix_interval_spec p a : prefix_IsValid p = true → p.(prefixAddr).(family) = a.(family) →
  Contains p a = inside a.(value) (prefix_interval p).
Proof.
  intros [H0 Hn]%andb_prop Hf. apply Z.leb_le in H0, Hn. unfold Contains, prefix_interval. rewrite Hf, bool_decide_true in * by done.
  set (n := BitLen (family a) - prefixBits p) in *. assert (0 ≤ n) by lia. cbn [andb].
  rewrite !Z.shiftr_div_pow2, Z.shiftl_mul_pow2 by done. assert (0 < 2 ^ n) by (by apply Z.pow_pos_nonneg).
  apply eq_bool_prop_intro. rewrite !Is_true_true, Z.eqb_eq, inside_iff. cbn [fst snd].
  set (q := value (prefixAddr p) / 2 ^ n). split.
  - intros ->. pose proof (Z.div_mod (value a) (2 ^ n)). pose proof (Z.mod_pos_bound (value a) (2 ^ n)). lia.
  - intros Hin. apply (Z.div_unique_pos (value a) (2 ^ n) q (value a - q * 2 ^ n)); lia.
Qed.

(** What is left of [j] without [i]. *)
Definition cut (i j : interval) : list interval :=
  filter (λ k, k.1 ≤ k.2) [(j.1, Z.min j.2 (i.1 - 1)); (Z.max j.1 (i.2 + 1), j.2)].
(** Add an interval to separated ones. *)
Fixpoint add (i : interval) (l : list interval) : list interval :=
  match l with
  | [] => [i]
  | j :: l =>
      if i.2 + 1 <? j.1 then i :: j :: l else
      if j.2 + 1 <? i.1 then j :: add i l else add (Z.min i.1 j.1, Z.max i.2 j.2) l
  end.
Definition join (l : list interval) : list interval := foldr add [] l.

Lemma covers_app l l' x : covers (l ++ l') x = covers l x || covers l' x.
Proof. apply existsb_app. Qed.

Lemma covers_cut i j x : i.1 ≤ i.2 → covers (cut i j) x = inside x j && negb (inside x i).
Proof.
  intros Hi. apply eq_bool_prop_intro. rewrite Is_true_true, covers_iff, andb_True, negb_True, !Is_true_true, !inside_iff.
  unfold cut. setoid_rewrite list_elem_of_filter. split.
  - intros (k & [Hk [->|[->|[]%elem_of_nil]%elem_of_cons]%elem_of_cons] & Hx); simpl in *; lia.
  - intros [Hj Hni]. destruct (decide (x < i.1)).
    + exists (j.1, Z.min j.2 (i.1 - 1)). simpl. split; [split; [lia|left]|lia].
    + exists (Z.max j.1 (i.2 + 1), j.2). simpl. split; [split; [lia|right; left]|lia].
Qed.

Lemma add_spec i l : i.1 ≤ i.2 → separated l →
  separated (add i l) ∧ (∀ x, covers (add i l) x = inside x i || covers l x) ∧
  (∀ m, Forall (λ j, m ≤ j.1) (i :: l) → Forall (λ j, m ≤ j.1) (add i l)) ∧
  (∀ M, Forall (λ j, j.2 ≤ M) (i :: l) → Forall (λ j, j.2 ≤ M) (add i l)).
Proof.
  revert i. induction l as [|j l IH]; intros i Hi Hl; cbn [add].
  { split_and!; [|done..]. apply separated_cons. split_and!; [done|constructor|done]. }
  apply separated_cons in Hl as (Hj & Hbefore & Hl).
  destruct (Z.ltb_spec (i.2 + 1) j.1) as [Hlt|Hge]; [|destruct (Z.ltb_spec (j.2 + 1) i.1) as [Hlt|Hge']].
  - split_and!; [|done..]. apply separated_cons. split_and!; [done| |by apply separated_cons].
    constructor; [done|]. eapply Forall_impl; [exact Hbefore|]. unfold before. lia.
  - destruct (IH i Hi Hl) as (Hsep & Hcov & Hlo & Hhi). split_and!.
    + apply separated_cons. split_and!; [done| |done]. eapply Forall_impl; [apply (Hlo (j.2 + 2))|].
      * constructor; [lia|]. eapply Forall_impl; [exact Hbefore|]. unfold before. lia.
      * unfold before. simpl. lia.
    + intros x. cbn [covers existsb]. fold (covers (add i l) x). rewrite Hcov. by destruct (inside x i), (inside x j).
    + intros m [? [? ?]%Forall_cons]%Forall_cons. constructor; [done|]. apply Hlo. by constructor.
    + intros m [? [? ?]%Forall_cons]%Forall_cons. constructor; [done|]. apply Hhi. by constructor.
  - destruct (IH (Z.min i.1 j.1, Z.max i.2 j.2)) as (Hsep & Hcov & Hlo & Hhi); [simpl; lia|done|]. split_and!; [done| | |].
    + intros x. rewrite Hcov. cbn [covers existsb]. rewrite orb_assoc. f_equal.
      apply eq_bool_prop_intro. rewrite orb_True, !Is_true_true, !inside_iff. simpl. lia.
    + intros m [? [? ?]%Forall_cons]%Forall_cons. apply Hlo. constructor; [simpl; lia|done].
    + intros m [? [? ?]%Forall_cons]%Forall_cons. apply Hhi. constructor; [simpl; lia|done].
Qed.

(** The intervals that are not empty and within the family, joined. *)
Definition proper (f : Family) (i : interval) : Prop := 0 ≤ i.1 ≤ i.2 ∧ i.2 ≤ last_value f.
#[export] Instance proper_dec f i : Decision (proper f i).
Proof. unfold proper. apply _. Defined.

Lemma join_spec f l : Forall (proper f) l →
  separated (join l) ∧ (∀ x, covers (join l) x = covers l x) ∧ Forall (proper f) (join l).
Proof.
  induction 1 as [|i l (Hi & Hf) _ (Hsep & Hcov & Hall)]; [by split; [apply separated_nil|]|]. simpl.
  destruct (add_spec i (join l)) as (Hsep' & Hcov' & Hlo & Hhi); [lia|done|]. split_and!; [done| |].
  - intros x. rewrite Hcov', Hcov. done.
  - destruct Hsep' as [_ Hord].
    assert (H0 : Forall (λ j, 0 ≤ j.1) (add i (join l))).
    { apply Hlo. constructor; [lia|]. eapply Forall_impl; [exact Hall|]. intros j [? ?]. lia. }
    assert (HM : Forall (λ j, j.2 ≤ last_value f) (add i (join l))).
    { apply Hhi. constructor; [lia|]. eapply Forall_impl; [exact Hall|]. intros j [? ?]. lia. }
    rewrite !Forall_forall in *. intros j Hj. specialize (H0 j Hj). specialize (HM j Hj). specialize (Hord j Hj).
    unfold proper. simpl in *. lia.
Qed.

Record spans := { spans4 : list interval; spans6 : list interval }.
Definition part (f : Family) (s : spans) : list interval := match f with IPv4 => s.(spans4) | IPv6 => s.(spans6) end.
Definition on_part (f : Family) (g : list interval → list interval) (s : spans) : spans :=
  match f with
  | IPv4 => {| spans4 := g s.(spans4); spans6 := s.(spans6) |}
  | IPv6 => {| spans4 := s.(spans4); spans6 := g s.(spans6) |}
  end.
Definition known (p : Prefix) : bool :=
  prefix_IsValid p && bool_decide (0 ≤ p.(prefixAddr).(value) ≤ last_value p.(prefixAddr).(family)).
Definition joined (f : Family) (s : spans) : list interval := join (filter (proper f) (part f s)).
Definition ranges_in (f : Family) (l : list interval) : list IPRange :=
  (λ i, {| From := {| family := f; value := i.1 |}; To := {| family := f; value := i.2 |} |}) <$> l.

#[export] Instance spans_Netipx : Netipx := {|
  IPSetBuilder := spans; IPSet := spans;
  zeroBuilder := {| spans4 := []; spans6 := [] |};
  AddPrefix p s := if known p then on_part p.(prefixAddr).(family) (cons (prefix_interval p)) s else s;
  RemovePrefix p s :=
    if known p then on_part p.(prefixAddr).(family) (flat_map (cut (prefix_interval p))) s else s;
  builder_IPSet s := inr s;
  Ranges s := ranges_in IPv4 (joined IPv4 s) ++ ranges_in IPv6 (joined IPv6 s)
|}.

Lemma list_filter_all {A} (P : A → Prop) `{∀ x, Decision (P x)} l : Forall P l → filter P l = l.
Proof. induction 1; [done|]. rewrite filter_cons_True by done. by f_equal. Qed.

Lemma part_on_part f f' g s : part f (on_part f' g s) = if bool_decide (f = f') then g (part f s) else part f s.
Proof. by destruct f, f'. Qed.

Lemma of_family_ranges f s : of_family f (Ranges (Netipx := spans_Netipx) s) = ranges_in f (joined f s).
Proof.
  unfold of_family. simpl. rewrite filter_app.
  assert (Hself : ∀ g l, filter (λ r, r.(From).(family) = g) (ranges_in g l) = ranges_in g l).
  { intros g l. apply list_filter_all. apply Forall_fmap, Forall_true. done. }
  assert (Hother : ∀ g h l, g ≠ h → filter (λ r, r.(From).(family) = g) (ranges_in h l) = []).
  { intros g h l Hne. induction l as [|i l IH]; [done|]. unfold ranges_in in *. simpl.
    rewrite filter_cons_False; [done|]. simpl. congruence. }
  destruct f; rewrite Hself, Hother by done; by rewrite ?app_nil_r.
Qed.

Lemma bounds_ranges_in f l : bounds <$> ranges_in f l = l.
Proof.
  unfold ranges_in. rewrite <- list_fmap_compose. rewrite (list_fmap_ext _ id); [apply list_fmap_id|].
  by intros ? [].
Qed.

Lemma joined_spec f s :
  separated (joined f s) ∧ (∀ x, covers (joined f s) x = covers (filter (proper f) (part f s)) x) ∧
  Forall (proper f) (joined f s).
Proof. apply join_spec, Forall_forall. by intros i [? _]%list_elem_of_filter. Qed.

Lemma prefix_interval_ordered p : prefix_IsValid p = true → (prefix_interval p).1 ≤ (prefix_interval p).2.
Proof.
  intros [H0 Hn]%andb_prop. apply Z.leb_le in H0, Hn. simpl.
  pose proof (Z.pow_pos_nonneg 2 (BitLen (family (prefixAddr p)) - prefixBits p)). lia.
Qed.

Lemma known_iff p : known p = true ↔ prefix_IsValid p = true ∧ valid_addr p.(prefixAddr).
Proof. unfold known. by rewrite andb_true_iff, bool_decide_eq_true. Qed.

Lemma covers_flat_cut i l x : i.1 ≤ i.2 → covers (flat_map (cut i) l) x = covers l x && negb (inside x i).
Proof.
  intros Hi. induction l as [|j l IH]; [done|]. cbn [flat_map]. rewrite covers_app, IH, covers_cut by done.
  change (covers (j :: l) x) with (inside x j || covers l x).
  by destruct (inside x j), (inside x i), (covers l x).
Qed.

Lemma proper_prefix p : known p = true → proper p.(prefixAddr).(family) (prefix_interval p).
Proof.
  intros [Hv Ha]%known_iff. pose proof (prefix_interval_ordered p Hv) as Hord.
  apply andb_prop in Hv as [H0 Hn]. apply Z.leb_le in H0, Hn. unfold valid_addr in Ha. unfold proper.
  split; [split; [|done]|].
  - unfold prefix_interval. cbn [fst]. rewrite Z.shiftl_nonneg, Z.shiftr_nonneg. lia.
  - unfold prefix_interval. cbn [snd]. set (b := BitLen _) in *. set (n := b - prefixBits p).
    assert (0 ≤ n ≤ b) by lia. change (last_value _) with (2 ^ b - 1) in *.
    rewrite Z.shiftr_div_pow2, Z.shiftl_mul_pow2 by lia.
    assert (Hp : 2 ^ b = 2 ^ (b - n) * 2 ^ n) by (rewrite <- Z.pow_add_r by lia; f_equal; lia).
    assert (0 < 2 ^ n) by (apply Z.pow_pos_nonneg; lia). set (v := value _) in *.
    assert (v / 2 ^ n < 2 ^ (b - n)) by (apply Z.div_lt_upper_bound; lia). nia.
Qed.

Lemma proper_cut f i j : proper f j → Forall (proper f) (cut i j).
Proof.
  intros [Hj HM]. apply Forall_forall. intros k [Hk Hin]%list_elem_of_filter. unfold proper.
  rewrite !elem_of_cons, elem_of_nil in Hin. destruct Hin as [->|[->|[]]]; simpl in *; lia.
Qed.

#[export] Instance spans_NetipxLaws : NetipxLaws spans_Netipx.
Proof.
  refine {| in_builder b a := covers (part a.(family) b) a.(value);
            faultless b := ∀ f, Forall (proper f) (part f b) |}.
  - by intros [[] v].
  - by intros [].
  - intros p b a Hv Hp Ha. simpl. rewrite (proj2 (known_iff p)) by done. rewrite part_on_part.
    case_bool_decide as Hf; [by rewrite prefix_interval_spec|]. unfold Contains.
    by rewrite bool_decide_false by congruence.
  - intros p b _ Hb f. simpl. destruct (known p) eqn:Hk; [|done]. rewrite part_on_part.
    case_bool_decide as Hf; [|done]. subst f. constructor; [by apply proper_prefix|done].
  - intros p b a Hv Hp Ha. simpl. rewrite (proj2 (known_iff p)) by done. rewrite part_on_part.
    case_bool_decide as Hf.
    + rewrite prefix_interval_spec by done. by apply covers_flat_cut, prefix_interval_ordered.
    + unfold Contains. rewrite (bool_decide_false (family (prefixAddr p) = family a)) by congruence. simpl.
      by rewrite andb_true_r.
  - intros p b _ Hb f. simpl. destruct (known p) eqn:Hk; [|done]. rewrite part_on_part.
    case_bool_decide as Hf; [|done]. specialize (Hb f). rewrite !Forall_forall in *.
    intros k (j & Hj & Hk')%list_elem_of_In%in_flat_map. apply list_elem_of_In in Hj, Hk'.
    pose proof (proper_cut f (prefix_interval p) j (Hb j Hj)) as Hcut. rewrite Forall_forall in Hcut. auto.
  - intros b _. by exists b.
  - intros b s [= <-]. simpl. rewrite Forall_app. unfold ranges_in. rewrite !Forall_fmap.
    assert (Hall : ∀ f, Forall (valid_range ∘ (λ i, {| From := {| family := f; value := i.1 |};
      To := {| family := f; value := i.2 |} |})) (joined f b)); [|by split].
    intros f. eapply Forall_impl; [apply joined_spec|]. intros i [[? ?] ?]. repeat split; simpl in *; lia.
  - intros b s f [= <-]. rewrite of_family_ranges, bounds_ranges_in. apply joined_spec.
  - intros b s a [= <-] Hb Ha. rewrite of_family_ranges, bounds_ranges_in.
    destruct (joined_spec (family a) b) as (_ & -> & _). by rewrite list_filter_all.
Defined.

(** ** An evaluation of packets *)

Record evaluation := {
  eRegs : Z → list Z;
  eLoad : source → option (list Z);
  eAllows : Z → Z → bool
}.
Definition set_reg (r : Z) (v : list Z) (k : evaluation) : evaluation :=
  {| eRegs := λ r', if r' =? r then v else k.(eRegs) r'; eLoad := k.(eLoad); eAllows := k.(eAllows) |}.
Definition set_mark (v : list Z) (k : evaluation) : evaluation :=
  {| eRegs := k.(eRegs); eAllows := k.(eAllows);
     eLoad := λ src, match src with FromMeta MetaKeyMARK => Some v | _ => k.(eLoad) src end |}.

(** The number big-endian bytes stand for. *)
Fixpoint be_value (l : list Z) : Z :=
  match l with [] => 0 | b :: l => b * 2 ^ (8 * zlen l) + be_value l end.

Lemma be_value_be n v : be_value (be n v) = v mod 2 ^ (8 * Z.of_nat n).
Proof.
  induction n as [|n IH]; [simpl; by rewrite Z.mod_1_r|]. cbn [be be_value]. rewrite IH.
  replace (zlen (be n v)) with (Z.of_nat n) by (unfold zlen; by rewrite length_be).
  replace (8 * Z.of_nat (S n)) with (8 * Z.of_nat n + 8) by lia.
  set (p := 2 ^ (8 * Z.of_nat n)). assert (0 < p) by (apply Z.pow_pos_nonneg; lia).
  rewrite Z.pow_add_r by lia. fold p. rewrite Z.rem_mul_r by (simpl; lia). unfold u8. simpl (2 ^ 8). lia.
Qed.

Definition in_intervals (es : list SetElement) (x : Z) : bool :=
  existsb (λ e, negb e.(IntervalEnd) && (be_value e.(Key) <=? x) &&
    negb (existsb (λ e', e'.(IntervalEnd) && (be_value e.(Key) <? be_value e'.(Key)) && (be_value e'.(Key) <=? x)) es)) es.

Definition load_step (src : source) (r : Z) (k : evaluation) : evaluation * flow :=
  match k.(eLoad) src with Some v => (set_reg r v k, Next_) | None => (k, Break) end.

#[export] Instance evaluation_NfMachine : NfMachine evaluation := {|
  step S e k :=
    match e with
    | Meta key r false => load_step (FromMeta key) r k
    | Meta MetaKeyMARK r true => (set_mark (k.(eRegs) r) k, Next_)
    | Meta _ _ true => (k, Break)
    | Ct r => load_step FromCt r k
    | Payload r base off len => load_step (FromPayload base off len) r k
    | Cmp CmpOpEq r d => (k, if bool_decide (k.(eRegs) r = d) then Next_ else Break)
    | Cmp CmpOpNeq r d => (k, if bool_decide (k.(eRegs) r = d) then Break else Next_)
    | Cmp CmpOpGt r d => (k, if be_value d <? be_value (k.(eRegs) r) then Next_ else Break)
    | Bitwise r r' _ mask xor => (set_reg r' (bitwise (k.(eRegs) r) mask xor) k, Next_)
    | Lookup r i _ invert =>
        match S i with
        | Some s =>
            let found := if s.(ksInterval) then in_intervals s.(ksElements) (be_value (k.(eRegs) r))
                         else bool_decide (k.(eRegs) r ∈ Key <$> s.(ksElements)) in
            (k, if xorb invert found then Next_ else Break)
        | None => (k, Break)
        end
    | Immediate r d => (set_reg r d k, Next_)
    | Limit rate burst => (k, if k.(eAllows) rate burst then Next_ else Break)
    | Counter => (k, Next_)
    | Verdict v => (k, Stop v)
    | ExthdrLoad _ _ _ _ | ExthdrWrite _ _ _ _ => (k, Break)
    end;
  reg := eRegs; load := eLoad; allows := eAllows;
  contains s x := if s.(ksInterval) then in_intervals s.(ksElements) (be_value x)
                  else bool_decide (x ∈ Key <$> s.(ksElements))
|}.

Lemma elem_of_interval_ends n l e : e ∈ flat_map (interval_ends n) l ↔
  ∃ i, i ∈ l ∧ (e = {| Key := be n i.1; IntervalEnd := false |} ∨ e = {| Key := be n (i.2 + 1); IntervalEnd := true |}).
Proof.
  rewrite list_elem_of_In, in_flat_map. f_equiv. intros i. rewrite <- !list_elem_of_In.
  unfold interval_ends. rewrite !elem_of_cons, elem_of_nil. tauto.
Qed.

Lemma separated_apart l i j : separated l → i ∈ l → j ∈ l → i.1 ≤ i.2 ∧ (i = j ∨ before i j ∨ before j i).
Proof.
  intros [Hs Hord] Hi Hj. rewrite Forall_forall in Hord. split; [by apply Hord|]. clear Hord.
  induction Hs as [|a l _ IH Hb]; [by apply elem_of_nil in Hi|]. rewrite Forall_forall in Hb.
  apply elem_of_cons in Hi as [->|Hi], Hj as [->|Hj]; auto.
Qed.

Lemma in_intervals_covers n l x : separated l → fit n l → 0 ≤ x < 2 ^ (8 * Z.of_nat n) →
  in_intervals (flat_map (interval_ends n) l) x = covers l x.
Proof.
  intros Hs [Hw _] Hx. rewrite Forall_forall in Hw.
  assert (Hstart : ∀ i, i ∈ l → be_value (be n i.1) = i.1).
  { intros i Hi. specialize (Hw i Hi). destruct (separated_apart l i i Hs Hi Hi). cbv beta in *.
    rewrite be_value_be, Z.mod_small; lia. }
  assert (Hend : ∀ i, i ∈ l → be_value (be n (i.2 + 1)) = i.2 + 1 ∨
    be_value (be n (i.2 + 1)) = 0 ∧ i.2 = 2 ^ (8 * Z.of_nat n) - 1).
  { intros i Hi. specialize (Hw i Hi). destruct (separated_apart l i i Hs Hi Hi). cbv beta in *. rewrite be_value_be.
    destruct (decide (i.2 + 1 = 2 ^ (8 * Z.of_nat n))) as [Heq|]; [right|left].
    - split; [rewrite Heq; apply Z_mod_same_full|lia].
    - apply Z.mod_small. lia. }
  apply eq_bool_prop_intro. rewrite !Is_true_true, covers_iff. unfold in_intervals. rewrite existsb_exists.
  setoid_rewrite <- list_elem_of_In. setoid_rewrite elem_of_interval_ends. split.
  - intros (e & (i & Hi & [->| ->]) & Ht); simpl in Ht; [|done]. rewrite Hstart in Ht by done.
    apply andb_prop in Ht as [Hle%Z.leb_le Hno%negb_true_iff]. exists i. split; [done|]. split; [done|].
    destruct (Hend i Hi) as [He|[_ ->]]; [|lia]. apply Z.nlt_ge. intros Hlt.
    apply not_true_iff_false in Hno. apply Hno. apply existsb_exists.
    exists {| Key := be n (i.2 + 1); IntervalEnd := true |}. split.
    + apply list_elem_of_In, elem_of_interval_ends. exists i. auto.
    + simpl. rewrite He. destruct (separated_apart l i i Hs Hi Hi).
      apply andb_true_intro; split; [apply Z.ltb_lt|apply Z.leb_le]; lia.
  - intros (i & Hi & Hix). exists {| Key := be n i.1; IntervalEnd := false |}. split; [exists i; auto|]. simpl.
    rewrite Hstart by done. apply andb_true_intro. split; [apply Z.leb_le; lia|]. apply negb_true_iff, not_true_iff_false.
    rewrite existsb_exists. intros (e & (j & Hj & [->| ->])%list_elem_of_In%elem_of_interval_ends & Ht); [done|].
    simpl in Ht. apply andb_prop in Ht as [Hlt%Z.ltb_lt Hle%Z.leb_le]. specialize (Hw i Hi). cbv beta in Hw.
    destruct (Hend j Hj) as [He|[He _]]; rewrite He in *; [|lia].
    destruct (separated_apart l j i Hs Hj Hi) as [Hord [->|[Hb|Hb]]]; unfold before in *; lia.
Qed.

#[export] Instance evaluation_NfMachineLaws : NfMachineLaws evaluation_NfMachine.
Proof.
  assert (Hload : ∀ src r k, loads src r k (load_step src r k)).
  { intros src r k. unfold loads, load_step. simpl. destruct (eLoad k src); simpl; [|done]. by rewrite Z.eqb_refl. }
  split; intros; try (simpl; apply Hload); try (simpl; done).
  - destruct key; apply Hload.
  - eexists. split; [done|]. split; [done|]. simpl. by rewrite Z.eqb_refl.
  - simpl. by rewrite H.
  - by eexists.
  - eexists. split; [done|]. split; [done|]. split; [|done]. by intros [[]| |] Hne.
  - by eexists.
  - by destruct e.
  - simpl. rewrite be_value_be, Z.mod_small by done. by apply in_intervals_covers.
  - simpl. f_equal. apply bool_decide_ext. rewrite <- list_fmap_compose.
    rewrite (list_fmap_ext _ id); [by rewrite list_fmap_id|done].
Qed.

(** A packet as it comes in. *)
Definition load_packet (p : packet) (src : source) : option (list Z) :=
  let f := p.(NfMachine.src).(family) in
  match src with
  | FromMeta MetaKeyNFPROTO => Some [header_byte f]
  | FromMeta MetaKeyIIFNAME => Some (ifname p.(iif))
  | FromMeta MetaKeyOIFNAME => Some (ifname p.(oif))
  | FromMeta MetaKeyMARK => Some (le32 p.(mark))
  | FromMeta MetaKeyL4PROTO => Some [p.(l4proto)]
  | FromCt => Some (le32 p.(ctState))
  | FromPayload PayloadBaseNetworkHeader off len =>
      if negb (len =? Z.of_nat (address_bytes f)) then None else
      if off =? src_off f then Some (MarshalBinary (Some p.(NfMachine.src))) else
      if off =? dst_off f then Some (MarshalBinary (Some p.(dst))) else None
  | FromPayload PayloadBaseTransportHeader off len =>
      if off + len <=? zlen p.(transport) then Some (ztake len (zdrop off p.(transport))) else None
  end.
Definition incoming (A : Z → Z → bool) (p : packet) : evaluation :=
  {| eRegs := λ _, []; eLoad := load_packet p; eAllows := A |}.

Lemma incoming_carries A p : packet_ok p → carries (incoming A p) p.
Proof.
  intros Hp. split; try done; simpl; by destruct (family (NfMachine.src p)).
Qed.

(** ** The theorems *)

Definition ip4 (a b c d : Z) : Addr := {| family := IPv4; value := ((a * 256 + b) * 256 + c) * 256 + d |}.
Definition net4 (a b c d bits : Z) : Prefix := PrefixFrom (ip4 a b c d) bits.
Definition ip6 (v : Z) : Addr := {| family := IPv6; value := v |}.

Definition tcp_to (port : Z) : list Z := [200; 1] ++ be 2 port ++ replicate 16 0.
Definition arriving (name : string) (from to : Addr) (state proto : Z) (t : list Z) : packet :=
  {| iif := name; oif := ""; mark := 0; ctState := state; src := from; dst := to; l4proto := proto; transport := t |}.

(** ** A firewall that blocks *)

Definition demo_rule : RuleConfigV1Alpha1 := {|
  MetaName := "ingress-apid";
  Ports := [{| Lo := 50000; Hi := 50001 |}; {| Lo := 6443; Hi := 6443 |}];
  ruleProtocol := ProtocolTCP;
  Ingress := [{| Subnet := net4 192 168 0 0 16; Except := Some (net4 192 168 5 0 24) |}]
|}.
Definition demo_docs : list Document := [DefaultActionConfigV1Alpha1 DefaultActionBlock; RuleConfig demo_rule].
Definition demo_addresses : list Prefix := [net4 10 5 0 2 24].
Definition unlimited (rate burst : Z) : bool := true.
Definition demo_batch : error + list operation :=
  Run (λ _, None) (λ _, ""%string) "" (inr []) (inr []) (inr (ConfigRun (Some demo_docs) (Some demo_addresses)))
    (inr [("talos", "old")]%string).
Definition to_port (from : Addr) (port : Z) : packet :=
  arriving "eth0" from (ip4 10 5 0 2) ConntrackStateNew ProtocolTCP (tcp_to port).

Lemma tcp_to_ok port : Forall byte_ok (tcp_to port).
Proof.
  unfold tcp_to. rewrite !Forall_app. split_and!; [by repeat constructor; vm_compute| |by repeat constructor; vm_compute].
  unfold be. repeat constructor; unfold byte_ok, u8; apply Z.mod_pos_bound; lia.
Qed.

Lemma to_port_ok from port : valid_addr from → from.(family) = IPv4 → packet_ok (to_port from port).
Proof.
  intros [H0 Hl] Hf. unfold packet_ok, valid_addr. cbn.
  split_and!; try done; [by left|apply tcp_to_ok].
Qed.

Lemma demo_docs_ok : docs_ok demo_docs.
Proof.
  apply Forall_singleton. split_and!.
  - split_and!; [by repeat constructor|done..|]. by repeat constructor.
  - by vm_compute.
  - intros [(i & Hi & Hi0) _]. apply list_elem_of_In in Hi. destruct Hi as [<-|[<-|[]]]; done.
  - intros []; left; by vm_compute.
Qed.

Lemma demo_own_excepts : Forall own_excepts (RulesOf demo_docs).
Proof.
  apply Forall_singleton. intros rule rule' e a Hr%list_elem_of_In Hr'%list_elem_of_In He Hc.
  destruct Hr as [<-|[]], Hr' as [<-|[]]. unfold entry_allows. rewrite He. simpl. by rewrite Hc, andb_false_r.
Qed.

(** The controllers make a batch for it, and once it is programmed a new connection to a
    listed port gets through from the subnet only, except from its hole. *)
Lemma firewall_decides_witness :
  ∃ ops, demo_batch = inr ops ∧ DelChain "talos" "old" ∈ ops ∧ zlen (set_ids ops) = 9 ∧
    (∀ from port, valid_addr from → from.(family) = IPv4 →
     let k := incoming unlimited (to_port from port) in
     (chain_verdict "talos" IngressChainName ops k).2 =
       ingress_decision unlimited demo_docs (to_port from port) ∧
     (chain_verdict "talos" PreroutingChainName ops k).2 =
       prerouting_decision demo_docs (Some demo_addresses) (to_port from port)) ∧
    ingress_decision unlimited demo_docs (to_port (ip4 192 168 4 1) 50001) = VerdictAccept ∧
    ingress_decision unlimited demo_docs (to_port (ip4 192 168 5 1) 50001) = VerdictDrop ∧
    ingress_decision unlimited demo_docs (to_port (ip4 192 168 4 1) 50002) = VerdictDrop ∧
    prerouting_decision demo_docs (Some demo_addresses) (to_port (ip4 10 5 0 3) 6443) = VerdictDrop.
Proof.
  destruct (firewall_decides (K := evaluation) (λ _, None) (λ _, ""%string) "" [] [] [("talos", "old")]%string
    demo_docs (Some demo_addresses)) as (ops & Hrun & Hdel & Hall);
    [done|apply demo_docs_ok|apply demo_own_excepts|by apply Forall_singleton|].
  exists ops. split; [exact Hrun|]. split; [by apply Hdel; left|].
  assert (Hnine : zlen (set_ids ops) = 9).
  { assert (Hb : from_option (λ ops, zlen (set_ids ops)) 0 (match demo_batch with inr ops => Some ops | _ => None end) = 9)
      by by vm_compute. unfold demo_batch in Hb. rewrite Hrun in Hb. exact Hb. }
  split; [exact Hnine|]. split; [|by vm_compute].
  intros from port Hv Hf. apply (Hall ltac:(lia) _ _ (incoming_carries unlimited _ (to_port_ok from port Hv Hf))).
  split; [by vm_compute; lia|by repeat constructor].
Defined.

(** ** A single rule *)

Definition tagging_rule : NfTablesRule := {|
  MatchIIfName := Some {| InterfaceNames := ["eth0"%string]; Operator := OperatorNotEqual |};
  MatchOIfName := None; MatchMark := Some {| markMask := 0xff; markXor := 0; markValue := 0 |};
  MatchConntrackState := None;
  MatchSourceAddress := Some {| IncludeSubnets := [net4 10 0 0 0 8; PrefixFrom (ip6 (2 ^ 120)) 16];
                                ExcludeSubnets := [net4 10 1 0 0 16]; addrInvert := true |};
  MatchDestinationAddress := None;
  MatchLayer4 := Some {| Protocol := ProtocolUDP; MatchSourcePort := None;
    MatchDestinationPort := Some [{| Lo := 54; Hi := 60 |}; {| Lo := 53; Hi := 53 |}]; MatchICMPType := None |};
  MatchLimit := Some 10; ClampMSS := None; SetMark := Some {| markMask := 0xffff; markXor := 0x10000; markValue := 0 |};
  AnonCounter := false; ruleVerdict := Some VerdictDrop |}.

Lemma tagging_rule_ok : rule_ok tagging_rule.
Proof.
  unfold rule_ok. split_and!; try done.
  - split_and!; [by repeat constructor..|]. intros []; left; by vm_compute.
  - cbn. split_and!; try done. split.
    + exists [(53, 53); (54, 60)]. split_and!; [apply Permutation_swap|by repeat constructor|by repeat constructor].
    + intros [(i & Hi & Hi0) _]. apply list_elem_of_In in Hi. destruct Hi as [<-|[<-|[]]]; done.
Qed.

Definition udp_from (from : Addr) (port : Z) : packet :=
  arriving "eth1" from (ip4 10 5 0 2) ConntrackStateNew ProtocolUDP ([200; 1] ++ be 2 port ++ replicate 4 0).

(** It drops what comes from outside of its subnets, within its limit, and marks it. *)
Lemma compiled_rules_decide_witness :
  ∃ compiled, Compile tagging_rule = inr compiled ∧ closed compiled ∧
    (∀ A from, valid_addr from → from.(family) = IPv4 →
     ∃ k', run_rules (local compiled.(Sets)) compiled.(Rules) (incoming A (udp_from from 53)) =
       (k', if negb (member [net4 10 0 0 0 8; PrefixFrom (ip6 (2 ^ 120)) 16] [net4 10 1 0 0 16] from) && A 10 10
            then Some VerdictDrop else None)) ∧
    (marked tagging_rule (udp_from (ip4 8 8 8 8) 53)).(mark) = 0x10000.
Proof.
  destruct (compiled_rules_decide (K := evaluation) tagging_rule tagging_rule_ok) as (compiled & Heq & Hcl & Hall).
  exists compiled. split; [done|]. split; [done|]. split; [|by vm_compute]. intros A from [H0 Hl] Hf.
  assert (Hok : packet_ok (udp_from from 53)).
  { unfold packet_ok, valid_addr. cbn. split_and!; try done; [by left|by repeat constructor]. }
  destruct (Hall _ _ _ (local_extends compiled.(Sets)) (incoming_carries A _ Hok)) as (k' & Hrun & _).
  exists k'. rewrite Hrun. f_equal. by destruct (member _ _ from) eqn:Hm; unfold rule_matches; cbn -[member]; rewrite Hm.
Defined.

(** ** Ranges of ports *)

Lemma port_validation_witness :
  disjoint_ports [(6443, 6443); (50000, 50001); (80, 443)] ∧
  Ports_Validate [{| Lo := 80; Hi := 443 |}; {| Lo := 90; Hi := 91 |}] ≠ None.
Proof.
  split; [|by vm_compute].
  apply (port_validation [{| Lo := 6443; Hi := 6443 |}; {| Lo := 50000; Hi := 50001 |}; {| Lo := 80; Hi := 443 |}]);
    [by repeat constructor|by vm_compute].
Defined.

(** ** Outside of the promises *)

(** Source and destination matches that rule out different families: of the rule of the
    test [TestUpdateChains], the destination is IPv4 only, and an IPv6 packet to any
    destination is accepted. *)
Definition mixed_rule : NfTablesRule := counted (to_destination
  {| IncludeSubnets := [net4 192 168 0 0 24]; ExcludeSubnets := []; addrInvert := false |}
  (from_source {| IncludeSubnets := [net4 10 0 0 0 8]; ExcludeSubnets := [net4 10 3 0 0 16]; addrInvert := true |} noRule))
  VerdictAccept.
Definition to_ip6 : packet := arriving "eth0" (ip6 1) (ip6 2) ConntrackStateNew ProtocolTCP (tcp_to 22).

Example mixed_families_accept_all :
  rule_matches mixed_rule to_ip6 = false ∧ ¬ families_agree mixed_rule ∧
  ∃ compiled, Compile mixed_rule = inr compiled ∧
    (run_rules (local compiled.(Sets)) compiled.(Rules) (incoming unlimited to_ip6)).2 = Some VerdictAccept.
Proof.
  split; [by vm_compute|]. split; [|by exists (from_option id {| Rules := []; Sets := [] |}
    (match Compile mixed_rule with inr c => Some c | inl _ => None end)); split; vm_compute].
  intros H. unfold families_agree in H. simpl in H. destruct (H IPv6) as [_ Hex].
  assert (Hno : address_matches (Some {| IncludeSubnets := [net4 10 0 0 0 8]; ExcludeSubnets := [net4 10 3 0 0 16];
    addrInvert := true |}) (ip6 1) = false); [|by vm_compute in Hno].
  apply Hex; [|done|done]. by intros [[] v] _ Hf.
Qed.

(** The element after the last address has an empty key. *)
Example last_address_key :
  SetElements (SetKindIPv4 [{| From := ip4 128 0 0 0; To := ip4 255 255 255 255 |}]) =
    [{| Key := [128; 0; 0; 0]; IntervalEnd := false |}; {| Key := []; IntervalEnd := true |}].
Proof. by vm_compute. Qed.

(** An exception of one entry is one for all entries of the document: the chain drops what
    another entry allows. *)
Definition two_entries : RuleConfigV1Alpha1 := {|
  MetaName := "two"; Ports := [{| Lo := 22; Hi := 22 |}]; ruleProtocol := ProtocolTCP;
  Ingress := [{| Subnet := net4 10 0 0 0 8; Except := None |};
              {| Subnet := net4 172 16 0 0 12; Except := Some (net4 10 1 0 0 16) |}]
|}.
Definition two_docs : list Document := [DefaultActionConfigV1Alpha1 DefaultActionBlock; RuleConfig two_entries].
Example except_of_another_entry :
  let p := to_port (ip4 10 1 2 3) 22 in
  allows_source two_entries p = true ∧ ingress_decision unlimited two_docs p = VerdictAccept ∧
  chain_decision unlimited (buildIngressChain two_docs).(chainRules) p = None ∧
  (buildIngressChain two_docs).(chainPolicy) = VerdictDrop.
Proof. by vm_compute. Qed.

(** A document for ICMP must have ports, and they are compared with the checksum. *)
Definition icmp_document : RuleConfigV1Alpha1 := {|
  MetaName := "icmp"; Ports := [{| Lo := 0; Hi := 1000 |}]; ruleProtocol := ProtocolICMP;
  Ingress := [{| Subnet := net4 10 0 0 0 8; Except := None |}]
|}.
Definition echo (checksum : Z) : packet :=
  arriving "eth0" (ip4 10 5 0 9) (ip4 10 5 0 2) ConntrackStateNew ProtocolICMP ([8; 0] ++ be 2 checksum ++ [0; 1; 0; 1]).
Example icmp_by_checksum :
  Validate icmp_document = None ∧ concerns icmp_document (echo 1000) = true ∧ concerns icmp_document (echo 1001) = false.
Proof. by vm_compute. Qed.

(** The size of segments leaves room for options, 12 bytes less than the headers leave. *)
Example clamped_size :
  Cmp CmpOpGt 1 (be 2 (1420 - 40 - 12)) ∈ clampMSS IPv4 1420 ∧ Cmp CmpOpGt 1 (be 2 (1420 - 60 - 12)) ∈ clampMSS IPv6 1420.
Proof. split; vm_compute; do 6 right; left. Qed.
