(* ===== verification/MounterClient.v ===== *)
(** * Controllers that mount a volume

    A controller that keeps an automaton of a volume mounter over its reconcile loop, and
    has a memory the callback of the mounter works on; access to the files of a mounted
    volume ([adapters/block/volume_mount_status.go], [xfs.WriteFile] of
    [pkg/xfs/root.go]). *)

From S2P Require Import Prelude Errors Block Devices Volumes MountResources VolumeMounter.

(** ** A world with the memory of a controller *)

Record within (W M : Type) := { outer : W; memory : M }.
Arguments outer {W M} _.
Arguments memory {W M} _.

Section within.
Context {W M : Type}.

(** A call of the world does not touch the memory. *)
Definition out {A} (f : W → W * A) (w : within W M) : within W M * A :=
  let '(o, a) := f w.(outer) in ({| outer := o; memory := w.(memory) |}, a).

#[export] Instance within_Cosi `{Cosi W} : Cosi (within W M) := {|
  cosi_AddFinalizer := λ r fin, out (cosi_AddFinalizer r fin);
  cosi_RemoveFinalizer := λ r fin, out (cosi_RemoveFinalizer r fin);
  cosi_Teardown := λ r, out (cosi_Teardown r);
  cosi_Destroy := λ r, out (cosi_Destroy r);
  cosi_IsNotFound := cosi_IsNotFound;
  cosi_GetVolumeMountStatus := λ id, out (cosi_GetVolumeMountStatus id);
  cosi_ListVolumeStatuses := out cosi_ListVolumeStatuses;
  cosi_ListVolumeMountRequests := out cosi_ListVolumeMountRequests;
  cosi_ListMountRequests := out cosi_ListMountRequests;
  cosi_ListMountStatuses := out cosi_ListMountStatuses;
  cosi_ListVolumeMountStatuses := λ label, out (cosi_ListVolumeMountStatuses label);
  cosi_ModifyVolumeMountRequest := λ id f, out (cosi_ModifyVolumeMountRequest id f);
  cosi_ModifyMountRequest := λ id f, out (cosi_ModifyMountRequest id f);
  cosi_ModifyMountStatus := λ id f, out (cosi_ModifyMountStatus id f);
  cosi_ModifyVolumeMountStatus := λ id label f, out (cosi_ModifyVolumeMountStatus id label f)
|}.

Lemma out_memory {A} (f : W → W * A) w w' a : out f w = (w', a) → w'.(memory) = w.(memory).
Proof. unfold out. destruct (f (outer w)). by intros [= <- _]. Qed.
End within.

(** ** The files of a volume *)

(** [xfs.Root]: the root in a status, or a tree that was opened. *)
Inductive xroot := StatusRoot (r : Root) | TreeRoot (h : Z).

Class RootFiles (W : Type) := {
  File : Type;
  OpenFS : string → W → W * (error + Z);          (** a tree from a path *)
  CloseFS : Z → W → W;
  root_Stat : xroot → string → W → W * option error;
  root_Open : xroot → string → W → W * (error + File);
  (** with [O_WRONLY|O_CREATE|O_TRUNC] *)
  root_OpenFile : xroot → string → Z → W → W * (error + File);
  root_Rename : xroot → string → string → W → W * option error;
  file_Write : File → list Z → W → W * option error;
  file_Close : File → W → W * option error
}.

Section files.
Context {W : Type} `{RF : RootFiles W}.

(** A callback: it works on a world, and may fail. *)
Notation callback W := (W → W * option error).

(** [defer]: the tree is closed whatever the callback returns.  The root of a detached
    status is one of [pkg/xfs] ([Root]): it is never nil. *)
Definition WithRoot {M} (status : VolumeMountStatus) (cb : xroot → callback (within W M)) : callback (within W M) := λ w,
  if negb status.(resSpec).(vmsDetached) then
    match out (OpenFS status.(resSpec).(vmsTarget)) w with
    | (w, inl err) => (w, Some (Errorf "error opening filesystem: %w" [Wrapped err]))
    | (w, inr h) => let '(w, err) := cb (TreeRoot h) w in ((out (λ o, (CloseFS h o, ())) w).1, err)
    end
  else cb (StatusRoot status.(resSpec).(vmsRoot)) w.

(** What the callback makes of the memory, and reports. *)
Lemma WithRoot_memory {M} (Q : M → option error → Prop) status cb (w : within W M) :
  (∀ root w', w'.(memory) = w.(memory) → Q (cb root w').1.(memory) (cb root w').2) →
  (∀ err, Q w.(memory) (Some err)) →
  Q (WithRoot status cb w).1.(memory) (WithRoot status cb w).2.
Proof.
  intros Hcb Herr. unfold WithRoot. destruct (negb _); [|by apply Hcb].
  destruct (out (OpenFS _) w) as [w1 [err|h]] eqn:E1; apply out_memory in E1; simpl; [by rewrite E1|].
  specialize (Hcb (TreeRoot h) w1 E1). by destruct (cb (TreeRoot h) w1) as [w2 err].
Qed.

Definition WriteFile (root : xroot) (name : string) (data : list Z) (perm : Z) : callback W := λ w,
  match root_OpenFile root name perm w with
  | (w, inl err) => (w, Some err)
  | (w, inr f) =>
      let '(w, err) := file_Write f data w in
      let '(w, err1) := file_Close f w in
      (w, match err with Some _ => err | None => err1 end)
  end.
End files.

(** ** The automaton in a controller *)

Section client.
Context {W M : Type} `{HC : Cosi W}.

(** [machine]: [ctrl.stateMachine] with its state; [finished]: the logs of the earlier
    ones. *)
Record client := {
  cenv : env (within W M); machine : option (mounter_state); finished : list (list event)
}.
Notation cl := (prog client error).

(** [if ctrl.stateMachine == nil { ctrl.stateMachine = NewVolumeMounter(...) }] *)
Definition new_machine (init : mounter_state) : cl () :=
  modify (λ s, match s.(machine) with
               | Some _ => s
               | None => {| cenv := mkenv s.(cenv).(world) []; machine := Some init;
                            finished := s.(finished) ++ [s.(cenv).(trace)] |}
               end).

(** [ctrl.stateMachine.Run] with an [AfterFunc] that sets [ctrl.stateMachine] to [nil]. *)
Definition run_machine (c : volumeMountContext (W:=within W M)) : cl () :=
  zoom (λ s, {| auto_env := s.(cenv); state := s.(machine) |})
       (λ a s, {| cenv := a.(auto_env); machine := a.(state); finished := s.(finished) |})
       (RunMounter c (Some (mret ()))).

Definition outside {A} (f : W → W * A) : cl A := λ s,
  let '(w, a) := out f s.(cenv).(world) in
  Ok ({| cenv := mkenv w s.(cenv).(trace); machine := s.(machine); finished := s.(finished) |}, inr a).
Definition remember (f : M → M) : cl () :=
  modify (λ s, {| cenv := mkenv {| outer := s.(cenv).(world).(outer); memory := f s.(cenv).(world).(memory) |} s.(cenv).(trace);
                  machine := s.(machine); finished := s.(finished) |}).
Definition recall : cl M := λ s, Ok (s, inr s.(cenv).(world).(memory)).

(** *** What it keeps *)

Context (c : volumeMountContext (W:=within W M)).

(** The logs follow the protocol: the finished ones to the end. *)
Record mounting (s : client) : Prop := {
  mounting_log : match s.(machine) with
                 | Some st => mounter_log c (Some st) s.(cenv).(trace)
                 | None => s.(cenv).(trace) = [] ∨ mounter_log c None s.(cenv).(trace)
                 end;
  mounting_finished : Forall (λ t, t = [] ∨ destroyed c t) s.(finished)
}.

Lemma new_machine_mounting s : mounting s →
  returns (new_machine (createVolumeMountRequest)) s (λ s' r,
    r = inr () ∧ mounting s' ∧ (∃ st, s'.(machine) = Some st) ∧ s'.(cenv).(world) = s.(cenv).(world)).
Proof.
  intros [Hl Hf]. unfold new_machine. apply returns_modify. destruct (machine s) eqn:Hm.
  - split_and!; [done|split; [by rewrite Hm|done]|by eexists|done].
  - split_and!; [done| |by eexists|done]. split; [done|]. simpl. apply Forall_app. split; [done|].
    by apply Forall_singleton.
Qed.

(** The steps touch the memory only in the callback: [J true] holds of it until the callback
    has succeeded, [J false] afterwards. *)
Definition before_callback (st : option mounter_state) : bool :=
  match st with
  | Some createVolumeMountRequest | Some waitForMountStatus | Some (callbackWithMountStatus _) => true
  | _ => false
  end.
Context (J : bool → M → Prop).
Context (Hcb : ∀ ms w, J true w.(memory) → J (negb (succeeded (c.(callback) ms w).2)) (c.(callback) ms w).1.(memory)).

Lemma mounter_step_memory st e : J (before_callback (Some st)) e.(world).(memory) →
  ensures (mounter_step c st) e (λ e' r,
    J (before_callback (match r with inr st' => st' | inl _ => Some st end)) e'.(world).(memory)).
Proof.
  assert (Hcall : ∀ b (f : W → W * option error) ev (e : env (within W M)), J b e.(world).(memory) →
    ensures (call (out f) ev) e (λ e' _, J b e'.(world).(memory))).
  { intros b f ev e0 H0. apply ensures_call. intros w err Hw. simpl. by rewrite (out_memory _ _ _ _ Hw). }
  assert (Hquery : ∀ b A (f : W → W * (error + A)) ev (e : env (within W M)), J b e.(world).(memory) →
    ensures (query (out f) ev) e (λ e' _, J b e'.(world).(memory))).
  { intros b A f ev e0 H0. apply ensures_query. intros w err Hw. simpl. by rewrite (out_memory _ _ _ _ Hw). }
  intros HJ. destruct st; cbn [mounter_step]; apply ensures_bind; try apply ensures_map_err.
  - eapply ensures_mono; [|by apply Hcall]. intros e' [err|[]] H'; [done|]. by apply ensures_ret.
  - eapply ensures_mono; [|by apply Hquery]. intros e' [err|[ms|]] H'; [done| |by apply ensures_throw].
    destruct (_ && _ : bool); [by apply ensures_throw|]. apply ensures_bind. case_bool_decide.
    + apply ensures_ret. by apply ensures_ret.
    + apply ensures_map_err. eapply ensures_mono; [|by apply Hcall].
      intros e'' [err|[]] H''; [done|]. by apply ensures_ret.
  - apply ensures_call. intros w err Hw. simpl. pose proof (Hcb mountStatus (world e) HJ) as H0. rewrite Hw in H0.
    destruct err; [done|]. by apply ensures_ret.
  - eapply ensures_mono; [|by apply Hcall]. intros e' [err|[]] H'; [done|]. by apply ensures_ret.
  - eapply ensures_mono; [|by apply Hquery]. intros e' [err|ok] H'; [done|].
    destruct ok; simpl; [|by apply ensures_throw]. apply ensures_bind, ensures_map_err.
    eapply ensures_mono; [|by apply Hcall]. intros e'' [err|[]] H''; [done|]. by apply ensures_ret.
  - eapply ensures_mono; [|by apply Hquery]. intros e' [err|[ms|]] H'; [done|by apply ensures_throw|by apply ensures_ret].
Qed.

Lemma run_machine_mounting s st : mounting s → s.(machine) = Some st →
  J (before_callback s.(machine)) s.(cenv).(world).(memory) →
  returns (run_machine c) s (λ s' _, mounting s' ∧ s'.(finished) = s.(finished) ∧
    J (before_callback s'.(machine)) s'.(cenv).(world).(memory) ∧
    (s'.(machine) = None → mounter_log c None s'.(cenv).(trace))).
Proof.
  intros [Hl Hf] Hm HJ. rewrite Hm in Hl, HJ. apply returns_zoom. rewrite Hm.
  eapply returns_mono; [|apply (Run_invariant _ _ (mounter_rank)
    (λ st e, mounter_log c st e.(trace) ∧ J (before_callback st) e.(world).(memory)))].
  - intros a r [Hlog HJ']. split_and!; [|done..|]; simpl.
    + split; [|done]. simpl. destruct (state a); [done|]. by right.
    + intros H. by rewrite H in Hlog.
  - intros st' e [He HJe]. destruct (mounter_step_follows c st' e He) as (e' & r & Heq & Hr).
    pose proof (mounter_step_memory st' e HJe _ _ Heq) as HJ'.
    exists e', r. split; [done|]. by destruct r as [|]; [split|destruct Hr; split].
  - intros f e [= <-] He. by apply returns_ret.
  - destruct st; simpl; unfold mounter_fuel; lia.
  - done.
Qed.

Lemma outside_mounting {A} (f : W → W * A) s : mounting s →
  returns (outside f) s (λ s' r, mounting s' ∧ s'.(machine) = s.(machine) ∧ s'.(finished) = s.(finished) ∧
    s'.(cenv).(trace) = s.(cenv).(trace) ∧ s'.(cenv).(world).(memory) = s.(cenv).(world).(memory) ∧
    r = inr (f s.(cenv).(world).(outer)).2).
Proof.
  intros [Hl Hf]. unfold outside, out, returns. destruct (f _) as [o a] eqn:Ef.
  eexists _, _. split; [done|]. by split_and!.
Qed.
End client.
Arguments client : clear implicits.
