(* ===== verification/Acquire.v ===== *)
(** * Acquiring the machine configuration

    [controllers/config/acquire.go]: the state machine that takes the configuration from
    the STATE volume, from the image, from the kernel command line, from the platform, or
    from the user in maintenance mode, and sets it
    ([runtime/v1alpha2/v1alpha2_state.go]).  Logging and warnings are left out. *)

From S2P Require Import Prelude Errors Block Devices Volumes MountResources VolumeMounter MounterClient.

(** [validationModeDiskConfig], or [ctrl.ValidationMode]. *)
Inductive validation_mode := validationModeDiskConfig | ValidationMode.

(** What the controller uses: configurations, with their loader and validation; the
    resources; the embedded directory; the platform; the command line; and decoders. *)
Class AcquireWorld (W : Type) `{RF : RootFiles W} := {
  Provider : Type;
  CompleteForBoot : Provider → bool;
  configloader_NewFromBytes : list Z → error + Provider;
  configloader_NewFromReader : File → W → W * (error + Provider);
  Validate : validation_mode → Provider → option error;
  RuntimeValidate : Provider → W → W * option error;
  filepath_Join : string → string → string;
  os_Stat : string → W → W * option error;
  os_ReadFile : string → W → W * (error + list Z);
  mount_tmpfs : string → W → W * option error;
  GetAcquireConfigSpec : W → W * (error + bool);
  GetVolumePhase : string → W → W * (error + option VolumePhase);
  PlatformName : string;
  PlatformConfiguration : W → W * (error + list Z);
  DetectContentType : list Z → string;
  gzip_NewReader : list Z → option error;
  gzip_ReadAll : list Z → error + list Z;
  InContainer : bool;
  Cmdline : string → W → W * option (list string);
  base64_DecodeString : string → error + list Z;
  zstd_NewReader : list Z → option error;
  zstd_ReadAll : list Z → error + list Z;
  ModifyMaintenanceRequest : W → W * option error;
  TeardownMaintenanceRequest : W → W * (error + bool);
  DestroyMaintenanceRequest : W → W * option error;
  WriteAcquireStatus : W → W * option error;
  (** machine configurations by their id, with their version *)
  GetConfig : string → W → W * (error + (Z * Provider));
  CreateConfig : string → Provider → W → W * option error;
  UpdateConfig : string → Z → Provider → W → W * option error;
  IsNotFoundError : error → bool
}.

Definition ActiveID : string := "v1alpha1".
Definition MaintenanceID : string := "maintenance".
Definition PersistentID : string := "persistent".
Definition StatePartitionLabel : string := "STATE".
Definition ConfigFilename : string := "config.yaml".
Definition EmbeddedConfigDirectory : string := "/usr/local/etc/talos/".
Definition KernelParamConfigEarly : string := "talos.config.early".
Definition KernelParamConfigInline : string := "talos.config.inline".

Inductive EventType := EventTypeActivate | EventTypeFailure | EventTypeConfigLoaded.

(** The states: functions in the code. *)
Inductive acquire_state :=
  | stateDisk | stateEmbedded | stateCmdlineEarly | statePlatform | stateCmdlineLate
  | stateMaintenanceEnter | stateMaintenance | stateMaintenanceLeave | stateDone | stateFinal.
#[export] Instance acquire_state_eq_dec : EqDecision acquire_state.
Proof. solve_decision. Defined.

Section acquire.
Context {W : Type} `{HC : Cosi W} `{RF : RootFiles W} `{AW : !AcquireWorld W}.

(** What happens in a run: a source answers, a configuration is set or persisted, events
    and the status. *)
Inductive acquire_event :=
  | ASource (name : string) (cfg : option Provider)
  | ASet (cfg : Provider)
  | APersist (cfg : Provider)
  | AFire (t : EventType)
  | ALoadError
  | ATask (start : bool)
  | AStatus.

(** [diskConfig] is the memory of the client. *)
Record AcquireController := {
  mounter : client W (option Provider);
  EmbeddedDirectory : string;
  skipMaskingEmbeddedConfig : bool;
  storedEmbeddedConfig : option (list Z);
  configSourcesUsed : list string;
  log : list acquire_event          (** of the run *)
}.
Notation ctl := (prog AcquireController error).

Definition on_mounter {A} (c : prog (client W (option Provider)) error A) : ctl A :=
  zoom mounter (λ m s, {| mounter := m; EmbeddedDirectory := s.(EmbeddedDirectory);
    skipMaskingEmbeddedConfig := s.(skipMaskingEmbeddedConfig); storedEmbeddedConfig := s.(storedEmbeddedConfig);
    configSourcesUsed := s.(configSourcesUsed); log := s.(log) |}) c.
Definition ask_world {A} (f : W → W * A) : ctl A := on_mounter (outside f).
Definition call_world (f : W → W * option error) : ctl () := err ← ask_world f; check err.
Definition query_world {A} (f : W → W * (error + A)) : ctl A := r ← ask_world f; of_result r.

Definition set_embedded (dir : string) (skip : bool) (stored : option (list Z)) : ctl () :=
  modify (λ s, {| mounter := s.(mounter); EmbeddedDirectory := dir; skipMaskingEmbeddedConfig := skip;
    storedEmbeddedConfig := stored; configSourcesUsed := s.(configSourcesUsed); log := s.(log) |}).
Definition set_run (sources : list string) (l : list acquire_event) : ctl () :=
  modify (λ s, {| mounter := s.(mounter); EmbeddedDirectory := s.(EmbeddedDirectory);
    skipMaskingEmbeddedConfig := s.(skipMaskingEmbeddedConfig); storedEmbeddedConfig := s.(storedEmbeddedConfig);
    configSourcesUsed := sources; log := l |}).
Definition note (evs : list acquire_event) : ctl () :=
  s ← get; set_run s.(configSourcesUsed) (s.(log) ++ evs).
(** [if cfg != nil { ctrl.configSourcesUsed = append(ctrl.configSourcesUsed, name) }] *)
Definition answered (name : string) (cfg : option Provider) : ctl () :=
  s ← get;
  set_run (match cfg with Some _ => s.(configSourcesUsed) ++ [name] | None => s.(configSourcesUsed) end)
          (s.(log) ++ [ASource name cfg]).

Definition complete (cfg : option Provider) : bool := from_option CompleteForBoot false cfg.

(** ** Disk *)

Definition loadConfig (root : xroot) (configPath : string) (w : W) : W * (error + Provider) :=
  match root_Open root configPath w with
  | (w, inl err) => (w, inl (Errorf "failed to open %q from STATE: %w" [Str configPath; Wrapped err]))
  | (w, inr f) =>
      let '(w, r) := configloader_NewFromReader f w in
      let '(w, _) := file_Close f w in
      (w, match r with
          | inl err => inl (Errorf "failed to load %q from STATE: %w" [Str configPath; Wrapped err])
          | inr cfg => inr cfg
          end)
  end.

(** The callback on the root of the volume. *)
Definition loadConfigAt (root : xroot) (w : within W (option Provider)) : within W (option Provider) * option error :=
  match out (root_Stat root ConfigFilename) w with
  | (w, Some err) =>
      if errors_Is "ErrNotExist" err then (w, None)
      else (w, Some (Errorf "failed to stat %s: %w" [Str ConfigFilename; Wrapped err]))
  | (w, None) =>
      match out (loadConfig root ConfigFilename) w with
      | (w, inl err) => (w, Some err)
      | (w, inr cfg) =>
          match Validate validationModeDiskConfig cfg with
          | Some err => (w, Some (Errorf "failed to validate on-disk config: %w" [Wrapped err]))
          | None => ({| outer := w.(outer); memory := Some cfg |}, None)
          end
      end
  end.
Definition loadConfigFromDisk (mountStatus : VolumeMountStatus)
    : within W (option Provider) → within W (option Provider) * option error :=
  WithRoot mountStatus loadConfigAt.

Definition acquire_mounter :=
  NewVolumeMounter (W := within W (option Provider)) "config.AcquireController" StatePartitionLabel loadConfigFromDisk
    [WithReadOnly true; WithDetached true].

Definition loadFromDisk : ctl (option Provider * bool) :=
  _ ← on_mounter (new_machine acquire_mounter.1);
  _ ← on_mounter (run_machine acquire_mounter.2);
  s ← get;
  match s.(mounter).(machine) with
  | None => cfg ← on_mounter recall; mret (cfg, true)
  | Some _ => mret (None, false)
  end.

Notation next := (ctl (option acquire_state * option Provider)).

Definition stateDisk_ : next :=
  phase ← wrapf "failed observing STATE volume status: %w" (query_world (GetVolumePhase StatePartitionLabel));
  match phase with
  | None => mret (None, None)
  | Some VolumePhaseMissing => mret (Some stateEmbedded, None)
  | Some VolumePhaseReady =>
      '(cfg, done) ← loadFromDisk;
      if negb done then mret (None, None) else
      _ ← answered "state" cfg;
      mret (match cfg with
            | None => (Some stateEmbedded, None)
            | Some _ => if complete cfg then (Some stateDone, cfg) else (Some stateMaintenanceEnter, cfg)
            end)
  | Some _ => mret (None, None)
  end.

(** ** Embedded *)

Definition processEmbeddedConfig : ctl () :=
  s ← get;
  let configPath := filepath_Join s.(EmbeddedDirectory) ConfigFilename in
  err ← ask_world (os_Stat configPath);
  match err with
  | Some err =>
      if errors_Is "ErrNotExist" err then mret ()
      else throw (Errorf "failed to stat %s: %w" [Str configPath; Wrapped err])
  | None =>
      cfgBytes ← wrapf "failed to read embedded config: %w" (query_world (os_ReadFile configPath));
      _ ← set_embedded s.(EmbeddedDirectory) s.(skipMaskingEmbeddedConfig) (Some cfgBytes);
      if s.(skipMaskingEmbeddedConfig) then mret ()
      else wrap_id "failed to mask embedded config directory %q: %w" s.(EmbeddedDirectory)
             (call_world (mount_tmpfs s.(EmbeddedDirectory)))
  end.

Definition loadConfigFromEmbedded : ctl (option Provider) :=
  s ← get;
  match s.(storedEmbeddedConfig) with
  | None => mret None
  | Some cfgBytes =>
      cfg ← wrapf "failed to load config from embedded: %w" (of_result (configloader_NewFromBytes cfgBytes));
      _ ← wrapf "failed to validate embedded config: %w" (check (Validate validationModeDiskConfig cfg));
      mret (Some cfg)
  end.

(** The answer of a source, and where to go from it. *)
Definition proceed (name : string) (cfg : option Provider) (st : acquire_state) : next :=
  _ ← answered name cfg;
  mret (if complete cfg then (Some stateDone, cfg) else (Some st, cfg)).

Definition stateEmbedded_ : next := cfg ← loadConfigFromEmbedded; proceed "embedded" cfg stateCmdlineEarly.

(** ** Platform *)

(** Validation of a configuration that was just read. *)
Definition validated (format format' name : string) (cfg : Provider) : ctl (option Provider) :=
  _ ← wrap_id format name (check (Validate ValidationMode cfg));
  _ ← wrap_id format' name (call_world (RuntimeValidate cfg));
  mret (Some cfg).

Definition unzip (cfgBytes : list Z) : ctl (list Z) :=
  if String.eqb (DetectContentType cfgBytes) "application/x-gzip" then
    _ ← wrapf "error creating gzip reader: %w" (check (gzip_NewReader cfgBytes));
    wrapf "error unzipping machine config: %w" (of_result (gzip_ReadAll cfgBytes))
  else mret cfgBytes.

Definition loadFromPlatform : ctl (option Provider) :=
  r ← ask_world PlatformConfiguration;
  match r with
  | inl err =>
      if errors_Is "ErrNoConfigSource" err then mret None
      else throw (Errorf "error acquiring via platform %s: %w" [Str PlatformName; Wrapped err])
  | inr cfgBytes =>
      cfgBytes ← unzip cfgBytes;
      cfg ← wrap_id "failed to load config via platform %s: %w" PlatformName
              (of_result (configloader_NewFromBytes cfgBytes));
      validated "failed to validate config acquired via platform %s: %w"
                "failed to runtime validate config acquired via platform %s: %w" PlatformName cfg
  end.

Definition statePlatform_ : next := cfg ← loadFromPlatform; proceed PlatformName cfg stateCmdlineLate.

(** ** Kernel command line *)

Definition loadFromCmdline (paramName : string) : ctl (option Provider) :=
  param ← ask_world (Cmdline paramName);
  match param with
  | None => mret None
  | Some values =>
      let cfgEncoded := String.concat "" values in
      cfgDecoded ← wrap_id "failed to decode base64 config from cmdline %s: %w" paramName
                     (of_result (base64_DecodeString cfgEncoded));
      _ ← wrapf "failed to create zstd reader: %w" (check (zstd_NewReader cfgDecoded));
      cfgBytes ← wrap_id "failed to read zstd compressed config from cmdline %s: %w" paramName
                   (of_result (zstd_ReadAll cfgDecoded));
      cfg ← wrap_id "failed to load config via cmdline %s: %w" paramName
              (of_result (configloader_NewFromBytes cfgBytes));
      validated "failed to validate config acquired via cmdline %s: %w"
                "failed to validate config acquired via cmdline %s: %w" paramName cfg
  end.

Definition stateCmdlineGeneric (paramName sourceName : string) (st : acquire_state) : next :=
  if InContainer then mret (Some st, None)
  else cfg ← loadFromCmdline paramName; proceed sourceName cfg st.

(** ** Maintenance *)

Definition stateMaintenanceEnter_ : next :=
  _ ← note [AFire EventTypeActivate; ATask true];
  mret (Some stateMaintenance, None).

Definition stateMaintenance_ : next :=
  _ ← wrapf "failed creating maintenance service request: %w" (call_world ModifyMaintenanceRequest);
  r ← ask_world (GetConfig MaintenanceID);
  match r with
  | inl err =>
      if IsNotFoundError err then mret (None, None)
      else throw (Errorf "failed to get maintenance config: %w" [Wrapped err])
  | inr (_, cfg) =>
      if CompleteForBoot cfg then
        _ ← answered "maintenance" (Some cfg);
        mret (Some stateMaintenanceLeave, Some cfg)
      else
        _ ← note [ASource "maintenance" (Some cfg)];
        mret (None, Some cfg)
  end.

Definition stateMaintenanceLeave_ : next :=
  r ← ask_world TeardownMaintenanceRequest;
  ready ← match r with
          | inl err =>
              if IsNotFoundError err then mret true
              else throw (Errorf "failed to tear down maintenance service: %w" [Wrapped err])
          | inr false => mret false
          | inr true =>
              _ ← wrapf "failed cleaning up maintenance service request: %w" (call_world DestroyMaintenanceRequest);
              mret true
          end;
  if negb ready then mret (None, None)
  else _ ← note [ATask false]; mret (Some stateDone, None).

Definition stateDone_ : next :=
  _ ← wrapf "failed to write status: %w" (call_world WriteAcquireStatus);
  _ ← note [AStatus; AFire EventTypeConfigLoaded];
  mret (Some stateFinal, None).

Definition acquire_step (st : acquire_state) : next :=
  match st with
  | stateDisk => stateDisk_
  | stateEmbedded => stateEmbedded_
  | stateCmdlineEarly => stateCmdlineGeneric KernelParamConfigEarly "cmdline-early" statePlatform
  | statePlatform => statePlatform_
  | stateCmdlineLate => stateCmdlineGeneric KernelParamConfigInline "cmdline-late" stateMaintenanceEnter
  | stateMaintenanceEnter => stateMaintenanceEnter_
  | stateMaintenance => stateMaintenance_
  | stateMaintenanceLeave => stateMaintenanceLeave_
  | stateDone => stateDone_
  | stateFinal => mret (None, None)
  end.

(** ** The controller *)

(** [State.SetConfig] of the runtime. *)
Definition SetConfigAs (id : string) (cfg : Provider) : ctl () :=
  r ← ask_world (GetConfig id);
  match r with
  | inl err => if IsNotFoundError err then call_world (CreateConfig id cfg) else throw err
  | inr (version, _) => call_world (UpdateConfig id version cfg)
  end.

Definition only_state (sources : list string) : bool := bool_decide (sources = ["state"%string]).

Definition apply_config (cfg : option Provider) : ctl () :=
  match cfg with
  | None => mret ()
  | Some cfg =>
      _ ← wrapf "failed to set config: %w" (SetConfigAs ActiveID cfg);
      _ ← note [ASet cfg];
      s ← get;
      if only_state s.(configSourcesUsed) then mret ()
      else
        _ ← wrapf "failed to set persisted config: %w" (SetConfigAs PersistentID cfg);
        note [APersist cfg]
  end.

(** The loop of the states, until one waits. *)
Fixpoint run_states (fuel : nat) (st : acquire_state) : ctl acquire_state :=
  match fuel with
  | O => lift (Panic LoopFuel)
  | S fuel =>
      r ← try (acquire_step st);
      match r with
      | inl err => _ ← note [ALoadError; AFire EventTypeFailure]; throw err
      | inr (newState, cfg) =>
          _ ← apply_config cfg;
          match newState with
          | None => mret st
          | Some st => run_states fuel st
          end
      end
  end.
Definition acquire_fuel : nat := 10.

(** The start of [Run], and what it does on an event in a state. *)
Definition Start : ctl acquire_state :=
  s ← get;
  _ ← (if String.eqb s.(EmbeddedDirectory) "" then
         set_embedded EmbeddedConfigDirectory s.(skipMaskingEmbeddedConfig) s.(storedEmbeddedConfig)
       else set_embedded s.(EmbeddedDirectory) true s.(storedEmbeddedConfig));
  _ ← wrapf "failed to process embedded config: %w" processEmbeddedConfig;
  _ ← set_run [] [];
  mret stateDisk.

Definition Reconcile (st : acquire_state) : ctl acquire_state :=
  found ← wrapf "failed to get spec: %w" (query_world GetAcquireConfigSpec);
  if negb found then mret st else run_states acquire_fuel st.
End acquire.
