(* ===== verification/AcquireSafety.v ===== *)
(** * The acquisition of the configuration is in order

    An abstract acquisition says which source is asked in which state and what follows from
    its answer.  The controller follows it, whatever the world answers between and during
    the passes, and what it has set at the end is complete. *)

From S2P Require Import Prelude Errors Block Devices Volumes MountResources VolumeMounter MounterClient Acquire.

Section safety.
Context {W : Type} `{HC : Cosi W} `{RF : RootFiles W} `{AW : !AcquireWorld W}.
Notation ctl := (prog (AcquireController (W:=W)) error).
Notation sources := (list string).
Notation events := (list (acquire_event (W:=W))).

(** ** The abstract acquisition *)

(** What is asked in a state, and the state that follows unless the answer is complete. *)
Definition source_of (st : acquire_state) : option (string * acquire_state) :=
  match st with
  | stateEmbedded => Some ("embedded"%string, stateCmdlineEarly)
  | stateCmdlineEarly => Some ("cmdline-early"%string, statePlatform)
  | statePlatform => Some (PlatformName, stateCmdlineLate)
  | stateCmdlineLate => Some ("cmdline-late"%string, stateMaintenanceEnter)
  | _ => None
  end.
Definition on_cmdline (st : acquire_state) : bool :=
  match st with stateCmdlineEarly | stateCmdlineLate => true | _ => false end.

(** The source that answers in a state. *)
Definition asked_in (st : acquire_state) : option string :=
  match st with
  | stateDisk => Some "state"%string
  | stateMaintenance => Some "maintenance"%string
  | _ => fst <$> source_of st
  end.
(** The validation a configuration passes in a state: that of configurations on the disk, for
    the STATE volume and the image; that of the mode of the machine and the one at run time,
    for the command line and the platform; none here for the one the user has sent in
    maintenance mode, which was validated when it was sent. *)
Definition checked (st : acquire_state) (c : Provider) : Prop :=
  match st with
  | stateDisk | stateEmbedded => Validate validationModeDiskConfig c = None
  | stateCmdlineEarly | statePlatform | stateCmdlineLate =>
      Validate ValidationMode c = None ∧ ∃ w w', RuntimeValidate c w = (w', None)
  | _ => True
  end.

Definition after (name : string) (cfg : option Provider) (used : sources) : sources :=
  match cfg with Some _ => used ++ [name] | None => used end.
(** A configuration is set, and persisted unless it can only be from the disk. *)
Definition effect (used : sources) (cfg : option Provider) : events :=
  match cfg with
  | Some c => ASet c :: if only_state used then [] else [APersist c]
  | None => []
  end.
(** A source answers. *)
Definition answer (name : string) (cfg : option Provider) (used : sources) : events :=
  ASource name cfg :: effect (after name cfg used) cfg.

Inductive acquired : acquire_state → sources → events → Prop :=
  | acquired_begin : acquired stateDisk [] []
  | acquired_missing : acquired stateEmbedded [] []
  | acquired_state cfg :
      from_option (checked stateDisk) True cfg →
      acquired (match cfg with
                | None => stateEmbedded
                | Some c => if CompleteForBoot c then stateDone else stateMaintenanceEnter
                end) (after "state" cfg []) (answer "state" cfg [])
  | acquired_source st name next cfg used l :
      acquired st used l → source_of st = Some (name, next) → from_option (checked st) True cfg →
      acquired (if complete cfg then stateDone else next) (after name cfg used) (l ++ answer name cfg used)
  | acquired_no_cmdline st name next used l :
      acquired st used l → source_of st = Some (name, next) → on_cmdline st = true → InContainer = true →
      acquired next used l
  | acquired_enter used l :
      acquired stateMaintenanceEnter used l → acquired stateMaintenance used (l ++ [AFire EventTypeActivate; ATask true])
  | acquired_incomplete c used l :
      acquired stateMaintenance used l → CompleteForBoot c = false →
      acquired stateMaintenance used (l ++ ASource "maintenance" (Some c) :: effect used (Some c))
  | acquired_maintenance c used l :
      acquired stateMaintenance used l → CompleteForBoot c = true →
      acquired stateMaintenanceLeave (after "maintenance" (Some c) used) (l ++ answer "maintenance" (Some c) used)
  | acquired_leave used l :
      acquired stateMaintenanceLeave used l → acquired stateDone used (l ++ [ATask false])
  | acquired_done used l :
      acquired stateDone used l → acquired stateFinal used (l ++ [AStatus; AFire EventTypeConfigLoaded]).

(** ** What follows from it *)

Definition sets (l : events) : list Provider := omap (λ e, match e with ASet c => Some c | _ => None end) l.
Definition persists (l : events) : list Provider := omap (λ e, match e with APersist c => Some c | _ => None end) l.

Lemma sets_app l l' : sets (l ++ l') = sets l ++ sets l'.
Proof. apply omap_app. Qed.
Lemma persists_app l l' : persists (l ++ l') = persists l ++ persists l'.
Proof. apply omap_app. Qed.

Lemma sets_answer name cfg used : sets (answer name cfg used) = option_list cfg.
Proof. destruct cfg as [c|]; [|done]. unfold answer, effect. simpl. by destruct (only_state _). Qed.
Lemma persists_answer name cfg used :
  persists (answer name cfg used) = if only_state (after name cfg used) then [] else option_list cfg.
Proof.
  destruct cfg as [c|]; unfold answer, effect; simpl; [|by destruct (only_state _)]. by destruct (only_state _).
Qed.

(** The last set configuration is complete, and it is the last persisted one unless it is
    the one from the disk. *)
Definition settled (used : sources) (l : events) : Prop :=
  ∃ c, CompleteForBoot c = true ∧ last (sets l) = Some c ∧ (only_state used = true ∨ last (persists l) = Some c).

Lemma settled_answer name c used l : CompleteForBoot c = true →
  settled (after name (Some c) used) (l ++ answer name (Some c) used).
Proof.
  intros Hc. exists c. split; [done|]. rewrite sets_app, persists_app, sets_answer, persists_answer.
  change (option_list (Some c)) with [c]. split; [by rewrite last_snoc|]. destruct (only_state _); [by left|right]. by rewrite last_snoc.
Qed.
Lemma settled_other used l l' : sets l' = [] → persists l' = [] → settled used l → settled used (l ++ l').
Proof.
  intros Hs Hp (c & Hc & H1 & H2). exists c. by rewrite sets_app, persists_app, Hs, Hp, !app_nil_r.
Qed.

Definition finishing (st : acquire_state) : bool :=
  match st with stateMaintenanceLeave | stateDone | stateFinal => true | _ => false end.

Lemma acquired_settled st used l : acquired st used l → finishing st = true → settled used l.
Proof.
  induction 1 as [| |cfg Hc|st name next cfg used l H IH Hsrc Hc|st name next used l H IH Hsrc Hcm Hin|used l H IH|
    c used l H IH Hc|c used l H IH Hc|used l H IH|used l H IH]; intros Hf; try done.
  - destruct cfg as [c|]; [|done]. destruct (CompleteForBoot c) eqn:Hcc; [|done].
    by apply (settled_answer "state" c [] []).
  - destruct cfg as [c|]; [|by destruct st; simplify_eq/=]. simpl in Hf.
    destruct (CompleteForBoot c) eqn:Hcc; [|by destruct st; simplify_eq/=]. by apply settled_answer.
  - by destruct st; simplify_eq/=.
  - by apply settled_answer.
  - by apply settled_other; [| |apply IH].
  - by apply settled_other; [| |apply IH].
Qed.

(** What is set came from a source, and passed its validation. *)
Definition came_from (l : events) (c : Provider) : Prop :=
  ∃ asked name, asked_in asked = Some name ∧ ASource name (Some c) ∈ l ∧ checked asked c.

Lemma came_from_app l l' c : came_from l c → came_from (l ++ l') c.
Proof. intros (asked & name & H1 & H2 & H3). exists asked, name. split; [done|]. split; [|done]. apply elem_of_app. by left. Qed.
Lemma came_from_answer asked name cfg used l c : asked_in asked = Some name → from_option (checked asked) True cfg →
  c ∈ sets (answer name cfg used) → came_from (l ++ answer name cfg used) c.
Proof.
  rewrite sets_answer. intros Hn Hcfg. destruct cfg as [c'|]; simpl; [|by intros ?%elem_of_nil].
  intros ->%list_elem_of_singleton. exists asked, name. split; [done|]. split; [|done]. apply elem_of_app. right. by left.
Qed.

Lemma acquired_sets st used l c : acquired st used l → c ∈ sets l → came_from l c.
Proof.
  induction 1 as [| |cfg Hc|st name next cfg used l H IH Hsrc Hc|st name next used l H IH Hsrc Hcm Hin|used l H IH|
    c' used l H IH Hc|c' used l H IH Hc|used l H IH|used l H IH]; try (by intros ?%elem_of_nil).
  - by apply (came_from_answer stateDisk "state" cfg [] []).
  - rewrite sets_app, elem_of_app. intros [?|?]; [by apply came_from_app, IH|]. apply (came_from_answer st); [|done..].
    by destruct st; simplify_eq/=.
  - done.
  - rewrite sets_app, elem_of_app. intros [?|?%elem_of_nil]; [by apply came_from_app, IH|done].
  - rewrite sets_app, elem_of_app. intros [?|Hin]; [by apply came_from_app, IH|].
    exists stateMaintenance, "maintenance"%string. split; [done|]. split; [|done].
    apply elem_of_app. right. replace c with c'; [by left|].
    unfold effect in Hin. destruct (only_state used); simpl in Hin; by apply list_elem_of_singleton in Hin.
  - rewrite sets_app, elem_of_app. intros [?|?]; [by apply came_from_app, IH|by apply (came_from_answer stateMaintenance)].
  - rewrite sets_app, elem_of_app. intros [?|?%elem_of_nil]; [by apply came_from_app, IH|done].
  - rewrite sets_app, elem_of_app. intros [?|?%elem_of_nil]; [by apply came_from_app, IH|done].
Qed.

(** The status is written at the very end, after the configuration. *)
Lemma acquired_status st used l : acquired st used l → AStatus ∈ l → st = stateFinal.
Proof.
  assert (Hanswer : ∀ name cfg used, AStatus ∉ answer name cfg used).
  { intros name cfg used' Hin. unfold answer, effect in Hin. destruct cfg; [destruct (only_state _)|];
      repeat (apply elem_of_cons in Hin as [|Hin]; [done|]); by apply elem_of_nil in Hin. }
  induction 1 as [| |cfg Hc|st name next cfg used l H IH Hsrc Hc|st name next used l H IH Hsrc Hcm Hin|used l H IH|
    c' used l H IH Hc|c' used l H IH Hc|used l H IH|used l H IH]; try (by intros ?%elem_of_nil).
  - intros Hin. by apply Hanswer in Hin.
  - intros [Hin%IH|Hin%Hanswer]%elem_of_app; [|done]. by subst st.
  - intros Hin'%IH. by subst st.
  - intros [Hin%IH|Hin]%elem_of_app; [done|]. rewrite !elem_of_cons, elem_of_nil in Hin. naive_solver.
  - intros [Hin%IH|Hin]%elem_of_app; [done|]. exfalso. unfold effect in Hin.
    destruct (only_state used); rewrite !elem_of_cons, elem_of_nil in Hin; naive_solver.
  - intros [Hin%IH|Hin%Hanswer]%elem_of_app; done.
  - intros [Hin%IH|Hin]%elem_of_app; [done|]. rewrite elem_of_cons, elem_of_nil in Hin. naive_solver.
  - done.
Qed.
End safety.
