(* ===== verification/AcquireRun.v ===== *)
(** * The controller follows the abstract acquisition *)

From S2P Require Import Prelude Errors Block Devices Volumes MountResources VolumeMounter MounterClient Acquire AcquireSafety.

Section run.
Context {W : Type} `{HC : Cosi W} `{RF : RootFiles W} `{AW : !AcquireWorld W}.
Notation ctrl := (AcquireController (W:=W)).
Notation ctl := (prog ctrl error).
Implicit Types (s : ctrl) (cfg : option Provider).

(** ** Calls that only ask *)

(** Nothing but the world and the embedded configuration changed. *)
Record kept s s' : Prop := {
  kept_machine : s'.(mounter).(machine) = s.(mounter).(machine);
  kept_finished : s'.(mounter).(finished) = s.(mounter).(finished);
  kept_trace : s'.(mounter).(cenv).(trace) = s.(mounter).(cenv).(trace);
  kept_memory : s'.(mounter).(cenv).(world).(memory) = s.(mounter).(cenv).(world).(memory);
  kept_sources : s'.(configSourcesUsed) = s.(configSourcesUsed);
  kept_log : s'.(log) = s.(log)
}.
Definition calm {A} (c : ctl A) : Prop := ∀ s, returns c s (λ s' _, kept s s').

Lemma kept_refl s : kept s s.
Proof. done. Qed.
Lemma kept_trans s1 s2 s3 : kept s1 s2 → kept s2 s3 → kept s1 s3.
Proof. intros [] []. split; congruence. Qed.

Lemma calm_ret {A} (a : A) : calm (mret a).
Proof. intros s. by apply returns_ret. Qed.
Lemma calm_throw {A} e : calm (throw e : ctl A).
Proof. intros s. by apply returns_throw. Qed.
Lemma calm_get : calm get.
Proof. intros s. by apply returns_get. Qed.
Lemma calm_bind {A B} (c : ctl A) (f : A → ctl B) : calm c → (∀ a, calm (f a)) → calm (c ≫= f).
Proof.
  intros Hc Hf s. apply returns_bind. eapply returns_mono; [|apply Hc]. intros s' [e|a] Hk; [done|].
  eapply returns_mono; [|apply Hf]. intros s'' r Hk'. by eapply kept_trans.
Qed.
Lemma calm_map_err {A} f (c : ctl A) : calm c → calm (map_err f c).
Proof. intros Hc s. apply returns_map_err. eapply returns_mono; [|apply Hc]. done. Qed.
Lemma calm_of_result {A} (r : error + A) : calm (of_result r).
Proof. intros s. by apply returns_of_result. Qed.
Lemma calm_check e : calm (check e).
Proof. destruct e; [apply calm_throw|apply calm_ret]. Qed.
Lemma calm_ask {A} (f : W → W * A) : calm (ask_world f).
Proof.
  intros s. apply returns_zoom. unfold outside, out, returns. destruct (f _) as [o a].
  eexists _, _. split; [done|]. by split.
Qed.
Lemma calm_embedded dir skip stored : calm (set_embedded dir skip stored).
Proof. intros s. by apply returns_modify. Qed.

Ltac calm_step :=
  first
    [ apply calm_ret | apply calm_throw | apply calm_get | apply calm_of_result | apply calm_check
    | apply calm_ask | apply calm_embedded
    | apply calm_bind; [|intros ?] | apply calm_map_err
    | progress unfold call_world, query_world, wrapf, wrap_id, validated, unzip | case_match ].
Ltac calm_solve := repeat calm_step.

Lemma calm_embedded_config : calm (loadConfigFromEmbedded).
Proof. unfold loadConfigFromEmbedded. calm_solve. Qed.
Lemma calm_platform : calm (loadFromPlatform).
Proof. unfold loadFromPlatform. calm_solve. Qed.
Lemma calm_cmdline param : calm (loadFromCmdline param).
Proof. unfold loadFromCmdline. calm_solve. Qed.
Lemma calm_process : calm (processEmbeddedConfig).
Proof. unfold processEmbeddedConfig. calm_solve. Qed.
Lemma calm_set_as id c : calm (SetConfigAs id c).
Proof. unfold SetConfigAs. calm_solve. Qed.

(** *** The configurations they give are validated *)

Definition good st cfg : Prop := from_option (checked st) True cfg.

Lemma ask_world_answer {A} (f : W → W * A) : yields (λ a, ∃ w w', f w = (w', a)) (ask_world f).
Proof.
  intros s. apply ensures_zoom. intros m r. unfold outside, out. destruct (f _) as [o a] eqn:Hf.
  intros [= <- <-]. by eexists _, _.
Qed.

Lemma validated_good f f' param c :
  yields (λ cfg, ∃ c, cfg = Some c ∧ Validate ValidationMode c = None ∧ ∃ w w', RuntimeValidate c w = (w', None))
    (validated f f' param c).
Proof.
  unfold validated, call_world. intros s. apply ensures_bind, ensures_map_err. unfold check at 1.
  destruct (Validate ValidationMode c) eqn:Hv; [by apply ensures_throw|]. apply ensures_ret.
  apply ensures_bind, ensures_map_err, ensures_bind.
  eapply ensures_mono; [|apply ask_world_answer]. intros s' [e|[err|]] Hw; [done|by apply ensures_throw|].
  apply ensures_ret, ensures_ret. by exists c.
Qed.

(** The sources whose configurations are validated for the mode of the machine. *)
Definition full (st : acquire_state) : Prop :=
  match st with stateCmdlineEarly | statePlatform | stateCmdlineLate => True | _ => False end.
Lemma validated_full st f f' param c : full st → yields (good st) (validated f f' param c).
Proof.
  intros Hst s. eapply ensures_mono; [|apply validated_good]. intros s' [e|cfg]; [done|].
  intros (c' & -> & Hc). by destruct st.
Qed.
Lemma platform_good : yields (good statePlatform) loadFromPlatform.
Proof.
  unfold loadFromPlatform. apply yields_then. intros [err|b].
  - destruct (errors_Is _ _); [by apply yields_ret|apply yields_throw].
  - do 2 (apply yields_then; intros ?). by apply validated_full.
Qed.
Lemma cmdline_good param st : full st → yields (good st) (loadFromCmdline param).
Proof.
  intros Hst. unfold loadFromCmdline. apply yields_then. intros [vs|]; [|by apply yields_ret].
  do 4 (apply yields_then; intros ?). by apply validated_full.
Qed.
Lemma embedded_good : yields (good stateEmbedded) loadConfigFromEmbedded.
Proof.
  unfold loadConfigFromEmbedded. apply yields_then. intros s. destruct (storedEmbeddedConfig s); [|by apply yields_ret].
  apply yields_then. intros c s'. apply ensures_bind, ensures_map_err. unfold check.
  destruct (Validate validationModeDiskConfig c) eqn:Hv; [by apply ensures_throw|]. by apply ensures_ret, ensures_ret.
Qed.

Lemma returns_yields {A} (c : ctl A) s (V : A → Prop) (Q : ctrl → error + A → Prop) :
  returns c s Q → yields V c → returns c s (λ s' r, Q s' r ∧ match r with inr a => V a | inl _ => True end).
Proof. intros (s' & r & Heq & HQ) HV. exists s', r. split; [done|]. split; [done|]. exact (HV s _ _ Heq). Qed.

(** ** The state of a run *)

(** The configuration from the disk is validated, and the logs of the mounters of the STATE
    volume follow their protocol. *)
Definition disk_ok (m : option Provider) : Prop := from_option (λ c, Validate validationModeDiskConfig c = None) True m.
Definition disk_mounter := (acquire_mounter (W:=W)).2.
Record resting s : Prop := {
  resting_mounting : mounting disk_mounter s.(mounter);
  resting_memory : disk_ok s.(mounter).(cenv).(world).(memory)
}.

(** Once the disk has answered, the mounter is through: the volume was unmounted and its
    request destroyed. *)
Definition unmounted s : Prop :=
  (∃ cfg, ASource "state" cfg ∈ s.(log)) →
  s.(mounter).(machine) = None ∧ destroyed disk_mounter s.(mounter).(cenv).(trace).

Record following (st : acquire_state) s : Prop := {
  following_resting : resting s;
  following_acquired : acquired st s.(configSourcesUsed) s.(log);
  following_unmounted : unmounted s
}.

Lemma kept_resting s s' : kept s s' → resting s → resting s'.
Proof.
  intros [Hm Hf Ht Hmem _ _] [[Hl Hfin] HJ]. split; [split|]; rewrite ?Hm, ?Hf, ?Ht, ?Hmem; done.
Qed.
Lemma kept_unmounted s s' : kept s s' → unmounted s → unmounted s'.
Proof. intros [Hm _ Ht _ _ Hl] H. unfold unmounted in *. by rewrite Hl, Hm, Ht. Qed.

Lemma callback_memory ms w : disk_ok w.(memory) → disk_ok (loadConfigFromDisk ms w).1.(memory).
Proof.
  intros HJ. apply (WithRoot_memory (λ m _, disk_ok m)); [|done]. intros root w' Hw. rewrite <- Hw in HJ.
  unfold loadConfigAt.
  destruct (out (root_Stat root ConfigFilename) w') as [w1 [err|]] eqn:E1; apply out_memory in E1;
    [by destruct (errors_Is _ _); simpl; rewrite E1|].
  destruct (out (loadConfig root ConfigFilename) w1) as [w2 [err|c]] eqn:E2; apply out_memory in E2;
    [by simpl; rewrite E2, E1|].
  destruct (Validate validationModeDiskConfig c) eqn:Hv; simpl; [by rewrite E2, E1|done].
Qed.

(** Loading from the disk: waits with the mounter, or is through with a configuration. *)
Lemma loadFromDisk_spec s : resting s →
  returns loadFromDisk s (λ s' r, resting s' ∧ s'.(log) = s.(log) ∧ s'.(configSourcesUsed) = s.(configSourcesUsed) ∧
    match r with
    | inr (cfg, true) => s'.(mounter).(machine) = None ∧ destroyed disk_mounter s'.(mounter).(cenv).(trace) ∧ good stateDisk cfg
    | _ => True
    end).
Proof.
  intros [Hm HJ]. unfold loadFromDisk. apply returns_bind, returns_zoom.
  eapply returns_mono; [|apply (new_machine_mounting disk_mounter _ Hm)].
  intros m r (-> & Hm' & [st Hst] & Hw). apply returns_bind, returns_zoom. cbn [mounter].
  eapply returns_mono; [|apply (run_machine_mounting disk_mounter (λ _, disk_ok) callback_memory m st Hm' Hst); by rewrite Hw].
  intros m' r (Hm'' & _ & HJ' & Hend). destruct r as [err|[]]; [by split_and!; [split|..]|].
  apply returns_bind, returns_get. cbn [mounter log configSourcesUsed].
  destruct (machine m') eqn:Hmach; [apply returns_ret; by split_and!; [split|..]|].
  apply returns_bind, returns_zoom. unfold recall, returns at 1. eexists _, _. split; [done|].
  apply returns_ret. cbn [mounter log configSourcesUsed]. split_and!; [by split|done|done|done|by apply Hend|].
  unfold good. destruct (memory (world (cenv m'))); simpl in *; done.
Qed.

(** ** The states *)

Definition acquire_rank (st : acquire_state) : nat :=
  match st with
  | stateDisk => 9 | stateEmbedded => 8 | stateCmdlineEarly => 7 | statePlatform => 6 | stateCmdlineLate => 5
  | stateMaintenanceEnter => 4 | stateMaintenance => 3 | stateMaintenanceLeave => 2 | stateDone => 1 | stateFinal => 0
  end.

(** After a state, before its configuration is set. *)
Definition stepped (st : acquire_state) s (r : error + (option acquire_state * option Provider)) : Prop :=
  match r with
  | inl _ => resting s
  | inr (new, cfg) =>
      resting s ∧ unmounted s ∧
      acquired (default st new) s.(configSourcesUsed) (s.(log) ++ effect s.(configSourcesUsed) cfg) ∧
      from_option (λ st', (acquire_rank st' < acquire_rank st)%nat) True new
  end.

Lemma kept_following st s s' : kept s s' → following st s → following st s'.
Proof.
  intros Hk [Hr Ha Hu]. split; [by eapply kept_resting| |by eapply kept_unmounted].
  destruct Hk as [_ _ _ _ -> ->]. done.
Qed.

Lemma acquired_at_disk used l : acquired (W:=W) stateDisk used l → used = [] ∧ l = [].
Proof.
  inversion 1 as [| |cfg Hc Heq|st name next cfg used' l' H' Hsrc Hc Heq|st name next used' l' H' Hsrc Hcm Hin Heq| | | | |];
    subst; try done.
  - destruct cfg as [c|]; [by destruct (CompleteForBoot c)|done].
  - destruct (complete cfg); [done|]. subst. by destruct st.
  - by destruct st.
Qed.

(** A note of events that are not answers of the disk. *)
Lemma unmounted_more s s' evs : s'.(mounter) = s.(mounter) → s'.(log) = s.(log) ++ evs →
  (∀ cfg, ASource "state" cfg ∉ evs) → unmounted s → unmounted s'.
Proof.
  intros Hm Hl Hevs Hu [cfg Hin]. rewrite Hm. rewrite Hl in Hin. apply Hu.
  apply elem_of_app in Hin as [Hin|Hin]; [by exists cfg|by apply Hevs in Hin].
Qed.
Lemma effect_sources used cfg cfg' : ASource "state" cfg ∉ effect (W:=W) used cfg'.
Proof.
  unfold effect. destruct cfg' as [c|]; [|apply not_elem_of_nil].
  destruct (only_state used); rewrite !elem_of_cons, elem_of_nil; naive_solver.
Qed.

Lemma answered_spec s name cfg : returns (answered name cfg) s (λ s' r, r = inr () ∧
  s'.(mounter) = s.(mounter) ∧ s'.(log) = s.(log) ++ [ASource name cfg] ∧
  s'.(configSourcesUsed) = after name cfg s.(configSourcesUsed)).
Proof. unfold answered, set_run. apply returns_bind, returns_get, returns_modify. done. Qed.
Lemma note_spec s evs : returns (note evs) s (λ s' r, r = inr () ∧
  s'.(mounter) = s.(mounter) ∧ s'.(log) = s.(log) ++ evs ∧ s'.(configSourcesUsed) = s.(configSourcesUsed)).
Proof. unfold note, set_run. apply returns_bind, returns_get, returns_modify. done. Qed.

Lemma resting_same s s' : s'.(mounter) = s.(mounter) → resting s → resting s'.
Proof. intros Hm [H1 H2]. split; by rewrite Hm. Qed.

Lemma source_rank st name nxt : source_of (W:=W) st = Some (name, nxt) → (1 < acquire_rank nxt < acquire_rank st)%nat.
Proof. destruct st; intros; simplify_eq/=; lia. Qed.

Lemma proceed_follows st name nxt cfg s : following st s → source_of st = Some (name, nxt) →
  name ≠ "state"%string → good st cfg → returns (proceed name cfg nxt) s (stepped st).
Proof.
  intros [Hr Ha Hu] Hsrc Hne Hgood. unfold proceed. apply returns_bind.
  eapply returns_mono; [|apply answered_spec]. intros s' r (-> & Hm & Hl & Hs). apply returns_ret.
  pose proof (source_rank _ _ _ Hsrc) as Hrank.
  assert (Hu' : unmounted s').
  { eapply unmounted_more; [done..| |done]. intros c Hin%list_elem_of_singleton. by injection Hin. }
  assert (Ha' := acquired_source _ _ _ cfg _ _ Ha Hsrc Hgood).
  destruct (complete cfg) eqn:Hc; simpl; rewrite Hs, Hl, <- app_assoc;
    (split_and!; [by eapply resting_same|done|done|lia]).
Qed.

Lemma loaded_follows {st name nxt s} (c : ctl (option Provider)) : following st s →
  source_of st = Some (name, nxt) → name ≠ "state"%string → calm c → yields (good st) c →
  returns (cfg ← c; proceed name cfg nxt) s (stepped st).
Proof.
  intros Hf Hsrc Hne Hq Hy. apply returns_bind. eapply returns_mono; [|apply (returns_yields _ _ _ _ (Hq s) Hy)].
  intros s' [err|cfg] [Hk Hg]; [by eapply kept_resting, Hf|]. by eapply proceed_follows; [eapply kept_following|..].
Qed.

Lemma cmdline_follows st param name nxt s : following st s → source_of st = Some (name, nxt) →
  on_cmdline st = true → name ≠ "state"%string → returns (stateCmdlineGeneric param name nxt) s (stepped st).
Proof.
  intros Hf Hsrc Hon Hne. unfold stateCmdlineGeneric. destruct InContainer eqn:Hc.
  - apply returns_ret. destruct Hf as [Hr Ha Hu]. pose proof (source_rank _ _ _ Hsrc). simpl. rewrite app_nil_r.
    split_and!; [done|done|by eapply acquired_no_cmdline|lia].
  - apply loaded_follows; [done..|apply calm_cmdline|apply cmdline_good; by destruct st].
Qed.

Lemma disk_follows s : following stateDisk s → returns stateDisk_ s (stepped stateDisk).
Proof.
  intros Hf. unfold stateDisk_. apply returns_bind.
  assert (Hq : calm (wrapf "failed observing STATE volume status: %w" (query_world (GetVolumePhase StatePartitionLabel))))
    by calm_solve.
  eapply returns_mono; [|apply Hq]. intros s1 [err|phase] Hk; [by eapply kept_resting, Hf|].
  pose proof (kept_following _ _ _ Hk Hf) as [Hr Ha Hu]. clear Hk Hf.
  assert (Hwait : returns (mret (None, None) : ctl (option acquire_state * option Provider)) s1 (stepped stateDisk)).
  { apply returns_ret. simpl. by rewrite app_nil_r. }
  destruct (acquired_at_disk _ _ Ha) as [Hs Hl].
  destruct phase as [[]|]; try exact Hwait.
  { apply returns_ret. simpl. rewrite Hs, Hl. split_and!; [done|done|constructor|lia]. }
  apply returns_bind. eapply returns_mono; [|by apply loadFromDisk_spec].
  intros s2 [err|[cfg []]] (Hr2 & Hl2 & Hs2 & Hend); [done| |].
  - destruct Hend as (Hm & Hd & Hgood). cbn [negb]. apply returns_bind.
    eapply returns_mono; [|apply answered_spec]. intros s3 r (-> & Hm3 & Hl3 & Hs3). apply returns_ret.
    assert (Hu3 : unmounted s3) by (intros _; by rewrite Hm3).
    assert (Hr3 : resting s3) by by eapply resting_same.
    pose proof (acquired_state cfg Hgood) as Hacq. rewrite Hl2, Hl in Hl3. rewrite Hs2, Hs in Hs3.
    unfold answer in Hacq. rewrite <- Hs3 in Hacq.
    destruct cfg as [c|]; [destruct (complete (Some c)) eqn:Hc; simpl in Hc; rewrite Hc in Hacq|]; simpl;
      rewrite Hl3; (split_and!; [done|done|exact Hacq|lia]).
  - apply returns_ret. simpl. rewrite Hl2, Hs2, app_nil_r. split_and!; [done| |done|done].
    intros [cfg' Hin]. rewrite Hl2, Hl in Hin. by apply elem_of_nil in Hin.
Qed.

Lemma maintenance_follows s : following stateMaintenance s → returns stateMaintenance_ s (stepped stateMaintenance).
Proof.
  intros Hf. unfold stateMaintenance_. apply returns_bind.
  assert (Hq : calm (wrapf "failed creating maintenance service request: %w" (call_world ModifyMaintenanceRequest)))
    by calm_solve.
  eapply returns_mono; [|apply Hq]. intros s1 [err|[]] Hk; [by eapply kept_resting, Hf|].
  pose proof (kept_following _ _ _ Hk Hf) as Hf1. apply returns_bind.
  eapply returns_mono; [|apply calm_ask]. intros s2 [err|res] Hk2; [by eapply kept_resting, Hf1|].
  pose proof (kept_following _ _ _ Hk2 Hf1) as [Hr Ha Hu]. clear Hk Hk2 Hf Hf1.
  destruct res as [err|[version c]].
  { destruct (IsNotFoundError err); [apply returns_ret; simpl; by rewrite app_nil_r|by apply returns_throw]. }
  assert (Hnot : ∀ cfg, ASource "state" cfg ∉ [ASource (W:=W) "maintenance" (Some c)]).
  { intros cfg Hin%list_elem_of_singleton. by injection Hin. }
  destruct (CompleteForBoot c) eqn:Hc; apply returns_bind.
  - eapply returns_mono; [|apply answered_spec]. intros s3 r (-> & Hm3 & Hl3 & Hs3). apply returns_ret. simpl.
    rewrite Hl3, Hs3, <- app_assoc. split_and!; [by eapply resting_same|by eapply unmounted_more| |lia].
    by apply (acquired_maintenance c).
  - eapply returns_mono; [|apply note_spec]. intros s3 r (-> & Hm3 & Hl3 & Hs3). apply returns_ret. cbn [stepped default].
    rewrite Hl3, Hs3, <- app_assoc. split_and!; [by eapply resting_same|by eapply unmounted_more| |done].
    by apply (acquired_incomplete c).
Qed.

Lemma noted_follows st st' s evs : following st s →
  acquired st' s.(configSourcesUsed) (s.(log) ++ evs) → (acquire_rank st' < acquire_rank st)%nat →
  (∀ cfg, ASource "state" cfg ∉ evs) →
  returns (_ ← note evs; mret (Some st', None) : ctl (option acquire_state * option Provider)) s (stepped st).
Proof.
  intros [Hr Ha Hu] Ha' Hrank Hnot. apply returns_bind. eapply returns_mono; [|apply note_spec].
  intros s3 r (-> & Hm3 & Hl3 & Hs3). apply returns_ret. simpl. rewrite Hl3, Hs3, app_nil_r.
  split_and!; [by eapply resting_same|by eapply unmounted_more|done|done].
Qed.

Lemma leave_follows s : following stateMaintenanceLeave s → returns stateMaintenanceLeave_ s (stepped stateMaintenanceLeave).
Proof.
  intros Hf. unfold stateMaintenanceLeave_. apply returns_bind. eapply returns_mono; [|apply calm_ask].
  intros s1 [err|res] Hk; [by eapply kept_resting, Hf|]. pose proof (kept_following _ _ _ Hk Hf) as Hf1.
  apply returns_bind. set (c := match res with inl _ => _ | inr _ => _ end).
  assert (Hq : calm c) by (unfold c; calm_solve).
  eapply returns_mono; [|apply Hq]. intros s2 [err|ready] Hk2; [by eapply kept_resting, Hf1|].
  pose proof (kept_following _ _ _ Hk2 Hf1) as Hf2. destruct ready; simpl.
  - apply (noted_follows stateMaintenanceLeave); [done|apply acquired_leave, Hf2|simpl; lia|].
    intros cfg Hin%list_elem_of_singleton. done.
  - apply returns_ret. destruct Hf2. simpl. by rewrite app_nil_r.
Qed.

Lemma done_follows s : following stateDone s → returns stateDone_ s (stepped stateDone).
Proof.
  intros Hf. unfold stateDone_. apply returns_bind.
  assert (Hq : calm (wrapf "failed to write status: %w" (call_world WriteAcquireStatus))) by calm_solve.
  eapply returns_mono; [|apply Hq]. intros s1 [err|[]] Hk; [by eapply kept_resting, Hf|].
  pose proof (kept_following _ _ _ Hk Hf) as Hf1.
  apply (noted_follows stateDone); [done|apply acquired_done, Hf1|simpl; lia|].
  intros cfg. rewrite !elem_of_cons, elem_of_nil. naive_solver.
Qed.

Lemma acquire_step_follows st s : PlatformName ≠ "state"%string → following st s →
  returns (acquire_step st) s (stepped st).
Proof.
  intros Hp Hf. destruct st; cbn [acquire_step].
  - by apply disk_follows.
  - apply loaded_follows; [done..|apply calm_embedded_config|apply embedded_good].
  - by apply cmdline_follows.
  - apply loaded_follows; [done..|apply calm_platform|apply platform_good].
  - by apply cmdline_follows.
  - apply (noted_follows stateMaintenanceEnter); [done|apply acquired_enter, Hf|simpl; lia|].
    intros cfg. rewrite !elem_of_cons, elem_of_nil. naive_solver.
  - by apply maintenance_follows.
  - by apply leave_follows.
  - by apply done_follows.
  - apply returns_ret. destruct Hf. simpl. by rewrite app_nil_r.
Qed.

(** ** Passes *)

Lemma apply_config_spec cfg s : resting s →
  returns (apply_config cfg) s (λ s' r, resting s' ∧
    match r with
    | inr _ => kept s {| mounter := s'.(mounter); EmbeddedDirectory := s'.(EmbeddedDirectory);
        skipMaskingEmbeddedConfig := s'.(skipMaskingEmbeddedConfig); storedEmbeddedConfig := s'.(storedEmbeddedConfig);
        configSourcesUsed := s'.(configSourcesUsed); log := s.(log) |} ∧
      s'.(log) = s.(log) ++ effect s.(configSourcesUsed) cfg
    | inl _ => True
    end).
Proof.
  intros Hr. unfold apply_config. destruct cfg as [c|]; [|apply returns_ret; by rewrite app_nil_r].
  assert (Hq : ∀ fmt id, calm (wrapf fmt (SetConfigAs id c))) by (intros; apply calm_map_err, calm_set_as).
  apply returns_bind. eapply returns_mono; [|apply Hq]. intros s1 [err|[]] Hk1; [by split; [eapply kept_resting|]|].
  apply returns_bind. eapply returns_mono; [|apply note_spec]. intros s2 r (-> & Hm2 & Hl2 & Hs2).
  apply returns_bind, returns_get. pose proof Hk1 as [? ? ? ? Hs1 Hl1].
  assert (Hr2 : resting s2) by (eapply resting_same; [done|by eapply kept_resting]).
  unfold effect. rewrite Hs2, Hs1. destruct (only_state (configSourcesUsed s)).
  - apply returns_ret. split; [done|]. split; [|by rewrite Hl2, Hl1]. split; cbn; congruence.
  - apply returns_bind. eapply returns_mono; [|apply Hq].
    intros s3 [err|[]] Hk3; [by split; [eapply kept_resting|]|].
    eapply returns_mono; [|apply note_spec]. intros s4 r (-> & Hm4 & Hl4 & Hs4).
    pose proof Hk3 as [? ? ? ? Hs3 Hl3]. split; [eapply resting_same; [done|by eapply kept_resting]|].
    split; [split; cbn; congruence|]. rewrite Hl4, Hl3, Hl2, Hl1. by rewrite <- app_assoc.
Qed.

Lemma run_states_follows fuel st s : PlatformName ≠ "state"%string → (acquire_rank st < fuel)%nat → following st s →
  returns (run_states fuel st) s (λ s' r, resting s' ∧ match r with inr st' => following st' s' | inl _ => True end).
Proof.
  intros Hp. revert st s. induction fuel as [|fuel IH]; intros st s Hrank Hf; [lia|]. cbn [run_states].
  apply returns_bind, returns_try. eapply returns_mono; [|by apply acquire_step_follows].
  intros s1 [err|[new cfg]] Hstep.
  - apply returns_bind. eapply returns_mono; [|apply note_spec]. intros s2 r (-> & Hm & _). apply returns_throw.
    split; [by eapply resting_same|done].
  - destruct Hstep as (Hr1 & Hu1 & Ha1 & Hlt). apply returns_bind.
    eapply returns_mono; [|by apply apply_config_spec]. intros s2 [err|[]] [Hr2 Hk]; [done|].
    destruct Hk as [[Hm Hfin Ht Hmem Hs _] Hl]. cbn in Hm, Hfin, Ht, Hmem, Hs.
    assert (Hf2 : following (default st new) s2).
    { split; [done|by rewrite Hs, Hl|]. intros [c Hin]. rewrite Hm, Ht. apply Hu1. rewrite Hl in Hin.
      apply elem_of_app in Hin as [Hin|Hin]; [by exists c|by apply effect_sources in Hin]. }
    destruct new as [st'|]; [|by apply returns_ret]. simpl in Hlt. apply IH; [lia|done].
Qed.

Lemma Start_follows s : resting s →
  returns Start s (λ s' r, resting s' ∧ match r with inr st => st = stateDisk ∧ following st s' | inl _ => True end).
Proof.
  intros Hr. unfold Start. apply returns_bind, returns_get.
  set (c := if String.eqb _ _ then _ else _). assert (Hq : calm c) by (unfold c; calm_solve).
  apply returns_bind. eapply returns_mono; [|apply Hq]. intros s1 [err|[]] Hk1; [split; [exact (kept_resting _ _ Hk1 Hr)|done]|].
  apply returns_bind. eapply returns_mono; [|apply calm_map_err, calm_process].
  intros s2 r Hk2.
  assert (Hr2 : resting s2) by exact (kept_resting _ _ Hk2 (kept_resting _ _ Hk1 Hr)). destruct r as [err|[]]; [done|].
  apply returns_bind. unfold set_run. apply returns_modify, returns_ret. split_and!; [by apply (resting_same s2)|done|].
  split; [by apply (resting_same s2)|constructor|]. intros [cfg Hin]. by apply elem_of_nil in Hin.
Qed.

Lemma Reconcile_follows st s : PlatformName ≠ "state"%string → following st s →
  returns (Reconcile st) s (λ s' r, resting s' ∧ match r with inr st' => following st' s' | inl _ => True end).
Proof.
  intros Hp Hf. unfold Reconcile. apply returns_bind.
  assert (Hq : calm (wrapf "failed to get spec: %w" (query_world GetAcquireConfigSpec))) by calm_solve.
  eapply returns_mono; [|apply Hq]. intros s1 [err|found] Hk; [split; [by eapply kept_resting, Hf|done]|].
  pose proof (kept_following _ _ _ Hk Hf) as Hf1. destruct found; cbn [negb].
  - apply run_states_follows; [done| |done]. unfold acquire_fuel. destruct st; simpl; lia.
  - apply returns_ret. split; [apply Hf1|done].
Qed.

(** ** Any number of runs *)

(** The world changes between the passes. *)
Definition in_world (o : W) s : ctrl := {|
  mounter := {| cenv := mkenv {| outer := o; memory := s.(mounter).(cenv).(world).(memory) |} s.(mounter).(cenv).(trace);
                machine := s.(mounter).(machine); finished := s.(mounter).(finished) |};
  EmbeddedDirectory := s.(EmbeddedDirectory); skipMaskingEmbeddedConfig := s.(skipMaskingEmbeddedConfig);
  storedEmbeddedConfig := s.(storedEmbeddedConfig); configSourcesUsed := s.(configSourcesUsed); log := s.(log) |}.
Definition new_controller (o : W) (dir : string) : ctrl := {|
  mounter := {| cenv := mkenv {| outer := o; memory := None |} []; machine := None; finished := [] |};
  EmbeddedDirectory := dir; skipMaskingEmbeddedConfig := false; storedEmbeddedConfig := None;
  configSourcesUsed := []; log := [] |}.

(** [Some st]: [Run] is in the state [st]; [None]: it has returned, and is started again. *)
Inductive acquire_reachable : option acquire_state → ctrl → Prop :=
  | acquire_new o dir : acquire_reachable None (new_controller o dir)
  | acquire_start s o s' r : acquire_reachable None s → Start (in_world o s) = Ok (s', r) →
      acquire_reachable (match r with inr st => Some st | inl _ => None end) s'
  | acquire_reconcile st s o s' r : acquire_reachable (Some st) s → Reconcile st (in_world o s) = Ok (s', r) →
      acquire_reachable (match r with inr st' => Some st' | inl _ => None end) s'.

Lemma in_world_resting o s : resting s → resting (in_world o s).
Proof. intros [[Hl Hf] HJ]. by split; [split|]. Qed.
Lemma in_world_following o st s : following st s → following st (in_world o s).
Proof. intros [Hr Ha Hu]. split; [by apply in_world_resting|done|done]. Qed.

Lemma acquire_reachable_follows ost s : PlatformName ≠ "state"%string → acquire_reachable ost s →
  resting s ∧ match ost with Some st => following st s | None => True end.
Proof.
  intros Hp. induction 1 as [o dir|s o s' r _ [IH _] Heq|st s o s' r _ [_ IH] Heq].
  - split; [|done]. split; [split|]; [by left|constructor|done].
  - pose proof (returns_det _ _ _ _ _ (Start_follows _ (in_world_resting o s IH)) Heq) as [Hr H].
    destruct r as [err|st]; [done|]. split; [done|apply H].
  - pose proof (returns_det _ _ _ _ _ (Reconcile_follows st _ Hp (in_world_following o st s IH)) Heq) as [Hr H].
    by destruct r.
Qed.

(** C21: whatever the world answers, and however often [Run] is started again after an error,
    the sources used and the events of a run are those of the abstract acquisition in its
    state; once the disk has answered, the mounter of the STATE volume is through and its
    request destroyed; and every pass returns. *)
Theorem acquisition_follows st s : PlatformName ≠ "state"%string → acquire_reachable (Some st) s →
  acquired st s.(configSourcesUsed) s.(log) ∧
  ((∃ cfg, ASource "state" cfg ∈ s.(log)) →
   s.(mounter).(machine) = None ∧ destroyed disk_mounter s.(mounter).(cenv).(trace)) ∧
  ∀ o, ∃ s' r, Reconcile st (in_world o s) = Ok (s', r).
Proof.
  intros Hp H. destruct (acquire_reachable_follows _ _ Hp H) as [_ Hf]. pose proof Hf as [_ Ha Hu].
  split_and!; [done|done|]. intros o.
  destruct (Reconcile_follows st _ Hp (in_world_following o st s Hf)) as (s' & r & Heq & _). eauto.
Qed.

(** C10: when the controller writes its status, or leaves maintenance mode, the last
    configuration it set is complete, and is the last one it persisted unless only the disk
    had one; every configuration it set was the answer of a source and passed the validation
    of that source: for the STATE volume and the image the one of configurations on the disk,
    for the command line and the platform the one for the mode of the machine and the one at
    run time; that of the user in maintenance mode is taken as it is.  The status is written
    in the last step only. *)
Theorem acquired_configuration st s : PlatformName ≠ "state"%string → acquire_reachable (Some st) s →
  (finishing st = true → settled s.(configSourcesUsed) s.(log)) ∧
  (AStatus ∈ s.(log) → st = stateFinal) ∧
  ∀ c, c ∈ sets s.(log) → came_from s.(log) c.
Proof.
  intros Hp H. destruct (acquire_reachable_follows _ _ Hp H) as [_ [_ Ha _]].
  split_and!; [by eapply acquired_settled|by eapply acquired_status|by intros; eapply acquired_sets].
Qed.
End run.
