(* ===== verification/Persistence.v ===== *)
(** * Persisting the machine configuration

    [controllers/config/persistence.go]: the persistent configuration is written to the
    STATE volume, and the lifecycle of the volumes is held until it is. *)

From S2P Require Import Prelude Errors Block Devices Volumes MountResources VolumeMounter MounterClient Acquire.

Class PersistWorld (W : Type) `{AW : AcquireWorld W} := {
  ProviderBytes : Provider → error + list Z;
  GetVolumeLifecycle : W → W * (error + option resource_phase);
  AddLifecycleFinalizer : string → W → W * option error;
  RemoveLifecycleFinalizer : string → W → W * option error
}.

Section persistence.
Context {W : Type} `{HC : Cosi W} `{RF : RootFiles W} `{AW : !AcquireWorld W} `{PW : !PersistWorld W}.

(** The memory of the controller; [None] is the undefined version.  [panicked]: a callback has
    panicked, and the panic goes up through the automaton of the mounter, whose deferred calls
    still run. *)
Record persistence := {
  lastPersistedVersion : option Z; configToPersist : option (Z * Provider); panicked : bool
}.
Definition set_pending (cfg : option (Z * Provider)) (m : persistence) : persistence :=
  {| lastPersistedVersion := m.(lastPersistedVersion); configToPersist := cfg; panicked := m.(panicked) |}.

Inductive persist_event :=
  | PLifecycle (phase : resource_phase)
  | PConfig (version : option Z)      (** the configuration that was read *)
  | PAddFinalizer
  | PRemoveFinalizer.                 (** tried *)

Record PersistenceController := { persister : client W persistence; plog : list persist_event }.
Notation ctl := (prog PersistenceController error).

Definition on_client {A} (c : prog (client W persistence) error A) : ctl A :=
  zoom persister (λ m s, {| persister := m; plog := s.(plog) |}) c.
Definition asking {A} (f : W → W * A) : ctl A := on_client (outside f).
Definition happened (e : persist_event) : ctl () :=
  modify (λ s, {| persister := s.(persister); plog := s.(plog) ++ [e] |}).

Definition controllerName : string := "config.PersistenceController".
Definition tempName : string := (ConfigFilename +:+ "-tmp")%string.

(** The callback on the root of the volume; the mode is 0600. *)
Definition persistAt (root : xroot) (w : within W persistence) : within W persistence * option error :=
  match w.(memory).(configToPersist) with
  | None =>     (** a nil dereference, which [run_mounter] raises *)
      ({| outer := w.(outer);
          memory := {| lastPersistedVersion := w.(memory).(lastPersistedVersion); configToPersist := None; panicked := true |} |},
       Some (External "panic"))
  | Some (version, cfg) =>
      match ProviderBytes cfg with
      | inl err => (w, Some (Errorf "error getting config bytes: %w" [Wrapped err]))
      | inr configContents =>
          match out (WriteFile root tempName configContents 384) w with
          | (w, Some err) => (w, Some (Errorf "error writing config to file: %w" [Wrapped err]))
          | (w, None) =>
              match out (root_Rename root tempName ConfigFilename) w with
              | (w, Some err) => (w, Some (Errorf "error renaming config file: %w" [Wrapped err]))
              | (w, None) =>
                  ({| outer := w.(outer); memory := {| lastPersistedVersion := Some version; configToPersist := None;
                                                panicked := w.(memory).(panicked) |} |}, None)
              end
          end
      end
  end.
Definition persistMachineConfig (mountStatus : VolumeMountStatus) : within W persistence → within W persistence * option error :=
  WithRoot mountStatus persistAt.

Definition persist_mounter :=
  NewVolumeMounter (W := within W persistence) controllerName StatePartitionLabel persistMachineConfig [WithDetached true].

(** The persistent configuration with its version, if there is one. *)
Definition read_config : ctl (option (Z * Provider)) :=
  r ← asking (GetConfig PersistentID);
  match r with
  | inl err => if IsNotFoundError err then mret None else throw (Errorf "error getting config: %w" [Wrapped err])
  | inr cfg => mret (Some cfg)
  end.

Definition run_mounter : ctl () :=
  s ← get;
  _ ← match s.(persister).(machine), s.(persister).(cenv).(world).(memory).(configToPersist) with
      | None, Some _ => on_client (new_machine persist_mounter.1)
      | _, _ => mret ()
      end;
  s ← get;
  match s.(persister).(machine) with
  | Some _ =>
      r ← try (on_client (run_machine persist_mounter.2));
      m ← on_client recall;
      if m.(panicked) then lift (Panic NilDereference)
      else wrapf "error running state machine: %w" (of_result r)
  | None => mret ()
  end.

(** What [Run] does on an event. *)
Definition Persist : ctl () :=
  r ← asking GetVolumeLifecycle;
  volumeLifecycle ← wrapf "error fetching volume lifecycle: %w" (of_result r);
  match volumeLifecycle with
  | None => mret ()
  | Some phase =>
      _ ← happened (PLifecycle phase);
      _ ← (if bool_decide (phase = PhaseRunning) then
             err ← asking (AddLifecycleFinalizer controllerName);
             _ ← wrapf "error adding finalizer to volume lifecycle: %w" (check err);
             happened PAddFinalizer
           else mret ());
      cfg ← read_config;
      _ ← happened (PConfig (fst <$> cfg));
      m ← on_client recall;
      _ ← match cfg with
          | Some (version, _) =>
              if bool_decide (m.(lastPersistedVersion) = Some version) then mret ()
              else on_client (remember (set_pending cfg))
          | None => mret ()
          end;
      _ ← run_mounter;
      m ← on_client recall;
      match phase, m.(configToPersist) with
      | PhaseTearingDown, None =>
          _ ← happened PRemoveFinalizer;
          err ← asking (RemoveLifecycleFinalizer controllerName);
          wrapf "error removing finalizer: %w" (check err)
      | _, _ => mret ()
      end
  end.
End persistence.

(** ** The file on the volume is replaced as a whole *)

(** What the code relies on of the files of a volume; [contents]: the file of a name. *)
Class RootFilesLaws {W : Type} (RF : RootFiles W) := {
  contents : string → W → option (list Z);
  file_name : File → string;
  OpenFS_contents path w n : contents n (OpenFS path w).1 = contents n w;
  CloseFS_contents h w n : contents n (CloseFS h w) = contents n w;
  OpenFile_others root name perm w n : n ≠ name → contents n (root_OpenFile root name perm w).1 = contents n w;
  OpenFile_truncates root name perm w f : (root_OpenFile root name perm w).2 = inr f →
    file_name f = name ∧ contents name (root_OpenFile root name perm w).1 = Some [];
  Write_others f d w n : n ≠ file_name f → contents n (file_Write f d w).1 = contents n w;
  Write_appends f d w old : contents (file_name f) w = Some old → (file_Write f d w).2 = None →
    contents (file_name f) (file_Write f d w).1 = Some (old ++ d);
  Close_contents f w n : contents n (file_Close f w).1 = contents n w;
  Rename_fails root a b w n : (root_Rename root a b w).2 ≠ None → contents n (root_Rename root a b w).1 = contents n w;
  Rename_replaces root a b w : (root_Rename root a b w).2 = None →
    contents b (root_Rename root a b w).1 = contents a w
}.

Section files.
Context {W : Type} `{RF : RootFiles W} `{FL : !RootFilesLaws RF}.

Lemma WriteFile_contents root name data perm w :
  (∀ n, n ≠ name → contents n (WriteFile root name data perm w).1 = contents n w) ∧
  ((WriteFile root name data perm w).2 = None → contents name (WriteFile root name data perm w).1 = Some data).
Proof.
  unfold WriteFile. pose proof (OpenFile_others root name perm w) as Ho. pose proof (OpenFile_truncates root name perm w) as Ht.
  destruct (root_OpenFile root name perm w) as [w1 [err|f]]; [by split; [apply Ho|]|]. simpl in Ho, Ht.
  destruct (Ht f eq_refl) as [Hf Hnew]. pose proof (Write_others f data w1) as Hwo. pose proof (Write_appends f data w1 []) as Hwa.
  destruct (file_Write f data w1) as [w2 err]. simpl in Hwo, Hwa. pose proof (Close_contents f w2) as Hc.
  destruct (file_Close f w2) as [w3 err1]. simpl in Hc. rewrite Hf in *. split.
  - intros n Hn. simpl. by rewrite Hc, Hwo, Ho.
  - simpl. destruct err; [done|]. intros _. rewrite Hc. by apply Hwa.
Qed.

Context {M : Type}.
Lemma WithRoot_contents (status : VolumeMountStatus) (cb : xroot → within W M → within W M * option error) w n
    (P : option (list Z) → M → option error → Prop) :
  (∀ root w', contents n w'.(outer) = contents n w.(outer) → w'.(memory) = w.(memory) →
     P (contents n (cb root w').1.(outer)) (cb root w').1.(memory) (cb root w').2) →
  (∀ err, P (contents n w.(outer)) w.(memory) (Some err)) →
  P (contents n (WithRoot status cb w).1.(outer)) (WithRoot status cb w).1.(memory) (WithRoot status cb w).2.
Proof.
  intros Hcb Herr. unfold WithRoot. destruct (negb _); [|by apply Hcb]. unfold out.
  pose proof (OpenFS_contents (vmsTarget (resSpec status)) (outer w) n) as Ho.
  destruct (OpenFS _ (outer w)) as [o [err|h]]; simpl in Ho; [by simpl; rewrite Ho|].
  specialize (Hcb (TreeRoot h) {| outer := o; memory := memory w |} Ho eq_refl).
  destruct (cb (TreeRoot h) _) as [w2 err]. simpl in *. by rewrite CloseFS_contents.
Qed.
End files.

Section properties.
Context {W : Type} `{HC : Cosi W} `{RF : RootFiles W} `{FL : !RootFilesLaws RF}
  `{AW : !AcquireWorld W} `{PW : !PersistWorld W}.
Notation world := (within W (persistence (W:=W))).

Lemma temp_name : ConfigFilename ≠ tempName.
Proof. by vm_compute. Qed.

(** Writing the configuration replaces the file as a whole or not at all: without an
    error the file holds the bytes of the configuration that was waiting, which is then
    recorded as persisted; after any error, the file is as before and the configuration
    keeps waiting. *)
Theorem persisted_whole (status : VolumeMountStatus) (w : world) : w.(memory).(configToPersist) ≠ None →
  let '(w', err) := persistMachineConfig status w in
  match err with
  | None => ∃ version cfg b, w.(memory).(configToPersist) = Some (version, cfg) ∧ ProviderBytes cfg = inr b ∧
      contents ConfigFilename w'.(outer) = Some b ∧
      w'.(memory) = {| lastPersistedVersion := Some version; configToPersist := None; panicked := w.(memory).(panicked) |}
  | Some _ => contents ConfigFilename w'.(outer) = contents ConfigFilename w.(outer) ∧ w'.(memory) = w.(memory)
  end.
Proof.
  intros Hne. destruct (persistMachineConfig status w) as [w' err] eqn:Heq.
  set (P := λ file m (err : option error), match err with
    | None => ∃ version cfg b, w.(memory).(configToPersist) = Some (version, cfg) ∧ ProviderBytes cfg = inr b ∧
        file = Some b ∧ m = {| lastPersistedVersion := Some version; configToPersist := None; panicked := w.(memory).(panicked) |}
    | Some _ => file = contents ConfigFilename w.(outer) ∧ m = w.(memory)
    end).
  assert (HP : P (contents ConfigFilename (persistMachineConfig status w).1.(outer))
    (persistMachineConfig status w).1.(memory) (persistMachineConfig status w).2); [|by rewrite Heq in HP].
  clear w' err Heq. apply (WithRoot_contents status persistAt w ConfigFilename P); [|done].
  intros root w0 Hfile Hmem. unfold persistAt. rewrite Hmem.
  destruct (configToPersist (memory w)) as [[version cfg]|] eqn:Hp; [|by exfalso; apply Hne].
  destruct (ProviderBytes cfg) as [err|b] eqn:Hb; [by simpl|]. unfold out.
  pose proof (WriteFile_contents root tempName b 384 (outer w0)) as [Ho Hn].
  destruct (WriteFile root tempName b 384 (outer w0)) as [w1 [err|]]; simpl in *.
  { by rewrite Ho by apply temp_name. }
  pose proof (Rename_fails root tempName ConfigFilename w1) as Hr. pose proof (Rename_replaces root tempName ConfigFilename w1) as Hrr.
  destruct (root_Rename root tempName ConfigFilename w1) as [w2 [err|]]; simpl in *.
  - rewrite Hr, Ho; [done|apply temp_name|done].
  - exists version, cfg, b. split_and!; [done|done|by rewrite Hrr, Hn|by rewrite Hmem].
Qed.

(** ** The lifecycle is held until the configuration is persisted *)

Notation ctrl := (PersistenceController (W:=W)).
Notation ctl := (prog ctrl error).
Notation mem s := (memory (Devices.world (cenv (persister s)))).
Notation the_mounter := (persist_mounter (W:=W)).2.

(** What holds of the memory in a pass that has found the version [ov] to be new: until the
    callback has succeeded, and after. *)
Definition pending_until (ov : option Z) (before : bool) (m : persistence (W:=W)) : Prop :=
  m.(panicked) = false ∧
  if before then m.(configToPersist) ≠ None ∧ ∀ v, ov = Some v → fst <$> m.(configToPersist) = Some v
  else ∀ v, ov = Some v → fst <$> m.(configToPersist) = Some v ∨ m.(configToPersist) = None ∧ m.(lastPersistedVersion) = Some v.

Lemma persist_callback ov ms (w : world) : pending_until ov true w.(memory) →
  pending_until ov (negb (succeeded (persistMachineConfig ms w).2)) (persistMachineConfig ms w).1.(memory).
Proof.
  intros HJ. apply (WithRoot_memory (λ m err, pending_until ov (negb (succeeded err)) m)); [|done].
  intros root w0 Hw. unfold persistAt. rewrite Hw. pose proof HJ as (Hq & Hne & Hv).
  destruct (configToPersist (memory w)) as [[version cfg]|] eqn:Hp; [|by exfalso; apply Hne].
  destruct (ProviderBytes cfg) as [err|b]; [by simpl; rewrite Hw|].
  destruct (out (WriteFile root tempName b 384) w0) as [w1 [err|]] eqn:E1; apply out_memory in E1;
    [by simpl; rewrite E1, Hw|].
  destruct (out (root_Rename root tempName ConfigFilename) w1) as [w2 [err|]] eqn:E2; apply out_memory in E2;
    [by simpl; rewrite E2, E1, Hw|].
  simpl. split; [by rewrite E2, E1, Hw|]. intros v Hov. right. split; [done|]. by rewrite <- (Hv v Hov).
Qed.

(** The log of the mounter follows its protocol, and until it has called back there is a
    configuration to persist: the callback does not panic. *)
Record sound (s : ctrl) : Prop := {
  sound_mounting : mounting the_mounter s.(persister);
  sound_pending : before_callback s.(persister).(machine) = true → (mem s).(configToPersist) ≠ None;
  sound_calm : (mem s).(panicked) = false
}.

Definition fresh_version (m : persistence (W:=W)) (cfg : option (Z * Provider)) : option Z :=
  match cfg with
  | Some (version, _) => if bool_decide (m.(lastPersistedVersion) = Some version) then None else Some version
  | None => None
  end.

Lemma start_mounter_spec s : sound s →
  returns (match s.(persister).(machine), (mem s).(configToPersist) with
           | None, Some _ => on_client (new_machine createVolumeMountRequest)
           | _, _ => mret ()
           end : ctl ()) s (λ s' r, r = inr () ∧ sound s' ∧ mem s' = mem s ∧ s'.(plog) = s.(plog) ∧
             ((mem s).(configToPersist) ≠ None → s'.(persister).(machine) ≠ None)).
Proof.
  intros [Hm Hp Hq].
  destruct (machine (persister s)) as [st|] eqn:Hmach; [|destruct (configToPersist (mem s)) eqn:Hpend];
    try (apply returns_ret; split_and!; [done|split; rewrite ?Hmach; done|done|done|rewrite Hmach; done]).
  apply returns_zoom. eapply returns_mono; [|by apply new_machine_mounting].
  intros m r (-> & Hm' & [st Hst] & Hw). split_and!; [done| |simpl; by rewrite Hw|done|simpl; by rewrite Hst].
  split; [done| |by simpl; rewrite Hw]. simpl. intros _. by rewrite Hw, Hpend.
Qed.

Lemma recall_spec (s : ctrl) Q : Q s (inr (mem s)) → returns (on_client recall : ctl _) s Q.
Proof. intros HQ. exists s, (inr (mem s)). split; [|done]. by destruct s as [[[] ?] ?]. Qed.

Lemma run_mounter_spec ov s : sound s → (∀ v, ov = Some v → fst <$> (mem s).(configToPersist) = Some v) →
  returns run_mounter s (λ s' _, sound s' ∧ s'.(plog) = s.(plog) ∧
    ((mem s').(configToPersist) = None → ∀ v, ov = Some v → (mem s').(lastPersistedVersion) = Some v)).
Proof.
  intros Hs Hov. unfold run_mounter. apply returns_bind, returns_get, returns_bind.
  eapply returns_mono; [|by apply start_mounter_spec]. intros s1 r (-> & [Hm Hp Hq] & Hmem & Hl & _).
  apply returns_bind, returns_get. rewrite <- Hmem in Hov. destruct (machine (persister s1)) as [st|] eqn:Hmach.
  - apply returns_bind, returns_try, returns_zoom.
    eapply returns_mono; [|apply (run_machine_mounting the_mounter (pending_until ov)
      (λ ms w H, persist_callback ov ms w H) _ st Hm Hmach)].
    + intros m r (Hm' & _ & [Hc HJ] & _). apply returns_bind, recall_spec. simpl. rewrite Hc.
      apply returns_map_err, returns_of_result. split_and!; [split; [done| |done]|done|]; simpl.
      * intros Hb. rewrite Hb in HJ. apply HJ.
      * intros Hnone v Hv. destruct (before_callback (machine m)); [by destruct HJ|].
        destruct (HJ v Hv) as [Heq|[_ ?]]; [by rewrite Hnone in Heq|done].
    + split; [done|]. rewrite Hmach in *. destruct (before_callback (Some st)); [by split; [apply Hp|apply Hov]|].
      intros v Hv. left. by apply Hov.
  - apply returns_ret. split_and!; [by split; rewrite ?Hmach|done|]. intros Hnone v Hv. exfalso.
    specialize (Hov v Hv). by rewrite Hnone in Hov.
Qed.

(** A call of the world. *)
Lemma asking_spec {A} (f : W → W * A) s : sound s →
  returns (asking f) s (λ s' r, sound s' ∧ mem s' = mem s ∧ s'.(plog) = s.(plog) ∧ ∃ a, r = inr a).
Proof.
  intros [Hm Hp Hq]. apply returns_zoom. eapply returns_mono; [|by apply outside_mounting].
  intros m r (Hm' & Hmach & _ & _ & Hmem & ->). split_and!; [|done|done|by eexists].
  split; [done|simpl; by rewrite Hmach, Hmem|by simpl; rewrite Hmem].
Qed.
Lemma read_config_spec s : sound s →
  returns read_config s (λ s' _, sound s' ∧ mem s' = mem s ∧ s'.(plog) = s.(plog)).
Proof.
  intros Hs. unfold read_config. apply returns_bind. eapply returns_mono; [|by apply asking_spec].
  intros s1 r (Hs1 & Hm1 & Hl1 & [err|cfg] & ->); [|by apply returns_ret].
  destruct (IsNotFoundError err); [by apply returns_ret|by apply returns_throw].
Qed.

Lemma remember_version_spec cfg s : sound s →
  returns (match cfg with
           | Some (version, _) =>
               if bool_decide ((mem s).(lastPersistedVersion) = Some version) then mret ()
               else on_client (remember (set_pending cfg))
           | None => mret ()
           end : ctl ()) s (λ s' r, r = inr () ∧ sound s' ∧ s'.(plog) = s.(plog) ∧
             (mem s').(lastPersistedVersion) = (mem s).(lastPersistedVersion) ∧
             ∀ v, fresh_version (mem s) cfg = Some v → fst <$> (mem s').(configToPersist) = Some v).
Proof.
  intros [Hm Hp Hq]. unfold fresh_version. destruct cfg as [[version c]|]; [|by apply returns_ret].
  case_bool_decide; [by apply returns_ret|]. apply returns_zoom, returns_modify.
  split_and!; [done| |done|done|by intros v [= <-]]. split; [|done|done]. destruct Hm as [Hl Hf]. by split.
Qed.

Lemma happened_spec e s : sound s →
  returns (happened e) s (λ s' r, r = inr () ∧ sound s' ∧ mem s' = mem s ∧ s'.(plog) = s.(plog) ++ [e]).
Proof. intros [Hm Hp Hq]. by apply returns_modify. Qed.

(** The finalizer is added while the volumes run, and only then. *)
Lemma add_finalizer_spec phase s : sound s →
  returns (if bool_decide (phase = PhaseRunning) then
             err ← asking (AddLifecycleFinalizer controllerName);
             _ ← wrapf "error adding finalizer to volume lifecycle: %w" (check err);
             happened PAddFinalizer
           else mret () : ctl ()) s (λ s' _, sound s' ∧ mem s' = mem s ∧
             ∃ evs, s'.(plog) = s.(plog) ++ evs ∧ PRemoveFinalizer ∉ evs ∧ (phase = PhaseTearingDown → evs = [])).
Proof.
  intros Hs. case_bool_decide as Hph.
  - apply returns_bind. eapply returns_mono; [|by apply asking_spec].
    intros s1 r (Hs1 & Hm1 & Hl1 & err & ->). apply returns_bind, returns_map_err.
    destruct err as [err|]; [apply returns_throw|apply returns_ret].
    + split_and!; [done|done|]. exists []. rewrite app_nil_r. split_and!; [done|set_solver|done].
    + eapply returns_mono; [|by apply happened_spec]. intros s2 r (-> & Hs2 & Hm2 & Hl2).
      split_and!; [done|by rewrite Hm2|]. exists [PAddFinalizer]. rewrite Hl2, Hl1.
      split_and!; [done|set_solver|by subst].
  - apply returns_ret. split_and!; [done|done|]. exists []. rewrite app_nil_r. split_and!; [done|set_solver|done].
Qed.

(** The end of a pass. *)
Lemma release_spec phase s : sound s →
  returns (m ← on_client recall;
      match phase, m.(configToPersist) with
      | PhaseTearingDown, None =>
          _ ← happened PRemoveFinalizer;
          err ← asking (RemoveLifecycleFinalizer controllerName);
          wrapf "error removing finalizer: %w" (check err)
      | _, _ => mret ()
      end : ctl ()) s (λ s' _, sound s' ∧ mem s' = mem s ∧
        (s'.(plog) = s.(plog) ∨
         s'.(plog) = s.(plog) ++ [PRemoveFinalizer] ∧ phase = PhaseTearingDown ∧ (mem s).(configToPersist) = None)).
Proof.
  intros Hs. apply returns_bind, recall_spec.
  assert (Hret : returns (mret () : ctl ()) s (λ s' _, sound s' ∧ mem s' = mem s ∧
        (s'.(plog) = s.(plog) ∨
         s'.(plog) = s.(plog) ++ [PRemoveFinalizer] ∧ phase = PhaseTearingDown ∧ (mem s).(configToPersist) = None))).
  { apply returns_ret. auto. }
  destruct phase; [exact Hret|]. destruct (configToPersist (mem s)) eqn:Hn; [exact Hret|]. clear Hret.
  apply returns_bind. eapply returns_mono; [|by apply happened_spec]. intros s1 r (-> & Hs1 & Hm1 & Hl1).
  apply returns_bind. eapply returns_mono; [|by apply asking_spec]. intros s2 r (Hs2 & Hm2 & Hl2 & err & ->).
  apply returns_map_err. assert (HQ : sound s2 ∧ mem s2 = mem s ∧ s2.(plog) = s.(plog) ++ [PRemoveFinalizer])
    by (by rewrite Hm2, Hm1, Hl2, Hl1). destruct HQ as (? & ? & ?).
  destruct err; [apply returns_throw|apply returns_ret]; auto 10.
Qed.

(** Nothing but the end of a pass releases the lifecycle. *)
Definition released (s s' : ctrl) (evs : list persist_event) : Prop :=
  ∃ v, evs = [PLifecycle PhaseTearingDown; PConfig v; PRemoveFinalizer] ∧ (mem s').(configToPersist) = None ∧
    ∀ x, v = Some x → (mem s').(lastPersistedVersion) = Some x ∨ (mem s).(lastPersistedVersion) = Some x.
Definition passed (s s' : ctrl) : Prop :=
  sound s' ∧ ∃ evs, s'.(plog) = s.(plog) ++ evs ∧ (PRemoveFinalizer ∈ evs → released s s' evs).

Lemma passed_quiet s s' evs : sound s' → s'.(plog) = s.(plog) ++ evs → PRemoveFinalizer ∉ evs → passed s s'.
Proof. intros Hs Hl Hn. split; [done|]. by exists evs. Qed.

Lemma persist_rest phase cfg s0 s evs : sound s → mem s = mem s0 → s.(plog) = s0.(plog) ++ PLifecycle phase :: evs →
  PRemoveFinalizer ∉ evs → (phase = PhaseTearingDown → evs = []) →
  returns (_ ← happened (PConfig (fst <$> cfg));
      m ← on_client recall;
      _ ← match cfg with
          | Some (version, _) =>
              if bool_decide (m.(lastPersistedVersion) = Some version) then mret ()
              else on_client (remember (set_pending cfg))
          | None => mret ()
          end;
      _ ← run_mounter;
      m ← on_client recall;
      match phase, m.(configToPersist) with
      | PhaseTearingDown, None =>
          _ ← happened PRemoveFinalizer;
          err ← asking (RemoveLifecycleFinalizer controllerName);
          wrapf "error removing finalizer: %w" (check err)
      | _, _ => mret ()
      end : ctl ()) s (λ s' _, passed s0 s').
Proof.
  intros Hs Hm Hl Hn Ht. apply returns_bind. eapply returns_mono; [|by apply happened_spec].
  intros s1 r (-> & Hs1 & Hm1 & Hl1). rewrite Hl, <- app_assoc in Hl1. rewrite Hm in Hm1. clear s Hs Hm Hl.
  apply returns_bind, recall_spec, returns_bind.
  eapply returns_mono; [|by apply remember_version_spec]. intros s2 r (-> & Hs2 & Hl2 & Hlast & Hfresh).
  rewrite Hl1 in Hl2. rewrite Hm1 in Hlast, Hfresh. apply returns_bind.
  eapply returns_mono; [|by apply (run_mounter_spec _ s2 Hs2 Hfresh)]. intros s3 r (Hs3 & Hl3 & Hdone).
  rewrite Hl2 in Hl3. assert (Hq : PRemoveFinalizer ∉ (PLifecycle phase :: evs) ++ [PConfig (fst <$> cfg)]) by set_solver.
  destruct r as [err|[]]; [by eapply passed_quiet|].
  eapply returns_mono; [|by apply release_spec]. intros s4 r (Hs4 & Hm4 & Hend). rewrite Hl3 in Hend.
  destruct Hend as [Hl4|(Hl4 & Hph & Hnone)]; [by eapply passed_quiet|].
  rewrite <- app_assoc in Hl4. split; [done|]. eexists. split; [exact Hl4|]. intros _. rewrite (Ht Hph), Hph.
  exists (fst <$> cfg). split_and!; [done|by rewrite Hm4|]. intros x Hx. rewrite Hm4. specialize (Hdone Hnone).
  destruct cfg as [[version c]|]; [|done]. injection Hx as ->. unfold fresh_version in Hdone.
  case_bool_decide; [by right|]. left. by apply Hdone.
Qed.

Lemma persist_pass s : sound s → returns Persist s (λ s' _, passed s s').
Proof.
  intros Hs. apply returns_bind. eapply returns_mono; [|by apply asking_spec].
  intros s1 r (Hs1 & Hm1 & Hl1 & lifecycle & ->). apply returns_bind, returns_map_err, returns_of_result.
  assert (Hquiet : passed s s1) by (apply (passed_quiet _ _ []); [done|by rewrite app_nil_r|set_solver]).
  destruct lifecycle as [err|[phase|]]; [done| |by apply returns_ret].
  apply returns_bind. eapply returns_mono; [|by apply happened_spec]. intros s2 r (-> & Hs2 & Hm2 & Hl2).
  apply returns_bind. eapply returns_mono; [|by apply add_finalizer_spec].
  intros s3 r (Hs3 & Hm3 & evs & Hl3 & Hn & Ht). rewrite Hl2, Hl1, <- app_assoc in Hl3. simpl in Hl3.
  rewrite Hm2, Hm1 in Hm3. assert (Hq : PRemoveFinalizer ∉ PLifecycle phase :: evs) by set_solver.
  destruct r as [err|[]]; [by eapply passed_quiet|].
  apply returns_bind. eapply returns_mono; [|by apply read_config_spec]. intros s4 r (Hs4 & Hm4 & Hl4).
  rewrite Hl3 in Hl4. destruct r as [err|cfg]; [by eapply passed_quiet|].
  apply (persist_rest phase cfg s s4 evs); [done|by rewrite Hm4|done..].
Qed.

(** *** Every run of the controller *)

Definition new_persistence (o : W) : ctrl := {|
  persister := {| cenv := mkenv {| outer := o; memory := {| lastPersistedVersion := None; configToPersist := None; panicked := false |} |} [];
                  machine := None; finished := [] |};
  plog := [] |}.
(** The world moves on between the passes; the memory and the automaton are kept. *)
Definition with_world (o : W) (s : ctrl) : ctrl := {|
  persister := {| cenv := mkenv {| outer := o; memory := mem s |} s.(persister).(cenv).(trace);
                  machine := s.(persister).(machine); finished := s.(persister).(finished) |};
  plog := s.(plog) |}.

(** Any number of passes, also after one that failed: the runtime starts [Run] again on the
    same controller. *)
Inductive persist_reachable : ctrl → Prop :=
  | persist_new o : persist_reachable (new_persistence o)
  | persist_next s o s' r : persist_reachable s → Persist (with_world o s) = Ok (s', r) → persist_reachable s'.

Lemma with_world_sound o s : sound s → sound (with_world o s).
Proof. intros [[Hl Hf] Hp Hq]. by split; [split| |]. Qed.

Lemma persist_reachable_sound s : persist_reachable s → sound s.
Proof.
  induction 1 as [o|s o s' r _ IH Heq]; [by split; [split; [left|constructor]| |]|].
  by destruct (returns_det _ _ _ _ _ (persist_pass _ (with_world_sound o s IH)) Heq).
Qed.

(** C20: in every pass of every run the controller returns; its mounter keeps to its
    protocol, and the callback always finds a configuration to persist; the finalizer that
    holds the lifecycle of the volumes is removed only at the end of a pass that found the
    lifecycle tearing down, when nothing is waiting to be persisted and the version read in
    that pass, if any, is the one persisted. *)
Theorem lifecycle_released s : persist_reachable s →
  mounting the_mounter s.(persister) ∧
  (before_callback s.(persister).(machine) = true → (mem s).(configToPersist) ≠ None) ∧
  ∀ o, ∃ s' r evs, Persist (with_world o s) = Ok (s', r) ∧ s'.(plog) = s.(plog) ++ evs ∧
    (PRemoveFinalizer ∈ evs → ∃ v, evs = [PLifecycle PhaseTearingDown; PConfig v; PRemoveFinalizer] ∧
      (mem s').(configToPersist) = None ∧
      ∀ x, v = Some x → (mem s').(lastPersistedVersion) = Some x ∨ (mem s).(lastPersistedVersion) = Some x).
Proof.
  intros Hr. pose proof (persist_reachable_sound s Hr) as Hs. pose proof Hs as [Hm Hp _]. split_and!; [done|done|].
  intros o. destruct (persist_pass _ (with_world_sound o s Hs)) as (s' & r & Heq & _ & evs & Hl & Hrel).
  by exists s', r, evs.
Qed.
End properties.
