(* ===== verification/AcquireExamples.v ===== *)
(** * Examples of the configuration controllers

    A machine whose STATE volume, platform and resources are tables; runs of the two
    controllers on it, which instantiate their theorems, and the surprises that modelling
    showed. *)

From S2P Require Import Prelude Errors Block Devices Volumes MountResources VolumeMounter FileSystems MountPoint MountSim MounterClient Acquire AcquireSafety AcquireRun Persistence.
#[local] Open Scope string_scope.
#[local] Open Scope list_scope.

(** ** A machine *)

(** A configuration is its bytes; it is complete when they start with 1. *)
Notation config := (list Z).
Record machine_tables := {
  on_state : gmap string (list Z);        (** the files of the STATE volume *)
  state_phase : option VolumePhase;
  on_platform : error + list Z;
  embedded_file : option (list Z);
  tmpfs_error : option error;
  configs : gmap string (Z * config);
  lifecycle : option resource_phase;
  holders : list string                   (** the finalizers of the lifecycle *)
}.
Notation host := (within store machine_tables).

Definition change_tables {A} (f : machine_tables → machine_tables * A) (w : host) : host * A :=
  let '(t, a) := f w.(memory) in ({| outer := w.(outer); memory := t |}, a).
Definition read_tables {A} (f : machine_tables → A) (w : host) : host * A := (w, f w.(memory)).
Definition missing_file : error := Sentinel "ErrNotExist".
Definition nothing (w : host) : host * option error := (w, None).

(** An open file is its name; every tree is the volume. *)
#[export] Instance host_files : RootFiles host := {|
  File := string;
  OpenFS _ w := (w, inr 3);
  CloseFS _ w := w;
  root_Stat _ name := read_tables (λ t, match t.(on_state) !! name with Some _ => None | None => Some missing_file end);
  root_Open _ name := read_tables (λ t, match t.(on_state) !! name with Some _ => inr name | None => inl missing_file end);
  root_OpenFile _ name _ := change_tables (λ t, (t <| on_state := <[name := []]> t.(on_state) |>, inr name));
  root_Rename _ a b := change_tables (λ t,
    match t.(on_state) !! a with
    | Some d => (t <| on_state := <[b := d]> (delete a t.(on_state)) |>, None)
    | None => (t, Some missing_file)
    end);
  file_Write f d := change_tables (λ t,
    (t <| on_state := <[f := default [] (t.(on_state) !! f) ++ d]> t.(on_state) |>, None));
  file_Close _ := nothing
|}.

#[export] Instance host_files_laws : RootFilesLaws host_files.
Proof.
  refine {| contents n w := w.(memory).(on_state) !! n; file_name (f : File) := f |}; try done.
  - intros root name perm w n Hn. simpl. by rewrite lookup_insert_ne.
  - intros root name perm w f [= <-]. split; [done|]. simpl. by rewrite lookup_insert_eq.
  - intros f d w n Hn. simpl. by rewrite lookup_insert_ne.
  - intros f d w old Hf _. simpl in *. by rewrite lookup_insert_eq, Hf.
  - intros root a b w n. simpl. unfold change_tables. by destruct (on_state (memory w) !! a).
  - intros root a b w. simpl. unfold change_tables. destruct (on_state (memory w) !! a) eqn:Ha; [|done].
    intros _. simpl. by rewrite lookup_insert_eq.
Defined.

Definition parse (b : list Z) : error + config :=
  match b with [] => inl (Errorf "no configuration documents" []) | _ => inr b end.
Definition missing : error := External "not found".
Definition put_config (id : string) (version : Z) (c : config) (t : machine_tables) : machine_tables * option error :=
  (t <| configs := <[id := (version, c)]> t.(configs) |>, None).

#[export] Instance host_acquire : AcquireWorld host := {|
  Provider := config;
  CompleteForBoot c := match c with 1 :: _ => true | _ => false end;
  configloader_NewFromBytes := parse;
  configloader_NewFromReader f := read_tables (λ t, parse (default [] (t.(on_state) !! (f : string))));
  Validate _ c := if bool_decide (9 ∈ c) then Some (Errorf "invalid" []) else None;
  RuntimeValidate _ := nothing;
  filepath_Join a b := a +:+ b;
  os_Stat _ := read_tables (λ t, match t.(embedded_file) with Some _ => None | None => Some missing_file end);
  os_ReadFile _ := read_tables (λ t, match t.(embedded_file) with Some d => inr d | None => inl missing_file end);
  mount_tmpfs _ := change_tables (λ t, match t.(tmpfs_error) with
    | Some e => (t, Some e) | None => (t <| embedded_file := None |>, None) end);
  GetAcquireConfigSpec w := (w, inr true);
  GetVolumePhase _ := read_tables (λ t, inr t.(state_phase));
  PlatformName := "metal";
  PlatformConfiguration := read_tables (λ t, t.(on_platform));
  DetectContentType _ := "text/plain";
  gzip_NewReader _ := None;
  gzip_ReadAll b := inr b;
  InContainer := false;
  Cmdline _ := read_tables (λ _, None);
  base64_DecodeString _ := inr [];
  zstd_NewReader _ := None;
  zstd_ReadAll b := inr b;
  ModifyMaintenanceRequest := nothing;
  TeardownMaintenanceRequest w := (w, inr true);
  DestroyMaintenanceRequest := nothing;
  WriteAcquireStatus := nothing;
  GetConfig id := read_tables (λ t, match t.(configs) !! id with Some c => inr c | None => inl missing end);
  CreateConfig id c := change_tables (put_config id 1 c);
  UpdateConfig id version c := change_tables (put_config id (version + 1) c);
  IsNotFoundError e := match e with External s => String.eqb s "not found" | _ => false end
|}.

#[export] Instance host_persist : PersistWorld host := {|
  ProviderBytes c := inr c;
  GetVolumeLifecycle := read_tables (λ t, inr t.(lifecycle));
  AddLifecycleFinalizer name := change_tables (λ t, (t <| holders := t.(holders) ++ [name] |>, None));
  RemoveLifecycleFinalizer name := change_tables (λ t, (t <| holders := filter (λ h, h ≠ name) t.(holders) |>, None))
|}.

(** The mount controllers answer a request for STATE by a status. *)
Definition state_status (requester : string) (ro : bool) : VolumeMountStatus :=
  {| resID := requester +:+ "-STATE"; resPhase := PhaseRunning; resFinalizers := [];
     resSpec := {| vmsVolumeID := "STATE"; vmsRequester := requester; vmsTarget := "/system/state";
                   vmsReadOnly := ro; vmsDetached := true; vmsDisableAccessTime := false;
                   vmsSecure := false; vmsRoot := PointRoot 0 |} |}.
Definition mounted (requester : string) (ro : bool) (w : host) : host :=
  {| outer := w.(outer) <| vmss := {[requester +:+ "-STATE" := ("STATE", state_status requester ro)]} |>; memory := w.(memory) |}.
Definition unmounted (w : host) : host := {| outer := w.(outer) <| vmss := ∅ |>; memory := w.(memory) |}.
Definition tables (f : machine_tables → machine_tables) (w : host) : host := {| outer := w.(outer); memory := f w.(memory) |}.

Definition no_tables : machine_tables :=
  {| on_state := ∅; state_phase := Some VolumePhaseMissing; on_platform := inl (Sentinel "ErrNoConfigSource");
     embedded_file := None; tmpfs_error := None; configs := ∅; lifecycle := Some PhaseRunning; holders := [] |}.
Definition a_host (t : machine_tables) : host := {| outer := empty_store; memory := t |}.

(** ** Runs of the acquisition *)

Notation acquirer := (AcquireController (W:=host)).
Definition host_of (s : acquirer) : host := outer (Devices.world (cenv (mounter s))).
Definition started (s : acquirer) : acquirer := match Start s with Ok (s', _) => s' | _ => s end.
(** A pass in a state, in the world [f] makes of the last one. *)
Definition pass (f : host → host) (p : option acquire_state * acquirer) : option acquire_state * acquirer :=
  match p with
  | (Some st, s) =>
      match Reconcile st (in_world (f (host_of s)) s) with
      | Ok (s', inr st') => (Some st', s') | Ok (s', inl _) => (None, s') | _ => (Some st, s) end
  | (None, s) =>
      match Start (in_world (f (host_of s)) s) with
      | Ok (s', inr st') => (Some st', s') | Ok (s', inl _) => (None, s') | _ => (None, s) end
  end.
Definition passes (t : machine_tables) (fs : list (host → host)) : option acquire_state * acquirer :=
  fold_left (λ p f, pass f p) fs (None, new_controller (a_host t) "").
Notation same := (λ w : host, w).

Lemma pass_reachable f p : acquire_reachable p.1 p.2 → acquire_reachable (pass f p).1 (pass f p).2.
Proof.
  destruct p as [[st|] s]; intros Hr; unfold pass; simpl in *.
  - destruct (Reconcile st _) as [[s' [e|st']]|e|p] eqn:Heq; [| |done..];
      exact (acquire_reconcile st s _ s' _ Hr Heq).
  - destruct (Start _) as [[s' [e|st']]|e|p] eqn:Heq; [| |done..]; exact (acquire_start s _ s' _ Hr Heq).
Qed.
Lemma passes_reachable t fs : acquire_reachable (passes t fs).1 (passes t fs).2.
Proof.
  unfold passes. set (p := (None, _)). assert (Hp : acquire_reachable p.1 p.2) by apply acquire_new.
  clearbody p. revert p Hp. induction fs as [|f fs IH]; intros p Hp; [done|]. simpl. by apply IH, pass_reachable.
Qed.

(** What a run did, and the configurations in the end. *)
Definition what_was (p : option acquire_state * acquirer) :=
  (p.1, p.2.(configSourcesUsed), p.2.(log), map_to_list (host_of p.2).(memory).(configs)).
Definition user_sends (c : config) : host → host :=
  tables (λ t, t <| configs := <["maintenance" := (1, c)]> t.(configs) |>).

(** The disk has an incomplete configuration; the user completes it. *)
Definition with_disk : machine_tables :=
  no_tables <| state_phase := Some VolumePhaseReady |> <| on_state := {["config.yaml" := [2]]} |>.
Definition reads_disk : list (host → host) :=
  [same; same; mounted "config.AcquireController" true; unmounted].
Definition from_disk := passes with_disk (reads_disk ++ [user_sends [1; 2]]).

Lemma from_disk_reachable : acquire_reachable from_disk.1 from_disk.2.
Proof. exact (passes_reachable with_disk (reads_disk ++ [user_sends [1; 2]])). Qed.

Lemma acquisition_follows_witness :
  acquired stateFinal ["state"; "maintenance"] from_disk.2.(log) ∧
  destroyed (acquire_mounter (W:=host)).2 from_disk.2.(mounter).(cenv).(trace).
Proof.
  assert (Hr : acquire_reachable (Some stateFinal) from_disk.2).
  { assert (Heq : from_disk.1 = Some stateFinal) by (vm_compute; reflexivity). rewrite <- Heq. exact from_disk_reachable. }
  assert (Hn : PlatformName (W:=host) ≠ "state") by (vm_compute; discriminate).
  destruct (acquisition_follows stateFinal from_disk.2 Hn Hr) as (Ha & Hd & _).
  assert (Hu : from_disk.2.(configSourcesUsed) = ["state"; "maintenance"]) by (vm_compute; reflexivity).
  rewrite Hu in Ha. split; [exact Ha|]. apply Hd. exists (Some [2]).
  apply (list_elem_of_lookup_2 _ 0). vm_cast_no_check (eq_refl (Some (ASource (W:=host) "state" (Some [2])))).
Defined.

(** The last configuration of that run came from the user, and is set and persisted. *)
Lemma acquired_configuration_witness :
  settled ["state"; "maintenance"] from_disk.2.(log) ∧ sets from_disk.2.(log) = [[2]; [1; 2]] ∧
  persists from_disk.2.(log) = [[1; 2]].
Proof.
  assert (Hr : acquire_reachable (Some stateFinal) from_disk.2).
  { assert (Heq : from_disk.1 = Some stateFinal) by (vm_compute; reflexivity). rewrite <- Heq. exact from_disk_reachable. }
  assert (Hn : PlatformName (W:=host) ≠ "state") by (vm_compute; discriminate).
  destruct (acquired_configuration stateFinal from_disk.2 Hn Hr) as (Hs & _ & _).
  assert (Hu : from_disk.2.(configSourcesUsed) = ["state"; "maintenance"]) by (vm_compute; reflexivity).
  rewrite Hu in Hs. split; [by apply Hs|]. split; vm_compute; reflexivity.
Defined.

(** An incomplete configuration the user sends is persisted on a machine without one, and
    only set on a machine whose disk has one: a configuration in maintenance counts as a
    source only when it is complete. *)
Example maintenance_not_persisted :
  persists (passes no_tables [same; same; user_sends [3]]).2.(log) = [[3]] ∧
  sets (passes with_disk (reads_disk ++ [user_sends [3]])).2.(log) = [[2]; [3]] ∧
  persists (passes with_disk (reads_disk ++ [user_sends [3]])).2.(log) = [].
Proof. by vm_compute. Qed.

(** When the first attempt to mask the embedded directory fails, the next run of the
    controller takes the directory for one that was overridden, and leaves it readable. *)
Definition masking_fails : option acquire_state * acquirer :=
  passes (no_tables <| embedded_file := Some [1] |> <| tmpfs_error := Some (External "EBUSY") |>)
    [same; tables (λ t, t <| tmpfs_error := None |>); same].
Example embedded_never_masked :
  masking_fails.1 = Some stateFinal ∧ masking_fails.2.(configSourcesUsed) = ["embedded"] ∧
  (host_of masking_fails.2).(memory).(embedded_file) = Some [1] ∧
  (host_of (passes (no_tables <| embedded_file := Some [1] |>) [same; same]).2).(memory).(embedded_file) = None.
Proof. by vm_compute. Qed.


(** ** Runs of the persistence *)

Notation saver := (PersistenceController (W:=host)).
Notation saver_host s := (outer (Devices.world (cenv (persister s)))).
Notation saver_memory s := (memory (Devices.world (cenv (persister s)))).
Definition save (f : host → host) (s : saver) : saver :=
  match Persist (with_world (f (saver_host s)) s) with Ok (s', _) => s' | _ => s end.
Definition saves (t : machine_tables) (fs : list (host → host)) : saver :=
  fold_left (λ s f, save f s) fs (new_persistence (a_host t)).

Lemma save_reachable f s : persist_reachable s → persist_reachable (save f s).
Proof.
  intros Hr. unfold save. destruct (Persist _) as [[s' r]|e|p] eqn:Heq; [|done..].
  exact (persist_next s _ s' r Hr Heq).
Qed.
Lemma saves_reachable t fs : persist_reachable (saves t fs).
Proof.
  unfold saves. assert (Hs : persist_reachable (new_persistence (a_host t))) by apply persist_new.
  revert Hs. generalize (new_persistence (a_host t)).
  induction fs as [|f fs IH]; intros s Hs; [done|]. by apply IH, save_reachable.
Qed.

Definition with_config : machine_tables := no_tables <| configs := {["persistent" := (1, [1; 5])]} |>.
Definition tears_down : host → host := tables (λ t, t <| lifecycle := Some PhaseTearingDown |>).
Definition saved : saver := saves with_config [same; mounted "config.PersistenceController" false; unmounted; tears_down].

(** The configuration is written, and then the lifecycle is released. *)
Lemma lifecycle_released_witness :
  mounting (persist_mounter (W:=host)).2 saved.(persister) ∧
  saved.(plog) = [PLifecycle PhaseRunning; PAddFinalizer; PConfig (Some 1); PLifecycle PhaseRunning; PAddFinalizer;
    PConfig (Some 1); PLifecycle PhaseRunning; PAddFinalizer; PConfig (Some 1);
    PLifecycle PhaseTearingDown; PConfig (Some 1); PRemoveFinalizer] ∧
  (saver_host saved).(memory).(on_state) = {["config.yaml" := [1; 5]]} ∧
  (saver_host saved).(memory).(holders) = [].
Proof.
  split; [exact (proj1 (lifecycle_released saved (saves_reachable with_config _)))|].
  split_and!; vm_compute; reflexivity.
Defined.

(** The lifecycle is released as soon as the file is written, while the mounter is still
    unmounting the volume. *)
Definition released_early : saver :=
  saves with_config [same; λ w, tears_down (mounted "config.PersistenceController" false w)].
Example released_while_mounted :
  released_early.(persister).(machine) = Some waitForVolumeMountStatusRemoved ∧
  (saver_host released_early).(memory).(holders) = [] ∧
  fst <$> map_to_list (saver_host released_early).(outer).(vmss) = ["config.PersistenceController-STATE"].
Proof. by vm_compute. Qed.

(** Nothing is written, and the lifecycle is held, until the volume is mounted. *)
Example held_until_mounted :
  (saver_host (saves with_config [same; tears_down; same])).(memory).(holders) = ["config.PersistenceController"].
Proof. by vm_compute. Qed.

(** The file is replaced; and a temporary file from before does not matter. *)
Definition before_save : within host (persistence (W:=host)) :=
  {| outer := a_host (no_tables <| on_state := {["config.yaml" := [7]; "config.yaml-tmp" := [8; 8; 8]]} |>);
     memory := {| lastPersistedVersion := None; configToPersist := Some (1, [1; 5]); panicked := false |} |}.
Lemma persisted_whole_witness :
  ∃ w', persistMachineConfig (state_status "config.PersistenceController" false) before_save = (w', None) ∧
    contents ConfigFilename w'.(outer) = Some [1; 5].
Proof.
  assert (Hne : before_save.(memory).(configToPersist) ≠ None) by discriminate.
  pose proof (persisted_whole (state_status "config.PersistenceController" false) before_save Hne) as H.
  destruct (persistMachineConfig _ before_save) as [w' err] eqn:Heq.
  assert (Herr : (persistMachineConfig (state_status "config.PersistenceController" false) before_save).2 = None)
    by (vm_compute; reflexivity).
  rewrite Heq in Herr. simpl in Herr. subst err. destruct H as (version & cfg & b & Hp & Hb & Hc & _).
  exists w'. split; [reflexivity|]. rewrite Hc. injection Hp as <- <-. injection Hb as <-. reflexivity.
Defined.
