(* ===== verification/Text.v ===== *)
(** * Texts

    Go strings and byte slices as lists of characters, with what the sources use of the
    packages [strings] and [regexp].  Characters are bytes: on ASCII texts this is what Go
    does, and no theorem is about others. *)

From Stdlib Require Import Ascii.
From S2P Require Import Prelude.

Notation text := (list ascii).
(** A literal. *)
Definition lit (s : string) : text := String.list_ascii_of_string s.
Definition newline : ascii := "010"%char.
Definition backslash : ascii := "092"%char.
Definition dquote : ascii := "034"%char.

Definition HasPrefix (s p : text) : bool := bool_decide (p `prefix_of` s).

(** [strings.ReplaceAll] with a text to replace that is not empty; [skip] characters are
    part of the last one replaced. *)
Fixpoint replace_from (old new : text) (skip : nat) (s : text) : text :=
  match s with
  | [] => []
  | c :: s' =>
      match skip with
      | S k => replace_from old new k s'
      | O =>
          if HasPrefix s old then new ++ replace_from old new (length old - 1) s'
          else c :: replace_from old new 0 s'
      end
  end.
Definition ReplaceAll (s old new : text) : text := replace_from old new 0 s.

(** [strings.TrimSpace], of ASCII white space. *)
Fixpoint drop_while (p : ascii → bool) (s : text) : text :=
  match s with c :: s' => if p c then drop_while p s' else s | [] => [] end.
Definition white (c : ascii) : bool := bool_decide (c ∈ [" "; "009"; "010"; "011"; "012"; "013"]%char).
Definition TrimSpace (s : text) : text := reverse (drop_while white (reverse (drop_while white s))).

(** [filepath.Join] of elements that are clean: the empty ones are left out. *)
Definition slash : text := lit "/".
Fixpoint join_from (p : text) (elements : list text) : text :=
  match elements with
  | [] => p
  | [] :: es => join_from p es
  | e :: es => join_from (if bool_decide (p = slash) then p ++ e else p ++ slash ++ e) es
  end.
Definition Join (elements : list text) : text :=
  match filter (λ e, e ≠ []) elements with
  | [] => []
  | p :: es => join_from p ((λ e, match e with "/"%char :: e' => e' | _ => e end) <$> es)
  end.

(** ** Regular expressions

    Those of [regexp] the sources use: sequences, repetitions of a class of characters,
    groups that are captured, and the anchors of the multi-line mode. *)

Inductive re :=
  | RClass (p : ascii → bool)
  | RMany (greedy : bool) (p : ascii → bool)      (** [p*], [p*?] *)
  | RSeq (r1 r2 : re)
  | RGroup (r : re)
  | RBegin                                        (** [^] *)
  | REnd.                                         (** [$] *)

(** A position: the character before it, and what follows. *)
Record position := { before : option ascii; after : text }.
Notation at_ b s := {| before := b; after := s |}.

(** [p*] from a position: the first way to go on that succeeds, with as many characters as
    possible if it is greedy, as few as possible otherwise. *)
Fixpoint many {R} (greedy : bool) (p : ascii → bool) (b : option ascii) (s : text)
    (k : position → option R) : option R :=
  let more := match s with
              | c :: s' => if p c then many greedy p (Some c) s' k else None
              | [] => None
              end in
  let stop := k (at_ b s) in
  if greedy then match more with Some r => Some r | None => stop end
  else match stop with Some r => Some r | None => more end.

Definition line_begins (b : option ascii) : bool := bool_decide (b = None ∨ b = Some newline).
Definition line_ends (s : text) : bool :=
  match s with [] => true | c :: _ => bool_decide (c = newline) end.

(** The first way to match from a position, in the order of [regexp] (leftmost-first), that
    lets [k] succeed on the end and the groups captured. *)
Fixpoint run {R} (r : re) (at1 : position) (groups : list text) (k : position → list text → option R) : option R :=
  match r with
  | RClass p => match at1.(after) with c :: s => if p c then k (at_ (Some c) s) groups else None | [] => None end
  | RMany greedy p => many greedy p at1.(before) at1.(after) (λ at2, k at2 groups)
  | RSeq r1 r2 => run r1 at1 groups (λ at2 groups, run r2 at2 groups k)
  | RGroup r =>
      run r at1 groups (λ at2 groups,
        k at2 (groups ++ [take (length at1.(after) - length at2.(after)) at1.(after)]))
  | RBegin => if line_begins at1.(before) then k at1 groups else None
  | REnd => if line_ends at1.(after) then k at1 groups else None
  end.
Definition match_at (r : re) (at1 : position) : option (list text * position) :=
  run r at1 [] (λ at2 groups, Some (groups, at2)).

(** The leftmost match. *)
Fixpoint find (r : re) (b : option ascii) (s : text) : option (list text * position) :=
  match match_at r (at_ b s) with
  | Some m => Some m
  | None => match s with c :: s' => find r (Some c) s' | [] => None end
  end.

(** [FindAllSubmatch(s, -1)] of an expression that does not match the empty text: the groups
    of every match. *)
Fixpoint find_all_from (fuel : nat) (r : re) (b : option ascii) (s : text) : list (list text) :=
  match fuel with
  | O => []
  | S fuel =>
      match find r b s with
      | Some (groups, at2) => groups :: find_all_from fuel r at2.(before) at2.(after)
      | None => []
      end
  end.
Definition FindAllSubmatch (r : re) (s : text) : list (list text) := find_all_from (length s) r None s.

(** The classes and the literals. *)
Definition space (c : ascii) : bool :=
  bool_decide (c ∈ [" "; "009"; "010"; "012"; "013"]%char).                 (** [\s] *)
Definition in_line (c : ascii) : bool := bool_decide (c ≠ newline).         (** [.] *)
Definition any_char (c : ascii) : bool := true.                             (** [.] with [(?s)] *)
Definition RSpaces : re := RMany true space.                                (** [\s*] *)
Definition RChar (c : ascii) : re := RClass (λ d, bool_decide (d = c)).
Definition RSome (greedy : bool) (p : ascii → bool) : re := RSeq (RClass p) (RMany greedy p).
Fixpoint RLit (s : text) (r : re) : re :=
  match s with [] => r | c :: s => RSeq (RChar c) (RLit s r) end.

(** ** Little-endian words *)

Definition byte_of (n : Z) : ascii := ascii_of_N (Z.to_N (n mod 256)).
Fixpoint le_bytes (width : nat) (n : Z) : text :=
  match width with O => [] | S width => byte_of n :: le_bytes width (n / 256) end.
Definition le_value (l : text) : Z := foldr (λ c n, Z.of_N (N_of_ascii c) + 256 * n) 0 l.
