(* ===== verification/TextFacts.v ===== *)
(** * Facts about texts and expressions

    What [ReplaceAll] makes of texts with escapes, and how a match of a regular expression
    proceeds: through literals, repetitions and lines that do not match. *)

From Stdlib Require Import Ascii.
From S2P Require Import Prelude Text.

(** ** Escapes *)

(** The characters of [S] with a backslash before them. *)
Definition escape (S : list ascii) (s : text) : text :=
  s ≫= λ c, if bool_decide (c ∈ S) then [backslash; c] else [c].

Lemma escape_cons S c s : escape S (c :: s) = (if bool_decide (c ∈ S) then [backslash; c] else [c]) ++ escape S s.
Proof. done. Qed.
Lemma escape_app S s s' : escape S (s ++ s') = escape S s ++ escape S s'.
Proof. apply bind_app. Qed.
Lemma escape_plain S s : Forall (λ c, c ∉ S) s → escape S s = s.
Proof. induction 1 as [|c s Hc Hs IH]; [done|]. by rewrite escape_cons, bool_decide_false, IH. Qed.
Lemma escape_nil s : escape [] s = s.
Proof. apply escape_plain, Forall_true. intros c. apply not_elem_of_nil. Qed.

Lemma escape_ext S S' s : (∀ c, c ∈ S ↔ c ∈ S') → escape S s = escape S' s.
Proof.
  intros HS. apply list_bind_ext; [|done]. intros c. by rewrite (bool_decide_ext _ _ (HS c)).
Qed.

Lemma HasPrefix_cons c s d p : HasPrefix (c :: s) (d :: p) = bool_decide (d = c) && HasPrefix s p.
Proof.
  unfold HasPrefix. case_bool_decide as Hp; symmetry.
  - apply prefix_cons_inv_1 in Hp as Hc. apply prefix_cons_inv_2 in Hp. by rewrite !bool_decide_true.
  - apply andb_false_iff. destruct (decide (d = c)) as [->|]; [right|by left; apply bool_decide_false].
    apply bool_decide_false. intros H. by apply Hp, prefix_cons.
Qed.
Lemma HasPrefix_nil s : HasPrefix s [] = true.
Proof. apply bool_decide_true, prefix_nil. Qed.

(** No text with [x] escaped begins with a bare [x]. *)
Lemma escape_not_head S x s : x ∈ S → x ≠ backslash → HasPrefix (escape S s) [x] = false.
Proof.
  intros Hx Hb. destruct s as [|c s]; [done|]. rewrite escape_cons. case_bool_decide as Hc; simpl;
    rewrite HasPrefix_cons, HasPrefix_nil, andb_true_r; apply bool_decide_false; [done|]. by intros ->.
Qed.

Lemma replace_cons old new c s : HasPrefix (c :: s) old = false →
  replace_from old new 0 (c :: s) = c :: replace_from old new 0 s.
Proof. intros H. simpl. by rewrite H. Qed.

(** A pass of [Unquote]. *)
Lemma unescape_one S S' x s : x ∈ S → (∀ c, c ∈ S' ↔ c ∈ S ∧ c ≠ x) →
  ReplaceAll (escape S s) [backslash; x] [x] = escape S' s.
Proof.
  intros Hx HS. unfold ReplaceAll. induction s as [|c s IH]; [done|]. rewrite !escape_cons.
  destruct (decide (c ∈ S)) as [Hc|Hc].
  - rewrite (bool_decide_true _ Hc). simpl app. destruct (decide (c = x)) as [->|Hne].
    + rewrite bool_decide_false by (rewrite HS; tauto). simpl. rewrite !HasPrefix_cons, HasPrefix_nil, !bool_decide_true by done.
      simpl. by rewrite IH.
    + rewrite bool_decide_true by (rewrite HS; done). rewrite replace_cons.
      2: { rewrite HasPrefix_cons, HasPrefix_cons. rewrite (bool_decide_false (x = c)) by done. by rewrite andb_false_r. }
      rewrite replace_cons; [by rewrite IH|]. rewrite HasPrefix_cons. destruct (decide (backslash = c)) as [<-|Hb].
      * rewrite escape_not_head by done. apply andb_false_r.
      * by rewrite bool_decide_false by done.
  - rewrite (bool_decide_false _ Hc). rewrite bool_decide_false by (rewrite HS; tauto). simpl app.
    rewrite replace_cons; [by rewrite IH|]. rewrite HasPrefix_cons. destruct (decide (backslash = c)) as [<-|Hb].
    + rewrite escape_not_head; [by rewrite andb_false_r|done|]. by intros ->.
    + by rewrite bool_decide_false by done.
Qed.

(** A pass of [Quote]: of a character that is not a backslash, or the first one. *)
Lemma escape_one S S' x s : x ∉ S → x ≠ backslash ∨ S = [] → (∀ c, c ∈ S' ↔ c ∈ S ∨ c = x) →
  ReplaceAll (escape S s) [x] [backslash; x] = escape S' s.
Proof.
  intros Hx Hb HS. unfold ReplaceAll. induction s as [|c s IH]; [done|]. rewrite !escape_cons.
  assert (Hkeep : ∀ d t, d ≠ x → replace_from [x] [backslash; x] 0 (d :: t) = d :: replace_from [x] [backslash; x] 0 t).
  { intros d t Hd. apply replace_cons. rewrite HasPrefix_cons, bool_decide_false by done. done. }
  destruct (decide (c = x)) as [->|Hne].
  - rewrite (bool_decide_false _ Hx), bool_decide_true by (rewrite HS; tauto). simpl.
    rewrite HasPrefix_cons, HasPrefix_nil, bool_decide_true by done. simpl. by rewrite IH.
  - destruct (decide (c ∈ S)) as [Hc|Hc].
    + rewrite (bool_decide_true _ Hc), bool_decide_true by (rewrite HS; tauto). simpl app.
      rewrite !Hkeep, IH; [done|done|]. destruct Hb as [?| ->]; [done|]. by apply not_elem_of_nil in Hc.
    + rewrite (bool_decide_false _ Hc), bool_decide_false by (rewrite HS; tauto). simpl app. by rewrite Hkeep, IH.
Qed.

(** ** Repetitions *)

(** The character before the end of [w]. *)
Fixpoint ahead (b : option ascii) (w : text) : option ascii :=
  match w with [] => b | c :: w => ahead (Some c) w end.
Lemma ahead_app b u v : ahead b (u ++ v) = ahead (ahead b u) v.
Proof. revert b. induction u; simpl; auto. Qed.
Lemma ahead_last b w c : ahead b (w ++ [c]) = Some c.
Proof. by rewrite ahead_app. Qed.

(** A text at which a repetition of [p] ends. *)
Definition stops (p : ascii → bool) (s : text) : Prop := match s with c :: _ => p c = false | [] => True end.

Section many.
Context {R : Type} (p : ascii → bool) (k : position → option R).

(** All of [w], and the rest goes on. *)
Lemma many_greedy b w s r : Forall p w → stops p s → k (at_ (ahead b w) s) = Some r →
  many true p b (w ++ s) k = Some r.
Proof.
  revert b. induction w as [|c w IH]; intros b Hw Hs Hk; simpl in *.
  - destruct s as [|d s]; simpl in *; [done|]. by rewrite Hs.
  - apply Forall_cons in Hw as [Hc Hw]. apply Is_true_true in Hc. rewrite Hc, IH; done.
Qed.

(** It goes back to the end of [u]. *)
Lemma many_greedy_back b u v s r : Forall p (u ++ v) → stops p s →
  (∀ v1 v2, v = v1 ++ v2 → v1 ≠ [] → k (at_ (ahead (ahead b u) v1) (v2 ++ s)) = None) →
  k (at_ (ahead b u) (v ++ s)) = Some r → many true p b (u ++ v ++ s) k = Some r.
Proof.
  intros Hp Hs. revert b. induction u as [|c u IH]; intros b Hback Hk; simpl in *.
  - assert (Hnone : ∀ b v', Forall p v' → (∀ v1 v2, v' = v1 ++ v2 → k (at_ (ahead b v1) (v2 ++ s)) = None) →
      many true p b (v' ++ s) k = None).
    { clear - Hs. intros b v'. revert b. induction v' as [|c v' IH]; intros b Hv Hn; simpl.
      - pose proof (Hn [] [] eq_refl) as H0. simpl in H0. destruct s as [|d s]; simpl in *; [done|]. by rewrite Hs.
      - apply Forall_cons in Hv as [Hc Hv]. apply Is_true_true in Hc. rewrite Hc, IH; [|done|].
        + apply (Hn [] (c :: v') eq_refl).
        + intros v1 v2 ->. by apply (Hn (c :: v1) v2). }
    destruct v as [|c v]; simpl.
    + destruct s as [|d s]; simpl in *; [done|]. by rewrite Hs.
    + apply Forall_cons in Hp as [Hc Hp]. apply Is_true_true in Hc. rewrite Hc.
      rewrite Hnone; [done|done|]. intros v1 v2 ->. by apply (Hback (c :: v1) v2).
  - apply Forall_cons in Hp as [Hc Hp]. apply Is_true_true in Hc. rewrite Hc, IH; done.
Qed.

(** As little as lets the rest go on. *)
Lemma many_lazy b w s r : Forall p w →
  (∀ u v, w = u ++ v → v ≠ [] → k (at_ (ahead b u) (v ++ s)) = None) →
  k (at_ (ahead b w) s) = Some r → many false p b (w ++ s) k = Some r.
Proof.
  revert b. induction w as [|c w IH]; intros b Hw Hno Hk; simpl in *.
  - destruct s; simpl; by rewrite Hk.
  - apply Forall_cons in Hw as [Hc Hw]. apply Is_true_true in Hc.
    pose proof (Hno [] (c :: w) eq_refl) as H0. simpl in H0. rewrite H0, Hc by done.
    apply IH; [done| |done]. intros u v -> Hv. by apply (Hno (c :: u) v).
Qed.

(** A greedy repetition succeeds when the rest can go on at once. *)
Lemma many_greedy_some b s : is_Some (k (at_ b s)) →
  ∃ w s' r, s = w ++ s' ∧ Forall p w ∧ k (at_ (ahead b w) s') = Some r ∧ many true p b s k = Some r.
Proof.
  revert b. induction s as [|c s IH]; intros b [r0 Hk]; simpl.
  - exists [], [], r0. by rewrite Hk.
  - assert (Hhere : ∃ w s' r, c :: s = w ++ s' ∧ Forall p w ∧ k (at_ (ahead b w) s') = Some r ∧ k (at_ b (c :: s)) = Some r)
      by (exists [], (c :: s), r0; rewrite Hk; by repeat constructor).
    destruct (p c) eqn:Hc; [|done]. destruct (many true p (Some c) s k) as [r1|] eqn:Hm; [|done].
    clear Hhere. assert (Hr : ∃ w s', s = w ++ s' ∧ Forall p w ∧ k (at_ (ahead (Some c) w) s') = Some r1).
    { clear IH Hk r0. revert c Hc Hm. induction s as [|d s IH]; intros c Hc Hm; simpl in Hm.
      - exists [], []. split_and!; [done|constructor|done].
      - destruct (p d) eqn:Hd.
        + destruct (many true p (Some d) s k) as [r2|] eqn:Hm2.
          * injection Hm as ->. destruct (IH d Hd Hm2) as (w & s' & -> & Hw & Hk). exists (d :: w), s'.
            split_and!; [done|by constructor; [apply Is_true_true|]|done].
          * exists [], (d :: s). split_and!; [done|constructor|done].
        + exists [], (d :: s). split_and!; [done|constructor|done]. }
    destruct Hr as (w & s' & -> & Hw & Hk'). exists (c :: w), s', r1.
    split_and!; [done|by constructor; [apply Is_true_true|]|done|done].
Qed.
End many.

(** ** Literals and lines *)

(** The literal [k] differs from the start of [s]. *)
Fixpoint mismatch (k s : text) : bool :=
  match k, s with
  | [], _ => false
  | _, [] => true
  | a :: k, c :: s => negb (bool_decide (c = a)) || mismatch k s
  end.
Fixpoint trim (s : text) : text :=
  match s with c :: s' => if space c then trim s' else s | [] => [] end.

Section run.
Context {R : Type} (k : position → list text → option R).

Lemma run_RLit kw r b s groups : run (RLit kw r) (at_ b (kw ++ s)) groups k = run r (at_ (ahead b kw) s) groups k.
Proof. revert b. induction kw as [|c kw IH]; intros b; [done|]. simpl. rewrite bool_decide_true by done. apply IH. Qed.
Lemma run_mismatch kw r b s groups : mismatch kw s = true → run (RLit kw r) (at_ b s) groups k = None.
Proof.
  revert b s. induction kw as [|a kw IH]; intros b s H; [done|]. destruct s as [|c s]; [done|]. simpl in *.
  case_bool_decide as Hc; [|done]. by apply IH.
Qed.

(** White space before a literal that is not there. *)
Lemma run_spaces_mismatch kw r b s groups : (match kw with c :: _ => space c = false | [] => False end) →
  mismatch kw (trim s) = true → run (RSeq RSpaces (RLit kw r)) (at_ b s) groups k = None.
Proof.
  intros Hkw. cbn [run before after RSpaces]. revert b. induction s as [|c s IH]; intros b H.
  - simpl. by apply run_mismatch.
  - cbn [trim] in H. cbn [many]. destruct (space c) eqn:Hc.
    + rewrite IH by done. apply run_mismatch. destruct kw as [|a kw]; [done|]. simpl.
      rewrite bool_decide_false; [done|]. intros ->. congruence.
    + by apply run_mismatch.
Qed.
End run.

Lemma find_here r b s m : match_at r (at_ b s) = Some m → find r b s = Some m.
Proof. intros H. destruct s; simpl; by rewrite H. Qed.

(** Nothing matches inside of a line. *)
Lemma not_at_line_start r c s : c ≠ newline → match_at (RSeq RBegin r) (at_ (Some c) s) = None.
Proof. intros Hc. unfold match_at. simpl. unfold line_begins. rewrite bool_decide_false; [done|]. intros [?|[= ?]]; done. Qed.
Lemma find_in_line r c l s : c ≠ newline → newline ∉ l →
  find (RSeq RBegin r) (Some c) (l ++ newline :: s) = find (RSeq RBegin r) (Some newline) s.
Proof.
  revert c. induction l as [|d l IH]; intros c Hc Hl; cbn [app find].
  - by rewrite not_at_line_start.
  - apply not_elem_of_cons in Hl as [Hd Hl]. rewrite not_at_line_start, IH; done.
Qed.
Lemma find_line r b l s : newline ∉ l → match_at (RSeq RBegin r) (at_ b (l ++ newline :: s)) = None →
  find (RSeq RBegin r) b (l ++ newline :: s) = find (RSeq RBegin r) (Some newline) s.
Proof.
  intros Hl Hm. destruct l as [|d l]; cbn [app find] in *; rewrite Hm; [done|].
  apply not_elem_of_cons in Hl as [Hd Hl]. by apply find_in_line.
Qed.
Lemma find_last_line r b l : newline ∉ l → match_at (RSeq RBegin r) (at_ b l) = None → find (RSeq RBegin r) b l = None.
Proof.
  revert b. induction l as [|d l IH]; intros b Hl Hm; cbn [find]; rewrite Hm; [done|].
  apply not_elem_of_cons in Hl as [Hd Hl]. apply IH; [done|]. by apply not_at_line_start.
Qed.

(** What is not found in a text is not found in its end. *)
Lemma find_none_end r b w s : find r b (w ++ s) = None → find r (ahead b w) s = None.
Proof.
  revert b. induction w as [|c w IH]; intros b H; [done|]. simpl in *. destruct (match_at r _); [done|]. by apply IH.
Qed.

(** What a group captures. *)
Lemma captured (u s : text) : take (length (u ++ s) - length s) (u ++ s) = u.
Proof. rewrite length_app. replace (length u + length s - length s)%nat with (length u) by lia. apply take_app_length. Qed.

(** ** Little-endian words *)

Lemma byte_of_value n : Z.of_N (N_of_ascii (byte_of n)) = n mod 256.
Proof.
  unfold byte_of. pose proof (Z.mod_pos_bound n 256). rewrite N_ascii_embedding by lia. lia.
Qed.
Lemma le_value_bytes width n : 0 ≤ n < 256 ^ Z.of_nat width → le_value (le_bytes width n) = n.
Proof.
  revert n. induction width as [|width IH]; intros n Hn; [change (256 ^ Z.of_nat 0) with 1 in Hn; simpl; lia|].
  cbn [le_bytes le_value foldr]. fold (le_value (le_bytes width (n / 256))). rewrite byte_of_value, IH.
  - pose proof (Z.div_mod n 256). lia.
  - rewrite Nat2Z.inj_succ, Z.pow_succ_r in Hn by lia. split; [apply Z.div_pos; lia|]. apply Z.div_lt_upper_bound; lia.
Qed.
Lemma length_le_bytes width n : length (le_bytes width n) = width.
Proof. revert n. induction width; intros n; simpl; [done|by f_equal]. Qed.
