(* ===== verification/GrubConfig.v ===== *)
(** * The configuration of GRUB

    [runtime/v1alpha1/bootloader/grub]: boot labels (boot_label.go), the configuration with
    its entries (grub.go), what it is written as (encode.go, quote.go) and how it is read
    back (decode.go).  Texts are those of Text.v; errors keep their format only where their
    arguments do not matter. *)

From Stdlib Require Import Ascii.
From S2P Require Import Prelude Errors Text.

(** ** Labels *)

(** [BootLabel] is a string; the empty one is the label of no entry. *)
Notation BootLabel := text (only parsing).
Definition BootA : BootLabel := lit "A".
Definition BootB : BootLabel := lit "B".
Definition BootReset : BootLabel := lit "Reset".

Definition text_arg (s : text) : arg error := Str (String.string_of_list_ascii s).

Definition ParseBootLabel (name : text) : error + BootLabel :=
  if HasPrefix name BootA then inr BootA
  else if HasPrefix name BootB then inr BootB
  else if HasPrefix name BootReset then inr BootReset
  else inl (Errorf "could not parse boot entry from name: %s" [text_arg name]).

Definition flipBootLabel (e : BootLabel) : error + BootLabel :=
  if bool_decide (e = BootA) then inr BootB
  else if bool_decide (e = BootB) then inr BootA
  else inl (Errorf "invalid entry: %s" [text_arg e]).

(** ** The configuration *)

Record MenuEntry := { Name : text; Linux : text; Cmdline : text; Initrd : text }.
Record Config := {
  Default : BootLabel;
  Fallback : BootLabel;
  Entries : gmap BootLabel MenuEntry;
  AddResetOption : bool
}.

#[export] Instance MenuEntry_eq_dec : EqDecision MenuEntry.
Proof. solve_decision. Defined.

Definition NewConfig : Config := {| Default := BootA; Fallback := []; Entries := ∅; AddResetOption := true |}.

Definition flip (c : Config) : error + Config :=
  match c.(Entries) !! c.(Default) with
  | None => inr c
  | Some _ =>
      match flipBootLabel c.(Default) with
      | inl err => inl err
      | inr next => inr {| Default := next; Fallback := c.(Default); Entries := c.(Entries);
                           AddResetOption := c.(AddResetOption) |}
      end
  end.

Definition version_Name : text := lit "Chubo".
Definition KernelAsset : text := lit "vmlinuz".
Definition InitramfsAsset : text := lit "initramfs.xz".
Definition buildMenuEntry (entry : BootLabel) (cmdline versionTag : text) : MenuEntry := {|
  Name := entry ++ lit " - " ++ version_Name ++ lit " " ++ versionTag;
  Linux := Join [slash; entry; KernelAsset];
  Cmdline := cmdline;
  Initrd := Join [slash; entry; InitramfsAsset]
|}.

Definition Put (c : Config) (entry : BootLabel) (cmdline version : text) : Config := {|
  Default := c.(Default); Fallback := c.(Fallback);
  Entries := <[entry := buildMenuEntry entry cmdline version]> c.(Entries);
  AddResetOption := c.(AddResetOption)
|}.

Definition validate (c : Config) : option error :=
  if bool_decide (c.(Entries) !! c.(Default) = None) then
    Some (Errorf "invalid default entry: %s" [text_arg c.(Default)])
  else if negb (bool_decide (c.(Fallback) = [])) && bool_decide (c.(Entries) !! c.(Fallback) = None) then
    Some (Errorf "invalid fallback entry: %s" [text_arg c.(Fallback)])
  else if bool_decide (c.(Default) = c.(Fallback)) then
    Some (Errorf "default and fallback entries must not be the same" [])
  else None.

(** ** Writing it *)

Definition quoted : text := [backslash] ++ lit "{}&$|;<>" ++ [dquote].
Definition unquoted : text := lit "{}&$|;<>" ++ [backslash; dquote].
Definition Quote (s : text) : text := fold_left (λ s c, ReplaceAll s [c] [backslash; c]) quoted s.
Definition Unquote (s : text) : text := fold_left (λ s c, ReplaceAll s [backslash; c] [c]) unquoted s.

(** A line of [wr], with its end. *)
Definition line (s : text) : text := s ++ [newline].
Definition in_quotes (s : text) : text := [dquote] ++ s ++ [dquote].

(** The entry of a menu; [extra] is for the one that resets. *)
Definition encode_entry (name linux cmdline extra initrd : text) : text :=
  line (lit "menuentry " ++ in_quotes name ++ lit " {") ++
  line (lit "  set gfxmode=auto") ++
  line (lit "  set gfxpayload=text") ++
  line (lit "  linux " ++ linux ++ lit " " ++ Quote cmdline ++ extra) ++
  line (lit "  initrd " ++ initrd) ++
  line (lit "}").

Definition header : text :=
  line [] ++ line (lit "set timeout=3") ++ line [] ++ line (lit "insmod all_video") ++ line [] ++
  line (lit "terminal_input console") ++ line (lit "terminal_output console") ++ line [].

Definition ResetName : text := lit "Reset Talos installation and return to maintenance mode".
Definition ResetArgs : text := lit " talos.experimental.wipe=system:EPHEMERAL,STATE".

Definition zeroEntry : MenuEntry := {| Name := []; Linux := []; Cmdline := []; Initrd := [] |}.

(** [labels]: the order in which Go ranges over the entries. *)
Definition Encode (labels : list BootLabel) (c : Config) : error + text :=
  match validate c with
  | Some err => inl err
  | None =>
      let defaultEntry := default zeroEntry (c.(Entries) !! c.(Default)) in
      inr (line (lit "set default=" ++ in_quotes defaultEntry.(Name)) ++
           match c.(Entries) !! c.(Fallback) with
           | Some fallback => line (lit "set fallback=" ++ in_quotes fallback.(Name))
           | None => []
           end ++
           header ++
           mjoin ((λ e, encode_entry e.(Name) e.(Linux) e.(Cmdline) [] e.(Initrd)) <$>
                  omap (λ l, c.(Entries) !! l) labels) ++
           (if c.(AddResetOption) then
              encode_entry ResetName defaultEntry.(Linux) defaultEntry.(Cmdline) ResetArgs defaultEntry.(Initrd)
            else []))
  end.

(** ** Reading it *)

Definition RQuoted (r : re) : re := RSeq (RChar dquote) (RSeq (RGroup (RMany true in_line)) (RSeq (RChar dquote) r)).
Definition assignment (name : string) : re :=
  RSeq RBegin (RSeq RSpaces (RLit (lit name) (RQuoted (RSeq RSpaces REnd)))).
Definition defaultEntryRegex : re := assignment "set default=".
Definition fallbackEntryRegex : re := assignment "set fallback=".
Definition menuEntryRegex : re :=
  RSeq RBegin (RLit (lit "menuentry") (RSeq (RSome true space) (RSeq (RChar dquote)
    (RSeq (RGroup (RSome false any_char)) (RSeq (RChar dquote) (RLit (lit " {")
      (RSeq (RGroup (RSome false any_char))
         (RSeq (RClass (λ c, bool_decide (c ≠ backslash))) (RChar "}"%char))))))))).
Definition linuxRegex : re :=
  RSeq RBegin (RSeq RSpaces (RLit (lit "linux") (RSeq (RSome true space) (RSeq (RGroup (RSome false in_line))
    (RSeq (RSome true space) (RSeq (RGroup (RMany true in_line)) REnd)))))).
Definition initrdRegex : re :=
  RSeq RBegin (RSeq RSpaces (RLit (lit "initrd") (RSeq (RSome true space) (RSeq (RGroup (RSome true in_line)) REnd)))).

Definition parseConfBlock (block : text) : error + (text * text * text) :=
  let block := Unquote block in
  match FindAllSubmatch linuxRegex block with
  | [[linux; cmdline]] =>
      match FindAllSubmatch initrdRegex block with
      | [[initrd]] => inr (linux, cmdline, initrd)
      | _ => inl (Errorf "initrd: expected 1 match, got %d: %s" [])
      end
  | _ => inl (Errorf "linux: expected 1 match, got %d" [])
  end.

Fixpoint parse_matches (matches : list (list text)) (entries : gmap BootLabel MenuEntry) (hasResetOption : bool)
    : error + (gmap BootLabel MenuEntry * bool) :=
  match matches with
  | [] => inr (entries, hasResetOption)
  | [name; confBlock] :: matches =>
      match parseConfBlock confBlock with
      | inl err => inl err
      | inr (linux, cmdline, initrd) =>
          match ParseBootLabel name with
          | inl err => inl err
          | inr bootEntry =>
              if bool_decide (bootEntry = BootReset) then parse_matches matches entries true
              else parse_matches matches
                     (<[bootEntry := {| Name := name; Linux := linux; Cmdline := cmdline; Initrd := initrd |}]> entries)
                     hasResetOption
          end
      end
  | _ :: _ => inl (Errorf "conf block: expected 3 matches, got %d" [])
  end.
Definition parseEntries (conf : text) : error + (gmap BootLabel MenuEntry * bool) :=
  parse_matches (FindAllSubmatch menuEntryRegex conf) ∅ false.

(** The label of an assignment, if there is one. *)
Definition parse_fallback (matches : list (list text)) : error + BootLabel :=
  match matches with
  | [] => inr []
  | [[name]] => ParseBootLabel name
  | [_] => inl (Errorf "failed to parse fallback entry" [])
  | _ => inl (Errorf "found multiple fallback entries" [])
  end.

Definition Decode (c : text) : error + Config :=
  match FindAllSubmatch defaultEntryRegex c with
  | [defaultEntryMatch] =>
      match parse_fallback (FindAllSubmatch fallbackEntryRegex c) with
      | inl err => inl err
      | inr fallbackEntry =>
          match defaultEntryMatch with
          | [name] =>
              match ParseBootLabel name with
              | inl err => inl err
              | inr defaultEntry =>
                  match parseEntries c with
                  | inl err => inl err
                  | inr (entries, hasResetOption) =>
                      inr {| Default := defaultEntry; Fallback := fallbackEntry; Entries := entries;
                             AddResetOption := hasResetOption |}
                  end
              end
          | _ => inl (Errorf "default entry: expected 2 matches, got %d" [])
          end
      end
  | _ => inl (Errorf "failed to find default" [])
  end.
