(* ===== verification/Versions.v ===== *)
(** * Versions

    What depends on the version of the system: quirks of images and partitions
    ([pkg/machinery/imager/quirks]), the bootloader of an image ([selectBootloader] of
    [pkg/imager/profile/output.go]), and which version may be upgraded to which
    ([pkg/machinery/compatibility]).  Semantic versions are the package
    [github.com/blang/semver], an interface. *)

From Stdlib Require Import Ascii.
From S2P Require Import Prelude Errors Text GrubConfig.

(** A version; pre-release and build metadata are one text. *)
Record SemVersion := { Major : Z; Minor : Z; Patch : Z; Suffix : text }.
Definition core (major minor patch : Z) : SemVersion := {| Major := major; Minor := minor; Patch := patch; Suffix := [] |}.

Class Semver := {
  ParseTolerant : text → error + SemVersion;
  semver_Compare : SemVersion → SemVersion → Z;
  semver_String : SemVersion → text;
  triple_Compare : Z * Z * Z → Z * Z * Z → Z                 (** [ordered.Triple] *)
}.

(** Of numbers [a] and [b], and when they are the same what comes next. *)
Definition cmp_then (a b next : Z) : Z := if bool_decide (a < b) then -1 else if bool_decide (b < a) then 1 else next.
Class SemverLaws (V : Semver) := {
  compare_core v w : v.(Suffix) = [] → w.(Suffix) = [] →
    semver_Compare v w = cmp_then v.(Major) w.(Major) (cmp_then v.(Minor) w.(Minor) (cmp_then v.(Patch) w.(Patch) 0));
  compare_self v : semver_Compare v v = 0;
  compare_triple a b c a' b' c' :
    triple_Compare (a, b, c) (a', b', c') = cmp_then a a' (cmp_then b b' (cmp_then c c' 0))
}.

Section versions.
Context `{V : Semver}.

Definition GTE (v w : SemVersion) : bool := bool_decide (semver_Compare v w >= 0).
Definition LT (v w : SemVersion) : bool := bool_decide (semver_Compare v w < 0).
Definition LTE (v w : SemVersion) : bool := bool_decide (semver_Compare v w <= 0).
Definition EQ (v w : SemVersion) : bool := bool_decide (semver_Compare v w = 0).

(** ** Quirks *)

(** [None] is a version that does not parse. *)
Definition Quirks : Type := option SemVersion.
Definition quirks_New (osVersion : text) : Quirks :=
  match ParseTolerant osVersion with
  | inl _ => None
  | inr v => Some (core v.(Major) v.(Minor) v.(Patch))
  end.

(** From a version on. *)
Definition since (min : SemVersion) (q : Quirks) : bool := match q with None => true | Some v => GTE v min end.

Definition SupportsResetGRUBOption : Quirks → bool := since (core 1 4 0).
Definition SupportsUKI : Quirks → bool := since (core 1 5 0).
Definition SupportsCompressedEncodedMETA : Quirks → bool := since (core 1 6 3).
Definition SupportsOverlay : Quirks → bool := since (core 1 7 0).
Definition UseZSTDCompression : Quirks → bool := since (core 1 8 0).
Definition SupportsISOLabel : Quirks → bool := since (core 1 8 0).
Definition SupportsMultidoc : Quirks → bool := since (core 1 5 0).
Definition SupportsMetalPlatformConsoleTTYS0 (q : Quirks) : bool :=
  match q with None => false | Some v => LT v (core 1 8 0) end.
Definition SupportsHaltIfInstalled : Quirks → bool := since (core 1 8 0).
Definition SkipDataPartitions : Quirks → bool := since (core 1 8 0).
Definition SupportsSELinux : Quirks → bool := since (core 1 10 0).
Definition UseSDBootForUEFI (q : Quirks) : bool := match q with None => false | Some v => GTE v (core 1 10 0) end.
Definition KernelModulesPath (q : Quirks) : text := if since (core 1 10 0) q then lit "/usr/lib/modules" else lit "/lib/modules".
Definition FirmwarePath (q : Quirks) : text := if since (core 1 10 0) q then lit "/usr/lib/firmware" else lit "/lib/firmware".
Definition SupportsUKIProfiles : Quirks → bool := since (core 1 10 0).
Definition SupportsUnifiedInstaller : Quirks → bool := since (core 1 10 0).
Definition XFSMkfsConfig (q : Quirks) : text :=
  match q with
  | None => lit "/usr/share/xfsprogs/mkfs/lts_6.18.conf"
  | Some v =>
      if GTE v (core 1 13 0) then lit "/usr/share/xfsprogs/mkfs/lts_6.18.conf"
      else if GTE v (core 1 10 0) then lit "/usr/share/xfsprogs/mkfs/lts_6.12.conf"
      else if GTE v (core 1 8 0) && LT v (core 1 10 0) then lit "/usr/share/xfsprogs/mkfs/lts_6.6.conf"
      else if GTE v (core 1 5 0) && LT v (core 1 8 0) then lit "/usr/share/xfsprogs/mkfs/lts_6.1.conf"
      else lit "/usr/share/xfsprogs/mkfs/lts_6.1.conf"
  end.
Definition SupportsIMA (q : Quirks) : bool := match q with None => false | Some v => LTE v (core 1 10 99) end.
Definition SupportsEmbeddedConfig : Quirks → bool := since (core 1 12 0).
Definition SupportsDisablingModuleSignatureVerification : Quirks → bool := since (core 1 12 0).
Definition ISOSupportsSettingBootloader : Quirks → bool := since (core 1 12 0).
Definition ProcMemOverrideNever : Quirks → bool := since (core 1 13 0).

(** *** Sizes of partitions *)

Definition mib : Z := 1024 * 1024.
Definition gib : Z := 1024 * mib.
Record PartitionSizes := { bootSize : Z }.
Definition quirk_PartitionSizes (q : Quirks) : PartitionSizes :=
  {| bootSize := match q with
                 | Some v => if LT v (core 1 11 0) then u64 (1000 * mib) else u64 (2000 * mib)
                 | None => u64 (2000 * mib)
                 end |}.
Definition GrubEFISize (p : PartitionSizes) : Z := 100 * mib.
Definition GrubBIOSSize (p : PartitionSizes) : Z := 1 * mib.
Definition GrubBootSize (p : PartitionSizes) : Z := p.(bootSize).
Definition UKIEFISize (p : PartitionSizes) : Z := u64 (u64 (GrubEFISize p + GrubBIOSSize p) + GrubBootSize p).
Definition METASize (p : PartitionSizes) : Z := 1 * mib.
Definition StateSize (p : PartitionSizes) : Z := 100 * mib.
Definition EphemeralMinSize (p : PartitionSizes) : Z := 2 * gib.

(** ** The bootloader of an image *)

Inductive BootloaderKind := BootLoaderKindNone | BootLoaderKindDualBoot | BootLoaderKindSDBoot | BootLoaderKindGrub.
#[export] Instance BootloaderKind_eq_dec : EqDecision BootloaderKind.
Proof. solve_decision. Defined.
Definition kind_String (k : BootloaderKind) : text :=
  match k with
  | BootLoaderKindNone => lit "none" | BootLoaderKindDualBoot => lit "dual-boot"
  | BootLoaderKindSDBoot => lit "sd-boot" | BootLoaderKindGrub => lit "grub"
  end.

Definition selectBootloader (current : BootloaderKind) (arch version : text) (secureboot : bool) : BootloaderKind :=
  if negb (bool_decide (current = BootLoaderKindNone)) && negb secureboot then current
  else
    let useSDBoot := UseSDBootForUEFI (quirks_New version) in
    if secureboot then BootLoaderKindSDBoot
    else if bool_decide (arch = lit "arm64") && useSDBoot then BootLoaderKindSDBoot
    else if negb useSDBoot then BootLoaderKindGrub
    else BootLoaderKindDualBoot.

(** ** Upgrades *)

(** [ChuboVersion], whose [majorMinor] is that of the version. *)
Definition ChuboVersion : Type := SemVersion.
Definition majorMinor (v : ChuboVersion) : Z * Z := (v.(Major), v.(Minor)).
Definition ParseChuboVersion (tag : text) : error + ChuboVersion := ParseTolerant tag.

Definition up_to (limit : Z * Z) (v : ChuboVersion) : bool :=
  bool_decide (v.(Major) <= limit.1) && bool_decide (v.(Minor) <= limit.2).
Definition DisablePredictableNetworkInterfaces (v : ChuboVersion) : bool := up_to (1, 4) v.
Definition PrecreateStatePartition (v : ChuboVersion) : bool := up_to (1, 7) v.
Definition SupportsSSAManifestSync (v : ChuboVersion) : bool :=
  bool_decide (v.(Major) > 1) || (bool_decide (v.(Major) = 1) && bool_decide (v.(Minor) >= 13)).

(** The packages [talos12] to [talos113]: the least version that is upgraded, the first that
    is not downgraded any more, and versions that are denied. *)
Record host_range := { MinimumHostUpgradeVersion : SemVersion; MaximumHostDowngradeVersion : SemVersion; DeniedHostUpgradeVersions : list SemVersion }.
Definition hosts (min max : Z) : host_range :=
  {| MinimumHostUpgradeVersion := core 1 min 0; MaximumHostDowngradeVersion := core 1 max 0; DeniedHostUpgradeVersions := [] |}.
Definition host_ranges : list (Z * Z * host_range) :=
  [(1, 2, hosts 0 3); (1, 3, hosts 0 5); (1, 4, hosts 0 6); (1, 5, hosts 2 7); (1, 6, hosts 3 8); (1, 7, hosts 4 9);
   (1, 8, hosts 5 10); (1, 9, hosts 8 11); (1, 10, hosts 8 12); (1, 11, hosts 9 13); (1, 12, hosts 10 14); (1, 13, hosts 11 15)].

Definition core_of (v : SemVersion) : Z * Z * Z := (v.(Major), v.(Minor), v.(Patch)).
Definition UpgradeableFrom (v host : ChuboVersion) : option error :=
  match list_find (λ r, r.1 = majorMinor v) host_ranges with
  | None => Some (Errorf "upgrades to version %s are not supported" [text_arg (semver_String v)])
  | Some (_, (_, r)) =>
      if bool_decide (triple_Compare (core_of host) (core_of r.(MinimumHostUpgradeVersion)) < 0) then
        Some (Errorf "host version %s is too old to upgrade to Chubo %s" [text_arg (semver_String host); text_arg (semver_String v)])
      else if bool_decide (triple_Compare (core_of host) (core_of r.(MaximumHostDowngradeVersion)) >= 0) then
        Some (Errorf "host version %s is too new to downgrade to Chubo %s" [text_arg (semver_String host); text_arg (semver_String v)])
      else if existsb (EQ host) r.(DeniedHostUpgradeVersions) then
        Some (Errorf "host version %s is denied for upgrade to Chubo %s" [text_arg (semver_String host); text_arg (semver_String v)])
      else None
  end.

(** ** Facts *)

Context `{SL : !SemverLaws V}.

(** The minor version of the oldest host an upgrade to 1.[minor] is for. *)
Definition oldest (minor : Z) : Z :=
  if bool_decide (minor ≤ 4) then 0 else if bool_decide (minor ≤ 8) then minor - 3
  else if bool_decide (minor = 9) then 8 else minor - 2.

Lemma triple_minor (host : SemVersion) (minor : Z) : 0 ≤ host.(Patch) →
  triple_Compare (core_of host) (core_of (core 1 minor 0)) < 0 ↔ host.(Major) < 1 ∨ host.(Major) = 1 ∧ host.(Minor) < minor.
Proof.
  intros Hp. unfold core_of. rewrite compare_triple. cbn. unfold cmp_then. repeat case_bool_decide; lia.
Qed.

(** Versions 1.2 to 1.13 may be installed over hosts of major version 1, from the oldest up to
    the minor version after the next (after the same one for 1.2); whatever their
    pre-release. *)
Theorem upgradeable_hosts v host : 0 ≤ host.(Patch) →
  UpgradeableFrom v host = None ↔
    v.(Major) = 1 ∧ 2 ≤ v.(Minor) ≤ 13 ∧
    host.(Major) = 1 ∧ oldest v.(Minor) ≤ host.(Minor) < v.(Minor) + (if bool_decide (v.(Minor) = 2) then 1 else 2).
Proof.
  intros Hp. unfold UpgradeableFrom.
  destruct (decide (v.(Major) = 1 ∧ 2 ≤ v.(Minor) ≤ 13)) as [[Hmaj Hmin]|Hout].
  - assert (∃ k, list_find (λ r, r.1 = majorMinor v) host_ranges =
      Some (k, (majorMinor v, hosts (oldest v.(Minor)) (v.(Minor) + (if bool_decide (v.(Minor) = 2) then 1 else 2))))) as [k ->].
    { unfold majorMinor. rewrite Hmaj. assert (v.(Minor) ∈ seqZ 2 12) as Hin by (apply elem_of_seqZ; lia).
      revert Hin. generalize v.(Minor). clear. intros m Hm. cbn in Hm.
      repeat (apply elem_of_cons in Hm as [->|Hm]; [by eexists|]). by apply not_elem_of_nil in Hm. }
    cbn [MinimumHostUpgradeVersion MaximumHostDowngradeVersion DeniedHostUpgradeVersions hosts existsb].
    pose proof (triple_minor host (oldest v.(Minor)) Hp) as H1.
    pose proof (triple_minor host (v.(Minor) + (if bool_decide (v.(Minor) = 2) then 1 else 2)) Hp) as H2.
    revert H1 H2. generalize (v.(Minor) + (if bool_decide (v.(Minor) = 2) then 1 else 2)) as next. intros next H1 H2.
    case_bool_decide as Ha; [split; [done|]; intros; lia|]. case_bool_decide as Hb; [split; [done|]; intros; lia|].
    split; [intros _; split_and!; lia|done].
  - destruct (list_find _ _) as [[k [mm r]]|] eqn:Hf; [|split; [done|tauto]].
    exfalso. apply Hout. apply list_find_Some in Hf as (Hl & Heq & _). cbn in Heq. unfold majorMinor in Heq. subst mm.
    apply list_elem_of_lookup_2 in Hl. unfold host_ranges in Hl.
    repeat (apply elem_of_cons in Hl as [[= -> -> _]|Hl]; [lia|]). by apply not_elem_of_nil in Hl.
Qed.

(** A version that does not parse is not taken for a late one: its images boot with GRUB. *)
Lemma unparsed_boots_grub current arch version e : ParseTolerant version = inl e → current = BootLoaderKindNone →
  selectBootloader current arch version false = BootLoaderKindGrub.
Proof.
  intros Hp ->. unfold selectBootloader, quirks_New. rewrite Hp. cbn. by rewrite andb_false_r.
Qed.

(** The sizes do not overflow, and the EFI partition of images takes the place of three. *)
Lemma uki_efi_size q : let p := quirk_PartitionSizes q in
  UKIEFISize p = GrubEFISize p + GrubBIOSSize p + GrubBootSize p ∧ 0 < GrubBootSize p ≤ 2000 * mib.
Proof.
  assert (H : GrubBootSize (quirk_PartitionSizes q) = 1000 * mib ∨ GrubBootSize (quirk_PartitionSizes q) = 2000 * mib).
  { unfold GrubBootSize, quirk_PartitionSizes. destruct q as [v|]; [destruct (LT v _)|]; cbn [bootSize]; [left|right|right]; by vm_compute. }
  cbv zeta. unfold UKIEFISize. destruct H as [-> | ->]; split; by vm_compute.
Qed.
End versions.
