(* ===== verification/GrubCodec.v ===== *)
(** * What is written to grub.cfg is read back

    Quoting, entries, and the whole configuration: [Decode] undoes [Encode]. *)

From Stdlib Require Import Ascii.
From S2P Require Import Prelude Errors Text TextFacts GrubConfig.

(** ** Quoting *)

(** Passes over the characters of a list. *)
Lemma escape_passes xs S S' s : NoDup xs → (∀ x, x ∈ xs → x ∉ S) → (∀ x, x ∈ tail xs → x ≠ backslash) →
  (S = [] ∨ ∀ x, x ∈ xs → x ≠ backslash) → (∀ c, c ∈ S' ↔ c ∈ S ∨ c ∈ xs) →
  fold_left (λ s c, ReplaceAll s [c] [backslash; c]) xs (escape S s) = escape S' s.
Proof.
  revert S. induction xs as [|x xs IH]; intros S Hnd Hnew Htl Hb HS; simpl.
  - apply escape_ext. intros c. rewrite HS. set_solver.
  - apply NoDup_cons in Hnd as [Hx Hnd]. rewrite (escape_one S (x :: S)).
    + apply IH; [done| | | |].
      * intros y Hy. rewrite not_elem_of_cons. split; [by intros ->|apply Hnew; set_solver].
      * intros y Hy. apply Htl. simpl. destruct xs; [done|]. by right.
      * right. apply Htl.
      * intros c. rewrite HS. set_solver.
    + apply Hnew. left.
    + destruct Hb as [->|Hb]; [by right|]. left. apply Hb. left.
    + set_solver.
Qed.

Lemma unescape_passes xs S S' s : NoDup xs → (∀ x, x ∈ xs → x ∈ S) → (∀ c, c ∈ S' ↔ c ∈ S ∧ c ∉ xs) →
  fold_left (λ s c, ReplaceAll s [backslash; c] [c]) xs (escape S s) = escape S' s.
Proof.
  revert S. induction xs as [|x xs IH]; intros S Hnd Hin HS; simpl.
  - apply escape_ext. intros c. rewrite HS. set_solver.
  - apply NoDup_cons in Hnd as [Hx Hnd]. rewrite (unescape_one S (filter (λ c, c ≠ x) S)).
    + apply IH; [done| |].
      * intros y Hy. apply list_elem_of_filter. split; [by intros ->|]. apply Hin. by right.
      * intros c. rewrite HS, list_elem_of_filter. set_solver.
    + apply Hin. left.
    + intros c. rewrite list_elem_of_filter. set_solver.
Qed.

Lemma Quote_escape s : Quote s = escape quoted s.
Proof.
  unfold Quote. rewrite <- (escape_nil s) at 1. apply escape_passes.
  - apply (bool_decide_unpack _). by vm_compute.
  - intros x _. apply not_elem_of_nil.
  - apply (proj1 (Forall_forall _ _)), (bool_decide_unpack _). by vm_compute.
  - by left.
  - set_solver.
Qed.

Lemma Unquote_escape s : Unquote (escape quoted s) = s.
Proof.
  unfold Unquote. rewrite (unescape_passes _ _ []); [apply escape_nil|..].
  - apply (bool_decide_unpack _). by vm_compute.
  - apply (proj1 (Forall_forall _ _)), (bool_decide_unpack _). by vm_compute.
  - intros c. split; [by intros ?%not_elem_of_nil|]. intros [Hc Hn]. destruct Hn. revert c Hc.
    apply (proj1 (Forall_forall _ _)), (bool_decide_unpack _). by vm_compute.
Qed.

(** ** Assignments *)

Lemma assignment_match name v b s : line_begins b = true → newline ∉ v →
  (match lit name with c :: _ => space c = false | [] => False end) →
  ∃ w s', newline :: s = w ++ s' ∧ Forall space w ∧
    match_at (assignment name) (at_ b (lit name ++ in_quotes v ++ newline :: s)) =
      Some ([v], at_ (ahead (Some dquote) w) s').
Proof.
  intros Hb Hv Hname. set (K := λ (at2 : position) groups, Some (groups : list text, at2)).
  destruct (many_greedy_some space (λ at2, run REnd at2 [v] K) (Some dquote) (newline :: s)) as (w & s' & r & Hs & Hw & Hk & Hm).
  { by eexists. }
  exists w, s'. split_and!; [done|done|]. unfold match_at, assignment. fold K. cbn [run before after]. rewrite Hb.
  unfold RSpaces at 1. cbn [run before after]. apply (many_greedy space _ b [] _); [constructor| |].
  { destruct (lit name); [done|]. simpl. done. }
  cbn [ahead]. rewrite run_RLit. unfold in_quotes. rewrite <- !app_assoc. unfold RQuoted. cbn [run before after app RChar].
  rewrite bool_decide_true by done.
  assert (Hr : r = ([v], at_ (ahead (Some dquote) w) s')).
  { simpl in Hk. destruct (line_ends s'); [by injection Hk|done]. }
  rewrite Hr in Hm. clear Hk Hr. change (v ++ dquote :: newline :: s) with (v ++ [dquote] ++ newline :: s).
  apply (many_greedy_back in_line _ _ v [dquote] (newline :: s)).
  - apply Forall_app. split.
    + apply Forall_forall. intros c Hc. apply Is_true_true. apply bool_decide_true. by intros ->.
    + by constructor.
  - done.
  - intros v1 v2 Heq Hne. destruct v1 as [|c v1]; [done|]. injection Heq as <- Heq.
    symmetry in Heq. apply app_eq_nil in Heq as [-> ->]. done.
  - cbn [app before after]. rewrite bool_decide_true by done. rewrite captured. exact Hm.
Qed.

(** ** The block of an entry *)

Definition plain (s : text) : Prop := Forall (λ c, c ∉ quoted) s.
Definition starts (s : text) : Prop := match s with c :: _ => space c = false | [] => False end.

(** What is between the braces, without the last line end. *)
Definition conf_block (linux cmdline initrd : text) : text :=
  line [] ++ line (lit "  set gfxmode=auto") ++ line (lit "  set gfxpayload=text") ++
  line (lit "  linux " ++ linux ++ lit " " ++ cmdline) ++ lit "  initrd " ++ initrd.

Lemma encode_entry_block name linux cmdline extra initrd s :
  encode_entry name linux cmdline extra initrd ++ s =
  lit "menuentry " ++ in_quotes name ++ lit " {" ++ conf_block linux (Quote cmdline ++ extra) initrd ++
  [newline; "}"; newline]%char ++ s.
Proof. unfold encode_entry, conf_block, line. by rewrite <- !app_assoc. Qed.

Lemma plain_lit s : bool_decide (plain (lit s)) = true → plain (lit s).
Proof. apply bool_decide_eq_true. Qed.

Lemma Unquote_block linux cmdline extra initrd : plain linux → plain extra → plain initrd →
  Unquote (conf_block linux (Quote cmdline ++ extra) initrd) = conf_block linux (cmdline ++ extra) initrd.
Proof.
  intros Hl He Hi. rewrite <- (Unquote_escape (conf_block linux (cmdline ++ extra) initrd)). apply (f_equal Unquote).
  unfold conf_block, line. rewrite !escape_app, (Quote_escape cmdline).
  rewrite !(escape_plain quoted linux), (escape_plain quoted extra), (escape_plain quoted initrd) by done.
  repeat match goal with
    | |- context [escape quoted (lit ?s)] => rewrite (escape_plain quoted (lit s)) by (apply (bool_decide_unpack _); by vm_compute)
    | |- context [escape quoted [newline]] => rewrite (escape_plain quoted [newline]) by (apply (bool_decide_unpack _); by vm_compute)
    end.
  done.
Qed.

Lemma space_false_in_line c : space c = false → c ≠ newline.
Proof. by intros H ->. Qed.
Lemma in_line_all s : newline ∉ s → Forall in_line s.
Proof. intros H. apply Forall_forall. intros c Hc. apply Is_true_true, bool_decide_true. by intros ->. Qed.

(** A keyword at the start of a line, after white space. *)
Lemma keyword kw r b w s m : line_begins b = true → Forall space w → starts (lit kw) →
  match_at r (at_ (ahead (ahead b w) (lit kw)) s) = Some m →
  match_at (RSeq RBegin (RSeq RSpaces (RLit (lit kw) r))) (at_ b (w ++ lit kw ++ s)) = Some m.
Proof.
  intros Hb Hw Hkw Hm. unfold match_at in *. cbn [run before after]. rewrite Hb. unfold RSpaces. cbn [run before after].
  apply (many_greedy space _ b w); [done| |].
  - unfold starts in Hkw. destruct (lit kw); done.
  - by rewrite run_RLit.
Qed.

(** One space, and no more. *)
Lemma one_space r b s groups {R} (k : position → list text → option R) m : stops space s →
  run r (at_ (Some " "%char) s) groups k = Some m → run (RSeq (RSome true space) r) (at_ b (lit " " ++ s)) groups k = Some m.
Proof. intros Hs Hm. cbn [run before after RSome app lit]. apply (many_greedy space _ _ []); done. Qed.

(** The rest of a line. *)
Definition line_end (s : text) : Prop := match s with c :: _ => c = newline | [] => True end.
Lemma line_end_ends s : line_end s → line_ends s = true.
Proof. destruct s; [done|]. by intros ->. Qed.
Lemma line_end_stops s : line_end s → stops in_line s.
Proof. destruct s; [done|]. by intros ->. Qed.

Lemma rest_of_line b s rest groups {R} (k : position → list text → option R) m : newline ∉ s → line_end rest →
  k (at_ (ahead b s) rest) (groups ++ [s]) = Some m →
  run (RSeq (RGroup (RMany true in_line)) REnd) (at_ b (s ++ rest)) groups k = Some m.
Proof.
  intros Hs Hr Hk. cbn [run before after]. apply (many_greedy in_line); [by apply in_line_all|by apply line_end_stops|].
  cbn [before after]. by rewrite captured, line_end_ends.
Qed.
Lemma rest_of_line_some b s rest groups {R} (k : position → list text → option R) m : newline ∉ s → s ≠ [] → line_end rest →
  k (at_ (ahead b s) rest) (groups ++ [s]) = Some m →
  run (RSeq (RGroup (RSome true in_line)) REnd) (at_ b (s ++ rest)) groups k = Some m.
Proof.
  intros Hs Hne Hr Hk. destruct s as [|c s]; [done|]. pose proof (in_line_all _ Hs) as Hin.
  apply Forall_cons in Hin as [Hc Hin]. cbn [run before after RSome app]. apply Is_true_true in Hc. rewrite Hc.
  apply (many_greedy in_line); [done|by apply line_end_stops|].
  cbn [before after]. change (c :: s ++ rest) with ((c :: s) ++ rest). by rewrite captured, line_end_ends.
Qed.

Lemma starts_stops s s' : starts s → stops space (s ++ s').
Proof. by destruct s. Qed.
Lemma starts_ne s : starts s → s ≠ [].
Proof. by destruct s. Qed.

(** The lazy group up to the first space. *)
Lemma word b w s groups r {R} (k : position → list text → option R) m : w ≠ [] → Forall (λ c, space c = false) w →
  run (RSeq (RSome true space) r) (at_ (ahead b w) (lit " " ++ s)) (groups ++ [w]) k = Some m →
  run (RSeq (RGroup (RSome false in_line)) (RSeq (RSome true space) r)) (at_ b (w ++ lit " " ++ s)) groups k = Some m.
Proof.
  intros Hne Hw Hk. destruct w as [|c w]; [done|]. cbn [run before after]. unfold RSome at 1. cbn [run before after app].
  apply Forall_cons in Hw as [Hc Hw]. unfold in_line at 1. rewrite bool_decide_true by (by apply space_false_in_line).
  apply (many_lazy in_line).
  - eapply Forall_impl; [exact Hw|]. intros d Hd. apply Is_true_true, bool_decide_true. by apply space_false_in_line.
  - intros u v -> Hv. destruct v as [|d v]; [done|]. apply Forall_app in Hw as [_ Hw]. apply Forall_cons in Hw as [Hd _].
    cbn [run before after RSome app]. by rewrite Hd.
  - cbn [before after]. change (c :: w ++ lit " " ++ s) with ((c :: w) ++ lit " " ++ s).
    change (" "%char :: s) with (lit " " ++ s). rewrite captured. exact Hk.
Qed.

Lemma linux_match b linux cmdline s : line_begins b = true → linux ≠ [] → Forall (λ c, space c = false) linux →
  starts cmdline → newline ∉ cmdline → line_end s →
  match_at linuxRegex (at_ b (lit "  linux " ++ linux ++ lit " " ++ cmdline ++ s)) =
    Some ([linux; cmdline], at_ (ahead b (lit "  linux " ++ linux ++ lit " " ++ cmdline)) s).
Proof.
  intros Hb Hne Hl Hc Hn Hs. rewrite !ahead_app. change (lit "  linux " ++ linux ++ lit " " ++ cmdline ++ s)
    with (lit "  " ++ lit "linux" ++ lit " " ++ linux ++ lit " " ++ cmdline ++ s).
  apply keyword; [done|by repeat constructor|done|]. unfold match_at.
  apply one_space. { destruct linux; [done|]. by apply Forall_cons in Hl as [? _]. }
  apply word; [done..|]. apply one_space; [by apply starts_stops|]. apply rest_of_line; done.
Qed.
Lemma initrd_match b initrd s : line_begins b = true → starts initrd → newline ∉ initrd → line_end s →
  match_at initrdRegex (at_ b (lit "  initrd " ++ initrd ++ s)) =
    Some ([initrd], at_ (ahead b (lit "  initrd " ++ initrd)) s).
Proof.
  intros Hb Hi Hn Hs. rewrite !ahead_app. change (lit "  initrd " ++ initrd ++ s)
    with (lit "  " ++ lit "initrd" ++ lit " " ++ initrd ++ s).
  apply keyword; [done|by repeat constructor|done|]. unfold match_at.
  apply one_space; [by apply starts_stops|]. apply rest_of_line_some; [done|by apply starts_ne|done|done].
Qed.

Ltac one_line := repeat (apply not_elem_of_app; split); first [assumption | apply (bool_decide_unpack _); vm_compute; reflexivity].

Lemma skip_keyword kw r b l s : newline ∉ l → starts (lit kw) → mismatch (lit kw) (trim (l ++ newline :: s)) = true →
  find (RSeq RBegin (RSeq RSpaces (RLit (lit kw) r))) b (l ++ newline :: s) =
  find (RSeq RBegin (RSeq RSpaces (RLit (lit kw) r))) (Some newline) s.
Proof.
  intros Hl Hkw Hm. apply find_line; [done|]. unfold match_at. cbn [run before after]. destruct (line_begins b); [|done].
  apply (run_spaces_mismatch _ (lit kw) r); done.
Qed.
Lemma last_keyword kw r b l : newline ∉ l → starts (lit kw) → mismatch (lit kw) (trim l) = true →
  find (RSeq RBegin (RSeq RSpaces (RLit (lit kw) r))) b l = None.
Proof.
  intros Hl Hkw Hm. apply find_last_line; [done|]. unfold match_at. cbn [run before after]. destruct (line_begins b); [|done].
  apply (run_spaces_mismatch _ (lit kw) r); done.
Qed.

Lemma FindAll_once r s g at2 : (2 ≤ length s)%nat → find r None s = Some (g, at2) → find r at2.(before) at2.(after) = None →
  FindAllSubmatch r s = [g].
Proof.
  intros Hlen Hf Hn. unfold FindAllSubmatch. destruct (length s) as [|[|n]]; [lia..|]. cbn [find_all_from]. by rewrite Hf, Hn.
Qed.

Section block.
Context (linux cmdline initrd : text).
Context (Hlinux : linux ≠ []) (Hword : Forall (λ c, space c = false) linux).
Context (Hcmd : starts cmdline) (Hcmd_line : newline ∉ cmdline).
Context (Hinitrd : starts initrd) (Hinitrd_line : newline ∉ initrd).

Lemma block_lines : conf_block linux cmdline initrd =
  [] ++ newline :: lit "  set gfxmode=auto" ++ newline :: lit "  set gfxpayload=text" ++ newline ::
  lit "  linux " ++ linux ++ lit " " ++ cmdline ++ newline :: lit "  initrd " ++ initrd ++ [].
Proof. unfold conf_block, line. by rewrite <- !app_assoc, app_nil_r. Qed.
Lemma block_length : (2 ≤ length (conf_block linux cmdline initrd))%nat.
Proof. rewrite block_lines. simpl. lia. Qed.
Lemma linux_line : newline ∉ linux.
Proof. intros H. rewrite Forall_forall in Hword. by apply Hword in H. Qed.

Lemma find_linux : FindAllSubmatch linuxRegex (conf_block linux cmdline initrd) = [[linux; cmdline]].
Proof.
  eapply FindAll_once; [apply block_length| |].
  - rewrite block_lines. unfold linuxRegex. rewrite !skip_keyword; [|one_line|done|done|one_line|done|done|one_line|done|done].
    apply find_here, linux_match; done.
  - cbn [before after]. rewrite app_nil_r. unfold linuxRegex.
    match goal with |- find _ _ ?s = _ => change s with ([] ++ s) end.
    rewrite skip_keyword; [|one_line|done|done]. by apply last_keyword; [one_line|done|].
Qed.
Lemma find_initrd : FindAllSubmatch initrdRegex (conf_block linux cmdline initrd) = [[initrd]].
Proof.
  pose proof linux_line as Hl. eapply FindAll_once; [apply block_length| |].
  - rewrite block_lines. unfold initrdRegex.
    replace (lit "  linux " ++ linux ++ lit " " ++ cmdline ++ newline :: lit "  initrd " ++ initrd ++ []) with
      ((lit "  linux " ++ linux ++ lit " " ++ cmdline) ++ newline :: lit "  initrd " ++ initrd ++ []) by (by rewrite <- !app_assoc).
    rewrite !skip_keyword; [|one_line|done|done|one_line|done|done|one_line|done|done|one_line|done|done].
    apply find_here, initrd_match; done.
  - cbn [before after]. by apply last_keyword; [one_line|done|].
Qed.
End block.

Lemma parse_block linux cmdline extra initrd : linux ≠ [] → Forall (λ c, space c = false) linux → plain linux →
  starts cmdline → newline ∉ cmdline → plain extra → newline ∉ extra → starts initrd → newline ∉ initrd → plain initrd →
  parseConfBlock (conf_block linux (Quote cmdline ++ extra) initrd) = inr (linux, cmdline ++ extra, initrd).
Proof.
  intros. unfold parseConfBlock. rewrite Unquote_block by done.
  assert (starts (cmdline ++ extra)) by (by destruct cmdline). assert (newline ∉ cmdline ++ extra) by one_line.
  by rewrite find_linux, find_initrd.
Qed.

(** ** The menu *)

(** Every closing brace has a backslash before it. *)
Fixpoint guarded (before : ascii) (s : text) : bool :=
  match s with
  | [] => true
  | c :: s => (negb (bool_decide (c = "}"%char)) || bool_decide (before = backslash)) && guarded c s
  end.
Lemma guarded_app b s s' : guarded b s = true → (∀ b', guarded b' s' = true) → guarded b (s ++ s') = true.
Proof.
  revert b. induction s as [|c s IH]; intros b Hs Hs'; simpl in *; [done|]. apply andb_true_iff in Hs as [Hc Hs].
  rewrite Hc. by apply IH.
Qed.
Lemma guarded_plain b s : plain s → guarded b s = true.
Proof.
  intros H. revert b. induction H as [|c s Hc _ IH]; intros b; simpl; [done|].
  rewrite IH, bool_decide_false; [done|]. intros ->. by apply Hc, (bool_decide_unpack _).
Qed.
Lemma guarded_escape b s : guarded b (escape quoted s) = true.
Proof.
  revert b. induction s as [|c s IH]; intros b; [done|]. rewrite escape_cons. case_bool_decide as Hc; simpl.
  - rewrite IH. by destruct (bool_decide (c = _)).
  - rewrite IH, (bool_decide_false (c = _)); [done|]. intros ->. by apply Hc, (bool_decide_unpack _).
Qed.
Lemma guarded_pair b u c d v : guarded b (u ++ c :: d :: v) = true → d = "}"%char → c = backslash.
Proof.
  revert b. induction u as [|x u IH]; intros b H Hd; simpl in H.
  - rewrite Hd in H. rewrite (bool_decide_true ("}"%char = "}"%char)) in H by done.
    apply andb_true_iff in H as [_ H]. apply andb_true_iff in H as [H _]. simpl in H. by apply bool_decide_eq_true in H.
  - apply andb_true_iff in H as [_ H]. by apply (IH x).
Qed.

Definition closing : text := [newline; "}"%char].
Lemma menu_match b name block s : line_begins b = true → name ≠ [] → dquote ∉ name → block ≠ [] →
  (∀ b', guarded b' (block ++ [newline]) = true) →
  match_at menuEntryRegex (at_ b (lit "menuentry " ++ in_quotes name ++ lit " {" ++ block ++ closing ++ s)) =
    Some ([name; block], at_ (Some "}"%char) s).
Proof.
  intros Hb Hne Hq Hbne Hg. unfold match_at, menuEntryRegex. cbn [run before]. rewrite Hb.
  change (lit "menuentry " ++ ?x) with (lit "menuentry" ++ lit " " ++ x). rewrite run_RLit. apply one_space; [done|].
  unfold in_quotes. rewrite <- !app_assoc. cbn [run before after RChar app]. rewrite bool_decide_true by done.
  destruct name as [|n name]; [done|]. apply not_elem_of_cons in Hq as [_ Hq].
  unfold RSome at 1. cbn [run before after app any_char]. apply (many_lazy any_char).
  - by apply Forall_true.
  - intros u v -> Hv. destruct v as [|c v]; [done|]. cbn [after app]. rewrite bool_decide_false; [done|].
    intros ->. apply Hq, elem_of_app. right. left.
  - cbn [after before]. rewrite bool_decide_true by done.
    change (n :: name ++ dquote :: ?x) with ((n :: name) ++ dquote :: x). rewrite captured, run_RLit. cbn [app].
    destruct block as [|x block]; [done|]. cbn [run before after app any_char]. unfold RSome. cbn [run before after app any_char].
    apply (many_lazy any_char).
    + by apply Forall_true.
    + intros u v -> Hv. destruct v as [|c v]; [done|]. cbn [after app RChar run]. case_bool_decide as Hc; [|done].
      destruct v as [|d v]; [done|]. cbn [app after]. rewrite bool_decide_false; [done|]. intros Hd. apply Hc.
      apply (guarded_pair x (x :: u) c d (v ++ [newline])); [|done].
      pose proof (Hg x) as H. cbn [app] in H. by rewrite <- app_assoc in H.
    + cbn [after before closing app RChar run]. rewrite bool_decide_true by done.
      change (x :: block ++ ?y) with ((x :: block) ++ y). by rewrite captured.
Qed.

(** An entry as it is written, and what makes it readable. *)
Record item := { iName : text; iLinux : text; iCmdline : text; iExtra : text; iInitrd : text }.
Definition render (i : item) : text := encode_entry i.(iName) i.(iLinux) i.(iCmdline) i.(iExtra) i.(iInitrd).
Definition block_of (i : item) : text := conf_block i.(iLinux) (Quote i.(iCmdline) ++ i.(iExtra)) i.(iInitrd).
Record readable (i : item) : Prop := {
  name_some : i.(iName) ≠ []; name_quotes : dquote ∉ i.(iName); name_line : newline ∉ i.(iName);
  linux_some : i.(iLinux) ≠ []; linux_word : Forall (λ c, space c = false) i.(iLinux); linux_plain : plain i.(iLinux);
  cmdline_starts : starts i.(iCmdline); cmdline_line : newline ∉ i.(iCmdline);
  extra_plain : plain i.(iExtra); extra_line : newline ∉ i.(iExtra);
  initrd_starts : starts i.(iInitrd); initrd_line : newline ∉ i.(iInitrd); initrd_plain : plain i.(iInitrd)
}.

Lemma newline_escape s : newline ∉ s → newline ∉ escape quoted s.
Proof.
  intros H. unfold escape. rewrite list_elem_of_bind. intros (c & Hc & Hin). case_bool_decide; set_unfold in Hc.
  - destruct Hc as [Hc|[Hc|[]]]; [done|by subst].
  - destruct Hc as [Hc|[]]. by subst.
Qed.

Lemma block_guarded i b : readable i → guarded b (block_of i ++ [newline]) = true.
Proof.
  intros []. unfold block_of, conf_block, line. rewrite Quote_escape.
  assert (Hlit : ∀ s, bool_decide (plain (lit s)) = true → ∀ b', guarded b' (lit s) = true)
    by (intros s Hs b'; by apply guarded_plain, plain_lit).
  repeat (apply guarded_app; [|intros ?]);
    first [by apply guarded_plain|by apply guarded_escape|by apply Hlit|by apply guarded_plain, (bool_decide_unpack _)].
Qed.

Lemma skip_menu b l s : newline ∉ l → mismatch (lit "menuentry") (l ++ newline :: s) = true →
  find menuEntryRegex b (l ++ newline :: s) = find menuEntryRegex (Some newline) s.
Proof.
  intros Hl Hm. unfold menuEntryRegex. apply find_line; [done|]. unfold match_at. cbn [run before after].
  destruct (line_begins b); [|done]. by apply run_mismatch.
Qed.

Lemma find_all_items items fuel : Forall readable items → (length items < fuel)%nat →
  find_all_from fuel menuEntryRegex (Some newline) (mjoin (render <$> items)) = (λ i, [iName i; block_of i]) <$> items.
Proof.
  intros Hall. revert fuel. induction Hall as [|i items Hi Hall IH]; intros fuel Hf; (destruct fuel as [|fuel]; [lia|]).
  - done.
  - cbn [fmap list_fmap mjoin list_join find_all_from]. unfold render at 1. rewrite encode_entry_block.
    change ([newline; "}"; newline]%char ++ ?x) with (closing ++ newline :: x). fold (block_of i).
    rewrite (find_here _ _ _ _ (menu_match (Some newline) (iName i) (block_of i) _ eq_refl
      (name_some i Hi) (name_quotes i Hi) ltac:(done) (λ b', block_guarded i b' Hi))).
    cbn [before after]. f_equal. rewrite <- (IH fuel) by (cbn [length] in Hf; lia). destruct fuel as [|fuel]; [done|].
    cbn [find_all_from]. match goal with |- match find _ _ (newline :: ?s) with _ => _ end = _ =>
      change (newline :: s) with ([] ++ newline :: s) end.
    by rewrite skip_menu by first [done|apply not_elem_of_nil].
Qed.

(** ** The lines before the menu *)

Lemma header_lines s : header ++ s =
  [] ++ newline :: lit "set timeout=3" ++ newline :: [] ++ newline :: lit "insmod all_video" ++ newline :: [] ++ newline ::
  lit "terminal_input console" ++ newline :: lit "terminal_output console" ++ newline :: [] ++ newline :: s.
Proof. unfold header, line. by rewrite <- !app_assoc. Qed.

Lemma header_menu b s : find menuEntryRegex b (header ++ s) = find menuEntryRegex (Some newline) s.
Proof. rewrite header_lines. by rewrite !skip_menu by first [done|one_line]. Qed.

Definition is_assignment (name : string) : Prop := name = "set default="%string ∨ name = "set fallback="%string.

Lemma skip_assignment name b l s : newline ∉ l → starts (lit name) → mismatch (lit name) (trim (line l ++ s)) = true →
  find (assignment name) b (line l ++ s) = find (assignment name) (Some newline) s.
Proof. unfold line. rewrite <- app_assoc. apply skip_keyword. Qed.

Lemma item_assignment name b i s : is_assignment name → readable i →
  find (assignment name) b (render i ++ s) = find (assignment name) (Some newline) s.
Proof.
  intros Hname []. unfold render, encode_entry, in_quotes. rewrite Quote_escape. pose proof (newline_escape _ cmdline_line0).
  assert (newline ∉ iLinux i) by (by apply linux_line).
  rewrite <- !app_assoc. destruct Hname as [-> | ->]; by rewrite !skip_assignment by first [done|one_line].
Qed.
Lemma header_assignment name b s : is_assignment name → mismatch (lit name) (trim s) = true →
  find (assignment name) b (header ++ s) = find (assignment name) (Some newline) s.
Proof.
  intros Hname Hs. unfold header. rewrite <- !app_assoc.
  destruct Hname as [-> | ->]; by rewrite !skip_assignment by first [done|one_line].
Qed.
Lemma no_assignment name b items : is_assignment name → Forall readable items →
  find (assignment name) b (header ++ mjoin (render <$> items)) = None.
Proof.
  intros Hname Hi.
  assert (Hnone : ∀ b, find (assignment name) b (mjoin (render <$> items)) = None).
  { induction Hi as [|i items Hi _ IH]; intros b'; [by destruct Hname as [-> | ->], b' as [c|]; cbn; try destruct (line_begins _)|].
    cbn [fmap list_fmap mjoin list_join]. by rewrite item_assignment. }
  rewrite header_assignment; [done|done|]. destruct items as [|i items]; [by destruct Hname as [-> | ->]|].
  by destruct Hname as [-> | ->].
Qed.

(** The assignment of a line, and no other after it. *)
Lemma assignment_line name v b s : is_assignment name → line_begins b = true → newline ∉ v →
  find (assignment name) (Some newline) s = None →
  ∃ at2, find (assignment name) b (line (lit name ++ in_quotes v) ++ s) = Some ([v], at2) ∧
    find (assignment name) at2.(before) at2.(after) = None.
Proof.
  intros Hname Hb Hv Hnone. destruct (assignment_match name v b s Hb Hv) as (w & s' & Heq & Hw & Hm).
  { by destruct Hname as [-> | ->]. }
  eexists. split.
  - unfold line. rewrite <- !app_assoc. by apply find_here.
  - cbn [before after]. apply find_none_end. rewrite <- Heq.
    change (newline :: s) with ([] ++ newline :: s). unfold assignment in *. rewrite find_line; [done|apply not_elem_of_nil|].
    by apply not_at_line_start.
Qed.

Definition set_default (v : text) : text := line (lit "set default=" ++ in_quotes v).
Definition set_fallback (v : option text) : text :=
  match v with Some v => line (lit "set fallback=" ++ in_quotes v) | None => [] end.

Definition written (dv : text) (fv : option text) (items : list item) : text :=
  set_default dv ++ set_fallback fv ++ header ++ mjoin (render <$> items).

Lemma written_length dv fv items : (2 ≤ length (written dv fv items))%nat.
Proof. unfold written, set_default, line. rewrite !length_app. cbn [length lit]. simpl. lia. Qed.

Section written.
Context (dv : text) (fv : option text) (items : list item).
Context (Hdv : newline ∉ dv) (Hfv : newline ∉ default [] fv) (Hitems : Forall readable items).

Lemma find_default : FindAllSubmatch defaultEntryRegex (written dv fv items) = [[dv]].
Proof.
  destruct (assignment_line "set default=" dv None (set_fallback fv ++ header ++ mjoin (render <$> items)))
    as (at2 & Hf & Hn); [by left|done|done| |].
  - destruct fv as [v|]; cbn [set_fallback]; [|by apply no_assignment; [left|]].
    rewrite skip_assignment; [by apply no_assignment; [left|]| |done|done]. unfold in_quotes. simpl in Hfv. one_line.
  - eapply FindAll_once; [apply written_length|exact Hf|exact Hn].
Qed.

Lemma find_fallback : FindAllSubmatch fallbackEntryRegex (written dv fv items) = match fv with Some v => [[v]] | None => [] end.
Proof.
  assert (Hskip : find fallbackEntryRegex None (written dv fv items) =
    find fallbackEntryRegex (Some newline) (set_fallback fv ++ header ++ mjoin (render <$> items))).
  { apply skip_assignment; [unfold in_quotes; one_line|done|done]. }
  destruct fv as [v|]; cbn [set_fallback app] in *.
  - destruct (assignment_line "set fallback=" v (Some newline) (header ++ mjoin (render <$> items))) as (at2 & Hf & Hn);
      [by right|done|done|by apply no_assignment; [right|]|].
    eapply FindAll_once; [apply written_length| |exact Hn]. by rewrite Hskip.
  - unfold FindAllSubmatch. pose proof (written_length dv None items) as Hlen. destruct (length (written dv None items)); [lia|].
    cbn [find_all_from]. rewrite Hskip. unfold fallbackEntryRegex. by rewrite no_assignment by first [by right|done].
Qed.

Lemma find_entries : items ≠ [] → FindAllSubmatch menuEntryRegex (written dv fv items) = (λ i, [iName i; block_of i]) <$> items.
Proof.
  intros Hne. assert (Hskip : find menuEntryRegex None (written dv fv items) = find menuEntryRegex (Some newline) (mjoin (render <$> items))).
  { unfold written, set_default. unfold line at 1. rewrite <- !app_assoc. 
    match goal with |- find _ _ (?a ++ ?b ++ [newline] ++ ?c) = _ => change (a ++ b ++ [newline] ++ c) with (a ++ b ++ newline :: c) end.
    rewrite (app_assoc (lit _)), skip_menu by first [done|unfold in_quotes; one_line].
    destruct fv as [v|]; cbn [set_fallback app]; [|apply header_menu]. unfold line. rewrite <- !app_assoc.
    match goal with |- find _ _ (?a ++ ?b ++ [newline] ++ ?c) = _ => change (a ++ b ++ [newline] ++ c) with (a ++ b ++ newline :: c) end.
    simpl in Hfv. rewrite (app_assoc (lit _)), skip_menu by first [done|unfold in_quotes; one_line]. apply header_menu. }
  assert (Hlen : (length items < length (written dv fv items))%nat).
  { unfold written. rewrite !length_app. assert (length items ≤ length (mjoin (render <$> items)))%nat.
    { clear. induction items as [|i l IH]; [done|].
      change (mjoin (render <$> i :: l)) with (render i ++ mjoin (render <$> l)). cbn [length]. rewrite length_app.
      assert (1 ≤ length (render i))%nat.
      { unfold render, encode_entry, line at 1. rewrite <- app_assoc. simpl. lia. }
      lia. }
    assert (1 ≤ length header)%nat by (by apply (bool_decide_unpack _)). lia. }
  unfold FindAllSubmatch. rewrite <- (find_all_items items (length (written dv fv items))) by done.
  destruct (length (written dv fv items)) as [|n]; [done|]. cbn [find_all_from]. by rewrite Hskip.
Qed.
End written.

(** ** The whole configuration *)

(** Entries that can be read back: their name begins with their label and has no quotes;
    texts are of one line, paths are words without special characters, and the arguments of
    the kernel begin with a word. *)
Record entry_ok (l : text) (e : MenuEntry) : Prop := {
  entry_label : ParseBootLabel e.(Name) = inr l;
  entry_reset : l ≠ BootReset;
  entry_readable : readable {| iName := e.(Name); iLinux := e.(Linux); iCmdline := e.(Cmdline); iExtra := []; iInitrd := e.(Initrd) |}
}.
Definition config_ok (c : Config) : Prop := map_Forall entry_ok c.(Entries).

Definition item_of (e : MenuEntry) : item :=
  {| iName := e.(Name); iLinux := e.(Linux); iCmdline := e.(Cmdline); iExtra := []; iInitrd := e.(Initrd) |}.
Definition reset_item (e : MenuEntry) : item :=
  {| iName := ResetName; iLinux := e.(Linux); iCmdline := e.(Cmdline); iExtra := ResetArgs; iInitrd := e.(Initrd) |}.

Lemma reset_readable l e : entry_ok l e → readable (reset_item e).
Proof.
  assert (Hname : newline ∉ ResetName ∧ dquote ∉ ResetName ∧ newline ∉ ResetArgs ∧ plain ResetArgs).
  { split; [|split; [|split]]; [apply (bool_decide_unpack _); vm_compute; exact I..|]. by apply plain_lit. }
  destruct Hname as (? & ? & ? & ?). intros [_ _ []]. by split.
Qed.

Lemma read_block i : readable i → parseConfBlock (block_of i) = inr (i.(iLinux), i.(iCmdline) ++ i.(iExtra), i.(iInitrd)).
Proof. intros []. unfold block_of. by rewrite parse_block. Qed.

Section whole.
Context (c : Config) (Hc : config_ok c).
Notation entry l := (c.(Entries) !! l).

(** The map after the entries of some labels are read. *)
Definition read_more (labels : list text) (m : gmap text MenuEntry) : gmap text MenuEntry :=
  fold_left (λ m l, match entry l with Some e => <[l := e]> m | None => m end) labels m.

Lemma lookup_read_more labels m l :
  read_more labels m !! l = if bool_decide (l ∈ labels ∧ is_Some (entry l)) then entry l else m !! l.
Proof.
  revert m. induction labels as [|l' labels IH]; intros m; cbn [read_more fold_left].
  - rewrite bool_decide_false; [done|]. intros [?%not_elem_of_nil _]. done.
  - fold (read_more labels (match entry l' with Some e => <[l' := e]> m | None => m end)). rewrite IH. case_bool_decide as H1.
    + rewrite bool_decide_true; [done|]. split; [set_solver|apply H1].
    + destruct (decide (l = l')) as [->|Hne].
      * destruct (entry l') as [e|] eqn:He.
        -- rewrite lookup_insert_eq, bool_decide_true; [done|]. split; [set_solver|by eexists].
        -- rewrite bool_decide_false; [done|]. by intros [_ [? ?]].
      * replace (bool_decide (l ∈ l' :: labels ∧ is_Some (entry l))) with false.
        -- destruct (entry l'); [by rewrite lookup_insert_ne|done].
        -- symmetry. apply bool_decide_false. intros [Hin Hs]. apply H1. split; [set_solver|done].
Qed.

Lemma parse_menu labels rest m b :
  parse_matches (((λ i, [iName i; block_of i]) <$> (item_of <$> omap (λ l, entry l) labels)) ++ rest) m b =
  parse_matches rest (read_more labels m) b.
Proof.
  revert m. induction labels as [|l labels IH]; intros m; [done|]. cbn [omap list_omap]. simpl read_more.
  destruct (entry l) as [e|] eqn:He; [|apply IH]. cbn [fmap list_fmap app parse_matches].
  destruct (Hc l e He) as [Hl Hr Hread]. rewrite (read_block (item_of e)) by done. cbn [item_of iName iLinux iCmdline iExtra iInitrd].
  rewrite Hl, bool_decide_false, app_nil_r by done. rewrite <- IH. by destruct e.
Qed.

Lemma no_empty_label : entry [] = None.
Proof.
  destruct (entry []) as [e|] eqn:He; [|done]. destruct (Hc _ _ He) as [Hl _ _].
  unfold ParseBootLabel in Hl. repeat case_match; discriminate.
Qed.

Lemma validate_spec : validate c = None →
  ∃ d, entry c.(Default) = Some d ∧ (c.(Fallback) = [] ∨ ∃ f, entry c.(Fallback) = Some f).
Proof.
  unfold validate. destruct (entry c.(Default)) as [d|] eqn:Hd; [|by rewrite bool_decide_true].
  rewrite bool_decide_false by done. intros H. exists d. split; [done|]. destruct (decide (c.(Fallback) = [])); [by left|right].
  rewrite (bool_decide_false (c.(Fallback) = [])) in H by done. simpl in H.
  destruct (entry c.(Fallback)) as [f|] eqn:Hf; [by eexists|]. by rewrite bool_decide_true in H.
Qed.

Definition items_of (labels : list text) (d : MenuEntry) : list item :=
  (item_of <$> omap (λ l, entry l) labels) ++ (if c.(AddResetOption) then [reset_item d] else []).

Lemma Encode_written labels d : validate c = None → entry c.(Default) = Some d →
  Encode labels c = inr (written d.(Name) (Name <$> entry c.(Fallback)) (items_of labels d)).
Proof.
  intros Hv Hd. unfold Encode. rewrite Hv, Hd. f_equal. unfold written, set_default, items_of. simpl default. f_equal.
  f_equal; [by destruct (entry (Fallback c))|]. f_equal. rewrite fmap_app, join_app. f_equal.
  - by rewrite <- list_fmap_compose.
  - destruct (AddResetOption c); [|done]. cbn [fmap list_fmap mjoin list_join]. by rewrite app_nil_r.
Qed.

Lemma items_readable labels d : entry c.(Default) = Some d → Forall readable (items_of labels d).
Proof.
  intros Hd. apply Forall_app. split.
  - apply Forall_fmap, Forall_forall. intros e (l & _ & He)%list_elem_of_omap. apply (Hc l e He).
  - destruct (AddResetOption c); [|done]. apply Forall_singleton. by eapply reset_readable, (Hc _ _ Hd).
Qed.

Lemma parse_items labels d : entry c.(Default) = Some d → (∀ l, is_Some (entry l) → l ∈ labels) →
  parse_matches ((λ i, [iName i; block_of i]) <$> items_of labels d) ∅ false = inr (c.(Entries), c.(AddResetOption)).
Proof.
  intros Hd Hlabels. unfold items_of. rewrite fmap_app, parse_menu.
  assert (Hmap : read_more labels ∅ = c.(Entries)).
  { apply map_eq. intros l. rewrite lookup_read_more, lookup_empty. case_bool_decide as Hl; [done|].
    destruct (entry l) eqn:He; [|done]. destruct Hl. split; [apply Hlabels; by rewrite He|done]. }
  rewrite Hmap. destruct (AddResetOption c); [|done]. cbn [fmap list_fmap parse_matches].
  rewrite (read_block (reset_item d)) by (by eapply reset_readable, (Hc _ _ Hd)). done.
Qed.

Lemma decode_written labels : (∀ l, is_Some (entry l) → l ∈ labels) → validate c = None →
  ∃ t, Encode labels c = inr t ∧ Decode t = inr c.
Proof.
  intros Hlabels Hv. destruct (validate_spec Hv) as (d & Hd & Hf). eexists. split; [by apply Encode_written|].
  pose proof (items_readable labels d Hd) as Hitems. destruct (Hc _ _ Hd) as [Hdl _ [_ _ Hdn _ _ _ _ _ _ _ _ _ _]].
  assert (Hfn : newline ∉ default [] (Name <$> entry c.(Fallback))).
  { destruct (entry c.(Fallback)) as [f|] eqn:Hfe; simpl; [|apply not_elem_of_nil].
    destruct (Hc _ _ Hfe) as [_ _ [_ _ Hn _ _ _ _ _ _ _ _ _ _]]. done. }
  assert (Hne : items_of labels d ≠ []).
  { pose proof (Hlabels (Default c) ltac:(by rewrite Hd)) as Hin. intros [Hnil _]%app_eq_nil.
    assert (Hd' : item_of d ∈ item_of <$> omap (λ l, entry l) labels).
    { apply list_elem_of_fmap_2, list_elem_of_omap. by exists (Default c). }
    rewrite Hnil in Hd'. by apply not_elem_of_nil in Hd'. }
  unfold Decode, parseEntries. rewrite find_default, find_fallback, find_entries, parse_items, Hdl by done.
  assert (Hfb : parse_fallback match Name <$> entry (Fallback c) with Some v => [[v]] | None => [] end = inr (Fallback c)).
  { destruct Hf as [Hf|[f Hf]].
    - rewrite Hf, no_empty_label. done.
    - rewrite Hf. simpl. by destruct (Hc _ _ Hf). }
  rewrite Hfb. by destruct c.
Qed.
End whole.

(** C13: what is written for a valid configuration whose texts fit the format, in any order of
    its entries, is read back as the same configuration. *)
Theorem decode_encode c labels : config_ok c → (∀ l, is_Some (c.(Entries) !! l) → l ∈ labels) → validate c = None →
  ∃ t, Encode labels c = inr t ∧ Decode t = inr c.
Proof. intros Hc. by apply decode_written. Qed.
