(* ===== verification/BootMount.v ===== *)
(** * The boot partitions

    Operations on mounted partitions of a disk
    ([runtime/v1alpha1/bootloader/mount/mount.go], [Managers] of
    [internal/pkg/mount/v3/managers.go]), the files on them, and copies of files
    ([pkg/imager/utils/copy.go]).  Probing, mounting one partition, and the calls on files
    are an interface. *)

From Stdlib Require Import Ascii.
From S2P Require Import Prelude Errors Text GrubConfig.

(** ** The world *)

(** A partition as [blkid] finds it. *)
Record PartInfo := { PartitionLabel : option text; PartName : text; PartitionIndex : Z }.

(** [mount.Spec]. *)
Record Spec := { specLabel : text; FilesystemType : text; MountTarget : text }.
(** What a mount manager is made of: target, filesystem, the index of the partition of the
    disk, and the options [WithReadOnly] and [WithSkipIfMounted]. *)
Record bootManager := { manTarget : text; manFilesystem : text; manPartition : Z; manReadOnly : bool; manSkipIfMounted : bool }.

Class BootWorld (W : Type) := {
  Reader : Type;
  OpenFile : Type;
  blkid_ProbePath : text → W → W * (error + list PartInfo);      (** with or without a lock *)
  manager_Mount : text → bootManager → W → W * option error;
  manager_Unmount : text → bootManager → W → W * option error;
  os_MkdirAll : text → W → W * option error;
  stat : text → W → W * option error;
  read_file : text → W → W * (error + text);
  os_WriteFile : text → text → W → W * option error;
  os_Open : text → W → W * (error + Reader);
  os_Create : text → W → W * (error + OpenFile);                  (** [O_WRONLY|O_CREATE|O_TRUNC] *)
  io_Copy : OpenFile → Reader → W → W * option error;
  io_ReadAll : Reader → W → W * (error + text);
  cmd_Run : text → list text → W → W * option error;
  (** the kernel, the initrd and the arguments of a unified kernel image *)
  uki_Extract : text → W → W * (error + (Reader * Reader * Reader));
  smbios_ReadOEMVariable : W → W * (error + list text);
  kexec_Load : Reader → Reader → text → W → W * option error;
  GOARCH : text
}.

Section mount.
Context {W S : Type} `{BW : BootWorld W}.
(** A call of the world in the state of a program. *)
Context (ask : ∀ A, (W → W * A) → prog S error A).
Notation ctl := (prog S error).

Definition boot_call (f : W → W * option error) : ctl () := err ← ask _ f; check err.
Definition boot_query {A} (f : W → W * (error + A)) : ctl A := r ← ask _ f; of_result r.

(** [managers.Mount()]: what is mounted is unmounted again, last to first, when one fails.
    The errors of unmounting are joined to the first one. *)
Fixpoint unmount_all (disk : text) (mounted : list bootManager) (err : error) : ctl error :=
  match mounted with
  | [] => mret err
  | m :: mounted =>
      e ← ask _ (manager_Unmount disk m);
      unmount_all disk mounted (match e with Some e => default err (errors_Join [Some err; Some e]) | None => err end)
  end.
Fixpoint Managers_Mount (disk : text) (managers mounted : list bootManager) : ctl (list bootManager) :=
  match managers with
  | [] => mret mounted
  | m :: managers =>
      e ← ask _ (manager_Mount disk m);
      match e with
      | Some err => err ← unmount_all disk mounted err; throw err
      | None => Managers_Mount disk managers (m :: mounted)
      end
  end.
(** The function it returns, whose error is dropped. *)
Definition unmounter (disk : text) (mounted : list bootManager) : ctl () :=
  for_each (λ m, _ ← ask _ (manager_Unmount disk m); mret ()) mounted.

(** The partition a spec is about: the first one with the label. *)
Fixpoint find_partition (spec : Spec) (readOnly skip : bool) (parts : list PartInfo) : error + bootManager :=
  match parts with
  | [] => inl (NotFoundTagged "partition with label %s not found" [text_arg spec.(specLabel)])
  | p :: parts =>
      if bool_decide (default [] p.(PartitionLabel) = spec.(specLabel)) then
        if bool_decide (p.(PartName) ≠ spec.(FilesystemType)) then
          inl (NotFoundTagged "partition %d with label %s is not of type %s (actual %q)"
                 [Int p.(PartitionIndex); text_arg spec.(specLabel); text_arg spec.(FilesystemType); text_arg p.(PartName)])
        else inr {| manTarget := spec.(MountTarget); manFilesystem := spec.(FilesystemType);
                    manPartition := p.(PartitionIndex); manReadOnly := readOnly; manSkipIfMounted := skip |}
      else find_partition spec readOnly skip parts
  end.
Fixpoint find_managers (specs : list Spec) (readOnly skip : bool) (parts : list PartInfo) : error + list bootManager :=
  match specs with
  | [] => inr []
  | spec :: specs =>
      match find_partition spec readOnly skip parts with
      | inl err => inl err
      | inr m => match find_managers specs readOnly skip parts with inl err => inl err | inr ms => inr (m :: ms) end
      end
  end.

(** [info]: the result of a probe, if there is one already.  A function that leaves something
    in a variable of its caller returns it. *)
Definition PartitionOp {A} (disk : text) (specs : list Spec) (opFunc : ctl A) (readOnly skip : bool)
    (info : option (list PartInfo)) : ctl A :=
  info ← match info with
         | Some info => mret info
         | None => map_err (λ e, Errorf "error probing disk %s: %w" [text_arg disk; Wrapped e]) (boot_query (blkid_ProbePath disk))
         end;
  managers ← of_result (find_managers specs readOnly skip info);
  mounted ← wrapf "error mounting partitions: %w" (Managers_Mount disk managers []);
  with_defer (unmounter disk mounted) opFunc.

(** ** Copies *)

(** The directory of a path. *)
Definition Dir (path : text) : text :=
  match filter (λ i, path !! i = Some "/"%char) (reverse (seq 0 (length path))) with
  | O :: _ => slash
  | i :: _ => take i path
  | [] => lit "."
  end.

Fixpoint CopyFiles (instructions : list (text * text)) : ctl () :=
  match instructions with
  | [] => mret ()
  | (src, dest) :: instructions =>
      _ ← map_err (λ e, Errorf "error copying %s -> %s: %w" [text_arg src; text_arg dest; Wrapped e])
            (_ ← boot_call (os_MkdirAll (Dir dest));
             from ← boot_query (os_Open src);
             to ← boot_query (os_Create dest);
             boot_call (io_Copy to from));
      CopyFiles instructions
  end.
Fixpoint CopyReader (instructions : list (Reader * text)) : ctl () :=
  match instructions with
  | [] => mret ()
  | (reader, dest) :: instructions =>
      _ ← map_err (λ e, Errorf "error copying reader -> %s: %w" [text_arg dest; Wrapped e])
            (_ ← boot_call (os_MkdirAll (Dir dest));
             to ← boot_query (os_Create dest);
             boot_call (io_Copy to reader));
      CopyReader instructions
  end.
End mount.
