(* ===== verification/Grub.v ===== *)
(** * GRUB on a disk

    Installing, upgrading and reverting ([grub/{install,upgrade,revert,probe}.go] and
    [GenerateAssets], [KexecLoad] of grub.go), the images of the imager
    ([generateGrubImage]; [Name] of efiutils.go). *)

From Stdlib Require Import Ascii.
From S2P Require Import Prelude Errors Text GrubConfig BootMount.

Definition BootMountPoint : text := lit "/boot".
Definition EFIMountPoint : text := lit "/boot/EFI".
Definition BootPartitionLabel : text := lit "BOOT".
Definition EFIPartitionLabel : text := lit "EFI".
Definition BIOSGrubPartitionLabel : text := lit "BIOS".
Definition FilesystemTypeXFS : text := lit "xfs".
Definition FilesystemTypeVFAT : text := lit "vfat".
Definition ConfigPath : text := lit "/boot/grub/grub.cfg".

Definition amd64 : text := lit "amd64".
Definition arm64 : text := lit "arm64".

(** [options.InstallOptions], with the part of the boot assets GRUB uses. *)
Record InstallOptions (W : Type) := {
  BootDisk : text; Arch : text; optCmdline : text; GrubUseUKICmdline : bool; Version : text;
  ImageMode : bool; MountPrefix : text; KernelPath : text; InitramfsPath : text; UKIPath : text; SDBootPath : text;
  ExtraInstallStep : option (W → W * option error);
  BlkidInfo : option (list PartInfo)
}.
Arguments BootDisk {W} _.
Arguments Arch {W} _.
Arguments optCmdline {W} _.
Arguments GrubUseUKICmdline {W} _.
Arguments Version {W} _.
Arguments ImageMode {W} _.
Arguments MountPrefix {W} _.
Arguments KernelPath {W} _.
Arguments InitramfsPath {W} _.
Arguments UKIPath {W} _.
Arguments SDBootPath {W} _.
Arguments ExtraInstallStep {W} _.
Arguments BlkidInfo {W} _.

Section grub.
Context {W : Type} `{BW : BootWorld W}.
(** The order in which Go ranges over the entries of a configuration. *)
Context (order : gmap text MenuEntry → list text).

(** The configuration the methods are of, and a log of the writes of grub.cfg. *)
Record grub := { gworld : W; conf : Config; written_config : list (option error) }.
Notation ctl := (prog grub error).

Definition gask {A} (f : W → W * A) : ctl A := λ s,
  let '(w, a) := f s.(gworld) in Ok ({| gworld := w; conf := s.(conf); written_config := s.(written_config) |}, inr a).
Notation gcall := (boot_call (@gask)).
Notation gquery := (boot_query (@gask)).
Notation op := (PartitionOp (@gask)).
Definition set_conf (c : Config) : ctl () :=
  modify (λ s, {| gworld := s.(gworld); conf := c; written_config := s.(written_config) |}).

Definition flip_ : ctl () := s ← get; c ← of_result (flip s.(conf)); set_conf c.

(** [Config.Write]. *)
Definition Write (path : text) : ctl () :=
  _ ← gcall (os_MkdirAll (Dir path));
  s ← get;
  wr ← of_result (Encode (order s.(conf).(Entries)) s.(conf));
  err ← gask (os_WriteFile path wr);
  _ ← modify (λ s, {| gworld := s.(gworld); conf := s.(conf); written_config := s.(written_config) ++ [err] |});
  check err.

(** [Read]: [None] when there is no file. *)
Definition Read (path : text) : ctl (option Config) :=
  r ← gask (read_file path);
  match r with
  | inl err => if errors_Is "ErrNotExist" err then mret None else throw err
  | inr c => c ← of_result (Decode c); mret (Some c)
  end.

(** The kernel and the initrd of a label. *)
Definition asset (prefix : text) (label : BootLabel) (name : text) : text := Join [prefix; BootMountPoint; label; name].

(** [bootloaderutils.Name]. *)
Definition efi_Name (arch : text) : error + text :=
  let basePath := Join [lit "EFI"; lit "boot"] in
  if bool_decide (arch = amd64) then inr (Join [basePath; lit "BOOTX64.efi"])
  else if bool_decide (arch = arm64) then inr (Join [basePath; lit "BOOTAA64.efi"])
  else inl (Errorf "unsupported architecture: %s" [text_arg arch]).

Definition grubSourceDirectory : text := lit "/usr/lib/grub".
Definition grubModules : list text := lit <$>
  ["part_gpt"; "ext2"; "fat"; "xfs"; "normal"; "configfile"; "linux"; "boot"; "search"; "search_fs_uuid";
   "search_fs_file"; "ls"; "cat"; "echo"; "test"; "help"; "reboot"; "halt"; "all_video"]%string.
Definition grub32Modules : list text := lit <$> ["biosdisk"; "part_msdos"]%string.
Definition grubPrefix : text := lit "(hd0,gpt3)/grub".

(** The images of the imager. *)
Definition generateGrubImage (opts : InstallOptions W) : ctl () :=
  let core := Join [opts.(MountPrefix); lit "core.img"] in
  let grubEFIPath := Join [opts.(MountPrefix); lit "grub-efi.img"] in
  copyInstructions ← (if bool_decide (opts.(Arch) = amd64) then
      _ ← wrapf "failed to generate grub core image: %w" (gcall (cmd_Run (lit "grub-mkimage")
            ([lit "--format"; lit "i386-pc"; lit "--output"; core; lit "--prefix"; grubPrefix] ++ grubModules ++ grub32Modules)));
      mret [(Join [grubSourceDirectory; lit "i386-pc"; lit "boot.img"], Join [opts.(MountPrefix); lit "boot.img"])]
    else mret []);
  platform ← (if bool_decide (opts.(Arch) = amd64) then mret (lit "x86_64-efi")
              else if bool_decide (opts.(Arch) = arm64) then mret (lit "arm64-efi")
              else throw (Errorf "unsupported architecture for grub image: %s" [text_arg opts.(Arch)]));
  _ ← wrapf "failed to generate grub efi image: %w" (gcall (cmd_Run (lit "grub-mkimage")
        ([lit "--format"; platform; lit "--output"; grubEFIPath; lit "--prefix"; grubPrefix; lit "--compression"; lit "xz"] ++ grubModules)));
  efiFile ← of_result (efi_Name opts.(Arch));
  wrapf "failed to copy grub generated img files: %w"
    (CopyFiles (@gask) (copyInstructions ++ [(grubEFIPath, Join [opts.(MountPrefix); EFIMountPoint; efiFile])])).

Definition generateAssets (opts : InstallOptions W) : ctl () :=
  s ← get;
  let label := s.(conf).(Default) in
  let kernel := asset opts.(MountPrefix) label KernelAsset in
  let initramfs := asset opts.(MountPrefix) label InitramfsAsset in
  err ← gask (stat opts.(KernelPath));
  cmdline ← match err with
    | None =>
        _ ← CopyFiles (@gask) [(opts.(KernelPath), kernel); (opts.(InitramfsPath), initramfs)];
        if opts.(GrubUseUKICmdline) then throw (Errorf "cannot use UKI cmdline when boot assets are not UKI" [])
        else mret opts.(optCmdline)
    | Some _ =>
        '(assetKernel, assetInitrd, assetCmdline) ← gquery (uki_Extract opts.(UKIPath));
        _ ← CopyReader (@gask) [(assetKernel, kernel); (assetInitrd, initramfs)];
        if opts.(GrubUseUKICmdline) then
          cmdlineBytes ← wrapf "failed to read cmdline from UKI: %w" (gquery (io_ReadAll assetCmdline));
          r ← gask smbios_ReadOEMVariable;
          mret match r with
               | inr extraCmdline => fold_left (λ c extra, c ++ lit " " ++ extra) extraCmdline cmdlineBytes
               | inl _ => cmdlineBytes
               end
        else mret opts.(optCmdline)
    end;
  _ ← (s ← get; set_conf (Put s.(conf) label cmdline opts.(Version)));
  _ ← Write (Join [opts.(MountPrefix); ConfigPath]);
  if opts.(ImageMode) then generateGrubImage opts else mret ().

(** A partition the bootloader asks for: its label, the directory it is filled from, and
    whether its filesystem is reproducible.  Types and sizes depend on the label. *)
Record partition_request := { reqLabel : text; reqSource : option text; reqReproducible : bool }.
Definition GenerateAssets (opts : InstallOptions W) : ctl (list partition_request) :=
  _ ← generateAssets opts;
  let request label source := {| reqLabel := label; reqSource := source; reqReproducible := opts.(ImageMode) |} in
  let partitionOptions :=
    [request EFIPartitionLabel (if opts.(ImageMode) then Some (Join [opts.(MountPrefix); lit "EFI"]) else None);
     request BIOSGrubPartitionLabel None;
     request BootPartitionLabel (Some (Join [opts.(MountPrefix); BootMountPoint]))] in
  _ ← match opts.(ExtraInstallStep) with Some step => gcall step | None => mret () end;
  mret partitionOptions.

Definition install_platforms (opts : InstallOptions W) (efiMode : bool) : list text :=
  if bool_decide (GOARCH = amd64) && bool_decide (opts.(Arch) = amd64) then [[]]
  else if bool_decide (opts.(Arch) = amd64) then (if efiMode then [lit "x86_64-efi"] else []) ++ [lit "i386-pc"]
  else if bool_decide (opts.(Arch) = arm64) then [lit "arm64-efi"]
  else [].
Definition install_args (opts : InstallOptions W) (efiMode : bool) (platform : text) : list text :=
  [lit "--boot-directory=" ++ Join [opts.(MountPrefix); BootMountPoint]; lit "--removable"] ++
  (if efiMode then [lit "--efi-directory=" ++ Join [opts.(MountPrefix); EFIMountPoint]] else []) ++
  (if opts.(ImageMode) then [lit "--no-nvram"] else []) ++
  (if bool_decide (platform ≠ []) then [lit "--target=" ++ platform] else []) ++ [opts.(BootDisk)].
Definition runGrubInstall (opts : InstallOptions W) (efiMode : bool) : ctl () :=
  for_each (λ platform,
    wrapf "failed to install grub: %w" (gcall (cmd_Run (lit "grub-install") (install_args opts efiMode platform))))
    (install_platforms opts efiMode).

Definition boot_spec (prefix : text) : Spec :=
  {| specLabel := BootPartitionLabel; FilesystemType := FilesystemTypeXFS; MountTarget := Join [prefix; BootMountPoint] |}.
Definition efi_spec (prefix : text) : Spec :=
  {| specLabel := EFIPartitionLabel; FilesystemType := FilesystemTypeVFAT; MountTarget := Join [prefix; EFIMountPoint] |}.

(** Whether the EFI partition can be mounted. *)
Definition find_efi (opts : InstallOptions W) : ctl bool :=
  r ← try (op opts.(BootDisk) [efi_spec opts.(MountPrefix)] (mret ()) false false opts.(BlkidInfo));
  mret (match r with inr _ => true | inl _ => false end).
Definition install_specs (opts : InstallOptions W) (efiFound : bool) : list Spec :=
  boot_spec opts.(MountPrefix) :: if efiFound then [efi_spec opts.(MountPrefix)] else [].

(** The result names the label that is the fallback, also next to an error. *)
Definition Install (opts : InstallOptions W) : ctl BootLabel :=
  efiFound ← find_efi opts;
  _ ← op opts.(BootDisk) (install_specs opts efiFound) (runGrubInstall opts efiFound) false false opts.(BlkidInfo);
  s ← get; mret s.(conf).(Fallback).

Definition upgrade (opts : InstallOptions W) (efiFound : bool) : ctl () :=
  _ ← flip_;
  _ ← generateAssets opts;
  _ ← runGrubInstall opts efiFound;
  match opts.(ExtraInstallStep) with Some step => gcall step | None => mret () end.
Definition Upgrade (opts : InstallOptions W) : ctl BootLabel :=
  efiFound ← find_efi opts;
  _ ← op opts.(BootDisk) (install_specs opts efiFound) (upgrade opts efiFound) false false opts.(BlkidInfo);
  s ← get; mret s.(conf).(Fallback).

Definition revert : ctl () :=
  _ ← flip_;
  s ← get;
  err ← gask (stat (Join [BootMountPoint; s.(conf).(Default)]));
  _ ← match err with
      | Some err =>
          if errors_Is "ErrNotExist" err then throw (Errorf "cannot rollback to %q, label does not exist" [Str ""]) else mret ()
      | None => mret ()
      end;
  map_err (λ e, Errorf "failed to revert bootloader: %v" [Printed e]) (Write ConfigPath).

(** What an operation that finds no partition is taken for. *)
Definition unless_not_found (c : ctl ()) : ctl () :=
  r ← try c;
  match r with inl err => if TagIs_NotFound err then mret () else throw err | inr _ => mret () end.
(** [c] is [nil] when GRUB is not installed. *)
Definition Revert (c : option Config) (disk : text) : ctl () :=
  match c with
  | None => throw (Errorf "cannot revert bootloader: %w" [Wrapped (Sentinel "bootloader not installed")])
  | Some c =>
      _ ← set_conf c;
      unless_not_found (op disk [boot_spec []] revert false true None)
  end.

(** [callback] is called on the configuration that was read. *)
Definition ProbeWithCallback (disk : text) (callback : Config → ctl ()) : ctl (option Config) :=
  r ← try (op disk [boot_spec []]
             (c ← Read ConfigPath;
              match c with
              | Some c => _ ← callback c; mret (Some c)
              | None => mret None
              end) true true None);
  match r with
  | inl err => if TagIs_NotFound err then mret None else throw err
  | inr c => mret c
  end.
Definition Probe (disk : text) : ctl (option Config) := ProbeWithCallback disk (λ _, mret ()).

Definition KexecLoad (disk : text) : ctl () :=
  _ ← ProbeWithCallback disk (λ grubConf,
    match grubConf.(Entries) !! grubConf.(Default) with
    | None => mret ()
    | Some defaultEntry =>
        kernel ← gquery (os_Open (Join [BootMountPoint; defaultEntry.(Linux)]));
        initrd ← gquery (os_Open (Join [BootMountPoint; defaultEntry.(Initrd)]));
        gcall (kexec_Load kernel initrd (TrimSpace defaultEntry.(Cmdline)))
    end);
  mret ().
End grub.
