(* ===== verification/BootFrame.v ===== *)
(** * Calls that touch some files only

    The calculus the theorems about bootloaders share: which paths a call writes
    ([modest]), the operations on mounted partitions, and copies of files, over any state
    that holds a world.  Labels, assets and the configuration of GRUB are in Grub.v. *)

From Stdlib Require Import Ascii.
From S2P Require Import Prelude Errors Text GrubConfig BootMount Grub.

(** The files a machine boots from: grub.cfg, and the kernel and the initrd of the labels. *)
Definition boot_files : list text :=
  [ConfigPath; asset [] BootA KernelAsset; asset [] BootA InitramfsAsset;
   asset [] BootB KernelAsset; asset [] BootB InitramfsAsset].

(** What the code relies on of files, and of [grub-install]: it leaves the files the machine
    boots from alone. *)
Class BootFiles {W : Type} (BW : BootWorld W) := {
  file : text → W → option text;
  reader_text : Reader → text;
  open_path : OpenFile → text;
  probe_file p d w : file p (blkid_ProbePath d w).1 = file p w;
  mount_file p d m w : file p (manager_Mount d m w).1 = file p w;
  unmount_file p d m w : file p (manager_Unmount d m w).1 = file p w;
  mkdir_file p d w : file p (os_MkdirAll d w).1 = file p w;
  stat_file p q w : file p (stat q w).1 = file p w;
  reading_file p q w : file p (read_file q w).1 = file p w;
  read_contents q w t : (read_file q w).2 = inr t → file q w = Some t;
  opening_file p q w : file p (os_Open q w).1 = file p w;
  readall_file p r w : file p (io_ReadAll r w).1 = file p w;
  extract_file p q w : file p (uki_Extract q w).1 = file p w;
  smbios_file p w : file p (smbios_ReadOEMVariable w).1 = file p w;
  write_others p q d w : p ≠ q → file p (os_WriteFile q d w).1 = file p w;
  write_contents q d w : (os_WriteFile q d w).2 = None → file q (os_WriteFile q d w).1 = Some d;
  create_others p q w : p ≠ q → file p (os_Create q w).1 = file p w;
  create_empty q w f : (os_Create q w).2 = inr f → open_path f = q ∧ file q (os_Create q w).1 = Some [];
  copy_others p f r w : p ≠ open_path f → file p (io_Copy f r w).1 = file p w;
  copy_contents f r w old : (io_Copy f r w).2 = None → file (open_path f) w = Some old →
    file (open_path f) (io_Copy f r w).1 = Some (old ++ reader_text r);
  grub_install_file args w p : p ∈ boot_files →
    file p (cmd_Run (lit "grub-install") args w).1 = file p w
}.

(** The world in the state of a program, a call of it, and what a call keeps of the rest. *)
Class AskLaw {W S : Type} (world : S → W) (ask : ∀ A, (W → W * A) → prog S error A) (same : S → S → Prop) :=
  ask_spec A (f : W → W * A) s :
    ∃ s', ask A f s = Ok (s', inr (f (world s)).2) ∧ world s' = (f (world s)).1 ∧ same s s'.

Section frame.
Context {W S : Type} `{BW : BootWorld W} `{BF : !BootFiles BW}.
Context {world : S → W} {ask : ∀ A, (W → W * A) → prog S error A} {same : S → S → Prop}.
Context `{!PreOrder same} `{AL : !AskLaw world ask same}.
Notation ctl := (prog S error).
Notation gcall := (boot_call ask).
Notation gquery := (boot_query ask).
Notation op := (PartitionOp ask).

Lemma returns_then (c : ctl ()) s (Q : S → error + () → Prop) : returns c s Q → returns (_ ← c; mret ()) s Q.
Proof.
  intros H. apply returns_bind. eapply returns_mono; [|exact H]. intros s' [e|[]] HQ; [done|by apply returns_ret].
Qed.

(** ** Calls that write some paths only *)

Definition still (X : text → Prop) (s s' : S) : Prop :=
  (∀ p, ¬ X p → file p (world s') = file p (world s)) ∧ same s s'.
Lemma still_refl X s : still X s s.
Proof. split; [done|reflexivity]. Qed.
Lemma still_trans X s1 s2 s3 : still X s1 s2 → still X s2 s3 → still X s1 s3.
Proof. intros [H1 ?] [H2 ?]. split; [|by etransitivity]. intros p Hp. by rewrite H2, H1. Qed.

Lemma still_mono (X Y : text → Prop) s s' : (∀ p, X p → Y p) → still X s s' → still Y s s'.
Proof. intros HXY [Hf ?]. split; [|done]. intros p Hp. apply Hf. naive_solver. Qed.

Definition modest (X : text → Prop) {A} (c : ctl A) : Prop := ∀ s, returns c s (λ s' _, still X s s').

Lemma modest_ret X {A} (a : A) : modest X (mret a).
Proof. intros s. apply returns_ret, still_refl. Qed.
Lemma modest_throw X {A} e : modest X (throw e : ctl A).
Proof. intros s. apply returns_throw, still_refl. Qed.
Lemma modest_bind X {A B} (c : ctl A) (f : A → ctl B) : modest X c → (∀ a, modest X (f a)) → modest X (c ≫= f).
Proof.
  intros Hc Hf s. apply returns_bind. eapply returns_mono; [|apply Hc]. intros s' [e|a] Hs; [done|].
  eapply returns_mono; [|apply Hf]. intros s'' r Hs'. by eapply still_trans.
Qed.
Lemma modest_map_err X {A} f (c : ctl A) : modest X c → modest X (map_err f c).
Proof. intros Hc s. apply returns_map_err. eapply returns_mono; [|apply Hc]. by intros s' [e|a] Hs. Qed.
Lemma modest_try X {A} (c : ctl A) : modest X c → modest X (try c).
Proof. intros Hc s. apply returns_try. eapply returns_mono; [|apply Hc]. by intros s' [e|a] Hs. Qed.
Lemma modest_of_result X {A} (r : error + A) : modest X (of_result r).
Proof. destruct r; [apply modest_throw|apply modest_ret]. Qed.
Lemma modest_check X e : modest X (check e).
Proof. destruct e; [apply modest_throw|apply modest_ret]. Qed.
Lemma modest_defer X {A} (d : ctl ()) (c : ctl A) : modest X d → modest X c → modest X (with_defer d c).
Proof.
  intros Hd Hc s. apply returns_defer. eapply returns_mono; [|apply Hc]. intros s' r Hs.
  eapply returns_mono; [|apply Hd]. intros s'' r' Hs'. exact (still_trans _ _ _ _ Hs Hs').
Qed.
Lemma modest_for_each X {A} (f : A → ctl ()) l : (∀ a, modest X (f a)) → modest X (for_each f l).
Proof. intros Hf. induction l as [|a l IH]; [apply modest_ret|]. by apply modest_bind. Qed.
Lemma returns_asked {A} (f : W → W * A) s (Q : S → error + A → Prop) :
  (∀ s', world s' = (f (world s)).1 → same s s' → Q s' (inr (f (world s)).2)) → returns (ask A f) s Q.
Proof. intros HQ. destruct (ask_spec A f s) as (s' & Ha & Hw & Hs). exists s', (inr (f (world s)).2). auto. Qed.
Lemma modest_ask X {A} (f : W → W * A) : (∀ p w, ¬ X p → file p (f w).1 = file p w) → modest X (ask A f).
Proof. intros Hf s. apply returns_asked. intros s' Hw Hs. split; [|done]. intros p Hp. by rewrite Hw, Hf. Qed.
Lemma modest_call X f : (∀ p w, ¬ X p → file p (f w).1 = file p w) → modest X (gcall f).
Proof. intros Hf. apply modest_bind; [by apply modest_ask|]. intros. apply modest_check. Qed.
Lemma modest_query X {A} (f : W → W * (error + A)) : (∀ p w, ¬ X p → file p (f w).1 = file p w) → modest X (gquery f).
Proof. intros Hf. apply modest_bind; [by apply modest_ask|]. intros. apply modest_of_result. Qed.

Lemma modest_mono (X Y : text → Prop) {A} (c : ctl A) : (∀ p, X p → Y p) → modest X c → modest Y c.
Proof.
  intros HXY Hc s. eapply returns_mono; [|apply Hc]. intros s' r. by apply still_mono.
Qed.

Lemma modest_unmount_all X disk mounted err : modest X (unmount_all ask disk mounted err).
Proof.
  revert err. induction mounted as [|m ms IH]; intros err; [apply modest_ret|]. apply modest_bind; [|done].
  apply modest_ask. intros. apply unmount_file.
Qed.
Lemma modest_Managers_Mount X disk managers mounted : modest X (Managers_Mount ask disk managers mounted).
Proof.
  revert mounted. induction managers as [|m ms IH]; intros mounted; [apply modest_ret|]. apply modest_bind.
  - apply modest_ask. intros. apply mount_file.
  - intros [e|]; [|apply IH]. apply modest_bind; [apply modest_unmount_all|]. intros. apply modest_throw.
Qed.
Lemma modest_unmounter X disk mounted : modest X (unmounter ask disk mounted).
Proof.
  apply modest_for_each. intros m. apply modest_bind; [|intros; apply modest_ret]. apply modest_ask.
  intros. apply unmount_file.
Qed.

(** An operation on partitions is its function, when it comes to it: nothing else touches the
    files. *)
Lemma PartitionOp_spec {A} disk specs (c : ctl A) ro skip info s (Q : S → error + A → Prop) :
  (∀ s1, still (λ _, False) s s1 → returns c s1 (λ s2 r, ∀ s3, still (λ _, False) s2 s3 → Q s3 r)) →
  (∀ s1 e, still (λ _, False) s s1 → Q s1 (inl e)) →
  returns (op disk specs c ro skip info) s Q.
Proof.
  intros Hc He. unfold PartitionOp. apply returns_bind.
  eapply (returns_mono _ _ (λ s1 _, still (λ _, False) s s1)).
  2: { destruct info as [info|]; [by apply returns_ret|]. apply modest_map_err, modest_query. intros. apply probe_file. }
  intros s1 [e|found] H1; [by apply He|]. apply returns_bind.
  eapply returns_mono; [|apply modest_of_result]. intros s2 r H2. pose proof (still_trans _ _ _ _ H1 H2) as H02.
  destruct r as [e|managers]; [by apply He|]. apply returns_bind.
  eapply returns_mono; [|apply modest_map_err, modest_Managers_Mount]. intros s3 r H3.
  pose proof (still_trans _ _ _ _ H02 H3) as H03. destruct r as [e|mounted]; [by apply He|].
  apply returns_defer. eapply returns_mono; [|by apply Hc]. intros s4 r HQ.
  eapply returns_mono; [|apply (modest_unmounter (λ _, False))]. intros s5 r' H5. by apply HQ.
Qed.

(** A probe of the disk finds the partition of the spec, and neither it nor the mount fails with
    the error for a partition that is missing. *)
Definition partition_found (spec : Spec) (readOnly skip : bool) (disk : text) : Prop :=
  (∀ w, match (blkid_ProbePath disk w).2 with
        | inl e => TagIs_NotFound e = false
        | inr parts => ∃ m, find_partition spec readOnly skip parts = inr m
        end) ∧
  ∀ m w e, (manager_Mount disk m w).2 = Some e → TagIs_NotFound e = false.

(** Then the operation comes to its function, or fails with another error. *)
Lemma PartitionOp_found {A} disk spec (c : ctl A) ro skip s (Q : S → error + A → Prop) :
  partition_found spec ro skip disk →
  (∀ s1, still (λ _, False) s s1 → returns c s1 (λ s2 r, ∀ s3, still (λ _, False) s2 s3 → Q s3 r)) →
  (∀ s1 e, TagIs_NotFound e = false → Q s1 (inl e)) →
  returns (op disk [spec] c ro skip None) s Q.
Proof.
  intros [Hprobe Hmount] Hc He. unfold PartitionOp. apply returns_bind, returns_map_err. unfold boot_query.
  apply returns_bind, returns_asked. intros s1 Hw1 Hs1. specialize (Hprobe (world s)).
  assert (H1 : still (λ _, False) s s1) by (split; [|done]; intros p _; rewrite Hw1; apply probe_file).
  destruct (blkid_ProbePath disk (world s)).2 as [e|parts].
  { apply returns_throw, He. simpl. by rewrite Hprobe. }
  apply returns_ret. destruct Hprobe as [m Hm]. apply returns_bind, returns_of_result. cbn [find_managers]. rewrite Hm.
  apply returns_bind, returns_map_err. cbn [Managers_Mount]. apply returns_bind, returns_asked. intros s2 Hw2 Hs2.
  pose proof (Hmount m (world s1)) as Herr.
  assert (H2 : still (λ _, False) s s2).
  { eapply still_trans; [exact H1|]. split; [|done]. intros p _. rewrite Hw2. apply mount_file. }
  destruct (manager_Mount disk m (world s1)).2 as [e|].
  { apply returns_bind, returns_ret, returns_throw, He. simpl. by rewrite (Herr e eq_refl). }
  apply returns_ret, returns_defer. eapply returns_mono; [|by apply Hc]. intros s4 r HQ.
  eapply returns_mono; [|apply (modest_unmounter (λ _, False))]. intros s5 r' H5. by apply HQ.
Qed.

(** ** Copies *)

(** A reader that [os_Open] gives for a path. *)
Definition opened (path : text) (r : Reader) : Prop := ∃ w w', os_Open path w = (w', inr r).

Lemma fill_spec dest (r : Reader) s :
  returns (to ← gquery (os_Create dest); gcall (io_Copy to r)) s (λ s' res,
    still (λ p, p = dest) s s' ∧ (res = inr () → file dest (world s') = Some (reader_text r))).
Proof.
  apply returns_bind. unfold boot_query. apply returns_bind, returns_asked. intros s1 Hw1 Hs1.
  pose proof (λ p, create_others p dest (world s)) as Ho. pose proof (create_empty dest (world s)) as He.
  destruct (os_Create dest (world s)) as [w1 [e|f]]; cbn [fst snd] in *; subst w1.
  { apply returns_throw. split; [|done]. split; [|done]. intros p Hp. by apply Ho. }
  apply returns_ret. destruct (He f eq_refl) as [Hpath Hempty]. unfold boot_call. apply returns_bind, returns_asked.
  intros s2 Hw2 Hs2. pose proof (λ p, copy_others p f r (world s1)) as Ho'. pose proof (copy_contents f r (world s1) []) as Hc.
  rewrite Hpath in *. destruct (io_Copy f r (world s1)) as [w2 err]; cbn [fst snd] in *. subst w2.
  assert (Hs : still (λ p, p = dest) s s2).
  { split; [|by etransitivity]. intros p Hp. by rewrite Ho', Ho by done. }
  destruct err as [e|]; [by apply returns_throw|]. apply returns_ret. split; [done|]. intros _. by apply Hc.
Qed.

Lemma CopyReader_spec instructions s : NoDup instructions.*2 →
  returns (CopyReader ask instructions) s (λ s' res,
    still (λ p, p ∈ instructions.*2) s s' ∧
    (res = inr () → Forall (λ '(r, dest), file dest (world s') = Some (reader_text r)) instructions)).
Proof.
  revert s. induction instructions as [|[r dest] l IH]; intros s Hnd; [by apply returns_ret; split; [apply still_refl|]|].
  cbn [CopyReader]. apply NoDup_cons in Hnd as [Hnew Hnd]. apply returns_bind, returns_map_err, returns_bind.
  eapply returns_mono; [|apply (modest_call (λ p, False)); intros; apply mkdir_file].
  assert (Hmono : ∀ s s', still (λ p, False) s s' → still (λ p, p ∈ ((r, dest) :: l).*2) s s').
  { intros s0 s'. by apply still_mono. }
  intros s1 [e|_] H1; [split; [by apply Hmono|done]|].
  eapply returns_mono; [|apply fill_spec]. intros s2 res [H2 Hok].
  assert (H02 : still (λ p, p ∈ ((r, dest) :: l).*2) s s2).
  { eapply still_trans; [by apply Hmono|]. eapply still_mono; [|exact H2]. set_solver. }
  destruct res as [e|[]]; [by split|]. eapply returns_mono; [|by apply IH]. intros s3 res [H3 Hall]. split.
  - eapply still_trans; [exact H02|]. eapply still_mono; [|exact H3]. set_solver.
  - intros Hres. constructor; [|by apply Hall]. destruct H3 as (Hf & _). rewrite Hf by done. by apply Hok.
Qed.

Lemma CopyFiles_spec instructions s : NoDup instructions.*2 →
  returns (CopyFiles ask instructions) s (λ s' res,
    still (λ p, p ∈ instructions.*2) s s' ∧
    (res = inr () → Forall (λ '(src, dest), ∃ r, opened src r ∧ file dest (world s') = Some (reader_text r)) instructions)).
Proof.
  revert s. induction instructions as [|[src dest] l IH]; intros s Hnd; [by apply returns_ret; split; [apply still_refl|]|].
  cbn [CopyFiles]. apply NoDup_cons in Hnd as [Hnew Hnd]. apply returns_bind, returns_map_err, returns_bind.
  eapply returns_mono; [|apply (modest_call (λ p, False)); intros; apply mkdir_file].
  assert (Hmono : ∀ s s', still (λ p, False) s s' → still (λ p, p ∈ ((src, dest) :: l).*2) s s').
  { intros s0 s'. by apply still_mono. }
  intros s1 [e|_] H1; [split; [by apply Hmono|done]|]. apply returns_bind.
  eapply (returns_mono _ _ (λ s' res, still (λ p, False) s1 s' ∧ ∀ r, res = inr r → opened src r)).
  2: { unfold boot_query. apply returns_bind, returns_asked. intros s' Hw Hs. pose proof (λ p, opening_file p src (world s1)) as Ho.
       assert (Hstill : still (λ p, False) s1 s') by (split; [|done]; intros p _; by rewrite Hw).
       destruct (os_Open src (world s1)) as [w [e|r]] eqn:Heq; cbn [snd]; [by apply returns_throw|].
       apply returns_ret. split; [done|]. intros r' [= <-]. by exists (world s1), w. }
  intros s1' [e|r] [H1' Hr]; [split; [|done]; apply Hmono; by eapply still_trans|].
  eapply returns_mono; [|apply fill_spec]. intros s2 res [H2 Hok].
  assert (H02 : still (λ p, p ∈ ((src, dest) :: l).*2) s s2).
  { eapply still_trans; [by apply Hmono; eapply still_trans|]. eapply still_mono; [|exact H2]. set_solver. }
  destruct res as [e|[]]; [by split|]. eapply returns_mono; [|by apply IH]. intros s3 res [H3 Hall]. split.
  - eapply still_trans; [exact H02|]. eapply still_mono; [|exact H3]. set_solver.
  - intros Hres. constructor; [|by apply Hall]. exists r. split; [by apply Hr|]. destruct H3 as (Hf & _). rewrite Hf by done. by apply Hok.
Qed.
End frame.
