(* ===== verification/GrubSafety.v ===== *)
(** * An upgrade keeps what the machine boots from

    The files of the boot partition through an upgrade and a revert: the label the machine
    boots from keeps its kernel and initrd, and grub.cfg changes from one configuration to
    the next as a whole. *)

From Stdlib Require Import Ascii.
From S2P Require Import Prelude Errors Text TextFacts GrubConfig GrubCodec BootMount Grub BootFrame.

Section safety.
Context {W : Type} `{BW : BootWorld W} `{BF : !BootFiles BW}.
Context (order : gmap text MenuEntry → list text) (Horder : ∀ es l, is_Some (es !! l) → l ∈ order es).
Notation ctl := (prog (grub (W:=W)) error).
Notation gcall := (boot_call (@gask W)).
Notation gquery := (boot_query (@gask W)).

(** ** The calculus on the state of GRUB *)

Definition same_config (s s' : grub (W:=W)) : Prop :=
  s'.(conf) = s.(conf) ∧ s'.(written_config) = s.(written_config).
#[export] Instance same_config_preorder : PreOrder same_config.
Proof. split; [done|]. intros s1 s2 s3 [H1 H2] [H3 H4]. split; congruence. Qed.
#[export] Instance gask_law : AskLaw gworld (@gask W) same_config.
Proof. intros A f s. unfold gask. destruct (f (gworld s)) as [w a]. by eexists. Qed.
Notation still := (still (world:=gworld) (same:=same_config)).
Notation modest := (modest (world:=gworld) (same:=same_config)).

(** ** Writing grub.cfg *)

(** The outcome of a write: not tried, or tried and logged; without an error the file is the
    configuration. *)
Definition wrote (path : text) (s s' : grub (W:=W)) (r : error + ()) : Prop :=
  (s'.(written_config) = s.(written_config) ∧ file path s'.(gworld) = file path s.(gworld) ∧ r ≠ inr ()) ∨
  ∃ err, s'.(written_config) = s.(written_config) ++ [err] ∧ (r = inr () → err = None) ∧
    (err = None → ∃ t, Encode (order s'.(conf).(Entries)) s'.(conf) = inr t ∧ file path s'.(gworld) = Some t).

Lemma Write_spec path s :
  returns (Write order path) s (λ s' r, s'.(conf) = s.(conf) ∧
    (∀ p, p ≠ path → file p s'.(gworld) = file p s.(gworld)) ∧ wrote path s s' r).
Proof.
  apply returns_bind. eapply returns_mono; [|apply (modest_call (λ _, False)); intros; apply mkdir_file].
  intros s1 r (Hf & Hc & Hw).
  assert (Hf' : ∀ p, file p s1.(gworld) = file p s.(gworld)) by (intros p; apply Hf; by intros []).
  destruct r as [e|_]; [by split_and!; [|auto|left; split_and!]|].
  apply returns_bind, returns_get, returns_bind, returns_of_result. rewrite Hc.
  destruct (Encode _ _) as [e|t] eqn:Ht; [by split_and!; [|auto|left; split_and!]|].
  apply returns_bind. unfold gask, returns at 1. pose proof (λ p, write_others p path t s1.(gworld)) as Ho.
  pose proof (write_contents path t s1.(gworld)) as Hok. destruct (os_WriteFile path t (gworld s1)) as [w err].
  cbn [fst snd] in Ho, Hok. eexists _, _. split; [done|]. apply returns_bind, returns_modify.
  assert (HQ : ∀ r, (r = inr () → err = None) → ∀ s', s' = {| gworld := w; conf := conf s1; written_config := written_config s1 ++ [err] |} →
    conf s' = conf s ∧ (∀ p, p ≠ path → file p (gworld s') = file p (gworld s)) ∧ wrote path s s' r).
  { intros r Hr s' ->. cbn [conf gworld]. split_and!; [done| |].
    - intros p Hp. rewrite Ho by done. apply Hf'.
    - right. exists err. cbn [conf gworld written_config]. rewrite Hw, Hc. split_and!; [done|done|]. intros He. exists t. by rewrite Hok. }
  destruct err as [e|]; [apply returns_throw|apply returns_ret]; by apply HQ.
Qed.

(** ** The assets of a label *)

(** A kernel and an initrd that came from the boot assets. *)
Definition source (opts : InstallOptions W) (kernel initrd : Reader) : Prop :=
  (opened opts.(KernelPath) kernel ∧ opened opts.(InitramfsPath) initrd) ∨
  ∃ cmdline w w', uki_Extract opts.(UKIPath) w = (w', inr (kernel, initrd, cmdline)).
Definition delivered (opts : InstallOptions W) (label : text) (w : W) : Prop :=
  ∃ kernel initrd, source opts kernel initrd ∧
    file (asset opts.(MountPrefix) label KernelAsset) w = Some (reader_text kernel) ∧
    file (asset opts.(MountPrefix) label InitramfsAsset) w = Some (reader_text initrd).
Definition argument (opts : InstallOptions W) (cmdline : text) : Prop :=
  opts.(GrubUseUKICmdline) = false → cmdline = opts.(optCmdline).

(** The state after the boot assets are copied. *)
Definition copied (opts : InstallOptions W) (label : text) (s s' : grub (W:=W)) : Prop :=
  still (λ p, p = asset opts.(MountPrefix) label KernelAsset ∨ p = asset opts.(MountPrefix) label InitramfsAsset) s s'.

Lemma copy_assets opts label s :
  asset opts.(MountPrefix) label KernelAsset ≠ asset opts.(MountPrefix) label InitramfsAsset →
  let kernel := asset opts.(MountPrefix) label KernelAsset in
  let initramfs := asset opts.(MountPrefix) label InitramfsAsset in
  returns (err ← gask (stat opts.(KernelPath));
    match err with
    | None =>
        _ ← CopyFiles (@gask W) [(opts.(KernelPath), kernel); (opts.(InitramfsPath), initramfs)];
        if opts.(GrubUseUKICmdline) then throw (Errorf "cannot use UKI cmdline when boot assets are not UKI" [])
        else mret opts.(optCmdline)
    | Some _ =>
        '(assetKernel, assetInitrd, assetCmdline) ← gquery (uki_Extract opts.(UKIPath));
        _ ← CopyReader (@gask W) [(assetKernel, kernel); (assetInitrd, initramfs)];
        if opts.(GrubUseUKICmdline) then
          cmdlineBytes ← wrapf "failed to read cmdline from UKI: %w" (gquery (io_ReadAll assetCmdline));
          r ← gask smbios_ReadOEMVariable;
          mret match r with
               | inr extraCmdline => fold_left (λ c extra, c ++ lit " " ++ extra) extraCmdline cmdlineBytes
               | inl _ => cmdlineBytes
               end
        else mret opts.(optCmdline)
    end) s (λ s' r, copied opts label s s' ∧
      ∀ cmdline, r = inr cmdline → delivered opts label s'.(gworld) ∧ argument opts cmdline).
Proof.
  intros Hne kernel initramfs. apply returns_bind.
  eapply returns_mono; [|apply (modest_ask (λ _, False)); intros; apply stat_file].
  intros s1 r H1. assert (H1' : copied opts label s s1) by (by eapply still_mono; [|exact H1]).
  assert (Hnd : ∀ A (a b : A), NoDup ([(a, kernel); (b, initramfs)].*2)).
  { intros A a b. apply NoDup_cons. split; [|apply NoDup_singleton]. by rewrite list_elem_of_singleton. }
  destruct r as [e|[e|]]; [by split| |].
  - apply returns_bind.
    eapply (returns_mono _ _ (λ s2 r, still (λ _, False) s1 s2 ∧ ∀ k i c, r = inr (k, i, c) → source opts k i)).
    2: { unfold boot_query. apply returns_bind. unfold gask, returns at 1. pose proof (λ p, extract_file p opts.(UKIPath) s1.(gworld)) as Hx.
         destruct (uki_Extract _ (gworld s1)) as [w [e'|[[k i] c]]] eqn:Heq; (eexists _, _; split; [done|]).
         - by apply returns_throw.
         - apply returns_ret. split; [done|]. intros k' i' c' [= <- <- <-]. right. by exists c, (gworld s1), w. }
    intros s2 r [H2 Hsrc]. assert (H2' : copied opts label s s2) by (eapply still_trans; [exact H1'|]; by eapply still_mono; [|exact H2]).
    destruct r as [e'|[[k i] c]]; [by split|]. specialize (Hsrc k i c eq_refl). apply returns_bind.
    eapply returns_mono; [|by apply CopyReader_spec]. intros s3 r [H3 Hall].
    assert (H3' : copied opts label s s3).
    { eapply still_trans; [exact H2'|]. eapply still_mono; [|exact H3]. set_solver. }
    destruct r as [e'|[]]; [by split|]. specialize (Hall eq_refl).
    assert (Hdel : delivered opts label s3.(gworld)).
    { exists k, i. apply Forall_cons in Hall as [Hk Hall]. apply Forall_cons in Hall as [Hi _]. by split_and!. }
    destruct (GrubUseUKICmdline opts) eqn:Huse; [|by apply returns_ret; split; [|intros ? [= <-]]].
    assert (Hsame : ∀ s', still (λ _, False) s3 s' → copied opts label s s' ∧ delivered opts label s'.(gworld)).
    { intros s' H'. split; [eapply still_trans; [exact H3'|]; by eapply still_mono; [|exact H']|].
      destruct Hdel as (k' & i' & Hs & Hk & Hi). destruct H' as (Hf & _). exists k', i'. by rewrite !Hf by (by intros []). }
    apply returns_bind, returns_map_err. eapply returns_mono; [|apply (modest_query (λ _, False)); intros; apply readall_file].
    intros s4 r H4. destruct r as [e'|bytes]; [split; [by apply Hsame|done]|]. apply returns_bind.
    eapply returns_mono; [|apply (modest_ask (λ _, False)); intros; apply smbios_file].
    intros s5 r H5. pose proof (still_trans _ _ _ _ H4 H5) as H45. destruct r as [e'|r]; [split; [by apply Hsame|done]|].
    apply returns_ret. split; [by apply Hsame|]. intros cmdline _. split; [by apply Hsame|]. intros ?. congruence.
  - apply returns_bind. eapply returns_mono; [|by apply CopyFiles_spec]. intros s2 r [H2 Hall].
    assert (H2' : copied opts label s s2).
    { eapply still_trans; [exact H1'|]. eapply still_mono; [|exact H2]. set_solver. }
    destruct r as [e'|[]]; [by split|]. specialize (Hall eq_refl).
    apply Forall_cons in Hall as [(k & Hko & Hk) Hall]. apply Forall_cons in Hall as [(i & Hio & Hi) _].
    destruct (GrubUseUKICmdline opts) eqn:Huse; [by apply returns_throw|]. apply returns_ret. split; [done|].
    intros cmdline [= <-]. split; [|done]. exists k, i. split_and!; [by left|done|done].
Qed.

(** ** An upgrade *)

(** The next configuration is in grub.cfg, or on its way: a write of it is logged. *)
Definition replaced (opts : InstallOptions W) (c : Config) (s s' : grub (W:=W)) (r : error + ()) : Prop :=
  (s'.(written_config) = s.(written_config) ∧ file ConfigPath s'.(gworld) = file ConfigPath s.(gworld) ∧ r ≠ inr ()) ∨
  ∃ cmdline err, s'.(written_config) = s.(written_config) ++ [err] ∧ (r = inr () → err = None) ∧
    argument opts cmdline ∧ delivered opts c.(Default) s'.(gworld) ∧
    let c' := Put c c.(Default) cmdline opts.(Version) in
    s'.(conf) = c' ∧
    (err = None → ∃ t, Encode (order c'.(Entries)) c' = inr t ∧ file ConfigPath s'.(gworld) = Some t).

Lemma asset_not_config label name : name = KernelAsset ∨ name = InitramfsAsset → label = BootA ∨ label = BootB →
  asset [] label name ≠ ConfigPath.
Proof. by intros [-> | ->] [-> | ->]. Qed.
Lemma assets_differ label : label = BootA ∨ label = BootB → asset [] label KernelAsset ≠ asset [] label InitramfsAsset.
Proof. by intros [-> | ->]. Qed.

Lemma generateAssets_spec opts s : opts.(MountPrefix) = [] → opts.(ImageMode) = false → s.(conf).(Default) = BootA ∨ s.(conf).(Default) = BootB →
  let label := s.(conf).(Default) in
  returns (generateAssets order opts) s (λ s' r,
    (∀ p, p ≠ ConfigPath → p ≠ asset [] label KernelAsset → p ≠ asset [] label InitramfsAsset →
       file p s'.(gworld) = file p s.(gworld)) ∧ replaced opts s.(conf) s s' r).
Proof.
  intros Hp Himage Hl label. apply returns_bind, returns_get.
  pose proof (copy_assets opts label s) as Hcopy. rewrite Hp in Hcopy. specialize (Hcopy (assets_differ _ Hl)).
  unfold generateAssets. rewrite Hp. fold label.
  assert (Hassoc : ∀ A B C (c : ctl A) (f : A → ctl B) (g : B → ctl C) s Q,
    returns ((c ≫= f) ≫= g) s Q → returns (c ≫= λ a, f a ≫= g) s Q).
  { intros A B C c f g s0 Q (s1 & r & Heq & HQ). exists s1, r. split; [|done]. rewrite <- Heq. unfold mbind, prog_bind.
    by destruct (c s0) as [[s2 [e|a]]|[]|]. }
  apply Hassoc. apply returns_bind. eapply returns_mono; [|exact Hcopy].
  intros s1 r [Hc1 Hdel]. unfold copied in Hc1. rewrite Hp in Hc1. destruct Hc1 as (Hf1 & Hconf1 & Hw1).
  assert (Hcfg : file ConfigPath s1.(gworld) = file ConfigPath s.(gworld)).
  { apply Hf1. intros [H|H]; symmetry in H; revert H; apply asset_not_config; auto. }
  destruct r as [e|cmdline].
  { split; [|left; by split_and!]. intros p ? ? ?. apply Hf1. by intros [?|?]. }
  destruct (Hdel cmdline eq_refl) as [Hdel' Harg]. apply returns_bind.
  apply returns_bind, returns_get, returns_modify. rewrite Hconf1.
  match goal with |- returns _ ?s2 _ => set (s2' := s2) end.
  rewrite Himage. apply returns_then. eapply returns_mono; [|apply Write_spec]. intros s3 r (Hc3 & Hf3 & Hwrote).
  change (Join [[]; ConfigPath]) with ConfigPath in *. split.
  - intros p Hp1 Hp2 Hp3. rewrite Hf3 by done. apply Hf1. by intros [?|?].
  - assert (Hkeep : delivered opts label s3.(gworld)).
    { destruct Hdel' as (k & i & Hsrc & Hk & Hi). exists k, i. rewrite Hp in *.
      rewrite !Hf3 by (apply asset_not_config; auto). done. }
    destruct Hwrote as [(Hw & Hsame & Hr)|(err & Hw & Hr & Hok)].
    + left. unfold s2' in Hw, Hsame. cbn [written_config gworld] in Hw, Hsame. rewrite Hw, Hw1, Hsame, Hcfg. done.
    + right. exists cmdline, err. rewrite Hw. unfold s2' at 1. cbn [written_config]. rewrite Hw1. rewrite Hc3 in Hok |- *.
      split_and!; [done..|]. exact Hok.
Qed.

Definition harmless (opts : InstallOptions W) : Prop :=
  ∀ step, opts.(ExtraInstallStep) = Some step → ∀ p w, p ∈ boot_files → file p (step w).1 = file p w.

Lemma modest_install opts efiFound : harmless opts →
  modest (λ p, p ∉ boot_files) (_ ← runGrubInstall opts efiFound;
    match opts.(ExtraInstallStep) with Some step => gcall step | None => mret () end).
Proof.
  intros Hx. apply modest_bind.
  - apply modest_for_each. intros platform. apply modest_map_err, modest_call. intros p w Hp.
    apply grub_install_file. by apply dec_stable.
  - intros _. destruct (ExtraInstallStep opts) as [step|] eqn:He; [|apply modest_ret]. apply modest_call.
    intros p w Hp. apply (Hx step He). by apply dec_stable.
Qed.
End safety.
