(* ===== verification/GrubUpgrade.v ===== *)
(** * Upgrades and rollbacks of GRUB

    The label a machine boots from survives an upgrade, and a rollback after one boots from
    it again: [Upgrade] of upgrade.go, then, after a reboot, [Probe] and [Revert] of probe.go
    and revert.go. *)

From Stdlib Require Import Ascii.
From S2P Require Import Prelude Errors Text TextFacts GrubConfig GrubCodec BootMount Grub BootFrame GrubSafety.

(** ** Configurations *)

(** The configuration that boots [other] and falls back to what [c] boots. *)
Definition switched (c : Config) (other : text) : Config :=
  {| Default := other; Fallback := c.(Default); Entries := c.(Entries); AddResetOption := c.(AddResetOption) |}.

(** Arguments and a version that can be read back from grub.cfg. *)
Record legible (cmdline version : text) : Prop := {
  legible_starts : starts cmdline; legible_line : newline ∉ cmdline;
  legible_version : newline ∉ version; legible_quotes : dquote ∉ version
}.

Lemma flip_other l other : flipBootLabel l = inr other →
  (l = BootA ∧ other = BootB) ∨ (l = BootB ∧ other = BootA).
Proof.
  unfold flipBootLabel. case_bool_decide; [intros [= <-]; by left|]. case_bool_decide; [intros [= <-]; by right|done].
Qed.
Lemma flip_back l other : flipBootLabel l = inr other → flipBootLabel other = inr l.
Proof. by intros [[-> ->]|[-> ->]]%flip_other. Qed.
Lemma flip_differs l other : flipBootLabel l = inr other → l ≠ other.
Proof. by intros [[-> ->]|[-> ->]]%flip_other. Qed.
Lemma flip_switched c e other : c.(Entries) !! c.(Default) = Some e → flipBootLabel c.(Default) = inr other →
  flip c = inr (switched c other).
Proof. intros He Ho. unfold flip. by rewrite He, Ho. Qed.

Lemma built_entry_ok l cmdline version : l = BootA ∨ l = BootB → legible cmdline version →
  entry_ok l (buildMenuEntry l cmdline version).
Proof.
  intros Hl [Hs Hn Hv Hq].
  assert (Hfixed : newline ∉ l ∧ dquote ∉ l ∧ newline ∉ lit " - Chubo " ∧ dquote ∉ lit " - Chubo ").
  { split; [|split; [|split]]; [destruct Hl as [-> | ->]..| |]; apply (bool_decide_unpack _); vm_compute; exact I. }
  destruct Hfixed as (? & ? & ? & ?).
  assert (Hname : Name (buildMenuEntry l cmdline version) = l ++ lit " - Chubo " ++ version) by done.
  split; [by destruct Hl as [-> | ->]|by destruct Hl as [-> | ->]|].
  split; cbn [iName iLinux iCmdline iExtra iInitrd Cmdline buildMenuEntry]; rewrite ?Hname; try done.
  - by destruct Hl as [-> | ->].
  - by rewrite !elem_of_app; intros [?|[?|?]].
  - by rewrite !elem_of_app; intros [?|[?|?]].
  - by destruct Hl as [-> | ->].
  - destruct Hl as [-> | ->]; apply (bool_decide_unpack _); by vm_compute.
  - unfold plain. destruct Hl as [-> | ->]; apply (bool_decide_unpack _); by vm_compute.
  - by constructor.
  - apply not_elem_of_nil.
  - by destruct Hl as [-> | ->].
  - destruct Hl as [-> | ->]; apply (bool_decide_unpack _); by vm_compute.
  - unfold plain. destruct Hl as [-> | ->]; apply (bool_decide_unpack _); by vm_compute.
Qed.

Lemma put_ok c l cmdline version : config_ok c → l = BootA ∨ l = BootB → legible cmdline version →
  config_ok (Put c l cmdline version).
Proof. intros Hc Hl Hleg. apply map_Forall_insert_2; [by apply built_entry_ok|done]. Qed.
Lemma Encode_valid labels c t : Encode labels c = inr t → validate c = None.
Proof. unfold Encode. by destruct (validate c). Qed.

(** What is written is read back. *)
Lemma encoded_decodes order c t : (∀ es l, is_Some (es !! l) → l ∈ order es) → config_ok c →
  Encode (order c.(Entries)) c = inr t → Decode t = inr c.
Proof.
  intros Horder Hok Ht. destruct (decode_written c Hok (order c.(Entries))) as (t' & Ht' & Hd); [apply Horder|by eapply Encode_valid|].
  rewrite Ht in Ht'. by injection Ht' as <-.
Qed.

Section upgrade.
Context {W : Type} `{BW : BootWorld W} `{BF : !BootFiles BW}.
Context (order : gmap text MenuEntry → list text) (Horder : ∀ es l, is_Some (es !! l) → l ∈ order es).
Notation ctl := (prog (grub (W:=W)) error).
Notation still := (still (world:=gworld) (same:=same_config)).
Notation modest := (modest (world:=gworld) (same:=same_config)).

(** Kernel and initrd of a label are as before. *)
Definition keeps (label : text) (w w' : W) : Prop :=
  file (asset [] label KernelAsset) w' = file (asset [] label KernelAsset) w ∧
  file (asset [] label InitramfsAsset) w' = file (asset [] label InitramfsAsset) w.

Lemma modest_find_efi X opts : modest X (find_efi opts).
Proof.
  apply modest_bind; [|intros; apply modest_ret]. apply modest_try. intros s.
  apply PartitionOp_spec; [|by intros s1 e H; eapply still_mono; [|exact H]].
  intros s1 H1. apply returns_ret. intros s3 H3. eapply still_mono; [|by eapply still_trans]. done.
Qed.

Lemma flip__spec s e other (Q : grub → error + () → Prop) :
  s.(conf).(Entries) !! s.(conf).(Default) = Some e → flipBootLabel s.(conf).(Default) = inr other →
  Q {| gworld := s.(gworld); conf := switched s.(conf) other; written_config := s.(written_config) |} (inr ()) →
  returns (flip_ : ctl ()) s Q.
Proof.
  intros He Ho HQ. apply returns_bind, returns_get, returns_bind, returns_of_result. rewrite (flip_switched _ e other) by done.
  by apply returns_modify.
Qed.

(** The next configuration was not written, or was put in place as a whole. *)
Definition upgraded (opts : InstallOptions W) (c : Config) (other : text) (s s' : grub (W:=W)) (ok : Prop) : Prop :=
  keeps c.(Default) s.(gworld) s'.(gworld) ∧
  ((s'.(written_config) = s.(written_config) ∧ file ConfigPath s'.(gworld) = file ConfigPath s.(gworld) ∧ ¬ ok) ∨
   ∃ cmdline err, s'.(written_config) = s.(written_config) ++ [err] ∧ (ok → err = None) ∧
     argument opts cmdline ∧ delivered opts other s'.(gworld) ∧
     let c' := Put (switched c other) other cmdline opts.(Version) in
     s'.(conf) = c' ∧
     (err = None → ∃ t, Encode (order c'.(Entries)) c' = inr t ∧ file ConfigPath s'.(gworld) = Some t)).

Lemma file_kept (X : text → Prop) s s' p : still X s s' → (∀ q, X q → q ∉ boot_files) → p ∈ boot_files →
  file p s'.(gworld) = file p s.(gworld).
Proof. intros (Hf & _) HX Hp. apply Hf. intros ?. by apply (HX p). Qed.

Lemma asset_boot_file l name : l = BootA ∨ l = BootB → name = KernelAsset ∨ name = InitramfsAsset → asset [] l name ∈ boot_files.
Proof. unfold boot_files. intros [-> | ->] [-> | ->]; set_solver. Qed.

(** What comes before and after, and leaves the files alone. *)
Lemma upgraded_still (X : text → Prop) opts c other s s1 s2 s3 ok (ok' : Prop) : opts.(MountPrefix) = [] →
  c.(Default) = BootA ∨ c.(Default) = BootB → other = BootA ∨ other = BootB → (∀ q, X q → q ∉ boot_files) → (ok' → ok) →
  still (λ _, False) s s1 → still X s2 s3 → upgraded opts c other s1 s2 ok → upgraded opts c other s s3 ok'.
Proof.
  intros Hp Hd Ho HX Hok H1 H3 [[Hk Hi] Hcases].
  assert (H1f : ∀ p, file p s1.(gworld) = file p s.(gworld)) by (intros p; apply H1; by intros []).
  assert (H3f : ∀ p, p ∈ boot_files → file p s3.(gworld) = file p s2.(gworld)) by (intros p; by eapply file_kept).
  assert (Hcfg : ConfigPath ∈ boot_files) by (unfold boot_files; set_solver).
  destruct H1 as (_ & _ & Hw1). destruct H3 as (_ & Hc3 & Hw3). split.
  { split; rewrite H3f by (apply asset_boot_file; auto); rewrite <- H1f; done. }
  destruct Hcases as [(Hw & Hf & Hr)|(cmdline & err & Hw & Hr & Harg & Hdel & Hc & Ht)].
  - left. rewrite Hw3, Hw, Hw1, (H3f _ Hcfg), Hf, H1f. split_and!; [done..|]. auto.
  - right. exists cmdline, err. rewrite Hw3, Hw, Hw1, Hc3, (H3f _ Hcfg). split; [done|]. split; [auto|]. split; [done|]. split; [|by split].
    destruct Hdel as (k & i & Hsrc & Hk' & Hi'). exists k, i. rewrite Hp in *.
    rewrite !H3f by (apply asset_boot_file; auto). done.
Qed.

(** The body of an upgrade, with the boot partition mounted. *)
Lemma upgrade_spec opts efiFound s e other : opts.(MountPrefix) = [] → opts.(ImageMode) = false → harmless opts →
  s.(conf).(Entries) !! s.(conf).(Default) = Some e → flipBootLabel s.(conf).(Default) = inr other →
  returns (upgrade order opts efiFound) s (λ s' r, upgraded opts s.(conf) other s s' (r = inr ())).
Proof.
  intros Hp Himage Hx He Ho. pose proof (flip_other _ _ Ho) as Hcases.
  assert (Hother : other = BootA ∨ other = BootB) by (destruct Hcases as [[? ?]|[? ?]]; auto).
  assert (Hdef : Default s.(conf) = BootA ∨ Default s.(conf) = BootB) by (destruct Hcases as [[? ?]|[? ?]]; auto).
  apply returns_bind. apply (flip__spec s e other); [done..|]. apply returns_bind.
  eapply returns_mono; [|by apply generateAssets_spec]. cbn [conf Default switched gworld]. intros s2 r [Hf Hrep].
  assert (H2 : upgraded opts s.(conf) other s s2 (r = inr ())).
  { split.
    - split; apply Hf; clear -Hcases Hdef Ho; destruct Hcases as [[-> ->]|[-> ->]]; by vm_compute.
    - destruct Hrep as [?|(cmdline & err & Hw & Hr & Harg & Hdel & Hc & Ht)]; [by left|right]. by exists cmdline, err. }
  destruct r as [e'|[]]; [exact H2|].
  eapply returns_mono; [|by apply modest_install]. intros s3 r H3.
  exact (upgraded_still (λ p, p ∉ boot_files) opts _ other s s s2 s3 (inr () = inr ()) _ Hp Hdef Hother
           (λ _ H, H) (λ _, eq_refl) (still_refl _ _) H3 H2).
Qed.

Lemma Upgrade_spec opts s e other : opts.(MountPrefix) = [] → opts.(ImageMode) = false → harmless opts →
  s.(conf).(Entries) !! s.(conf).(Default) = Some e → flipBootLabel s.(conf).(Default) = inr other →
  returns (Upgrade order opts) s (λ s' r,
    upgraded opts s.(conf) other s s' (∃ l, r = inr l) ∧ ∀ l, r = inr l → l = s.(conf).(Default)).
Proof.
  intros Hp Himage Hx He Ho. pose proof (flip_other _ _ Ho) as Hcases.
  assert (Hother : other = BootA ∨ other = BootB) by (destruct Hcases as [[? ?]|[? ?]]; auto).
  assert (Hdef : Default s.(conf) = BootA ∨ Default s.(conf) = BootB) by (destruct Hcases as [[? ?]|[? ?]]; auto).
  assert (Hnone : ∀ A (e' : error) s', still (λ _, False) s s' →
    upgraded opts s.(conf) other s s' (∃ l : A, inl e' = inr l)).
  { intros A e' s' (Hf & _ & Hw). split; [split; apply Hf; by intros []|]. left.
    split; [done|]. split; [apply Hf; by intros []|]. by intros [l Hl]. }
  apply returns_bind. eapply returns_mono; [|apply modest_find_efi]. intros s1 r H1.
  destruct r as [e'|efi]; [split; [by apply Hnone|done]|]. apply returns_bind. apply PartitionOp_spec.
  2: { intros s2 e' H2. split; [|done]. apply Hnone. by eapply still_trans. }
  intros s2 H2. pose proof (still_trans _ _ _ _ H1 H2) as H02. pose proof H02 as (_ & Hconf & _).
  eapply returns_mono; [|apply (upgrade_spec opts efi s2 e other); [done..| |]; by rewrite Hconf].
  intros s3 r H3 s4 H4. rewrite Hconf in H3.
  assert (H04 : ∀ A (r' : error + A), (∀ l, r' = inr l → r = inr ()) → upgraded opts s.(conf) other s s4 (∃ l, r' = inr l)).
  { intros A r' Hr. refine (upgraded_still (λ _, False) opts _ other s s2 s3 s4 (r = inr ()) _ Hp Hdef Hother _ _ H02 H4 H3).
    - by intros q [].
    - intros [l Hl]. by eapply Hr. }
  destruct r as [e'|[]]; [split; [by apply H04|done]|]. apply returns_bind, returns_get, returns_ret. split; [by apply H04|].
  intros l [= <-]. destruct H3 as [_ [(_ & _ & [])|(cmdline & err & _ & _ & _ & _ & Hc & _)]]; [done|].
  destruct H4 as (_ & -> & _). by rewrite Hc.
Qed.

(** C12: an upgrade leaves the kernel and the initrd of the label the machine boots from as
    they are, whether it fails or not.  It returns that label when it succeeds, and grub.cfg is as before or was
    written once, after the new assets were delivered to the other label; a write without an error leaves
    a configuration there that is read back as the one that boots the other label with the
    arguments and the version asked for and falls back to the current one, whose entry stays. *)
Theorem upgrade_keeps_current opts s e other : opts.(MountPrefix) = [] → opts.(ImageMode) = false → harmless opts → config_ok s.(conf) →
  s.(conf).(Entries) !! s.(conf).(Default) = Some e → flipBootLabel s.(conf).(Default) = inr other →
  returns (Upgrade order opts) s (λ s' r,
    keeps s.(conf).(Default) s.(gworld) s'.(gworld) ∧ (∀ l, r = inr l → l = s.(conf).(Default)) ∧
    ((s'.(written_config) = s.(written_config) ∧ file ConfigPath s'.(gworld) = file ConfigPath s.(gworld) ∧ ¬ ∃ l, r = inr l) ∨
     ∃ cmdline err, s'.(written_config) = s.(written_config) ++ [err] ∧ ((∃ l, r = inr l) → err = None) ∧
       argument opts cmdline ∧ delivered opts other s'.(gworld) ∧
       (err = None → ∃ t, file ConfigPath s'.(gworld) = Some t ∧
          (legible cmdline opts.(Version) → Decode t = inr (Put (switched s.(conf) other) other cmdline opts.(Version)))))).
Proof.
  intros Hp Himage Hx Hok He Ho. eapply returns_mono; [|by eapply Upgrade_spec]. intros s' r [[Hk Hcases] Hl].
  split; [done|]. split; [done|]. destruct Hcases as [?|(cmdline & err & Hw & Hr & Harg & Hdel & _ & Ht)]; [by left|right].
  exists cmdline, err. split; [done|]. split; [done|]. split; [done|]. split; [done|]. intros Herr.
  destruct (Ht Herr) as (t & Henc & Hf). exists t. split; [done|]. intros Hleg.
  apply (encoded_decodes order); [done| |done]. apply put_ok; [done| |done]. destruct (flip_other _ _ Ho) as [[_ ->]|[_ ->]]; auto.
Qed.

(** ** A rollback *)

Lemma Probe_spec disk s :
  returns (Probe disk) s (λ s' r, still (λ _, False) s s' ∧
    ∀ c, r = inr (Some c) → ∃ t, file ConfigPath s.(gworld) = Some t ∧ Decode t = inr c).
Proof.
  apply returns_bind, returns_try.
  eapply (returns_mono _ _ (λ s' r, still (λ _, False) s s' ∧
    ∀ c, r = inr (Some c) → ∃ t, file ConfigPath s.(gworld) = Some t ∧ Decode t = inr c)).
  { intros s' [e|c] [H1 H2]; [|by apply returns_ret]. destruct (TagIs_NotFound e); [by apply returns_ret|by apply returns_throw]. }
  apply PartitionOp_spec; [|by split]. intros s1 H1. apply returns_bind. unfold Read. apply returns_bind.
  unfold gask, returns at 1. pose proof (λ p, reading_file p ConfigPath s1.(gworld)) as Hr.
  pose proof (read_contents ConfigPath s1.(gworld)) as Hc. assert (Hcfg : file ConfigPath s1.(gworld) = file ConfigPath s.(gworld)).
  { apply H1. by intros []. }
  destruct (read_file ConfigPath (gworld s1)) as [w rd]. cbn [fst snd] in Hr, Hc. eexists _, _. split; [done|].
  set (s2 := {| gworld := w; conf := conf s1; written_config := written_config s1 |}).
  assert (H2 : still (λ _, False) s s2).
  { eapply still_trans; [exact H1|]. split_and!; [|done..]. intros p _. apply Hr. }
  assert (HQ : ∀ (r : error + option Config), (∀ c, r = inr (Some c) → ∃ t, file ConfigPath (gworld s) = Some t ∧ Decode t = inr c) →
    ∀ s3, still (λ _, False) s2 s3 → still (λ _, False) s s3 ∧
      ∀ c, r = inr (Some c) → ∃ t, file ConfigPath (gworld s) = Some t ∧ Decode t = inr c).
  { intros r Hr' s3 H3. split; [by eapply still_trans|done]. }
  destruct rd as [e|t].
  - destruct (errors_Is "ErrNotExist" e); [apply returns_ret|apply returns_throw; by apply HQ]. apply returns_ret. by apply HQ.
  - apply returns_bind, returns_of_result. destruct (Decode t) as [e|c] eqn:Hd; [by apply HQ|]. apply returns_ret.
    apply returns_bind, returns_ret, returns_ret. apply HQ. intros c' [= <-]. exists t. by rewrite <- Hcfg, (Hc t eq_refl).
Qed.

(** grub.cfg is as before, or a write of [c] is logged; one without an error put it there. *)
Definition reverted (c : Config) (s s' : grub (W:=W)) (ok : Prop) : Prop :=
  (∀ p, p ≠ ConfigPath → file p s'.(gworld) = file p s.(gworld)) ∧
  ((s'.(written_config) = s.(written_config) ∧ file ConfigPath s'.(gworld) = file ConfigPath s.(gworld)) ∨
   ∃ err, s'.(written_config) = s.(written_config) ++ [err] ∧ (ok → err = None) ∧
     (err = None → ∃ t, Encode (order c.(Entries)) c = inr t ∧ file ConfigPath s'.(gworld) = Some t)).

Lemma reverted_still c s s1 s2 s3 ok (ok' : Prop) : (ok' → ok) → still (λ _, False) s s1 → still (λ _, False) s2 s3 →
  reverted c s1 s2 ok → reverted c s s3 ok'.
Proof.
  intros Hok (H1f & _ & H1w) (H3f & _ & H3w) [Hf Hcases].
  assert (H1 : ∀ p, file p s1.(gworld) = file p s.(gworld)) by (intros p; apply H1f; by intros []).
  assert (H3 : ∀ p, file p s3.(gworld) = file p s2.(gworld)) by (intros p; apply H3f; by intros []).
  split; [intros p Hp; by rewrite H3, Hf, H1|]. destruct Hcases as [[Hw Hc]|(err & Hw & He & Ht)].
  - left. by rewrite H3w, Hw, H1w, H3, Hc, H1.
  - right. exists err. rewrite H3w, Hw, H1w, H3. split; [done|]. split; [auto|done].
Qed.

Lemma still_reverted c s s' (ok : Prop) : still (λ _, False) s s' → reverted c s s' ok.
Proof. intros (Hf & _ & Hw). split; [intros p _; apply Hf; by intros []|]. left. split; [done|]. apply Hf. by intros []. Qed.

(** The body of a revert: an error of a write is not taken for a partition that is missing. *)
Lemma revert_spec s e other :
  s.(conf).(Entries) !! s.(conf).(Default) = Some e → flipBootLabel s.(conf).(Default) = inr other →
  returns (revert order) s (λ s' r, reverted (switched s.(conf) other) s s' (r = inr () ∨ ∃ e, r = inl e ∧ TagIs_NotFound e = true)).
Proof.
  intros He Ho. apply returns_bind. apply (flip__spec s e other); [done..|]. set (s1 := Build_grub _ _ _).
  apply returns_bind, returns_get, returns_bind.
  eapply returns_mono; [|apply (modest_ask (λ _, False)); intros; apply stat_file].
  intros s2 r H2. assert (H02 : ∀ ok, reverted (switched s.(conf) other) s s2 ok).
  { intros ok. exact (still_reverted _ s1 s2 ok H2). }
  destruct r as [e'|err]; [by apply H02|]. apply returns_bind.
  assert (Hgo : returns (map_err (λ e, Errorf "failed to revert bootloader: %v" [Printed e]) (Write order ConfigPath)) s2
    (λ s' r, reverted (switched s.(conf) other) s s' (r = inr () ∨ ∃ e, r = inl e ∧ TagIs_NotFound e = true))).
  { apply returns_map_err. eapply returns_mono; [|apply Write_spec]. intros s3 r (Hc3 & Hf3 & Hwrote).
    destruct H2 as (Hf2 & Hc2 & Hw2). rewrite Hc2 in Hc3.
    assert (H2f : ∀ p, file p s2.(gworld) = file p s.(gworld)) by (intros p; apply Hf2; by intros []).
    assert (H : reverted (switched s.(conf) other) s s3 (r = inr ())).
    { split; [intros p Hp; by rewrite Hf3, H2f|]. destruct Hwrote as [(Hw & Hf & _)|(err' & Hw & Hr & Ht)].
      - left. by rewrite Hw, Hw2, Hf, H2f.
      - right. exists err'. rewrite Hw, Hw2. rewrite Hc3 in Ht. split; [done|]. by split. }
    destruct r as [e'|[]]; (eapply reverted_still; [|apply still_refl..|exact H]); [|done].
    intros [?|(e'' & [= <-] & ?)]; done. }
  destruct err as [err|]; [|apply returns_ret; exact Hgo].
  destruct (errors_Is "ErrNotExist" err); [apply returns_throw; by apply H02|apply returns_ret; exact Hgo].
Qed.

Lemma Revert_spec c disk s e other : c.(Entries) !! c.(Default) = Some e → flipBootLabel c.(Default) = inr other →
  returns (Revert order (Some c) disk) s (λ s' r, reverted (switched c other) s s' (r = inr ())).
Proof.
  intros He Ho. apply returns_bind, returns_modify. set (s0 := Build_grub _ _ _).
  assert (H0 : still (λ _, False) s0 s0) by apply still_refl.
  apply returns_bind, returns_try.
  eapply (returns_mono _ _ (λ s' r, reverted (switched c other) s0 s' (r = inr () ∨ ∃ e, r = inl e ∧ TagIs_NotFound e = true))).
  { intros s' [e'|[]] H.
    - destruct (TagIs_NotFound e') eqn:Ht; [apply returns_ret|apply returns_throw];
        (eapply (reverted_still _ s0 s0 s' s'); [|apply still_refl..|exact H]); [|done]. intros _. right. by exists e'.
    - apply returns_ret. eapply (reverted_still _ s0 s0 s' s'); [|apply still_refl..|exact H]. by left. }
  apply PartitionOp_spec; [|intros; by apply still_reverted].
  intros s1 H1. pose proof H1 as (_ & Hc1 & _). assert (Hc : conf s1 = c) by (by rewrite Hc1). 
  eapply returns_mono; [|apply (revert_spec s1 e other); by rewrite Hc]. intros s2 r H2 s3 H3.
  rewrite Hc in H2. eapply reverted_still; [|exact H1|exact H3|exact H2]. done.
Qed.

(** What a revert that succeeds has written. *)
Definition written (c : Config) (s s' : grub (W:=W)) : Prop :=
  s'.(written_config) = s.(written_config) ++ [None] ∧
  ∃ t, Encode (order c.(Entries)) c = inr t ∧ file ConfigPath s'.(gworld) = Some t.

Lemma revert_writes s e other :
  s.(conf).(Entries) !! s.(conf).(Default) = Some e → flipBootLabel s.(conf).(Default) = inr other →
  returns (revert order) s (λ s' r, match r with
    | inl e => TagIs_NotFound e = false
    | inr _ => written (switched s.(conf) other) s s'
    end).
Proof.
  intros He Ho. apply returns_bind. apply (flip__spec s e other); [done..|].
  apply returns_bind, returns_get, returns_bind, (returns_asked (same:=same_config)).
  intros s2 _ [Hc2 Hw2].
  assert (Hgo : returns (map_err (λ e, Errorf "failed to revert bootloader: %v" [Printed e]) (Write order ConfigPath)) s2
    (λ s' r, match r with inl e => TagIs_NotFound e = false | inr _ => written (switched s.(conf) other) s s' end)).
  { apply returns_map_err. eapply returns_mono; [|apply Write_spec]. intros s3 [e'|[]] (Hc3 & _ & Hwrote); [done|].
    destruct Hwrote as [(_ & _ & [])|(err & Hw & Hr & Ht)]; [done|]. specialize (Hr eq_refl) as ->.
    destruct (Ht eq_refl) as (t & Henc & Hf). rewrite Hc3, Hc2 in Henc. split; [by rewrite Hw, Hw2|by exists t]. }
  apply returns_bind. destruct (stat _ _).2 as [err|]; [|by apply returns_ret].
  destruct (errors_Is "ErrNotExist" err); [by apply returns_throw|by apply returns_ret].
Qed.

Lemma Revert_writes c disk s e other : c.(Entries) !! c.(Default) = Some e → flipBootLabel c.(Default) = inr other →
  partition_found (boot_spec []) false true disk →
  returns (Revert order (Some c) disk) s (λ s' r, r = inr () → written (switched c other) s s').
Proof.
  intros He Ho Hfound. apply returns_bind, returns_modify. set (s0 := Build_grub _ _ _).
  apply returns_bind, returns_try.
  eapply (returns_mono _ _ (λ s' r, match r with
    | inl e => TagIs_NotFound e = false | inr _ => written (switched c other) s0 s' end)).
  { intros s' [e'|[]] H; [rewrite H; by apply returns_throw|by apply returns_ret]. }
  apply PartitionOp_found; [done| |done].
  intros s1 (Hf1 & Hc1 & Hw1). assert (Hc : conf s1 = c) by (by rewrite Hc1).
  eapply returns_mono; [|apply (revert_writes s1 e other); by rewrite Hc].
  intros s2 [e'|[]] H2 s3 (Hf3 & _ & Hw3); [done|]. destruct H2 as [Hw2 (t & Henc & Hf)]. rewrite Hc in Henc.
  split; [by rewrite Hw3, Hw2, Hw1|]. exists t. split; [done|]. rewrite Hf3; [done|by intros []].
Qed.

(** An upgrade, and after a reboot a rollback of it. *)
Definition rollback (opts : InstallOptions W) (disk : text) : ctl () :=
  _ ← Upgrade order opts;
  c ← Probe disk;
  Revert order c disk.

(** What is left of the files of [label] through an upgrade, a probe and a revert. *)
Lemma keeps_still w w' label s s' : label = BootA ∨ label = BootB → keeps label w w' → w' = s.(gworld) →
  (∀ p, p ≠ ConfigPath → file p s'.(gworld) = file p s.(gworld)) → keeps label w s'.(gworld).
Proof.
  intros Hl [Hk Hi] -> Hf. split; rewrite Hf; try done; apply asset_not_config; auto.
Qed.

(** C11: an upgrade and, after a reboot, a revert of what is found on the disk leave the kernel
    and the initrd of the label the machine booted from at first as they are, whatever fails.
    When both succeed and the revert finds the boot partition, both configurations were
    written, and grub.cfg boots that label again, with its entry as it was, and falls back to
    the new one.  A revert that takes the partition for missing reports success and does
    nothing. *)
Theorem rollback_restores opts disk s e other : opts.(MountPrefix) = [] → opts.(ImageMode) = false → harmless opts → config_ok s.(conf) →
  s.(conf).(Entries) !! s.(conf).(Default) = Some e → flipBootLabel s.(conf).(Default) = inr other →
  opts.(GrubUseUKICmdline) = false → legible opts.(optCmdline) opts.(Version) →
  returns (rollback opts disk) s (λ s' r,
    keeps s.(conf).(Default) s.(gworld) s'.(gworld) ∧
    (r = inr () → partition_found (boot_spec []) false true disk →
     s'.(written_config) = s.(written_config) ++ [None; None] ∧
     ∃ t c, file ConfigPath s'.(gworld) = Some t ∧ Decode t = inr c ∧
       c.(Default) = s.(conf).(Default) ∧ c.(Fallback) = other ∧
       c.(Entries) = <[other := buildMenuEntry other opts.(optCmdline) opts.(Version)]> s.(conf).(Entries) ∧
       c.(Entries) !! s.(conf).(Default) = Some e)).
Proof.
  intros Hp Himage Hx Hok He Ho Huse Hleg. pose proof (flip_other _ _ Ho) as Hcases.
  set (c := Put (switched s.(conf) other) other opts.(optCmdline) opts.(Version)).
  assert (Hlabels : (other = BootA ∨ other = BootB) ∧ (Default s.(conf) = BootA ∨ Default s.(conf) = BootB))
    by (destruct Hcases as [[? ?]|[? ?]]; auto). destruct Hlabels as [Hother Hdef].
  assert (Hcok : config_ok c) by (by apply put_ok).
  assert (Hnew : c.(Entries) !! c.(Default) = Some (buildMenuEntry other opts.(optCmdline) opts.(Version))).
  { apply lookup_insert_eq. }
  assert (Hold : c.(Entries) !! s.(conf).(Default) = Some e).
  { unfold c, Put. cbn [Entries switched]. rewrite lookup_insert_ne; [done|]. apply not_eq_sym. by eapply flip_differs. }
  apply returns_bind. eapply returns_mono; [|by eapply Upgrade_spec]. intros s1 r [[Hk Hcfg] _].
  destruct r as [e'|l]; [by split|]. apply returns_bind. eapply returns_mono; [|apply Probe_spec].
  intros s2 r [H2 Hprobe]. assert (H2f : ∀ p, file p s2.(gworld) = file p s1.(gworld)) by (intros p; apply H2; by intros []).
  pose proof (keeps_still _ _ _ s1 s2 Hdef Hk eq_refl (λ p _, H2f p)) as Hk2.
  destruct r as [e'|[c'|]]; [by split| |by apply returns_throw].
  destruct Hcfg as [(_ & _ & [])|(cmdline & err & Hw & Herr & Harg & _ & _ & Ht)]; [by exists l|].
  rewrite (Harg Huse) in Ht. fold c in Ht. specialize (Herr (ex_intro _ l eq_refl)). destruct (Ht Herr) as (t & Henc & Hfile).
  destruct (Hprobe c' eq_refl) as (t' & Hfile' & Hdec). rewrite Hfile in Hfile'. injection Hfile' as <-.
  rewrite (encoded_decodes order c t Horder Hcok Henc) in Hdec. injection Hdec as <-. pose proof (flip_back _ _ Ho) as Hback.
  destruct (Revert_spec c disk s2 _ (Default s.(conf)) Hnew Hback) as (s3 & r & Hrun & Hf3 & _).
  exists s3, r. split; [done|]. split; [by apply (keeps_still _ _ _ s2 s3 Hdef Hk2)|]. intros Hr Hfound.
  destruct (Revert_writes c disk s2 _ (Default s.(conf)) Hnew Hback Hfound) as (s3' & r' & Hrun' & Hwritten).
  rewrite Hrun in Hrun'. injection Hrun' as <- <-. destruct (Hwritten Hr) as [Hw3 (t3 & Henc3 & Hfile3)].
  destruct H2 as (_ & _ & Hw2). rewrite Herr in Hw. split; [by rewrite Hw3, Hw2, Hw, <- app_assoc|].
  exists t3, (switched c (Default s.(conf))). split; [done|]. split; [|done].
  by apply (encoded_decodes order (switched c (Default s.(conf))) t3 Horder).
Qed.
End upgrade.
