(* ===== verification/GrubImage.v ===== *)
(** * Block lists of GRUB images

    [PatchBlocklistsForDiskImage] of [grub/blocklist.go]: the images of a disk that boots
    from its BIOS are told where they start. *)

From Stdlib Require Import Ascii.
From S2P Require Import Prelude Errors Text TextFacts BootMount GrubConfig Grub BootFrame GrubSafety.

(** [binary.LittleEndian.PutUint64(img[offset:], n)]. *)
Definition le64 (n : Z) : text := le_bytes 8 n.
Definition put_at (offset : nat) (bytes img : text) : text := take offset img ++ bytes ++ drop (offset + length bytes) img.

Definition bootImgKernelSectorOffset : nat := 0x5c.
Definition bootImgJumpOffset : nat := 0x66.
Definition coreImgBlocklistOffset : nat := 0x1f4.
Definition nop : ascii := byte_of 0x90.

Section patch.
Context {W : Type} `{BW : BootWorld W}.
Notation ctl := (prog (grub (W:=W)) error).
Notation gcall := (boot_call (@gask W)).
Notation gquery := (boot_query (@gask W)).

Definition PatchBlocklistsForDiskImage (sectorSize biosBootStartSector : Z) (mountPrefix : text) : ctl () :=
  if bool_decide (sectorSize = 0) then throw (Errorf "sector size must be set to patch GRUB blocklists" []) else
  let bootImgPath := Join [mountPrefix; lit "boot.img"] in
  let coreImgPath := Join [mountPrefix; lit "core.img"] in
  bootImg ← wrapf "failed to read boot.img: %w" (gquery (read_file bootImgPath));
  if bool_decide (length bootImg < bootImgKernelSectorOffset + 8)%nat then
    throw (Errorf "boot.img is too small (%d bytes) to patch kernel sector offset at 0x%x" [Int (Z.of_nat (length bootImg)); Int (Z.of_nat bootImgKernelSectorOffset)])
  else if bool_decide (length bootImg < bootImgJumpOffset + 2)%nat then
    throw (Errorf "boot.img is too small (%d bytes) to patch jump offset at 0x%x" [Int (Z.of_nat (length bootImg)); Int (Z.of_nat bootImgJumpOffset)])
  else
  let bootImg := put_at bootImgKernelSectorOffset (le64 biosBootStartSector) bootImg in
  let bootImg := put_at bootImgJumpOffset [nop; nop] bootImg in
  _ ← wrapf "failed to write patched boot.img: %w" (gcall (os_WriteFile bootImgPath bootImg));
  coreImg ← wrapf "failed to read core.img: %w" (gquery (read_file coreImgPath));
  if bool_decide (length coreImg < coreImgBlocklistOffset + 8)%nat then
    throw (Errorf "core.img is too small (%d bytes) to patch blocklist offset at 0x%x" [Int (Z.of_nat (length coreImg)); Int (Z.of_nat coreImgBlocklistOffset)])
  else
  let coreImg := put_at coreImgBlocklistOffset (le64 (u64 (biosBootStartSector + 1))) coreImg in
  wrapf "failed to write patched core.img: %w" (gcall (os_WriteFile coreImgPath coreImg)).
End patch.

(** ** What is patched *)

(** [binary.LittleEndian.Uint64(img[offset:])]. *)
Definition word_at (offset : nat) (img : text) : Z := le_value (take 8 (drop offset img)).

Section put.
Context (offset : nat) (bytes img : text) (Hfit : (offset + length bytes ≤ length img)%nat).
Lemma length_put_at : length (put_at offset bytes img) = length img.
Proof. unfold put_at. rewrite !length_app, length_take, length_drop. lia. Qed.
Lemma put_at_inside : take (length bytes) (drop offset (put_at offset bytes img)) = bytes.
Proof. unfold put_at. rewrite drop_app_length'; [by rewrite take_app_length|]. rewrite length_take. lia. Qed.
Lemma put_at_outside i : (i < offset ∨ offset + length bytes ≤ i)%nat → put_at offset bytes img !! i = img !! i.
Proof.
  intros Hi. unfold put_at. destruct (decide (i < offset)%nat).
  - rewrite lookup_app_l by (rewrite length_take; lia). by apply lookup_take_lt.
  - rewrite lookup_app_r by (rewrite length_take; lia). rewrite length_take, Nat.min_l by lia.
    rewrite lookup_app_r by lia. rewrite lookup_drop. f_equal. lia.
Qed.
Lemma put_at_lookup i : (i < length bytes)%nat → put_at offset bytes img !! (offset + i)%nat = bytes !! i.
Proof.
  intros Hi. unfold put_at. rewrite lookup_app_r by (rewrite length_take; lia).
  rewrite length_take, Nat.min_l by lia. rewrite lookup_app_l by lia. f_equal. lia.
Qed.
End put.

Lemma images_differ prefix : Join [prefix; lit "boot.img"] ≠ Join [prefix; lit "core.img"].
Proof.
  unfold Join. destruct (decide (prefix = [])) as [->|Hp]; [by vm_compute|].
  rewrite !filter_cons_True by done. rewrite filter_nil. cbn [fmap list_fmap lit String.list_ascii_of_string join_from].
  case_bool_decide; intros Heq; repeat apply app_inv_head in Heq; done.
Qed.

(** The image of a boot sector, and of the second stage, with their block lists. *)
Definition boot_patched (start : Z) (b b' : text) : Prop :=
  length b' = length b ∧ word_at bootImgKernelSectorOffset b' = start ∧
  b' !! 0x66%nat = Some nop ∧ b' !! 0x67%nat = Some nop ∧
  ∀ i, (i < 0x5c ∨ 0x64 ≤ i < 0x66 ∨ 0x68 ≤ i)%nat → b' !! i = b !! i.
Definition core_patched (start : Z) (c c' : text) : Prop :=
  length c' = length c ∧ word_at coreImgBlocklistOffset c' = start ∧
  ∀ i, (i < 0x1f4 ∨ 0x1fc ≤ i)%nat → c' !! i = c !! i.

Lemma boot_is_patched start b : 0 ≤ start < 2 ^ 64 → (0x68 ≤ length b)%nat →
  boot_patched start b (put_at bootImgJumpOffset [nop; nop] (put_at bootImgKernelSectorOffset (le64 start) b)).
Proof.
  intros Hs Hb. assert (Hl8 : length (le64 start) = 8%nat) by apply length_le_bytes.
  assert (H1 : (bootImgKernelSectorOffset + length (le64 start) ≤ length b)%nat) by (rewrite Hl8; unfold bootImgKernelSectorOffset; lia).
  set (b1 := put_at bootImgKernelSectorOffset (le64 start) b).
  assert (Hl1 : length b1 = length b) by (by apply length_put_at).
  assert (H2 : (bootImgJumpOffset + length [nop; nop] ≤ length b1)%nat) by (rewrite Hl1; unfold bootImgJumpOffset; simpl length; lia).
  assert (Hin : ∀ i, (i < 0x66 ∨ 0x68 ≤ i)%nat → put_at bootImgJumpOffset [nop; nop] b1 !! i = b1 !! i).
  { intros i Hi. apply put_at_outside; [done|]. unfold bootImgJumpOffset. simpl length. lia. }
  split; [by rewrite length_put_at|]. split; [|split; [|split]].
  - unfold word_at. rewrite <- (le_value_bytes 8 start) by done. f_equal. fold (le64 start).
    rewrite <- (put_at_inside _ _ _ H1), Hl8. apply list_eq. intros i.
    destruct (decide (i < 8)%nat); [|rewrite !lookup_ge_None_2; [done|rewrite length_take; lia..]].
    rewrite !lookup_take_lt by done. rewrite !lookup_drop. apply Hin. unfold bootImgKernelSectorOffset. lia.
  - apply (put_at_lookup bootImgJumpOffset [nop; nop] b1 H2 0). simpl. lia.
  - apply (put_at_lookup bootImgJumpOffset [nop; nop] b1 H2 1). simpl. lia.
  - intros i Hi. rewrite Hin by lia. apply put_at_outside; [done|]. rewrite Hl8. unfold bootImgKernelSectorOffset. lia.
Qed.
Lemma core_is_patched start c : 0 ≤ start < 2 ^ 64 → (0x1fc ≤ length c)%nat →
  core_patched start c (put_at coreImgBlocklistOffset (le64 start) c).
Proof.
  intros Hs Hc. assert (Hl8 : length (le64 start) = 8%nat) by apply length_le_bytes.
  assert (H1 : (coreImgBlocklistOffset + length (le64 start) ≤ length c)%nat) by (rewrite Hl8; unfold coreImgBlocklistOffset; lia).
  split; [by apply length_put_at|]. split.
  - unfold word_at. pose proof (put_at_inside _ _ _ H1) as Hin. rewrite Hl8 in Hin. rewrite Hin. by apply le_value_bytes.
  - intros i Hi. apply put_at_outside; [done|]. rewrite Hl8. unfold coreImgBlocklistOffset. lia.
Qed.

Section patching.
Context {W : Type} `{BW : BootWorld W} `{BF : !BootFiles BW}.
Notation still := (still (world:=gworld) (same:=same_config)).
Notation gcall := (boot_call (@gask W)).
Notation gquery := (boot_query (@gask W)).

Lemma read_step (f : error → error) p (s : grub (W:=W)) : returns (map_err f (gquery (read_file p))) s (λ s' r,
  still (λ _, False) s s' ∧ ∀ t, r = inr t → file p s.(gworld) = Some t).
Proof.
  apply returns_map_err, returns_bind. unfold gask, returns at 1. pose proof (λ q, reading_file q p s.(gworld)) as Hr.
  pose proof (read_contents p s.(gworld)) as Hc. destruct (read_file p (gworld s)) as [w [e|t]]; cbn [fst snd] in Hr, Hc;
    (eexists _, _; split; [done|]).
  - apply returns_throw. split; [|done]. by split_and!.
  - apply returns_ret. split; [by split_and!|]. intros t' [= <-]. rewrite <- Hr in Hc. rewrite <- Hr. by apply Hc.
Qed.
Lemma write_step (f : error → error) p t (s : grub (W:=W)) : returns (map_err f (gcall (os_WriteFile p t))) s (λ s' r,
  still (λ q, q = p) s s' ∧ (r = inr () → file p s'.(gworld) = Some t)).
Proof.
  apply returns_map_err, returns_bind. unfold gask, returns at 1. pose proof (λ q, write_others q p t s.(gworld)) as Hr.
  pose proof (write_contents p t s.(gworld)) as Hc. destruct (os_WriteFile p t (gworld s)) as [w [e|]]; cbn [fst snd] in Hr, Hc;
    (eexists _, _; split; [done|]).
  - apply returns_throw. split; [|done]. by split_and!.
  - apply returns_ret. split; [by split_and!|]. intros _. by apply Hc.
Qed.

(** Patching writes the images of the boot sector and of the second stage only.  When it
    succeeds the first holds the sector the partition starts at, the second the one after it,
    modulo 2^64, and their other bytes are as before; with no sector size, or a boot sector that
    is too short, nothing is written. *)
Theorem blocklists_patched sectorSize start prefix (s : grub (W:=W)) : 0 ≤ start < 2 ^ 64 →
  let boot := Join [prefix; lit "boot.img"] in
  let core := Join [prefix; lit "core.img"] in
  returns (PatchBlocklistsForDiskImage sectorSize start prefix) s (λ s' r,
    (∀ p, p ≠ boot → p ≠ core → file p s'.(gworld) = file p s.(gworld)) ∧
    (r = inr () → ∃ b b' c c', file boot s.(gworld) = Some b ∧ file boot s'.(gworld) = Some b' ∧ boot_patched start b b' ∧
       file core s.(gworld) = Some c ∧ file core s'.(gworld) = Some c' ∧ core_patched (u64 (start + 1)) c c') ∧
    (sectorSize = 0 ∨ (∀ b, file boot s.(gworld) = Some b → length b < 0x68)%nat →
       r ≠ inr () ∧ ∀ p, file p s'.(gworld) = file p s.(gworld))).
Proof.
  intros Hstart boot core. pose proof (images_differ prefix) as Hne. fold boot core in Hne.
  unfold PatchBlocklistsForDiskImage. case_bool_decide as Hz; [by apply returns_throw|].
  fold boot core. apply returns_bind. eapply returns_mono; [|apply read_step]. intros s1 r [(H1 & _) Hb].
  assert (H1f : ∀ p, file p s1.(gworld) = file p s.(gworld)) by (intros p; apply H1; by intros []).
  destruct r as [e|b]; [by split_and!|]. specialize (Hb b eq_refl).
  case_bool_decide as Hlen1; [by apply returns_throw|]. case_bool_decide as Hlen2; [by apply returns_throw|].
  unfold bootImgKernelSectorOffset, bootImgJumpOffset in Hlen1, Hlen2.
  set (b' := put_at _ _ (put_at _ _ b)). assert (Hpatched : boot_patched start b b') by (apply boot_is_patched; [done|lia]).
  assert (Hlong : ¬ (sectorSize = 0 ∨ (∀ b, file boot s.(gworld) = Some b → length b < 0x68)%nat)).
  { intros [?|Hs]; [done|]. specialize (Hs b Hb). lia. }
  apply returns_bind. eapply returns_mono; [|apply write_step]. intros s2 r [(H2 & _) Hb'].
  assert (H2f : ∀ p, p ≠ boot → file p s2.(gworld) = file p s.(gworld)) by (intros p Hp; by rewrite H2, H1f).
  destruct r as [e|[]]; [by split_and!; [auto|done|]|]. specialize (Hb' eq_refl).
  apply returns_bind. eapply returns_mono; [|apply read_step]. intros s3 r [(H3 & _) Hc].
  assert (H3f : ∀ p, file p s3.(gworld) = file p s2.(gworld)) by (intros p; apply H3; by intros []).
  assert (H03 : ∀ p, p ≠ boot → file p s3.(gworld) = file p s.(gworld)) by (intros p Hp; by rewrite H3f, H2f).
  destruct r as [e|c]; [by split_and!; [auto|done|]|]. specialize (Hc c eq_refl). rewrite H2f in Hc by done.
  case_bool_decide as Hlen3; [by apply returns_throw; split_and!; [auto|done|]|].
  eapply returns_mono; [|apply write_step]. intros s4 r [(H4 & _) Hc']. split_and!; [|intros ->|done].
  - intros p Hp1 Hp2. by rewrite H4, H03.
  - exists b, b', c, (put_at coreImgBlocklistOffset (le64 (u64 (start + 1))) c). rewrite (H4 boot) by done. rewrite H3f.
    split; [done|]. split; [done|]. split; [done|]. split; [done|]. split; [by apply Hc'|].
    apply core_is_patched; [apply Z.mod_pos_bound; lia|]. unfold coreImgBlocklistOffset in Hlen3. lia.
Qed.
End patching.
