(* ===== verification/GrubExamples.v ===== *)
(** * GRUB on a table of files

    A disk whose files are a finite map, an upgrade and a rollback on it, and what the
    configuration makes of arguments of the kernel that do not fit its format. *)

From Stdlib Require Import Ascii.
From S2P Require Import Prelude Errors Text TextFacts GrubConfig GrubCodec BootMount Grub BootFrame GrubSafety GrubUpgrade GrubImage.

(** ** The disk *)

Notation table := (gmap text text).

Definition no_file : error := Sentinel "ErrNotExist".
Definition boot_parts : list PartInfo :=
  [{| PartitionLabel := Some EFIPartitionLabel; PartName := FilesystemTypeVFAT; PartitionIndex := 1 |};
   {| PartitionLabel := Some BootPartitionLabel; PartName := FilesystemTypeXFS; PartitionIndex := 3 |};
   {| PartitionLabel := Some (lit "META"); PartName := []; PartitionIndex := 4 |}].
Definition table_read (p : text) (w : table) : error + text :=
  match w !! p with Some t => inr t | None => inl no_file end.

(** Files are there or not, and directories are where files are; a reader is what is in the file, an open file is its path. *)
#[export] Instance table_world : BootWorld table := {|
  Reader := text;
  OpenFile := text;
  blkid_ProbePath _ w := (w, inr boot_parts);
  manager_Mount _ _ w := (w, None);
  manager_Unmount _ _ w := (w, None);
  os_MkdirAll _ w := (w, None);
  stat p w := (w, if existsb (λ f, bool_decide (f = p) || HasPrefix f (p ++ slash)) (map_to_list w).*1 then None else Some no_file);
  read_file p w := (w, table_read p w);
  os_WriteFile p t w := (<[p := t]> w, None);
  os_Open p w := (w, table_read p w);
  os_Create p w := (<[p := []]> w, inr p);
  io_Copy f r w := (<[f := default [] (w !! f) ++ r]> w, None);
  io_ReadAll r w := (w, inr r);
  cmd_Run _ _ w := (w, None);
  uki_Extract _ w := (w, inl no_file);
  smbios_ReadOEMVariable w := (w, inr []);
  kexec_Load _ _ _ w := (w, None);
  GOARCH := amd64
|}.

#[export] Program Instance table_files : BootFiles table_world := {|
  file p w := w !! p;
  reader_text r := r;
  open_path f := f
|}.
Solve Obligations with by intros.
Next Obligation. intros q w t. simpl. unfold table_read. by destruct (w !! q); intros [= ->]. Qed.
Next Obligation. intros p q d w Hne. by apply lookup_insert_ne. Qed.
Next Obligation. intros. apply lookup_insert_eq. Qed.
Next Obligation. intros p q w Hne. by apply lookup_insert_ne. Qed.
Next Obligation. intros q w f [= <-]. split; [done|]. apply lookup_insert_eq. Qed.
Next Obligation. intros p f r w Hne. by apply lookup_insert_ne. Qed.
Next Obligation. intros f r w old _ Hold. simpl in *. by rewrite Hold, lookup_insert_eq. Qed.

Definition label_order (es : gmap text MenuEntry) : list text := (map_to_list es).*1.
Lemma label_order_all (es : gmap text MenuEntry) l : is_Some (es !! l) → l ∈ label_order es.
Proof. intros [e He]. apply list_elem_of_fmap. exists (l, e). split; [done|]. by apply elem_of_map_to_list. Qed.

(** ** An installation of one entry, and an upgrade of it *)

Definition first_cmdline : text := lit "console=tty0 talos.config=http://10.0.0.1/${uuid} panic=0".
Definition second_cmdline : text := lit "console=ttyS0 panic=0".
Definition first_config : Config :=
  Put NewConfig BootA first_cmdline (lit "v1.0.0").
Definition first_disk : table :=
  {[ asset [] BootA KernelAsset := lit "kernel-1"; asset [] BootA InitramfsAsset := lit "initrd-1";
     lit "/usr/install/vmlinuz" := lit "kernel-2"; lit "/usr/install/initramfs.xz" := lit "initrd-2" ]}.
Definition next_options : InstallOptions table := {|
  BootDisk := lit "/dev/sda"; Arch := amd64; optCmdline := second_cmdline; GrubUseUKICmdline := false;
  Version := lit "v1.1.0"; ImageMode := false; MountPrefix := [];
  KernelPath := lit "/usr/install/vmlinuz"; InitramfsPath := lit "/usr/install/initramfs.xz"; UKIPath := []; SDBootPath := [];
  ExtraInstallStep := None; BlkidInfo := None
|}.
Definition installed : grub (W:=table) := {| gworld := first_disk; conf := first_config; written_config := [] |}.

Lemma first_legible : legible first_cmdline (lit "v1.0.0").
Proof. split; [done|..]; apply (bool_decide_unpack _); vm_compute; exact I. Qed.
Lemma second_legible : legible second_cmdline (lit "v1.1.0").
Proof. split; [done|..]; apply (bool_decide_unpack _); vm_compute; exact I. Qed.
Lemma first_ok : config_ok first_config.
Proof. apply put_ok; [|by left|exact first_legible]. apply map_Forall_empty. Qed.
Lemma next_harmless : harmless next_options.
Proof. by intros step. Qed.

Lemma decode_encode_witness : config_ok first_config ∧ validate first_config = None ∧
  ∃ t, Encode (label_order first_config.(Entries)) first_config = inr t ∧ Decode t = inr first_config.
Proof.
  split; [exact first_ok|]. split; [vm_compute; reflexivity|].
  exact (decode_encode first_config (label_order first_config.(Entries)) first_ok
           (λ l H, label_order_all first_config.(Entries) l H) ltac:(vm_compute; reflexivity)).
Defined.

Lemma upgrade_keeps_current_witness :
  (config_ok installed.(conf) ∧ harmless next_options) ∧
  returns (Upgrade label_order next_options) installed (λ s' r,
    keeps BootA first_disk s'.(gworld) ∧ (∀ l, r = inr l → l = BootA) ∧
    ((s'.(written_config) = [] ∧ file ConfigPath s'.(gworld) = file ConfigPath first_disk ∧ ¬ ∃ l, r = inr l) ∨
     ∃ cmdline err, s'.(written_config) = [] ++ [err] ∧ ((∃ l, r = inr l) → err = None) ∧
       argument next_options cmdline ∧ delivered next_options BootB s'.(gworld) ∧
       (err = None → ∃ t, file ConfigPath s'.(gworld) = Some t ∧
          (legible cmdline next_options.(Version) →
             Decode t = inr (Put (switched first_config BootB) BootB cmdline next_options.(Version)))))).
Proof.
  split; [split; [exact first_ok|exact next_harmless]|].
  exact (upgrade_keeps_current label_order label_order_all next_options installed
           (buildMenuEntry BootA first_cmdline (lit "v1.0.0")) BootB eq_refl eq_refl next_harmless first_ok eq_refl eq_refl).
Defined.

(** The rollback runs to its end: both configurations are written, and the first label is
    booted with the files it had. *)
Definition rolled_back : option (list (option error) * (error + (text * text * option text * option text))) :=
  match rollback label_order next_options (lit "/dev/sda") installed with
  | Ok (s, inr tt) =>
      match Decode (default [] (s.(gworld) !! ConfigPath)) with
      | inr c => Some (s.(written_config), inr (c.(Default), c.(Fallback), s.(gworld) !! asset [] BootA KernelAsset,
                                                s.(gworld) !! asset [] BootB KernelAsset))
      | inl e => Some (s.(written_config), inl e)
      end
  | _ => None
  end.
Example rollback_runs :
  rolled_back = Some ([None; None], inr (BootA, BootB, Some (lit "kernel-1"), Some (lit "kernel-2"))).
Proof. vm_compute. reflexivity. Qed.

Lemma boot_found : partition_found (BW:=table_world) (boot_spec []) false true (lit "/dev/sda").
Proof. split; [|done]. intros w. eexists. reflexivity. Qed.

Lemma rollback_restores_witness :
  (config_ok installed.(conf) ∧ legible next_options.(optCmdline) next_options.(Version)) ∧
  ∃ s', rollback label_order next_options (lit "/dev/sda") installed = Ok (s', inr ()) ∧
    keeps BootA first_disk s'.(gworld) ∧ s'.(written_config) = [None; None] ∧
    ∃ t c, file ConfigPath s'.(gworld) = Some t ∧ Decode t = inr c ∧ c.(Default) = BootA ∧ c.(Fallback) = BootB ∧
      c.(Entries) !! BootA = Some (buildMenuEntry BootA first_cmdline (lit "v1.0.0")).
Proof.
  split; [split; [exact first_ok|exact second_legible]|].
  destruct (rollback_restores label_order label_order_all next_options (lit "/dev/sda") installed
           (buildMenuEntry BootA first_cmdline (lit "v1.0.0")) BootB eq_refl eq_refl next_harmless first_ok eq_refl eq_refl
           eq_refl second_legible) as (s' & r & Hrun & Hk & Hr).
  assert (Hend : r = inr ()).
  { pose proof rollback_runs as H. unfold rolled_back in H. rewrite Hrun in H. by destruct r as [e|[]]. }
  subst r. exists s'. split; [exact Hrun|]. split; [exact Hk|].
  destruct (Hr eq_refl boot_found) as (Hw & t & c & Ht & Hd & Hdef & Hfall & _ & He).
  split; [exact Hw|]. exists t, c. exact (conj Ht (conj Hd (conj Hdef (conj Hfall He)))).
Defined.

(** ** Arguments that are not read back *)

(** What the arguments of the kernel are after the configuration was written and read. *)
Definition read_back (cmdline : text) : error + option text :=
  let c := Put NewConfig BootA cmdline (lit "v1.0.0") in
  match Encode (label_order c.(Entries)) c with
  | inl e => inl e
  | inr t => match Decode t with inl e => inl e | inr c => inr (Cmdline <$> c.(Entries) !! BootA) end
  end.

Example arguments_read_back : read_back first_cmdline = inr (Some first_cmdline).
Proof. vm_compute. reflexivity. Qed.
(** Empty arguments: the spaces after the kernel reach into the next line, which is taken for
    the arguments. *)
Example empty_arguments : read_back [] = inr (Some (lit "initrd /A/initramfs.xz")).
Proof. vm_compute. reflexivity. Qed.
Example leading_space : read_back (lit "  quiet") = inr (Some (lit "quiet")).
Proof. vm_compute. reflexivity. Qed.

(** A rollback to a label whose directory is gone does not say which one. *)
Definition unlabelled : grub (W:=table) := {| gworld := ∅; conf := first_config; written_config := [] |}.
Example revert_names_no_label :
  (∃ s, revert label_order unlabelled = Ok (s, inl (Errorf "cannot rollback to %q, label does not exist" [Str ""])) ∧
        s.(conf).(Default) = BootB).
Proof. eexists. split; vm_compute; reflexivity. Qed.

(** ** Images with block lists *)

Definition zeros (n : nat) : text := replicate n "000"%char.
Definition imager : grub (W:=table) :=
  {| gworld := {[ lit "/tmp/boot.img" := zeros 512; lit "/tmp/core.img" := zeros 1024 ]}; conf := NewConfig; written_config := [] |}.

Lemma blocklists_patched_witness :
  (0 ≤ 2048 < 18446744073709551616) ∧
  returns (PatchBlocklistsForDiskImage 512 2048 (lit "/tmp")) imager (λ s' r,
    (∀ p, p ≠ lit "/tmp/boot.img" → p ≠ lit "/tmp/core.img" → file p s'.(gworld) = file p imager.(gworld)) ∧
    (r = inr () → ∃ b b' c c', file (lit "/tmp/boot.img") imager.(gworld) = Some b ∧
       file (lit "/tmp/boot.img") s'.(gworld) = Some b' ∧ boot_patched 2048 b b' ∧
       file (lit "/tmp/core.img") imager.(gworld) = Some c ∧
       file (lit "/tmp/core.img") s'.(gworld) = Some c' ∧ core_patched (u64 (2048 + 1)) c c') ∧
    (512 = 0 ∨ (∀ b, file (lit "/tmp/boot.img") imager.(gworld) = Some b → length b < 0x68)%nat →
       r ≠ inr () ∧ ∀ p, file p s'.(gworld) = file p imager.(gworld))).
Proof.
  split; [lia|]. exact (blocklists_patched 512 2048 (lit "/tmp") imager ltac:(lia)).
Defined.
(** The start of the last sector there can be: the sector after it wraps around. *)
Definition patched_words : option (Z * Z) :=
  match PatchBlocklistsForDiskImage 512 (2 ^ 64 - 1) (lit "/tmp") imager with
  | Ok (s, inr tt) => Some (word_at 0x5c (default [] (s.(gworld) !! lit "/tmp/boot.img")),
                            word_at 0x1f4 (default [] (s.(gworld) !! lit "/tmp/core.img")))
  | _ => None
  end.
Example patched_run : patched_words = Some (2 ^ 64 - 1, 0).
Proof. vm_compute. reflexivity. Qed.
