(* ===== verification/Efi.v ===== *)
(** * EFI boot entries

    Device paths, load options and boot orders as they are in EFI variables
    ([internal/pkg/efivarfs/{devicepath,boot}.go], [internal/pkg/msguid]).  Strings and byte
    slices are texts of Text.v; UTF-16 is [golang.org/x/text], an interface. *)

From Stdlib Require Import Ascii.
From S2P Require Import Prelude Errors Text GrubConfig.

Class Utf16 := {
  Encode16 : text → error + text;
  Decode16 : text → error + text
}.

(** A byte as a number. *)
Definition byte_value (c : ascii) : Z := Z.of_N (N_of_ascii c).
Definition nul : ascii := "000"%char.
Definition slash_char : ascii := "/"%char.

Definition lift_error {A} (f : error → error) (r : error + A) : outcome error A :=
  match r with inl e => Err (f e) | inr a => Ok a end.

Definition wrap_err {A} (f : error → error) (c : outcome error A) : outcome error A :=
  match c with Err e => Err (f e) | r => r end.

(** ** GUIDs *)

Definition mixedEndianTranspose : list nat := [3; 2; 1; 0; 5; 4; 7; 6; 8; 9; 10; 11; 12; 13; 14; 15]%nat.
(** [msguid.From] and [msguid.To], of arrays of 16 bytes. *)
Definition msguid_From (u : text) : text := (λ from, default nul (u !! from)) <$> mixedEndianTranspose.
Definition msguid_To (i : text) : text :=
  foldr (λ '(from, dest) o, <[dest := default nul (i !! from)]> o) (replicate 16 nul) (imap pair mixedEndianTranspose).

(** ** Device paths *)

Inductive PartitionMatch :=
  | PartitionMBR (DiskSignature : text)
  | PartitionGPT (PartitionUUID : text)
  | PartitionUnknown (PartitionSignature : text) (PartitionFormat SignatureType : Z).

Definition partitionSignature (p : PartitionMatch) : text :=
  match p with
  | PartitionMBR sig => sig ++ replicate 12 nul
  | PartitionGPT uuid => msguid_From uuid
  | PartitionUnknown sig _ _ => sig
  end.
Definition partitionFormat (p : PartitionMatch) : Z :=
  match p with PartitionMBR _ => 1 | PartitionGPT _ => 2 | PartitionUnknown _ format _ => format end.
Definition signatureType (p : PartitionMatch) : Z :=
  match p with PartitionMBR _ => 1 | PartitionGPT _ => 2 | PartitionUnknown _ _ signature => signature end.

Record HardDrivePath := {
  PartitionNumber : Z; PartitionStartBlock : Z; PartitionSizeBlocks : Z;
  Match : option PartitionMatch
}.
Inductive DevicePathElem :=
  | HardDrive (h : HardDrivePath)
  | FilePath (f : text)
  | UnknownPath (TypeVal SubTypeVal : Z) (DataVal : text).
Notation DevicePath := (list DevicePathElem).

Section efi.
Context `{!Utf16}.
Notation result := (outcome error).

Definition typ (e : DevicePathElem) : Z := match e with UnknownPath t _ _ => t | _ => 4 end.
Definition subType (e : DevicePathElem) : Z :=
  match e with HardDrive _ => 1 | FilePath _ => 4 | UnknownPath _ s _ => s end.

Definition hard_drive_data (h : HardDrivePath) : result text :=
  match h.(Match) with
  | None => Err (Errorf "PartitionMatch needs to be set" [])
  | Some m =>
      Ok (le_bytes 4 h.(PartitionNumber) ++ le_bytes 8 h.(PartitionStartBlock) ++ le_bytes 8 h.(PartitionSizeBlocks) ++
          partitionSignature m ++ [byte_of (partitionFormat m); byte_of (signatureType m)])
  end.
Definition file_path_data (f : text) : result text :=
  if bool_decide (nul ∈ f) then Err (Errorf "contains invalid null bytes" [])
  else
    let withBackslashes := ReplaceAll f [slash_char] [backslash] in
    out ← lift_error (λ e, Errorf "failed to encode FilePath to UTF-16: %w" [Wrapped e]) (Encode16 withBackslashes);
    Ok (out ++ [nul; nul]).
Definition elem_data (e : DevicePathElem) : result text :=
  match e with
  | HardDrive h => hard_drive_data h
  | FilePath f => file_path_data f
  | UnknownPath _ _ d => Ok d
  end.

Definition end_of_path : text := byte_of <$> [0x7f; 0xff; 4; 0].
Definition MaxUint16 : Z := 65535.

(** [DevicePath.Marshal]. *)
Fixpoint marshal_elems (d : DevicePath) : result text :=
  match d with
  | [] => Ok end_of_path
  | p :: d =>
      elemBuf ← wrap_err (λ e, Errorf "failed marshaling path element: %w" [Wrapped e]) (elem_data p);
      if bool_decide (zlen elemBuf + 4 > MaxUint16) then Err (Errorf "path element payload over maximum size" [])
      else
        rest ← marshal_elems d;
        Ok ([byte_of (typ p); byte_of (subType p)] ++ le_bytes 2 (zlen elemBuf + 4) ++ elemBuf ++ rest)
  end.
Definition DevicePath_Marshal (d : DevicePath) : result text := marshal_elems d.

Definition unmarshalHardDrivePath (data : text) : result DevicePathElem :=
  if bool_decide (zlen data ≠ 38) then Err (Errorf "invalid HardDrivePath element, expected 38 bytes, got %d" [Int (zlen data)])
  else
    number ← go_slice data 0 4;
    start ← go_slice data 4 12;
    size ← go_slice data 12 20;
    format ← go_index data 36;
    signature ← go_index data 37;
    rawSig ← go_slice data 20 36;
    let format := byte_value format in
    let signature := byte_value signature in
    let m := if bool_decide (format = 1 ∧ signature = 1) then PartitionMBR (take 4 rawSig)
             else if bool_decide (format = 2 ∧ signature = 2) then PartitionGPT (msguid_To rawSig)
             else PartitionUnknown rawSig format signature in
    Ok (HardDrive {| PartitionNumber := le_value number; PartitionStartBlock := le_value start;
                     PartitionSizeBlocks := le_value size; Match := Some m |}).

(** The first of a byte in a text, [bytes.IndexByte]. *)
Fixpoint IndexByte (s : text) (c : ascii) : Z :=
  match s with
  | [] => -1
  | d :: s => if bool_decide (d = c) then 0 else match IndexByte s c with -1 => -1 | i => 1 + i end
  end.
Definition unmarshalFilePath (data : text) : result DevicePathElem :=
  if bool_decide (zlen data < 2) then Err (Errorf "FilePath must be at least 2 bytes because of UTF-16 null terminator" [])
  else
    out ← lift_error (λ e, Errorf "error decoding FilePath UTF-16 string: %w" [Wrapped e]) (Decode16 data);
    if bool_decide (IndexByte out nul ≠ zlen out - 1) then Err (Errorf "FilePath not properly null-terminated" [])
    else
      out ← go_slice out 0 (zlen out - 1);
      Ok (FilePath (ReplaceAll out [backslash] [slash_char])).

Definition unmarshal_elem (t subT : Z) (data : text) : result DevicePathElem :=
  if bool_decide (t = 4 ∧ subT = 1) then unmarshalHardDrivePath data
  else if bool_decide (t = 4 ∧ subT = 4) then unmarshalFilePath data
  else Ok (UnknownPath t subT data).

(** The loop of [UnmarshalDevicePath]. *)
Fixpoint unmarshal_loop (fuel : nat) (rest : text) (p : DevicePath) : result (DevicePath * text) :=
  match fuel with
  | O => Panic LoopFuel
  | S fuel =>
      if bool_decide (zlen rest < 4) then
        if bool_decide (zlen rest ≠ 0) then Err (Errorf "dangling bytes at the end of device path: %x" [text_arg rest])
        else if bool_decide (zlen p = 0) then Err (Errorf "empty DevicePath without End Of Path element" [])
        else Err (Errorf "got DevicePath with %d elements, but without End Of Path element" [Int (zlen p)])
      else
        t ← go_index rest 0;
        subT ← go_index rest 1;
        word ← go_slice rest 2 4;
        let t := byte_value t in
        let subT := byte_value subT in
        let dataLen := le_value word in
        if bool_decide (dataLen > zlen rest) then
          Err (Errorf "path element larger than rest of buffer: %d > %d" [Int dataLen; Int (zlen rest)])
        else if bool_decide (dataLen < 4) then
          Err (Errorf "path element must be at least 4 bytes (header), length indicates %d" [Int dataLen])
        else
          elemData ← go_slice rest 4 dataLen;
          rest ← go_slice rest dataLen (zlen rest);
          if bool_decide (t = 0x7f ∧ subT = 0xff) then Ok (p, rest)
          else
            elem ← wrap_err (λ e, Errorf "failed decoding path element %d: %w" [Int (zlen p); Wrapped e]) (unmarshal_elem t subT elemData);
            unmarshal_loop fuel rest (p ++ [elem])
  end.
Definition UnmarshalDevicePath (data : text) : result (DevicePath * text) :=
  unmarshal_loop (S (length data)) data [].

(** ** Load options *)

Record LoadOption := {
  Description : text; Inactive : bool; Hidden : bool; Category : Z;
  optFilePath : DevicePath; ExtraPaths : list DevicePath; OptionalData : text
}.

Fixpoint marshal_extra (paths : list DevicePath) : result text :=
  match paths with
  | [] => Ok []
  | ep :: paths =>
      epRaw ← wrap_err (λ e, Errorf "failed marshaling ExtraPath: %w" [Wrapped e]) (DevicePath_Marshal ep);
      rest ← marshal_extra paths;
      Ok (epRaw ++ rest)
  end.

Definition LoadOption_attrs (e : LoadOption) : Z :=
  Z.lor (Z.lor (Z.shiftl (Z.land e.(Category) 0x1f) 8) (if e.(Hidden) then 8 else 0)) (if e.(Inactive) then 0 else 1).
Definition LoadOption_Marshal (e : LoadOption) : result text :=
  filePathRaw ← wrap_err (λ err, Errorf "failed marshaling FilePath: %w" [Wrapped err]) (DevicePath_Marshal e.(optFilePath));
  extra ← marshal_extra e.(ExtraPaths);
  let filePathRaw := filePathRaw ++ extra in
  if bool_decide (zlen filePathRaw > MaxUint16) then
    Err (Errorf "failed marshaling FilePath/ExtraPath: value too big (%d)" [Int (zlen filePathRaw)])
  else if bool_decide (nul ∈ e.(Description)) then Err (Errorf "failed to encode Description: contains invalid null bytes" [])
  else
    encodedDesc ← lift_error (λ err, Errorf "failed to encode Description: %w" [Wrapped err]) (Encode16 e.(Description));
    Ok (le_bytes 4 (LoadOption_attrs e) ++ le_bytes 2 (zlen filePathRaw) ++ encodedDesc ++ [nul; nul] ++ filePathRaw ++ e.(OptionalData)).

(** [bytes.Index(s, []byte{0, 0})]. *)
Fixpoint IndexNulls (s : text) : Z :=
  match s with
  | a :: (b :: _) as s' =>
      if bool_decide (a = nul ∧ b = nul) then 0 else match IndexNulls s' with -1 => -1 | i => 1 + i end
  | _ => -1
  end.

(** The loop over what follows the first path. *)
Fixpoint unmarshal_extra (fuel : nat) (filePathData : text) : result (list DevicePath) :=
  match fuel with
  | O => Panic LoopFuel
  | S fuel =>
      if bool_decide (zlen filePathData > 0) then
        '(extraPath, filePathData) ← wrap_err (λ e, Errorf "failed unmarshaling ExtraPath: %w" [Wrapped e]) (UnmarshalDevicePath filePathData);
        paths ← unmarshal_extra fuel filePathData;
        Ok (extraPath :: paths)
      else Ok []
  end.

Definition UnmarshalLoadOption (data : text) : result LoadOption :=
  if bool_decide (zlen data < 6) then
    Err (Errorf "invalid load option: minimum 6 bytes are required, got %d" [Int (zlen data)])
  else
    word ← go_slice data 0 4;
    let attrs := le_value word in
    len ← go_slice data 4 6;
    let lenPath := le_value len in
    text ← go_slice data 6 (zlen data);
    let nullIdx := IndexNulls text in
    if bool_decide (nullIdx = -1) then Err (Errorf "no null code point marking end of Description found" [])
    else
      let descriptionEnd := 6 + nullIdx + 1 in
      descriptionRaw ← go_slice data 6 descriptionEnd;
      description ← lift_error (λ e, Errorf "error decoding UTF-16 in Description: %w" [Wrapped e]) (Decode16 descriptionRaw);
      let descriptionEnd := descriptionEnd + 2 in
      if bool_decide (descriptionEnd + lenPath > zlen data) then
        Err (Errorf "declared length of FilePath (%d) overruns available data (%d)" [Int lenPath; Int (zlen data - descriptionEnd)])
      else
        filePathData ← go_slice data descriptionEnd (descriptionEnd + lenPath);
        '(filePath, filePathData) ← wrap_err (λ e, Errorf "failed unmarshaling FilePath: %w" [Wrapped e]) (UnmarshalDevicePath filePathData);
        extra ← unmarshal_extra (S (length filePathData)) filePathData;
        optional ← (if bool_decide (descriptionEnd + lenPath < zlen data) then go_slice data (descriptionEnd + lenPath) (zlen data)
                    else Ok []);
        Ok {| Description := description; Inactive := bool_decide (Z.land attrs 1 = 0); Hidden := bool_decide (Z.land attrs 8 ≠ 0);
              Category := Z.land (Z.shiftr attrs 8) 0x1f; optFilePath := filePath; ExtraPaths := extra; OptionalData := optional |}.
End efi.

(** ** Boot orders *)

Definition BootOrder_Marshal (t : list Z) : text := t ≫= le_bytes 2.
Definition UnmarshalBootOrder (d : text) : outcome error (list Z) :=
  if bool_decide (zlen d `mod` 2 ≠ 0) then Err (Errorf "invalid length: %v bytes" [Int (zlen d)])
  else Ok ((λ i, le_value (take 2 (drop (i * 2) d))) <$> seq 0 (length d / 2)).

(** [UniqueBootOrder]: [seen] values are left out. *)
Fixpoint unique_from (seen : list Z) (bootOrder : list Z) : list Z :=
  match bootOrder with
  | [] => []
  | v :: bootOrder => if bool_decide (v ∈ seen) then unique_from seen bootOrder else v :: unique_from (v :: seen) bootOrder
  end.
Definition UniqueBootOrder (bootOrder : list Z) : list Z := unique_from [] bootOrder.
