(* ===== verification/EfiCodec.v ===== *)
(** * Boot entries are read back

    What [Marshal] writes for a load option is read back by [UnmarshalLoadOption], and
    reading never panics, whatever the bytes. *)

From Stdlib Require Import Ascii.
From S2P Require Import Prelude Errors Text TextFacts GrubConfig Efi.

(** ** Texts that are ASCII, and their UTF-16 *)

Definition ascii7 (c : ascii) : Prop := byte_value c < 128.
Definition wide (s : text) : text := s ≫= λ c, [c; nul].

(** What is relied on of UTF-16: ASCII characters are their code and a zero byte, and every
    two bytes, or a stray last one, are decoded to something. *)
Class Utf16Ascii `(U : Utf16) := {
  encode_ascii s : Forall ascii7 s → Encode16 s = inr (wide s);
  decode_ascii s : Forall ascii7 s → Decode16 (wide s) = inr s;
  decode_some s t : s ≠ [] → Decode16 s = inr t → t ≠ []
}.

Lemma wide_app s s' : wide (s ++ s') = wide s ++ wide s'.
Proof. apply bind_app. Qed.
Lemma zlen_wide s : zlen (wide s) = 2 * zlen s.
Proof. induction s as [|c s IH]; [done|]. cbn [wide mbind list_bind app]. rewrite !zlen_cons. fold (wide s). lia. Qed.

Lemma ReplaceAll_char (a b : ascii) s : ReplaceAll s [a] [b] = (λ c, if bool_decide (c = a) then b else c) <$> s.
Proof.
  unfold ReplaceAll. induction s as [|c s IH]; [done|]. cbn [replace_from fmap list_fmap length Nat.sub app].
  rewrite HasPrefix_cons, HasPrefix_nil, andb_true_r, IH. case_bool_decide as H; case_bool_decide; naive_solver.
Qed.

Lemma IndexByte_none s c : c ∉ s → IndexByte s c = -1.
Proof.
  induction s as [|d s IH]; intros H; [done|]. cbn [IndexByte]. apply not_elem_of_cons in H as [? H].
  by rewrite bool_decide_false, IH.
Qed.
Lemma IndexByte_bounds s c : -1 ≤ IndexByte s c < zlen s.
Proof.
  induction s as [|d s IH]; [done|]. cbn [IndexByte]. rewrite zlen_cons. pose proof (zlen_nonneg s).
  case_bool_decide; [lia|]. destruct (IndexByte s c) as [|?|[?|?|]]; lia.
Qed.
Lemma IndexByte_end s c : c ∉ s → IndexByte (s ++ [c]) c = zlen s.
Proof.
  induction s as [|d s IH]; intros H; cbn [IndexByte app]; [by rewrite bool_decide_true|].
  apply not_elem_of_cons in H as [? H]. rewrite bool_decide_false, IH, zlen_cons by done.
  pose proof (zlen_nonneg s). destruct (zlen s) as [|?|?]; [done|done|lia].
Qed.

Lemma IndexNulls_bounds s : IndexNulls s = -1 ∨ 0 ≤ IndexNulls s ≤ zlen s - 2.
Proof.
  induction s as [|a [|b s] IH]; [by left..|]. cbn [IndexNulls] in *. rewrite zlen_cons in *. rewrite zlen_cons in *.
  pose proof (zlen_nonneg s). case_bool_decide; [right; lia|].
  destruct IH as [->|IH]; [by left|]. match goal with |- context [match ?i with _ => _ end] => destruct i as [|?|[?|?|]] end; lia.
Qed.
Lemma IndexNulls_next a b s : ¬ (a = nul ∧ b = nul) → 0 ≤ IndexNulls (b :: s) → IndexNulls (a :: b :: s) = 1 + IndexNulls (b :: s).
Proof.
  intros H Hi. cbn [IndexNulls]. rewrite bool_decide_false by done. cbn [IndexNulls] in Hi.
  match goal with |- context [match ?i with _ => _ end] => destruct i as [|?|?] end; [done|done|lia].
Qed.
(** The end of a description that is not empty: one byte before the null character. *)
Lemma IndexNulls_wide s rest : s ≠ [] → nul ∉ s → IndexNulls (wide s ++ nul :: nul :: rest) = 2 * zlen s - 1.
Proof.
  intros Hs Hn. induction s as [|c s IH]; [done|]. apply not_elem_of_cons in Hn as [Hc Hn].
  change (wide (c :: s) ++ nul :: nul :: rest) with (c :: nul :: wide s ++ nul :: nul :: rest). rewrite zlen_cons.
  destruct s as [|d s].
  - change (wide [] ++ nul :: nul :: rest) with (nul :: nul :: rest). rewrite IndexNulls_next by naive_solver. done.
  - specialize (IH ltac:(done) Hn). rewrite zlen_cons in *. pose proof (zlen_nonneg s).
    change (wide (d :: s) ++ nul :: nul :: rest) with (d :: nul :: wide s ++ nul :: nul :: rest) in *.
    apply not_elem_of_cons in Hn as [Hd _].
    assert (H2 : IndexNulls (nul :: d :: nul :: wide s ++ nul :: nul :: rest) = 1 + (2 * (1 + zlen s) - 1)).
    { rewrite IndexNulls_next by (naive_solver || lia). by rewrite IH. }
    rewrite IndexNulls_next; [rewrite H2; lia|naive_solver|lia].
Qed.

(** ** Words *)

Lemma le_value_nonneg l : 0 ≤ le_value l.
Proof. induction l as [|c l IH]; [done|]. cbn [le_value foldr]. fold (le_value l). lia. Qed.
Lemma byte_value_of n : 0 ≤ n < 256 → byte_value (byte_of n) = n.
Proof. intros. unfold byte_value. rewrite byte_of_value. by apply Z.mod_small. Qed.
Lemma zlen_le_bytes width n : zlen (le_bytes width n) = Z.of_nat width.
Proof. unfold zlen. by rewrite length_le_bytes. Qed.
#[export] Hint Rewrite zlen_le_bytes : zlen.

(** ** Elements of a path *)

Definition match_ok (m : PartitionMatch) : Prop :=
  match m with
  | PartitionMBR sig => length sig = 4%nat
  | PartitionGPT uuid => length uuid = 16%nat
  | PartitionUnknown sig format signature =>
      length sig = 16%nat ∧ 0 ≤ format < 256 ∧ 0 ≤ signature < 256 ∧
      ¬ (format = 1 ∧ signature = 1) ∧ ¬ (format = 2 ∧ signature = 2)
  end.
Definition hard_drive_ok (h : HardDrivePath) : Prop :=
  0 ≤ h.(PartitionNumber) < 2 ^ 32 ∧ 0 ≤ h.(PartitionStartBlock) < 2 ^ 64 ∧ 0 ≤ h.(PartitionSizeBlocks) < 2 ^ 64 ∧
  match h.(Match) with Some m => match_ok m | None => False end.
Definition file_ok (f : text) : Prop := Forall ascii7 f ∧ nul ∉ f ∧ backslash ∉ f.
Definition elem_ok (e : DevicePathElem) : Prop :=
  match e with
  | HardDrive h => hard_drive_ok h
  | FilePath f => file_ok f
  | UnknownPath t s _ =>
      0 ≤ t < 256 ∧ 0 ≤ s < 256 ∧ ¬ (t = 4 ∧ s = 1) ∧ ¬ (t = 4 ∧ s = 4) ∧ ¬ (t = 0x7f ∧ s = 0xff)
  end.

Lemma sixteen (u : text) : length u = 16%nat → msguid_To (msguid_From u) = u ∧ zlen (msguid_From u) = 16.
Proof. intros H. do 16 (destruct u as [|? u]; [done|]). destruct u; [|done]. by split. Qed.

Lemma signature_back m : match_ok m → zlen (partitionSignature m) = 16 ∧ 0 ≤ partitionFormat m < 256 ∧ 0 ≤ signatureType m < 256 ∧
  (if bool_decide (partitionFormat m = 1 ∧ signatureType m = 1) then PartitionMBR (take 4 (partitionSignature m))
   else if bool_decide (partitionFormat m = 2 ∧ signatureType m = 2) then PartitionGPT (msguid_To (partitionSignature m))
   else PartitionUnknown (partitionSignature m) (partitionFormat m) (signatureType m)) = m.
Proof.
  destruct m as [sig|uuid|sig format signature]; cbn [match_ok partitionSignature partitionFormat signatureType].
  - intros H. split; [by rewrite zlen_app; unfold zlen; rewrite H|]. split; [lia|]. split; [lia|].
    rewrite bool_decide_true by done. f_equal. by apply take_app_length'.
  - intros H. destruct (sixteen _ H) as [Hto Hlen]. split; [done|]. split; [lia|]. split; [lia|].
    rewrite bool_decide_false by lia. rewrite bool_decide_true by done. by rewrite Hto.
  - intros (Hl & ? & ? & ? & ?). split; [by unfold zlen; rewrite Hl|]. split; [done|]. split; [done|].
    by rewrite !bool_decide_false.
Qed.

Lemma hard_drive_back h data : hard_drive_ok h → hard_drive_data h = Ok data →
  zlen data = 38 ∧ unmarshalHardDrivePath data = Ok (HardDrive h).
Proof.
  destruct h as [number start size [m|]]; intros (Hn & Hst & Hsz & Hm); [|done]. cbn [hard_drive_data Match PartitionNumber PartitionStartBlock PartitionSizeBlocks] in *.
  intros Hdata. destruct (signature_back m Hm) as (Hlen & Hf & Hs & Hmatch).
  set (N := le_bytes 4 number). set (St := le_bytes 8 start). set (Sz := le_bytes 8 size). set (sig := partitionSignature m) in *.
  set (tl := [byte_of (partitionFormat m); byte_of (signatureType m)]) in *.
  assert (data = N ++ St ++ Sz ++ sig ++ tl) as -> by (unfold N, St, Sz; congruence). clear Hdata.
  assert (HN : zlen N = 4) by apply zlen_le_bytes. assert (HSt : zlen St = 8) by apply zlen_le_bytes.
  assert (HSz : zlen Sz = 8) by apply zlen_le_bytes.
  assert (Htotal : zlen (N ++ St ++ Sz ++ sig ++ tl) = 38) by (rewrite !zlen_app, HN, HSt, HSz, Hlen; done).
  split; [done|]. unfold unmarshalHardDrivePath. rewrite bool_decide_false by lia.
  rewrite (go_slice_parts (N ++ St ++ Sz ++ sig ++ tl) [] N (St ++ Sz ++ sig ++ tl) 0 4) by (rewrite ?zlen_nil; done || lia). cbn [wrap_err mbind outcome_bind].
  rewrite (go_slice_parts (N ++ St ++ Sz ++ sig ++ tl) N St (Sz ++ sig ++ tl) 4 12) by (done || lia). cbn [wrap_err mbind outcome_bind].
  rewrite (go_slice_parts (N ++ St ++ Sz ++ sig ++ tl) (N ++ St) Sz (sig ++ tl) 12 20) by (rewrite <- ?app_assoc, ?zlen_app; done || lia). cbn [wrap_err mbind outcome_bind].
  assert (Htl : ∀ j i x, 0 ≤ i → j = 36 + i → tl !! Z.to_nat i = Some x → go_index (E:=error) (N ++ St ++ Sz ++ sig ++ tl) j = Ok x).
  { intros j i x Hi -> Hx. apply go_index_Ok; [lia|]. rewrite !app_assoc, lookup_app_r; unfold zlen in *; rewrite !length_app; [|lia].
    rewrite <- Hx. f_equal. lia. }
  rewrite (Htl 36 0 (byte_of (partitionFormat m))) by done. cbn [wrap_err mbind outcome_bind].
  rewrite (Htl 37 1 (byte_of (signatureType m))) by done. cbn [wrap_err mbind outcome_bind].
  rewrite (go_slice_parts (N ++ St ++ Sz ++ sig ++ tl) (N ++ St ++ Sz) sig tl 20 36) by (rewrite <- ?app_assoc, ?zlen_app; done || lia). cbn [wrap_err mbind outcome_bind].
  rewrite !byte_value_of, Hmatch by done. unfold N, St, Sz.
  by rewrite !le_value_bytes by (simpl Z.of_nat; lia).
Qed.

Section codec.
Context `{UA : Utf16Ascii}.

Lemma file_back f data : file_ok f → file_path_data f = Ok data → unmarshalFilePath data = Ok (FilePath f).
Proof.
  intros (Hf & Hn & Hb). unfold file_path_data. rewrite bool_decide_false by done. rewrite ReplaceAll_char.
  set (g := _ <$> f). assert (Hg : Forall ascii7 g).
  { apply Forall_fmap. eapply Forall_impl; [exact Hf|]. intros c Hc. unfold compose. by case_bool_decide. }
  assert (Hgn : nul ∉ g).
  { intros (c & Hc & Hin)%list_elem_of_fmap. case_bool_decide; [done|]. by subst. }
  rewrite (encode_ascii g Hg). cbn [lift_error wrap_err mbind outcome_bind]. intros [= <-].
  change ([nul; nul]) with (wide [nul]). rewrite <- wide_app. unfold unmarshalFilePath.
  rewrite zlen_wide, zlen_app. change (zlen [nul]) with 1. pose proof (zlen_nonneg g). rewrite bool_decide_false by lia.
  rewrite decode_ascii by (apply Forall_app; split; [done|]; by repeat constructor). cbn [lift_error wrap_err mbind outcome_bind].
  rewrite IndexByte_end, zlen_app by done. change (zlen [nul]) with 1. rewrite bool_decide_false by lia.
  rewrite (go_slice_parts _ [] g [nul]) by (rewrite ?zlen_nil; done || lia). cbn [wrap_err mbind outcome_bind].
  rewrite ReplaceAll_char. unfold g. rewrite <- list_fmap_compose. do 2 f_equal.
  clear -Hb. induction f as [|c f IH]; [done|]. apply not_elem_of_cons in Hb as [Hc Hb]. cbn [fmap list_fmap]. f_equal; [|by apply IH].
  unfold compose. repeat case_bool_decide; naive_solver.
Qed.

Lemma elem_back e data : elem_ok e → elem_data e = Ok data →
  0 ≤ typ e < 256 ∧ 0 ≤ subType e < 256 ∧ ¬ (typ e = 0x7f ∧ subType e = 0xff) ∧
  unmarshal_elem (typ e) (subType e) data = Ok e.
Proof.
  destruct e as [h|f|t s d]; intros Hok Hdata; cbn [typ subType].
  - split; [done|]. split; [done|]. split; [lia|]. by apply hard_drive_back.
  - split; [done|]. split; [done|]. split; [lia|]. by apply file_back.
  - destruct Hok as (? & ? & ? & ? & ?). injection Hdata as <-. split; [done|]. split; [done|]. split; [done|].
    unfold unmarshal_elem. by rewrite !bool_decide_false.
Qed.

(** ** Paths *)

Lemma end_read fuel rest p : unmarshal_loop (S fuel) (end_of_path ++ rest) p = Ok (p, rest).
Proof.
  cbn [unmarshal_loop]. rewrite zlen_app. change (zlen end_of_path) with 4. pose proof (zlen_nonneg rest).
  rewrite bool_decide_false by lia.
  rewrite (go_index_Ok _ 0 (byte_of 0x7f)), (go_index_Ok _ 1 (byte_of 0xff)) by done. cbn [wrap_err mbind outcome_bind].
  change end_of_path with ([byte_of 0x7f; byte_of 0xff] ++ le_bytes 2 4). rewrite <- app_assoc.
  rewrite (go_slice_mid [byte_of 0x7f; byte_of 0xff] (le_bytes 2 4) rest 2 4) by done. cbn [wrap_err mbind outcome_bind].
  rewrite le_value_bytes by done. rewrite !bool_decide_false by lia.
  rewrite (go_slice_parts _ ([byte_of 0x7f; byte_of 0xff] ++ le_bytes 2 4) [] rest 4 4) by (by rewrite <- ?app_assoc). cbn [wrap_err mbind outcome_bind].
  rewrite (go_slice_parts _ ([byte_of 0x7f; byte_of 0xff] ++ le_bytes 2 4) rest [] 4 (4 + zlen rest)) by (rewrite ?app_nil_r, <- ?app_assoc; done || (change (zlen (_ ++ le_bytes 2 4)) with 4; lia)).
  done.
Qed.

Lemma elem_read fuel e data rest p : elem_ok e → elem_data e = Ok data → zlen data + 4 ≤ MaxUint16 →
  unmarshal_loop (S fuel) ([byte_of (typ e); byte_of (subType e)] ++ le_bytes 2 (zlen data + 4) ++ data ++ rest) p =
  unmarshal_loop fuel rest (p ++ [e]).
Proof.
  intros Hok Hdata Hlen. destruct (elem_back e data Hok Hdata) as (Ht & Hs & Hend & Hback). unfold MaxUint16 in Hlen.
  cbn [unmarshal_loop]. set (hd := [byte_of (typ e); byte_of (subType e)]). set (w := le_bytes 2 (zlen data + 4)).
  assert (Hhd : zlen hd = 2) by done. assert (Hw : zlen w = 2) by apply zlen_le_bytes.
  pose proof (zlen_nonneg rest). pose proof (zlen_nonneg data). rewrite !zlen_app, Hhd, Hw.
  rewrite bool_decide_false by lia.
  rewrite (go_index_Ok _ 0 (byte_of (typ e))), (go_index_Ok _ 1 (byte_of (subType e))) by done. cbn [wrap_err mbind outcome_bind].
  rewrite (go_slice_mid hd w (data ++ rest) 2 4) by lia. cbn [wrap_err mbind outcome_bind].
  assert (le_value w = zlen data + 4) as -> by (apply le_value_bytes; change (256 ^ Z.of_nat 2) with 65536; lia).
  rewrite !byte_value_of by done.
  rewrite !(bool_decide_false (_ > _)) by lia. rewrite !(bool_decide_false (_ < _)) by lia.
  rewrite (go_slice_parts _ (hd ++ w) data rest 4 (zlen data + 4)) by (rewrite <- ?app_assoc, ?zlen_app; done || lia). cbn [wrap_err mbind outcome_bind].
  rewrite (go_slice_parts _ (hd ++ w ++ data) rest [] (zlen data + 4) (2 + (2 + (zlen data + zlen rest)))) by (rewrite ?app_nil_r, <- ?app_assoc, ?zlen_app; done || lia). cbn [wrap_err mbind outcome_bind].
  rewrite bool_decide_false by done. by rewrite Hback.
Qed.

(** The bytes an element takes, with its header. *)
Definition elem_size (e : DevicePathElem) : Z :=
  match e with HardDrive _ => 42 | FilePath f => 2 * zlen f + 6 | UnknownPath _ _ d => zlen d + 4 end.
Definition path_size (d : DevicePath) : Z := foldr (λ e n, elem_size e + n) 4 d.
Definition paths_size (ds : list DevicePath) : Z := foldr (λ d n, path_size d + n) 0 ds.

Lemma elem_data_size e : elem_ok e → ∃ data, elem_data e = Ok data ∧ zlen data + 4 = elem_size e.
Proof.
  destruct e as [h|f|t s d]; cbn [elem_ok elem_data elem_size].
  - intros Hok. destruct (hard_drive_data h) as [data|e|r] eqn:Hd.
    + destruct (hard_drive_back h data Hok Hd) as [Hlen _]. exists data. split; [done|]. lia.
    + destruct Hok as (_ & _ & _ & Hm). unfold hard_drive_data in Hd. by destruct (Match h).
    + unfold hard_drive_data in Hd. by destruct (Match h).
  - intros (Hf & Hn & Hb). unfold file_path_data. rewrite bool_decide_false by done. rewrite ReplaceAll_char.
    rewrite encode_ascii. 2: { apply Forall_fmap. eapply Forall_impl; [exact Hf|]. intros c Hc. unfold compose. by case_bool_decide. }
    eexists. split; [done|]. rewrite zlen_app, zlen_wide, zlen_fmap. change (zlen [nul; nul]) with 2. lia.
  - by eexists.
Qed.
Lemma elem_size_pos e : 4 ≤ elem_size e.
Proof. destruct e as [?|f|? ? d]; cbn [elem_size]; [lia|pose proof (zlen_nonneg f); lia|pose proof (zlen_nonneg d); lia]. Qed.
Lemma path_size_pos d : 4 ≤ path_size d.
Proof. induction d as [|e d IH]; [done|]. cbn [path_size foldr]. fold (path_size d). pose proof (elem_size_pos e). lia. Qed.
Lemma paths_size_nonneg ds : 0 ≤ paths_size ds.
Proof. induction ds as [|d ds IH]; [done|]. cbn [paths_size foldr]. fold (paths_size ds). pose proof (path_size_pos d). lia. Qed.

(** A marshaled path has its size and is read back, or an element is too large. *)
Definition marshaled (d : DevicePath) (raw : text) : Prop :=
  zlen raw = path_size d ∧
  ∀ fuel rest p, (length d < fuel)%nat → unmarshal_loop fuel (raw ++ rest) p = Ok (p ++ d, rest).
Lemma path_marshaled d : Forall elem_ok d →
  (∃ raw, DevicePath_Marshal d = Ok raw ∧ marshaled d raw) ∨ (MaxUint16 < path_size d ∧ ∃ e, DevicePath_Marshal d = Err e).
Proof.
  induction 1 as [|e d He Hd IH].
  - left. eexists. split; [done|]. split; [done|]. intros [|fuel] rest p Hfuel; [simpl in Hfuel; lia|]. rewrite end_read.
    by rewrite app_nil_r.
  - destruct (elem_data_size e He) as (data & Hdata & Hlen). unfold DevicePath_Marshal in *. cbn [marshal_elems path_size foldr].
    fold (path_size d). rewrite Hdata. cbn [wrap_err mbind outcome_bind]. pose proof (path_size_pos d). pose proof (elem_size_pos e).
    case_bool_decide as Hbig; [right; split; [lia|by eexists]|].
    destruct IH as [(raw & Hraw & Hsize & Hback)|[Hsize [err Herr]]].
    + left. rewrite Hraw. cbn [wrap_err mbind outcome_bind]. eexists. split; [done|]. split.
      * change (path_size (e :: d)) with (elem_size e + path_size d).
        rewrite !zlen_app, zlen_le_bytes. change (zlen [_; _]) with 2. lia.
      * intros [|fuel] rest p Hfuel; [lia|]. rewrite <- !app_assoc. rewrite elem_read by (done || lia).
        rewrite Hback by (simpl in Hfuel; lia). by rewrite <- app_assoc.
    + right. rewrite Herr. split; [lia|by eexists].
Qed.

Lemma length_path_size d : Z.of_nat (length d) ≤ path_size d.
Proof.
  induction d as [|e d IH]; [done|]. cbn [path_size foldr length]. fold (path_size d). pose proof (elem_size_pos e). lia.
Qed.
Lemma marshaled_back d raw rest : marshaled d raw → UnmarshalDevicePath (raw ++ rest) = Ok (d, rest).
Proof.
  intros [Hsize Hback]. unfold UnmarshalDevicePath. apply Hback. pose proof (length_path_size d). unfold zlen in Hsize.
  rewrite length_app. lia.
Qed.

Lemma paths_length ds : Z.of_nat (length ds) ≤ paths_size ds.
Proof.
  induction ds as [|d ds IH]; [done|]. cbn [paths_size foldr length]. fold (paths_size ds). pose proof (path_size_pos d). lia.
Qed.
Lemma paths_marshaled ds : Forall (Forall elem_ok) ds →
  (∃ raw, marshal_extra ds = Ok raw ∧ zlen raw = paths_size ds ∧
     ∀ fuel, (length ds < fuel)%nat → unmarshal_extra fuel raw = Ok ds) ∨
  (MaxUint16 < paths_size ds ∧ ∃ e, marshal_extra ds = Err e).
Proof.
  induction 1 as [|d ds Hd Hds IH].
  - left. eexists. split; [done|]. split; [done|]. intros [|fuel] Hfuel; [simpl in Hfuel; lia|]. done.
  - cbn [marshal_extra paths_size foldr]. fold (paths_size ds). pose proof (path_size_pos d). pose proof (paths_size_nonneg ds).
    destruct (path_marshaled d Hd) as [(raw & Hraw & Hm)|[Hbig [e He]]].
    2: { right. rewrite He. split; [lia|by eexists]. }
    rewrite Hraw. cbn [wrap_err mbind outcome_bind]. destruct IH as [(more & Hmore & Hsize & Hback)|[Hbig [e He]]].
    2: { right. rewrite He. split; [lia|by eexists]. }
    left. rewrite Hmore. cbn [wrap_err mbind outcome_bind]. eexists. split; [done|]. pose proof Hm as [Hlen _].
    split; [rewrite zlen_app; lia|]. intros [|fuel] Hfuel; [lia|]. cbn [unmarshal_extra].
    rewrite bool_decide_true by (rewrite zlen_app; pose proof (zlen_nonneg more); lia).
    rewrite (marshaled_back d raw more Hm). cbn [wrap_err mbind outcome_bind]. rewrite Hback by (simpl in Hfuel; lia). done.
Qed.

(** ** Load options *)

Record option_ok (e : LoadOption) : Prop := {
  option_category : 0 ≤ e.(Category) < 32;
  option_described : e.(Description) ≠ []; option_ascii : Forall ascii7 e.(Description); option_nul : nul ∉ e.(Description);
  option_path : Forall elem_ok e.(optFilePath);
  option_extra : Forall (Forall elem_ok) e.(ExtraPaths)
}.

Definition attrs_of (category : Z) (hidden inactive : bool) : Z :=
  Z.lor (Z.lor (Z.shiftl (Z.land category 0x1f) 8) (if hidden then 8 else 0)) (if inactive then 0 else 1).
Definition attrs_back (category : Z) (hidden inactive : bool) : bool :=
  let attrs := attrs_of category hidden inactive in
  bool_decide (0 ≤ attrs < 65536) && eqb (bool_decide (Z.land attrs 1 = 0)) inactive &&
  eqb (bool_decide (Z.land attrs 8 ≠ 0)) hidden && bool_decide (Z.land (Z.shiftr attrs 8) 0x1f = category).
Lemma attrs_all : forallb (λ c, forallb (λ h, forallb (attrs_back c h) [true; false]) [true; false]) (seqZ 0 32) = true.
Proof. by vm_compute. Qed.
Lemma attrs_read e : 0 ≤ e.(Category) < 32 → 0 ≤ LoadOption_attrs e < 65536 ∧
  bool_decide (Z.land (LoadOption_attrs e) 1 = 0) = e.(Inactive) ∧
  bool_decide (Z.land (LoadOption_attrs e) 8 ≠ 0) = e.(Hidden) ∧
  Z.land (Z.shiftr (LoadOption_attrs e) 8) 0x1f = e.(Category).
Proof.
  intros Hc. change (LoadOption_attrs e) with (attrs_of e.(Category) e.(Hidden) e.(Inactive)).
  pose proof attrs_all as H. rewrite forallb_forall in H. specialize (H e.(Category)).
  rewrite <- list_elem_of_In, elem_of_seqZ in H. specialize (H ltac:(lia)). rewrite forallb_forall in H.
  specialize (H e.(Hidden) ltac:(destruct (Hidden e); simpl; auto)). rewrite forallb_forall in H.
  specialize (H e.(Inactive) ltac:(destruct (Inactive e); simpl; auto)). unfold attrs_back in H.
  apply andb_prop in H as [H H4]. apply andb_prop in H as [H H3]. apply andb_prop in H as [H1 H2].
  apply bool_decide_eq_true in H1. apply eqb_prop in H2. apply eqb_prop in H3. by apply bool_decide_eq_true in H4.
Qed.

(** Reading an option whose parts are known. *)
Lemma option_read e path extra : option_ok e → marshaled e.(optFilePath) path →
  zlen extra = paths_size e.(ExtraPaths) → (∀ fuel, (length e.(ExtraPaths) < fuel)%nat → unmarshal_extra fuel extra = Ok e.(ExtraPaths)) →
  zlen (path ++ extra) ≤ MaxUint16 →
  UnmarshalLoadOption (le_bytes 4 (LoadOption_attrs e) ++ le_bytes 2 (zlen (path ++ extra)) ++ wide e.(Description) ++
    [nul; nul] ++ (path ++ extra) ++ e.(OptionalData)) = Ok e.
Proof.
  intros [Hcat Hdesc Hascii Hnul _ Hextra] Hpath Hsize Hmore Hmax. unfold MaxUint16 in Hmax.
  destruct (attrs_read e Hcat) as (Hbound & Hinactive & Hhidden & Hcategory).
  set (A := le_bytes 4 (LoadOption_attrs e)). set (L := le_bytes 2 (zlen (path ++ extra))). set (P := path ++ extra) in *.
  set (D := wide e.(Description)). set (O := e.(OptionalData)). set (data := A ++ L ++ D ++ [nul; nul] ++ P ++ O).
  assert (HA : zlen A = 4) by apply zlen_le_bytes. assert (HL : zlen L = 2) by apply zlen_le_bytes.
  assert (HD : zlen D = 2 * zlen e.(Description)) by apply zlen_wide. assert (HN : zlen [nul; nul] = 2) by done.
  pose proof (zlen_nonneg O). pose proof (zlen_nonneg P). pose proof (zlen_nonneg e.(Description)).
  assert (Htotal : zlen data = 8 + zlen D + zlen P + zlen O) by (unfold data; rewrite !zlen_app; lia).
  unfold UnmarshalLoadOption. rewrite bool_decide_false by lia.
  rewrite (go_slice_parts data [] A (L ++ D ++ [nul; nul] ++ P ++ O) 0 4) by (rewrite ?zlen_nil; done || lia). cbn [wrap_err mbind outcome_bind].
  rewrite (go_slice_parts data A L (D ++ [nul; nul] ++ P ++ O) 4 6) by (done || lia). cbn [wrap_err mbind outcome_bind].
  assert (le_value A = LoadOption_attrs e) as -> by (apply le_value_bytes; change (256 ^ Z.of_nat 4) with 4294967296; lia).
  assert (le_value L = zlen P) as -> by (apply le_value_bytes; change (256 ^ Z.of_nat 2) with 65536; lia).
  rewrite (go_slice_parts data (A ++ L) (D ++ [nul; nul] ++ P ++ O) [] 6 (zlen data))
    by (rewrite ?app_nil_r, <- ?app_assoc, ?zlen_app; done || lia). cbn [wrap_err mbind outcome_bind].
  change (D ++ [nul; nul] ++ P ++ O) with (wide e.(Description) ++ nul :: nul :: P ++ O).
  rewrite IndexNulls_wide by done. rewrite bool_decide_false by (rewrite HD in *; destruct (Description e); [done|rewrite zlen_cons; pose proof (zlen_nonneg l); lia]).
  replace (6 + (2 * zlen (Description e) - 1) + 1) with (6 + zlen D) by lia.
  rewrite (go_slice_parts data (A ++ L) D ([nul; nul] ++ P ++ O) 6 (6 + zlen D)) by (rewrite <- ?app_assoc, ?zlen_app; done || lia). cbn [wrap_err mbind outcome_bind].
  assert (Decode16 D = inr e.(Description)) as -> by exact (decode_ascii e.(Description) Hascii). cbn [lift_error wrap_err mbind outcome_bind].
  rewrite bool_decide_false by lia.
  rewrite (go_slice_parts data (A ++ L ++ D ++ [nul; nul]) P O (6 + zlen D + 2) (6 + zlen D + 2 + zlen P))
    by (rewrite <- ?app_assoc, ?zlen_app; done || lia). cbn [wrap_err mbind outcome_bind].
  assert (UnmarshalDevicePath P = Ok (e.(optFilePath), extra)) as -> by exact (marshaled_back _ path extra Hpath). cbn [wrap_err mbind outcome_bind].
  rewrite Hmore. 2: { pose proof (paths_length e.(ExtraPaths)). unfold zlen in Hsize. lia. } cbn [wrap_err mbind outcome_bind].
  assert (Hopt : (if bool_decide (6 + zlen D + 2 + zlen P < zlen data) then go_slice (E:=error) data (6 + zlen D + 2 + zlen P) (zlen data) else Ok []) = Ok O).
  { destruct (decide (6 + zlen D + 2 + zlen P < zlen data)); [rewrite bool_decide_true by done|rewrite bool_decide_false by done].
    - apply (go_slice_parts data (A ++ L ++ D ++ [nul; nul] ++ P) O []); rewrite ?app_nil_r, <- ?app_assoc, ?zlen_app; done || lia.
    - f_equal. symmetry. apply zlen_0_inv. lia. }
  rewrite Hopt. cbn [wrap_err mbind outcome_bind]. rewrite Hinactive, Hhidden, Hcategory. by destruct e.
Qed.

(** C16: a load option is marshaled exactly when its paths take no more than 2^16-1 bytes,
    and is then read back as it was. Its description is not empty and, like the paths of
    files in it, ASCII without a NUL character; paths have no backslash, and the category
    and the elements are of their widths. What the code does with others is in the examples.
    *)
Theorem load_option_roundtrip e : option_ok e →
  let size := path_size e.(optFilePath) + paths_size e.(ExtraPaths) in
  if bool_decide (size ≤ MaxUint16) then ∃ data, LoadOption_Marshal e = Ok data ∧ UnmarshalLoadOption data = Ok e
  else ∃ err, LoadOption_Marshal e = Err err.
Proof.
  intros Hok size. destruct Hok as [Hcat Hdesc Hascii Hnul Hpath Hextra] eqn:Heq. clear Heq.
  pose proof (path_size_pos e.(optFilePath)). pose proof (paths_size_nonneg e.(ExtraPaths)). unfold LoadOption_Marshal.
  destruct (path_marshaled _ Hpath) as [(path & Hraw & Hm)|[Hbig [err Herr]]].
  2: { rewrite Herr, bool_decide_false by lia. by eexists. }
  rewrite Hraw. cbn [wrap_err mbind outcome_bind]. destruct (paths_marshaled _ Hextra) as [(extra & Hmore & Hsize & Hback)|[Hbig [err Herr]]].
  2: { rewrite Herr, bool_decide_false by lia. by eexists. }
  rewrite Hmore. cbn [wrap_err mbind outcome_bind]. pose proof Hm as [Hlen _].
  assert (Htotal : zlen (path ++ extra) = size) by (rewrite zlen_app; lia). rewrite Htotal.
  case_bool_decide; [|rewrite bool_decide_true by lia; by eexists].
  rewrite bool_decide_false by lia. rewrite bool_decide_false by done. rewrite (encode_ascii _ Hascii). cbn [lift_error wrap_err mbind outcome_bind].
  eexists. split; [done|]. rewrite <- Htotal. apply option_read; [done..|lia].
Qed.
End codec.

(** ** Reading never panics *)

Section total.
Context `{UA : Utf16Ascii}.

Definition calm {A} (c : outcome error A) (Q : A → Prop) : Prop :=
  match c with Ok a => Q a | Err _ => True | Panic _ => False end.
Lemma calm_then {A B} (c : outcome error A) (f : A → outcome error B) Q :
  calm c (λ a, calm (f a) Q) → calm (c ≫= f) Q.
Proof. by destruct c. Qed.
Lemma calm_mono {A} (c : outcome error A) (Q Q' : A → Prop) : (∀ a, Q a → Q' a) → calm c Q → calm c Q'.
Proof. destruct c; simpl; auto. Qed.
Lemma calm_slice {A} (l : list A) i j (Q : list A → Prop) : 0 ≤ i → i ≤ j → j ≤ zlen l → (∀ r, zlen r = j - i → Q r) →
  calm (go_slice l i j) Q.
Proof.
  intros Hi Hij Hj HQ. rewrite go_slice_Ok by done. apply HQ. rewrite zlen_ztake, zlen_zdrop by lia. lia.
Qed.
Lemma calm_index {A} (l : list A) i (Q : A → Prop) : 0 ≤ i → i < zlen l → (∀ x, Q x) → calm (go_index l i) Q.
Proof.
  intros Hi Hl HQ. destruct (lookup_lt_is_Some_2 l (Z.to_nat i)) as [x Hx]; [unfold zlen in Hl; lia|].
  rewrite (go_index_Ok _ _ x) by done. apply HQ.
Qed.
Lemma calm_wrap {A} (c : outcome error A) f (Q : A → Prop) : calm c Q →
  calm (wrap_err f c) Q.
Proof. by destruct c. Qed.
Lemma calm_lift {A} f (r : error + A) (Q : A → Prop) : (∀ a, r = inr a → Q a) → calm (lift_error f r) Q.
Proof. intros HQ. destruct r; [done|]. by apply HQ. Qed.

Ltac calm_step :=
  match goal with
  | |- calm (if bool_decide ?P then _ else _) _ => destruct (decide P); [rewrite (bool_decide_true P) by done|rewrite (bool_decide_false P) by done]
  | |- calm (Err _) _ => exact I
  | |- calm (mbind _ _) _ => apply calm_then
  | |- calm (go_slice _ _ _) _ => apply calm_slice; [lia..|intros ? ?]
  | |- calm (go_index _ _) _ => apply calm_index; [lia..|intros ?]
  | |- calm (lift_error _ _) _ => apply calm_lift; intros ? ?
  | |- calm (wrap_err _ _) _ => apply calm_wrap
  end.

Lemma unmarshal_elem_calm t s data : calm (unmarshal_elem t s data) (λ _, True).
Proof.
  unfold unmarshal_elem. case_bool_decide; [|case_bool_decide; [|done]].
  - unfold unmarshalHardDrivePath. destruct (decide (zlen data ≠ 38)); [by rewrite bool_decide_true|rewrite bool_decide_false by done].
    repeat calm_step. done.
  - unfold unmarshalFilePath. do 4 (calm_step; try done).
    assert (a ≠ []) as Ha by (eapply decode_some; [|done]; by intros ->).
    assert (0 < zlen a) by (destruct a; [done|rewrite zlen_cons; pose proof (zlen_nonneg a0); lia]).
    calm_step. calm_step. done.
Qed.

(** A path that is read takes four bytes at least. *)
Lemma unmarshal_loop_calm fuel rest p : (length rest < fuel)%nat →
  calm (unmarshal_loop fuel rest p) (λ '(_, rest'), zlen rest' + 4 ≤ zlen rest).
Proof.
  revert rest p. induction fuel as [|fuel IH]; intros rest p Hfuel; [lia|]. cbn [unmarshal_loop].
  repeat (calm_step; try done).
  - cbn [calm]. lia.
  - eapply calm_mono; [|apply unmarshal_elem_calm]. intros elem _.
    eapply calm_mono; [|apply IH; unfold zlen in *; lia]. intros [d rest']. lia.
Qed.
Lemma path_calm data : calm (UnmarshalDevicePath data) (λ '(_, rest), zlen rest + 4 ≤ zlen data).
Proof. apply unmarshal_loop_calm. lia. Qed.

Lemma unmarshal_extra_calm fuel data : (length data < fuel)%nat → calm (unmarshal_extra fuel data) (λ _, True).
Proof.
  revert data. induction fuel as [|fuel IH]; intros data Hfuel; [lia|]. cbn [unmarshal_extra]. repeat (calm_step; try done).
  eapply calm_mono; [|apply path_calm]. intros [d rest] Hlen. calm_step. eapply calm_mono; [|apply IH; unfold zlen in *; lia]. done.
Qed.

Lemma UnmarshalLoadOption_calm data : calm (UnmarshalLoadOption data) (λ _, True).
Proof.
  unfold UnmarshalLoadOption. do 7 (calm_step; try done).
  pose proof (le_value_nonneg r0). destruct (IndexNulls_bounds r1) as [Hi|Hi]; [by rewrite bool_decide_true|].
  repeat (calm_step; try done). eapply calm_mono; [|apply path_calm]. intros [d rest] Hlen. calm_step.
  eapply calm_mono; [|apply unmarshal_extra_calm; lia]. intros extra _. repeat (calm_step; try done).
Qed.
Lemma marshal_elems_calm d : calm (marshal_elems d) (λ _, True).
Proof.
  induction d as [|e d IH]; [done|]. cbn [marshal_elems]. calm_step. calm_step.
  eapply (calm_mono _ (λ _, True)).
  2: { destruct e as [h|f|t s x]; [..|done]; cbn [elem_data]; [unfold hard_drive_data; by destruct (Match h)|].
       unfold file_path_data. repeat (calm_step; try done). }
  intros data _. repeat (calm_step; try done).
Qed.
Lemma LoadOption_Marshal_calm e : calm (LoadOption_Marshal e) (λ _, True).
Proof.
  unfold LoadOption_Marshal. calm_step. calm_step. eapply calm_mono; [|apply marshal_elems_calm]. intros path _.
  calm_step. eapply (calm_mono _ (λ _, True)).
  - intros extra _. repeat (calm_step; try done).
  - induction (ExtraPaths e) as [|d ds IH]; [done|]. cbn [marshal_extra]. calm_step. calm_step.
    eapply calm_mono; [|apply marshal_elems_calm]. intros raw _. calm_step. eapply calm_mono; [|exact IH]. done.
Qed.

(** Reading a load option ends, with an option or an error: whatever the bytes, no slice or
    index is out of range and the loops over the elements and the paths take finitely many turns. *)
Theorem unmarshal_returns_option data : is_panic (UnmarshalLoadOption data) = false.
Proof. pose proof (UnmarshalLoadOption_calm data). by destruct (UnmarshalLoadOption data). Qed.
End total.

(** ** Boot orders *)

Lemma boot_order_back order : Forall (λ v, 0 ≤ v < 65536) order → UnmarshalBootOrder (BootOrder_Marshal order) = Ok order.
Proof.
  intros Hall. assert (Hlen : length (BootOrder_Marshal order) = (2 * length order)%nat).
  { clear Hall. unfold BootOrder_Marshal. induction order as [|v order IH]; [done|].
    rewrite bind_cons, length_app, IH, length_le_bytes. cbn [length]. lia. }
  unfold UnmarshalBootOrder, zlen. rewrite Hlen. rewrite bool_decide_false.
  2: { intros H. apply H. rewrite Nat2Z.inj_mul, Z.mul_comm. by apply Z.mod_mul. }
  f_equal. rewrite (Nat.mul_comm 2), Nat.div_mul by done. clear Hlen. unfold BootOrder_Marshal.
  induction Hall as [|v order Hv Hall IH]; [done|]. rewrite bind_cons. cbn [length seq fmap list_fmap]. f_equal.
  - cbn [Nat.mul]. rewrite drop_0, take_app_length' by (by rewrite length_le_bytes). by apply le_value_bytes.
  - rewrite <- IH at 2. rewrite <- fmap_S_seq, <- list_fmap_compose. apply list_fmap_ext. intros _ i _. reflexivity.
Qed.

Lemma unique_from_spec seen order :
  NoDup (unique_from seen order) ∧ unique_from seen order `sublist_of` order ∧
  ∀ v, v ∈ unique_from seen order ↔ v ∈ order ∧ v ∉ seen.
Proof.
  revert seen. induction order as [|v order IH]; intros seen; cbn [unique_from].
  - split; [apply NoDup_nil_2|]. split; [done|]. intros w. by rewrite elem_of_nil; naive_solver.
  - destruct (decide (v ∈ seen)) as [Hv|Hv]; [rewrite bool_decide_true by done|rewrite bool_decide_false by done].
    + destruct (IH seen) as (Hnd & Hsub & Hin). split; [done|]. split; [by constructor|]. intros w. rewrite Hin, elem_of_cons.
      split; [naive_solver|]. intros [[->|?] ?]; done.
    + destruct (IH (v :: seen)) as (Hnd & Hsub & Hin). split; [|split; [by constructor|]].
      * apply NoDup_cons. split; [|done]. rewrite Hin, elem_of_cons. naive_solver.
      * intros w. rewrite elem_of_cons, Hin, !elem_of_cons. destruct (decide (w = v)) as [->|]; naive_solver.
Qed.
(** The order without duplicates: the same entries in the order they first appear in. *)
Lemma unique_boot_order order :
  NoDup (UniqueBootOrder order) ∧ UniqueBootOrder order `sublist_of` order ∧ ∀ v, v ∈ UniqueBootOrder order ↔ v ∈ order.
Proof. destruct (unique_from_spec [] order) as (? & ? & Hin). split; [done|]. split; [done|]. intros v. rewrite Hin. pose proof (not_elem_of_nil v). naive_solver. Qed.

(** ** On concrete bytes *)

(** Characters beyond ASCII are not told apart: they are decoded to the replacement
    character, as a stray last byte is. *)
Definition replacement : text := byte_of <$> [0xef; 0xbf; 0xbd].
Fixpoint decode_pairs (s : text) : text :=
  match s with
  | [] => []
  | [_] => replacement
  | c :: h :: s => (if bool_decide (h = nul ∧ ascii7 c) then [c] else replacement) ++ decode_pairs s
  end.
#[export] Instance utf16_ascii : Utf16 := {| Encode16 s := inr (wide s); Decode16 s := inr (decode_pairs s) |}.
#[export] Instance utf16_ascii_laws : Utf16Ascii utf16_ascii.
Proof.
  split.
  - done.
  - intros s Hs. cbn [Decode16 utf16_ascii]. f_equal. induction Hs as [|c s Hc Hs IH]; [done|].
    change (wide (c :: s)) with (c :: nul :: wide s). cbn [decode_pairs]. rewrite bool_decide_true by done. by rewrite IH.
  - intros [|c [|h s]] t Hs; [done|by intros [= <-]|]. cbn [Decode16 utf16_ascii decode_pairs]. intros [= <-].
    by case_bool_decide.
Qed.

(** ** The load option of the tests *)

Definition uuid_x500 : text :=
  byte_of <$> [0x6b; 0xa7; 0xb8; 0x14; 0x9d; 0xad; 0x11; 0xd1; 0x80; 0xb4; 0x00; 0xc0; 0x4f; 0xd4; 0x30; 0xc8].
Definition example_option (description : text) : LoadOption := {|
  Description := description; Inactive := false; Hidden := false; Category := 0;
  optFilePath := [HardDrive {| PartitionNumber := 1; PartitionStartBlock := 5; PartitionSizeBlocks := 8;
                               Match := Some (PartitionGPT uuid_x500) |};
                  FilePath (lit "/test/a.efi")];
  ExtraPaths := []; OptionalData := []
|}.
Definition reference : list Z :=
  [0x01; 0x00; 0x00; 0x00; 0x4a; 0x00; 0x45; 0x00; 0x78; 0x00; 0x61; 0x00; 0x6d; 0x00; 0x70; 0x00; 0x6c; 0x00; 0x65; 0x00; 0x00; 0x00;
   0x04; 0x01; 0x2a; 0x00; 0x01; 0x00; 0x00; 0x00; 0x05; 0x00; 0x00; 0x00; 0x00; 0x00; 0x00; 0x00; 0x08; 0x00; 0x00; 0x00; 0x00; 0x00; 0x00; 0x00;
   0x14; 0xb8; 0xa7; 0x6b; 0xad; 0x9d; 0xd1; 0x11; 0x80; 0xb4; 0x00; 0xc0; 0x4f; 0xd4; 0x30; 0xc8; 0x02; 0x02;
   0x04; 0x04; 0x1c; 0x00; 0x5c; 0x00; 0x74; 0x00; 0x65; 0x00; 0x73; 0x00; 0x74; 0x00; 0x5c; 0x00; 0x61; 0x00; 0x2e; 0x00; 0x65; 0x00; 0x66; 0x00;
   0x69; 0x00; 0x00; 0x00; 0x7f; 0xff; 0x04; 0x00].
Example reference_marshaled : LoadOption_Marshal (example_option (lit "Example")) = Ok (byte_of <$> reference).
Proof. vm_compute. reflexivity. Qed.

Definition ascii_text (s : text) : bool := forallb (λ c, bool_decide (ascii7 c ∧ c ≠ nul ∧ c ≠ backslash)) s.
Lemma ascii_text_ok s : ascii_text s = true → Forall ascii7 s ∧ nul ∉ s ∧ backslash ∉ s.
Proof.
  unfold ascii_text. rewrite forallb_forall. setoid_rewrite <- list_elem_of_In. intros H. split.
  - apply Forall_forall. intros c Hc. specialize (H c Hc). apply bool_decide_eq_true in H. naive_solver.
  - split; intros Hc; specialize (H _ Hc); apply bool_decide_eq_true in H; naive_solver.
Qed.

Lemma example_ok description : description ≠ [] → ascii_text description = true → option_ok (example_option description).
Proof.
  intros Hd Ha. apply ascii_text_ok in Ha as (? & ? & ?). split; try done.
  repeat constructor; cbn; try done; apply ascii_text_ok; by vm_compute.
Qed.

Lemma load_option_roundtrip_witness :
  option_ok (example_option (lit "Example")) ∧
  (∃ data, LoadOption_Marshal (example_option (lit "Example")) = Ok data ∧ UnmarshalLoadOption data = Ok (example_option (lit "Example"))).
Proof.
  assert (Hok : option_ok (example_option (lit "Example"))) by (apply example_ok; [done|by vm_compute]).
  split; [exact Hok|]. exact (load_option_roundtrip (example_option (lit "Example")) Hok).
Defined.

(** ** Descriptions that are not read back *)

Definition back (description : text) : option LoadOption :=
  match LoadOption_Marshal (example_option description) with
  | Ok data => match UnmarshalLoadOption data with Ok e => Some e | _ => None end
  | _ => None
  end.
(** The null character is looked for one byte after the end of a description, so an empty one
    takes a byte of the path. *)
Example empty_description : back [] = None ∧ is_ok (LoadOption_Marshal (example_option [])) = true.
Proof. split; vm_compute; reflexivity. Qed.

(** Bytes of an option whose description is the letter U+0141: the high byte of its last
    character is not zero, and what follows is read a byte too early. *)
Definition foreign_option : text :=
  byte_of <$> ([0x01; 0x00; 0x00; 0x00; 0x04; 0x00; 0x41; 0x01; 0x00; 0x00; 0x7f; 0xff; 0x04; 0x00]).
Example foreign_description : is_ok (UnmarshalLoadOption foreign_option) = false.
Proof. vm_compute. reflexivity. Qed.
Example latin_description : is_ok (UnmarshalLoadOption
  (byte_of <$> ([0x01; 0x00; 0x00; 0x00; 0x04; 0x00; 0x41; 0x00; 0x00; 0x00; 0x7f; 0xff; 0x04; 0x00]))) = true.
Proof. vm_compute. reflexivity. Qed.
