(* ===== verification/UkiName.v ===== *)
(** * Names of unified kernel images

    [generateNextUKIName] of [bootloader/sdboot/sdboot.go], with what it uses of the
    packages [path/filepath], [strings] and [strconv], and that the name is a new one. *)

From Stdlib Require Import Ascii DecimalString DecimalN.
From S2P Require Import Prelude Text TextFacts.

(** ** Strings *)

(** [filepath.Base]. *)
Definition no_slash (c : ascii) : bool := bool_decide (c ≠ "/"%char).
Fixpoint take_while (p : ascii → bool) (s : text) : text :=
  match s with c :: s' => if p c then c :: take_while p s' else [] | [] => [] end.
Definition Base (path : text) : text :=
  match path with
  | [] => lit "."
  | _ =>
      match drop_while (λ c, negb (no_slash c)) (reverse path) with
      | [] => slash
      | stripped => reverse (take_while no_slash stripped)
      end
  end.

Definition HasSuffix (s p : text) : bool := HasPrefix (reverse s) (reverse p).
Definition TrimSuffix (s p : text) : text := if HasSuffix s p then take (length s - length p) s else s.
Definition TrimPrefix (s p : text) : text := if HasPrefix s p then drop (length p) s else s.

(** [strings.EqualFold], of ASCII texts. *)
Definition to_lower (c : ascii) : ascii :=
  let n := nat_of_ascii c in if bool_decide (65 ≤ n ≤ 90)%nat then ascii_of_nat (n + 32) else c.
Definition EqualFold (s s' : text) : bool := bool_decide (to_lower <$> s = to_lower <$> s').

(** [strings.SplitN(s, sep, 2)] for a separator of one character. *)
Fixpoint cut (sep : ascii) (s : text) : text * option text :=
  match s with
  | [] => ([], None)
  | c :: s => if bool_decide (c = sep) then ([], Some s) else let '(before, after) := cut sep s in (c :: before, after)
  end.

(** [int] is 64 bits wide. *)
Definition int64 (n : Z) : Z := (n + 2 ^ 63) mod 2 ^ 64 - 2 ^ 63.

(** [strconv.Atoi], and [%d]. *)
Definition digits (s : text) : option Z :=
  Z.of_N ∘ N.of_uint <$> NilZero.uint_of_string (String.string_of_list_ascii s).
Definition Atoi (s : text) : option Z :=
  n ← match s with
      | "-"%char :: s => Z.opp <$> digits s
      | "+"%char :: s => digits s
      | _ => digits s
      end;
  if bool_decide (- 2 ^ 63 ≤ n < 2 ^ 63) then Some n else None.
Definition show_digits (n : N) : text := String.list_ascii_of_string (NilZero.string_of_uint (N.to_uint n)).
Definition show (n : Z) : text := if bool_decide (n < 0) then "-"%char :: show_digits (Z.to_N (- n)) else show_digits (Z.to_N n).

(** ** The next name *)

Definition UKIPrefix : text := lit "Chubo-".
Definition LegacyUKIPrefix : text := lit "Talos-".
Definition efi_suffix : text := lit ".efi".
Definition tilde : ascii := "~"%char.

(** The body of the loop over the existing files. *)
Definition next_index (version : text) (maxIndex : Z) (file : text) : Z :=
  let base := TrimSuffix (Base file) efi_suffix in
  let suffix := if HasPrefix base UKIPrefix then Some (TrimPrefix base UKIPrefix)
                else if HasPrefix base LegacyUKIPrefix then Some (TrimPrefix base LegacyUKIPrefix)
                else None in
  match suffix with
  | None => maxIndex
  | Some suffix =>
      let '(v, index) := cut tilde suffix in
      if bool_decide (v ≠ version) then maxIndex
      else
        match index with
        | None => if bool_decide (maxIndex < 0) then 0 else maxIndex
        | Some index =>
            match Atoi index with
            | Some idx => if bool_decide (idx > maxIndex) then idx else maxIndex
            | None => maxIndex
            end
        end
  end.
Definition max_index (version : text) (existingFiles : list text) : Z := fold_left (next_index version) existingFiles (-1).
Definition uki_name (version index : text) : text := UKIPrefix ++ version ++ index ++ efi_suffix.
Definition generateNextUKIName (version : text) (existingFiles : list text) : text :=
  let maxIndex := max_index version existingFiles in
  if bool_decide (maxIndex >= 0) then uki_name version (tilde :: show (int64 (maxIndex + 1)))
  else uki_name version [].

(** ** It is new *)

Lemma HasPrefix_app s s' : HasPrefix (s ++ s') s = true.
Proof. unfold HasPrefix. apply bool_decide_eq_true. by exists s'. Qed.
Lemma TrimSuffix_app s p : TrimSuffix (s ++ p) p = s.
Proof.
  unfold TrimSuffix, HasSuffix. rewrite reverse_app, HasPrefix_app, length_app. by rewrite take_app_length' by lia.
Qed.
Lemma TrimPrefix_app s p : TrimPrefix (p ++ s) p = s.
Proof. unfold TrimPrefix. rewrite HasPrefix_app. by rewrite drop_app_length. Qed.
Lemma cut_sep sep s s' : sep ∉ s → cut sep (s ++ sep :: s') = (s, Some s').
Proof.
  induction s as [|c s IH]; intros H; cbn [cut app]; [by rewrite bool_decide_true|].
  apply not_elem_of_cons in H as [? H]. by rewrite bool_decide_false, IH.
Qed.
Lemma cut_none sep s : sep ∉ s → cut sep s = (s, None).
Proof.
  induction s as [|c s IH]; intros H; [done|]. cbn [cut]. apply not_elem_of_cons in H as [? H].
  by rewrite bool_decide_false, IH.
Qed.

Lemma digits_show n : digits (show_digits n) = Some (Z.of_N n).
Proof.
  unfold digits, show_digits. rewrite String.string_of_list_ascii_of_string. rewrite NilZero.usu.
  - cbn. by rewrite DecimalN.Unsigned.of_to.
  - by destruct n as [|p]; [|apply DecimalPos.Unsigned.to_uint_nonnil].
Qed.
Lemma Atoi_show n : 0 ≤ n < 2 ^ 63 → Atoi (show n) = Some n.
Proof.
  intros Hn. unfold Atoi, show. rewrite bool_decide_false by lia. pose proof (digits_show (Z.to_N n)) as Hd.
  rewrite Z2N.id in Hd by lia.
  assert (Hplain : ∀ s, digits s = Some n → match s with
      | "-"%char :: s => Z.opp <$> digits s | "+"%char :: s => digits s | _ => digits s end = Some n).
  { intros [|c s] Hs; [done|]. destruct c as [[] [] [] [] [] [] [] []]; try exact Hs;
      unfold digits in Hs; simpl in Hs; by destruct (NilEmpty.uint_of_string _). }
  rewrite Hplain by done. cbn. by rewrite bool_decide_true by lia.
Qed.

Lemma next_index_mono version n file : n ≤ next_index version n file.
Proof.
  unfold next_index. repeat case_match; try lia; repeat case_bool_decide; lia.
Qed.
Lemma max_from_mono version files n : n ≤ fold_left (next_index version) files n.
Proof.
  revert n. induction files as [|f files IH]; intros n; [done|]. cbn [fold_left]. etrans; [|apply IH]. apply next_index_mono.
Qed.

(** The index of a file of the version is at most the maximum. *)
Lemma file_index version index i n : tilde ∉ version →
  (index = [] ∧ i = 0) ∨ (index = tilde :: show i ∧ 0 ≤ i < 2 ^ 63) →
  ∀ file, Base file = uki_name version index → i ≤ next_index version n file.
Proof.
  intros Hv Hi file Hbase. unfold next_index. rewrite Hbase. unfold uki_name. rewrite !app_assoc, TrimSuffix_app, <- app_assoc.
  rewrite HasPrefix_app, TrimPrefix_app. destruct Hi as [[-> ->]|[-> Hi]].
  - rewrite app_nil_r, cut_none by done. rewrite bool_decide_false by auto. case_bool_decide; lia.
  - rewrite cut_sep by done. rewrite bool_decide_false by auto. rewrite Atoi_show by done. case_bool_decide; lia.
Qed.
Lemma file_below version index i files n file : tilde ∉ version →
  (index = [] ∧ i = 0) ∨ (index = tilde :: show i ∧ 0 ≤ i < 2 ^ 63) →
  file ∈ files → Base file = uki_name version index → i ≤ fold_left (next_index version) files n.
Proof.
  intros Hv Hi Hin Hbase. revert n. induction files as [|f files IH]; intros n; [by apply not_elem_of_nil in Hin|].
  cbn [fold_left]. apply elem_of_cons in Hin as [->|Hin]; [|by apply IH].
  etrans; [by apply (file_index version index)|]. apply max_from_mono.
Qed.

(** The next name of a version is not the name of an existing file, unless a file has the
    largest index there is; the version has no tilde. *)
Lemma next_name_is_new version existing : tilde ∉ version → max_index version existing < 2 ^ 63 - 1 →
  generateNextUKIName version existing ∉ Base <$> existing.
Proof.
  intros Hv Hmax (file & Hbase & Hin)%list_elem_of_fmap. unfold generateNextUKIName in Hbase.
  pose proof (max_from_mono version existing (-1)) as Hlow. fold (max_index version existing) in Hlow.
  destruct (decide (max_index version existing >= 0)) as [Hm|Hm].
  - rewrite bool_decide_true in Hbase by done.
    assert (Hint : int64 (max_index version existing + 1) = max_index version existing + 1).
    { unfold int64. rewrite Z.mod_small by lia. lia. }
    rewrite Hint in Hbase. eapply (file_below version _ (max_index version existing + 1) existing (-1) file Hv) in Hin;
      [|right; split; [reflexivity|lia]|by symmetry]. fold (max_index version existing) in Hin. lia.
  - rewrite bool_decide_false in Hbase by done.
    eapply (file_below version _ 0 existing (-1) file Hv) in Hin; [|by left|by symmetry].
    fold (max_index version existing) in Hin. lia.
Qed.
