(* ===== verification/EfiVars.v ===== *)
(** * EFI variables

    [internal/pkg/efivarfs/efivarfs.go], the files of the variables, and [variables.go], the
    boot entries they hold, in the state of a program that can call the world. *)

From Stdlib Require Import Ascii.
From S2P Require Import Prelude Errors Text TextFacts GrubConfig BootMount Grub BootFrame Efi EfiCodec UkiName.

Class EfiWorld (W : Type) `{BW : BootWorld W} := {
  os_Remove : text → W → W * option error;
  os_ReadDir : text → W → W * (error + list (text * bool));      (** names, and which are directories *)
  chattr_immutable : bool → Reader → W → W * option error;
  f_Write : OpenFile → text → W → W * option error;              (** and [Close] *)
  efivarfs_remount : bool → W → W * option error                 (** read-write or read-only *)
}.

Definition ScopeGlobal : text := lit "8be4df61-93ca-11d2-aa0d-00e098032b8c".
Definition ScopeSystemd : text := lit "4a67b082-0a4c-41cf-b6c7-440b29bb8c4f".
Definition AttrNonVolatile : Z := 1.
Definition AttrBootserviceAccess : Z := 2.
Definition AttrRuntimeAccess : Z := 4.
Definition efivars_Path : text := lit "/sys/firmware/efi/efivars".
(** The file of a variable. *)
Definition varPath (scope name : text) : text := lit "/sys/firmware/efi/efivars/" ++ name ++ lit "-" ++ scope.
Record FilesystemReaderWriter := { rw_write : bool }.

(** ** Boot entries of the firmware *)

Definition hex_digit (upper : bool) (n : Z) : ascii :=
  ascii_of_N (Z.to_N (if bool_decide (n < 10) then 48 + n else if upper then 55 + n else 87 + n)).
Definition boot_name (upper : bool) (idx : Z) : text :=
  lit "Boot" ++ [hex_digit upper (idx / 4096 mod 16); hex_digit upper (idx / 256 mod 16); hex_digit upper (idx / 16 mod 16);
                 hex_digit upper (idx mod 16)].
Definition hex_value (c : ascii) : option Z :=
  let n := byte_value c in
  if bool_decide (48 ≤ n ≤ 57) then Some (n - 48)
  else if bool_decide (65 ≤ n ≤ 70) then Some (n - 55)
  else if bool_decide (97 ≤ n ≤ 102) then Some (n - 87)
  else None.
(** The index in a name that matches [bootVarRegexp]. *)
Definition boot_index (name : text) : option Z :=
  match name with
  | "B"%char :: "o"%char :: "o"%char :: "t"%char :: [a; b; c; d] =>
      a ← hex_value a; b ← hex_value b; c ← hex_value c; d ← hex_value d;
      Some (a * 4096 + b * 256 + c * 16 + d)
  | _ => None
  end.

(** The smallest index without an entry, of those below [math.MaxUint16]. *)
Fixpoint free_from (bootEntries : gmap Z LoadOption) (fuel : nat) (i : Z) : option Z :=
  match fuel with
  | O => None
  | S fuel => match bootEntries !! i with None => Some i | Some _ => free_from bootEntries fuel (i + 1) end
  end.
Definition free_index (bootEntries : gmap Z LoadOption) : option Z := free_from bootEntries (Z.to_nat 65535) 0.

Section efivars.
Context {W S : Type} `{EW : EfiWorld W} `{U : Utf16}.
Context (ask : ∀ A, (W → W * A) → prog S error A).
Notation ctl := (prog S error).
Notation call := (boot_call ask).
Notation query := (boot_query ask).

Definition of_outcome {A} (c : outcome error A) : ctl A := λ s,
  match c with Ok a => Ok (s, inr a) | Err e => Ok (s, inl e) | Panic r => Panic r end.

(** ** Variables are files *)

Definition NewFilesystemReaderWriter (write : bool) : ctl FilesystemReaderWriter :=
  _ ← (if write then call (efivarfs_remount true) else mret ());
  mret {| rw_write := write |}.
(** The callers drop the error. *)
Definition rw_Close (rw : FilesystemReaderWriter) : ctl () :=
  if rw.(rw_write) then _ ← ask _ (efivarfs_remount false); mret () else mret ().

Definition read_only_error : error := Errorf "efivarfs was opened read-only" [].
Definition write_attributes (attrs : Z) : Z :=
  if bool_decide (Z.land attrs AttrRuntimeAccess ≠ 0) then Z.lor attrs AttrBootserviceAccess else attrs.
Definition write_file (scope name : text) (attrs : Z) (value : text) : ctl () :=
  f ← map_err (λ e, Errorf "writing %q in scope %s: %w" [text_arg name; text_arg scope; Wrapped e]) (query (os_Create (varPath scope name)));
  call (f_Write f (le_bytes 4 (write_attributes attrs) ++ value)).
Definition rw_Write (rw : FilesystemReaderWriter) (scope name : text) (attrs : Z) (value : text) : ctl () :=
  if negb rw.(rw_write) then throw read_only_error else
  let path := varPath scope name in
  err ← ask _ (stat path);
  match err with
  | None =>
      f ← map_err (λ e, Errorf "failed to open efivarfs file %q: %w" [text_arg path; Wrapped e]) (query (os_Open path));
      _ ← map_err (λ e, Errorf "failed to clear immutable attribute from efivarfs file %q: %w" [text_arg path; Wrapped e])
            (call (chattr_immutable false f));
      with_defer (_ ← ask _ (chattr_immutable true f); mret ()) (write_file scope name attrs value)
  | Some _ => write_file scope name attrs value
  end.
Definition rw_Read (scope name : text) : ctl (text * Z) :=
  val ← map_err (λ e, Errorf "reading %q in scope %s: %w" [text_arg name; text_arg scope; Wrapped e]) (query (read_file (varPath scope name)));
  if bool_decide (length val < 4)%nat then
    throw (Errorf "reading %q in scope %s: malformed, less than 4 bytes long" [text_arg name; text_arg scope])
  else mret (drop 4 val, le_value (take 4 val)).
Definition rw_List (scope : text) : ctl (list text) :=
  vars ← map_err (λ e, Errorf "failed to list variable directory: %w" [Wrapped e]) (query (os_ReadDir efivars_Path));
  let suffix := lit "-" ++ scope in
  mret (omap (λ '(name, dir), if dir || negb (HasSuffix name suffix) then None else Some (TrimSuffix name suffix)) vars).
Definition rw_Delete (rw : FilesystemReaderWriter) (scope name : text) : ctl () :=
  if negb rw.(rw_write) then throw read_only_error else call (os_Remove (varPath scope name)).

(** ** Boot entries *)

Definition GetBootEntry (idx : Z) : ctl LoadOption :=
  r ← try (rw_Read ScopeGlobal (boot_name true idx));
  r ← match r with
      | inl err => if errors_Is "ErrNotExist" err then try (rw_Read ScopeGlobal (boot_name false idx)) else mret r
      | inr _ => mret r
      end;
  raw ← of_result r;
  of_outcome (UnmarshalLoadOption raw.1).
Fixpoint get_entries (varNames : list text) (bootEntries : gmap Z LoadOption) : ctl (gmap Z LoadOption) :=
  match varNames with
  | [] => mret bootEntries
  | varName :: varNames =>
      match boot_index varName with
      | None => get_entries varNames bootEntries
      | Some idx =>
          entry ← map_err (λ e, Errorf "failed to get boot entry %s: %w" [text_arg varName; Wrapped e]) (GetBootEntry idx);
          get_entries varNames (<[idx := entry]> bootEntries)
      end
  end.
Definition ListBootEntries : ctl (gmap Z LoadOption) :=
  varNames ← map_err (λ e, Errorf "failed to list EFI variables at scope %s: %w" [text_arg ScopeGlobal; Wrapped e]) (rw_List ScopeGlobal);
  get_entries varNames ∅.
Definition SetBootEntry (rw : FilesystemReaderWriter) (idx : Z) (be : LoadOption) : ctl () :=
  bem ← wrapf "while marshaling the EFI boot entry: %w" (of_outcome (LoadOption_Marshal be));
  rw_Write rw ScopeGlobal (boot_name true idx) (Z.lor AttrNonVolatile AttrRuntimeAccess) bem.
Definition AddBootEntry (rw : FilesystemReaderWriter) (be : LoadOption) : ctl Z :=
  bootEntries ← wrapf "failed to list boot entries: %w" ListBootEntries;
  match free_index bootEntries with
  | None => throw (Errorf "all 2^16 boot entry variables are occupied" [])
  | Some idx => _ ← wrapf "failed to set new boot entry: %w" (SetBootEntry rw idx be); mret idx
  end.
Definition DeleteBootEntry (rw : FilesystemReaderWriter) (idx : Z) : ctl () :=
  r ← try (rw_Delete rw ScopeGlobal (boot_name true idx));
  match r with
  | inl e => if errors_Is "ErrNotExist" e then rw_Delete rw ScopeGlobal (boot_name false idx) else throw e
  | inr _ => mret ()
  end.

Definition SetBootOrder (rw : FilesystemReaderWriter) (ord : list Z) : ctl () :=
  rw_Write rw ScopeGlobal (lit "BootOrder") (Z.lor AttrNonVolatile AttrRuntimeAccess) (BootOrder_Marshal ord).
Definition GetBootOrder : ctl (list Z) :=
  raw ← rw_Read ScopeGlobal (lit "BootOrder");
  wrapf "invalid boot order structure: %w" (of_outcome (UnmarshalBootOrder raw.1)).
Definition SetBootNext (rw : FilesystemReaderWriter) (entryIdx : Z) : ctl () :=
  rw_Write rw ScopeGlobal (lit "BootNext") (Z.lor AttrNonVolatile AttrRuntimeAccess) (le_bytes 2 entryIdx).
End efivars.

(** ** What is done to the files *)

(** What the code relies on of the files of variables. *)
Class EfiFiles {W : Type} `{EW : EfiWorld W} (BF : BootFiles BW) := {
  remove_others p q w : p ≠ q → file p (os_Remove q w).1 = file p w;
  remove_gone q w : (os_Remove q w).2 = None → file q (os_Remove q w).1 = None;
  readdir_file p d w : file p (os_ReadDir d w).1 = file p w;
  chattr_file p b r w : file p (chattr_immutable b r w).1 = file p w;
  fwrite_others p f t w : p ≠ open_path f → file p (f_Write f t w).1 = file p w;
  fwrite_contents f t w : (f_Write f t w).2 = None → file (open_path f) w = Some [] →
    file (open_path f) (f_Write f t w).1 = Some t;
  remount_file p b w : file p (efivarfs_remount b w).1 = file p w
}.

(** ** Free indexes *)

Lemma free_from_spec entries fuel i :
  match free_from entries fuel i with
  | Some j => i ≤ j < i + Z.of_nat fuel ∧ entries !! j = None ∧ ∀ k, i ≤ k < j → is_Some (entries !! k)
  | None => ∀ k, i ≤ k < i + Z.of_nat fuel → is_Some (entries !! k)
  end.
Proof.
  revert i. induction fuel as [|fuel IH]; intros i; cbn [free_from]; [lia|].
  destruct (entries !! i) as [e|] eqn:He; [|split; [lia|]; split; [done|lia]]. specialize (IH (i + 1)).
  assert (Hi : is_Some (entries !! i)) by by eexists.
  destruct (free_from entries fuel (i + 1)) as [j|].
  - destruct IH as (Hj & Hn & Hk). split; [lia|]. split; [done|]. intros k Hk'.
    destruct (decide (k = i)) as [->|]; [done|]. apply Hk. lia.
  - intros k Hk. destruct (decide (k = i)) as [->|]; [done|]. apply IH. lia.
Qed.
(** The index is the first that is free, of those below 65535. *)
Lemma free_index_spec entries :
  match free_index entries with
  | Some j => 0 ≤ j < 65535 ∧ entries !! j = None ∧ ∀ k, 0 ≤ k < j → is_Some (entries !! k)
  | None => ∀ k, 0 ≤ k < 65535 → is_Some (entries !! k)
  end.
Proof. apply (free_from_spec entries (Z.to_nat 65535) 0). Qed.
(** That the last of the 2^16 indexes is free makes no difference. *)
Lemma last_index_unused entries : (∀ k, 0 ≤ k < 65535 → is_Some (entries !! k)) → free_index entries = None.
Proof.
  intros Hall. pose proof (free_index_spec entries) as H. destruct (free_index entries) as [j|]; [|done].
  destruct H as (Hj & Hn & _). apply Hall in Hj. rewrite Hn in Hj. by destruct Hj.
Qed.

Section facts.
Context {W S : Type} `{EW : EfiWorld W} `{UA : Utf16Ascii} `{BF : !BootFiles BW} `{EF : !EfiFiles BF}.
Context {world : S → W} {ask : ∀ A, (W → W * A) → prog S error A} {same : S → S → Prop}.
Context `{!PreOrder same} `{AL : !AskLaw world ask same}.
Notation still := (still (world:=world) (same:=same)).
Notation modest := (modest (world:=world) (same:=same)).

Lemma run X {A} (c : prog S error A) s : modest X c → returns c s (λ s' _, still X s s').
Proof. intros H. apply H. Qed.
Lemma modest_of_outcome X {A} (c : outcome error A) : is_panic c = false → modest X (of_outcome c).
Proof. intros Hc s. destruct c as [a|e|r]; [..|done]; by (eexists _, _; split; [done|apply still_refl]). Qed.

Lemma efi_New_spec write s : returns (NewFilesystemReaderWriter ask write) s (λ s' r, still (λ _, False) s s' ∧
  ∀ rw, r = inr rw → rw = {| rw_write := write |}).
Proof.
  apply returns_bind. eapply returns_mono; [|apply (run (λ _, False))].
  2: { destruct write; [|apply modest_ret]. apply modest_call. intros. apply remount_file. }
  intros s1 r H1. destruct r as [e|[]]; [by split|]. apply returns_ret. split; [done|]. by intros rw [= <-].
Qed.
Lemma modest_Close X rw : modest X (rw_Close ask rw).
Proof.
  unfold rw_Close. destruct (rw_write rw); [|apply modest_ret]. apply modest_bind; [|intros; apply modest_ret].
  apply modest_ask. intros. apply remount_file.
Qed.

(** ** A variable *)

(** The contents of the file of a variable. *)
Definition holds (scope name : text) (attrs : Z) (value : text) (w : W) : Prop :=
  file (varPath scope name) w = Some (le_bytes 4 (write_attributes attrs) ++ value).

Lemma write_file_spec scope name attrs value s :
  returns (write_file ask scope name attrs value) s (λ s' r, still (λ p, p = varPath scope name) s s' ∧
    (r = inr () → holds scope name attrs value (world s'))).
Proof.
  unfold write_file, holds. set (path := varPath scope name). apply returns_bind, returns_map_err. unfold boot_query, boot_call.
  apply returns_bind, returns_asked. intros s1 Hw1 Hs1.
  pose proof (λ p, create_others p path (world s)) as Ho. pose proof (create_empty path (world s)) as He.
  destruct (os_Create path (world s)) as [w1 [e|f]]; cbn [fst snd] in *; subst w1.
  { apply returns_throw. split; [|done]. split; [|done]. intros p Hp. by apply Ho. }
  apply returns_ret. destruct (He f eq_refl) as [Hpath Hempty]. apply returns_bind, returns_asked. intros s2 Hw2 Hs2.
  set (data := le_bytes 4 (write_attributes attrs) ++ value) in *.
  pose proof (λ p, fwrite_others p f data (world s1)) as Ho'. pose proof (fwrite_contents f data (world s1)) as Hc.
  rewrite Hpath in *. destruct (f_Write f data (world s1)) as [w2 err]; cbn [fst snd] in *. subst w2.
  assert (Hs : still (λ p, p = path) s s2) by (split; [|by etransitivity]; intros p Hp; by rewrite Ho', Ho by done).
  destruct err as [e|]; [by apply returns_throw|]. apply returns_ret. split; [done|]. intros _. by apply Hc.
Qed.

(** Nothing but the variable is written, and with success it has the value. *)
Lemma rw_Write_spec rw scope name attrs value s :
  returns (rw_Write ask rw scope name attrs value) s (λ s' r, still (λ p, p = varPath scope name) s s' ∧
    (rw.(rw_write) = false → still (λ _, False) s s' ∧ r = inl read_only_error) ∧
    (r = inr () → holds scope name attrs value (world s'))).
Proof.
  unfold rw_Write. destruct (rw_write rw) eqn:Hrw; cbn [negb].
  2: { apply returns_throw. split; [apply still_refl|]. split; [|done]. intros _. split; [apply still_refl|done]. }
  set (path := varPath scope name). set (X := λ p, p = path).
  match goal with |- returns ?c s _ => cut (returns c s (λ s' r, still X s s' ∧ (r = inr () → holds scope name attrs value (world s')))) end.
  { intros H. eapply returns_mono; [|exact H]. intros s' r [? ?]. split; [done|]. by split. }
  apply returns_bind. eapply returns_mono; [|apply (run X), modest_ask; intros; apply stat_file]. intros s1 r H1.
  destruct r as [e|[err|]]; [by split| |].
  { eapply returns_mono; [|apply write_file_spec]. intros s2 r [H2 Hr]. split; [|done]. by eapply still_trans. }
  apply returns_bind. eapply returns_mono; [|apply (run X), modest_map_err, modest_query; intros; apply opening_file].
  intros s2 r H2. pose proof (still_trans _ _ _ _ H1 H2) as H02. destruct r as [e|f]; [by split|]. apply returns_bind.
  eapply returns_mono; [|apply (run X), modest_map_err, modest_call; intros; apply chattr_file].
  intros s3 r H3. pose proof (still_trans _ _ _ _ H02 H3) as H03. destruct r as [e|[]]; [by split|]. apply returns_defer.
  eapply returns_mono; [|apply write_file_spec]. intros s4 r [H4 Hr]. pose proof (still_trans _ _ _ _ H03 H4) as H04.
  eapply returns_mono; [|apply (run (λ _, False)), modest_bind; [apply modest_ask; intros; apply chattr_file|intros; apply modest_ret]].
  intros s5 r5 [H5 Hs5]. split.
  - eapply still_trans; [exact H04|]. apply (still_mono (λ _, False)); [done|by split].
  - intros Hok. unfold holds. rewrite H5 by (by intros []). by apply Hr.
Qed.

(** What a read gives is in the file. *)
Lemma rw_Read_spec scope name s :
  returns (rw_Read ask scope name) s (λ s' r, still (λ _, False) s s' ∧
    ∀ value attrs, r = inr (value, attrs) → ∃ four, length four = 4%nat ∧ attrs = le_value four ∧
      file (varPath scope name) (world s) = Some (four ++ value)).
Proof.
  apply returns_bind, returns_map_err. unfold boot_query. apply returns_bind, returns_asked. intros s1 Hw Hs.
  pose proof (λ p, reading_file p (varPath scope name) (world s)) as Hf. pose proof (read_contents (varPath scope name) (world s)) as Hc.
  destruct (read_file (varPath scope name) (world s)) as [w [e|val]]; cbn [fst snd] in *; subst w.
  all: assert (still (λ _, False) s s1) by (split; [intros p _; apply Hf|done]).
  { by apply returns_throw. }
  apply returns_ret. case_bool_decide; [by apply returns_throw|]. apply returns_ret. split; [done|]. intros value attrs [= <- <-].
  exists (take 4 val). split; [rewrite length_take; lia|]. split; [done|]. rewrite take_drop. by apply Hc.
Qed.
Lemma modest_rw_Read X scope name : modest X (rw_Read ask scope name).
Proof. intros s. eapply returns_mono; [|apply rw_Read_spec]. intros s' r [H _]. by eapply still_mono; [|exact H]. Qed.
Lemma modest_rw_Write rw scope name attrs value : modest (λ p, p = varPath scope name) (rw_Write ask rw scope name attrs value).
Proof. intros s. eapply returns_mono; [|apply rw_Write_spec]. by intros s' r [H _]. Qed.
Lemma modest_rw_Delete rw scope name : modest (λ p, p = varPath scope name) (rw_Delete ask rw scope name).
Proof.
  unfold rw_Delete. destruct (rw_write rw); [|apply modest_throw]. apply modest_call. intros p w Hp. by apply remove_others.
Qed.

(** ** Boot entries *)

Definition boot_entry_path (p : text) : Prop := ∃ upper idx, p = varPath ScopeGlobal (boot_name upper idx).

Lemma modest_GetBootEntry X idx : modest X (GetBootEntry ask idx).
Proof.
  apply modest_bind; [apply modest_try, modest_rw_Read|]. intros r. apply modest_bind.
  { destruct r as [e|]; [|apply modest_ret]. destruct (errors_Is _ e); [|apply modest_ret]. apply modest_try, modest_rw_Read. }
  intros r'. apply modest_bind; [apply modest_of_result|]. intros raw. apply modest_of_outcome.
  pose proof (UnmarshalLoadOption_calm raw.1). by destruct (UnmarshalLoadOption raw.1).
Qed.
Lemma modest_get_entries X names entries : modest X (get_entries ask names entries).
Proof.
  revert entries. induction names as [|n names IH]; intros entries; [apply modest_ret|]. cbn [get_entries].
  destruct (boot_index n); [|done]. apply modest_bind; [|done]. apply modest_map_err, modest_GetBootEntry.
Qed.
Lemma modest_ListBootEntries X : modest X (ListBootEntries ask).
Proof.
  apply modest_bind; [|intros; apply modest_get_entries]. apply modest_map_err, modest_bind; [|intros; apply modest_ret].
  apply modest_map_err, modest_query. intros. apply readdir_file.
Qed.
Lemma modest_DeleteBootEntry rw idx : modest boot_entry_path (DeleteBootEntry ask rw idx).
Proof.
  assert (Hd : ∀ b, modest boot_entry_path (rw_Delete ask rw ScopeGlobal (boot_name b idx))).
  { intros b. eapply modest_mono; [|apply modest_rw_Delete]. intros p ->. by exists b, idx. }
  apply modest_bind; [apply modest_try, Hd|]. intros [e|]; [|apply modest_ret]. destruct (errors_Is _ e); [apply Hd|apply modest_throw].
Qed.
Lemma modest_SetBootEntry rw idx be : modest boot_entry_path (SetBootEntry ask rw idx be).
Proof.
  apply modest_bind.
  { apply modest_map_err, modest_of_outcome. pose proof (LoadOption_Marshal_calm be). by destruct (LoadOption_Marshal be). }
  intros bem. eapply modest_mono; [|apply modest_rw_Write]. intros p ->. by exists true, idx.
Qed.
Lemma modest_GetBootOrder X : modest X (GetBootOrder ask).
Proof.
  apply modest_bind; [apply modest_rw_Read|]. intros raw. apply modest_map_err, modest_of_outcome.
  unfold UnmarshalBootOrder. by case_bool_decide.
Qed.
End facts.
