(* ===== verification/SdBoot.v ===== *)
(** * systemd-boot

    [runtime/v1alpha1/bootloader/sdboot]: which unified kernel image is booted, upgrades and
    reverts (sdboot.go), loading one with kexec, and the EFI variables
    they write (efivars.go). *)

From stdpp Require Import sorting.
From Stdlib Require Import Ascii.
From S2P Require Import Prelude Errors Text GrubConfig BootMount Grub Efi UkiName EfiVars.

(** ** The world *)

(** What [blkid] says of a disk and its partitions. *)
Record DiskPart := {
  partLabel : option text; partIndex : Z; partUUID : option text; partOffset : Z; partSize : Z
}.
Record DiskInfo := { diskName : text; SectorSize : Z; Parts : list DiskPart }.

Class SdWorld (W : Type) `{EW : EfiWorld W} := {
  filepath_Glob : text → text → W → W * (error + list text);     (** the files [<dir>/<prefix>*.efi] *)
  glob_boot : text → W → W * (error + list text);                (** the files [<dir>/BOOT*.efi] *)
  probe_disk : text → W → W * (error + DiskInfo);
  MemfdCreate : text → W → W * (error + OpenFile);
  seek_start : OpenFile → W → W * (error + Reader);
  GetSecureBoot : W → W * bool
}.

Definition LoaderConfigTimeoutName : text := lit "LoaderConfigTimeout".
Definition LoaderEntryDefaultName : text := lit "LoaderEntryDefault".
Definition LoaderEntrySelectedName : text := lit "LoaderEntrySelected".
Definition ChuboBootEntryDescription : text := lit "Chubo Linux UKI".
Definition TalosBootEntryDescription : text := lit "Talos Linux UKI".
Definition LoaderConfBytes : text :=
  line (lit "# systemd-boot configuration") ++ line [] ++ line (lit "timeout 10").

(** [sdboot.Config]. *)
Record SdConfig := { sdDefault : text; sdFallback : text }.

Section sdboot.
Context {W : Type} `{SW : SdWorld W} `{U : Utf16}.

Record sd := { sdworld : W; sdconf : SdConfig }.
Notation ctl := (prog sd error).

Definition sask {A} (f : W → W * A) : ctl A := λ s,
  let '(w, a) := f s.(sdworld) in Ok ({| sdworld := w; sdconf := s.(sdconf) |}, inr a).
Notation scall := (boot_call (@sask)).
Notation squery := (boot_query (@sask)).
Notation sop := (PartitionOp (@sask)).
Notation efi_Close := (rw_Close (@sask)).
Notation efi_New := (NewFilesystemReaderWriter (@sask)).
Definition set_fallback (l : text) : ctl () :=
  modify (λ s, {| sdworld := s.(sdworld); sdconf := {| sdDefault := s.(sdconf).(sdDefault); sdFallback := l |} |}).

(** ** Variables of the loader *)

Definition ErrShortDst : error := Sentinel "transform: short destination buffer".
Definition ReadVariable (name : text) : ctl text :=
  efi ← wrapf "failed to create efivarfs reader/writer: %w" (efi_New false);
  with_defer (efi_Close efi)
    (r ← try (rw_Read (@sask) ScopeSystemd name);
     match r with
     | inl err => if errors_Is "ErrNotExist" err then mret [] else throw err
     | inr (data, _) =>
         out ← of_result (Decode16 data);
         if bool_decide (length data < length out)%nat then throw ErrShortDst
         else mret (TrimSuffix out [nul])
     end).

Definition WriteVariable (name value : text) : ctl () :=
  efi ← wrapf "failed to create efivarfs reader/writer: %w" (efi_New true);
  with_defer (efi_Close efi)
    (out ← of_result (Encode16 value);
     if bool_decide ((length value + 1) * 2 < length out)%nat then throw ErrShortDst
     else
       rw_Write (@sask) efi ScopeSystemd name (Z.lor (Z.lor AttrBootserviceAccess AttrRuntimeAccess) AttrNonVolatile)
         (out ++ [nul; nul])).

(** ** The boot entry of the firmware *)

(** An unsigned division, which panics for zero. *)
Definition go_div (a b : Z) : ctl Z :=
  lift (if bool_decide (b = 0) then Panic (Explicit "integer divide by zero") else Ok (a / b)).

Definition managed (e : LoadOption) : bool :=
  bool_decide (e.(Description) = ChuboBootEntryDescription) || bool_decide (e.(Description) = TalosBootEntryDescription).
Definition managed_indexes (bootEntries : gmap Z LoadOption) : list Z :=
  merge_sort Z.le (filter (λ i, managed <$> bootEntries !! i = Some true) (map_to_list bootEntries).*1).
Definition CreateBootEntry (rw : FilesystemReaderWriter) (blkidInfo : DiskInfo) (sdBootFilePath : text) : ctl () :=
  match filter (λ p, p.(partLabel) = Some EFIPartitionLabel) blkidInfo.(Parts) with
  | [] => throw (Errorf "EFI partition not found on install disk %q" [text_arg blkidInfo.(diskName)])
  | [part] =>
      match part.(partUUID) with
      | None => throw (Errorf "EFI partition UUID not found on install disk %q" [text_arg blkidInfo.(diskName)])
      | Some partitionUUID =>
          r ← try (GetBootOrder (@sask));
          _ ← match r with
              | inl err => if errors_Is "ErrNotExist" err then mret [] else throw (Errorf "failed to get BootOrder: %w" [Wrapped err])
              | inr bootOrder => mret bootOrder
              end;
          bootEntries ← wrapf "failed to list existing boot entries: %w" (ListBootEntries (@sask));
          match free_index bootEntries with
          | None => throw (Errorf "all 2^16 boot entry variables are occupied" [])
          | Some free =>
              let existing := managed_indexes bootEntries in
              let nextMinimalIndex := match existing with idx :: _ => idx | [] => free end in
              _ ← for_each (λ idx,
                    map_err (λ e, Errorf "failed to delete existing managed boot entry at index %d: %w" [Int idx; Wrapped e])
                      (DeleteBootEntry (@sask) rw idx)) (tail existing);
              start ← go_div part.(partOffset) blkidInfo.(SectorSize);
              size ← go_div part.(partSize) blkidInfo.(SectorSize);
              map_err (λ e, Errorf "failed to create Chubo Linux UKI boot entry at index %d: %w" [Int nextMinimalIndex; Wrapped e])
                (SetBootEntry (@sask) rw nextMinimalIndex {|
                   Description := ChuboBootEntryDescription; Inactive := false; Hidden := false; Category := 0;
                   optFilePath := [HardDrive {| PartitionNumber := u32 part.(partIndex); PartitionStartBlock := start;
                                                PartitionSizeBlocks := size; Match := Some (PartitionGPT partitionUUID) |};
                                   FilePath (slash ++ sdBootFilePath)];
                   ExtraPaths := []; OptionalData := [] |})
          end
      end
  | _ => throw (Errorf "multiple EFI partitions found on install disk %q, expected only one" [text_arg blkidInfo.(diskName)])
  end.

(** ** Images *)

Definition linux_dir (prefix : text) : text := Join [prefix; EFIMountPoint; lit "EFI"; lit "Linux"].

(** [listUKIFiles]: a file that is matched twice is listed once. *)
Definition add_new (files : list text) (file : text) : list text := if bool_decide (file ∈ files) then files else files ++ [file].
Definition listUKIFiles (dir : text) : ctl (list text) :=
  matches ← squery (filepath_Glob dir UKIPrefix);
  let files := fold_left add_new matches [] in
  matches ← squery (filepath_Glob dir LegacyUKIPrefix);
  mret (fold_left add_new matches files).

Definition findMatchingUKIFile (ukiFiles : list text) (entry : text) : option text :=
  if existsb (λ file, EqualFold (Base file) entry) ukiFiles then Some entry else None.

Definition sd_specs (prefix : text) : list Spec := [efi_spec prefix].

Definition IsUEFIBoot : ctl bool := err ← sask (stat (lit "/sys/firmware/efi")); mret (match err with None => true | Some _ => false end).

Definition IsBootedUsingSDBoot : ctl bool :=
  err ← sask (stat (lit "/sys/firmware/efi/efivars/StubInfo-" ++ ScopeSystemd)); mret (match err with None => true | Some _ => false end).

Definition sd_found (callback : SdConfig → ctl ()) (bootEntry : text) : ctl SdConfig :=
  let sdbootConf := {| sdDefault := bootEntry; sdFallback := [] |} in
  _ ← callback sdbootConf;
  mret sdbootConf.
(** What [ProbeWithCallback] does on the partition. *)
Definition sd_probe (callback : SdConfig → ctl ()) : ctl SdConfig :=
  files ← squery (glob_boot (Join [EFIMountPoint; lit "EFI"; lit "boot"]));
  if bool_decide (files = []) then throw (Errorf "no boot*.efi files found in %s" [text_arg (Join [EFIMountPoint; lit "EFI"; lit "boot"])]) else
  ukiFiles ← listUKIFiles (linux_dir []);
  if bool_decide (ukiFiles = []) then throw (Errorf "no UKI files found in %q" [text_arg (linux_dir [])]) else
  loaderEntryDefault ← ReadVariable LoaderEntryDefaultName;
  loaderEntrySelected ← ReadVariable LoaderEntrySelectedName;
  if bool_decide (loaderEntrySelected = [] ∧ loaderEntryDefault = []) then
    throw (Errorf "sd-boot: no LoaderEntryDefault or LoaderEntrySelected found, cannot continue" [])
  else
    match findMatchingUKIFile ukiFiles loaderEntryDefault with
    | Some bootEntry => sd_found callback bootEntry
    | None =>
        match findMatchingUKIFile ukiFiles loaderEntrySelected with
        | Some bootEntry => sd_found callback bootEntry
        | None => throw (Errorf "sd-boot: no valid boot entry found matching LoaderEntryDefault or LoaderEntrySelected" [])
        end
    end.
Definition sd_ProbeWithCallback (disk : text) (callback : SdConfig → ctl ()) : ctl (option SdConfig) :=
  uefi ← IsUEFIBoot;
  if negb uefi then mret None else
  r ← try (sop disk (sd_specs []) (sd_probe callback) true true None);
  match r with
  | inl err => if TagIs_NotFound err then mret None else throw err
  | inr c => mret (Some c)
  end.
Definition sd_Probe (disk : text) : ctl (option SdConfig) := sd_ProbeWithCallback disk (λ _, mret ()).

(** A part of an image in memory. *)
Definition in_memory (name what : text) (r : Reader) : ctl Reader :=
  memfd ← map_err (λ e, Errorf "memfdCreate: %v" [Printed e]) (squery (MemfdCreate name));
  _ ← map_err (λ e, Errorf "failed to read %s from uki: %w" [text_arg what; Wrapped e]) (scall (io_Copy memfd r));
  map_err (λ e, Errorf "failed to seek %s: %w" [text_arg what; Wrapped e]) (squery (seek_start memfd)).
Definition sd_KexecLoad (disk : text) : ctl () :=
  _ ← sd_ProbeWithCallback disk (λ conf : SdConfig,
    '(assetKernel, assetInitrd, assetCmdline) ← wrapf "failed to extract kernel and initrd from uki: %w"
       (squery (uki_Extract (Join [linux_dir []; conf.(sdDefault)])));
    kernelMemfd ← in_memory (lit "vmlinux") (lit "kernel") assetKernel;
    initrdMemfd ← in_memory (lit "initrd") (lit "initrd") assetInitrd;
    cmdline ← wrapf "failed to read cmdline from uki: %w" (squery (io_ReadAll assetCmdline));
    secure ← sask GetSecureBoot;
    cmdline ← (if (secure : bool) then mret cmdline else
               r ← sask smbios_ReadOEMVariable;
               mret match r with
                    | inr extraCmdline => fold_left (λ c s, c ++ lit " " ++ s) extraCmdline cmdline
                    | inl _ => cmdline
                    end);
    wrapf "failed to load kernel for kexec: %w" (scall (kexec_Load kernelMemfd initrdMemfd cmdline)));
  mret ().

Definition sd_generateAssets (opts : InstallOptions W) (ukiFileName : text) : ctl () :=
  let loader := Join [opts.(MountPrefix); EFIMountPoint; lit "loader"] in
  _ ← scall (os_MkdirAll loader);
  _ ← scall (os_WriteFile (Join [loader; lit "loader.conf"]) LoaderConfBytes);
  sdbootFilename ← wrapf "failed to get sd-boot file path: %w" (of_result (efi_Name opts.(Arch)));
  CopyFiles (@sask)
    [(opts.(UKIPath), Join [linux_dir opts.(MountPrefix); ukiFileName]);
     (opts.(SDBootPath), Join [opts.(MountPrefix); EFIMountPoint; sdbootFilename])].

(** The result names the fallback. *)
Definition setup (opts : InstallOptions W) (ukiFileName : text) : ctl text :=
  _ ← WriteVariable LoaderEntryDefaultName ukiFileName;
  _ ← WriteVariable LoaderConfigTimeoutName (lit "5");
  efiRW ← wrapf "failed to create efivarfs reader/writer: %w" (efi_New true);
  with_defer (efi_Close efiRW)
    (blkidInfo ← map_err (λ e, Errorf "failed to probe block device %s: %w" [text_arg opts.(BootDisk); Wrapped e])
                   (squery (probe_disk opts.(BootDisk)));
     sdbootFilename ← wrapf "failed to get sd-boot file path: %w" (of_result (efi_Name opts.(Arch)));
     _ ← wrapf "failed to create boot entry: %w" (CreateBootEntry efiRW blkidInfo sdbootFilename);
     _ ← match opts.(ExtraInstallStep) with Some step => scall step | None => mret () end;
     s ← get; mret s.(sdconf).(sdFallback)).

Definition sd_Install (opts : InstallOptions W) : ctl text := setup opts (generateNextUKIName opts.(Version) []).
Definition sd_GenerateAssets (opts : InstallOptions W) : ctl (list partition_request) :=
  _ ← sd_generateAssets opts (generateNextUKIName opts.(Version) []);
  mret [{| reqLabel := EFIPartitionLabel; reqSource := Some (Join [opts.(MountPrefix); lit "EFI"]); reqReproducible := opts.(ImageMode) |}].

(** Of the images that are there the current one is kept. *)
Definition clean_up (ukiPath : text) (file : text) : ctl () :=
  s ← get;
  let current := s.(sdconf).(sdDefault) in
  if EqualFold (Base file) current then
    if EqualFold current ukiPath then mret () else set_fallback current
  else scall (os_Remove file).
Definition sd_upgrade (opts : InstallOptions W) : ctl text :=
  files ← listUKIFiles (linux_dir opts.(MountPrefix));
  let ukiPath := generateNextUKIName opts.(Version) files in
  _ ← for_each (clean_up ukiPath) files;
  _ ← sd_generateAssets opts ukiPath;
  setup opts ukiPath.
Definition sd_Upgrade (opts : InstallOptions W) : ctl text :=
  sop opts.(BootDisk) (sd_specs opts.(MountPrefix)) (sd_upgrade opts) false false opts.(BlkidInfo).

(** The first image that is not the current one. *)
Fixpoint revert_to (current : text) (files : list text) : ctl () :=
  match files with
  | [] => throw (Errorf "previous UKI not found" [])
  | file :: files =>
      if EqualFold (Base file) current then revert_to current files
      else WriteVariable LoaderEntryDefaultName (Base file)
  end.
Definition sd_revert : ctl () :=
  files ← listUKIFiles (linux_dir []);
  s ← get;
  revert_to s.(sdconf).(sdDefault) files.
Definition sd_Revert (disk : text) : ctl () :=
  r ← try (sop disk (sd_specs []) sd_revert false true None);
  match r with inl err => if TagIs_NotFound err then mret () else throw err | inr _ => mret () end.
End sdboot.
