(* ===== verification/SdSafety.v ===== *)
(** * An upgrade of systemd-boot keeps the image in use

    The images on the EFI partition and the variable that names the one to boot, through
    upgrades and reverts of SdBoot.v. *)

From Stdlib Require Import Ascii DecimalString.
From S2P Require Import Prelude Errors Text TextFacts GrubConfig BootMount Grub BootFrame Efi EfiCodec UkiName EfiVars SdBoot.

(** An image in a directory. *)
Definition in_dir (dir name : text) : text := dir ++ slash ++ name.
Definition uki_file (name : text) : Prop :=
  ∃ prefix middle, prefix ∈ [UKIPrefix; LegacyUKIPrefix] ∧ name = prefix ++ middle ++ efi_suffix ∧ "/"%char ∉ middle.

Class SdFiles {W : Type} `{SW : SdWorld W} (BF : BootFiles BW) := {
  #[global] sd_efi :: EfiFiles BF;
  glob_file p dir pre w : file p (filepath_Glob dir pre w).1 = file p w;
  glob_listed dir pre w files p : (filepath_Glob dir pre w).2 = inr files →
    p ∈ files ↔ is_Some (file p w) ∧ ∃ middle, p = in_dir dir (pre ++ middle ++ efi_suffix) ∧ "/"%char ∉ middle;
  glob_boot_file p dir w : file p (glob_boot dir w).1 = file p w;
  probe_disk_file p disk w : file p (probe_disk disk w).1 = file p w;
  sector_size disk w info : (probe_disk disk w).2 = inr info → info.(SectorSize) ≠ 0
}.

(** ** Names and paths *)

Lemma take_while_all p s s' : Forall (λ c, p c = true) s → take_while p (s ++ s') = s ++ take_while p s'.
Proof. induction 1 as [|c s Hc Hs IH]; [done|]. cbn [take_while app]. by rewrite Hc, IH. Qed.
Lemma Base_in_dir dir name : name ≠ [] → "/"%char ∉ name → Base (in_dir dir name) = name.
Proof.
  intros Hne Hns. assert (Hall : Forall (λ c, no_slash c = true) (reverse name)).
  { apply Forall_forall. intros c Hc. rewrite elem_of_reverse in Hc. unfold no_slash. apply bool_decide_eq_true. intros ->; by apply Hns. }
  unfold Base, in_dir. destruct (dir ++ slash ++ name) as [|d p] eqn:Hp; [by destruct dir|]. rewrite <- Hp.
  rewrite !reverse_app. change (reverse slash) with slash.
  destruct (reverse name) as [|c s] eqn:Hr.
  { apply (f_equal reverse) in Hr. rewrite reverse_involutive in Hr. done. }
  rewrite <- app_assoc. cbn [app drop_while]. apply Forall_cons in Hall as [Hc Hall]. rewrite Hc. cbn [negb].
  change (c :: s ++ slash ++ reverse dir) with ((c :: s) ++ slash ++ reverse dir). rewrite take_while_all by (by constructor).
  change (take_while no_slash (slash ++ reverse dir)) with (@nil ascii). rewrite app_nil_r, <- Hr.
  apply reverse_involutive.
Qed.

Lemma uki_file_ne name : uki_file name → name ≠ [].
Proof. intros (pre & m & Hpre & -> & _). set_unfold in Hpre. by destruct Hpre as [->|[->|[]]]. Qed.
Lemma uki_file_slash name : uki_file name → "/"%char ∉ name.
Proof.
  intros (pre & m & Hpre & -> & Hm). set_unfold in Hpre. rewrite !elem_of_app.
  assert ("/"%char ∉ pre) by (destruct Hpre as [->|[->|[]]]; apply (bool_decide_unpack _); by vm_compute).
  assert ("/"%char ∉ efi_suffix) by (apply (bool_decide_unpack _); by vm_compute). naive_solver.
Qed.
Lemma uki_file_Base dir name : uki_file name → Base (in_dir dir name) = name.
Proof. intros H. apply Base_in_dir; [by apply uki_file_ne|by apply uki_file_slash]. Qed.

Lemma show_slash n : "/"%char ∉ show n.
Proof.
  assert (Hd : ∀ d, "/"%char ∉ String.list_ascii_of_string (NilEmpty.string_of_uint d)).
  { induction d; cbn; [apply not_elem_of_nil|..]; apply not_elem_of_cons; done. }
  assert (Hn : ∀ m, "/"%char ∉ show_digits m).
  { intros m. unfold show_digits, NilZero.string_of_uint. destruct (N.to_uint m) eqn:Hu; rewrite <- ?Hu; try apply Hd.
    apply not_elem_of_cons. split; [done|apply not_elem_of_nil]. }
  unfold show. case_bool_decide; [|done]. apply not_elem_of_cons. split; [done|apply Hn].
Qed.
Lemma next_name_file version existing : "/"%char ∉ version → uki_file (generateNextUKIName version existing).
Proof.
  intros Hv. assert (Hname : ∀ index, "/"%char ∉ index → uki_file (uki_name version index)).
  { intros index Hi. exists UKIPrefix, (version ++ index). split; [set_solver|]. split; [by rewrite <- app_assoc|].
    rewrite elem_of_app. naive_solver. }
  unfold generateNextUKIName. case_bool_decide; apply Hname; [|apply not_elem_of_nil].
  apply not_elem_of_cons. split; [done|apply show_slash].
Qed.

Lemma max_index_below version files B : -1 < B → (∀ f, f ∈ files → next_index version (-1) f < B) → max_index version files < B.
Proof.
  intros HB Hall. unfold max_index. assert (Hstep : ∀ n f, n < B → next_index version (-1) f < B → next_index version n f < B).
  { intros n f Hn. unfold next_index. repeat case_match; try lia; repeat case_bool_decide; lia. }
  cut (∀ n, n < B → fold_left (next_index version) files n < B); [intros H; by apply H|].
  induction files as [|f files IH]; intros n Hn; [done|]. cbn [fold_left]. apply IH.
  - intros g Hg. apply Hall. by constructor.
  - apply Hstep; [done|]. apply Hall. by constructor.
Qed.

(** Names in lower case, but for their prefix, do not differ in case only. *)
Definition lower (s : text) : Prop := to_lower <$> s = s.
Lemma lower_app s s' : lower s → lower s' → lower (s ++ s').
Proof. unfold lower. intros H H'. by rewrite fmap_app, H, H'. Qed.
Lemma lower_show n : lower (show n).
Proof.
  assert (Hd : ∀ d, lower (String.list_ascii_of_string (NilEmpty.string_of_uint d))).
  { induction d; [done|..]; unfold lower in *; cbn [NilEmpty.string_of_uint String.list_ascii_of_string fmap list_fmap];
      (f_equal; exact IHd). }
  assert (Hn : ∀ m, lower (show_digits m)).
  { intros m. unfold show_digits, NilZero.string_of_uint. destruct (N.to_uint m) eqn:Hu; rewrite <- ?Hu; try apply Hd. done. }
  unfold show. case_bool_decide; [|done]. unfold lower. cbn [fmap list_fmap]. f_equal. apply Hn.
Qed.
Lemma next_name_rest version existing : lower version →
  ∃ rest, generateNextUKIName version existing = UKIPrefix ++ rest ∧ lower rest.
Proof.
  intros Hv. unfold generateNextUKIName, uki_name. case_bool_decide; eexists; (split; [reflexivity|]).
  - apply lower_app; [done|]. apply lower_app; [|done]. unfold lower. cbn [fmap list_fmap]. f_equal. apply lower_show.
  - by apply lower_app.
Qed.
Lemma fold_to_next name version existing : uki_file name → lower (drop 6 name) → lower version →
  EqualFold name (generateNextUKIName version existing) = true → name = generateNextUKIName version existing.
Proof.
  intros (pre & m & Hpre & -> & _) Hlow Hv. destruct (next_name_rest version existing Hv) as (rest & -> & Hrest). intros Heq.
  unfold EqualFold in Heq. apply bool_decide_eq_true in Heq. rewrite (fmap_app _ UKIPrefix rest) in Heq. set_unfold in Hpre.
  assert (Hchubo : to_lower <$> UKIPrefix = lit "chubo-") by (vm_compute; reflexivity).
  assert (Htalos : to_lower <$> LegacyUKIPrefix = lit "talos-") by (vm_compute; reflexivity).
  destruct Hpre as [->|[->|[]]]; rewrite fmap_app, ?Htalos, Hchubo in Heq; [|discriminate Heq].
  change (drop 6 (UKIPrefix ++ m ++ efi_suffix)) with (m ++ efi_suffix) in Hlow.
  apply app_inv_head in Heq. unfold lower in *. rewrite Hlow, Hrest in Heq. by rewrite Heq.
Qed.
Lemma EqualFold_trans a b c : EqualFold a b = true → EqualFold b c = true → EqualFold a c = true.
Proof. unfold EqualFold. rewrite !bool_decide_eq_true. congruence. Qed.
Lemma EqualFold_sym a b : EqualFold a b = EqualFold b a.
Proof. unfold EqualFold. apply bool_decide_ext. by split. Qed.

Section safety.
Context {W : Type} `{SW : SdWorld W} `{UA : Utf16Ascii} `{BF : !BootFiles BW} `{SF : !SdFiles BF}.
Notation ctl := (prog (sd (W:=W)) error).
Notation scall := (boot_call (@sask W)).
Notation squery := (boot_query (@sask W)).

Definition same_conf (s s' : sd (W:=W)) : Prop := s'.(sdconf) = s.(sdconf).
#[export] Instance same_conf_preorder : PreOrder same_conf.
Proof. split; [done|]. intros s1 s2 s3 H1 H2. unfold same_conf in *. congruence. Qed.
#[export] Instance sask_law : AskLaw sdworld (@sask W) same_conf.
Proof. intros A f s. unfold sask. destruct (f (sdworld s)) as [w a]. by eexists. Qed.
Notation still := (still (world:=sdworld) (same:=same_conf)).
Notation modest := (modest (world:=sdworld) (same:=same_conf)).
Notation run := (run (world:=sdworld) (same:=same_conf)).

(** ** Variables *)

Lemma WriteVariable_spec name value s :
  returns (WriteVariable name value) s (λ s' r, still (λ p, p = varPath ScopeSystemd name) s s' ∧
    (r = inr () → ∃ out, Encode16 value = inr out ∧ holds ScopeSystemd name 7 (out ++ [nul; nul]) s'.(sdworld))).
Proof.
  set (X := λ p, p = varPath ScopeSystemd name). apply returns_bind, returns_map_err.
  eapply returns_mono; [|apply efi_New_spec]. intros s1 r [H1 Hrw].
  assert (H1' : still X s s1) by (by eapply still_mono; [|exact H1]). destruct r as [e|rw]; [by split|].
  apply returns_defer.
  eapply (returns_mono _ _ (λ s2 r, still X s s2 ∧ (r = inr () → ∃ out, Encode16 value = inr out ∧
    holds ScopeSystemd name 7 (out ++ [nul; nul]) s2.(sdworld)))).
  { intros s2 r [H2 Hr]. eapply returns_mono; [|apply (run (λ _, False)), modest_Close]. intros s3 r3 H3. split.
    - eapply still_trans; [exact H2|]. by eapply still_mono; [|exact H3].
    - intros Hok. destruct (Hr Hok) as (out & ? & Hf). exists out. destruct H3 as [H3 _]. unfold holds in *.
      by rewrite H3 by (by intros []). }
  apply returns_bind, returns_of_result. destruct (Encode16 value) as [e|out] eqn:He; [by split|].
  case_bool_decide; [by apply returns_throw|]. eapply returns_mono; [|apply rw_Write_spec]. intros s2 r (H2 & _ & Hr).
  split; [by eapply still_trans|]. intros Hok. exists out. split; [done|]. by apply Hr.
Qed.

(** ** The boot entry *)

Lemma modest_go_div X a b : b ≠ 0 → modest X (go_div a b).
Proof. intros Hb s. unfold go_div. rewrite bool_decide_false by done. eapply returns_lift; [done|apply still_refl]. Qed.


Lemma modest_CreateBootEntry rw info path : info.(SectorSize) ≠ 0 → modest boot_entry_path (CreateBootEntry rw info path).
Proof.
  intros Hsector. unfold CreateBootEntry. destruct (filter _ _) as [|part [|? ?]]; [apply modest_throw| |apply modest_throw].
  destruct (partUUID part) as [uuid|]; [|apply modest_throw].
  apply modest_bind; [apply modest_try, modest_GetBootOrder|]. intros r.
  apply modest_bind; [destruct r as [e|]; [destruct (errors_Is _ e)|]; first [apply modest_ret|apply modest_throw]|]. intros order.
  apply modest_bind; [apply modest_map_err, modest_ListBootEntries|].
  intros entries. destruct (free_index entries) as [free|]; [|apply modest_throw].
  apply modest_bind; [apply modest_for_each; intros idx; apply modest_map_err, modest_DeleteBootEntry|]. intros _.
  apply modest_bind; [by apply modest_go_div|]. intros start. apply modest_bind; [by apply modest_go_div|]. intros size.
  apply modest_map_err, modest_SetBootEntry.
Qed.

(** ** The end of an installation *)

Notation loader_default := (varPath ScopeSystemd LoaderEntryDefaultName).
Notation images := (linux_dir []).

(** The images, and the variable that names the one to boot. *)
Definition guarded (p : text) : Prop := (images ++ slash) `prefix_of` p ∨ p = loader_default.
#[export] Instance guarded_dec p : Decision (guarded p).
Proof. unfold guarded. apply _. Defined.
Lemma guarded_image name : guarded (in_dir images name).
Proof. left. exists name. unfold in_dir. by rewrite app_assoc. Qed.

Lemma boot_entry_unguarded p : boot_entry_path p → ¬ guarded p.
Proof. intros (u & i & ->) [[name H]|H]; discriminate H. Qed.
Lemma timeout_unguarded : ¬ guarded (varPath ScopeSystemd LoaderConfigTimeoutName).
Proof. intros [[name H]|H]; discriminate H. Qed.
Lemma image_not_variable name : in_dir images name ≠ loader_default.
Proof. intros H. discriminate H. Qed.

Definition steps_aside (opts : InstallOptions W) : Prop :=
  ∀ step, opts.(ExtraInstallStep) = Some step → ∀ p w, guarded p → file p (step w).1 = file p w.

(** The variable holds a text. *)
Definition names_image (w : W) (value : text) : Prop :=
  ∃ out, Encode16 value = inr out ∧ holds ScopeSystemd LoaderEntryDefaultName 7 (out ++ [nul; nul]) w.

Lemma setup_spec opts new s : steps_aside opts →
  returns (setup opts new) s (λ s' r, still (λ p, p = loader_default ∨ ¬ guarded p) s s' ∧
    ∀ l, r = inr l → l = s.(sdconf).(sdFallback) ∧ names_image s'.(sdworld) new).
Proof.
  intros Hextra. set (X := λ p, p = loader_default ∨ ¬ guarded p). apply returns_bind.
  eapply returns_mono; [|apply WriteVariable_spec]. intros s1 r [H1 Hnew].
  assert (H1' : still X s s1) by (eapply still_mono; [|exact H1]; by left). destruct r as [e|[]]; [by split|].
  specialize (Hnew eq_refl).
  match goal with |- returns ?c s1 _ => cut (returns c s1 (λ s' r, still (λ p, ¬ guarded p) s1 s' ∧ ∀ l, r = inr l → l = s1.(sdconf).(sdFallback))) end.
  { intros H. eapply returns_mono; [|exact H]. intros s2 r [H2 Hl]. split.
    - eapply still_trans; [exact H1'|]. eapply still_mono; [|exact H2]. by right.
    - intros l Hr. destruct H1 as [_ Hconf]. split; [rewrite (Hl l Hr); by rewrite Hconf|].
      destruct Hnew as (out & He & Hf). exists out. split; [done|].
      destruct H2 as [H2 _]. unfold holds in *. rewrite H2; [done|]. intros Hg. apply Hg. by right. }
  apply returns_bind. eapply returns_mono; [|apply WriteVariable_spec]. intros s2 r [H2 _].
  assert (H2' : still (λ p, ¬ guarded p) s1 s2).
  { eapply still_mono; [|exact H2]. intros p ->. apply timeout_unguarded. }
  destruct r as [e|[]]; [by split|]. apply returns_bind.
  apply returns_map_err. eapply returns_mono; [|apply efi_New_spec]. intros s3 r [H3 _].
  assert (H13 : still (λ p, ¬ guarded p) s1 s3) by (eapply still_trans; [exact H2'|]; by eapply still_mono; [|exact H3]).
  destruct r as [e|rw]; [by split|]. apply returns_defer.
  match goal with |- returns ?c s3 _ => cut (returns c s3 (λ s' r, still (λ p, ¬ guarded p) s3 s' ∧ ∀ l, r = inr l → l = s'.(sdconf).(sdFallback))) end.
  { intros H. eapply returns_mono; [|exact H]. intros s4 r [H4 Hl].
    eapply returns_mono; [|apply (run (λ p, ¬ guarded p)), modest_Close]. intros s5 r' H5.
    pose proof (still_trans _ _ _ _ H13 H4) as H14. split; [by eapply still_trans|]. intros l Hr. rewrite (Hl l Hr).
    destruct H14 as [_ Hconf]. by rewrite Hconf. }
  apply returns_bind.
  eapply (returns_mono _ _ (λ s' r, still (λ p, ¬ guarded p) s3 s' ∧ ∀ info, r = inr info → SectorSize info ≠ 0)).
  2: { apply returns_map_err. unfold boot_query. apply returns_bind, returns_asked. intros s' Hw Hs.
       pose proof (sector_size (BootDisk opts) (sdworld s3)) as Hsec.
       assert (Hst : still (λ p, ¬ guarded p) s3 s') by (split; [|done]; intros p _; rewrite Hw; apply probe_disk_file).
       destruct (probe_disk _ _).2 as [e|info]; [by apply returns_throw|]. apply returns_ret. split; [done|].
       intros i [= <-]. by apply Hsec. }
  intros s4 r [H4 Hsec]. destruct r as [e|info]; [by split|]. specialize (Hsec info eq_refl).
  apply returns_bind. eapply returns_mono; [|apply (run (λ p, ¬ guarded p)), modest_map_err, modest_of_result].
  intros s5 r H5. pose proof (still_trans _ _ _ _ H4 H5) as H35. destruct r as [e|path]; [by split|].
  apply returns_bind. eapply returns_mono; [|apply (run boot_entry_path), modest_map_err; by apply modest_CreateBootEntry].
  intros s6 r H6. assert (H36 : still (λ p, ¬ guarded p) s3 s6).
  { eapply still_trans; [exact H35|]. eapply still_mono; [|exact H6]. apply boot_entry_unguarded. }
  destruct r as [e|[]]; [by split|]. apply returns_bind.
  eapply returns_mono; [|apply (run (λ p, ¬ guarded p))].
  2: { destruct (ExtraInstallStep opts) as [step|] eqn:Hs; [|apply modest_ret]. apply modest_call. intros p w Hp.
       apply (Hextra step Hs). by apply dec_stable. }
  intros s7 r H7. pose proof (still_trans _ _ _ _ H36 H7) as H37. destruct r as [e|[]]; [by split|].
  apply returns_bind, returns_get, returns_ret. split; [done|]. by intros l [= <-].
Qed.

(** ** Images *)

Lemma elem_of_add_new matches acc p : p ∈ fold_left add_new matches acc ↔ p ∈ acc ∨ p ∈ matches.
Proof.
  clear. revert acc. induction matches as [|m ms IH]; intros acc; cbn [fold_left].
  - pose proof (not_elem_of_nil p). tauto.
  - rewrite IH, elem_of_cons. unfold add_new. destruct (decide (m ∈ acc)).
    + rewrite bool_decide_true by done. split; [tauto|]. intros [?|[->|?]]; tauto.
    + rewrite bool_decide_false by done. rewrite elem_of_app, list_elem_of_singleton. tauto.
Qed.
Lemma listUKI_spec dir s : returns (listUKIFiles dir) s (λ s' r, still (λ _, False) s s' ∧
  ∀ files, r = inr files → ∀ p, p ∈ files ↔ is_Some (file p s.(sdworld)) ∧ ∃ name, p = in_dir dir name ∧ uki_file name).
Proof.
  assert (Hglob : ∀ pre s, returns (squery (filepath_Glob dir pre)) s (λ s' r, still (λ _, False) s s' ∧
    ∀ files, r = inr files → ∀ p, p ∈ files ↔ is_Some (file p s.(sdworld)) ∧ ∃ m, p = in_dir dir (pre ++ m ++ efi_suffix) ∧ "/"%char ∉ m)).
  { intros pre s0. unfold boot_query. apply returns_bind, returns_asked. intros s' Hw Hs.
    assert (Hst : still (λ _, False) s0 s') by (split; [|done]; intros p _; rewrite Hw; apply glob_file).
    pose proof (glob_listed dir pre (sdworld s0)) as Hl.
    destruct (filepath_Glob dir pre (sdworld s0)).2 as [e|files]; [by apply returns_throw|]. apply returns_ret. split; [done|].
    intros f [= <-] p. by apply Hl. }
  apply returns_bind. eapply returns_mono; [|apply Hglob]. intros s1 r [H1 Hm1]. destruct r as [e|m1]; [by split|].
  specialize (Hm1 m1 eq_refl). apply returns_bind. eapply returns_mono; [|apply Hglob]. intros s2 r [H2 Hm2].
  pose proof (still_trans _ _ _ _ H1 H2) as H12. destruct r as [e|m2]; [by split|]. specialize (Hm2 m2 eq_refl).
  apply returns_ret. split; [done|]. intros files [= <-] p. rewrite !elem_of_add_new, Hm1, Hm2.
  destruct H1 as [H1 _]. rewrite H1 by (by intros []). pose proof (not_elem_of_nil p). split.
  - intros [[?|(Hp & m & -> & Hm)]|(Hp & m & -> & Hm)]; [done|..]; (split; [done|]; eexists; split; [done|]).
    + exists UKIPrefix, m. split; [by apply elem_of_cons; left|done].
    + exists LegacyUKIPrefix, m. split; [by rewrite elem_of_cons, list_elem_of_singleton; right|done].
  - intros (Hp & name & -> & pre & m & Hpre & -> & Hm). set_unfold in Hpre. destruct Hpre as [->|[->|[]]].
    + left. right. split; [done|]. by exists m.
    + right. split; [done|]. by exists m.
Qed.

Lemma image_path name : uki_file name → Join [linux_dir []; name] = in_dir images name.
Proof.
  intros (pre & m & Hpre & -> & _). set_unfold in Hpre. by destruct Hpre as [->|[->|[]]].
Qed.

Lemma generate_spec opts new s : opts.(MountPrefix) = [] → uki_file new →
  returns (sd_generateAssets opts new) s (λ s' r, still (λ p, p = in_dir images new ∨ ¬ guarded p) s s' ∧
    (r = inr () → ∃ rd, opened opts.(UKIPath) rd ∧ file (in_dir images new) s'.(sdworld) = Some (reader_text rd))).
Proof.
  intros Hp Hnew. set (X := λ p, p = in_dir images new ∨ ¬ guarded p). unfold sd_generateAssets. rewrite Hp, image_path by done.
  apply returns_bind. eapply returns_mono; [|apply (run X), modest_call; intros; apply mkdir_file].
  intros s1 r H1. destruct r as [e|[]]; [by split|]. apply returns_bind.
  eapply returns_mono; [|apply (run X), modest_call].
  2: { intros p w HX. apply write_others. intros ->. apply HX. right. by apply (bool_decide_unpack _). }
  intros s2 r H2. pose proof (still_trans _ _ _ _ H1 H2) as H02. destruct r as [e|[]]; [by split|]. apply returns_bind.
  apply returns_map_err, returns_of_result.
  assert (Hname : ∀ path, efi_Name (Arch opts) = inr path → ¬ guarded (Join [[]; EFIMountPoint; path])).
  { intros path. unfold efi_Name. repeat case_bool_decide; intros [= <-]; by apply (bool_decide_unpack _). }
  destruct (efi_Name _) as [e|path]; [by split|]. specialize (Hname path eq_refl).
  eapply returns_mono; [|apply CopyFiles_spec].
  2: { cbn [fmap list_fmap snd]. apply NoDup_cons. split; [|apply NoDup_singleton]. rewrite list_elem_of_singleton.
       intros Heq. apply Hname. rewrite <- Heq. apply guarded_image. }
  intros s3 r [H3 Hall]. split.
  - eapply still_trans; [exact H02|]. eapply still_mono; [|exact H3]. cbn [fmap list_fmap snd]. intros p Hin.
    rewrite elem_of_cons, list_elem_of_singleton in Hin. destruct Hin as [-> | ->]; [by left|by right].
  - intros Hr. specialize (Hall Hr). apply Forall_cons in Hall as [Himage _]. done.
Qed.

(** ** An upgrade *)

(** The images that are listed are removed, but for the current one, which is the fallback
    unless it has the name of the next one. *)
Definition cleaned (new : text) (files : list text) (s s' : sd (W:=W)) (ok : Prop) : Prop :=
  let current := s.(sdconf).(sdDefault) in
  s'.(sdconf).(sdDefault) = current ∧
  (∀ p, p ∉ files ∨ EqualFold (Base p) current = true → file p s'.(sdworld) = file p s.(sdworld)) ∧
  (ok →
   (∀ p, file p s.(sdworld) = None → file p s'.(sdworld) = None) ∧
   (∀ p, p ∈ files → EqualFold (Base p) current = false → file p s'.(sdworld) = None) ∧
   (s.(sdconf).(sdFallback) = current ∨ (∃ p, p ∈ files ∧ EqualFold (Base p) current = true) ∧ EqualFold current new = false →
    s'.(sdconf).(sdFallback) = current)).

Lemma cleaned_kept new f files s s1 s2 ok : EqualFold (Base f) s.(sdconf).(sdDefault) = true →
  s1.(sdconf).(sdDefault) = s.(sdconf).(sdDefault) → s1.(sdworld) = s.(sdworld) →
  (s.(sdconf).(sdFallback) = s.(sdconf).(sdDefault) ∨ EqualFold s.(sdconf).(sdDefault) new = false →
   s1.(sdconf).(sdFallback) = s.(sdconf).(sdDefault)) →
  cleaned new files s1 s2 ok → cleaned new (f :: files) s s2 ok.
Proof.
  intros Hf Hd Hw Hset (Hd2 & Hf2 & Hr). rewrite Hd, Hw in *. split; [done|]. split.
  { intros p Hp. apply Hf2. destruct Hp as [Hp|Hp]; [left|by right]. intros Hin. apply Hp. by apply elem_of_cons; right. }
  intros Hok. destruct (Hr Hok) as (Hn & Hgone & Hfall). split; [done|]. split.
  - intros p [->|Hp]%elem_of_cons He; [congruence|by apply Hgone].
  - intros [Hs|[_ He]]; apply Hfall; left; apply Hset; [by left|by right].
Qed.
Lemma cleaned_removed new f files s s1 s2 ok : EqualFold (Base f) s.(sdconf).(sdDefault) = false →
  s1.(sdconf) = s.(sdconf) → (∀ p, p ≠ f → file p s1.(sdworld) = file p s.(sdworld)) → file f s1.(sdworld) = None →
  cleaned new files s1 s2 ok → cleaned new (f :: files) s s2 ok.
Proof.
  intros Hf Hc Hothers Hgone1 (Hd2 & Hf2 & Hr). rewrite Hc in *. split; [done|]. split.
  { intros p Hp. assert (p ≠ f) as Hne.
    { intros ->. destruct Hp as [Hp|Hp]; [|congruence]. apply Hp. by apply elem_of_cons; left. }
    rewrite Hf2, Hothers; [done|done|]. destruct Hp as [Hp|Hp]; [left|by right]. intros Hin. apply Hp. by apply elem_of_cons; right. }
  intros Hok. destruct (Hr Hok) as (Hn & Hgone & Hfall). split; [|split].
  - intros p Hp. apply Hn. destruct (decide (p = f)) as [->|Hne]; [done|]. by rewrite Hothers.
  - intros p [->|Hp]%elem_of_cons He; [by apply Hn|by apply Hgone].
  - intros Hcase. apply Hfall. destruct Hcase as [?|[(p & Hp & Hpe) ?]]; [by left|right]. split; [|done]. exists p. split; [|done].
    apply elem_of_cons in Hp as [->|?]; [congruence|done].
Qed.

Lemma clean_spec new files s :
  returns (for_each (clean_up new) files) s (λ s' r, cleaned new files s s' (r = inr ())).
Proof.
  revert s. induction files as [|f files IH]; intros s.
  { apply returns_ret. split; [done|]. split; [done|]. intros _. split; [done|]. split.
    - intros p Hp. by apply not_elem_of_nil in Hp.
    - intros [?|[(p & Hp & _) _]]; [done|by apply not_elem_of_nil in Hp]. }
  cbn [for_each]. apply returns_bind. apply returns_bind, returns_get. cbv zeta.
  destruct (EqualFold (Base f) (sdDefault (sdconf s))) eqn:Hf.
  - destruct (EqualFold (sdDefault (sdconf s)) new) eqn:Hnew.
    + apply returns_ret. eapply returns_mono; [|apply IH]. intros s2 r. apply cleaned_kept; [done..|]. rewrite Hnew. naive_solver.
    + apply returns_modify. eapply returns_mono; [|apply IH]. intros s2 r. by apply cleaned_kept.
  - unfold boot_call. apply returns_bind, returns_asked. intros s1 Hw1 Hs1. unfold same_conf in Hs1.
    pose proof (λ p, remove_others p f (sdworld s)) as Ho. pose proof (remove_gone f (sdworld s)) as Hg.
    destruct (os_Remove f (sdworld s)) as [w err]; cbn [fst snd] in *. subst w. destruct err as [e|].
    + apply returns_throw. split; [by rewrite Hs1|]. split; [|done]. intros p Hp. apply Ho. intros ->.
      destruct Hp as [Hp|Hp]; [|congruence]. apply Hp. by apply elem_of_cons; left.
    + apply returns_ret. eapply returns_mono; [|apply IH]. intros s2 r. apply cleaned_removed; auto.
Qed.

(** The image [name] is there, its version and that of the next one are in lower case, and
    there is an index left. *)
Record fit (opts : InstallOptions W) (w : W) (name contents : text) : Prop := {
  fit_prefix : opts.(MountPrefix) = [];
  fit_step : steps_aside opts;
  fit_tilde : tilde ∉ opts.(Version); fit_slash : "/"%char ∉ opts.(Version); fit_lower : lower opts.(Version);
  fit_name : uki_file name; fit_name_lower : lower (drop 6 name);
  fit_file : file (in_dir images name) w = Some contents;
  fit_index p : is_Some (file p w) → next_index opts.(Version) (-1) p < 2 ^ 63 - 1
}.
(** It is also the current one of the configuration. *)
Definition ready (opts : InstallOptions W) (s : sd (W:=W)) (name contents : text) : Prop :=
  fit opts s.(sdworld) name contents ∧ EqualFold name s.(sdconf).(sdDefault) = true.

(** A new image with the contents of the one to install. *)
Definition new_image (opts : InstallOptions W) (name new : text) (w : W) : Prop :=
  uki_file new ∧ EqualFold name new = false ∧
  ∃ rd, opened opts.(UKIPath) rd ∧ file (in_dir images new) w = Some (reader_text rd).
(** The current image is kept, and one that is named to be booted is there; with success it is
    the new one, and only the two are left. *)
Definition image_kept (opts : InstallOptions W) (name contents : text) (s s' : sd (W:=W)) (r : error + text) : Prop :=
  file (in_dir images name) s'.(sdworld) = Some contents ∧
  (file loader_default s'.(sdworld) = file loader_default s.(sdworld) ∨ ∃ new, new_image opts name new s'.(sdworld)) ∧
  (∀ l, r = inr l → l = s.(sdconf).(sdDefault) ∧ ∃ new, new_image opts name new s'.(sdworld) ∧ names_image s'.(sdworld) new ∧
     ∀ other, uki_file other → is_Some (file (in_dir images other) s'.(sdworld)) → EqualFold other name = true ∨ other = new).

Lemma in_dir_inj dir a b : in_dir dir a = in_dir dir b → a = b.
Proof. unfold in_dir. intros H. by do 2 apply app_inv_head in H. Qed.

(** What comes before and after the work on the partition. *)
Lemma image_kept_still opts name contents s s1 s2 s3 r : still (λ _, False) s s1 → still (λ _, False) s2 s3 →
  image_kept opts name contents s1 s2 r → image_kept opts name contents s s3 r.
Proof.
  intros [H1 Hc1] [H3 _] (Hk & Hv & Hr). assert (H1' : ∀ p, file p s1.(sdworld) = file p s.(sdworld)) by (intros p; apply H1; by intros []).
  assert (H3' : ∀ p, file p s3.(sdworld) = file p s2.(sdworld)) by (intros p; apply H3; by intros []).
  assert (Himage : ∀ new, new_image opts name new s2.(sdworld) → new_image opts name new s3.(sdworld)).
  { intros new (? & ? & rd & ? & Hf). split; [done|]. split; [done|]. exists rd. by rewrite H3'. }
  unfold same_conf in Hc1. split; [by rewrite H3'|]. split.
  - destruct Hv as [Hv|[new Hnew]]; [left; by rewrite H3', Hv, H1'|right; exists new; auto].
  - intros l Hl. destruct (Hr l Hl) as (-> & new & Hnew & (out & ? & Hvar) & Hothers). split; [by rewrite Hc1|].
    exists new. split; [auto|]. split; [exists out; unfold holds in *; by rewrite H3'|]. intros other Ho. rewrite H3'. by apply Hothers.
Qed.

Lemma sd_upgrade_spec opts s name contents : ready opts s name contents →
  returns (sd_upgrade opts) s (λ s' r, image_kept opts name contents s s' r).
Proof.
  intros [[Hp Hstep Htilde Hslash Hlower Hname Hnlower Hfile Hindex] Hcur]. unfold sd_upgrade. rewrite Hp.
  assert (Hfail : ∀ s' (e : error), file (in_dir images name) s'.(sdworld) = Some contents →
    file loader_default s'.(sdworld) = file loader_default s.(sdworld) → image_kept opts name contents s s' (inl e)).
  { intros s' e H1 H2. split; [done|]. split; [by left|done]. }
  apply returns_bind. eapply returns_mono; [|apply listUKI_spec]. intros s1 r [[H1 Hc1] Hfiles].
  assert (H1' : ∀ p, file p s1.(sdworld) = file p s.(sdworld)) by (intros p; apply H1; by intros []).
  destruct r as [e|files]; [apply Hfail; by rewrite H1'|]. specialize (Hfiles files eq_refl). unfold same_conf in Hc1.
  set (new := generateNextUKIName (Version opts) files).
  assert (Hnew : uki_file new) by (by apply next_name_file).
  assert (Hfresh : new ∉ Base <$> files).
  { apply next_name_is_new; [done|]. apply max_index_below; [lia|]. intros f Hf. apply Hindex. by apply Hfiles. }
  assert (Hlisted : in_dir images name ∈ files) by (apply Hfiles; split; [by rewrite Hfile|by exists name]).
  assert (Hdiff : EqualFold name new = false).
  { apply not_true_is_false. intros Heq. apply Hfresh. apply fold_to_next in Heq; [|done..]. fold new in Heq.
    apply list_elem_of_fmap. exists (in_dir images name). by rewrite uki_file_Base. }
  assert (Hne : in_dir images name ≠ in_dir images new).
  { intros Heq%in_dir_inj. rewrite <- Heq in Hdiff. unfold EqualFold in Hdiff. by rewrite bool_decide_true in Hdiff. }
  apply returns_bind. eapply returns_mono; [|apply clean_spec]. intros s2 r (Hd2 & Hf2 & Hr2). rewrite Hc1 in *.
  assert (Hk2 : file (in_dir images name) s2.(sdworld) = Some contents).
  { rewrite Hf2, H1'; [done|]. right. by rewrite uki_file_Base. }
  assert (Hv2 : file loader_default s2.(sdworld) = file loader_default s.(sdworld)).
  { rewrite Hf2, H1'; [done|]. left. rewrite Hfiles. intros (_ & n & Hn & _). by eapply image_not_variable. }
  destruct r as [e|[]]; [by apply Hfail|]. destruct (Hr2 eq_refl) as (Hnone & Hgone & Hfall). apply returns_bind.
  eapply returns_mono; [|by apply generate_spec]. intros s3 r [[H3 Hc3] Hdel].
  assert (H3' : ∀ p, guarded p → p ≠ in_dir images new → file p s3.(sdworld) = file p s2.(sdworld)).
  { intros p Hg Hpn. apply H3. by intros [?|?]. }
  assert (Hk3 : file (in_dir images name) s3.(sdworld) = Some contents) by (by rewrite H3' by (done || apply guarded_image)).
  assert (Hv3 : file loader_default s3.(sdworld) = file loader_default s.(sdworld)).
  { rewrite H3'; [done|by right|]. intros Heq. symmetry in Heq. by eapply image_not_variable. }
  destruct r as [e|[]]; [by apply Hfail|]. destruct (Hdel eq_refl) as (rd & Hrd & Hcontents).
  eapply returns_mono; [|by apply setup_spec]. intros s4 r [[H4 _] Hl].
  assert (H4' : ∀ n, file (in_dir images n) s4.(sdworld) = file (in_dir images n) s3.(sdworld)).
  { intros n. apply H4. intros [Heq|Hng]; [by eapply image_not_variable|by apply Hng, guarded_image]. }
  assert (Himage : new_image opts name new s4.(sdworld)) by (split; [done|]; split; [done|]; exists rd; by rewrite H4').
  split; [by rewrite H4'|]. split; [right; by exists new|]. intros l Hr. destruct (Hl l Hr) as [-> Hvar]. split.
  - unfold same_conf in Hc3. rewrite Hc3. apply Hfall. right. split.
    + exists (in_dir images name). by rewrite uki_file_Base.
    + apply not_true_is_false. intros Heq. by rewrite (EqualFold_trans _ _ _ Hcur Heq) in Hdiff.
  - exists new. split; [done|]. split; [done|]. intros other Ho Hsome. destruct (decide (other = new)) as [->|Hon]; [by right|left].
    rewrite H4', H3' in Hsome by (apply guarded_image || intros Heq%in_dir_inj; done).
    destruct (EqualFold other (sdDefault (sdconf s))) eqn:Hoc.
    { rewrite EqualFold_sym in Hcur. by eapply EqualFold_trans. }
    exfalso. destruct (decide (in_dir images other ∈ files)) as [Hin|Hin].
    + rewrite Hgone in Hsome by (done || by rewrite uki_file_Base). by destruct Hsome.
    + rewrite Hnone in Hsome; [by destruct Hsome|]. rewrite H1'. destruct (file (in_dir images other) (sdworld s)) eqn:Hof; [|done].
      exfalso. apply Hin, Hfiles. split; [by rewrite Hof|by exists other].
Qed.

Lemma fit_still opts name contents s s1 : still (λ _, False) s s1 →
  fit opts s.(sdworld) name contents → fit opts s1.(sdworld) name contents.
Proof.
  intros [H1 _] []. assert (H1' : ∀ p, file p s1.(sdworld) = file p s.(sdworld)) by (intros p; apply H1; by intros []).
  split; try done; [by rewrite H1'|intros p; rewrite H1'; auto].
Qed.

Lemma sd_Upgrade_spec opts s name contents : ready opts s name contents →
  returns (sd_Upgrade opts) s (λ s' r, image_kept opts name contents s s' r).
Proof.
  intros Hready. apply PartitionOp_spec.
  - intros s1 H1. assert (ready opts s1 name contents) as Hready1.
    { destruct Hready as [Hfit Hcur]. split; [by eapply fit_still|]. destruct H1 as [_ Hc1].
      unfold same_conf in Hc1. by rewrite Hc1. }
    eapply returns_mono; [|by apply sd_upgrade_spec]. intros s2 r H2 s3 H3. by eapply image_kept_still.
  - intros s1 e [H1 _]. destruct Hready as [[] _]. split; [by rewrite H1 by (by intros [])|]. split; [|done].
    left. apply H1. by intros [].
Qed.

(** ** A revert *)

Lemma revert_to_spec current files s :
  returns (revert_to current files) s (λ s' r, still (λ p, p = loader_default) s s' ∧
    (r = inr () → ∃ f, f ∈ files ∧ EqualFold (Base f) current = false ∧ names_image s'.(sdworld) (Base f))).
Proof.
  induction files as [|f files IH]; cbn [revert_to]; [apply returns_throw; split; [apply still_refl|done]|].
  destruct (EqualFold (Base f) current) eqn:Hf.
  - eapply returns_mono; [|exact IH]. intros s' r [H Hr]. split; [done|]. intros Hok. destruct (Hr Hok) as (g & Hg & ? & ?).
    exists g. split; [by apply elem_of_cons; right|done].
  - eapply returns_mono; [|apply WriteVariable_spec]. intros s' r [H Hr]. split; [done|]. intros Hok.
    exists f. split; [by apply elem_of_cons; left|]. split; [done|]. by apply Hr.
Qed.
(** Only the variable is written; it gets the name of an image that is not the current one. *)
Lemma sd_revert_spec s :
  returns sd_revert s (λ s' r, still (λ p, p = loader_default) s s' ∧
    (r = inr () → ∃ other, uki_file other ∧ is_Some (file (in_dir images other) s.(sdworld)) ∧
       EqualFold other s.(sdconf).(sdDefault) = false ∧ names_image s'.(sdworld) other)).
Proof.
  apply returns_bind. eapply returns_mono; [|apply listUKI_spec]. intros s1 r [H1 Hfiles].
  assert (H1' : still (λ p, p = loader_default) s s1) by (by eapply still_mono; [|exact H1]).
  destruct r as [e|files]; [by split|]. specialize (Hfiles files eq_refl). apply returns_bind, returns_get.
  eapply returns_mono; [|apply revert_to_spec]. intros s2 r [H2 Hr]. split; [by eapply still_trans|]. intros Hok.
  destruct (Hr Hok) as (f & Hf & Hne & Hnamed). apply Hfiles in Hf as (Hsome & other & -> & Ho). rewrite (uki_file_Base _ _ Ho) in *.
  exists other. destruct H1 as [_ Hc]. unfold same_conf in Hc. by rewrite <- Hc.
Qed.

(** A revert after an upgrade: the machine that boots the new image is sent back to the one it
    booted before, which is as it was. *)
Theorem sd_revert_after_upgrade opts s name contents : ready opts s name contents →
  returns (sd_Upgrade opts) s (λ s' r, ∀ l, r = inr l → ∃ new, names_image s'.(sdworld) new ∧
    ∀ s2, s2.(sdworld) = s'.(sdworld) → s2.(sdconf).(sdDefault) = new →
      returns sd_revert s2 (λ s3 r, file (in_dir images name) s3.(sdworld) = Some contents ∧
        (r = inr () → ∃ other, names_image s3.(sdworld) other ∧ EqualFold other name = true))).
Proof.
  intros Hready. eapply returns_mono; [|by apply sd_Upgrade_spec]. intros s' r (Hkept & _ & Hr) l Hl.
  destruct (Hr l Hl) as (_ & new & _ & Hnamed & Hothers). exists new. split; [done|]. intros s2 Hw Hd.
  eapply returns_mono; [|apply sd_revert_spec]. intros s3 r3 [[H3 _] Hr3]. split.
  - rewrite H3, Hw; [done|]. intros Heq. by eapply image_not_variable.
  - intros Hok. destruct (Hr3 Hok) as (other & Ho & Hsome & Hne & Hn). exists other. split; [done|]. rewrite Hw in Hsome.
    destruct (Hothers other Ho Hsome) as [?| ->]; [done|]. exfalso. rewrite Hd in Hne. unfold EqualFold in Hne.
    by rewrite bool_decide_true in Hne.
Qed.

(** ** The image that was booted *)

(** A variable of the loader has a text as its value. *)
Definition says (name value : text) (w : W) : Prop :=
  ∃ four, length four = 4%nat ∧ file (varPath ScopeSystemd name) w = Some (four ++ wide (value ++ [nul])).
(** The machine was booted from the image [name]: it is the entry the loader selected, and
    the default one when there is one. *)
Record booted_from (w : W) (name : text) : Prop := {
  booted_ascii : Forall ascii7 name;
  booted_selected : says LoaderEntrySelectedName name w;
  booted_default : says LoaderEntryDefaultName name w ∨ file loader_default w = None
}.

Lemma ReadVariable_spec name value s : Forall ascii7 value →
  says name value s.(sdworld) ∨ file (varPath ScopeSystemd name) s.(sdworld) = None →
  returns (ReadVariable name) s (λ s' r, still (λ _, False) s s' ∧ ∀ t, r = inr t → t = [] ∨ t = value).
Proof.
  intros Hascii Hsays. apply returns_bind, returns_map_err. eapply returns_mono; [|apply efi_New_spec].
  intros s1 r [H1 _]. destruct r as [e|rw]; [by split|]. apply returns_defer.
  match goal with |- returns ?c s1 _ =>
    cut (returns c s1 (λ s' r, still (λ _, False) s1 s' ∧ ∀ t, r = inr t → t = [] ∨ t = value)) end.
  { intros H. eapply returns_mono; [|exact H]. intros s2 r [H2 Hr].
    eapply returns_mono; [|apply (run (λ _, False)), modest_Close]. intros s3 r' H3. split; [|done].
    eapply still_trans; [exact H1|]. by eapply still_trans. }
  apply returns_bind, returns_try. eapply returns_mono; [|apply rw_Read_spec]. intros s2 r [H2 Hr].
  destruct r as [e|[data attrs]].
  { destruct (errors_Is _ e); [|by apply returns_throw]. apply returns_ret. split; [done|]. intros t [= <-]. by left. }
  destruct (Hr data attrs eq_refl) as (four & Hfour & _ & Hfile).
  destruct H1 as [H1 _]. rewrite H1 in Hfile by (by intros []).
  destruct Hsays as [(four' & Hfour' & Hsays)|Hnone]; [|congruence]. rewrite Hfile in Hsays.
  injection Hsays as Hdata. apply app_inj_1 in Hdata as [_ ->]; [|congruence].
  apply returns_bind, returns_of_result.
  rewrite decode_ascii by (apply Forall_app; split; [done|by repeat constructor]).
  case_bool_decide; [by apply returns_throw|]. apply returns_ret. split; [done|]. intros t [= <-]. right.
  apply TrimSuffix_app.
Qed.

Lemma find_booted files name entry t :
  (∀ p, p ∈ files → ∃ n, p = in_dir images n ∧ uki_file n) → entry = [] ∨ entry = name →
  findMatchingUKIFile files entry = Some t → t = name.
Proof.
  intros Hfiles Hentry. unfold findMatchingUKIFile. destruct (existsb _ files) eqn:Hex; [|done].
  intros [= <-]. destruct Hentry as [-> |Hentry]; [|done]. exfalso.
  apply existsb_exists in Hex as (p & Hp%list_elem_of_In & Heq). destruct (Hfiles p Hp) as (n & -> & Hn).
  rewrite uki_file_Base in Heq by done. unfold EqualFold in Heq. apply bool_decide_eq_true in Heq.
  apply uki_file_ne in Hn. by destruct n.
Qed.

(** What the probe finds is the image that was booted. *)
Lemma sd_probe_spec name s : booted_from s.(sdworld) name →
  returns (sd_probe (λ _, mret ())) s (λ s' r, still (λ _, False) s s' ∧ ∀ c, r = inr c → c.(sdDefault) = name).
Proof.
  intros [Hascii Hsel Hdef]. unfold sd_probe. apply returns_bind.
  eapply returns_mono; [|apply (run (λ _, False)), modest_query; intros; apply glob_boot_file].
  intros s1 r H1. destruct r as [e|boots]; [by split|]. case_bool_decide; [by apply returns_throw|].
  apply returns_bind. eapply returns_mono; [|apply listUKI_spec]. intros s2 r [H2 Hfiles].
  pose proof (still_trans _ _ _ _ H1 H2) as H02. destruct r as [e|files]; [by split|].
  assert (Hukis : ∀ p, p ∈ files → ∃ n, p = in_dir images n ∧ uki_file n)
    by (intros p Hp; by apply (Hfiles files eq_refl) in Hp as [_ Hp]).
  case_bool_decide; [by apply returns_throw|]. apply returns_bind.
  eapply returns_mono; [|apply (ReadVariable_spec _ name); [done|]].
  2: { unfold says. destruct H02 as [H02 _]. by rewrite H02 by (by intros []). }
  intros s3 r [H3 Hd]. pose proof (still_trans _ _ _ _ H02 H3) as H03. destruct r as [e|default]; [by split|].
  apply returns_bind. eapply returns_mono; [|apply (ReadVariable_spec _ name); [done|]].
  2: { left. unfold says. destruct H03 as [H03 _]. by rewrite H03 by (by intros []). }
  intros s4 r [H4 Hl]. pose proof (still_trans _ _ _ _ H03 H4) as H04. destruct r as [e|selected]; [by split|].
  specialize (Hd default eq_refl). specialize (Hl selected eq_refl).
  case_bool_decide; [by apply returns_throw|].
  destruct (findMatchingUKIFile files default) as [entry|] eqn:Hfind;
    [|destruct (findMatchingUKIFile files selected) as [entry|] eqn:Hfind'; [|by apply returns_throw]].
  all: apply returns_bind, returns_ret, returns_ret; (split; [done|]); intros c [= <-]; cbn [sdDefault].
  - exact (find_booted files name default entry Hukis Hd Hfind).
  - exact (find_booted files name selected entry Hukis Hl Hfind').
Qed.

Lemma sd_Probe_spec disk name s : booted_from s.(sdworld) name →
  returns (sd_Probe disk) s (λ s' r, still (λ _, False) s s' ∧ ∀ c, r = inr (Some c) → c.(sdDefault) = name).
Proof.
  intros Hb. apply returns_bind. eapply returns_mono; [|apply (run (λ _, False))].
  2: { apply modest_bind; [apply modest_ask; intros; apply stat_file|intros; apply modest_ret]. }
  intros s1 r H1. destruct r as [e|uefi]; [by split|]. destruct uefi; [|by apply returns_ret]. cbn [negb].
  apply returns_bind, returns_try. apply PartitionOp_spec.
  - intros s2 H2. pose proof (still_trans _ _ _ _ H1 H2) as H02.
    eapply returns_mono; [|apply (sd_probe_spec name)].
    2: { destruct H02 as [H02 _], Hb as [Ha Hs Hd]. unfold says in *.
         split; [done|..]; unfold says; by rewrite !H02 by (by intros []). }
    intros s3 r [H3 Hr] s4 H4. pose proof (still_trans _ _ _ _ H02 (still_trans _ _ _ _ H3 H4)) as H04.
    destruct r as [e|c]; [destruct (TagIs_NotFound e); [by apply returns_ret|by apply returns_throw]|].
    apply returns_ret. split; [done|]. intros c' [= <-]. by apply Hr.
  - intros s2 e H2. pose proof (still_trans _ _ _ _ H1 H2) as H02.
    destruct (TagIs_NotFound e); [by apply returns_ret|by apply returns_throw].
Qed.

(** ** The images through an upgrade *)

(** C14: an upgrade keeps the image the machine was booted from: the one the loader
    selected, which is also its default one when it has a default. The probe takes it for
    the current one, and, whatever fails then, the upgrade leaves it as it is and does not
    touch the variable that names the image to boot before the new one is in place under a
    new name. When it succeeds the variable names the new image, the booted one is returned
    as the previous one, and no other image is left. When the default is another image, the
    booted one is removed ([SdExamples.upgraded_selected]). *)
Theorem sd_upgrade_keeps_image disk opts s name contents :
  fit opts s.(sdworld) name contents → booted_from s.(sdworld) name →
  returns (sd_Probe disk) s (λ s1 found, ∀ c, found = inr (Some c) →
    returns (sd_Upgrade opts) {| sdworld := s1.(sdworld); sdconf := c |} (λ s' r,
      file (in_dir images name) s'.(sdworld) = Some contents ∧
      (file loader_default s'.(sdworld) = file loader_default s.(sdworld) ∨ ∃ new, new_image opts name new s'.(sdworld)) ∧
      (∀ l, r = inr l → l = name ∧ ∃ new, new_image opts name new s'.(sdworld) ∧ names_image s'.(sdworld) new ∧
         ∀ other, uki_file other → is_Some (file (in_dir images other) s'.(sdworld)) →
           EqualFold other name = true ∨ other = new))).
Proof.
  intros Hfit Hb. eapply returns_mono; [|by apply sd_Probe_spec]. intros s1 r [H1 Hc] c Hr.
  specialize (Hc c Hr). eapply returns_mono; [|apply (sd_Upgrade_spec opts _ name contents)].
  - intros s' r' (Hk & Hv & Hl). destruct H1 as [H1 _]. split; [done|]. split.
    + destruct Hv as [Hv|?]; [left|by right]. rewrite Hv. apply H1. by intros [].
    + intros l Hrl. destruct (Hl l Hrl) as [-> ?]. split; [exact Hc|done].
  - split; [exact (fit_still _ _ _ s s1 H1 Hfit)|]. simpl. rewrite Hc. unfold EqualFold. by apply bool_decide_eq_true.
Qed.
End safety.
