(* ===== verification/SdExamples.v ===== *)
(** * systemd-boot on a table of files

    The disk of GrubExamples.v with EFI variables on it: names of images of the tests, an
    upgrade, and which image is taken for the current one. *)

From Stdlib Require Import Ascii.
From S2P Require Import Prelude Errors Text TextFacts GrubConfig BootMount Grub BootFrame GrubExamples Efi EfiCodec.
From S2P Require Import UkiName EfiVars SdBoot SdSafety.

(** ** Names, as in the tests *)

Definition next_name (version : string) (existing : list string) : string :=
  String.string_of_list_ascii (generateNextUKIName (lit version) (lit <$> existing)).
Definition dirty : string := "v1.11.0-alpha.3-40-ge4c24983e-dirty".
Example names_of_tests :
  [next_name "1.10.0" []; next_name "1.10.0" ["Talos-1.10.0.efi"]; next_name "1.10.0" ["Talos-1.10.0.efi"; "Talos-1.10.0~1.efi"];
   next_name "1.10.0" ["Talos-1.10.0~1.efi"; "Talos-1.10.0~2.efi"]; next_name "1.10.0" ["Talos-1.10.0~1.efi"; "Talos-1.10.0~3.efi"];
   next_name "1.10.0" ["Talos-1.10.0.efi"; "Talos-1.10.0~2.efi"]; next_name "1.11.0" ["Talos-1.10.0.efi"];
   next_name "1.11.0" ["Talos-1.10.0.efi"; "Talos-1.10.0~1.efi"]; next_name "1.10.0" ["Talos-1.10.0.efi"; "Talos-1.11.0.efi"];
   next_name "1.10.0" ["Talos-1.10.0~1.efi"; "Talos-1.11.0.efi"]; next_name "1.10.0" ["Chubo-1.10.0.efi"; "Talos-1.10.0~1.efi"];
   next_name dirty ["Talos-" ++ dirty ++ ".efi"]%string;
   next_name dirty ["Talos-" ++ dirty ++ "~1.efi"; "Talos-" ++ dirty ++ ".efi"]%string] =
  ["Chubo-1.10.0.efi"; "Chubo-1.10.0~1.efi"; "Chubo-1.10.0~2.efi"; "Chubo-1.10.0~3.efi"; "Chubo-1.10.0~4.efi"; "Chubo-1.10.0~3.efi";
   "Chubo-1.11.0.efi"; "Chubo-1.11.0.efi"; "Chubo-1.10.0~1.efi"; "Chubo-1.10.0~2.efi"; "Chubo-1.10.0~2.efi";
   "Chubo-v1.11.0-alpha.3-40-ge4c24983e-dirty~1.efi"; "Chubo-v1.11.0-alpha.3-40-ge4c24983e-dirty~2.efi"].
Proof. vm_compute. reflexivity. Qed.
(** The separator of the comments of the code is no separator. *)
Example plus_is_no_separator : next_name "1.10.0" ["Chubo-1.10.0+1.efi"] = "Chubo-1.10.0.efi".
Proof. vm_compute. reflexivity. Qed.

(** ** Variables and images in the table *)

Notation table := (gmap text text).

(** The names of the files right under a directory. *)
Definition under (dir : text) (w : table) : list text :=
  omap (λ p, if HasPrefix p (dir ++ slash) then
               let name := drop (length (dir ++ slash)) p in if bool_decide ("/"%char ∈ name) then None else Some name
             else None) (map_to_list w).*1.
#[export] Instance table_efi : EfiWorld table := {|
  os_Remove p w := (delete p w, match w !! p with Some _ => None | None => Some no_file end);
  os_ReadDir d w := (w, inr ((λ n, (n, false)) <$> under d w));
  chattr_immutable _ _ w := (w, None);
  f_Write f t w := (<[f := default [] (w !! f) ++ t]> w, None);
  efivarfs_remount _ w := (w, None)
|}.
#[export] Program Instance table_efi_files : EfiFiles table_files.
Solve Obligations with by intros.
Next Obligation. intros p q w Hne. by apply lookup_delete_ne. Qed.
Next Obligation. intros q w _. apply lookup_delete_eq. Qed.
Next Obligation. intros p f t w Hne. by apply lookup_insert_ne. Qed.
Next Obligation. intros f t w _ Hold. simpl in *. by rewrite Hold, lookup_insert_eq. Qed.

Definition glob_match (dir pre p : text) : bool :=
  HasPrefix p (in_dir dir pre) &&
  let rest := drop (length (in_dir dir pre)) p in HasSuffix rest efi_suffix && bool_decide ("/"%char ∉ TrimSuffix rest efi_suffix).
Lemma glob_match_spec dir pre p :
  glob_match dir pre p = true ↔ ∃ middle, p = in_dir dir (pre ++ middle ++ efi_suffix) ∧ "/"%char ∉ middle.
Proof.
  unfold glob_match, in_dir. split.
  - intros [[rest ->]%bool_decide_eq_true H]%andb_true_iff. rewrite drop_app_length in H.
    apply andb_true_iff in H as [[k Hk]%bool_decide_eq_true H]. apply (f_equal reverse) in Hk.
    rewrite reverse_app, !reverse_involutive in Hk. subst rest. rewrite TrimSuffix_app in H. apply bool_decide_eq_true in H.
    exists (reverse k). by rewrite <- !app_assoc.
  - intros (m & -> & Hm). rewrite !app_assoc, <- (app_assoc _ m). rewrite <- (app_assoc dir), HasPrefix_app, drop_app_length.
    unfold HasSuffix. rewrite reverse_app, HasPrefix_app, TrimSuffix_app. by apply bool_decide_eq_true.
Qed.
Definition glob (dir pre : text) (w : table) : list text := filter (λ p, glob_match dir pre p = true) (map_to_list w).*1.

Definition sd_disk : DiskInfo := {|
  diskName := lit "sda"; SectorSize := 512;
  Parts := [{| partLabel := Some EFIPartitionLabel; partIndex := 1; partUUID := Some uuid_x500; partOffset := 1048576; partSize := 2202009600 |};
            {| partLabel := Some BootPartitionLabel; partIndex := 2; partUUID := None; partOffset := 0; partSize := 0 |}]
|}.
#[export] Instance table_sd : SdWorld table := {|
  filepath_Glob dir pre w := (w, inr (glob dir pre w));
  glob_boot dir w := (w, inr (glob dir (lit "BOOT") w));
  probe_disk _ w := (w, inr sd_disk);
  MemfdCreate _ w := (w, inl no_file);
  seek_start f w := (w, table_read f w);
  GetSecureBoot w := (w, false)
|}.
#[export] Program Instance table_sd_files : SdFiles table_files.
Solve Obligations with by intros.
Next Obligation.
  intros dir pre w files p. simpl. intros [= <-]. unfold glob. rewrite list_elem_of_filter, glob_match_spec, list_elem_of_fmap.
  split.
  - intros (? & [q v] & -> & Hin). split; [|done]. apply elem_of_map_to_list in Hin. by exists v.
  - intros [[v Hv] ?]. split; [done|]. exists (p, v). split; [done|]. by apply elem_of_map_to_list.
Qed.
Next Obligation. intros disk w info [= <-]. done. Qed.

(** ** An upgrade *)

Definition old_image : text := lit "Chubo-v1.0.0.efi".
Definition current_image : text := lit "Chubo-v1.1.0.efi".
Definition variable (value : text) : text := le_bytes 4 7 ++ wide value ++ [nul; nul].
(** The default is the second image; [selected] is the one the loader has booted. *)
Definition sd_table (selected : text) : table :=
  {[ in_dir (linux_dir []) old_image := lit "uki-0"; in_dir (linux_dir []) current_image := lit "uki-1";
     lit "/boot/EFI/EFI/boot/BOOTX64.efi" := lit "sd-boot"; lit "/sys/firmware/efi/runtime" := [];
     varPath ScopeSystemd LoaderEntryDefaultName := variable current_image;
     varPath ScopeSystemd LoaderEntrySelectedName := variable selected;
     lit "/usr/install/vmlinuz.efi" := lit "uki-2"; lit "/usr/install/systemd-boot.efi" := lit "sd-boot" ]}.
Definition sd_options : InstallOptions table := {|
  BootDisk := lit "/dev/sda"; Arch := amd64; optCmdline := []; GrubUseUKICmdline := false;
  Version := lit "v1.2.0"; ImageMode := false; MountPrefix := [];
  KernelPath := []; InitramfsPath := []; UKIPath := lit "/usr/install/vmlinuz.efi"; SDBootPath := lit "/usr/install/systemd-boot.efi";
  ExtraInstallStep := None; BlkidInfo := None
|}.
Definition booted : sd (W:=table) := {| sdworld := sd_table current_image; sdconf := {| sdDefault := []; sdFallback := [] |} |}.

Lemma booted_fit : fit (BF:=table_files) sd_options booted.(sdworld) current_image (lit "uki-1").
Proof.
  assert (Hindexes : map_Forall (λ p _, next_index (lit "v1.2.0") (-1) p < 2 ^ 63 - 1) (sd_table current_image))
    by (apply (bool_decide_unpack _); vm_compute; exact I).
  split.
  - done.
  - by intros step.
  - apply (bool_decide_unpack _). vm_compute. exact I.
  - apply (bool_decide_unpack _). vm_compute. exact I.
  - apply (bool_decide_unpack _). vm_compute. exact I.
  - exists UKIPrefix, (lit "v1.1.0"). split; [by left|]. split; [done|]. apply (bool_decide_unpack _). vm_compute. exact I.
  - apply (bool_decide_unpack _). vm_compute. exact I.
  - vm_compute. reflexivity.
  - intros p [v Hv]. exact (Hindexes p v Hv).
Qed.
Lemma booted_image : booted_from (BF:=table_files) booted.(sdworld) current_image.
Proof.
  assert (Hascii : forallb (λ c, byte_value c <? 128) current_image = true) by (vm_compute; reflexivity).
  split.
  - apply Forall_forall. intros c Hc%list_elem_of_In. rewrite forallb_forall in Hascii.
    unfold ascii7. by apply Z.ltb_lt, Hascii.
  - exists (le_bytes 4 7). split; [done|]. vm_compute. reflexivity.
  - left. exists (le_bytes 4 7). split; [done|]. vm_compute. reflexivity.
Qed.

Definition is_found {A B} (r : outcome Empty_set (A * (error + option B))) : bool :=
  match r with Ok (_, inr (Some _)) => true | _ => false end.
Lemma is_found_inv {A B} (r : outcome Empty_set (A * (error + option B))) :
  is_found r = true → ∃ a b, r = Ok (a, inr (Some b)).
Proof. destruct r as [[a [e|[b|]]]|[]|]; try done. by exists a, b. Qed.
Lemma found_booted : is_found (sd_Probe (lit "/dev/sda") booted) = true.
Proof. vm_compute. reflexivity. Qed.

Lemma sd_upgrade_keeps_image_witness :
  fit (BF:=table_files) sd_options booted.(sdworld) current_image (lit "uki-1") ∧
  booted_from (BF:=table_files) booted.(sdworld) current_image ∧
  ∃ s1 c, sd_Probe (lit "/dev/sda") booted = Ok (s1, inr (Some c)) ∧
  returns (sd_Upgrade sd_options) {| sdworld := s1.(sdworld); sdconf := c |} (λ s' r,
    file (in_dir (linux_dir []) current_image) s'.(sdworld) = Some (lit "uki-1") ∧
    (file (varPath ScopeSystemd LoaderEntryDefaultName) s'.(sdworld) =
       file (varPath ScopeSystemd LoaderEntryDefaultName) booted.(sdworld) ∨
     ∃ new, new_image sd_options current_image new s'.(sdworld)) ∧
    (∀ l, r = inr l → l = current_image ∧ ∃ new, new_image sd_options current_image new s'.(sdworld) ∧
       names_image s'.(sdworld) new ∧
       ∀ other, uki_file other → is_Some (file (in_dir (linux_dir []) other) s'.(sdworld)) →
         EqualFold other current_image = true ∨ other = new)).
Proof.
  split; [exact booted_fit|]. split; [exact booted_image|].
  destruct (is_found_inv _ found_booted) as (s1 & c & Hfound). exists s1, c. split; [exact Hfound|].
  destruct (sd_upgrade_keeps_image (lit "/dev/sda") sd_options booted current_image (lit "uki-1")
    booted_fit booted_image) as (s1' & r & Hrun & H).
  rewrite Hfound in Hrun. injection Hrun as <- <-. exact (H c eq_refl).
Defined.

(** ** Runs *)

(** Which images are there, and what the variable names. *)
Definition images_of (w : table) : list string :=
  (λ n, String.string_of_list_ascii n) <$> filter (λ n, HasSuffix n efi_suffix = true) (under (linux_dir []) w).
Definition named (w : table) : string :=
  String.string_of_list_ascii (decode_pairs (drop 4 (default [] (w !! varPath ScopeSystemd LoaderEntryDefaultName)))).
Definition with_config (w : table) (c : SdConfig) : sd := {| sdworld := w; sdconf := c |}.
(** The disk is probed, and what it holds is upgraded. *)
Definition probed_upgrade (w : table) : option (string * list string * string * (error + string)) :=
  match sd_Probe (lit "/dev/sda") (with_config w {| sdDefault := []; sdFallback := [] |}) with
  | Ok (s, inr (Some c)) =>
      match sd_Upgrade sd_options (with_config s.(sdworld) c) with
      | Ok (s', r) => Some (String.string_of_list_ascii c.(sdDefault), images_of s'.(sdworld), named s'.(sdworld),
                            match r with inl e => inl e | inr l => inr (String.string_of_list_ascii l) end)
      | _ => None
      end
  | _ => None
  end.
Definition zero : string := String "000"%char EmptyString.
Example upgraded_default :
  probed_upgrade (sd_table current_image) =
    Some ("Chubo-v1.1.0.efi", ["Chubo-v1.2.0.efi"; "Chubo-v1.1.0.efi"], ("Chubo-v1.2.0.efi" ++ zero)%string, inr "Chubo-v1.1.0.efi").
Proof. vm_compute. reflexivity. Qed.
(** The machine was booted from the other image, which was chosen by hand: that image is
    removed, since the default one is taken for the current one. *)
Example upgraded_selected :
  probed_upgrade (sd_table old_image) =
    Some ("Chubo-v1.1.0.efi", ["Chubo-v1.2.0.efi"; "Chubo-v1.1.0.efi"], ("Chubo-v1.2.0.efi" ++ zero)%string, inr "Chubo-v1.1.0.efi").
Proof. vm_compute. reflexivity. Qed.
