(* ===== verification/Bootloader.v ===== *)
(** * The bootloader of a machine

    [runtime/v1alpha1/bootloader/bootloader.go]: which bootloader a disk has, the interface
    all of them implement, and the removal of the one that is not used; dual boot
    (bootloader/dual/dual.go), which only makes the assets of images. *)

From Stdlib Require Import Ascii.
From S2P Require Import Prelude Errors Text GrubConfig BootMount Grub Efi UkiName EfiVars SdBoot Versions.

(** ** The world *)

(** Disks with a partition table, as [go-blockdevice] has them. *)
Class GptWorld (W : Type) := {
  GptTable : Type;
  blk_open : text → W → W * option error;                       (** for writing *)
  blk_lock : text → W → W * option error;
  blk_unlock : text → W → W * option error;
  blk_close : text → W → W * option error;
  gpt_Device : text → W → W * option error;
  gpt_Read : text → W → W * (error + GptTable);
  WipeRange : text → Z → Z → W → W * option error;
  Partitions : GptTable → list (option text);                   (** names; [nil] entries are none *)
  DeletePartition : nat → GptTable → error + GptTable;
  gpt_Write : text → GptTable → W → W * option error;
  os_RemoveAll : text → W → W * option error
}.

(** [DeletePartition] of an index with a partition. *)
Class GptLaws {W : Type} (G : GptWorld W) := {
  deleted_partition i t t' : DeletePartition i t = inr t' → Partitions t' = <[i := None]> (Partitions t)
}.

(** The implementations of the interface [Bootloader]; methods may change what they are of. *)
Inductive Bootloader := GrubLoader (c : Config) | SdLoader (c : SdConfig) | DualLoader.

Section bootloader.
Context {W : Type} `{SW : SdWorld W} `{U : Utf16} {G : GptWorld W} `{V : Semver}.
Context (order : gmap text MenuEntry → list text).
Notation ctl := (prog W error).

Definition wask {A} (f : W → W * A) : ctl A := λ w, let '(w, a) := f w in Ok (w, inr a).
Notation wcall := (boot_call (@wask)).
Notation wquery := (boot_query (@wask)).

(** A method of a configuration of one kind; what it was changed to is dropped with an error. *)
Definition of_grub {A} (c : Config) (p : prog (grub (W:=W)) error A) : ctl (A * Config) := λ w,
  match p {| gworld := w; conf := c; written_config := [] |} with
  | Ok (s, inl e) => Ok (s.(gworld), inl e)
  | Ok (s, inr a) => Ok (s.(gworld), inr (a, s.(conf)))
  | Err e => match e with end
  | Panic r => Panic r
  end.
Definition of_sd {A} (c : SdConfig) (p : prog (sd (W:=W)) error A) : ctl (A * SdConfig) := λ w,
  match p {| sdworld := w; sdconf := c |} with
  | Ok (s, inl e) => Ok (s.(sdworld), inl e)
  | Ok (s, inr a) => Ok (s.(sdworld), inr (a, s.(sdconf)))
  | Err e => match e with end
  | Panic r => Panic r
  end.
Definition sd_New : SdConfig := {| sdDefault := []; sdFallback := [] |}.

(** ** Which one *)

Definition ErrNotExist_boot : error := Sentinel "ErrNotExist".
Definition loader_Probe (disk : text) : ctl Bootloader :=
  '(grubBootloader, _) ← of_grub NewConfig (Probe disk);
  match grubBootloader with
  | Some c => mret (GrubLoader c)
  | None =>
      '(sdbootBootloader, _) ← of_sd sd_New (sd_Probe disk);
      match sdbootBootloader with Some c => mret (SdLoader c) | None => throw ErrNotExist_boot end
  end.
Definition NewAuto : ctl Bootloader :=
  '(uefi, _) ← of_sd sd_New IsUEFIBoot;
  mret (if (uefi : bool) then SdLoader sd_New else GrubLoader NewConfig).
Definition loader_New (bootloader talosVersion : text) : error + Bootloader :=
  if bool_decide (bootloader = kind_String BootLoaderKindGrub) then
    inr (GrubLoader {| Default := NewConfig.(Default); Fallback := NewConfig.(Fallback); Entries := NewConfig.(Entries);
                       AddResetOption := SupportsResetGRUBOption (quirks_New talosVersion) |})
  else if bool_decide (bootloader = kind_String BootLoaderKindSDBoot) then inr (SdLoader sd_New)
  else if bool_decide (bootloader = kind_String BootLoaderKindDualBoot) then inr DualLoader
  else inl (Errorf "unsupported bootloader %q" [text_arg bootloader]).

(** ** Dual boot *)

Definition dual_GenerateAssets (opts : InstallOptions W) : ctl (list partition_request) :=
  if bool_decide (opts.(Arch) = lit "arm64") then
    throw (Errorf "dual-boot bootloader is not supported on arm64 architecture, either GRUB or sd-boot must be used" [])
  else
    _ ← wrapf "failed to install GRUB bootloader: %w" (of_grub NewConfig (GenerateAssets order opts));
    _ ← wrapf "failed to cleanup GRUB EFI assets directory: %w" (wcall (os_RemoveAll (Join [opts.(MountPrefix); EFIMountPoint])));
    _ ← wrapf "failed to generate sd-boot assets: %w" (of_sd sd_New (sd_GenerateAssets opts));
    let request label source := {| reqLabel := label; reqSource := source; reqReproducible := opts.(ImageMode) |} in
    mret [request EFIPartitionLabel (Some (Join [opts.(MountPrefix); lit "EFI"]));
          request BIOSGrubPartitionLabel None;
          request BootPartitionLabel (Some (Join [opts.(MountPrefix); BootMountPoint]))].
Definition dual_error (what : string) : error :=
  Errorf ("dual-boot bootloader is only supported in image mode, " +:+ what +:+ " is not implemented")%string [].

(** ** The interface *)

Definition loader_GenerateAssets (l : Bootloader) (opts : InstallOptions W) : ctl (list partition_request * Bootloader) :=
  match l with
  | GrubLoader c => '(a, c) ← of_grub c (GenerateAssets order opts); mret (a, GrubLoader c)
  | SdLoader c => '(a, c) ← of_sd c (sd_GenerateAssets opts); mret (a, SdLoader c)
  | DualLoader => a ← dual_GenerateAssets opts; mret (a, DualLoader)
  end.
(** The result names the previous label. *)
Definition loader_Install (l : Bootloader) (opts : InstallOptions W) : ctl (text * Bootloader) :=
  match l with
  | GrubLoader c => '(a, c) ← of_grub c (Install opts); mret (a, GrubLoader c)
  | SdLoader c => '(a, c) ← of_sd c (sd_Install opts); mret (a, SdLoader c)
  | DualLoader => throw (dual_error "installation")
  end.
Definition loader_Upgrade (l : Bootloader) (opts : InstallOptions W) : ctl (text * Bootloader) :=
  match l with
  | GrubLoader c => '(a, c) ← of_grub c (Upgrade order opts); mret (a, GrubLoader c)
  | SdLoader c => '(a, c) ← of_sd c (sd_Upgrade opts); mret (a, SdLoader c)
  | DualLoader => throw (dual_error "upgrade")
  end.
Definition loader_Revert (l : Bootloader) (disk : text) : ctl () :=
  match l with
  | GrubLoader c => _ ← of_grub c (Revert order (Some c) disk); mret ()
  | SdLoader c => _ ← of_sd c (sd_Revert disk); mret ()
  | DualLoader => throw (dual_error "revert")
  end.
Definition loader_KexecLoad (l : Bootloader) (disk : text) : ctl () :=
  match l with
  | GrubLoader c => _ ← of_grub c (KexecLoad disk); mret ()
  | SdLoader c => _ ← of_sd c (sd_KexecLoad disk); mret ()
  | DualLoader => throw (dual_error "kexec load")
  end.

(** ** The one that is not used *)

(** The loop over the partitions, which are those of the table at the start. *)
Fixpoint delete_named (labels : list text) (parts : list (option text)) (i : nat) (t : GptTable) : error + GptTable :=
  match parts with
  | [] => inr t
  | None :: parts => delete_named labels parts (S i) t
  | Some name :: parts =>
      match fold_left (λ r label,
        match r with
        | inl e => inl e
        | inr t =>
            if bool_decide (name = label) then
              match DeletePartition i t with
              | inl e => inl (Errorf "failed to delete partition %s %d: %w" [text_arg name; Int (Z.of_nat i); Wrapped e])
              | inr t => inr t
              end
            else inr t
        end) labels (inr t)
      with
      | inl e => inl e
      | inr t => delete_named labels parts (S i) t
      end
  end.
Definition deletePartitions (t : GptTable) (labels : list text) : error + GptTable := delete_named labels (Partitions t) 0 t.

Definition CleanupBootloader (disk : text) (sdboot : bool) : ctl () :=
  _ ← wcall (blk_open disk);
  with_defer (_ ← wask (blk_close disk); mret ())
    (_ ← wrapf "failed to lock device: %w" (wcall (blk_lock disk));
     with_defer (_ ← wask (blk_unlock disk); mret ())
       (_ ← wrapf "failed to get GPT device: %w" (wcall (gpt_Device disk));
        gptTable ← wrapf "failed to read GPT: %w" (wquery (gpt_Read disk));
        gptTable ← (if sdboot then
            _ ← wrapf "failed to wipe MBR: %w" (wcall (WipeRange disk 0 446));
            of_result (deletePartitions gptTable [BIOSGrubPartitionLabel; BootPartitionLabel])
          else of_result (deletePartitions gptTable [EFIPartitionLabel]));
        wrapf "failed to write GPT: %w" (wcall (gpt_Write disk gptTable)))).
End bootloader.

Section cleanup.
Context {W : Type} {G : GptWorld W} {L : GptLaws G}.

Definition without (labels : list text) (part : option text) : option text :=
  match part with Some name => if bool_decide (name ∈ labels) then None else Some name | None => None end.

Lemma delete_once (name : text) i (labels : list text) (t t' : GptTable) e0 : NoDup labels →
  fold_left (λ r (label : text), match r with
    | inl e => inl e
    | inr t => if bool_decide (name = label) then
                 match DeletePartition i t with inl e => inl (e0 e) | inr t => inr t end else inr t
    end) labels (inr t) = (inr t' : error + GptTable) →
  Partitions t' = if bool_decide (name ∈ labels) then <[i := None]> (Partitions t) else Partitions t.
Proof.
  revert t. induction labels as [|l labels IH]; intros t Hnd; cbn [fold_left].
  { intros [= <-]. by rewrite bool_decide_false by apply not_elem_of_nil. }
  apply NoDup_cons in Hnd as [Hl Hnd]. destruct (decide (name = l)) as [->|Hne].
  - rewrite (bool_decide_true (l = l)), (bool_decide_true (l ∈ l :: labels)) by (done || by apply elem_of_cons; left).
    destruct (DeletePartition i t) as [e|t1] eqn:Hd.
    { intros Hf. exfalso. clear IH Hl Hnd. revert Hf. by induction labels. }
    intros Hf. apply IH in Hf; [|done]. rewrite bool_decide_false in Hf by done. rewrite Hf. by eapply deleted_partition.
  - rewrite (bool_decide_false (name = l)) by done. intros Hf. apply IH in Hf; [|done]. rewrite Hf.
    destruct (decide (name ∈ labels)) as [Hin|Hin].
    + by rewrite !bool_decide_true by (done || by apply elem_of_cons; right).
    + rewrite !bool_decide_false; [done| |done]. intros [?|?]%elem_of_cons; done.
Qed.

(** Exactly the partitions with one of the labels are deleted. *)
Lemma deletePartitions_spec t labels t' : NoDup labels → deletePartitions t labels = inr t' →
  Partitions t' = without labels <$> Partitions t.
Proof.
  intros Hnd. unfold deletePartitions.
  enough (∀ parts pre t, Partitions t = pre ++ parts → delete_named labels parts (length pre) t = inr t' →
            Partitions t' = pre ++ (without labels <$> parts)) as H.
  { intros Hd. by apply (H (Partitions t) [] t). }
  clear t. induction parts as [|part parts IH]; intros pre t Ht; cbn [delete_named].
  { by intros [= <-]. }
  assert (Hstep : ∀ t1 q, Partitions t1 = pre ++ q :: parts → delete_named labels parts (S (length pre)) t1 = inr t' →
    Partitions t' = pre ++ q :: (without labels <$> parts)).
  { intros t1 q Ht1 Hd. rewrite (cons_middle q), app_assoc. apply (IH (pre ++ [q]) t1).
    - by rewrite <- app_assoc.
    - rewrite length_app. cbn. by replace (length pre + 1)%nat with (S (length pre)) by lia. }
  destruct part as [name|]; [|by apply Hstep].
  destruct (fold_left _ labels (inr t)) as [e|t1] eqn:Hf; [done|]. apply delete_once in Hf; [|done].
  cbn [fmap list_fmap without]. apply Hstep. rewrite Hf, Ht. case_bool_decide; [|done].
  rewrite insert_app_r_alt by lia. by rewrite Nat.sub_diag.
Qed.

(** What the cleanup for the other bootloader writes: the table it has read, without the
    partitions that only the unused one needs. *)
Theorem unused_bootloader_removed (t t' : GptTable) (sdboot : bool) :
  let labels := if sdboot then [BIOSGrubPartitionLabel; BootPartitionLabel] else [EFIPartitionLabel] in
  deletePartitions t labels = inr t' →
  Partitions t' = without labels <$> Partitions t ∧
  Forall (λ part, ∀ name, part = Some name → name ∉ labels) (Partitions t').
Proof.
  intros labels Hd. assert (NoDup labels) as Hnd by (destruct sdboot; apply (bool_decide_unpack _); by vm_compute).
  apply deletePartitions_spec in Hd; [|done]. split; [done|]. rewrite Hd. apply Forall_forall.
  intros part (p & -> & _)%list_elem_of_fmap name. unfold without. destruct p as [q|]; [|done].
  case_bool_decide; [done|]. by intros [= ->].
Qed.
End cleanup.
