(* ===== verification/Update.v ===== *)
(** * Updates that fail are taken back

    An upgrade puts the label to go back to into META ([handleMeta] of
    [cmd/installer/pkg/install/install.go]); a boot that fails reverts the bootloader when
    the label is there ([app/machined/revert.go]), and one that succeeds drops it
    ([controllers/runtime/drop_upgrade_fallback.go]).  The steps of an upgrade by the
    installer are those of [Install] in the mode [ModeUpgrade]. *)

From Stdlib Require Import Ascii.
From S2P Require Import Prelude Bytes MetaAdv SyslinuxAdv Meta Errors MetaUse.
From S2P Require Import Text GrubConfig BootMount Grub Efi UkiName EfiVars SdBoot Versions Bootloader.

(** [metaconsts.Upgrade]. *)
Definition Upgrade_tag : Z := 6.
(** The bytes of a Go string. *)
Definition bytes_of (s : text) : list Z := byte_value <$> s.

Inductive Mode := ModeInstall | ModeUpgrade | ModeImage.
Definition IsImage (m : Mode) : bool := match m with ModeImage => true | _ => false end.
Definition typeGPT : text := lit "gpt".

(** [install.Options], as far as the installer's own steps use them. *)
Record Options (W : Type) := {
  DiskPath : text; opArch : text; opVersion : text; opMountPrefix : text; opGrubUseUKICmdline : bool;
  Force : bool; Zero : bool; DiskImageBootloader : text;
  opKernelPath : text; opInitramfsPath : text; opUKIPath : text; opSDBootPath : text;
  MetaValues : list (Z * list Z);
  OverlayInstaller : option (W → W * option error)
}.
Arguments DiskPath {W} _.
Arguments opArch {W} _.
Arguments opVersion {W} _.
Arguments opMountPrefix {W} _.
Arguments opGrubUseUKICmdline {W} _.
Arguments Force {W} _.
Arguments Zero {W} _.
Arguments DiskImageBootloader {W} _.
Arguments opKernelPath {W} _.
Arguments opInitramfsPath {W} _.
Arguments opUKIPath {W} _.
Arguments opSDBootPath {W} _.
Arguments MetaValues {W} _.
Arguments OverlayInstaller {W} _.

(** What the installer calls besides: the API of the machine, the kernel arguments of
    [go-procfs], names of partitions, and the format of a disk. *)
Class InstallWorld (W : Type) `{BW : BootWorld W} := {
  cmdline : Type;
  cmdline_First : text → cmdline → option text;
  cmdline_Append : text → text → cmdline → cmdline;
  cmdline_String : cmdline → text;
  client_New : W → W * option error;
  client_Version : W → W * (error + list text);                 (** the tags of the messages *)
  client_Close : W → W * option error;
  installer_version : text;                                     (** [version.NewVersion()] *)
  DevName : text → Z → text;
  blkid_Probe : text → W → W * (error + text * list PartInfo);
  FastWipe : text → W → W * option error;
  os_Rename : text → text → W → W * option error
}.

Section update.
Context {W : Type} `{SW : SdWorld W} `{U : Utf16} {G : GptWorld W} `{V : Semver} `{IW : !InstallWorld W}.
Context (grub_order : gmap text MenuEntry → list text).
Context {S D IOErr : Type} {SO : MetaStore S} {FO : FileSystem D IOErr}.
Context (sha256 : list Z → list Z) (order : Chubo.Tags → list (Z * list Z)).
Context (io_error : IOErr → error).
Notation meta := (Meta Chubo.Tags (list Z) S D).

(** The disks, and the META the machine has loaded, with its device and the resources. *)
Record machine := { mboot : W; mmeta : meta }.
Notation ctl := (prog machine error).

Definition meta_err (e : meta_error IOErr) : error :=
  match e with
  | Meta.ErrNotExist => Sentinel "ErrNotExist"
  | ErrStore NotFound => External "not found"
  | ErrStore (StoreError _) => External "store"
  | ErrIO e => io_error e
  | ErrLoadChubo _ => Errorf "failed to load Chubo ADV: %w" [Wrapped (External "adv")]
  | ErrLoadSyslinux _ => Errorf "failed to load syslinux adv: %w" [Wrapped (External "adv")]
  | ErrSerialize _ => External "adv"
  | ErrSeek => External "seek"
  | ErrShortWrite want got => Errorf "expected to write %d bytes, wrote %d" [Int want; Int got]
  end.

Definition in_boot {A} (c : prog W error A) : ctl A :=
  zoom mboot (λ w s, {| mboot := w; mmeta := s.(mmeta) |}) c.
Notation wcall f := (in_boot (boot_call (@wask W) f)).
Notation wquery f := (in_boot (boot_query (@wask W) f)).
Notation wdo f := (in_boot (_ ← wask f; mret ())).

(** A call of the META the machine has loaded. *)
Definition in_meta {A} (c : prog meta (meta_error IOErr) A) : ctl A :=
  map_err meta_err (zoom mmeta (λ m s, {| mboot := s.(mboot); mmeta := m |}) c).

(** A META of its own shares the device and, when it has one, the resource state.  Nobody else
    writes META while it is used. *)
Definition shared (m : meta) (s : machine) : machine := {|
  mboot := s.(mboot);
  mmeta := {| legacy := s.(mmeta).(legacy); advState := s.(mmeta).(advState);
              resourceState := match m.(resourceState) with Some st => Some st | None => s.(mmeta).(resourceState) end;
              fixedPath := s.(mmeta).(fixedPath); disk := m.(disk) |}
|}.
Definition meta_New (st : option S) (path : string) : ctl meta := λ s,
  match New sha256 st path s.(mmeta).(disk) with
  | Ok (m, inl e) => Ok (shared m s, inl (meta_err e))
  | Ok (m, inr _) => Ok (shared m s, inr m)
  | Err e => match e with end
  | Panic r => Panic r
  end.
Definition with_meta {A} (m : meta) (c : prog meta (meta_error IOErr) A) : ctl (A * meta) := λ s,
  match c m with
  | Ok (m, inl e) => Ok (shared m s, inl (meta_err e))
  | Ok (m, inr a) => Ok (shared m s, inr (a, m))
  | Err e => match e with end
  | Panic r => Panic r
  end.

(** ** Taking an update back *)

(** [block.GetSystemDisk], of what the resource state answers. *)
Definition GetSystemDisk (answer : store_error + text) : error + option text :=
  match answer with
  | inl NotFound => inr None
  | inl (StoreError n) => inl (Errorf "error getting system disk: %w" [Wrapped (External "store")])
  | inr devPath => inr (Some devPath)
  end.

Definition drop_tag (m : meta) : ctl () :=
  '(_, m) ← with_meta m (DeleteTag Upgrade_tag);
  _ ← with_meta m (Flush sha256 order);
  mret ().
Definition revert_loader (devPath : text) : prog W error () :=
  config ← loader_Probe devPath;
  loader_Revert grub_order config devPath.
Definition revertBootloadInternal (st : S) (answer : store_error + text) : ctl () :=
  systemDisk ← wrapf "system disk lookup failed: %w" (of_result (GetSystemDisk answer));
  match systemDisk with
  | None => mret ()
  | Some devPath =>
      r ← try (meta_New (Some st) "");
      match r with
      | inl err => if errors_Is "ErrNotExist" err then mret () else throw err
      | inr metaState =>
          '((label, ok), metaState) ← with_meta metaState (ReadTag Upgrade_tag);
          if negb ok then mret ()
          else if bool_decide (label = []) then drop_tag metaState
          else
            _ ← in_boot (revert_loader devPath);
            drop_tag metaState
      end
  end.
(** With the state that was set, if any; the error is logged. *)
Definition revertBootloader (revertState : option S) (answer : store_error + text) : ctl () :=
  match revertState with
  | None => mret ()
  | Some st => _ ← try (revertBootloadInternal st answer); mret ()
  end.

(** ** Dropping the label *)

Record MachineStatus := { stageRunning : bool; statusReady : bool }.
(** A turn of the loop of [Run]; [true] when it is the last one. *)
Definition drop_fallback (machineStatus : store_error + MachineStatus) : ctl bool :=
  match machineStatus with
  | inl NotFound => mret false
  | inl (StoreError _) => throw (Errorf "error getting machine status: %w" [Wrapped (External "store")])
  | inr status =>
      if negb (status.(stageRunning) && status.(statusReady)) then mret false
      else
        ok ← in_meta (DeleteTag Upgrade_tag);
        _ ← (if (ok : bool) then in_meta (Flush sha256 order) else mret ());
        mret true
  end.

(** ** The installer *)

Definition MachineSocketPath : text := lit "/system/run/machined/machine.sock".
Definition unpack {A} (s : list A) : ctl A :=
  match s with [a] => mret a | _ => lift (Panic (Explicit "unpack: slice length is not 1")) end.

Definition readHostChuboVersion : ctl (option ChuboVersion) :=
  err ← in_boot (wask (stat MachineSocketPath));
  match err with
  | Some _ => mret None
  | None =>
      _ ← wrapf "error connecting to the machine service: %w" (wcall client_New);
      with_defer (wdo client_Close)
        (resp ← wrapf "error getting Chubo version: %w" (wquery client_Version);
         hostVersion ← unpack resp;
         chuboVersion ← wrapf "error parsing Chubo version: %w" (of_result (ParseChuboVersion hostVersion));
         mret (Some chuboVersion))
  end.

Definition KernelParamNetIfnames : text := lit "net.ifnames".
Definition upgradeFromPreIfnamesChubo (chuboVersion : option ChuboVersion) : bool :=
  match chuboVersion with None => true | Some v => DisablePredictableNetworkInterfaces v end.
Definition errataNetIfnames (c : cmdline) (chuboVersion : option ChuboVersion) : cmdline :=
  match cmdline_First KernelParamNetIfnames c with
  | Some _ => c
  | None => if upgradeFromPreIfnamesChubo chuboVersion then cmdline_Append KernelParamNetIfnames (lit "0") c else c
  end.

(** [checks.chuboVersion]. *)
Definition check_versions : ctl () :=
  resp ← wrapf "error getting Chubo version: %w" (wquery client_Version);
  hostVersion ← unpack resp;
  host ← wrapf "error parsing host Chubo version: %w" (of_result (ParseChuboVersion hostVersion));
  installer ← wrapf "error parsing installer Chubo version: %w" (of_result (ParseChuboVersion installer_version));
  check (UpgradeableFrom installer host).
Definition runPreflightChecks (mode : Mode) : ctl () :=
  match mode with
  | ModeUpgrade =>
      err ← in_boot (wask (stat MachineSocketPath));
      match err with
      | Some _ => mret ()
      | None =>
          _ ← map_err (λ e, Errorf "error initializing pre-flight checks: %w" [Wrapped (Errorf "error connecting to the machine service: %w" [Wrapped e])])
                (wcall client_New);
          with_defer (wdo client_Close) (wrapf "pre-flight checks failed: %w" check_versions)
      end
  | _ => mret ()
  end.

Definition detectBootloader (opts : Options W) (mode : Mode) : ctl Bootloader :=
  match mode with
  | ModeInstall => in_boot NewAuto
  | ModeUpgrade => in_boot (loader_Probe opts.(DiskPath))
  | ModeImage => of_result (loader_New opts.(DiskImageBootloader) opts.(opVersion))
  end.

Definition diskOperations (opts : Options W) (mode : Mode) (info : text * list PartInfo) : ctl () :=
  match mode with
  | ModeInstall =>
      if negb opts.(Zero) && negb opts.(Force) then
        if bool_decide (info.1 = []) then mret ()
        else if bool_decide (info.1 = typeGPT) && bool_decide (info.2 = []) then mret ()
        else throw (Errorf "disk %s is not empty, skipping install, detected %q" [text_arg opts.(DiskPath); text_arg info.1])
      else
        map_err (λ e, Errorf "failed to zero blockdevice %s: %w" [text_arg opts.(DiskPath); Wrapped e]) (wcall (FastWipe opts.(DiskPath)))
  | ModeUpgrade =>
      if bool_decide (info.1 ≠ typeGPT) then
        throw (Errorf "disk %s has an unexpected format %q" [text_arg opts.(DiskPath); text_arg info.1])
      else mret ()
  | ModeImage => mret ()
  end.

(** The device stays open and locked; it stays so too when it cannot be probed. *)
Definition blockDeviceData (opts : Options W) : ctl (text * list PartInfo) :=
  let failed format e := Errorf format [text_arg opts.(DiskPath); Wrapped e] in
  _ ← map_err (failed "failed to open blockdevice %s: %w"%string) (wcall (blk_open opts.(DiskPath)));
  r ← try (wcall (blk_lock opts.(DiskPath)));
  match r with
  | inl e => _ ← wdo (blk_close opts.(DiskPath)); throw (failed "failed to lock blockdevice %s: %w"%string e)
  | inr _ => map_err (failed "failed to probe blockdevice %s: %w"%string) (wquery (blkid_Probe opts.(DiskPath)))
  end.

Definition generateBootloaderOptions (opts : Options W) (c : cmdline) (mode : Mode) (info : option (list PartInfo)) : InstallOptions W := {|
  BootDisk := opts.(DiskPath); Arch := opts.(opArch); optCmdline := cmdline_String c;
  GrubUseUKICmdline := opts.(opGrubUseUKICmdline); Version := opts.(opVersion); ImageMode := IsImage mode;
  MountPrefix := opts.(opMountPrefix); KernelPath := opts.(opKernelPath); InitramfsPath := opts.(opInitramfsPath);
  UKIPath := opts.(opUKIPath); SDBootPath := opts.(opSDBootPath);
  ExtraInstallStep := Some (λ w, match opts.(OverlayInstaller) with
    | Some install =>
        let '(w, err) := install w in (w, (λ e, Errorf "failed to run overlay installer: %w" [Wrapped e]) <$> err)
    | None => (w, None)
    end);
  BlkidInfo := info
|}.

(** The partitions, and the bootloader after its assets were made. *)
Definition getBootPartitions (opts : Options W) (c : cmdline) (mode : Mode) (l : Bootloader) : ctl (list partition_request * Bootloader) :=
  match mode with
  | ModeUpgrade => mret ([], l)
  | _ =>
      let bootloaderOptions := generateBootloaderOptions opts c mode None in
      '(partitionOptions, l) ← wrapf "failed to generate bootloader assets: %w"
         (in_boot (loader_GenerateAssets grub_order l bootloaderOptions));
      _ ← (if existsb (λ p, bool_decide (p.(reqLabel) = EFIPartitionLabel ∧ is_Some p.(reqSource))) partitionOptions then
             wrapf "failed to move EFI directory: %w"
               (wcall (os_Rename (Join [opts.(opMountPrefix); EFIMountPoint]) (Join [opts.(opMountPrefix); lit "EFI"])))
           else mret ());
      mret (partitionOptions, l)
  end.

(** The previous label. *)
Definition installBootloader (opts : Options W) (c : cmdline) (mode : Mode) (l : Bootloader) (info : list PartInfo) : ctl text :=
  let installOptions := generateBootloaderOptions opts c mode (Some info) in
  match mode with
  | ModeInstall => '(previousLabel, _) ← in_boot (loader_Install l installOptions); mret previousLabel
  | ModeUpgrade => '(previousLabel, _) ← in_boot (loader_Upgrade grub_order l installOptions); mret previousLabel
  | ModeImage => mret []
  end.

(** A tag is set, or the call fails. *)
Definition set_tag (failed : error) (m : meta) (t : Z) (v : list Z) : ctl meta :=
  r ← try (with_meta m (SetTag t v));
  match r with inr (true, m) => mret m | _ => throw failed end.
Definition value_error (v : Z * list Z) : error := Errorf "failed to set meta tag: %q -> %q" [Int v.1; text_arg (byte_of <$> v.2)].
Fixpoint set_values (m : meta) (values : list (Z * list Z)) : ctl meta :=
  match values with
  | [] => mret m
  | v :: values => m ← set_tag (value_error v) m v.1 v.2; set_values m values
  end.
Definition meta_partition (disk : text) (parts : list PartInfo) : option text :=
  (λ '(_, part), DevName disk part.(PartitionIndex)) <$>
  list_find (λ part, default [] part.(PartitionLabel) = lit "META") parts.

(** The modes that work on a disk; [upgrade] is [ModeUpgrade], otherwise [ModeInstall]. *)
Definition handleMeta (upgrade : bool) (diskPath : text) (values : list (Z * list Z)) (previousLabel : text) (parts : list PartInfo) : ctl () :=
  match meta_partition diskPath parts with
  | None | Some [] => throw (Errorf "failed to detect META partition" [])
  | Some metaPartitionName =>
      metaState ← wrapf "failed to open META: %w" (meta_New None (String.string_of_list_ascii metaPartitionName));
      metaState ← (if upgrade then
                     set_tag (Errorf "failed to set upgrade tag: %q" [text_arg previousLabel]) metaState Upgrade_tag (bytes_of previousLabel)
                   else mret metaState);
      metaState ← set_values metaState values;
      _ ← wrapf "failed to flush META: %w" (with_meta metaState (Flush sha256 order));
      mret ()
  end.

(** [Install] in the mode [ModeUpgrade]: there are no partitions to make. *)
Definition upgrade_machine (opts : Options W) (c : cmdline) : ctl () :=
  hostChuboVersion ← readHostChuboVersion;
  let c := errataNetIfnames c hostChuboVersion in
  _ ← runPreflightChecks ModeUpgrade;
  bootlder ← wrapf "failed to detect bootloader: %w" (detectBootloader opts ModeUpgrade);
  '(_, bootlder) ← wrapf "failed to get bootloader partitions: %w" (getBootPartitions opts c ModeUpgrade bootlder);
  info ← wrapf "failed to get blockdevice data: %w" (blockDeviceData opts);
  with_defer (_ ← wdo (blk_close opts.(DiskPath)); wdo (blk_unlock opts.(DiskPath)))
    (_ ← wrapf "failed to perform disk operations: %w" (diskOperations opts ModeUpgrade info);
     info ← map_err (λ e, Errorf "failed to probe blockdevice %s: %w" [text_arg opts.(DiskPath); Wrapped e]) (wquery (blkid_ProbePath opts.(DiskPath)));
     previousLabel ← wrapf "failed to install bootloader: %w" (installBootloader opts c ModeUpgrade bootlder info);
     wrapf "failed to handle META partition: %w" (handleMeta true opts.(DiskPath) opts.(MetaValues) previousLabel info)).
End update.
