(* ===== verification/UpdateSafety.v ===== *)
(** * A failed update is reverted, and only then forgotten

    The label of the fallback in META, through an upgrade, a boot that fails and one that
    succeeds: what Update.v does to the values on the device and to the bootloader, whatever
    the calls on devices and resources answer. *)

From Stdlib Require Import Ascii.
From S2P Require Import Prelude Bytes MetaAdv SyslinuxAdv Meta Errors MetaUse.
From S2P Require Import Text GrubConfig BootMount Grub Efi UkiName EfiVars SdBoot Versions Bootloader Update.

Section safety.
Context {W : Type} `{SW : SdWorld W} `{U : Utf16} {G : GptWorld W} `{V : Semver} `{IW : !InstallWorld W}.
Context (grub_order : gmap text MenuEntry → list text).
Context {S D IOErr : Type} {SO : MetaStore S} {SL : MetaStoreLaws S} {FO : FileSystem D IOErr} {FL : FileSystemLaws D IOErr}.
Context (sha256 : list Z → list Z) (order : Chubo.Tags → list (Z * list Z)) (io_error : IOErr → error).
Context (sha256_size : ∀ b, zlen (sha256 b) = 32).
Context (order_perm : ∀ tags, order tags ≡ₚ map_to_list tags).
Context (p : string) (path_set : p ≠ ""%string).
Context (located : ∀ (s : S) vs,
  WaitForVolumePhase s MetaPartitionLabel [VolumePhaseReady; VolumePhaseMissing; VolumePhaseClosed] = inr vs →
  vs.(MountLocation) = p).
Notation meta := (Meta Chubo.Tags (list Z) S D).
Notation machine := (machine (W:=W) (S:=S) (D:=D)).
Implicit Types (s : machine) (m : meta) (tags : Chubo.Tags) (leg : list Z).
Notation device s := s.(mmeta).(disk).

(** A device that loads as these values, which are valid, with room to save. *)
Record updatable (w : D) tags leg : Prop := {
  up_loaded : loaded sha256 p w tags leg;
  up_tags t : is_Some (tags !! t) → 1 ≤ t < 256;
  up_fits : Chubo.fits tags;
  up_room : Chubo.Size + 2 * Syslinux.AdvSize ≤ zlen (fs_content w p)
}.
Lemma updatable_savable w tags leg m tags' : updatable w tags leg →
  at_path p m → m.(advState) = tags' → m.(legacy) = leg → m.(disk) = w →
  (∀ t, is_Some (tags' !! t) → 1 ≤ t < 256) → Chubo.fits tags' → savable p m.
Proof.
  intros [(_ & Hlen & Hleg) _ _ Hroom] Hat Ha Hl Hd Ht Hf. split; [done|by rewrite Ha|by rewrite Ha| |by rewrite Hd].
  rewrite Hl, Hleg. unfold Syslinux.AdvSize in *. rewrite zlen_zdrop; lia.
Qed.

(** What was flushed can be updated again. *)
Lemma flushed w tags leg m : updatable w tags leg → savable p m → m.(legacy) = leg → m.(disk) = w →
  returns (Flush sha256 order) m (λ m' (r : meta_error IOErr + ()), m'.(advState) = m.(advState) ∧
    (r = inr () → updatable m'.(disk) m.(advState) leg)).
Proof.
  intros Hup Hs Hl Hd. eapply returns_mono; [|by apply Flush_spec].
  intros m' r (Ha & _ & _ & Hr). split; [done|]. intros Hok. destruct (Hr Hok) as [Hload Hsize]. rewrite Hl in Hload.
  destruct Hs. split; [done|done|done|]. by rewrite Hsize.
Qed.

(** ** Calls on a META of one's own *)

Lemma meta_New_spec st path s tags leg : path = p ∨ path = ""%string → loaded sha256 p (device s) tags leg →
  returns (meta_New sha256 io_error st path) s (λ s' r, s'.(mboot) = s.(mboot) ∧ device s' = device s ∧
    ∀ m, r = inr m → m.(advState) = tags ∧ m.(legacy) = leg ∧ m.(disk) = device s ∧ m.(fixedPath) = path).
Proof.
  intros Hpath Hl. destruct (New_spec sha256 p located st path (device s) tags leg Hpath Hl) as (m & r & Hn & Hd & Hf & Hr).
  unfold returns, meta_New. rewrite Hn. destruct r as [e|[]]; eexists _, _; (split; [done|]); (split; [done|]); (split; [done|]); [done|].
  intros m' [= <-]. destruct (Hr eq_refl). done.
Qed.
(** Where it opens, it is opened. *)
Lemma meta_New_opens st path s m : New sha256 st path (device s) = Ok (m, inr ()) →
  meta_New sha256 io_error st path s = Ok (shared m s, inr m).
Proof. unfold meta_New. by intros ->. Qed.

Lemma with_meta_spec {A} m (c : prog meta (meta_error IOErr) A) s Q : returns c m Q →
  returns (with_meta io_error m c) s (λ s' r, s'.(mboot) = s.(mboot) ∧ ∃ m' q, Q m' q ∧ device s' = m'.(disk) ∧
    r = match q with inl e => inl (meta_err io_error e) | inr a => inr (a, m') end).
Proof.
  intros (m' & q & Hc & HQ). unfold returns, with_meta. rewrite Hc. destruct q as [e|a]; eexists _, _; (split; [done|]); split; try done.
  - by exists m', (inl e).
  - by exists m', (inr a).
Qed.

Lemma tags_delete tags t : (∀ t, is_Some (tags !! t) → 1 ≤ t < 256) → ∀ t', is_Some (delete t tags !! t') → 1 ≤ t' < 256.
Proof. intros Ht t' [v [_ Hv]%lookup_delete_Some]. apply Ht. by eexists. Qed.

(** The tag is dropped from the device, or the call fails; the bootloader is left alone. *)
Lemma drop_tag_spec m s tags leg : updatable m.(disk) tags leg → at_path p m → m.(advState) = tags → m.(legacy) = leg →
  is_Some (tags !! Upgrade_tag) →
  returns (drop_tag sha256 order io_error m) s (λ s' r, s'.(mboot) = s.(mboot) ∧
    (r = inr () → updatable (device s') (delete Upgrade_tag tags) leg)).
Proof.
  intros Hup Hat Ha Hl Hsome. apply returns_bind.
  eapply returns_mono; [|apply with_meta_spec, DeleteTag_spec; by rewrite Ha].
  intros s1 r (Hb1 & m1 & q & (Hd1 & Hf1 & Hl1 & Ha1 & _) & _ & ->). destruct q as [e|ok]; [done|].
  rewrite Ha in Ha1. rewrite Hl in Hl1.
  assert (Hs : savable p m1).
  { eapply (updatable_savable _ _ _ _ (delete Upgrade_tag tags)); [exact Hup| |done|done|done| |].
    - unfold at_path. by rewrite Hf1.
    - by apply tags_delete, Hup.
    - apply (Chubo.DeleteTag_fits_aux tags), Hup. }
  apply returns_bind. eapply returns_mono; [|apply with_meta_spec; by eapply flushed].
  intros s2 r (Hb2 & m2 & q & (_ & Hr) & Hd2 & ->). destruct q as [e|[]]; [by split; [congruence|]|].
  apply returns_ret. split; [congruence|]. intros _. rewrite Hd2. rewrite Ha1 in Hr. by apply Hr.
Qed.

(** ** A boot that fails *)

(** The bootloader is reverted; when that fails META stays as it is, so the next boot that
    fails tries again; otherwise the label is dropped from the device. *)
Lemma reverted s st m0 devPath label tags leg w' rb :
  updatable (device s) tags leg → New sha256 (Some st) "" (device s) = Ok (m0, inr ()) →
  tags !! Upgrade_tag = Some label → label ≠ [] →
  revert_loader grub_order devPath s.(mboot) = Ok (w', rb) →
  returns (revertBootloadInternal grub_order sha256 order io_error st (inr devPath)) s (λ s' r,
    s'.(mboot) = w' ∧ (∀ e, rb = inl e → r = inl e ∧ device s' = device s) ∧
    (r = inr () → rb = inr () ∧ updatable (device s') (delete Upgrade_tag tags) leg)).
Proof.
  intros Hup Hopen Hlabel Hne Hboot. unfold revertBootloadInternal. apply returns_bind, returns_map_err, returns_of_result.
  cbn [GetSystemDisk]. apply returns_bind, returns_try.
  pose proof (New_spec sha256 p located (Some st) "" (device s) tags leg (or_intror eq_refl) (up_loaded _ _ _ Hup)) as HN.
  destruct HN as (m & r & Hn & Hd & Hf & Hr). rewrite Hopen in Hn. injection Hn as <- <-. destruct (Hr eq_refl) as [Ha Hl].
  eapply returns_Ok; [by apply meta_New_opens|]. set (s1 := shared m0 s). apply returns_bind.
  eapply returns_mono; [|apply (with_meta_spec m0 _ _ (λ m' q, m' = m0 ∧ q = inr (label, true)))].
  2: { unfold ReadTag, ReadTagBytes. do 2 apply returns_bind. apply returns_get, returns_bind. exists m0, (inr (Some label)).
       split; [unfold lift; cbn -[Upgrade_tag]; unfold Chubo.ReadTagBytes; by rewrite Ha, Hlabel|]. by apply returns_ret, returns_ret. }
  intros s2 r2 (Hb2 & m' & q & [-> ->] & Hd2 & ->). cbv beta iota zeta. cbn [negb]. rewrite bool_decide_false by done.
  apply returns_bind. assert (Hboot2 : mboot s2 = mboot s) by (by rewrite Hb2).
  exists {| mboot := w'; mmeta := s2.(mmeta) |}, rb. split; [unfold in_boot, zoom; by rewrite Hboot2, Hboot|].
  destruct rb as [e|[]].
  - split; [done|]. split; [|done]. intros e' [= ->]. split; [done|]. cbn. by rewrite Hd2.
  - eapply returns_mono; [|apply (drop_tag_spec m0 _ tags leg); [by rewrite Hd|by right|done|done|by eexists]].
    intros s3 r3 [Hb3 Hr3]. split; [by rewrite Hb3|]. split; [done|]. intros Hok. split; [done|]. by apply Hr3.
Qed.

(** ** An upgrade *)

Definition set_all (values : list (Z * list Z)) tags : Chubo.Tags := fold_left (λ tags v, <[v.1 := v.2]> tags) values tags.
Lemma set_all_delete values tags t : Forall (λ v, v.1 ≠ t) values → delete t (set_all values tags) = set_all values (delete t tags).
Proof.
  revert tags. induction values as [|v values IH]; intros tags; [done|]. intros [Hv Hvs]%Forall_cons. cbn [set_all fold_left].
  change (delete t (set_all values (<[v.1:=v.2]> tags)) = set_all values (<[v.1:=v.2]> (delete t tags))). rewrite IH by done.
  by rewrite delete_insert_ne.
Qed.
Lemma set_all_other values tags t : Forall (λ v, v.1 ≠ t) values → set_all values tags !! t = tags !! t.
Proof.
  revert tags. induction values as [|v values IH]; intros tags; [done|]. intros [Hv Hvs]%Forall_cons.
  change (set_all values (<[v.1:=v.2]> tags) !! t = tags !! t). rewrite IH by done. by rewrite lookup_insert_ne.
Qed.

(** The META of a call whose device is still the one of the machine. *)
Definition in_step s m tags leg : Prop :=
  m.(advState) = tags ∧ m.(legacy) = leg ∧ m.(fixedPath) = p ∧ Chubo.fits tags ∧ (∀ t, is_Some (tags !! t) → 1 ≤ t < 256).
Lemma set_tag_spec failed m t v s tags leg : in_step s m tags leg → 1 ≤ t < 256 → device s = m.(disk) →
  returns (set_tag io_error failed m t v) s (λ s' r, s'.(mboot) = s.(mboot) ∧ device s' = device s ∧
    ∀ m', r = inr m' → in_step s' m' (<[t := v]> tags) leg ∧ m'.(disk) = device s).
Proof.
  intros (Ha & Hl & Hf & Hfit & Htags) Ht Hd. apply returns_bind, returns_try.
  eapply returns_mono; [|apply with_meta_spec, SetTag_spec; by rewrite Ha].
  intros s1 r (Hb1 & m1 & q & (Hd1 & Hf1 & Hl1 & Hfit1 & Hset) & Hds & ->).
  assert (Hdev : device s1 = device s) by congruence.
  destruct q as [e|[]]; [by apply returns_throw|apply returns_ret|by apply returns_throw]. split; [done|]. split; [done|].
  intros m' [= <-]. specialize (Hset eq_refl). rewrite Ha in Hset. split; [|congruence].
  split; [done|]. split; [congruence|]. split; [congruence|]. split; [by rewrite <- Hset|].
  intros t' [w [[<- _]|[_ Hw]]%lookup_insert_Some]; [done|]. apply Htags. by eexists.
Qed.
Lemma set_values_spec values m s tags leg : in_step s m tags leg → Forall (λ v, 1 ≤ v.1 < 256) values → device s = m.(disk) →
  returns (set_values io_error m values) s (λ s' r, s'.(mboot) = s.(mboot) ∧ device s' = device s ∧
    ∀ m', r = inr m' → in_step s' m' (set_all values tags) leg ∧ m'.(disk) = device s).
Proof.
  revert m s tags. induction values as [|v values IH]; intros m s tags Hm Hv Hd; cbn [set_values].
  { apply returns_ret. split; [done|]. split; [done|]. by intros m' [= <-]. }
  apply Forall_cons in Hv as [Hv Hvs]. apply returns_bind. eapply returns_mono; [|by apply set_tag_spec].
  intros s1 r (Hb1 & Hd1 & Hr). destruct r as [e|m1]; [done|]. destruct (Hr m1 eq_refl) as [Hm1 Hdisk].
  eapply returns_mono; [|apply IH; [exact Hm1|done|congruence]]. intros s2 r2 (Hb2 & Hd2 & Hr2).
  split; [congruence|]. split; [congruence|]. intros m' Hm'. destruct (Hr2 m' Hm'). split; [done|congruence].
Qed.

(** The installer leaves the bootloader alone here, and with success the device has the values. *)
Lemma handleMeta_spec upgrade diskPath values previousLabel parts name s tags leg :
  meta_partition diskPath parts = Some name → String.string_of_list_ascii name = p →
  updatable (device s) tags leg → Forall (λ v, 1 ≤ v.1 < 256) values →
  returns (handleMeta sha256 order io_error upgrade diskPath values previousLabel parts) s (λ s' r, s'.(mboot) = s.(mboot) ∧
    (r = inr () → updatable (device s')
       (set_all values (if upgrade then <[Upgrade_tag := bytes_of previousLabel]> tags else tags)) leg)).
Proof.
  intros Hpart Hname Hup Hv. unfold handleMeta. rewrite Hpart.
  destruct name as [|c name]; [by destruct path_set|]. rewrite Hname. apply returns_bind, returns_map_err.
  eapply returns_mono; [|apply meta_New_spec; [by left|apply Hup]].
  intros s1 r (Hb1 & Hd1 & Hr). destruct r as [e|m1]; [done|]. destruct (Hr m1 eq_refl) as (Ha1 & Hl1 & Hdisk1 & Hf1).
  assert (Hm1 : in_step s1 m1 tags leg) by (split_and!; [done..|apply Hup|apply Hup]).
  set (tags2 := if upgrade then <[Upgrade_tag := bytes_of previousLabel]> tags else tags).
  apply returns_bind.
  eapply (returns_mono _ _ (λ s2 r, s2.(mboot) = s.(mboot) ∧ device s2 = device s ∧ ∀ m2, r = inr m2 → in_step s2 m2 tags2 leg ∧ m2.(disk) = device s)).
  2: { destruct upgrade.
       - eapply returns_mono; [|apply set_tag_spec; [exact Hm1|done|congruence]]. intros s2 r (Hb2 & Hd2 & Hr2).
         split; [congruence|]. split; [congruence|]. intros m2 Hm2. destruct (Hr2 m2 Hm2). split; [done|congruence].
       - apply returns_ret. split; [done|]. split; [done|]. by intros m2 [= <-]. }
  intros s2 r2 (Hb2 & Hd2 & Hr2). destruct r2 as [e|m2]; [done|]. destruct (Hr2 m2 eq_refl) as [Hm2 Hdisk2].
  apply returns_bind. eapply returns_mono; [|apply set_values_spec; [exact Hm2|done|congruence]].
  intros s3 r3 (Hb3 & Hd3 & Hr3). destruct r3 as [e|m3]; [by split; [congruence|]|].
  destruct (Hr3 m3 eq_refl) as [(Ha3 & Hl3 & Hf3 & Hfit3 & Htags3) Hdisk3]. apply returns_bind, returns_map_err.
  assert (Hs3 : savable p m3).
  { eapply (updatable_savable (device s)); [exact Hup|by left|done|done|congruence|done|done]. }
  eapply returns_mono; [|apply with_meta_spec; eapply flushed; [exact Hup|done|done|congruence]].
  intros s4 r4 (Hb4 & m4 & q & (_ & Hr4) & Hd4 & ->). destruct q as [e|[]]; [by split; [congruence|]|].
  apply returns_ret. split; [congruence|]. intros _. rewrite Hd4. rewrite Ha3 in Hr4. by apply Hr4.
Qed.

(** C15: An upgrade puts the label to go back to on the device: once [handleMeta] has
    succeeded, META loads as what it was with that label and the values of the installer.
    When the next boot fails, whatever else has happened to the disks in the meantime,
    [revertBootloadInternal] opens META, reverts the bootloader as it is then, and drops
    the label only when that succeeded: an error of the revert leaves META as it was, so a
    later boot that fails reverts too, and success means that the bootloader is reverted
    and that META loads without the label and with every other value. *)
Theorem failed_update_reverted s s' diskPath values prev parts name tags leg :
  meta_partition diskPath parts = Some name → String.string_of_list_ascii name = p →
  updatable (device s) tags leg →
  Forall (λ v, 1 ≤ v.1 < 256 ∧ v.1 ≠ Upgrade_tag) values → prev ≠ [] →
  handleMeta sha256 order io_error true diskPath values prev parts s = Ok (s', inr ()) →
  updatable (device s') (set_all values (<[Upgrade_tag := bytes_of prev]> tags)) leg ∧
  ∀ s2 st m0 devPath w' rb, device s2 = device s' →
    New sha256 (Some st) "" (device s2) = Ok (m0, inr ()) →
    revert_loader grub_order devPath s2.(mboot) = Ok (w', rb) →
    returns (revertBootloadInternal grub_order sha256 order io_error st (inr devPath)) s2 (λ s3 r,
      s3.(mboot) = w' ∧ (∀ e, rb = inl e → r = inl e ∧ device s3 = device s') ∧
      (r = inr () → rb = inr () ∧ updatable (device s3) (set_all values (delete Upgrade_tag tags)) leg)).
Proof.
  intros Hpart Hname Hup Hv Hprev Hrun.
  assert (Forall (λ v, 1 ≤ v.1 < 256) values) as Hv1 by (eapply Forall_impl; [exact Hv|by intros ? []]).
  assert (Forall (λ v, v.1 ≠ Upgrade_tag) values) as Hv2 by (eapply Forall_impl; [exact Hv|by intros ? []]).
  destruct (handleMeta_spec true diskPath values prev parts name s tags leg Hpart Hname Hup Hv1) as (s1 & r & Hrun' & _ & Hr).
  rewrite Hrun in Hrun'. injection Hrun' as <- <-. specialize (Hr eq_refl). split; [exact Hr|].
  intros s2 st m0 devPath w' rb Hd Hopen Hboot. rewrite <- Hd in Hr.
  eapply returns_mono; [|eapply (reverted s2 st m0 devPath (bytes_of prev)); [exact Hr|exact Hopen| | |exact Hboot]].
  - rewrite Hd, set_all_delete, delete_insert_eq by done. done.
  - by rewrite set_all_other, lookup_insert_eq.
  - by destruct prev.
Qed.

(** ** A boot that succeeds *)

(** Where the META of the machine has the label and its device loads as it has, the turn in
    which the machine is up returns; with success the label is gone from the device. *)
Theorem fallback_dropped s status tags leg :
  status.(stageRunning) = true → status.(statusReady) = true →
  updatable (device s) tags leg → at_path p s.(mmeta) → s.(mmeta).(advState) = tags → s.(mmeta).(legacy) = leg →
  is_Some (tags !! Upgrade_tag) →
  returns (drop_fallback sha256 order io_error (inr status)) s (λ s' r, s'.(mboot) = s.(mboot) ∧
    s'.(mmeta).(advState) = delete Upgrade_tag tags ∧
    (∀ last, r = inr last → last = true ∧ updatable (device s') (delete Upgrade_tag tags) leg)).
Proof.
  intros Hrunning Hready Hup Hat Ha Hl Hsome. unfold drop_fallback. rewrite Hrunning, Hready. cbn [negb andb].
  apply returns_bind, returns_map_err, returns_zoom.
  eapply returns_mono; [|apply DeleteTag_spec; by rewrite Ha]. intros m1 r (Hd1 & Hf1 & Hl1 & Ha1 & Hok).
  rewrite Ha in Ha1. rewrite Hl in Hl1. destruct r as [e|ok]; [done|]. rewrite (Hok _ eq_refl).
  assert (Hs : savable p m1).
  { eapply (updatable_savable _ _ _ _ (delete Upgrade_tag tags)); [exact Hup| |done|done|done| |].
    - unfold at_path. by rewrite Hf1.
    - by apply tags_delete, Hup.
    - apply (Chubo.DeleteTag_fits_aux tags), Hup. }
  apply returns_bind, returns_map_err, returns_zoom. eapply returns_mono; [|by eapply flushed].
  intros m2 r (Ha2 & Hr). cbn [mmeta] in Ha2, Hr. destruct r as [e|[]]; [split; [done|]; cbn [mmeta mboot]; split; [congruence|done]|].
  apply returns_ret. split; [done|]. cbn [mmeta mboot]. split; [congruence|]. intros last [= <-]. split; [done|].
  rewrite Ha1 in Hr. by apply Hr.
Qed.

(** A turn in which memory has the label no more ends the loop and writes nothing, whatever
    is on the device: so it is for the turn after one whose flush has failed. *)
Theorem second_turn_writes_nothing s status l :
  status.(stageRunning) = true → status.(statusReady) = true →
  s.(mmeta).(advState) !! Upgrade_tag = None → Syslinux.DeleteTag s.(mmeta).(legacy) Upgrade_tag = Ok (false, l) →
  returns (drop_fallback sha256 order io_error (inr status)) s (λ s' r, device s' = device s ∧ s'.(mboot) = s.(mboot) ∧
    ∀ last, r = inr last → last = true).
Proof.
  intros Hrunning Hready Hnone Hleg. unfold drop_fallback. rewrite Hrunning, Hready. cbn [negb andb].
  apply returns_bind, returns_map_err, returns_zoom.
  eapply (returns_mono _ _ (λ m' r, m'.(disk) = (mmeta s).(disk) ∧ ∀ ok, r = inr ok → ok = false)).
  - intros m1 [e|ok] [Hd Hok]; [by split|]. rewrite (Hok _ eq_refl). apply returns_bind, returns_ret, returns_ret.
    split; [done|]. split; [done|]. by intros last [= <-].
  - unfold DeleteTag. apply returns_bind, returns_get, returns_bind. exists (mmeta s), (inr (false, (mmeta s).(advState))). split.
    { unfold lift. cbn -[Upgrade_tag]. unfold Chubo.DeleteTag. rewrite delete_id, Hnone by done. by rewrite bool_decide_false by apply is_Some_None. }
    apply returns_bind, returns_modify, returns_bind, returns_bind. eexists _, (inr (false, l)). split.
    { unfold lift. cbn -[Upgrade_tag Syslinux.DeleteTag]. by rewrite Hleg. }
    apply returns_bind, returns_modify, returns_ret. destruct (resourceState (mmeta s)) as [st|] eqn:Hst.
    2: { apply returns_ret. split; [done|]. by intros ok [= <-]. }
    apply returns_bind. eapply returns_mono; [|apply store_op_spec; cbn; rewrite Hst; by eexists].
    intros m2 r ((_ & _ & Hd & _) & _ & [err ->]). destruct err as [[|c]|]; first [apply returns_ret|apply returns_throw];
      (split; [done|]); by intros ok [= <-].
Qed.
End safety.
