(* ===== verification/UpdateExamples.v ===== *)
(** * An update of a machine with systemd-boot, taken back

    The disk of SdExamples.v with a META partition: an upgrade by the installer and the boot
    after it that fails or succeeds, run; a fallback that is never dropped. *)

From Stdlib Require Import Ascii.
From S2P Require Import Prelude Bytes MetaAdv SyslinuxAdv Meta Errors MetaUse.
From S2P Require Import Text TextFacts GrubConfig BootMount Grub BootFrame GrubExamples Efi EfiCodec.
From S2P Require Import UkiName EfiVars SdBoot SdSafety SdExamples Versions Bootloader Update UpdateSafety.

(** ** The other interfaces on the table *)

Fixpoint Split (sep : ascii) (fuel : nat) (s : text) : list text :=
  match fuel with
  | O => [s]
  | S fuel => match cut sep s with (a, Some b) => a :: Split sep fuel b | (a, None) => [a] end
  end.
Definition number (s : text) : Z := default 0 (Atoi s).
(** Pre-release and build begin with the first [-] or [+]. *)
Definition parse_version (tag : text) : error + SemVersion :=
  let s := TrimPrefix tag (lit "v") in
  let numbers := take_while (λ c, bool_decide (c ∉ ["-"; "+"]%char)) s in
  match Split "." 3 numbers with
  | [major; minor; patch] =>
      inr {| Major := number major; Minor := number minor; Patch := number patch; Suffix := drop (length numbers) s |}
  | _ => inl (External "semver")
  end.
Definition compare_suffix (a b : text) : Z := if bool_decide (a = b) then 0 else if bool_decide (a = []) then 1 else -1.
#[export] Instance table_semver : Semver := {|
  ParseTolerant := parse_version;
  semver_Compare v w := cmp_then v.(Major) w.(Major) (cmp_then v.(Minor) w.(Minor) (cmp_then v.(Patch) w.(Patch) (compare_suffix v.(Suffix) w.(Suffix))));
  semver_String v := show v.(Major) ++ lit "." ++ show v.(Minor) ++ lit "." ++ show v.(Patch) ++ v.(Suffix);
  triple_Compare := λ '(a, b, c) '(a', b', c'), cmp_then a a' (cmp_then b b' (cmp_then c c' 0))
|}.
#[export] Instance table_semver_laws : SemverLaws table_semver.
Proof.
  assert (∀ a n, cmp_then a a n = n) as Hself by (intros a n; unfold cmp_then; by repeat (rewrite bool_decide_false by lia)).
  split; [|intros v; cbn; rewrite !Hself; unfold compare_suffix; by rewrite bool_decide_true|done].
  intros v w Hv Hw. cbn. unfold compare_suffix. by rewrite Hv, Hw.
Qed.

#[export] Instance table_gpt : GptWorld table := {|
  GptTable := list (option text);
  blk_open _ w := (w, None); blk_lock _ w := (w, None); blk_unlock _ w := (w, None); blk_close _ w := (w, None);
  gpt_Device _ w := (w, None);
  gpt_Read _ w := (w, inr [Some EFIPartitionLabel; None; Some BootPartitionLabel; Some (lit "META")]);
  WipeRange _ _ _ w := (w, None);
  Partitions t := t;
  DeletePartition i t := match t !! i with Some (Some _) => inr (<[i := None]> t) | _ => inl no_file end;
  gpt_Write _ _ w := (w, None);
  os_RemoveAll d w := (filter (λ f, HasPrefix f.1 (d ++ slash) = false) w, None)
|}.
#[export] Instance table_gpt_laws : GptLaws table_gpt.
Proof. split. cbn. intros i t t'. destruct (t !! i) as [[]|]; congruence. Qed.

#[export] Instance table_install : InstallWorld table := {|
  cmdline := list (text * text);
  cmdline_First k c := snd <$> (snd <$> list_find (λ v, v.1 = k) c);
  cmdline_Append k v c := c ++ [(k, v)];
  cmdline_String c := flat_map (λ v, v.1 ++ lit "=" ++ v.2 ++ lit " ") c;
  client_New w := (w, None); client_Version w := (w, inr [lit "v1.11.0"]); client_Close w := (w, None);
  installer_version := lit "v1.12.0";
  DevName disk i := disk ++ show i;
  blkid_Probe _ w := (w, inr (typeGPT, boot_parts));
  FastWipe _ w := (w, None);
  os_Rename _ _ w := (w, None)
|}.

(** Resources of which only tags are kept; the partition is ready, always at the same path. *)
Definition meta_device : string := "/dev/sda4".
Definition resources : Type := gmap string (list Z).
#[export] Instance resources_store : MetaStore resources := {|
  st_update s id v := match s !! id with Some _ => (<[id := v]> s, None) | None => (s, Some NotFound) end;
  st_create s id v := match s !! id with Some _ => (s, Some (StoreError 0)) | None => (<[id := v]> s, None) end;
  st_destroy s id := match s !! id with Some _ => (delete id s, None) | None => (s, Some NotFound) end;
  st_list s := inr (map_to_list s).*1;
  st_add_finalizer s _ := (s, None);
  st_watch_volume _ _ := ([{| Phase := VolumePhaseReady; MountLocation := meta_device; ParentLocation := "/dev/sda" |}], StoreError 2)
|}.
#[export] Instance resources_laws : MetaStoreLaws resources.
Proof.
  refine {| store_map := λ s : resources, s |}; simpl.
  - intros s id v. destruct (s !! id) eqn:Hk; [|done]. split; [by eexists|done].
  - intros s id v. by destruct (s !! id) eqn:Hk.
  - intros s id. destruct (s !! id) eqn:Hk; [|done]. split; [by eexists|done].
  - intros s ids [= <-] id. rewrite list_elem_of_fmap. split.
    + intros ([i v] & -> & Hv%elem_of_map_to_list). by eexists.
    + intros [v Hv]. exists (id, v). split; [done|]. by apply elem_of_map_to_list.
  - by intros s id s' err [= <- _].
Defined.
#[local] Existing Instances InMemory.mem_disk InMemory.mem_disk_laws.
Notation files := (gmap string (list Z)).

(** ** The machine *)

Definition no_sum (_ : list Z) : list Z := replicate 32 0.
Definition meta_error_of (_ : ()) : error := External "io".
(** META has two values of the user. *)
Definition kept : Chubo.Tags := {[10 := [1; 2]; 11 := [3]]}.
Definition blank : Meta Chubo.Tags (list Z) resources files :=
  {| legacy := replicate 1024 0; advState := kept; resourceState := Some ∅; fixedPath := "";
     disk := {[meta_device := replicate (Z.to_nat InMemory.part_size) 0]} |}.
Definition after {S A} (c : outcome Empty_set (S * A)) (s : S) : S := match c with Ok (s, _) => s | _ => s end.
Definition booted_meta : Meta Chubo.Tags (list Z) resources files := after (Flush (IOErr:=()) no_sum map_to_list blank) blank.
Definition running : machine (W:=table) (S:=resources) (D:=files) :=
  {| mboot := sd_table current_image; mmeta := booted_meta |}.
Definition upgrade_options : Options table := {|
  DiskPath := lit "/dev/sda"; opArch := amd64; opVersion := lit "v1.2.0"; opMountPrefix := []; opGrubUseUKICmdline := false;
  Force := false; Zero := false; DiskImageBootloader := [];
  opKernelPath := []; opInitramfsPath := []; opUKIPath := lit "/usr/install/vmlinuz.efi"; opSDBootPath := lit "/usr/install/systemd-boot.efi";
  MetaValues := [(12, [4; 5])]; OverlayInstaller := None
|}.
Definition do_upgrade := upgrade_machine label_order no_sum map_to_list meta_error_of upgrade_options [].
Definition do_revert := revertBootloadInternal label_order no_sum map_to_list meta_error_of (∅ : resources) (inr (lit "/dev/sda")).

(** What the device of the machine loads as. *)
Definition tags_on (s : machine (W:=table) (S:=resources) (D:=files)) : option (list (Z * string)) :=
  match Chubo.NewADV no_sum (Some (fs_content s.(mmeta).(disk) meta_device)) with
  | Ok (Some tags, _) => Some ((λ v, (v.1, String.string_of_list_ascii (byte_of <$> v.2))) <$> map_to_list tags)
  | _ => None
  end.
Definition sees {A} (c : outcome Empty_set (machine (W:=table) (S:=resources) (D:=files) * A)) :
    option (A * string * list string * option (list (Z * string))) :=
  match c with Ok (s, r) => Some (r, named s.(mboot), images_of s.(mboot), tags_on s) | _ => None end.

(** The default is the new image and META names the old one; a boot that fails puts it back. *)
Definition with_nul (name : string) : string := (name ++ zero)%string.
Definition raw (l : list Z) : string := String.string_of_list_ascii (byte_of <$> l).
Example upgraded_and_reverted :
  let images := ["Chubo-v1.2.0.efi"; "Chubo-v1.1.0.efi"] in
  sees (do_upgrade running) =
    Some (inr (), with_nul "Chubo-v1.2.0.efi", images,
          Some [(11, raw [3]); (10, raw [1; 2]); (Upgrade_tag, "Chubo-v1.1.0.efi"); (12, raw [4; 5])]) ∧
  sees (do_revert (after (do_upgrade running) running)) =
    Some (inr (), with_nul "Chubo-v1.1.0.efi", images, Some [(11, raw [3]); (10, raw [1; 2]); (12, raw [4; 5])]).
Proof. split; vm_compute; reflexivity. Qed.

(** ** The theorem on this machine *)

Lemma running_updatable : updatable no_sum meta_device booted_meta.(disk) kept (replicate 1024 0).
Proof.
  split.
  - split; [exists None; vm_compute; reflexivity|]. split; [vm_compute; discriminate|vm_compute; reflexivity].
  - intros t [v Hv]. unfold kept in Hv. apply lookup_insert_Some in Hv as [[<- _]|[_ [<- _]%lookup_singleton_Some]]; lia.
  - vm_compute. discriminate.
  - vm_compute. discriminate.
Qed.

(** The machine whose default image is the new one already, when the label is put into META. *)
Definition new_default : machine (W:=table) (S:=resources) (D:=files) :=
  {| mboot := (after (do_upgrade running) running).(mboot); mmeta := booted_meta |}.
Definition put_label := handleMeta no_sum map_to_list meta_error_of true (lit "/dev/sda") [(12, [4; 5])] current_image boot_parts (W:=table) (S:=resources) (D:=files).
Definition all_values : Chubo.Tags := <[12 := [4; 5]]> kept.

Lemma failed_update_reverted_witness : ∃ s' m0 w',
  put_label new_default = Ok (s', inr ()) ∧
  updatable no_sum meta_device s'.(mmeta).(disk) (<[12 := [4; 5]]> (<[Upgrade_tag := bytes_of current_image]> kept)) (replicate 1024 0) ∧
  New no_sum (Some (∅ : resources)) "" s'.(mmeta).(disk) = Ok (m0, inr () : meta_error () + ()) ∧
  revert_loader label_order (lit "/dev/sda") s'.(mboot) = Ok (w', inr ()) ∧
  returns do_revert s' (λ s3 r, s3.(mboot) = w' ∧
    (r = inr () → updatable no_sum meta_device s3.(mmeta).(disk) all_values (replicate 1024 0))).
Proof.
  assert (Hput : InMemory.succeeds (put_label new_default) = true) by (vm_compute; reflexivity).
  assert (Hboot : InMemory.succeeds (revert_loader label_order (lit "/dev/sda") (after (put_label new_default) new_default).(mboot)) = true)
    by (vm_compute; reflexivity).
  assert (Hnew : InMemory.succeeds (New (IOErr:=()) no_sum (Some (∅ : resources)) "" (after (put_label new_default) new_default).(mmeta).(disk)) = true)
    by (vm_compute; reflexivity).
  destruct (put_label new_default) as [[s' [e|[]]]|[]|r] eqn:Hs; [discriminate Hput| |discriminate Hput]. cbn [after] in Hboot, Hnew.
  destruct (revert_loader label_order (lit "/dev/sda") s'.(mboot)) as [[w' [e|[]]]|[]|r] eqn:Hr; [discriminate Hboot| |discriminate Hboot].
  destruct (New (IOErr:=()) no_sum (Some (∅ : resources)) "" s'.(mmeta).(disk)) as [[m0 [e|[]]]|[]|r] eqn:Hm; [discriminate Hnew| |discriminate Hnew].
  exists s', m0, w'. split; [reflexivity|].
  destruct (failed_update_reverted label_order no_sum map_to_list meta_error_of (λ _, eq_refl) (λ _, reflexivity _)
    meta_device ltac:(discriminate) ltac:(intros s vs [= <-]; reflexivity)
    new_default s' (lit "/dev/sda") [(12, [4; 5])] current_image boot_parts (lit "/dev/sda4") kept (replicate 1024 0)) as [Hup Hrev].
  - vm_compute. reflexivity.
  - vm_compute. reflexivity.
  - exact running_updatable.
  - apply Forall_singleton. vm_compute. repeat split; discriminate.
  - discriminate.
  - exact Hs.
  - split; [exact Hup|]. split; [exact Hm|]. split; [exact Hr|].
    eapply returns_mono; [|exact (Hrev s' ∅ m0 (lit "/dev/sda") w' (inr ()) eq_refl Hm Hr)].
    intros s3 r (Hw & _ & Hok). split; [exact Hw|]. intros Hsucc.
    replace all_values with (set_all [(12, [4; 5])] (delete Upgrade_tag kept)) by (vm_compute; reflexivity). apply (Hok Hsucc).
Defined.

(** ** A fallback that is never dropped *)

(** Files where the next write may fail. *)
Record failing := { fails_next : bool; kept_files : files }.
#[local] Instance failing_disk : FileSystem failing () := {|
  fs_open _ _ := None;
  fs_lock _ _ := None;
  fs_content w p := fs_content w.(kept_files) p;
  fs_write_at w p off d :=
    if w.(fails_next) then ({| fails_next := false; kept_files := w.(kept_files) |}, (0, Some ()))
    else let '(f, r) := fs_write_at w.(kept_files) p off d in ({| fails_next := false; kept_files := f |}, r);
  fs_sync w _ := (w, None)
|}.
Definition labelled : Meta Chubo.Tags (list Z) resources failing :=
  let m := blank in
  let tags : Chubo.Tags := <[Upgrade_tag := bytes_of current_image]> kept in
  let flushed := after (Flush (IOErr:=()) no_sum map_to_list
    {| legacy := m.(legacy); advState := tags; resourceState := m.(resourceState); fixedPath := ""; disk := m.(disk) |}) m in
  {| legacy := flushed.(legacy); advState := tags; resourceState := flushed.(resourceState); fixedPath := "";
     disk := {| fails_next := true; kept_files := flushed.(disk) |} |}.
Definition upgraded_machine : machine (W:=table) (S:=resources) (D:=failing) := {| mboot := sd_table current_image; mmeta := labelled |}.
Definition up := drop_fallback (W:=table) (S:=resources) (D:=failing) no_sum map_to_list meta_error_of (inr {| stageRunning := true; statusReady := true |}).
(** The controller fails at the write and is started again; its second turn ends it with
    success, and the label is still on the device. *)
Example label_stays_after_failed_flush :
  match up upgraded_machine with
  | Ok (s1, inl _) =>
      match up s1 with
      | Ok (s2, inr true) =>
          match New (IOErr:=()) no_sum (Some (∅ : resources)) "" s2.(mmeta).(disk) with
          | Ok (m, inr _) => m.(advState) !! Upgrade_tag = Some (bytes_of current_image)
          | _ => False
          end
      | _ => False
      end
  | _ => False
  end.
Proof. vm_compute. reflexivity. Qed.
